(* ===== verification/_CoqProject ===== *)
-Q . S2P
Prelude.v
Bytes.v
Params.v
Types.v
ForkChoice.v
Finality.v
Sample.v
Schedule.v
Committees.v
Signatures.v
Kes.v
Header.v
Attestation.v
Delegation.v
Slashing.v
SlashProt.v
Staking.v
Tokenomics.v
Rewards.v
FeeMarket.v
Cohort.v
Beacon.v
Gossip.v
Ws.v
Codec.v
Tx.v
Smt.v
Utxo.v
Withdrawal.v
Settlement.v
State.v
Transfer.v
Funded.v
L2Tx.v
Pq.v
Lifecycle.v
Apply.v
Epoch.v
Body.v
Block.v
Admission.v
StateRoot.v
