(* ===== verification/Prelude.v ===== *)
(** * Bloch Genesis-4: a verification of the proof-of-stake consensus core

    The program is the Rust workspace under src/.  Its heart is the crate
    [crates/bloch-pos-committee]: a deterministic state transition that takes a committed
    state, a block header with its attestations and its transactions, and gives the next
    state or an error.  Around it stand the parts a node runs before a block exists (the
    attestation pool, the fork choice, the protection of the signing key) and after (the
    weak-subjectivity checkpoints a new node starts from).  This library models that crate
    and the slashing protection of [crates/bloch-pos-node].

    ** How the parts interact

    [compute_post_state] checks the header against the state, closes the epochs the block
    skips ([close_epoch]), draws the proposer and the committees from the RANDAO mix, checks
    the proposer's signature, includes the attestations, folds them into the fork choice,
    applies the transactions under the gas and byte limits, credits the producer and checks
    the supply.  [apply_block] then compares the root of the new state with the header's.
    Closing an epoch feeds the votes to the finality gadget, pays issuance and fees,
    activates deposits and opens the next epoch.

    ** Files, and the sources they model

    Foundations.
    - Prelude: notation, tactics, hints, the monads [result] (an error is a value) and
      [outcome] (value, refusal or panic), checked and saturating arithmetic, record update,
      lemmas on lists, maps and sums.
    - Bytes, Params, Types: byte strings and domain tags, the constants and activation gates
      of params.rs, the records several components share.
    - Codec: the reader of canonical bytes and the laws of encoders and decoders.

    Choosing and agreeing.
    - ForkChoice (forkchoice.rs), Finality (finality.rs), Sample (sample.rs, lib.rs),
      Schedule (schedule.rs), Committees (committees.rs), Beacon (beacon.rs).

    Keys and messages.
    - Signatures and Attestation (attestation.rs), Kes (kes.rs), Header (header.rs), Gossip
      (gossip.rs), Ws (ws.rs), SlashProt (slashprot.rs of the node).

    Stake and money.
    - Delegation (delegation.rs), Slashing (slashing.rs), Staking (staking.rs), Cohort
      (genesis_cohort.rs), Tokenomics (tokenomics_v4.rs), Rewards (rewards.rs and the
      settlement half of fee_market.rs), FeeMarket (fee_market.rs).

    The ledger.
    - Tx: every transaction, its canonical bytes, decoder and signing roots (transition.rs
      and the files of transition/).
    - Smt: the sparse Merkle tree (state_root.rs).  Utxo: the set of unspent outputs
      (transition.rs).  Withdrawal and Settlement: the second layer (l2_settlement.rs).

    The transition.
    - State: [CommittedState], its genesis, rosters, seeds and balance sheet (transition.rs).
    - Transfer, Funded, L2Tx, Pq, Lifecycle: the handlers of the transactions
      (transition.rs, transition/funded.rs, funded_delegation.rs, l2_deposit.rs, l2_da.rs,
      l2_claim.rs, pq_migration.rs, lifecycle.rs).
    - Apply: [apply_transaction] and the check before relay.  Epoch: [close_epoch].
    - Body: the commitments of derive.rs.  Block: [compute_post_state] and [process_epoch].
    - Admission: the evidence checks before a block (transition/evidence_admission.rs).
    - StateRoot: the leaves of the state, the tree over them and [apply_block]
      (state_root.rs, transition.rs, kes.rs, l2_settlement.rs).

    Each file has one module of its own name; definitions carry the names of the source, and
    where one long function is cut into steps, the steps are named after what they do.

    ** Conventions

    Integers are [Z] at the source's width: [add_w], [sub_w], [mul_w] are the checked
    operations of the release profile ([None] is the panic), [saturating_*] and [checked_*]
    the methods of those names.  Where a file uses plain integers its header gives the bound
    that makes them exact.  A 32-byte array is the number it spells.  [BTreeMap] and
    [HashMap] are [gmap]; ordered iteration is [items] or [ascending], and where the code
    iterates over a hash map the order is an argument and the theorems hold for all.

    Code outside src/ is a parameter: SHA3, Keccak and SHAKE are classes with one operation,
    signature and proof verifiers are records of functions.  No theorem assumes a hash to be
    injective; those that need it assume the absence of a collision among the inputs that
    are hashed ([DistinctKeys], [no_collision], [collision_free]), and their witnesses give
    a function for which that holds.  The activation epochs are the records [Gates] and
    [Rules], so that gated rules are covered before they are scheduled; [mainnet] and
    [mainnet_rules] are the source's.  [gates_ordered] (the second reward rule is not active
    before delegations are funded from outputs) is what the accounting of issuance needs of
    a schedule; the source's meets it.

    ** Bounds and fuel

    - The rejection loops of the sortition and of the shuffle are unbounded in the source and
      read at most [fuel] blocks of the stream per draw here.  Nothing is assumed of SHAKE256:
      a draw is shown to run out of fuel only where [fuel] blocks in a row are in the upper
      half of their range, and a result to be the same for every larger fuel.  In the
      transition, running out of fuel is a [Panic], so what is proved of accepted blocks holds
      for every fuel with which they are accepted.
    - The head walk of the fork choice carries the source's own cap on levels, and is shown
      not to reach it on an acyclic tree.
    - The loop over skipped epochs has [MAX_EPOCH_ADVANCE] passes, which the header check
      makes enough ([epoch_loop_terminates]).  The Merkle loop of a body has as many passes
      as leaves, and is shown to need only logarithmically many.
    - The eras and years of the emission curves are bounded by constants of the source.
    - All other recursion is structural (lists, bits of a key, tree depth 256 or 32).

    ** What the theorems show

    - The chain.  From a genesis, every sequence of accepted blocks keeps all amounts
      non-negative and the value on the books within the supply ([chain_well_formed]); an
      accepted block moves the chain strictly forward ([accepted_block]); the supply guards
      are dead code ([supply_guards_never_fire]); double voters lose their vote
      ([equivocation_detected]); slashed validators are ejected; the header commits to the whole state and to one body
      ([header_commits_state], [state_tree_binding], [roots_name_one_body]).
    - Epochs and transactions.  Issuance is what is counted ([epoch_issuance_accounted]); no
      transaction of any kind creates value or rewrites history ([transaction_effects],
      [transfers_conserve_value]); admission of evidence agrees with its application
      ([admission_matches_transition]).
    - Agreement.  The optimised head is the reference head; a justified root has a quorum;
      two justified roots of an epoch expose a slashable third; finality is permanent; the
      leak is bounded.  Sortition and committees are what they should be, or the stream has a
      long run of rejected blocks.
    - Money.  Delegated stake is conserved; penalties are bounded and never doubled; the
      activation queue equals its epoch-by-epoch rule; fees are split without loss; the base
      fee stays in its range.
    - Nodes.  No run of the slashing protection, with crashes and failed writes, signs an
      offence; the pool keeps its seven indexes in step and rejects only provable faults;
      checkpoint envelopes are accepted exactly when they should be.
    - Data.  The wire format is canonical in both directions; transaction ids name the
      spend; the Merkle tree is a function of its content, its proofs are complete and
      sound; the views of the output set never drift; the escrow is accounted for and a
      claim is a committed withdrawal.

    ** Not modelled

    - Cryptography, hashing and proof verification ([crates/bloch-crypto],
      [bloch-mldsa-clean], [fips205], [pqcrypto-internals], [bloch-l2-proof]): parameters.
    - The rest of the node ([engine.rs], networking, RPC, metrics, storage, genesis files,
      keystores, command lines): threads, clocks, sockets, files and calls of what is
      modelled; its behaviour depends on an environment the sources do not determine.
    - Instrumentation, counters, texts of errors, [cfg(test)] switches and test modules; the
      copy-on-write sharing of snapshots, which does not show in values; the observer of
      [compute_post_state]; caches on disk ([local_cache.rs]) and the rehearsal builds
      ([native_dex.rs], [slashing_rehearsal.rs]), which no block reaches.
    - Crates the consensus core does not call ([bloch-euvm], [bloch-ffg], [bloch-ustav],
      [bloch-finality-cert], the wallets, the previous chain, services and applications);
      of the shielded pool the core carries two roots, which are fields of the state. *)

From stdpp Require Export sorting base numbers option list gmap.

(** ** Notation and automation of the development *)

Declare Scope bloch_scope.
Delimit Scope bloch_scope with bloch.

(** A 32-byte array ([[u8; 32]]: block roots, hashes, keys).  The code only
    compares such arrays, so they are kept as the number their 32 bytes spell
    in big-endian order: equality is equality of arrays, and [<] is the
    lexicographic order of arrays of equal length. *)
Abbreviation hash := Z (only parsing).

Create HintDb bloch discriminated.

(** Case analysis on the innermost [match]/[if] of the goal or of [H]. *)
Ltac case_goal :=
  match goal with
  | |- context [match ?x with _ => _ end] =>
      lazymatch x with
      | context [match _ with _ => _ end] => fail
      | _ => destruct x eqn:?
      end
  end.

Tactic Notation "case_goal" "as" ident(H) :=
  match goal with
  | |- context [match ?x with _ => _ end] =>
      lazymatch x with
      | context [match _ with _ => _ end] => fail
      | _ => destruct x eqn:H
      end
  end.

Ltac case_in H :=
  match type of H with
  | context [match ?x with _ => _ end] =>
      lazymatch x with
      | context [match _ with _ => _ end] => fail
      | _ => destruct x eqn:?
      end
  end.

(** Case analysis on a [decide] of the goal (hypotheses are left alone). *)
Tactic Notation "gdec" "as" simple_intropattern(pat) :=
  match goal with |- context [decide ?P] => destruct (decide P) as pat end.
Ltac gdec :=
  match goal with |- context [decide ?P] => destruct (decide P) end.

(** Turn the boolean tests of the code into the propositions they decide. *)
Ltac boolp :=
  repeat match goal with
  | H : (_ && _) = true |- _ => apply andb_true_iff in H as [? ?]
  | H : (_ || _) = false |- _ => apply orb_false_iff in H as [? ?]
  | H : (_ && _) = false |- _ => apply andb_false_iff in H
  | H : (_ || _) = true |- _ => apply orb_true_iff in H
  | H : negb _ = true |- _ => apply negb_true_iff in H
  | H : negb _ = false |- _ => apply negb_false_iff in H
  | H : (_ <=? _)%Z = true |- _ => apply Z.leb_le in H
  | H : (_ <=? _)%Z = false |- _ => apply Z.leb_gt in H
  | H : (_ <? _)%Z = true |- _ => apply Z.ltb_lt in H
  | H : (_ <? _)%Z = false |- _ => apply Z.ltb_ge in H
  | H : (_ =? _)%Z = true |- _ => apply Z.eqb_eq in H
  | H : (_ =? _)%Z = false |- _ => apply Z.eqb_neq in H
  | H : bool_decide _ = true |- _ => apply bool_decide_eq_true_1 in H
  | H : bool_decide _ = false |- _ => apply bool_decide_eq_false_1 in H
  end.

(** [lia] after replacing [/] and [mod] by their defining inequations. *)
Ltac zlia := Z.to_euclidean_division_equations; nia.

(** ** Fallible computations: Rust's [Result<T, E>] *)

Inductive result (E T : Type) : Type :=
| Ok (t : T)
| Err (e : E).
Global Arguments Ok {E T} t.
Global Arguments Err {E T} e.

Global Instance result_ret {E} : MRet (result E) := λ T t, Ok t.
Global Instance result_bind {E} : MBind (result E) := λ T U f r,
  match r with Ok t => f t | Err e => Err e end.

(** [Option::ok_or] *)
Definition ok_or {E T} (o : option T) (e : E) : result E T :=
  match o with Some t => Ok t | None => Err e end.

Definition is_ok {E T} (r : result E T) : bool :=
  match r with Ok _ => true | Err _ => false end.

Lemma result_bind_Ok {E T U} (r : result E T) (f : T → result E U) (u : U) :
  (r ≫= f) = Ok u ↔ ∃ t, r = Ok t ∧ f t = Ok u.
Proof. destruct r; simpl; naive_solver. Qed.

Lemma ok_or_Ok {E T} (o : option T) (e : E) (t : T) :
  ok_or o e = Ok t ↔ o = Some t.
Proof. destruct o; simpl; naive_solver. Qed.

(** ** Computations that can also panic

    [outcome E T] is a call that returns [Ok], returns [Err], or panics: an
    overflow under [overflow-checks], an index out of range, a failed [assert!]. *)

Inductive outcome (E T : Type) : Type :=
| Ret (t : T)
| Rej (e : E)
| Panic.
Global Arguments Ret {E T} t.
Global Arguments Rej {E T} e.
Global Arguments Panic {E T}.

Global Instance outcome_ret {E} : MRet (outcome E) := λ T t, Ret t.
Global Instance outcome_bind {E} : MBind (outcome E) := λ T U f r,
  match r with Ret t => f t | Rej e => Rej e | Panic => Panic end.

(** A partial operation whose [None] is the panic. *)
Definition must {E T} (o : option T) : outcome E T :=
  match o with Some t => Ret t | None => Panic end.
(** [Option::ok_or(e)?] and [Result::map_err(f)?] *)
Definition or_rej {E T} (o : option T) (e : E) : outcome E T :=
  match o with Some t => Ret t | None => Rej e end.
Definition rej_as {E F T} (f : F → E) (r : outcome F T) : outcome E T :=
  match r with Ret t => Ret t | Rej e => Rej (f e) | Panic => Panic end.
Definition of_result {E T} (r : result E T) : outcome E T :=
  match r with Ok t => Ret t | Err e => Rej e end.
(** [if !ok { return Err(e) }] *)
Definition require {E} (ok : bool) (e : E) : outcome E unit := if ok then Ret tt else Rej e.

Section outcome_laws.
Context {E T U : Type}.

Lemma outcome_bind_Ret (r : outcome E T) (f : T → outcome E U) (u : U) :
  (r ≫= f) = Ret u ↔ ∃ t, r = Ret t ∧ f t = Ret u.
Proof. destruct r; simpl; naive_solver. Qed.

Lemma must_Ret (o : option T) (t : T) : @must E T o = Ret t ↔ o = Some t.
Proof. destruct o; simpl; naive_solver. Qed.

Lemma or_rej_Ret (o : option T) (e : E) (t : T) : or_rej o e = Ret t ↔ o = Some t.
Proof. destruct o; simpl; naive_solver. Qed.

Lemma rej_as_Ret {F} (f : F → E) (r : outcome F T) (t : T) : rej_as f r = Ret t ↔ r = Ret t.
Proof. destruct r; simpl; naive_solver. Qed.

Lemma of_result_Ret (r : result E T) (t : T) : of_result r = Ret t ↔ r = Ok t.
Proof. destruct r; simpl; naive_solver. Qed.

Lemma require_Ret (ok : bool) (e : E) (t : unit) : require ok e = Ret t ↔ ok = true.
Proof. destruct ok, t; simpl; naive_solver. Qed.
End outcome_laws.

(** Takes apart a chain of binds that returned: one equation per step, with the wrappers
    of the step removed. *)
Ltac outcome_head H :=
  lazymatch type of H with
  | must _ = Ret _ => apply must_Ret in H
  | or_rej _ _ = Ret _ => apply or_rej_Ret in H
  | of_result _ = Ret _ => apply of_result_Ret in H
  | rej_as _ _ = Ret _ => apply rej_as_Ret in H; outcome_head H
  | require _ _ = Ret _ => apply require_Ret in H
  | _ => idtac
  end.
Ltac outcome_value x :=
  lazymatch type of x with
  | (_ * _)%type =>
      let a := fresh "a" in let b := fresh "b" in destruct x as [a b]; outcome_value a; outcome_value b
  | unit => destruct x
  | _ => idtac
  end.
Ltac outcome_inv H :=
  repeat match type of H with
  | (_ ≫= _) = Ret _ =>
      let x := fresh "x" in let Hx := fresh "Hx" in
      apply outcome_bind_Ret in H as (x & Hx & H); outcome_head Hx;
      outcome_value x; cbv beta iota in H
  | (let _ := _ in _) = Ret _ => cbv zeta in H
  end.

(** ** Field updates of records

    [x <| f := v |>] is the record [x] with the field [f] replaced, Rust's assignment to
    a field of a [&mut self].  A record type states its eta expansion once; the setter of
    a field comes from abstracting the projection in it. *)

Class Eta (R : Type) := eta : R → R.
Class Setter {R T : Type} (proj : R → T) := setter : (T → T) → R → R.
Global Arguments setter {R T} proj {_} _ _ : simpl nomatch.

Ltac solve_setter :=
  match goal with
  | |- @Setter ?R ?T ?proj =>
      let inst := constr:(_ : Eta R) in
      let e := eval hnf in inst in
      match eval pattern proj in e with
      | ?f _ => let s := eval cbv beta in (λ g : T → T, f (λ r, g (proj r))) in exact s
      end
  end.
Global Hint Extern 1 (@Setter _ _ _) => solve_setter : typeclass_instances.

Notation "x <| proj := v |>" := (setter proj (λ _, v) x)
  (at level 12, left associativity, format "x  <| proj  :=  v |>").

(** ** Machine integers

    A [uN] is a [Z] kept in [0 .. uN_MAX].  [checked_*] returns [None] where
    Rust's does; [saturating_*] clamps.  The release profile of the workspace
    sets [overflow-checks = true], so a plain [+], [-] or [*] that leaves the
    width panics: [add_w], [sub_w] and [mul_w] return [None] there. *)

Local Open Scope Z_scope.

Definition u8_MAX : Z := 2 ^ 8 - 1.
Definition u16_MAX : Z := 2 ^ 16 - 1.
Definition u32_MAX : Z := 2 ^ 32 - 1.
Definition u64_MAX : Z := 2 ^ 64 - 1.
Definition u128_MAX : Z := 2 ^ 128 - 1.
Definition usize_MAX : Z := u64_MAX.

Definition checked_add (w a b : Z) : option Z := if a + b <=? w then Some (a + b) else None.
Definition checked_sub (a b : Z) : option Z := if b <=? a then Some (a - b) else None.
Definition checked_mul (w a b : Z) : option Z := if a * b <=? w then Some (a * b) else None.
Definition checked_div (a b : Z) : option Z := if b =? 0 then None else Some (a / b).
Definition checked_rem (a b : Z) : option Z := if b =? 0 then None else Some (a mod b).

Definition saturating_add (w a b : Z) : Z := Z.min w (a + b).
Definition saturating_sub (a b : Z) : Z := Z.max 0 (a - b).
Definition saturating_mul (w a b : Z) : Z := Z.min w (a * b).

(** Overflow-checked operators: [None] is the panic. *)
Definition add_w (w a b : Z) : option Z := checked_add w a b.
Definition sub_w (a b : Z) : option Z := checked_sub a b.
Definition mul_w (w a b : Z) : option Z := checked_mul w a b.
Definition div_w (a b : Z) : option Z := checked_div a b.

(** [uN::try_from] of a wider non-negative value. *)
Definition try_from (w a : Z) : option Z := if a <=? w then Some a else None.

Lemma checked_add_Some w a b c : checked_add w a b = Some c ↔ a + b ≤ w ∧ c = a + b.
Proof. unfold checked_add. case_match; boolp; naive_solver lia. Qed.

Lemma checked_sub_Some a b c : checked_sub a b = Some c ↔ b ≤ a ∧ c = a - b.
Proof. unfold checked_sub. case_match; boolp; naive_solver lia. Qed.

Lemma checked_mul_Some w a b c : checked_mul w a b = Some c ↔ a * b ≤ w ∧ c = a * b.
Proof. unfold checked_mul. case_match; boolp; naive_solver lia. Qed.

Lemma checked_div_Some a b c : checked_div a b = Some c ↔ b ≠ 0 ∧ c = a / b.
Proof. unfold checked_div. case_match; boolp; naive_solver. Qed.

Lemma add_w_ok w a b : a + b ≤ w → add_w w a b = Some (a + b).
Proof. intros. by apply checked_add_Some. Qed.

Lemma sub_w_ok a b : b ≤ a → sub_w a b = Some (a - b).
Proof. intros. by apply checked_sub_Some. Qed.

Lemma mul_w_ok w a b : a * b ≤ w → mul_w w a b = Some (a * b).
Proof. intros. by apply checked_mul_Some. Qed.

Lemma add_w_Some w a b c : add_w w a b = Some c ↔ a + b ≤ w ∧ c = a + b.
Proof. apply checked_add_Some. Qed.

Lemma sub_w_Some a b c : sub_w a b = Some c ↔ b ≤ a ∧ c = a - b.
Proof. apply checked_sub_Some. Qed.

Lemma mul_w_Some w a b c : mul_w w a b = Some c ↔ a * b ≤ w ∧ c = a * b.
Proof. apply checked_mul_Some. Qed.

Lemma try_from_Some w a c : try_from w a = Some c ↔ a ≤ w ∧ c = a.
Proof. unfold try_from. case_match; boolp; naive_solver lia. Qed.

(** Every checked operation that succeeded, as an equation and its bound. *)
Ltac checked_inv :=
  repeat match goal with
  | H : checked_add _ _ _ = Some _ |- _ => apply checked_add_Some in H as [? ->]
  | H : checked_sub _ _ = Some _ |- _ => apply checked_sub_Some in H as [? ->]
  | H : checked_mul _ _ _ = Some _ |- _ => apply checked_mul_Some in H as [? ->]
  | H : checked_div _ _ = Some _ |- _ => apply checked_div_Some in H as [? ->]
  | H : add_w _ _ _ = Some _ |- _ => apply add_w_Some in H as [? ->]
  | H : sub_w _ _ = Some _ |- _ => apply sub_w_Some in H as [? ->]
  | H : mul_w _ _ _ = Some _ |- _ => apply mul_w_Some in H as [? ->]
  | H : try_from _ _ = Some _ |- _ => apply try_from_Some in H as [? ->]
  end.

(** A share [x * p / q] with [0 ≤ p ≤ q] is between 0 and [x]. *)
Lemma share_bounds x p q : 0 ≤ x → 0 ≤ p ≤ q → 0 ≤ x * p / q ≤ x.
Proof.
  intros Hx [Hp Hpq]. destruct (decide (q = 0)) as [->|Hq].
  { rewrite Z.div_0_r. lia. }
  split; [apply Z.div_pos; nia|].
  apply Z.div_le_upper_bound; nia.
Qed.

(** ** Sums of integers over lists and maps *)

Fixpoint sumZ (l : list Z) : Z :=
  match l with [] => 0 | x :: l => x + sumZ l end.

Lemma sumZ_app l1 l2 : sumZ (l1 ++ l2) = sumZ l1 + sumZ l2.
Proof. induction l1; simpl; lia. Qed.

Global Instance sumZ_Permutation : Proper ((≡ₚ) ==> (=)) sumZ.
Proof. induction 1; simpl; lia. Qed.

Lemma sumZ_nonneg l : Forall (Z.le 0) l → 0 ≤ sumZ l.
Proof. induction 1; simpl; lia. Qed.

Section sum_map.
Context {A : Type}.
Implicit Types (f g : A → Z) (l : list A).

Lemma sumZ_fmap_ext f g l :
  (∀ x, x ∈ l → f x = g x) → sumZ (f <$> l) = sumZ (g <$> l).
Proof.
  induction l as [|x l IH]; csimpl; intros Hfg; [done|].
  rewrite Hfg, IH; [done| |]; set_solver.
Qed.

Lemma sumZ_fmap_le f g l :
  (∀ x, x ∈ l → f x ≤ g x) → sumZ (f <$> l) ≤ sumZ (g <$> l).
Proof.
  induction l as [|x l IH]; csimpl; intros Hfg; [done|].
  assert (f x ≤ g x) by (apply Hfg; set_solver).
  assert (sumZ (f <$> l) ≤ sumZ (g <$> l)) by (apply IH; set_solver). lia.
Qed.

Lemma sumZ_fmap_add f g l :
  sumZ ((λ x, f x + g x) <$> l) = sumZ (f <$> l) + sumZ (g <$> l).
Proof. induction l; csimpl; lia. Qed.

Lemma sumZ_fmap_const0 f l : (∀ x, x ∈ l → f x = 0) → sumZ (f <$> l) = 0.
Proof.
  induction l as [|x l IH]; csimpl; intros Hf; [done|].
  rewrite Hf, IH; [done| |]; set_solver.
Qed.

Lemma sumZ_fmap_nonneg f l : (∀ x, x ∈ l → 0 ≤ f x) → 0 ≤ sumZ (f <$> l).
Proof.
  induction l as [|x l IH]; csimpl; intros Hf; [done|].
  assert (0 ≤ f x) by (apply Hf; set_solver).
  assert (0 ≤ sumZ (f <$> l)) by (apply IH; set_solver). lia.
Qed.

Lemma sumZ_fmap_elem f l x :
  (∀ y, y ∈ l → 0 ≤ f y) → x ∈ l → f x ≤ sumZ (f <$> l).
Proof.
  induction l as [|y l IH]; csimpl; intros Hf Hx; [set_solver|].
  assert (0 ≤ f y) by (apply Hf; set_solver).
  assert (0 ≤ sumZ (f <$> l)) by (apply sumZ_fmap_nonneg; set_solver).
  apply elem_of_cons in Hx as [->|Hx]; [lia|].
  assert (f x ≤ sumZ (f <$> l)) by (apply IH; set_solver). lia.
Qed.

Lemma sumZ_fmap_bound f l b :
  (∀ x, x ∈ l → f x ≤ b) → sumZ (f <$> l) ≤ b * Z.of_nat (length l).
Proof.
  induction l as [|x l IH]; csimpl; intros Hf; [lia|].
  assert (f x ≤ b) by (apply Hf; set_solver).
  assert (sumZ (f <$> l) ≤ b * Z.of_nat (length l)) by (apply IH; set_solver). lia.
Qed.

(** Summing a term only where [P] holds is summing over the filtered list. *)
Lemma sumZ_filter (P : A → Prop) `{∀ x, Decision (P x)} f l :
  sumZ (f <$> filter P l) = sumZ ((λ x, if decide (P x) then f x else 0) <$> l).
Proof.
  induction l as [|x l IH]; csimpl; [done|].
  rewrite filter_cons. case_decide; csimpl; lia.
Qed.
End sum_map.

(** The sum of [f k v] over the entries of a map. *)
Definition map_sum `{Countable K} {V} (f : K → V → Z) (m : gmap K V) : Z :=
  sumZ (uncurry f <$> map_to_list m).

Section map_sum.
Context `{Countable K} {V : Type}.
Implicit Types (m : gmap K V) (f g : K → V → Z).

Lemma map_sum_empty f : map_sum f (∅ : gmap K V) = 0.
Proof. unfold map_sum. by rewrite map_to_list_empty. Qed.

Lemma map_sum_insert f m k v :
  m !! k = None → map_sum f (<[k:=v]> m) = f k v + map_sum f m.
Proof. intros Hk. unfold map_sum. by rewrite map_to_list_insert. Qed.

Lemma map_sum_delete f m k v :
  m !! k = Some v → map_sum f m = f k v + map_sum f (delete k m).
Proof.
  intros Hk. rewrite <-(insert_delete_id m k v Hk) at 1.
  apply map_sum_insert, lookup_delete_eq.
Qed.

Definition at_key f m k : Z := match m !! k with Some v => f k v | None => 0 end.

Lemma map_sum_insert_any f m k v :
  map_sum f (<[k:=v]> m) = map_sum f m - at_key f m k + f k v.
Proof.
  unfold at_key. destruct (m !! k) as [v0|] eqn:Hk.
  - rewrite <-insert_delete_eq, map_sum_insert by apply lookup_delete_eq.
    rewrite (map_sum_delete f m k v0) by done. lia.
  - rewrite map_sum_insert by done. lia.
Qed.

Lemma map_sum_delete_any f m k : map_sum f (delete k m) = map_sum f m - at_key f m k.
Proof.
  unfold at_key. destruct (m !! k) as [v|] eqn:Hk; [|rewrite delete_id by done; lia].
  rewrite (map_sum_delete f m k v) by done. lia.
Qed.

Lemma map_sum_ext f g m :
  (∀ k v, m !! k = Some v → f k v = g k v) → map_sum f m = map_sum g m.
Proof.
  intros Hfg. apply sumZ_fmap_ext. intros [k v] Hkv%elem_of_map_to_list. by apply Hfg.
Qed.

Lemma map_sum_le f g m :
  (∀ k v, m !! k = Some v → f k v ≤ g k v) → map_sum f m ≤ map_sum g m.
Proof.
  intros Hfg. apply sumZ_fmap_le. intros [k v] Hkv%elem_of_map_to_list. by apply Hfg.
Qed.

Lemma map_sum_nonneg f m :
  (∀ k v, m !! k = Some v → 0 ≤ f k v) → 0 ≤ map_sum f m.
Proof.
  intros Hf. apply sumZ_fmap_nonneg. intros [k v] Hkv%elem_of_map_to_list. by apply Hf.
Qed.

Lemma map_sum_elem f m k v :
  (∀ k v, m !! k = Some v → 0 ≤ f k v) → m !! k = Some v → f k v ≤ map_sum f m.
Proof.
  intros Hf Hk. apply (sumZ_fmap_elem (uncurry f) _ (k, v)).
  - intros [k' v'] Hkv%elem_of_map_to_list. by apply Hf.
  - by apply elem_of_map_to_list.
Qed.

Lemma map_sum_subseteq f m m' :
  (∀ k v, m !! k = Some v → 0 ≤ f k v) → m' ⊆ m → map_sum f m' ≤ map_sum f m.
Proof.
  revert m. induction m' as [|i x m0 Hi IH] using map_ind; intros m Hf Hsub.
  { rewrite map_sum_empty. by apply map_sum_nonneg. }
  assert (m !! i = Some x) as Hm by (eapply lookup_weaken; [apply lookup_insert_eq|done]).
  rewrite map_sum_insert by done. rewrite (map_sum_delete f m i x Hm).
  assert (map_sum f m0 ≤ map_sum f (delete i m)); [|lia]. apply IH.
  - intros k v [_ Hk]%lookup_delete_Some. by apply Hf.
  - apply map_subseteq_spec. intros k v Hk. destruct (decide (i = k)) as [->|Hne]; [congruence|].
    rewrite lookup_delete_ne by done. eapply lookup_weaken; [|exact Hsub]. by rewrite lookup_insert_ne.
Qed.

Lemma map_sum_zero f m :
  (∀ k v, m !! k = Some v → f k v = 0) → map_sum f m = 0.
Proof.
  intros Hf. apply sumZ_fmap_const0. intros [k v] Hkv%elem_of_map_to_list. by apply Hf.
Qed.

Lemma map_sum_add f g m :
  map_sum (λ k v, f k v + g k v) m = map_sum f m + map_sum g m.
Proof.
  unfold map_sum. rewrite <-sumZ_fmap_add. apply sumZ_fmap_ext. by intros [k v] _.
Qed.
End map_sum.

Lemma map_sum_scale `{Countable K} {V} (a : Z) (f : K → V → Z) (m : gmap K V) :
  map_sum (λ k v, a * f k v) m = a * map_sum f m.
Proof.
  unfold map_sum. induction (map_to_list m) as [|[k v] l IH]; csimpl; lia.
Qed.

(** Exchanging two finite sums. *)
Lemma map_sum_swap `{Countable K1, Countable K2} {V1 V2}
    (f : K1 → V1 → K2 → V2 → Z) (m1 : gmap K1 V1) (m2 : gmap K2 V2) :
  map_sum (λ k1 v1, map_sum (f k1 v1) m2) m1 =
    map_sum (λ k2 v2, map_sum (λ k1 v1, f k1 v1 k2 v2) m1) m2.
Proof.
  induction m1 as [|k v m1 Hk IH] using map_ind.
  - rewrite map_sum_empty. symmetry. apply map_sum_zero.
    intros. apply map_sum_empty.
  - rewrite map_sum_insert, IH by done. rewrite <-map_sum_add.
    apply map_sum_ext. intros. by rewrite map_sum_insert.
Qed.

#[export] Hint Resolve map_sum_empty : bloch.

(** ** Counters keyed by a map: [*m.entry(k).or_insert(0) += d] *)

Definition get0 `{Countable K} (m : gmap K Z) (k : K) : Z := default 0 (m !! k).
Definition map_add `{Countable K} (m : gmap K Z) (k : K) (d : Z) : gmap K Z :=
  <[k := get0 m k + d]> m.

Section counters.
Context `{Countable K}.
Implicit Types (m : gmap K Z) (k x : K).

Lemma get0_empty k : get0 (∅ : gmap K Z) k = 0.
Proof. unfold get0. by rewrite lookup_empty. Qed.

Lemma get0_insert m k x d : get0 (<[k:=d]> m) x = if decide (x = k) then d else get0 m x.
Proof.
  unfold get0. case_decide; subst; [by rewrite lookup_insert_eq|].
  by rewrite lookup_insert_ne.
Qed.

Lemma get0_map_add m k x d :
  get0 (map_add m k d) x = get0 m x + if decide (x = k) then d else 0.
Proof. unfold map_add. rewrite get0_insert. case_decide; subst; lia. Qed.

Lemma get0_delete m k x : get0 (delete k m) x = if decide (x = k) then 0 else get0 m x.
Proof.
  unfold get0. case_decide; subst; [by rewrite lookup_delete_eq|].
  by rewrite lookup_delete_ne.
Qed.

(** Folding [map_add] over a list adds, at every key, the terms of that key. *)
Lemma get0_foldl_map_add {A} (key : A → K) (val : A → Z) (l : list A) m x :
  get0 (foldl (λ m a, map_add m (key a) (val a)) m l) x =
    get0 m x + sumZ ((λ a, if decide (key a = x) then val a else 0) <$> l).
Proof.
  revert m. induction l as [|a l IH]; intros m; csimpl; [lia|].
  rewrite IH, get0_map_add. repeat case_decide; subst; congruence || lia.
Qed.

Lemma dom_map_add m k d : dom (map_add m k d) = {[k]} ∪ dom m.
Proof. apply dom_insert_L. Qed.

Lemma dom_foldl_map_add {A} (key : A → K) (val : A → Z) (l : list A) m :
  dom (foldl (λ m a, map_add m (key a) (val a)) m l) = list_to_set (key <$> l) ∪ dom m.
Proof.
  revert m. induction l as [|a l IH]; intros m; csimpl; [set_solver|].
  rewrite IH, dom_map_add. set_solver.
Qed.
End counters.

(** ** [slice.windows(2).all(..)] *)

Fixpoint windows_all {A} (f : A → A → bool) (l : list A) : bool :=
  match l with
  | x :: (y :: _) as l' => f x y && windows_all f l'
  | _ => true
  end.

Lemma windows_all_sorted {A} (f : A → A → bool) (l : list A) :
  (∀ x y z, f x y = true → f y z = true → f x z = true) →
  windows_all f l = true → StronglySorted (λ x y, f x y = true) l.
Proof.
  intros Htr. induction l as [|x l IH]; intros Hw; [constructor|].
  destruct l as [|y l]; [repeat constructor|]. simpl in Hw. apply andb_true_iff in Hw as [Hxy Hw].
  specialize (IH Hw). constructor; [done|]. constructor; [done|].
  apply StronglySorted_cons in IH as [Hy _]. eapply Forall_impl; [exact Hy|]. cbn. eauto.
Qed.

Lemma StronglySorted_NoDup {A} (R : A → A → Prop) (l : list A) :
  (∀ x, ¬ R x x) → StronglySorted R l → NoDup l.
Proof.
  intros Hirr. induction 1 as [|x l Hs IH Hx]; constructor; [|done].
  intros Hin. rewrite Forall_forall in Hx. by apply (Hirr x), Hx.
Qed.

(** ** Counting with [filter] *)

Section count_filter.
Context {A : Type} (P Q : A → Prop) `{∀ x, Decision (P x)} `{∀ x, Decision (Q x)}.

Lemma length_filter_mono (l : list A) :
  (∀ x, x ∈ l → P x → Q x) → (length (filter P l) ≤ length (filter Q l))%nat.
Proof.
  induction l as [|x l IH]; intros HPQ; [done|].
  assert (length (filter P l) ≤ length (filter Q l))%nat by (apply IH; set_solver).
  rewrite !filter_cons. repeat case_decide; simpl; try lia.
  exfalso. set_solver.
Qed.

Lemma length_filter_strict (l : list A) (y : A) :
  (∀ x, x ∈ l → P x → Q x) → y ∈ l → Q y → ¬ P y →
  (length (filter P l) < length (filter Q l))%nat.
Proof.
  induction l as [|x l IH]; intros HPQ Hy HQ HP; [set_solver|].
  rewrite !filter_cons. apply elem_of_cons in Hy as [->|Hy].
  - rewrite decide_False, decide_True by done. simpl.
    pose proof (length_filter_mono l ltac:(set_solver)). lia.
  - assert (length (filter P l) < length (filter Q l))%nat
      by (apply IH; [set_solver|done..]).
    repeat case_decide; simpl; try lia. exfalso. set_solver.
Qed.
End count_filter.

(** ** Ordered iteration: the keys of a [BTreeMap]/[BTreeSet] in order *)

Definition ascending (s : gset Z) : list Z := merge_sort Z.le (elements s).

Lemma ascending_perm s : ascending s ≡ₚ elements s.
Proof. apply merge_sort_Permutation. Qed.

Lemma elem_of_ascending s x : x ∈ ascending s ↔ x ∈ s.
Proof. by rewrite ascending_perm, elem_of_elements. Qed.

Lemma NoDup_ascending s : NoDup (ascending s).
Proof. rewrite ascending_perm. apply NoDup_elements. Qed.

Lemma ascending_sorted s : StronglySorted Z.le (ascending s).
Proof. apply (StronglySorted_merge_sort Z.le). Qed.

Lemma ascending_last s k : last (ascending s) = Some k → ∀ x, x ∈ s → x ≤ k.
Proof.
  intros Hk x Hx. apply last_Some in Hk as [l Hl]. pose proof (ascending_sorted s) as Hs.
  rewrite <- elem_of_ascending, Hl in Hx. rewrite Hl in Hs. apply elem_of_app in Hx as [Hx|Hx].
  - apply StronglySorted_app in Hs as (Hs & _). apply Hs; set_solver.
  - apply list_elem_of_singleton in Hx as ->. lia.
Qed.

(** The entries of a [BTreeMap] in order. *)
Definition items {V} (m : gmap Z V) : list (Z * V) :=
  omap (λ k, pair k <$> m !! k) (ascending (dom m)).

Lemma elem_of_items {V} (m : gmap Z V) k v : (k, v) ∈ items m ↔ m !! k = Some v.
Proof.
  unfold items. rewrite list_elem_of_omap. split.
  - intros (k' & _ & Hk). apply fmap_Some in Hk as (v' & Hk & [= <- <-]). done.
  - intros Hk. exists k. rewrite elem_of_ascending, elem_of_dom, Hk. eauto.
Qed.

Lemma keys_items {V} (m : gmap Z V) : (items m).*1 = ascending (dom m).
Proof.
  unfold items. assert (∀ k, k ∈ ascending (dom m) → is_Some (m !! k)) as Hk.
  { intros k. by rewrite elem_of_ascending, elem_of_dom. }
  induction (ascending (dom m)) as [|k ks IH]; csimpl; [done|].
  destruct (Hk k) as [v ->]; [set_solver|]. csimpl. rewrite IH by set_solver. done.
Qed.

Lemma items_perm {V} (m : gmap Z V) : items m ≡ₚ map_to_list m.
Proof.
  apply NoDup_Permutation.
  - apply (NoDup_fmap_1 fst). rewrite keys_items. apply NoDup_ascending.
  - apply NoDup_map_to_list.
  - intros [k v]. by rewrite elem_of_items, elem_of_map_to_list.
Qed.

(** ** Maps built by inserting the elements of a list in order *)

Section insert_all.
Context `{Countable K} {A V : Type} (key : A → K) (val : A → V).
Implicit Types (l : list A) (m : gmap K V).

Definition insert_all (m : gmap K V) (l : list A) : gmap K V :=
  foldl (λ m a, <[key a := val a]> m) m l.

Lemma lookup_insert_all_notin m l k :
  k ∉ key <$> l → insert_all m l !! k = m !! k.
Proof.
  unfold insert_all. revert m. induction l as [|a l IH]; intros m Hk; csimpl in *; [done|].
  rewrite IH by set_solver. rewrite lookup_insert_ne; set_solver.
Qed.

Lemma lookup_insert_all m l a :
  NoDup (key <$> l) → a ∈ l → insert_all m l !! key a = Some (val a).
Proof.
  unfold insert_all. revert m. induction l as [|b l IH]; intros m Hnd Ha; csimpl in *;
    [by apply elem_of_nil in Ha|].
  apply NoDup_cons in Hnd as [Hb Hnd]. apply elem_of_cons in Ha as [->|Ha].
  - change (insert_all (<[key b := val b]> m) l !! key b = Some (val b)).
    by rewrite lookup_insert_all_notin, lookup_insert_eq.
  - by apply IH.
Qed.

Lemma lookup_insert_all_inv m l k v :
  insert_all m l !! k = Some v →
  m !! k = Some v ∨ ∃ a, a ∈ l ∧ key a = k ∧ val a = v.
Proof.
  unfold insert_all. revert m. induction l as [|b l IH]; intros m Hk; csimpl in *; [by left|].
  apply IH in Hk as [Hk|(a & ? & ? & ?)]; [|right; exists a; set_solver].
  apply lookup_insert_Some in Hk as [[<- <-]|[? ?]]; [right; exists b|left]; set_solver.
Qed.

Lemma dom_insert_all m l : dom (insert_all m l) = list_to_set (key <$> l) ∪ dom m.
Proof.
  unfold insert_all. revert m. induction l as [|b l IH]; intros m; csimpl; [set_solver|].
  rewrite IH, dom_insert_L. set_solver.
Qed.
End insert_all.

Lemma sumZ_fmap_comp {A B} (f : B → Z) (g : A → B) l :
  sumZ ((λ x, f (g x)) <$> l) = sumZ (f <$> (g <$> l)).
Proof. by rewrite <-list_fmap_compose. Qed.

(** A sum over a map is a sum over any duplicate-free list covering its keys. *)
Lemma map_sum_keys `{Countable K} {V} (f : K → V → Z) (m : gmap K V) (ks : list K) :
  NoDup ks → (∀ k, is_Some (m !! k) → k ∈ ks) →
  map_sum f m = sumZ ((λ k, match m !! k with Some v => f k v | None => 0 end) <$> ks).
Proof.
  revert m. induction ks as [|k ks IH]; intros m Hnd Hm.
  - replace m with (∅ : gmap K V); [apply map_sum_empty|].
    symmetry. apply map_empty. intros k. destruct (m !! k) eqn:Hk; [|done].
    exfalso. by apply (not_elem_of_nil k), Hm.
  - apply NoDup_cons in Hnd as [Hk Hnd]. csimpl.
    assert (map_sum f (delete k m) =
      sumZ ((λ k, match m !! k with Some v => f k v | None => 0 end) <$> ks)) as Hrest.
    { rewrite IH; [|done|].
      - apply sumZ_fmap_ext. intros k' Hk'. rewrite lookup_delete_ne; set_solver.
      - intros k' Hk'. destruct (decide (k' = k)) as [->|Hne].
        + rewrite lookup_delete_eq in Hk'. by destruct Hk'.
        + rewrite lookup_delete_ne in Hk' by done. apply Hm in Hk'. set_solver. }
    destruct (m !! k) as [v|] eqn:Hmk.
    + rewrite <-Hrest. rewrite (map_sum_delete f m k v) by done. lia.
    + rewrite <-Hrest, delete_id by done. lia.
Qed.

(** Keys outside the list only make the sum over the map larger. *)
Lemma map_sum_keys_le `{Countable K} (m : gmap K Z) (ks : list K) :
  NoDup ks → (∀ k v, m !! k = Some v → 0 ≤ v) →
  sumZ (get0 m <$> ks) ≤ map_sum (λ _ v, v) m.
Proof.
  revert m. induction ks as [|k ks IH]; intros m Hnd Hm; csimpl.
  - apply map_sum_nonneg. eauto.
  - apply NoDup_cons in Hnd as [Hk Hnd].
    assert (sumZ (get0 m <$> ks) ≤ map_sum (λ _ v, v) (delete k m)) as Hrest.
    { rewrite (sumZ_fmap_ext (get0 m) (get0 (delete k m))).
      - apply IH; [done|]. intros k' v Hv. apply lookup_delete_Some in Hv. naive_solver.
      - intros x Hx. rewrite get0_delete, decide_False; set_solver. }
    unfold get0 at 1. destruct (m !! k) as [v|] eqn:Hmk; simpl.
    + rewrite (map_sum_delete (λ _ v, v) m k v) by done. lia.
    + rewrite delete_id in Hrest by done. lia.
Qed.

Lemma lookup_foldl_delete `{Countable K} {V} (m : gmap K V) (l : list K) k :
  foldl (λ m v, delete v m) m l !! k = if decide (k ∈ l) then None else m !! k.
Proof.
  revert m. induction l as [|x l IH]; intros m; simpl.
  - done.
  - rewrite IH. destruct (decide (k = x)) as [->|].
    + rewrite lookup_delete_eq. repeat case_decide; set_solver.
    + rewrite lookup_delete_ne by done. repeat case_decide; set_solver.
Qed.

(** A fold whose step at [a] only rewrites the counter of [key a], by [g]. *)
Lemma get0_foldl_pointwise `{Countable K} {A} (key : A → K)
    (f : gmap K Z → A → gmap K Z) (g : K → Z → Z) (l : list A) m x :
  (∀ m a x, get0 (f m a) x = if decide (x = key a) then g x (get0 m x) else get0 m x) →
  NoDup (key <$> l) →
  get0 (foldl f m l) x = if decide (x ∈ key <$> l) then g x (get0 m x) else get0 m x.
Proof.
  intros Hf. revert m. induction l as [|a l IH]; intros m Hnd; csimpl in *.
  - done.
  - apply NoDup_cons in Hnd as [Ha Hnd]. rewrite IH, Hf by done.
    destruct (decide (x = key a)) as [->|]; repeat case_decide; set_solver.
Qed.

Lemma NoDup_sub {A} (l k : list A) : l ⊆+ k → NoDup k → NoDup l.
Proof.
  intros [k' ->]%submseteq_Permutation Hnd. by apply NoDup_app in Hnd as (? & _).
Qed.
