(* ===== verification/Bytes.v ===== *)
(** * Byte strings, fixed-width encodings and domain tags

    Bytes are [Z]s in [0..255].  [le_bytes n] is [to_le_bytes] of an [n]-byte
    integer, [hash_bytes] the 32 bytes of an array kept as a number.  The hash
    functions of the [sha3] crate are parameters of the definitions that use
    them: classes with one operation each, and their laws where a theorem needs
    one.  The 16-byte domain tags are those of [params.rs]. *)

From Stdlib Require Import Ascii String.
From S2P Require Import Prelude.
Local Open Scope Z_scope.

Module Bytes.

Definition is_byte (b : Z) : Prop := 0 ≤ b < 256.

(** ** Integers *)

Fixpoint le_bytes (n : nat) (z : Z) : list Z :=
  match n with
  | O => []
  | S n => z mod 256 :: le_bytes n (z / 256)
  end.

Fixpoint from_le_bytes (l : list Z) : Z :=
  match l with
  | [] => 0
  | b :: l => b + 256 * from_le_bytes l
  end.

Definition hash_bytes (h : hash) : list Z := reverse (le_bytes 32 h).
(** [to_be_bytes], [from_be_bytes] *)
Definition be_bytes (n : nat) (z : Z) : list Z := reverse (le_bytes n z).
Definition from_be_bytes (l : list Z) : Z := from_le_bytes (reverse l).
Definition from_hash_bytes (l : list Z) : hash := from_le_bytes (reverse l).

(** Range of an array of 32 bytes. *)
Definition is_hash (h : hash) : Prop := 0 ≤ h < 256 ^ 32.

Lemma length_le_bytes n z : length (le_bytes n z) = n.
Proof. revert z. induction n; intros; simpl; auto. Qed.

Lemma length_hash_bytes h : length (hash_bytes h) = 32%nat.
Proof. unfold hash_bytes. by rewrite length_reverse, length_le_bytes. Qed.

Lemma le_bytes_range n z : Forall is_byte (le_bytes n z).
Proof.
  revert z. induction n; intros z; simpl; constructor; [|done].
  unfold is_byte. pose proof (Z.mod_pos_bound z 256). lia.
Qed.

Lemma from_le_bytes_le_bytes (n : nat) z :
  0 ≤ z < 256 ^ Z.of_nat n → from_le_bytes (le_bytes n z) = z.
Proof.
  revert z. induction n as [|n IH]; intros z Hz; simpl.
  - change (256 ^ Z.of_nat 0) with 1 in Hz. lia.
  - rewrite IH.
    + pose proof (Z.div_mod z 256). lia.
    + replace (256 ^ Z.of_nat (S n)) with (256 * 256 ^ Z.of_nat n) in Hz
        by (rewrite Nat2Z.inj_succ, Z.pow_succ_r; lia).
      split; [apply Z.div_pos; lia|]. apply Z.div_lt_upper_bound; lia.
Qed.

Lemma le_bytes_inj (n : nat) x y :
  0 ≤ x < 256 ^ Z.of_nat n → 0 ≤ y < 256 ^ Z.of_nat n → le_bytes n x = le_bytes n y → x = y.
Proof.
  intros Hx Hy E. apply (f_equal from_le_bytes) in E.
  by rewrite !from_le_bytes_le_bytes in E.
Qed.

Lemma from_le_bytes_range l :
  Forall is_byte l → 0 ≤ from_le_bytes l < 256 ^ Z.of_nat (length l).
Proof.
  induction 1 as [|b l Hb _ IH]; [done|]. simpl from_le_bytes.
  replace (256 ^ Z.of_nat (length (b :: l))) with (256 * 256 ^ Z.of_nat (length l))
    by (simpl length; rewrite Nat2Z.inj_succ, Z.pow_succ_r; lia).
  unfold is_byte in Hb. lia.
Qed.

Lemma le_bytes_from_le_bytes n l :
  Forall is_byte l → length l = n → le_bytes n (from_le_bytes l) = l.
Proof.
  intros Hl. revert n. induction Hl as [|b l Hb _ IH]; intros n <-; [done|]. simpl.
  unfold is_byte in Hb. f_equal.
  - rewrite Z.mul_comm, Z.mod_add by lia. by apply Z.mod_small.
  - rewrite <-(IH (length l) eq_refl) at 3. f_equal.
    rewrite Z.mul_comm, Z.div_add by lia. rewrite Z.div_small by lia. lia.
Qed.

Lemma length_be_bytes n z : length (be_bytes n z) = n.
Proof. unfold be_bytes. by rewrite length_reverse, length_le_bytes. Qed.

Lemma be_bytes_inj (n : nat) x y :
  0 ≤ x < 256 ^ Z.of_nat n → 0 ≤ y < 256 ^ Z.of_nat n → be_bytes n x = be_bytes n y → x = y.
Proof. intros Hx Hy E%(inj reverse). by apply (le_bytes_inj n). Qed.

Lemma from_hash_bytes_hash_bytes h : is_hash h → from_hash_bytes (hash_bytes h) = h.
Proof.
  intros. unfold from_hash_bytes, hash_bytes. rewrite reverse_involutive.
  by apply (from_le_bytes_le_bytes 32).
Qed.

Lemma hash_bytes_inj x y : is_hash x → is_hash y → hash_bytes x = hash_bytes y → x = y.
Proof.
  intros Hx Hy E. apply (f_equal from_hash_bytes) in E.
  by rewrite !from_hash_bytes_hash_bytes in E.
Qed.

Lemma hash_bytes_from_hash_bytes l :
  Forall is_byte l → length l = 32%nat → hash_bytes (from_hash_bytes l) = l.
Proof.
  intros Hl Hlen. unfold hash_bytes, from_hash_bytes.
  rewrite le_bytes_from_le_bytes; [apply reverse_involutive| |by rewrite length_reverse].
  by apply Forall_reverse.
Qed.

Lemma from_hash_bytes_range l :
  Forall is_byte l → length l = 32%nat → is_hash (from_hash_bytes l).
Proof.
  intros Hl Hlen. unfold is_hash, from_hash_bytes.
  pose proof (from_le_bytes_range (reverse l)) as Hr. rewrite length_reverse, Hlen in Hr.
  apply Hr. by apply Forall_reverse.
Qed.

Lemma hash_bytes_range h : Forall is_byte (hash_bytes h).
Proof. apply Forall_reverse, le_bytes_range. Qed.

(** A cursor over a byte string: the next [n] bytes and what is left. *)
Definition take_n (n : nat) (bytes : list Z) : option (list Z * list Z) :=
  if (n <=? length bytes)%nat then Some (take n bytes, drop n bytes) else None.

Lemma take_n_app n (a b : list Z) : length a = n → take_n n (a ++ b) = Some (a, b).
Proof.
  intros <-. unfold take_n. rewrite (proj2 (Nat.leb_le _ _)) by (rewrite length_app; lia).
  by rewrite take_app_length, drop_app_length.
Qed.

Lemma take_n_Some n (l a r : list Z) : take_n n l = Some (a, r) → l = a ++ r ∧ length a = n.
Proof.
  unfold take_n. destruct (Nat.leb_spec n (length l)); [|done]. intros [= <- <-].
  split; [by rewrite take_drop|]. rewrite length_take. lia.
Qed.

(** Two encodings made of blocks of the same lengths agree block by block. *)
Lemma app_inj_len {A} (a b c d : list A) :
  length a = length c → a ++ b = c ++ d → a = c ∧ b = d.
Proof. intros. by apply app_inj_1. Qed.

(** [&bytes[a..b]]. *)
Definition slice (a b : nat) (bytes : list Z) : list Z := take (b - a) (drop a bytes).

Lemma slice_here a b n (m s : list Z) :
  length m = n → a = 0%nat → b = n → slice a b (m ++ s) = m.
Proof.
  intros <- -> ->. unfold slice. rewrite drop_0, Nat.sub_0_r. apply take_app_length.
Qed.

Lemma slice_skip a b n (p s : list Z) :
  length p = n → (n ≤ a)%nat → slice a b (p ++ s) = slice (a - n) (b - n) s.
Proof.
  intros <- Ha. unfold slice. rewrite drop_app_ge by done. f_equal. lia.
Qed.

Lemma slice_app a b c (l : list Z) :
  (a ≤ b ≤ c)%nat → slice a b l ++ slice b c l = slice a c l.
Proof.
  intros. unfold slice. replace (drop b l) with (drop (b - a) (drop a l))
    by (rewrite drop_drop; f_equal; lia).
  replace (c - a)%nat with ((b - a) + (c - b))%nat by lia. by rewrite take_take_drop.
Qed.

Lemma length_slice a b (l : list Z) : (a ≤ b ≤ length l)%nat → length (slice a b l) = (b - a)%nat.
Proof. intros. unfold slice. rewrite length_take, length_drop. lia. Qed.

Lemma slice_bytes a b l : Forall is_byte l → Forall is_byte (slice a b l).
Proof. intros. unfold slice. by apply Forall_take, Forall_drop. Qed.

(** Read one field of an encoding made of integers and arrays: skip the blocks
    before it. *)
Ltac read_field :=
  repeat first
    [ rewrite (slice_skip _ _ 4) by (apply length_le_bytes || lia)
    | rewrite (slice_skip _ _ 8) by (apply length_le_bytes || lia)
    | rewrite (slice_skip _ _ 32) by (apply length_hash_bytes || lia) ];
  rewrite ?(slice_here _ _ 4) by (apply length_le_bytes || lia);
  rewrite ?(slice_here _ _ 8) by (apply length_le_bytes || lia);
  rewrite ?(slice_here _ _ 32) by (apply length_hash_bytes || lia).

(** ** Hash functions of the [sha3] crate *)

(** [Sha3_256]: the digest of the absorbed bytes. *)
Class Sha3 := sha3_256 : list Z → hash.

(** [Keccak256::digest] *)
Class Keccak := keccak_256 : list Z → hash.

(** [Shake256] with 32 bytes of output. *)
Class Shake32 := shake256_32 : list Z → hash.

(** [Shake256]: the [n]-th 16-byte block read from the output, as a [u128]. *)
Class Xof := shake256_u128 : list Z → nat → Z.

(** ** Domain tags *)

Fixpoint string_bytes (s : string) : list Z :=
  match s with
  | EmptyString => []
  | String c s => Z.of_N (N_of_ascii c) :: string_bytes s
  end.

Definition tag16 (s : string) : list Z :=
  let b := string_bytes s in (b ++ replicate (16 - length b) 0)%list.

Definition DS_SORTITION : list Z := tag16 "BLCH4:SORTIT".
Definition DS_ATTEST : list Z := tag16 "BLCH4:ATTEST".
Definition DS_BLOCK : list Z := tag16 "BLCH4:BLOCK".
Definition DS_RANDAO : list Z := tag16 "BLCH4:RANDAO".
Definition DS_DEPOSIT : list Z := tag16 "BLCH4:DEPOSIT".
Definition DS_NETSIG2 : list Z := tag16 "BLCH4:NETSIG2".
Definition DS_SLASH : list Z := tag16 "BLCH4:SLASH".
Definition DS_PROPOSE : list Z := tag16 "BLCH4:PROPOSE".
Definition DS_EXIT : list Z := tag16 "BLCH4:EXIT".
Definition DS_STATE : list Z := tag16 "BLCH4:STATE".
Definition DS_SPEND : list Z := tag16 "BLCH4:SPEND".
Definition DS_SPEND2 : list Z := tag16 "BLCH4:SPEND2".
Definition DS_TXID : list Z := tag16 "BLCH4:TXID".
Definition DS_WSCKPT : list Z := tag16 "BLCH4:WSCKPT".
Definition DS_BODY : list Z := tag16 "BLCH4:BODY".
Definition DS_COHERENCE : list Z := tag16 "BLCH4:COHERE".

(** ** Sorted slices *)

(** [slice::binary_search(x).is_ok()]. *)
Fixpoint bisect (fuel : nat) (l : list Z) (x : Z) : bool :=
  match fuel with
  | O => false
  | S fuel =>
      let mid := Nat.div2 (length l) in
      match l !! mid with
      | None => false
      | Some y =>
          if x =? y then true
          else if x <? y then bisect fuel (take mid l) x
          else bisect fuel (drop (S mid) l) x
      end
  end.

Definition binary_search (l : list Z) (x : Z) : bool := bisect (S (length l)) l x.

Lemma bisect_sorted fuel l x :
  (length l < fuel)%nat → StronglySorted Z.lt l → bisect fuel l x = bool_decide (x ∈ l).
Proof.
  revert l. induction fuel as [|fuel IH]; intros l Hf Hs; [lia|]. simpl.
  set (mid := Nat.div2 (length l)).
  destruct (l !! mid) as [y|] eqn:Hy.
  - pose proof (take_drop_middle l mid y Hy) as Hsplit.
    pose proof (lookup_lt_Some _ _ _ Hy) as Hlt.
    assert (StronglySorted Z.lt (take mid l ++ y :: drop (S mid) l)) as Hs'
      by (by rewrite Hsplit).
    apply StronglySorted_app in Hs' as (Hlr & Hl & Hr).
    apply StronglySorted_cons in Hr as [Hy' Hr]. rewrite Forall_forall in Hy'.
    assert (bool_decide (x ∈ l) = bool_decide (x ∈ take mid l ++ y :: drop (S mid) l)) as ->
      by (by rewrite Hsplit).
    destruct (Z.eqb_spec x y) as [->|Hne]; [symmetry; apply bool_decide_eq_true; set_solver|].
    destruct (Z.ltb_spec x y) as [Hxy|Hxy].
    + rewrite IH; [|rewrite length_take; lia|done]. apply bool_decide_ext. split; [set_solver|].
      rewrite elem_of_app, elem_of_cons. intros [?|[?|Hx]]; [done..|].
      specialize (Hy' x Hx). lia.
    + rewrite IH; [|rewrite length_drop; lia|done]. apply bool_decide_ext. split; [set_solver|].
      rewrite elem_of_app, elem_of_cons. intros [Hx|[?|?]]; [|done..].
      specialize (Hlr x y Hx ltac:(set_solver)). lia.
  - apply lookup_ge_None in Hy. destruct l as [|a l].
    + symmetry. apply bool_decide_eq_false. set_solver.
    + subst mid. simpl in *. pose proof (Nat.div2_decr (length l) (length l)).
      destruct (length l) as [|n] eqn:E; simpl in *; [lia|].
      pose proof (Nat.div2_decr n n). lia.
Qed.

Lemma binary_search_sorted l x :
  StronglySorted Z.lt l → binary_search l x = bool_decide (x ∈ l).
Proof. intros. apply bisect_sorted; [lia|done]. Qed.

(** [sort_unstable_by_key] and [dedup_by_key]. *)
Definition key_le {A} (key : A → Z) (a b : A) : Prop := key a ≤ key b.

Global Instance key_le_dec {A} (key : A → Z) : RelDecision (key_le key).
Proof. intros a b. apply Z_le_dec. Defined.
Global Instance key_le_total {A} (key : A → Z) : Total (key_le key).
Proof. intros a b. unfold key_le. lia. Qed.
Global Instance key_le_trans {A} (key : A → Z) : Transitive (key_le key).
Proof. intros a b c. unfold key_le. lia. Qed.

Definition sort_by {A} (key : A → Z) (l : list A) : list A :=
  merge_sort (key_le key) l.

Fixpoint dedup_from {A} (key : A → Z) (prev : Z) (l : list A) : list A :=
  match l with
  | [] => []
  | y :: l => if key y =? prev then dedup_from key prev l else y :: dedup_from key (key y) l
  end.

Definition dedup_by {A} (key : A → Z) (l : list A) : list A :=
  match l with
  | [] => []
  | x :: l => x :: dedup_from key (key x) l
  end.

(** [sort_unstable] and [dedup] on integers. *)
Definition sort (l : list Z) : list Z := sort_by id l.
Definition dedup (l : list Z) : list Z := dedup_by id l.

Section sorting.
Context {A : Type} (key : A → Z).
Implicit Types (l : list A).

Lemma sort_by_perm l : sort_by key l ≡ₚ l.
Proof. apply merge_sort_Permutation. Qed.

Lemma sort_by_sorted l : StronglySorted Z.le (key <$> sort_by key l).
Proof.
  assert (StronglySorted (key_le key) (sort_by key l)) as Hs.
  { apply (StronglySorted_merge_sort _). }
  induction Hs as [|a l' _ IH Hall]; csimpl; constructor; [done|].
  rewrite Forall_fmap. exact Hall.
Qed.

Lemma dedup_from_spec prev l :
  StronglySorted Z.le (prev :: (key <$> l)) →
  StronglySorted Z.lt (prev :: (key <$> dedup_from key prev l)) ∧
  dedup_from key prev l `sublist_of` l ∧
  ∀ k, k ∈ key <$> l → k = prev ∨ k ∈ key <$> dedup_from key prev l.
Proof.
  revert prev. induction l as [|y l IH]; intros prev Hs; csimpl in *.
  { split_and!; [by repeat constructor|done|set_solver]. }
  apply StronglySorted_cons in Hs as [Hp Hs]. rewrite Forall_cons in Hp.
  destruct Hp as [Hpy Hp].
  destruct (Z.eqb_spec (key y) prev) as [<-|Hne]; csimpl.
  - destruct (IH (key y)) as (? & ? & ?); [done|]. split_and!; [done|by constructor|].
    set_solver.
  - destruct (IH (key y)) as (H1 & ? & H3); [done|]. split_and!; [|by constructor|set_solver].
    constructor; [done|]. apply StronglySorted_cons in H1 as [Hy H1].
    constructor; [lia|]. eapply Forall_impl; [exact Hy|]. simpl. lia.
Qed.

(** Sorting and removing consecutive repetitions keeps one entry per key. *)
Lemma dedup_by_sorted l :
  StronglySorted Z.lt (key <$> dedup_by key (sort_by key l)).
Proof.
  pose proof (sort_by_sorted l) as Hs. destruct (sort_by key l) as [|x l']; [constructor|].
  csimpl in *. by apply dedup_from_spec.
Qed.

Lemma dedup_by_sublist l : dedup_by key (sort_by key l) `sublist_of` sort_by key l.
Proof.
  pose proof (sort_by_sorted l) as Hs. destruct (sort_by key l) as [|x l']; [done|].
  csimpl in *. constructor. by apply dedup_from_spec.
Qed.

Lemma elem_of_dedup_by l x : x ∈ dedup_by key (sort_by key l) → x ∈ l.
Proof.
  intros Hx. rewrite <-(sort_by_perm l).
  eapply elem_of_submseteq; [exact Hx|]. apply sublist_submseteq, dedup_by_sublist.
Qed.

Lemma elem_of_dedup_by_key l k :
  k ∈ key <$> dedup_by key (sort_by key l) ↔ k ∈ key <$> l.
Proof.
  split.
  - intros (x & -> & Hx%elem_of_dedup_by)%list_elem_of_fmap. apply list_elem_of_fmap. eauto.
  - rewrite <-(sort_by_perm l) at 1. pose proof (sort_by_sorted l) as Hs.
    destruct (sort_by key l) as [|x l']; csimpl in *; [done|].
    destruct (dedup_from_spec (key x) l' Hs) as (_ & _ & Hk).
    intros [->|Hin]%elem_of_cons; [set_solver|]. destruct (Hk k Hin); set_solver.
Qed.

Lemma dedup_from_id prev l :
  StronglySorted Z.lt (prev :: (key <$> l)) → dedup_from key prev l = l.
Proof.
  revert prev. induction l as [|y l IH]; intros prev Hs; csimpl in *; [done|].
  apply StronglySorted_cons in Hs as [Hp Hs]. rewrite Forall_cons in Hp.
  rewrite (proj2 (Z.eqb_neq _ _)) by lia. by rewrite IH.
Qed.
End sorting.

Lemma lt_sorted_NoDup (l : list Z) : StronglySorted Z.lt l → NoDup l.
Proof.
  induction 1 as [|x l _ IH Hall]; constructor; [|done].
  intros Hx. rewrite Forall_forall in Hall. specialize (Hall x Hx). lia.
Qed.

Lemma le_sorted_lt (l : list Z) : StronglySorted Z.le l → NoDup l → StronglySorted Z.lt l.
Proof.
  induction 1 as [|x l _ IH Hall]; intros Hnd; [constructor|].
  apply NoDup_cons in Hnd as [Hx Hnd]. constructor; [auto|].
  rewrite Forall_forall in *. intros y Hy. specialize (Hall y Hy).
  assert (x ≠ y) by (by intros ->). lia.
Qed.

Lemma lt_sorted_le (l : list Z) : StronglySorted Z.lt l → StronglySorted Z.le l.
Proof.
  induction 1 as [|x l _ IH Hall]; constructor; [done|].
  eapply Forall_impl; [exact Hall|]. simpl. lia.
Qed.

(** Strictly increasing lists with the same elements are equal. *)
Lemma lt_sorted_ext (l k : list Z) :
  StronglySorted Z.lt l → StronglySorted Z.lt k → (∀ x, x ∈ l ↔ x ∈ k) → l = k.
Proof.
  intros Hl Hk Hx. apply (StronglySorted_unique Z.le); [by apply lt_sorted_le..|].
  apply NoDup_Permutation; [by apply lt_sorted_NoDup..|done].
Qed.

Lemma sort_lt l : NoDup l → StronglySorted Z.lt (sort l).
Proof.
  intros. apply le_sorted_lt.
  - pose proof (sort_by_sorted id l) as Hs. by rewrite list_fmap_id in Hs.
  - unfold sort. by rewrite sort_by_perm.
Qed.

Lemma sort_perm l : sort l ≡ₚ l.
Proof. apply sort_by_perm. Qed.

Lemma dedup_sort_lt l : StronglySorted Z.lt (dedup (sort l)).
Proof. pose proof (dedup_by_sorted id l) as Hs. by rewrite list_fmap_id in Hs. Qed.

Lemma elem_of_dedup_sort l x : x ∈ dedup (sort l) ↔ x ∈ l.
Proof. pose proof (elem_of_dedup_by_key id l x) as Hs. by rewrite !list_fmap_id in Hs. Qed.

Lemma dedup_sort_ext l k : (∀ x, x ∈ l ↔ x ∈ k) → dedup (sort l) = dedup (sort k).
Proof.
  intros Hx. apply lt_sorted_ext; [apply dedup_sort_lt..|].
  intros x. by rewrite !elem_of_dedup_sort.
Qed.

#[global] Arguments le_bytes : simpl never.
#[global] Arguments hash_bytes : simpl never.

End Bytes.
