(* ===== verification/Params.v ===== *)
(** * Consensus parameters and activation gates

    Models [crates/bloch-pos-committee/src/params.rs]: the constants the
    modelled components use, and the activation epochs of the gated rules.

    A release fixes every activation epoch as a constant; [u64::MAX] is a gate
    that never opens.  The rules behind the gates are part of the program, so
    the activation epochs are the fields of a record [Gates]: the components
    are defined for every schedule, and [mainnet] is the schedule of the
    source.  The [cfg(test)] switches of the file are not modelled. *)

From S2P Require Import Prelude.
Local Open Scope Z_scope.

Module Params.

(** ** Constants *)

Definition SLOTS_PER_EPOCH : Z := 32.
Definition SLOT_DURATION_SECS : Z := 30.
Definition MAX_DRAWS_PER_SLOT : Z := 4096.
Definition RANDAO_CHAIN_LENGTH : Z := 8192.
Definition INACTIVITY_LEAK_THRESHOLD_EPOCHS : Z := 4.
Definition INACTIVITY_LEAK_QUOTIENT : Z := 64.
Definition INACTIVITY_LEAK_QUOTIENT_ETH_PACED : Z := 2684355.
Definition INACTIVITY_LEAK_RECOVERY_QUOTIENT : Z := 16.
Definition MIN_QUORUM_DENOMINATOR_NUM : Z := 1.
Definition MIN_QUORUM_DENOMINATOR_DEN : Z := 2.
Definition NATIVE_FINALITY_SET_PRUNE_AFTER_EPOCHS : Z := 90.
Definition KES_PERIOD_EPOCHS : Z := 90.
Definition KES_KEY_HISTORY_PERIODS : Z := 365.
Definition KES_MIN_REGISTERED_STAKE_BPS : Z := 9000.
Definition KES_BIND_DELAY_EPOCHS : Z := 2.
Definition KES_RESCUE_DELAY_PERIODS : Z := 2.
Definition KES_MIN_REGISTERED_DEPTH : Z := 8.
Definition MAX_ATTESTATIONS_PER_BLOCK : nat := 4096.
Definition MAX_TRANSACTIONS_PER_BLOCK : nat := 4096.
Definition MAX_EPOCH_ADVANCE : Z := 4096.
Definition MIN_TRANSFER_OUTPUT_SAT : Z := 1000.
Definition MAX_TRANSFER_OUTPUTS : nat := 256.
Definition FORKCHOICE_EQUIVOCATION_HORIZON_SLOTS : Z := SLOTS_PER_EPOCH.
Definition RESCUE_COMMIT_MIN_DELAY_EPOCHS : Z := 90.
Definition RESCUE_COMMIT_TTL_EPOCHS : Z := 2700.
Definition RESCUE_COMMITS_PER_BLOCK : Z := 16.
Definition RESCUE_COMMITS_MAX_PER_BLOCK : Z := 4.

(** ** Activation epochs *)

Record Gates := mkGates {
  LEAK_RECOVERY_ACTIVATION_EPOCH : Z;
  ETH_PACED_LEAK_ACTIVATION_EPOCH : Z;
  HF1_OWN_TARGET_VOTES_EPOCH : Z;
  HF1_FROZEN_FINALITY_SET_EPOCH : Z;
  NATIVE_FINALITY_SET_RECOVERY_EPOCHS : list Z;
  SLASHING_EVIDENCE_ACTIVATION_EPOCH : Z;
  SLASHING_ECONOMICS_V2_ACTIVATION_EPOCH : Z;
  SIG_CANONICAL_ACTIVATION_EPOCH : Z;
  MLDSA_PIN_ACTIVATION_EPOCH : Z;
  BLOCK_BYTES_V2_ACTIVATION_EPOCH : Z;
  HF3_SLH_SUITE_EPOCH : Z;
  KES_REGISTRATION_EPOCH : Z;
  KES_ACTIVATION_EPOCH : Z;
}.
Existing Class Gates.

(** The schedule of the default build. *)
Definition mainnet : Gates := {|
  LEAK_RECOVERY_ACTIVATION_EPOCH := 2880;
  ETH_PACED_LEAK_ACTIVATION_EPOCH := 5700;
  HF1_OWN_TARGET_VOTES_EPOCH := u64_MAX;
  HF1_FROZEN_FINALITY_SET_EPOCH := u64_MAX;
  NATIVE_FINALITY_SET_RECOVERY_EPOCHS := [];
  SLASHING_EVIDENCE_ACTIVATION_EPOCH := 2884;
  SLASHING_ECONOMICS_V2_ACTIVATION_EPOCH := u64_MAX;
  SIG_CANONICAL_ACTIVATION_EPOCH := u64_MAX;
  MLDSA_PIN_ACTIVATION_EPOCH := u64_MAX;
  BLOCK_BYTES_V2_ACTIVATION_EPOCH := 800;
  HF3_SLH_SUITE_EPOCH := u64_MAX;
  KES_REGISTRATION_EPOCH := u64_MAX;
  KES_ACTIVATION_EPOCH := u64_MAX;
|}.

(** Activation epochs of the rules of the state transition. *)
Record Rules := mkRules {
  LEAKED_ROSTER_ACTIVATION_EPOCH : Z;
  TRANSFER_WITNESS_DEDUP_ACTIVATION_EPOCH : Z;
  ANCESTRY_SEED_ACTIVATION_EPOCH : Z;
  DEPOSIT_ACTIVATION_EPOCH : Z;
  EXIT_AUTH_ACTIVATION_EPOCH : Z;
  FEE_STAKE_DECOUPLE_ACTIVATION_EPOCH : Z;
  DUST_RULE_ACTIVATION_EPOCH : Z;
  RANDAO_RECOMMIT_ACTIVATION_EPOCH : Z;
  TX_BYTES_BOUND_ACTIVATION_EPOCH : Z;
  ATTESTATION_DEDUP_ACTIVATION_EPOCH : Z;
  REWARDS_V2_ACTIVATION_EPOCH : Z;
  FORKCHOICE_EQUIVOCATION_HORIZON_ACTIVATION_EPOCH : Z;
  STAKING_TX_METERING_ACTIVATION_EPOCH : Z;
  WITHDRAWAL_ACTIVATION_EPOCH : Z;
  SIGHASH_NETWORK_BINDING_ACTIVATION_EPOCH : Z;
  FUNDED_VALIDATOR_ADMISSION_ACTIVATION_EPOCH : Z;
  FUNDED_DELEGATION_ACTIVATION_EPOCH : Z;
  HF3_PQ_MIGRATION_EPOCH : Z;
  LATTICE_EMERGENCY_ACTIVATION_EPOCH : Z;
  DUTY_ROSTER_RECOVERY_ACTIVATION_EPOCH : Z;
  ACTIVATION_QUEUE_V2_ACTIVATION_EPOCH : Z;
  L2_SETTLEMENT_ACTIVATION_EPOCH : Z;
  HF1_CLAIM_FINALITY_EPOCH : Z;
  FUNDED_VALIDATOR_CANCELLATION_ACTIVATION_EPOCH : Z;
  HF2_GROWTH_CAP_EPOCH : Z;
}.
Existing Class Rules.

(** The schedule of the default build. *)
Definition mainnet_rules : Rules := {|
  LEAKED_ROSTER_ACTIVATION_EPOCH := 1400;
  TRANSFER_WITNESS_DEDUP_ACTIVATION_EPOCH := 800;
  ANCESTRY_SEED_ACTIVATION_EPOCH := u64_MAX;
  DEPOSIT_ACTIVATION_EPOCH := u64_MAX;
  EXIT_AUTH_ACTIVATION_EPOCH := 2884;
  FEE_STAKE_DECOUPLE_ACTIVATION_EPOCH := u64_MAX;
  DUST_RULE_ACTIVATION_EPOCH := u64_MAX;
  RANDAO_RECOMMIT_ACTIVATION_EPOCH := 2884;
  TX_BYTES_BOUND_ACTIVATION_EPOCH := u64_MAX;
  ATTESTATION_DEDUP_ACTIVATION_EPOCH := u64_MAX;
  REWARDS_V2_ACTIVATION_EPOCH := u64_MAX;
  FORKCHOICE_EQUIVOCATION_HORIZON_ACTIVATION_EPOCH := u64_MAX;
  STAKING_TX_METERING_ACTIVATION_EPOCH := u64_MAX;
  WITHDRAWAL_ACTIVATION_EPOCH := 2884;
  SIGHASH_NETWORK_BINDING_ACTIVATION_EPOCH := u64_MAX;
  FUNDED_VALIDATOR_ADMISSION_ACTIVATION_EPOCH := 2884;
  FUNDED_DELEGATION_ACTIVATION_EPOCH := 4669;
  HF3_PQ_MIGRATION_EPOCH := u64_MAX;
  LATTICE_EMERGENCY_ACTIVATION_EPOCH := u64_MAX;
  DUTY_ROSTER_RECOVERY_ACTIVATION_EPOCH := u64_MAX;
  ACTIVATION_QUEUE_V2_ACTIVATION_EPOCH := u64_MAX;
  L2_SETTLEMENT_ACTIVATION_EPOCH := 5850;
  HF1_CLAIM_FINALITY_EPOCH := u64_MAX;
  FUNDED_VALIDATOR_CANCELLATION_ACTIVATION_EPOCH := u64_MAX;
  HF2_GROWTH_CAP_EPOCH := u64_MAX;
|}.

Definition epoch_gate_active (epoch activation : Z) : bool :=
  negb (activation =? u64_MAX) && (activation <=? epoch).

(** ** Gated rules *)

Section gates.
Context {G : Gates}.

Definition inactivity_leak_quotient (epoch : Z) : Z :=
  if epoch_gate_active epoch (ETH_PACED_LEAK_ACTIVATION_EPOCH G)
  then INACTIVITY_LEAK_QUOTIENT_ETH_PACED else INACTIVITY_LEAK_QUOTIENT.

Definition own_target_votes_active (epoch : Z) : bool :=
  epoch_gate_active epoch (HF1_OWN_TARGET_VOTES_EPOCH G).

Definition native_finality_set_active (epoch : Z) : bool :=
  epoch_gate_active epoch (HF1_FROZEN_FINALITY_SET_EPOCH G).

Definition native_finality_set_recovery_at (epoch : Z) : bool :=
  bool_decide (epoch ∈ NATIVE_FINALITY_SET_RECOVERY_EPOCHS G).

Definition slashing_economics_v2_start (epoch : Z) : option Z :=
  if epoch_gate_active epoch (SLASHING_ECONOMICS_V2_ACTIVATION_EPOCH G)
  then Some (SLASHING_ECONOMICS_V2_ACTIVATION_EPOCH G) else None.

Definition slashing_economics_v2_active (epoch : Z) : bool :=
  bool_decide (is_Some (slashing_economics_v2_start epoch)).

Definition sig_canonical_active (epoch : Z) : bool :=
  epoch_gate_active epoch (SIG_CANONICAL_ACTIVATION_EPOCH G).

Definition mldsa_pin_active (epoch : Z) : bool :=
  epoch_gate_active epoch (MLDSA_PIN_ACTIVATION_EPOCH G).

Definition hf3_slh_suite_active (epoch : Z) : bool :=
  epoch_gate_active epoch (HF3_SLH_SUITE_EPOCH G).

Definition kes_registration_open (epoch : Z) : bool :=
  epoch_gate_active epoch (KES_REGISTRATION_EPOCH G).

(** The forward-secure key period of an epoch; [None] before enforcement. *)
Definition kes_period (epoch : Z) : option Z :=
  if epoch_gate_active epoch (KES_ACTIVATION_EPOCH G)
  then Some ((epoch - KES_ACTIVATION_EPOCH G) / KES_PERIOD_EPOCHS) else None.

Lemma inactivity_leak_quotient_pos epoch : 0 < inactivity_leak_quotient epoch.
Proof. unfold inactivity_leak_quotient. by case_match. Qed.
End gates.

Section rules.
Context {R : Rules}.

(** The gates of [transition.rs] and of [params.rs] read by the transition. *)
Definition unfunded_bonding_active (epoch : Z) : bool :=
  epoch_gate_active epoch (DEPOSIT_ACTIVATION_EPOCH R).
Definition fee_stake_decouple_active (epoch : Z) : bool :=
  epoch_gate_active epoch (FEE_STAKE_DECOUPLE_ACTIVATION_EPOCH R).
Definition exit_auth_active (epoch : Z) : bool := epoch_gate_active epoch (EXIT_AUTH_ACTIVATION_EPOCH R).
Definition dust_rule_active (epoch : Z) : bool := epoch_gate_active epoch (DUST_RULE_ACTIVATION_EPOCH R).
Definition forkchoice_equivocation_horizon_active (epoch : Z) : bool :=
  epoch_gate_active epoch (FORKCHOICE_EQUIVOCATION_HORIZON_ACTIVATION_EPOCH R).
Definition randao_recommit_active (epoch : Z) : bool :=
  epoch_gate_active epoch (RANDAO_RECOMMIT_ACTIVATION_EPOCH R).
Definition tx_bytes_bound_active (epoch : Z) : bool :=
  epoch_gate_active epoch (TX_BYTES_BOUND_ACTIVATION_EPOCH R).
Definition attestation_dedup_active (epoch : Z) : bool :=
  epoch_gate_active epoch (ATTESTATION_DEDUP_ACTIVATION_EPOCH R).
Definition rewards_v2_active (epoch : Z) : bool := epoch_gate_active epoch (REWARDS_V2_ACTIVATION_EPOCH R).
Definition staking_tx_metering_active (epoch : Z) : bool :=
  epoch_gate_active epoch (STAKING_TX_METERING_ACTIVATION_EPOCH R).
Definition withdrawal_active (epoch : Z) : bool := epoch_gate_active epoch (WITHDRAWAL_ACTIVATION_EPOCH R).
Definition funded_delegation_active (epoch : Z) : bool :=
  epoch_gate_active epoch (FUNDED_DELEGATION_ACTIVATION_EPOCH R).
Definition funded_validator_admission_active (epoch : Z) : bool :=
  epoch_gate_active epoch (FUNDED_VALIDATOR_ADMISSION_ACTIVATION_EPOCH R).
Definition activation_queue_v2_active (epoch : Z) : bool :=
  epoch_gate_active epoch (ACTIVATION_QUEUE_V2_ACTIVATION_EPOCH R).
Definition hf3_pq_migration_active (epoch : Z) : bool := epoch_gate_active epoch (HF3_PQ_MIGRATION_EPOCH R).
Definition lattice_emergency_active (epoch : Z) : bool :=
  epoch_gate_active epoch (LATTICE_EMERGENCY_ACTIVATION_EPOCH R).
Definition duty_roster_recovery_active (epoch : Z) : bool :=
  epoch_gate_active epoch (DUTY_ROSTER_RECOVERY_ACTIVATION_EPOCH R).
Definition l2_settlement_active (epoch : Z) : bool :=
  epoch_gate_active epoch (L2_SETTLEMENT_ACTIVATION_EPOCH R).
Definition native_claim_finality_active (epoch : Z) : bool :=
  epoch_gate_active epoch (HF1_CLAIM_FINALITY_EPOCH R).
Definition funded_validator_cancellation_active (epoch : Z) : bool :=
  epoch_gate_active epoch (FUNDED_VALIDATOR_CANCELLATION_ACTIVATION_EPOCH R).
Definition hf2_growth_cap_active (epoch : Z) : bool := epoch_gate_active epoch (HF2_GROWTH_CAP_EPOCH R).
End rules.

Definition slashing_evidence_active {G : Gates} (epoch : Z) : bool :=
  epoch_gate_active epoch (SLASHING_EVIDENCE_ACTIVATION_EPOCH G).

(** [epoch_of] of [lib.rs]. *)
Definition epoch_of (slot : Z) : Z := slot / SLOTS_PER_EPOCH.

#[export] Hint Resolve inactivity_leak_quotient_pos : bloch.

End Params.
