(* ===== verification/Types.v ===== *)
(** * Records shared by the consensus components

    The validator entry of [sample.rs], the attestation payload of
    [attestation.rs] with its two slashing predicates, and the checkpoint of
    [finality.rs]. *)

From S2P Require Import Prelude.
Local Open Scope Z_scope.

Module Types.

(** [sample::Validator]: registry index ([u32]) and effective stake ([u64]). *)
Record Validator := mkValidator { index : Z; effective_stake : Z }.

Global Instance Validator_eq_dec : EqDecision Validator.
Proof. solve_decision. Defined.

(** [attestation::AttestationData]. *)
Record AttestationData := mkAttData {
  slot : Z;
  head : hash;
  source_epoch : Z;
  source_root : hash;
  target_epoch : Z;
  target_root : hash;
}.

Global Instance AttestationData_eq_dec : EqDecision AttestationData.
Proof. solve_decision. Defined.

Definition surrounds (a b : AttestationData) : bool :=
  (source_epoch a <? source_epoch b) && (target_epoch b <? target_epoch a).

Definition is_double_vote (a b : AttestationData) : bool :=
  (target_epoch a =? target_epoch b) && bool_decide (a ≠ b).

(** [attestation::Attestation]; a signature is an opaque byte string. *)
Record Attestation := mkAttestation {
  att_data : AttestationData;
  att_validator : Z;
  att_signature : list Z;
}.

Global Instance Attestation_eq_dec : EqDecision Attestation.
Proof. solve_decision. Defined.

(** [finality::Checkpoint]. *)
Record Checkpoint := mkCheckpoint { epoch : Z; root : hash }.

Global Instance Checkpoint_eq_dec : EqDecision Checkpoint.
Proof. solve_decision. Defined.

(** Total effective stake of a roster, and the stakes a roster gives out. *)
Definition total_stake (vs : list Validator) : Z := sumZ (effective_stake <$> vs).

Definition roster_ok (vs : list Validator) : Prop :=
  NoDup (index <$> vs) ∧ Forall (λ v, 0 ≤ effective_stake v ≤ u64_MAX) vs.

End Types.
