(* ===== verification/ForkChoice.v ===== *)
(** * LMD-GHOST fork choice

    Models [crates/bloch-pos-committee/src/forkchoice.rs]: the vote store
    ([Store]), the reference weight of a block ([weight]), the one-pass
    subtree weights ([subtree_weights]) and the head walk ([head_inner]).

    A Rust [HashMap] is a [gmap]; where the code iterates over one, the
    iteration order is an explicit list argument and the theorems quantify
    over every permutation of the map's entries.  Stakes are [u64] summed in
    [u128]: with at most [2^32] voters the sums stay below [2^96], so [Z] is
    exact.  The instrumentation counter [FORKCHOICE_STEPS] is not modelled. *)

From S2P Require Import Prelude.
Local Open Scope Z_scope.

Module ForkChoice.

(** ** Data *)

Record LatestMessage := mkLM { lm_slot : Z; lm_root : hash }.

Record Store := mkStore {
  latest : gmap Z LatestMessage;
  stake : gmap Z Z;
  equivocators : gset Z;
}.

Definition new : Store := mkStore ∅ ∅ ∅.

(** [BlockTree::parents]: child id to parent id. *)
Abbreviation tree := (gmap hash hash) (only parsing).
Abbreviation child_lists := (gmap hash (list hash)) (only parsing).

(** ** Votes *)

Definition set_stake (s : Store) (v w : Z) : Store :=
  mkStore (latest s) (<[v := w]> (stake s)) (equivocators s).

Definition observe (s : Store) (v : Z) (msg : LatestMessage) : Store * bool :=
  if decide (v ∈ equivocators s) then (s, false)
  else
    let insert_msg := (mkStore (<[v := msg]> (latest s)) (stake s) (equivocators s), true) in
    match latest s !! v with
    | Some prev =>
        if (lm_slot prev =? lm_slot msg) && negb (lm_root prev =? lm_root msg) then
          (mkStore (delete v (latest s)) (stake s) ({[v]} ∪ equivocators s), false)
        else if lm_slot msg <=? lm_slot prev then (s, false)
        else insert_msg
    | None => insert_msg
    end.

(** ** Reference weights *)

(** The walk towards the root, with [limit] steps left. *)
Fixpoint ancestor_walk (parents : tree) (ancestor : hash) (limit : nat) (cur : hash) : bool :=
  if cur =? ancestor then true
  else
    match parents !! cur with
    | Some p => match limit with O => false | S n => ancestor_walk parents ancestor n p end
    | None => false
    end.

Definition is_descendant_or_self (parents : tree) (node ancestor : hash) : bool :=
  ancestor_walk parents ancestor (size parents + 1) node.

Definition weight (s : Store) (parents : tree) (root : hash) : Z :=
  map_sum (λ v msg,
    if is_descendant_or_self parents (lm_root msg) root then get0 (stake s) v else 0)
    (latest s).

(** ** Subtree weights in one topological pass *)

(** The votes on each block, iterating [latest] in the order [lat]. *)
Definition direct_weights (s : Store) (lat : list (Z * LatestMessage)) : gmap hash Z :=
  foldl (λ w vm, map_add w (lm_root vm.2) (get0 (stake s) vm.1)) ∅ lat.

(** [weights.entry(id).or_insert(0)] for every block of the tree. *)
Definition seed_blocks (w : gmap hash Z) (keys : list hash) : gmap hash Z :=
  foldl (λ w id, map_add w id 0) w keys.

(** The number of children of each block still to be folded into it. *)
Definition pending_children (par : list (hash * hash)) : gmap hash Z :=
  foldl (λ m cp, map_add m cp.2 1) ∅ par.

(** The leaves, as the stack the loop pops from ([Vec::pop] takes the end). *)
Definition ready_leaves (pending : gmap hash Z) (keys : list hash) : list hash :=
  reverse (filter (λ id, get0 pending id = 0) keys).

(** [while let Some(id) = ready.pop()]; [None] when [fuel] runs out. *)
Fixpoint propagate (fuel : nat) (parents : tree) (ready : list hash)
    (weights pending : gmap hash Z) : option (gmap hash Z) :=
  match ready with
  | [] => Some weights
  | id :: rest =>
      match fuel with
      | O => None
      | S fuel =>
          let w := get0 weights id in
          match parents !! id with
          | None => propagate fuel parents rest weights pending
          | Some parent =>
              let weights := map_add weights parent w in
              match pending !! parent with
              | None => propagate fuel parents rest weights pending
              | Some n =>
                  let pending := <[parent := n - 1]> pending in
                  if (n - 1 =? 0) && bool_decide (is_Some (parents !! parent)) then
                    propagate fuel parents (parent :: rest) weights pending
                  else propagate fuel parents rest weights pending
              end
          end
      end
  end.

Definition subtree_weights (s : Store) (parents : tree)
    (lat : list (Z * LatestMessage)) (par : list (hash * hash)) : option (gmap hash Z) :=
  let weights := seed_blocks (direct_weights s lat) par.*1 in
  let pending := pending_children par in
  propagate (size parents) parents (ready_leaves pending par.*1) weights pending.

(** ** The head walk *)

Definition wins_tie (slots : option (gmap hash Z)) (child best : hash) : bool :=
  match slots with
  | Some slots =>
      let child_slot := default u64_MAX (slots !! child) in
      let best_slot := default u64_MAX (slots !! best) in
      (child_slot <? best_slot) || ((child_slot =? best_slot) && (best <? child))
  | None => best <? child
  end.

(** The scan over [kids[1..]] starting from [best = kids[0]]. *)
Fixpoint best_child (slots : option (gmap hash Z)) (w_of : hash → Z)
    (best : hash) (best_w : Z) (kids : list hash) : hash :=
  match kids with
  | [] => best
  | child :: kids =>
      let w := w_of child in
      if (best_w <? w) || ((w =? best_w) && wins_tie slots child best)
      then best_child slots w_of child w kids
      else best_child slots w_of best best_w kids
  end.

(** [while levels <= limit], with [fuel = limit + 1 - levels]. *)
Fixpoint walk_down (fuel : nat) (slots : option (gmap hash Z)) (w_of : hash → Z)
    (children : child_lists) (current : hash) : hash :=
  match fuel with
  | O => current
  | S fuel =>
      match children !! current with
      | Some (k0 :: ks) =>
          walk_down fuel slots w_of children (best_child slots w_of k0 (w_of k0) ks)
      | _ => current
      end
  end.

Definition head_inner (s : Store) (parents : tree) (justified : hash)
    (children : child_lists) (slots : option (gmap hash Z))
    (lat : list (Z * LatestMessage)) (par : list (hash * hash)) : option hash :=
  weights ← subtree_weights s parents lat par;
  let limit := (size parents + size children + 1)%nat in
  Some (walk_down (limit + 1) slots (get0 weights) children justified).

Definition head s parents justified children lat par : option hash :=
  head_inner s parents justified children None lat par.

Definition head_with_slot_tiebreak s parents justified children slots lat par : option hash :=
  head_inner s parents justified children (Some slots) lat par.

(** The unoptimised walk, one [weight] query per child.  The Rust [loop] has no
    bound; [None] is "still running after [fuel] levels". *)
Fixpoint head_reference (fuel : nat) (s : Store) (parents : tree) (current : hash)
    (children : child_lists) : option hash :=
  match children !! current with
  | Some (k0 :: ks) =>
      match fuel with
      | O => None
      | S fuel =>
          head_reference fuel s parents
            (best_child None (weight s parents) k0 (weight s parents k0) ks) children
      end
  | _ => Some current
  end.

Definition voters (s : Store) : nat := size (latest s).

(** ** The sibling scan *)

Lemma best_child_elem slots w_of best bw kids :
  best_child slots w_of best bw kids ∈ best :: kids.
Proof.
  revert best bw. induction kids as [|c kids IH]; intros best bw; simpl; [set_solver|].
  case_match; [pose proof (IH c (w_of c))|pose proof (IH best bw)]; set_solver.
Qed.

Lemma best_child_ext slots w1 w2 best bw kids :
  (∀ x, w1 x = w2 x) → best_child slots w1 best bw kids = best_child slots w2 best bw kids.
Proof.
  intros Hw. revert best bw. induction kids as [|c kids IH]; intros best bw; simpl; [done|].
  rewrite <-Hw. case_match; auto.
Qed.

(** ** Acyclic trees

    Blocks point to parents of a smaller slot, so a [rank] (the slot) strictly
    decreases along [parents]. *)

Definition acyclic_by (rank : hash → nat) (parents : tree) : Prop :=
  ∀ c p, parents !! c = Some p → (rank p < rank c)%nat.

(** Every listed child names the block it is listed under as its parent. *)
Definition children_agree (parents : tree) (children : child_lists) : Prop :=
  ∀ x kids c, children !! x = Some kids → c ∈ kids → parents !! c = Some x.

Section acyclic.
Context (parents : tree) (rank : hash → nat).
Hypothesis Hrank : acyclic_by rank parents.

(** Blocks of the tree whose rank is at most, or above, the rank of [x]. *)
Definition below (x : hash) : nat :=
  length (filter (λ c, (rank c ≤ rank x)%nat) (map_to_list parents).*1).
Definition above (x : hash) : nat :=
  length (filter (λ c, (rank x < rank c)%nat) (map_to_list parents).*1).

Lemma elem_of_keys x : x ∈ (map_to_list parents).*1 ↔ is_Some (parents !! x).
Proof.
  rewrite list_elem_of_fmap. split.
  - intros ([c p] & -> & Hcp%elem_of_map_to_list). eauto.
  - intros [p Hp]. exists (x, p). by rewrite elem_of_map_to_list.
Qed.

Lemma below_le x : (below x ≤ size parents)%nat.
Proof.
  unfold below. rewrite length_filter.
  by rewrite length_fmap, length_map_to_list.
Qed.

Lemma above_le x : (above x ≤ size parents)%nat.
Proof.
  unfold above. rewrite length_filter.
  by rewrite length_fmap, length_map_to_list.
Qed.

Lemma below_parent c p : parents !! c = Some p → (below p < below c)%nat.
Proof.
  intros Hc. pose proof (Hrank _ _ Hc). unfold below.
  apply (length_filter_strict _ _ _ c); [lia| |lia..].
  apply elem_of_keys. eauto.
Qed.

Lemma above_child c p : parents !! c = Some p → (above c < above p)%nat.
Proof.
  intros Hc. pose proof (Hrank _ _ Hc). unfold above.
  apply (length_filter_strict _ _ _ c); [lia| |lia..].
  apply elem_of_keys. eauto.
Qed.

(** *** The ancestor walk is never cut short by its step limit *)

Lemma ancestor_walk_fuel anc n m r :
  (below r ≤ n)%nat → (below r ≤ m)%nat →
  ancestor_walk parents anc n r = ancestor_walk parents anc m r.
Proof.
  revert m r. induction n as [|n IH]; intros m r Hn Hm;
    destruct m as [|m]; simpl; (destruct (r =? anc); [done|]);
    destruct (parents !! r) as [p|] eqn:Hr; try done;
    pose proof (below_parent _ _ Hr); try lia.
  apply IH; lia.
Qed.

Lemma is_descendant_unfold r x :
  is_descendant_or_self parents r x =
    if r =? x then true
    else match parents !! r with
         | Some p => is_descendant_or_self parents p x
         | None => false
         end.
Proof.
  unfold is_descendant_or_self at 1. rewrite Nat.add_1_r. simpl.
  destruct (r =? x); [done|]. destruct (parents !! r) as [p|] eqn:Hr; [|done].
  pose proof (below_parent _ _ Hr). pose proof (below_le r). pose proof (below_le p).
  apply ancestor_walk_fuel; lia.
Qed.

Lemma is_descendant_rank r x :
  is_descendant_or_self parents r x = true → r = x ∨ (rank x < rank r)%nat.
Proof.
  remember (rank r) as n eqn:Hn. revert r Hn.
  induction (lt_wf n) as [n _ IH]. intros r ->.
  rewrite is_descendant_unfold. destruct (Z.eqb_spec r x); [by left|].
  destruct (parents !! r) as [p|] eqn:Hr; [|done]. intros Hp.
  pose proof (Hrank _ _ Hr).
  destruct (IH (rank p) ltac:(lia) p eq_refl Hp) as [->|]; right; lia.
Qed.

(** A block other than [x] descends from [x] through exactly one child of [x]. *)
Lemma descendant_children r x :
  map_sum (λ c p, if decide (p = x) then
                    if is_descendant_or_self parents r c then 1 else 0 else 0) parents =
    if r =? x then 0 else if is_descendant_or_self parents r x then 1 else 0.
Proof.
  remember (rank r) as n eqn:Hn. revert r Hn.
  induction (lt_wf n) as [n _ IH]. intros r ->.
  destruct (parents !! r) as [q|] eqn:Hr.
  - pose proof (Hrank _ _ Hr) as Hq.
    specialize (IH (rank q) Hq q eq_refl).
    rewrite (map_sum_delete _ _ _ _ Hr) in IH.
    rewrite (map_sum_delete _ _ _ _ Hr).
    assert (is_descendant_or_self parents q r = false) as Hqr.
    { apply not_true_iff_false. intros [->|]%is_descendant_rank; lia. }
    rewrite Hqr in IH.
    rewrite (map_sum_ext _ (λ c p, if decide (p = x) then
      if is_descendant_or_self parents q c then 1 else 0 else 0) (delete r parents))
      by (intros c p Hc; gdec; [|done]; rewrite (is_descendant_unfold r c), Hr;
          destruct (Z.eqb_spec r c); [subst; by rewrite lookup_delete_eq in Hc|done]).
    rewrite (is_descendant_unfold r r), (is_descendant_unfold r x), Z.eqb_refl, Hr.
    destruct (Z.eqb_spec r x) as [<-|Hne].
    + rewrite Hqr in IH. destruct (decide (q = r)), (Z.eqb_spec q r); subst; lia.
    + destruct (decide (q = x)), (Z.eqb_spec q x); try congruence.
      rewrite (is_descendant_unfold q x). subst. rewrite Z.eqb_refl. lia.
  - rewrite map_sum_zero.
    + rewrite is_descendant_unfold, Hr. by destruct (r =? x).
    + intros c p Hc. case_decide; [|done]. rewrite is_descendant_unfold, Hr.
      destruct (Z.eqb_spec r c); congruence.
Qed.

(** *** The weight of a block: its own votes and the weights of its children *)

Definition own_weight (s : Store) (x : hash) : Z :=
  map_sum (λ v msg, if decide (lm_root msg = x) then get0 (stake s) v else 0) (latest s).

Lemma weight_children s x :
  weight s parents x =
    own_weight s x + map_sum (λ c p, if decide (p = x) then weight s parents c else 0) parents.
Proof.
  unfold weight at 1, own_weight.
  transitivity (map_sum (λ v msg, (if decide (lm_root msg = x) then get0 (stake s) v else 0) +
    map_sum (λ c p, if decide (p = x) then
      if is_descendant_or_self parents (lm_root msg) c then get0 (stake s) v else 0 else 0)
      parents) (latest s)).
  - apply map_sum_ext. intros v msg _.
    set (k := get0 (stake s) v). set (r := lm_root msg).
    transitivity ((if decide (r = x) then k else 0) + k * map_sum (λ c p,
      if decide (p = x) then if is_descendant_or_self parents r c then 1 else 0 else 0) parents).
    + rewrite descendant_children, (is_descendant_unfold r x).
      destruct (Z.eqb_spec r x); gdec; try congruence; [lia|].
      by repeat case_match; lia.
    + f_equal. rewrite <-map_sum_scale. apply map_sum_ext. intros c p _.
      gdec; [|lia]. destruct (is_descendant_or_self _ _ _); lia.
  - rewrite map_sum_add. f_equal. rewrite map_sum_swap. apply map_sum_ext.
    intros c p _. gdec; [|by apply map_sum_zero]. done.
Qed.

(** *** The one-pass propagation

    [popped] is the set of blocks already popped from [ready]. *)

Definition child_sum (h : hash → Z) (x : hash) : Z :=
  map_sum (λ c p, if decide (p = x) then h c else 0) parents.

Lemma child_sum_update (h h' : hash → Z) id p x :
  parents !! id = Some p → (∀ c, c ≠ id → h' c = h c) →
  child_sum h' x = child_sum h x + if decide (p = x) then h' id - h id else 0.
Proof.
  intros Hid Hh. unfold child_sum.
  rewrite !(map_sum_delete _ _ _ _ Hid).
  rewrite (map_sum_ext (λ c p, if decide (p = x) then h' c else 0)
    (λ c p, if decide (p = x) then h c else 0) (delete id parents)).
  - gdec; lia.
  - intros c q Hc. gdec; [|done]. apply Hh. intros ->. by rewrite lookup_delete_eq in Hc.
Qed.

Definition undone (popped : gset hash) : hash → Z :=
  child_sum (λ c, if decide (c ∈ popped) then 0 else 1).

Definition folded (s : Store) (popped : gset hash) : hash → Z :=
  child_sum (λ c, if decide (c ∈ popped) then weight s parents c else 0).

Lemma undone_pop popped id p x :
  parents !! id = Some p → id ∉ popped →
  undone ({[id]} ∪ popped) x = undone popped x - if decide (p = x) then 1 else 0.
Proof.
  intros Hid Hnd. unfold undone.
  rewrite (child_sum_update (λ c, if decide (c ∈ popped) then 0 else 1) _ _ _ _ Hid).
  - rewrite (decide_True (P := id ∈ _)), (decide_False (P := id ∈ popped)) by set_solver.
    gdec; lia.
  - intros c Hc. repeat gdec; set_solver.
Qed.

Lemma folded_pop s popped id p x :
  parents !! id = Some p → id ∉ popped →
  folded s ({[id]} ∪ popped) x =
    folded s popped x + if decide (p = x) then weight s parents id else 0.
Proof.
  intros Hid Hnd. unfold folded.
  rewrite (child_sum_update
    (λ c, if decide (c ∈ popped) then weight s parents c else 0) _ _ _ _ Hid).
  - rewrite (decide_True (P := id ∈ _)), (decide_False (P := id ∈ popped)) by set_solver.
    gdec; lia.
  - intros c Hc. repeat gdec; set_solver.
Qed.

Lemma undone_nonneg popped x : 0 ≤ undone popped x.
Proof. apply map_sum_nonneg. intros. repeat gdec; lia. Qed.

Lemma undone_pos popped c x : parents !! c = Some x → c ∉ popped → 1 ≤ undone popped x.
Proof.
  intros Hc Hnd. unfold undone, child_sum. rewrite (map_sum_delete _ _ _ _ Hc).
  rewrite decide_True, decide_False by done.
  assert (0 ≤ map_sum (λ c p, if decide (p = x) then
    if decide (c ∈ popped) then 0 else 1 else 0) (delete c parents)).
  { apply map_sum_nonneg. intros. repeat gdec; lia. }
  lia.
Qed.

Lemma undone_zero popped c x :
  undone popped x = 0 → parents !! c = Some x → c ∈ popped.
Proof.
  intros H0 Hc. destruct (decide (c ∈ popped)); [done|].
  pose proof (undone_pos popped c x Hc ltac:(done)). lia.
Qed.

(** Once all children of [x] are folded in, [x] carries its full weight. *)
Lemma folded_complete s popped x :
  undone popped x = 0 → own_weight s x + folded s popped x = weight s parents x.
Proof.
  intros H0. rewrite weight_children. f_equal. apply map_sum_ext.
  intros c p Hc. gdec; [|done]. subst. by rewrite decide_True by (by eapply undone_zero).
Qed.

Record pass_inv (s : Store) (popped : gset hash) (ready : list hash)
    (weights pending : gmap hash Z) : Prop := {
  pi_nodup : NoDup ready;
  pi_ready : ∀ x, x ∈ ready ↔ is_Some (parents !! x) ∧ x ∉ popped ∧ undone popped x = 0;
  pi_done : ∀ x, x ∈ popped → is_Some (parents !! x) ∧ undone popped x = 0;
  pi_pending : ∀ x, get0 pending x = undone popped x;
  pi_entries : ∀ c p, parents !! c = Some p → is_Some (pending !! p);
  pi_weights : ∀ x, get0 weights x = own_weight s x + folded s popped x;
}.

Lemma pass_inv_pop s popped id rest weights pending p :
  pass_inv s popped (id :: rest) weights pending → parents !! id = Some p →
  ∃ n, pending !! p = Some n ∧
    pass_inv s ({[id]} ∪ popped)
      (if (n - 1 =? 0) && bool_decide (is_Some (parents !! p)) then p :: rest else rest)
      (map_add weights p (get0 weights id)) (<[p := n - 1]> pending).
Proof.
  intros [Hnd Hready Hdone Hpend Hent Hw] Hid.
  apply NoDup_cons in Hnd as [Hidr Hnd].
  assert (is_Some (parents !! id) ∧ id ∉ popped ∧ undone popped id = 0) as (_ & Hidd & Hid0)
    by (apply Hready; left).
  pose proof (undone_pos _ _ _ Hid Hidd) as Hp1.
  destruct (Hent _ _ Hid) as [n Hn].
  assert (n = undone popped p) as -> by (rewrite <-Hpend; unfold get0; by rewrite Hn).
  assert (p ≠ id ∧ p ∉ popped) as [Hpid Hpd].
  { split; [intros ->; lia|]. intros [_ ?]%Hdone. lia. }
  assert (∀ x, undone ({[id]} ∪ popped) x = undone popped x - if decide (p = x) then 1 else 0)
    as Hun by (intros x; by apply undone_pop).
  assert (p ∉ rest) as Hpr.
  { intros Hin. assert (p ∈ id :: rest) as (_ & _ & ?)%Hready by (by right). lia. }
  exists (undone popped p). split; [done|]. split.
  - case_match; [|done]. by apply NoDup_cons.
  - intros x. rewrite Hun.
    assert (x ∈ rest ↔ is_Some (parents !! x) ∧ x ∉ {[id]} ∪ popped ∧ undone popped x = 0) as Hrest.
    { rewrite not_elem_of_union, not_elem_of_singleton. specialize (Hready x).
      rewrite elem_of_cons in Hready. split; [|naive_solver].
      intros Hx. split_and!; naive_solver. }
    destruct ((undone popped p - 1 =? 0) && bool_decide (is_Some (parents !! p))) eqn:Hb; boolp.
    + rewrite elem_of_cons, Hrest. destruct (decide (p = x)) as [<-|Hpx].
      * split; [intros _; split_and!; [done|set_solver|lia]|by left].
      * rewrite Z.sub_0_r. naive_solver.
    + rewrite Hrest. destruct (decide (p = x)) as [<-|Hpx]; [|by rewrite Z.sub_0_r].
      split; [intros (_ & _ & ?); lia|]. intros (Hs & _ & H0).
      destruct Hb; boolp; [lia|done].
  - intros x [->%elem_of_singleton|Hx]%elem_of_union.
    + split; [by eexists|]. rewrite Hun. gdec; [congruence|lia].
    + destruct (Hdone _ Hx) as [? Hx0]. split; [done|]. rewrite Hun.
      gdec; [subst; lia|lia].
  - intros x. rewrite get0_insert, Hun, <-Hpend. repeat gdec; subst;
      rewrite ?Hpend; congruence || lia.
  - intros c q Hc. destruct (decide (q = p)) as [->|]; [by rewrite lookup_insert_eq; eexists|].
    rewrite lookup_insert_ne by done. by eapply Hent.
  - intros x. rewrite get0_map_add, (folded_pop _ _ _ _ _ Hid Hidd), !Hw.
    rewrite (folded_complete s popped id Hid0).
    repeat gdec; subst; congruence || lia.
Qed.

Lemma undone_all_done popped x :
  (∀ c, parents !! c = Some x → c ∈ popped) → undone popped x = 0.
Proof.
  intros Hall. apply map_sum_zero. intros c p Hc. gdec; [|done]. subst.
  by rewrite decide_True by auto.
Qed.

Lemma pass_inv_finished s popped weights pending :
  pass_inv s popped [] weights pending → ∀ x, get0 weights x = weight s parents x.
Proof.
  intros [_ Hready _ _ _ Hw].
  assert (∀ n c, above c < n → is_Some (parents !! c) → c ∈ popped)%nat as Hall.
  { induction n as [|n IH]; intros c Hn Hc; [lia|].
    destruct (decide (c ∈ popped)) as [|Hnd]; [done|]. exfalso.
    apply (not_elem_of_nil c), Hready. split_and!; [done..|].
    apply undone_all_done. intros c' Hc'. pose proof (above_child _ _ Hc').
    apply IH; [lia|by eexists]. }
  intros x. rewrite Hw. apply folded_complete, undone_all_done.
  intros c Hc. apply (Hall (S (above c))); [lia|by eexists].
Qed.

Lemma propagate_correct s fuel popped ready weights pending :
  pass_inv s popped ready weights pending → (size parents ≤ fuel + size popped)%nat →
  ∃ w, propagate fuel parents ready weights pending = Some w ∧
    ∀ x, get0 w x = weight s parents x.
Proof.
  revert popped ready weights pending.
  induction fuel as [|fuel IH]; intros popped [|id rest] weights pending Hinv Hsize;
    try (exists weights; split; [done|exact (pass_inv_finished _ _ _ _ Hinv)]);
    assert (is_Some (parents !! id) ∧ id ∉ popped ∧ undone popped id = 0) as [[p Hid] [Hidd _]]
      by (apply (pi_ready _ _ _ _ _ Hinv); left).
  - assert ({[id]} ∪ popped ⊆ dom parents) as Hsub.
    { intros x [->%elem_of_singleton|[Hx _]%(pi_done _ _ _ _ _ Hinv)]%elem_of_union;
        apply elem_of_dom; [by eexists|done]. }
    apply subseteq_size in Hsub. rewrite size_union, size_singleton, size_dom in Hsub
      by set_solver. lia.
  - destruct (pass_inv_pop _ _ _ _ _ _ _ Hinv Hid) as (n & Hn & Hinv').
    simpl. rewrite Hid, Hn.
    assert (size ({[id]} ∪ popped) = S (size popped)) as Hs
      by (rewrite size_union, size_singleton by set_solver; lia).
    destruct ((n - 1 =? 0) && _); eapply (IH _ _ _ _ Hinv'); lia.
Qed.

(** The state the loop starts in. *)
Lemma pass_inv_start s lat par :
  lat ≡ₚ map_to_list (latest s) → par ≡ₚ map_to_list parents →
  pass_inv s ∅ (ready_leaves (pending_children par) par.*1)
    (seed_blocks (direct_weights s lat) par.*1) (pending_children par).
Proof.
  intros Hlat Hpar.
  assert (∀ x, get0 (pending_children par) x = undone ∅ x) as Hpend.
  { intros x. unfold pending_children. rewrite get0_foldl_map_add, get0_empty, Hpar.
    unfold undone, child_sum, map_sum. rewrite Z.add_0_l. apply sumZ_fmap_ext.
    by intros [c p] _. }
  assert (∀ x, x ∈ par.*1 ↔ is_Some (parents !! x)) as Hkeys.
  { intros x. by rewrite Hpar, elem_of_keys. }
  split.
  - unfold ready_leaves. rewrite reverse_Permutation. apply NoDup_filter.
    rewrite Hpar. apply NoDup_fst_map_to_list.
  - intros x. unfold ready_leaves. rewrite elem_of_reverse, list_elem_of_filter, Hkeys, Hpend.
    set_solver.
  - set_solver.
  - done.
  - intros c p Hc. apply elem_of_dom. unfold pending_children.
    assert ((c, p) ∈ par) as Hin by (by rewrite Hpar; apply elem_of_map_to_list).
    rewrite dom_foldl_map_add, elem_of_union, elem_of_list_to_set, list_elem_of_fmap.
    left. by exists (c, p).
  - intros x. unfold seed_blocks, direct_weights.
    rewrite !get0_foldl_map_add, get0_empty, Hlat.
    rewrite (sumZ_fmap_const0 (λ a, if decide (a = x) then 0 else 0)) by (intros; by gdec).
    assert (folded s ∅ x = 0) as -> by (apply map_sum_zero; intros; by gdec).
    unfold own_weight, map_sum. rewrite Z.add_0_l, Z.add_0_r, Z.add_0_r.
    apply sumZ_fmap_ext. by intros [v msg] _.
Qed.

(** The optimised pass computes the reference weight of every block, whatever
    order the two hash maps are iterated in. *)
Lemma subtree_weights_weight s lat par :
  lat ≡ₚ map_to_list (latest s) → par ≡ₚ map_to_list parents →
  ∃ w, subtree_weights s parents lat par = Some w ∧ ∀ x, get0 w x = weight s parents x.
Proof.
  intros Hlat Hpar. eapply propagate_correct; [by apply pass_inv_start|lia].
Qed.

(** *** Walking down to the head *)

Section walk.
Context (children : child_lists).
Hypothesis Hchildren : children_agree parents children.

Lemma best_child_parent slots w_of x k0 ks :
  children !! x = Some (k0 :: ks) →
  parents !! best_child slots w_of k0 (w_of k0) ks = Some x.
Proof. intros Hx. eapply Hchildren; [done|apply best_child_elem]. Qed.

(** The level cap of [head_inner] is never what stops the walk: it ends at a
    block without children, the one the unbounded reference walk ends at. *)
Lemma walk_down_reference s w_of x n m :
  (∀ y, w_of y = weight s parents y) → (above x < n)%nat → (above x ≤ m)%nat →
  head_reference m s parents x children = Some (walk_down n None w_of children x).
Proof.
  intros Hw. revert x m. induction n as [|n IH]; intros x m Hn Hm; [lia|].
  destruct m as [|m]; simpl; destruct (children !! x) as [[|k0 ks]|] eqn:Hx; try done.
  - pose proof (above_child _ _ (best_child_parent None w_of _ _ _ Hx)). lia.
  - rewrite <-Hw. rewrite (best_child_ext None (weight s parents) w_of) by done.
    pose proof (above_child _ _ (best_child_parent None w_of _ _ _ Hx)). apply IH; lia.
Qed.

Lemma walk_down_leaf slots w_of x n :
  (above x < n)%nat →
  default [] (children !! walk_down n slots w_of children x) = [].
Proof.
  revert x. induction n as [|n IH]; intros x Hn; [lia|]. simpl.
  destruct (children !! x) as [[|k0 ks]|] eqn:Hx; [by rewrite Hx| |by rewrite Hx].
  apply IH. pose proof (above_child _ _ (best_child_parent slots w_of _ _ _ Hx)). lia.
Qed.

Lemma walk_down_descends slots w_of x n :
  is_descendant_or_self parents (walk_down n slots w_of children x) x = true.
Proof.
  assert (∀ a b c, is_descendant_or_self parents a b = true → parents !! b = Some c →
    is_descendant_or_self parents a c = true) as Hstep.
  { intros a b c Hab Hb. remember (rank a) as k eqn:Hk. revert a Hk Hab.
    induction (lt_wf k) as [k _ IH]. intros a ->. rewrite (is_descendant_unfold a b).
    rewrite (is_descendant_unfold a c). destruct (Z.eqb_spec a c); [done|].
    destruct (Z.eqb_spec a b) as [->|].
    - rewrite Hb. intros _. by rewrite is_descendant_unfold, Z.eqb_refl.
    - destruct (parents !! a) as [q|] eqn:Ha; [|done]. intros Hq.
      eapply IH; [|done..]. by apply Hrank. }
  revert x. induction n as [|n IH]; intros x; simpl.
  { by rewrite is_descendant_unfold, Z.eqb_refl. }
  destruct (children !! x) as [[|k0 ks]|] eqn:Hx;
    try by rewrite is_descendant_unfold, Z.eqb_refl.
  eapply Hstep; [apply IH|]. by apply best_child_parent.
Qed.
End walk.
End acyclic.

(** ** The choice among siblings is a maximum of a strict total order *)

Definition beats (slots : option (gmap hash Z)) (w_of : hash → Z) (a b : hash) : bool :=
  (w_of b <? w_of a) || ((w_of a =? w_of b) && wins_tie slots a b).

Lemma beats_trans slots w_of a b c :
  beats slots w_of a b = true → beats slots w_of b c = true → beats slots w_of a c = true.
Proof. unfold beats, wins_tie. destruct slots; lia. Qed.

Lemma beats_asym slots w_of a b :
  beats slots w_of a b = true → beats slots w_of b a = false.
Proof. unfold beats, wins_tie. destruct slots; lia. Qed.

Lemma beats_total slots w_of a b :
  a ≠ b → beats slots w_of a b = false → beats slots w_of b a = true.
Proof. unfold beats, wins_tie. destruct slots; lia. Qed.

Lemma best_child_max slots w_of best kids k :
  k ∈ best :: kids →
  k = best_child slots w_of best (w_of best) kids ∨
  beats slots w_of (best_child slots w_of best (w_of best) kids) k = true.
Proof.
  revert best k. induction kids as [|c kids IH]; intros best k Hk; simpl; [set_solver|].
  fold (beats slots w_of c best). destruct (beats slots w_of c best) eqn:Hb.
  - assert (k = best ∨ k ∈ c :: kids) as [->|Hk'] by set_solver; [|by apply IH].
    right. destruct (IH c c ltac:(set_solver)) as [<-|Hc]; [done|]. by eapply beats_trans.
  - assert (k = c ∨ k ∈ best :: kids) as [->|Hk'] by set_solver; [|by apply IH].
    destruct (decide (c = best)) as [->|Hne]; [by apply IH; set_solver|].
    right. pose proof (beats_total _ _ _ _ Hne Hb) as Hb'.
    destruct (IH best best ltac:(set_solver)) as [<-|Hc]; [done|]. by eapply beats_trans.
Qed.

Lemma best_child_perm slots w_of k0 ks k0' ks' :
  k0 :: ks ≡ₚ k0' :: ks' →
  best_child slots w_of k0 (w_of k0) ks = best_child slots w_of k0' (w_of k0') ks'.
Proof.
  intros Hp.
  pose proof (best_child_elem slots w_of k0 (w_of k0) ks) as H1.
  pose proof (best_child_elem slots w_of k0' (w_of k0') ks') as H2.
  rewrite Hp in H1. rewrite <-Hp in H2.
  apply (best_child_max slots w_of) in H1 as [->|H1]; [done|].
  apply (best_child_max slots w_of) in H2 as [->|H2]; [done|].
  apply beats_asym in H1. congruence.
Qed.

Lemma walk_down_perm slots w1 w2 ch1 ch2 n x :
  (∀ y, w1 y = w2 y) → (∀ y, default [] (ch1 !! y) ≡ₚ default [] (ch2 !! y)) →
  walk_down n slots w1 ch1 x = walk_down n slots w2 ch2 x.
Proof.
  intros Hw Hp. revert x. induction n as [|n IH]; intros x; simpl; [done|].
  specialize (Hp x).
  destruct (ch1 !! x) as [[|k0 ks]|], (ch2 !! x) as [[|k0' ks']|]; simpl in Hp; try done;
    try (by apply Permutation_nil_r in Hp); try (by apply Permutation_nil_l in Hp).
  rewrite (best_child_perm _ _ _ _ _ _ Hp), Hw, (best_child_ext slots w1 w2) by done.
  apply IH.
Qed.

(** ** Votes: equivocators *)

Definition observe_all (s : Store) (msgs : list (Z * LatestMessage)) : Store :=
  foldl (λ s vm, (observe s vm.1 vm.2).1) s msgs.

(** A validator caught equivocating has no latest message. *)
Definition store_inv (s : Store) : Prop :=
  ∀ v, v ∈ equivocators s → latest s !! v = None.

Lemma observe_store_inv s v msg :
  store_inv s → store_inv (observe s v msg).1 ∧
    equivocators s ⊆ equivocators (observe s v msg).1.
Proof.
  intros Hinv. unfold observe. case_decide as Hv; [done|].
  destruct (latest s !! v) as [prev|] eqn:Hl; [destruct (_ && _); [|case_match]|];
    (split; [|set_solver]); intros u Hu; simpl in *; try by apply Hinv.
  - apply lookup_delete_None.
    apply elem_of_union in Hu as [->%elem_of_singleton|Hu]; [by left|right; by apply Hinv].
  - rewrite lookup_insert_ne by (by intros ->). by apply Hinv.
  - rewrite lookup_insert_ne by (by intros ->). by apply Hinv.
Qed.

Lemma observe_all_store_inv s msgs :
  store_inv s → store_inv (observe_all s msgs) ∧
    equivocators s ⊆ equivocators (observe_all s msgs).
Proof.
  revert s. induction msgs as [|[v m] msgs IH]; intros s Hinv; [done|].
  destruct (observe_store_inv s v m Hinv) as [Hi Hs].
  destruct (IH _ Hi) as [Hi' Hs']. split; [done|]. simpl. set_solver.
Qed.

(** ** Properties *)

(** C11: on an acyclic block tree, the head computed from one pass of subtree
    weights is the head the reference walk (one [weight] query per child)
    reaches, for every iteration order of the hash maps.  Both walks return:
    the level cap of the optimised walk and the step limit of the ancestor
    query are never what ends them, and the head is a childless block that
    descends from the justified block. *)
Theorem head_equals_reference s parents rank children justified lat par fuel :
  acyclic_by rank parents → children_agree parents children →
  lat ≡ₚ map_to_list (latest s) → par ≡ₚ map_to_list parents →
  (size parents ≤ fuel)%nat →
  ∃ h, head s parents justified children lat par = Some h ∧
    head_reference fuel s parents justified children = Some h ∧
    default [] (children !! h) = [] ∧
    is_descendant_or_self parents h justified = true.
Proof.
  intros Hrank Hch Hlat Hpar Hfuel. unfold head, head_inner.
  destruct (subtree_weights_weight parents rank Hrank s lat par Hlat Hpar) as (w & -> & Hw).
  pose proof (above_le parents rank justified). eexists. split; [done|]. split_and!.
  - apply (walk_down_reference parents rank Hrank children Hch); [done|lia..].
  - apply (walk_down_leaf parents rank Hrank children Hch). lia.
  - by apply (walk_down_descends parents rank Hrank children Hch).
Qed.

(** The one-pass propagation terminates and gives every block, in the tree
    or not, exactly its reference weight: the stake of the latest messages that
    name the block or one of its descendants. *)
Theorem subtree_weights_reference s parents rank lat par :
  acyclic_by rank parents →
  lat ≡ₚ map_to_list (latest s) → par ≡ₚ map_to_list parents →
  ∃ w, subtree_weights s parents lat par = Some w ∧ ∀ x, get0 w x = weight s parents x.
Proof. intros Hrank. by apply subtree_weights_weight with (rank := rank). Qed.

(** The head depends on no iteration order: neither the order of the two
    hash maps nor the order in which siblings were recorded changes it, with or
    without the slot tie-break. *)
Theorem head_order_independent s parents rank justified slots ch1 ch2 lat1 lat2 par1 par2 :
  acyclic_by rank parents → dom ch1 = dom ch2 →
  (∀ y, default [] (ch1 !! y) ≡ₚ default [] (ch2 !! y)) →
  lat1 ≡ₚ map_to_list (latest s) → par1 ≡ₚ map_to_list parents →
  lat2 ≡ₚ map_to_list (latest s) → par2 ≡ₚ map_to_list parents →
  head_inner s parents justified ch1 slots lat1 par1 =
    head_inner s parents justified ch2 slots lat2 par2.
Proof.
  intros Hrank Hdom Hch Hlat1 Hpar1 Hlat2 Hpar2. unfold head_inner.
  destruct (subtree_weights_weight parents rank Hrank s _ _ Hlat1 Hpar1) as (w1 & -> & Hw1).
  destruct (subtree_weights_weight parents rank Hrank s _ _ Hlat2 Hpar2) as (w2 & -> & Hw2).
  simpl. rewrite <-(size_dom ch1), Hdom, size_dom. f_equal.
  apply walk_down_perm; [|done]. intros y. by rewrite Hw1, Hw2.
Qed.

(** C12: a validator caught voting for two blocks in one slot is out of the fork
    choice for good: after any further messages it is still flagged, and no
    stake it is given changes the weight of any block. *)
Theorem equivocator_weightless s v m1 m2 msgs parents root w :
  store_inv s → latest s !! v = Some m1 →
  lm_slot m1 = lm_slot m2 → lm_root m1 ≠ lm_root m2 →
  let s' := observe_all (observe s v m2).1 msgs in
  v ∈ equivocators s' ∧ weight (set_stake s' v w) parents root = weight s' parents root.
Proof.
  intros Hinv Hl Hslot Hroot s'.
  assert (v ∈ equivocators (observe s v m2).1) as Hv.
  { unfold observe. case_decide; [done|]. rewrite Hl, Hslot, Z.eqb_refl.
    destruct (Z.eqb_spec (lm_root m1) (lm_root m2)); [done|]. simpl. set_solver. }
  destruct (observe_store_inv s v m2 Hinv) as [Hi _].
  destruct (observe_all_store_inv _ msgs Hi) as [Hi' Hs'].
  split; [by apply Hs'|]. unfold weight. simpl. apply map_sum_ext.
  intros u msg Hu. rewrite get0_insert. gdec; [|done]. subst.
  rewrite Hi' in Hu by (by apply Hs'). done.
Qed.

(** A tree of four blocks: 1 with children 2 and 3, and 4 on top of 2. *)
Definition ex_parents : tree := {[2 := 1; 3 := 1; 4 := 2]}.
Definition ex_children : child_lists := {[1 := [2; 3]; 2 := [4]]}.
Definition ex_store : Store :=
  mkStore {[10 := mkLM 5 4; 11 := mkLM 5 3; 12 := mkLM 4 2]} {[10 := 3; 11 := 5; 12 := 4]} ∅.

Lemma ex_acyclic : acyclic_by Z.to_nat ex_parents.
Proof.
  change (map_Forall (λ c p, (Z.to_nat p < Z.to_nat c)%nat) ex_parents).
  apply (bool_decide_unpack _). by vm_compute.
Qed.

Lemma ex_agree : children_agree ex_parents ex_children.
Proof.
  intros x kids c Hx Hc.
  assert (map_Forall (λ x kids, Forall (λ c, ex_parents !! c = Some x) kids) ex_children) as Hall
    by (apply (bool_decide_unpack _); by vm_compute).
  specialize (Hall x kids Hx). rewrite Forall_forall in Hall. by apply Hall.
Qed.

Lemma head_equals_reference_witness :
  ∃ h, head ex_store ex_parents 1 ex_children
         (map_to_list (latest ex_store)) (map_to_list ex_parents) = Some h ∧
    head_reference 3 ex_store ex_parents 1 ex_children = Some h ∧
    default [] (ex_children !! h) = [] ∧ is_descendant_or_self ex_parents h 1 = true.
Proof.
  apply (head_equals_reference ex_store ex_parents Z.to_nat ex_children 1
    (map_to_list (latest ex_store)) (map_to_list ex_parents) 3).
  - apply ex_acyclic.
  - apply ex_agree.
  - reflexivity.
  - reflexivity.
  - apply Nat.leb_le. reflexivity.
Defined.

Lemma subtree_weights_reference_witness :
  ∃ w, subtree_weights ex_store ex_parents (reverse (map_to_list (latest ex_store)))
         (reverse (map_to_list ex_parents)) = Some w ∧
    ∀ x, get0 w x = weight ex_store ex_parents x.
Proof.
  apply (subtree_weights_reference ex_store ex_parents Z.to_nat).
  - apply ex_acyclic.
  - apply reverse_Permutation.
  - apply reverse_Permutation.
Defined.

Lemma head_order_independent_witness :
  head_inner ex_store ex_parents 1 ex_children None
      (map_to_list (latest ex_store)) (map_to_list ex_parents) =
    head_inner ex_store ex_parents 1 (reverse <$> ex_children) None
      (reverse (map_to_list (latest ex_store))) (reverse (map_to_list ex_parents)).
Proof.
  apply (head_order_independent ex_store ex_parents Z.to_nat 1 None ex_children
    (reverse <$> ex_children)).
  - apply ex_acyclic.
  - by rewrite dom_fmap_L.
  - intros y. rewrite lookup_fmap. destruct (ex_children !! y); [|done].
    symmetry. apply reverse_Permutation.
  - reflexivity.
  - reflexivity.
  - apply reverse_Permutation.
  - apply reverse_Permutation.
Defined.

Lemma equivocator_weightless_witness :
  let s' := observe_all (observe ex_store 10 (mkLM 5 3)).1 [(10, mkLM 9 4); (11, mkLM 9 3)] in
  10 ∈ equivocators s' ∧ weight (set_stake s' 10 1000) ex_parents 1 = weight s' ex_parents 1.
Proof.
  apply (equivocator_weightless ex_store 10 (mkLM 5 4) (mkLM 5 3)
    [(10, mkLM 9 4); (11, mkLM 9 3)] ex_parents 1 1000).
  - intros v Hv. by apply not_elem_of_empty in Hv.
  - reflexivity.
  - reflexivity.
  - discriminate.
Defined.

Example ex_head : head ex_store ex_parents 1 ex_children
  (map_to_list (latest ex_store)) (map_to_list ex_parents) = Some 4.
Proof. vm_compute. reflexivity. Qed.

End ForkChoice.
