(* ===== verification/Finality.v ===== *)
(** * Epoch finality: justification, finalization and the inactivity leak

    Models [crates/bloch-pos-committee/src/finality.rs].  [process_epoch]
    consumes the votes of one epoch; the steps of its body are the definitions
    of the sections below, in the order of the code.

    A [BTreeMap] is a [gmap]; where the code iterates over one in key order,
    [ascending] lists the keys.  [u64] stakes are summed in [u128]: with
    [u32] indices the sums stay below [2^96], so [Z] is exact.  The cast
    [as u64] of the leak is written out, and [next_epoch] is a plain successor (its [u64]
    is not exhausted by one increment per epoch).  The [cfg(test)] hooks
    ([denominator_ignores_leak] and the like) are constantly [false] in the
    program and are left out. *)

From S2P Require Import Prelude Params Types.
Local Open Scope Z_scope.

Module Finality.
Import Params Types.

(** ** Data *)

Record EpochVotes := mkEpochVotes {
  votes_epoch : Z;
  active_set : list Validator;
  attestations : list (Z * AttestationData);
}.

Record EpochOutcome := mkEpochOutcome {
  out_justified : option Checkpoint;
  out_finalized : option Checkpoint;
  out_equivocators : list Z;
}.

Inductive FinalityError :=
| OutOfOrderEpoch (got expected : Z).

Record FinalitySet := mkFinalitySet { fs_epoch : Z; members : gmap Z Z }.

Definition total (fs : FinalitySet) : Z := map_sum (λ _ s, s) (members fs).

Record FinalitySetState := mkFinalitySetState {
  current : FinalitySet;
  pending : option FinalitySet;
  last_seen : gmap Z Z;
}.

Record FinalityState := mkFinalityState {
  justified : gmap Z hash;
  current_justified : Checkpoint;
  finalized : Checkpoint;
  leaked : gmap Z Z;
  next_epoch : Z;
  finality_set : option FinalitySetState;
  own_checkpoints : gmap Z hash;
}.

(** ** Construction and accessors *)

Definition new (genesis : Checkpoint) : FinalityState := {|
  justified := {[ epoch genesis := root genesis ]};
  current_justified := genesis;
  finalized := genesis;
  leaked := ∅;
  next_epoch := epoch genesis + 1;
  finality_set := None;
  own_checkpoints := ∅;
|}.

Definition relaunch (genesis : Checkpoint) : FinalityState := new genesis.

Definition leaked_total (self : FinalityState) : Z := map_sum (λ _ s, s) (leaked self).

Definition is_justified (self : FinalityState) (cp : Checkpoint) : bool :=
  bool_decide (justified self !! epoch cp = Some (root cp)).

Definition leaked_of (self : FinalityState) (validator : Z) : Z :=
  get0 (leaked self) validator.

Definition justified_checkpoints (self : FinalityState) : list Checkpoint :=
  omap (λ e, mkCheckpoint e <$> justified self !! e) (ascending (dom (justified self))).

Definition leaked_stakes (self : FinalityState) : list (Z * Z) :=
  omap (λ v, pair v <$> leaked self !! v) (ascending (dom (leaked self))).

Definition restore_finality_set (self : FinalityState) (set : option FinalitySetState)
    : FinalityState :=
  {| justified := justified self; current_justified := current_justified self;
     finalized := finalized self; leaked := leaked self; next_epoch := next_epoch self;
     finality_set := set; own_checkpoints := own_checkpoints self |}.

Definition record_own_checkpoint (self : FinalityState) (ep : Z) (r : hash) : FinalityState :=
  let keep := epoch (current_justified self) in
  {| justified := justified self; current_justified := current_justified self;
     finalized := finalized self; leaked := leaked self; next_epoch := next_epoch self;
     finality_set := finality_set self;
     own_checkpoints :=
       filter (λ '(e, _), e = ep ∨ e = keep) (<[ep := r]> (own_checkpoints self)) |}.

Section process.
Context {G : Gates}.

(** ** The frozen finality set *)

Definition in_snapshot (votes : EpochVotes) (seen : gmap Z Z) (v : Validator) : bool :=
  (0 <? effective_stake v) &&
  (saturating_sub (votes_epoch votes) (default (votes_epoch votes) (seen !! index v))
     <? NATIVE_FINALITY_SET_PRUNE_AFTER_EPOCHS).

Definition snapshot (votes : EpochVotes) (seen : gmap Z Z) : FinalitySet :=
  mkFinalitySet (votes_epoch votes)
    (insert_all index effective_stake ∅
       (filter (λ v, in_snapshot votes seen v = true) (active_set votes))).

Definition open_finality_set (fs : option FinalitySetState) (votes : EpochVotes)
    : FinalitySetState :=
  match fs with
  | None => mkFinalitySetState (snapshot votes ∅) None ∅
  | Some fs =>
      if native_finality_set_recovery_at (votes_epoch votes)
      then mkFinalitySetState (snapshot votes (last_seen fs)) None (last_seen fs)
      else fs
  end.

Definition note_seen (ep : Z) (present : gset Z) (seen : gmap Z Z) (v : Z) : gmap Z Z :=
  if decide (v ∈ present) then <[v := ep]> seen
  else match seen !! v with Some _ => seen | None => <[v := ep]> seen end.

Definition close_finality_set (fs : FinalitySetState) (votes : EpochVotes)
    (finalized_now : option Checkpoint) (present : gset Z) : FinalitySetState :=
  let cur :=
    match finalized_now, pending fs with
    | Some f, Some p => if fs_epoch p =? epoch f then p else current fs
    | _, _ => current fs
    end in
  let roster : gset Z := list_to_set (index <$> active_set votes) in
  let kept := filter (λ '(v, _), v ∈ roster) (last_seen fs) in
  let seen := foldl (note_seen (votes_epoch votes) present) kept (ascending roster) in
  mkFinalitySetState cur (Some (snapshot votes seen)) seen.

(** ** Stakes and the quorum denominator *)

(** Effective stake less what has leaked. *)
Definition leak_adjusted_stake (self : FinalityState) (active : list Validator) : gmap Z Z :=
  insert_all index
    (λ v, saturating_sub (effective_stake v) (get0 (leaked self) (index v))) ∅ active.

Definition quorum_denominator (votes : EpochVotes) (stake : gmap Z Z) : Z :=
  let unleaked_total := sumZ (effective_stake <$> active_set votes) in
  let leak_adjusted := map_sum (λ _ s, s) stake in
  if votes_epoch votes <? LEAK_RECOVERY_ACTIVATION_EPOCH G then leak_adjusted
  else
    let floor := unleaked_total * MIN_QUORUM_DENOMINATOR_NUM / MIN_QUORUM_DENOMINATOR_DEN in
    Z.max leak_adjusted floor.

Definition opened_set (self : FinalityState) (votes : EpochVotes) : option FinalitySetState :=
  if native_finality_set_active (votes_epoch votes)
  then Some (open_finality_set (finality_set self) votes) else finality_set self.

Definition total_active (self : FinalityState) (votes : EpochVotes) : Z :=
  match opened_set self votes, native_finality_set_active (votes_epoch votes) with
  | Some fs, true => total (current fs)
  | _, _ => quorum_denominator votes (leak_adjusted_stake self (active_set votes))
  end.

(** ** Votes *)

Definition collect_vote (ep : Z) (stake : gmap Z Z)
    (acc : gmap Z AttestationData * gset Z) (vote : Z * AttestationData)
    : gmap Z AttestationData * gset Z :=
  let '(first_vote, equivocators) := acc in
  let '(validator, data) := vote in
  if bool_decide (stake !! validator = None) then acc
  else if negb (target_epoch data =? ep) then acc
  else
    match first_vote !! validator with
    | None => (<[validator := data]> first_vote, equivocators)
    | Some prev =>
        if bool_decide (prev ≠ data) then (first_vote, {[validator]} ∪ equivocators)
        else acc
    end.

(** One vote per validator; a validator with two different votes has none. *)
Definition collect_votes (ep : Z) (stake : gmap Z Z) (atts : list (Z * AttestationData))
    : gmap Z AttestationData * gset Z :=
  let '(first_vote, equivocators) := foldl (collect_vote ep stake) (∅, ∅) atts in
  (foldl (λ m v, delete v m) first_vote (ascending equivocators), equivocators).

(** The vote builds on the justified checkpoint of this state. *)
Definition source_ok (source : Checkpoint) (d : AttestationData) : bool :=
  (source_epoch d =? epoch source) && (source_root d =? root source) &&
  (source_epoch d <? target_epoch d).

(** The vote is for this node's own checkpoint of the epoch. *)
Definition own_ok (self : FinalityState) (ep : Z) (source : Checkpoint)
    (d : AttestationData) : bool :=
  bool_decide (Some (target_root d) = own_checkpoints self !! ep) &&
  match own_checkpoints self !! epoch source with
  | None => true
  | Some r => r =? source_root d
  end.

Definition valid_votes (self : FinalityState) (ep : Z) (first_vote : gmap Z AttestationData)
    : gmap Z AttestationData :=
  let source := current_justified self in
  let valid := filter (λ '(_, d), source_ok source d = true) first_vote in
  if own_target_votes_active ep
  then filter (λ '(_, d), own_ok self ep source d = true) valid else valid.

Definition source_is_own (self : FinalityState) (ep : Z) : bool :=
  let source := current_justified self in
  negb (own_target_votes_active ep) ||
  bool_decide (own_checkpoints self !! epoch source = Some (root source)).

(** ** Tally and justification *)

Definition vote_weight (self : FinalityState) (votes : EpochVotes) (v : Z) : Z :=
  match opened_set self votes, native_finality_set_active (votes_epoch votes) with
  | Some fs, true => get0 (members (current fs)) v
  | _, _ => get0 (leak_adjusted_stake self (active_set votes)) v
  end.

Definition tally (weight : Z → Z) (valid : gmap Z AttestationData) : gmap hash Z :=
  foldl (λ t v,
    match valid !! v with
    | Some d => map_add t (target_root d) (weight v)
    | None => t
    end) ∅ (ascending (dom valid)).

(** The first root, in key order, with two thirds of [total]. *)
Fixpoint first_quorum (total : Z) (t : gmap hash Z) (roots : list hash) : option hash :=
  match roots with
  | [] => None
  | r :: roots =>
      if (0 <? total) && (total * 2 <=? get0 t r * 3) then Some r
      else first_quorum total t roots
  end.

Definition justified_now (self : FinalityState) (votes : EpochVotes)
    (valid : gmap Z AttestationData) : option Checkpoint :=
  let t := tally (vote_weight self votes) valid in
  mkCheckpoint (votes_epoch votes) <$>
    first_quorum (total_active self votes) t (ascending (dom t)).

(** ** Finalization *)

Definition finalized_now (self : FinalityState) (ep : Z) (cp : option Checkpoint)
    : option Checkpoint :=
  let source := current_justified self in
  match cp with
  | Some cp =>
      if bool_decide (checked_add u64_MAX (epoch source) 1 = Some (epoch cp)) &&
         (epoch (finalized self) <? epoch source) && source_is_own self ep
      then Some source else None
  | None => None
  end.

(** ** Inactivity leak and recovery *)

Definition as_u64 (x : Z) : Z := x mod 2 ^ 64.

Definition bite (ep t remaining : Z) : Z :=
  Z.min (as_u64 (Z.max (remaining * t / inactivity_leak_quotient ep) 1)) remaining.

Definition leak_step (ep since : Z) (stake : gmap Z Z) (valid : gmap Z AttestationData)
    (lk : gmap Z Z) (v : Validator) : gmap Z Z :=
  let t := since - INACTIVITY_LEAK_THRESHOLD_EPOCHS in
  if bool_decide (is_Some (valid !! index v)) then lk
  else
    let remaining := get0 stake (index v) in
    if remaining =? 0 then lk else map_add lk (index v) (bite ep t remaining).

Definition recover_amount (l : Z) : Z :=
  Z.min (Z.max (l / INACTIVITY_LEAK_RECOVERY_QUOTIENT) 1) l.

Definition recover_step (leaking : bool) (valid : gmap Z AttestationData)
    (acc : gmap Z Z * list Z) (v : Validator) : gmap Z Z * list Z :=
  let '(lk, drained) := acc in
  if leaking && bool_decide (valid !! index v = None) then acc
  else
    match lk !! index v with
    | Some l =>
        let l' := l - recover_amount l in
        (<[index v := l']> lk, if l' =? 0 then drained ++ [index v] else drained)
    | None => acc
    end.

Definition recover (leaking : bool) (valid : gmap Z AttestationData)
    (active : list Validator) (lk : gmap Z Z) : gmap Z Z :=
  let '(lk, drained) := foldl (recover_step leaking valid) (lk, []) active in
  foldl (λ m v, delete v m) lk drained.

Definition is_leaking (ep finalized_epoch : Z) : bool :=
  INACTIVITY_LEAK_THRESHOLD_EPOCHS <? saturating_sub ep finalized_epoch.

Definition leaked_after (self : FinalityState) (votes : EpochVotes)
    (valid : gmap Z AttestationData) (finalized_epoch : Z) : gmap Z Z :=
  let ep := votes_epoch votes in
  let stake := leak_adjusted_stake self (active_set votes) in
  let leaking := is_leaking ep finalized_epoch in
  let lk :=
    if leaking
    then foldl (leak_step ep (saturating_sub ep finalized_epoch) stake valid)
           (leaked self) (active_set votes)
    else leaked self in
  if LEAK_RECOVERY_ACTIVATION_EPOCH G <=? ep
  then recover leaking valid (active_set votes) lk else lk.

(** ** The epoch transition *)

Definition process_epoch (self : FinalityState) (votes : EpochVotes)
    : result FinalityError (FinalityState * EpochOutcome) :=
  if negb (votes_epoch votes =? next_epoch self) then
    Err (OutOfOrderEpoch (votes_epoch votes) (next_epoch self))
  else
    let ep := votes_epoch votes in
    let stake := leak_adjusted_stake self (active_set votes) in
    let frozen := native_finality_set_active ep in
    let fset := opened_set self votes in
    let '(first_vote, equivocators) := collect_votes ep stake (attestations votes) in
    let present : gset Z := if frozen then dom first_vote else ∅ in
    let valid := valid_votes self ep first_vote in
    let just := justified_now self votes valid in
    let fin := finalized_now self ep just in
    let fset :=
      if frozen then (λ fs, close_finality_set fs votes fin present) <$> fset else fset in
    let finalized' := default (finalized self) fin in
    Ok ({| justified :=
             match just with
             | Some cp => <[epoch cp := root cp]> (justified self)
             | None => justified self
             end;
           current_justified :=
             match just with
             | Some cp =>
                 if epoch (current_justified self) <? epoch cp then cp
                 else current_justified self
             | None => current_justified self
             end;
           finalized := finalized';
           leaked := leaked_after self votes valid (epoch finalized');
           next_epoch := next_epoch self + 1;
           finality_set := fset;
           own_checkpoints := own_checkpoints self |},
        mkEpochOutcome just fin (ascending equivocators)).

Fixpoint process_history (self : FinalityState) (history : list EpochVotes)
    : result FinalityError FinalityState :=
  match history with
  | [] => Ok self
  | votes :: history =>
      '(self, _) ← process_epoch self votes; process_history self history
  end.

Definition from_history (genesis : Checkpoint) (history : list EpochVotes)
    : result FinalityError FinalityState :=
  process_history (new genesis) history.

End process.

(** ** Specification: what the votes of an epoch say *)

Section spec.
Context {G : Gates}.
Implicit Types (self : FinalityState) (votes : EpochVotes).

(** [d] is the only vote of [v] for the epoch (repetitions allowed). *)
Definition sole_vote votes (v : Z) (d : AttestationData) : Prop :=
  (v, d) ∈ attestations votes ∧ target_epoch d = votes_epoch votes ∧
  Forall (λ vd, vd.1 = v → target_epoch vd.2 = votes_epoch votes → vd.2 = d)
    (attestations votes).

(** [v] has one vote for the epoch, and it counts in this state. *)
Definition counts self votes (v : Z) (d : AttestationData) : Prop :=
  sole_vote votes v d ∧ source_ok (current_justified self) d = true ∧
  (own_target_votes_active (votes_epoch votes) = true →
   own_ok self (votes_epoch votes) (current_justified self) d = true).

Definition supports self votes (r : hash) (v : Z) : Prop :=
  Exists (λ vd, vd.1 = v ∧ counts self votes v vd.2 ∧ target_root vd.2 = r)
    (attestations votes).

Global Instance supports_dec self votes r v : Decision (supports self votes r v).
Proof. unfold supports, counts, sole_vote. apply _. Defined.

(** The weight behind root [r]. *)
Definition support self votes (r : hash) : Z :=
  sumZ ((λ v, if decide (supports self votes r (index v))
              then vote_weight self votes (index v) else 0) <$> active_set votes).

Definition set_ok (fs : FinalitySetState) : Prop :=
  (∀ v s, members (current fs) !! v = Some s → 0 ≤ s ≤ u64_MAX) ∧
  (∀ p v s, pending fs = Some p → members p !! v = Some s → 0 ≤ s ≤ u64_MAX).

(** Every stake of the frozen set of a state is a [u64]. *)
Definition fset_ok self : Prop := ∀ fs, finality_set self = Some fs → set_ok fs.

Lemma sole_vote_unique votes v d d' : sole_vote votes v d → sole_vote votes v d' → d = d'.
Proof.
  intros (Hin & He & _) (_ & _ & Hall). rewrite Forall_forall in Hall.
  exact (Hall (v, d) Hin eq_refl He).
Qed.

Lemma supports_iff self votes r v :
  supports self votes r v ↔ ∃ d, counts self votes v d ∧ target_root d = r.
Proof.
  unfold supports. rewrite Exists_exists. split.
  - intros ([v' d] & ? & ? & ? & ?). simpl in *. subst. eauto.
  - intros (d & Hc & Hr). exists (v, d). split; [apply Hc|done].
Qed.

Lemma supports_unique self votes r r' v :
  supports self votes r v → supports self votes r' v → r = r'.
Proof.
  rewrite !supports_iff. intros (d & [Hs _] & <-) (d' & [Hs' _] & <-).
  by rewrite (sole_vote_unique votes v d d').
Qed.

End spec.

(** ** Collecting the votes *)

Section collect.
Context (ep : Z) (stake : gmap Z Z).

(** The votes the scan looks at. *)
Definition eligible (atts : list (Z * AttestationData)) (v : Z) (d : AttestationData) : Prop :=
  (v, d) ∈ atts ∧ target_epoch d = ep ∧ stake !! v ≠ None.

Lemma eligible_snoc atts x v d :
  eligible (atts ++ [x]) v d ↔
    eligible atts v d ∨ ((v, d) = x ∧ target_epoch d = ep ∧ stake !! v ≠ None).
Proof. unfold eligible. rewrite elem_of_app, list_elem_of_singleton. naive_solver. Qed.

Definition collected (atts : list (Z * AttestationData))
    (acc : gmap Z AttestationData * gset Z) : Prop :=
  (∀ v d, acc.1 !! v = Some d → eligible atts v d) ∧
  (∀ v d, eligible atts v d → is_Some (acc.1 !! v)) ∧
  (∀ v, v ∈ acc.2 ↔ ∃ d d', eligible atts v d ∧ eligible atts v d' ∧ d ≠ d').

Lemma collected_same atts v0 d0 acc :
  (∀ v d, eligible (atts ++ [(v0, d0)]) v d ↔ eligible atts v d) →
  collected atts acc → collected (atts ++ [(v0, d0)]) acc.
Proof. unfold collected. intros He. setoid_rewrite He. done. Qed.

Lemma collected_step atts x acc :
  collected atts acc → collected (atts ++ [x]) (collect_vote ep stake acc x).
Proof.
  destruct acc as [first eqv], x as [v0 d0]. intros Hc. unfold collect_vote.
  case_bool_decide as Hs; [apply collected_same; [|done]; intros v d;
    rewrite eligible_snoc; naive_solver|].
  destruct (Z.eqb_spec (target_epoch d0) ep) as [Ht|Ht]; simpl;
    [|apply collected_same; [|done]; intros v d; rewrite eligible_snoc; naive_solver].
  destruct Hc as (H1 & H2 & H3). simpl in *.
  assert (eligible (atts ++ [(v0, d0)]) v0 d0) as He0 by (rewrite eligible_snoc; auto).
  destruct (first !! v0) as [prev|] eqn:Hf; [case_bool_decide as Hp|].
  - split_and!; simpl; [intros; rewrite eligible_snoc; auto|
      intros v d; rewrite eligible_snoc; naive_solver|].
    intros v. rewrite elem_of_union, elem_of_singleton, H3. setoid_rewrite eligible_snoc.
    split; [|naive_solver]. intros [->|(d & d' & ? & ? & ?)]; [|exists d, d'; auto].
    exists prev, d0. naive_solver.
  - assert (prev = d0) as -> by (destruct (decide (prev = d0)); [done|by destruct Hp]).
    apply collected_same; [|done]. intros v d. rewrite eligible_snoc.
    split; [|tauto]. intros [?|([= -> ->] & _)]; [done|auto].
  - assert (∀ d, ¬ eligible atts v0 d) as Hno.
    { intros d Hd. apply H2 in Hd. rewrite Hf in Hd. by destruct Hd. }
    split_and!; simpl.
    + intros v d [[<- <-]|[? ?]]%lookup_insert_Some; [done|]. rewrite eligible_snoc; auto.
    + intros v d. rewrite eligible_snoc. intros Hv. destruct (decide (v = v0)) as [->|].
      * rewrite lookup_insert_eq. eauto.
      * rewrite lookup_insert_ne by done. naive_solver.
    + intros v. rewrite H3. setoid_rewrite eligible_snoc. split.
      * intros (d & d' & ? & ? & ?). exists d, d'. auto.
      * intros (d & d' & [?|(E & _)] & [?|(E' & _)] & Hne); simplify_eq;
          try (exfalso; by eapply Hno). by exists d, d'.
Qed.

Lemma collected_foldl atts :
  collected atts (foldl (collect_vote ep stake) (∅, ∅) atts).
Proof.
  induction atts as [|x atts IH] using rev_ind.
  - unfold collected, eligible. simpl. split_and!; try naive_solver set_solver.
  - rewrite foldl_snoc. by apply collected_step.
Qed.

(** A vote survives exactly when it is its validator's only one. *)
Lemma collect_votes_spec atts v d :
  (collect_votes ep stake atts).1 !! v = Some d ↔
    eligible atts v d ∧ ∀ d', eligible atts v d' → d' = d.
Proof.
  unfold collect_votes. pose proof (collected_foldl atts) as Hc.
  destruct (foldl (collect_vote ep stake) (∅, ∅) atts) as [first eqv].
  destruct Hc as (H1 & H2 & H3). simpl in *.
  rewrite lookup_foldl_delete. case_decide as Hv; rewrite elem_of_ascending, H3 in Hv.
  - split; [done|]. intros [? Hu]. destruct Hv as (d1 & d2 & ? & ? & Hne).
    destruct Hne. by rewrite (Hu d1), (Hu d2).
  - split.
    + intros Hf. split; [auto|]. intros d' Hd'. destruct (decide (d' = d)); [done|].
      destruct Hv. eauto 6.
    + intros [He Hu]. destruct (H2 v d He) as [d' Hd']. rewrite Hd'. f_equal. auto.
Qed.

Lemma collect_votes_equivocators atts v :
  v ∈ (collect_votes ep stake atts).2 ↔
    ∃ d d', eligible atts v d ∧ eligible atts v d' ∧ d ≠ d'.
Proof.
  unfold collect_votes. pose proof (collected_foldl atts) as (_ & _ & H3).
  by destruct (foldl (collect_vote ep stake) (∅, ∅) atts).
Qed.
End collect.

(** ** Tally and quorum *)

Lemma get0_tally w valid r :
  get0 (tally w valid) r = map_sum (λ v d, if decide (target_root d = r) then w v else 0) valid.
Proof.
  unfold tally. rewrite (map_sum_keys _ valid (ascending (dom valid)));
    [|apply NoDup_ascending|intros v ?; rewrite elem_of_ascending; by apply elem_of_dom].
  assert (∀ l t, get0 (foldl (λ t v, match valid !! v with
      | Some d => map_add t (target_root d) (w v) | None => t end) t l) r =
    get0 t r + sumZ ((λ k, match valid !! k with
      | Some d => if decide (target_root d = r) then w k else 0 | None => 0 end) <$> l))
    as Hgen; [|rewrite Hgen, get0_empty; lia].
  induction l as [|v l IH]; intros t; csimpl; [lia|]. rewrite IH.
  destruct (valid !! v); [rewrite get0_map_add|lia]. repeat case_decide; congruence || lia.
Qed.

Lemma elem_of_dom_tally w valid r :
  r ∈ dom (tally w valid) ↔ ∃ v d, valid !! v = Some d ∧ target_root d = r.
Proof.
  unfold tally.
  assert (∀ l t, r ∈ dom (foldl (λ t v, match valid !! v with
      | Some d => map_add t (target_root d) (w v) | None => t end) t l) ↔
    r ∈ dom t ∨ ∃ v d, v ∈ l ∧ valid !! v = Some d ∧ target_root d = r) as Hgen.
  { induction l as [|v l IH]; intros t; simpl; [set_solver|]. rewrite IH.
    setoid_rewrite elem_of_cons.
    destruct (valid !! v) eqn:Hv; [rewrite dom_map_add|]; set_solver. }
  rewrite Hgen, dom_empty_L. split; [set_solver|].
  intros (v & d & Hv & Hr). right. exists v, d. split; [|done].
  rewrite elem_of_ascending. apply elem_of_dom. eauto.
Qed.

Lemma first_quorum_Some tot t l r :
  first_quorum tot t l = Some r → r ∈ l ∧ 0 < tot ∧ 2 * tot ≤ 3 * get0 t r.
Proof.
  induction l as [|x l IH]; simpl; [done|]. case_goal; boolp.
  - intros [= ->]. split; [set_solver|lia].
  - intros (? & ? & ?)%IH. split; [set_solver|lia].
Qed.

Lemma first_quorum_None tot t l r :
  first_quorum tot t l = None → r ∈ l → ¬ (0 < tot ∧ 2 * tot ≤ 3 * get0 t r).
Proof.
  induction l as [|x l IH]; simpl; [set_solver|]. case_goal; [done|].
  intros Hl [->|Hr]%elem_of_cons; [|auto]. boolp. lia.
Qed.

Section epoch.
Context {G : Gates}.
Implicit Types (self : FinalityState) (votes : EpochVotes).

(** The valid votes of the epoch, as [process_epoch] computes them. *)
Definition epoch_valid self votes : gmap Z AttestationData :=
  valid_votes self (votes_epoch votes)
    (collect_votes (votes_epoch votes) (leak_adjusted_stake self (active_set votes))
       (attestations votes)).1.

Lemma lookup_stake_None self active v :
  leak_adjusted_stake self active !! v = None ↔ v ∉ index <$> active.
Proof.
  unfold leak_adjusted_stake. rewrite <-not_elem_of_dom, dom_insert_all. set_solver.
Qed.

Lemma get0_stake self active v :
  NoDup (index <$> active) → v ∈ active →
  get0 (leak_adjusted_stake self active) (index v) =
    saturating_sub (effective_stake v) (get0 (leaked self) (index v)).
Proof.
  intros. unfold get0 at 1, leak_adjusted_stake. by rewrite lookup_insert_all.
Qed.

Lemma stake_nonneg self active v s :
  leak_adjusted_stake self active !! v = Some s → 0 ≤ s.
Proof.
  intros [Hl|(a & _ & _ & <-)]%lookup_insert_all_inv; [by rewrite lookup_empty in Hl|].
  unfold saturating_sub. lia.
Qed.

Lemma get0_nonneg `{Countable K} (m : gmap K Z) k :
  (∀ k v, m !! k = Some v → 0 ≤ v) → 0 ≤ get0 m k.
Proof. intros Hm. unfold get0. destruct (m !! k) eqn:Hk; simpl; eauto with lia. Qed.

Lemma epoch_valid_spec self votes v d :
  epoch_valid self votes !! v = Some d ↔
    v ∈ index <$> active_set votes ∧ counts self votes v d.
Proof.
  unfold epoch_valid, valid_votes, counts, sole_vote.
  assert ((collect_votes (votes_epoch votes) (leak_adjusted_stake self (active_set votes))
    (attestations votes)).1 !! v = Some d ↔ v ∈ index <$> active_set votes ∧
    sole_vote votes v d) as Hc.
  { rewrite collect_votes_spec. unfold eligible, sole_vote.
    rewrite lookup_stake_None, Forall_forall. split.
    - intros ((? & ? & Hs) & Hu). apply dec_stable in Hs. split_and!; [done..|].
      intros [v' d'] ? Hv' ?. cbn [fst snd] in *. subst v'. apply Hu. rewrite lookup_stake_None. tauto.
    - intros (Hv & ? & ? & Hu). split_and!; [done|done|tauto|].
      intros d' (? & ? & _). by apply (Hu (v, d')). }
  destruct (own_target_votes_active (votes_epoch votes));
    rewrite ?map_lookup_filter_Some, Hc; unfold sole_vote; naive_solver.
Qed.

(** The tally of a root is the support the votes give it. *)
Lemma get0_tally_support self votes r :
  NoDup (index <$> active_set votes) →
  get0 (tally (vote_weight self votes) (epoch_valid self votes)) r = support self votes r.
Proof.
  intros Hnd. rewrite get0_tally, (map_sum_keys _ _ (index <$> active_set votes)).
  - unfold support. rewrite <-list_fmap_compose. apply sumZ_fmap_ext. intros v Hv. simpl.
    destruct (epoch_valid self votes !! index v) as [d|] eqn:Hd.
    + pose proof Hd as [_ Hc]%epoch_valid_spec.
      case_decide as Hs; case_decide as Hs0; try done; exfalso.
      * destruct Hs0. apply supports_iff. eauto.
      * apply supports_iff in Hs0 as (d' & Hc' & <-). destruct Hs.
        by rewrite (sole_vote_unique votes (index v) d d' (proj1 Hc) (proj1 Hc')).
    + case_decide as Hs; [|done]. exfalso. apply supports_iff in Hs as (d & Hc & _).
      rewrite (proj2 (epoch_valid_spec self votes (index v) d)) in Hd; [done|].
      split; [|done]. apply list_elem_of_fmap. eauto.
  - done.
  - intros v [d Hd]. by apply epoch_valid_spec in Hd as [? _].
Qed.

Lemma snapshot_ok votes seen v s :
  roster_ok (active_set votes) → members (snapshot votes seen) !! v = Some s →
  0 ≤ s ≤ u64_MAX.
Proof.
  intros [_ Hr]. rewrite Forall_forall in Hr. unfold snapshot. simpl.
  intros [Hl|(a & [_ Ha]%list_elem_of_filter & _ & <-)]%lookup_insert_all_inv;
    [by rewrite lookup_empty in Hl|auto].
Qed.

Lemma opened_set_ok self votes fs :
  roster_ok (active_set votes) → fset_ok self → opened_set self votes = Some fs → set_ok fs.
Proof.
  intros Hr Hf. unfold opened_set, open_finality_set. case_goal; [|auto].
  intros [= <-]. destruct (finality_set self) as [fs'|] eqn:E; [case_goal|].
  - split; simpl; [intros v s; by apply snapshot_ok|done].
  - auto.
  - split; simpl; [intros v s; by apply snapshot_ok|done].
Qed.

Lemma vote_weight_nonneg self votes v :
  roster_ok (active_set votes) → fset_ok self → 0 ≤ vote_weight self votes v.
Proof.
  intros Hr Hf. unfold vote_weight.
  destruct (opened_set self votes) as [fs|] eqn:Ho; [case_goal|];
    apply get0_nonneg; try (intros ? ?; apply stake_nonneg).
  intros k s Hk. destruct (opened_set_ok self votes fs Hr Hf Ho) as [Hm _]. by eapply Hm.
Qed.

(** The weights of the roster add up to no more than the denominator. *)
Lemma vote_weight_total self votes :
  roster_ok (active_set votes) → fset_ok self →
  sumZ ((λ v, vote_weight self votes (index v)) <$> active_set votes) ≤
    total_active self votes.
Proof.
  intros Hr Hf. pose proof (proj1 Hr) as Hnd.
  assert (sumZ ((λ v, get0 (leak_adjusted_stake self (active_set votes)) (index v)) <$>
    active_set votes) ≤ quorum_denominator votes (leak_adjusted_stake self (active_set votes)))
    as Hplain.
  { etrans; [|unfold quorum_denominator; instantiate
      (1 := map_sum (λ _ s, s) (leak_adjusted_stake self (active_set votes)));
      case_goal; lia].
    rewrite (sumZ_fmap_comp (get0 (leak_adjusted_stake self (active_set votes)))). apply map_sum_keys_le; [done|].
    intros ? ?. apply stake_nonneg. }
  unfold vote_weight, total_active.
  destruct (opened_set self votes) as [fs|] eqn:Ho; [case_goal|]; try done.
  rewrite (sumZ_fmap_comp (get0 (members (current fs)))).
  apply map_sum_keys_le; [done|].
  intros k s Hk. destruct (opened_set_ok self votes fs Hr Hf Ho) as [Hm _]. by eapply Hm.
Qed.

(** Two different roots share no supporter. *)
Lemma support_disjoint self votes r r' :
  roster_ok (active_set votes) → fset_ok self → r ≠ r' →
  support self votes r + support self votes r' ≤ total_active self votes.
Proof.
  intros Hr Hf Hne. etrans; [|by apply vote_weight_total].
  unfold support. rewrite <-sumZ_fmap_add. apply sumZ_fmap_le. intros v Hv.
  pose proof (vote_weight_nonneg self votes (index v) Hr Hf).
  repeat case_decide; try lia. destruct Hne. by eapply supports_unique.
Qed.

Lemma justified_now_iff self votes r :
  roster_ok (active_set votes) → fset_ok self →
  justified_now self votes (epoch_valid self votes) = Some (mkCheckpoint (votes_epoch votes) r) ↔
    0 < total_active self votes ∧ 2 * total_active self votes ≤ 3 * support self votes r.
Proof.
  intros Hr Hf. unfold justified_now.
  set (t := tally (vote_weight self votes) (epoch_valid self votes)).
  assert (∀ r, get0 t r = support self votes r) as Ht
    by (intros; apply get0_tally_support, Hr).
  rewrite fmap_Some. split.
  - intros (r' & Hq%first_quorum_Some & [= ->]). rewrite Ht in Hq. tauto.
  - intros [Hpos Hq]. exists r. split; [|done].
    destruct (first_quorum _ t _) as [r'|] eqn:Hfq.
    + apply first_quorum_Some in Hfq as (_ & _ & Hq'). rewrite Ht in Hq'. f_equal.
      destruct (decide (r' = r)); [done|].
      pose proof (support_disjoint self votes r' r Hr Hf). lia.
    + rewrite <-Ht in Hq. destruct (decide (r ∈ dom t)) as [Hd|Hd].
      * destruct (first_quorum_None _ _ _ r Hfq); [by apply elem_of_ascending|lia].
      * apply not_elem_of_dom in Hd. unfold get0 in Hq. rewrite Hd in Hq. simpl in Hq. lia.
Qed.

Lemma justified_now_epoch self votes valid cp :
  justified_now self votes valid = Some cp → epoch cp = votes_epoch votes.
Proof. unfold justified_now. by intros (? & _ & ->)%fmap_Some. Qed.

(** [process_epoch] on the expected epoch, in one equation per field. *)
Lemma process_epoch_Ok self votes self' out :
  process_epoch self votes = Ok (self', out) →
  let just := justified_now self votes (epoch_valid self votes) in
  let fin := finalized_now self (votes_epoch votes) just in
  votes_epoch votes = next_epoch self ∧ next_epoch self' = next_epoch self + 1 ∧
  out_justified out = just ∧ out_finalized out = fin ∧
  justified self' = from_option (λ cp, <[epoch cp := root cp]> (justified self))
                      (justified self) just ∧
  current_justified self' = from_option (λ cp,
    if epoch (current_justified self) <? epoch cp then cp else current_justified self)
    (current_justified self) just ∧
  finalized self' = default (finalized self) fin ∧
  leaked self' = leaked_after self votes (epoch_valid self votes) (epoch (finalized self')).
Proof.
  unfold process_epoch, epoch_valid. case_goal; [done|]. boolp.
  destruct (collect_votes _ _ _) as [first eqv]. intros [= <- <-]. simpl.
  split_and!; try done; by destruct (justified_now _ _ _).
Qed.

Lemma process_epoch_expected self votes :
  votes_epoch votes = next_epoch self → ∃ self' out, process_epoch self votes = Ok (self', out).
Proof.
  intros He. unfold process_epoch. rewrite He, Z.eqb_refl. simpl.
  destruct (collect_votes _ _ _) as [first eqv]. eauto.
Qed.

(** ** The leak, one validator at a time *)

(** What an epoch does to the leaked balance [l] of an active validator. *)
Definition leak_one self votes (finalized_epoch v l : Z) : Z :=
  let ep := votes_epoch votes in
  let since := saturating_sub ep finalized_epoch in
  let remaining := get0 (leak_adjusted_stake self (active_set votes)) v in
  let voted := bool_decide (is_Some (epoch_valid self votes !! v)) in
  if is_leaking ep finalized_epoch && negb voted then
    if remaining =? 0 then l
    else l + bite ep (since - INACTIVITY_LEAK_THRESHOLD_EPOCHS) remaining
  else if LEAK_RECOVERY_ACTIVATION_EPOCH G <=? ep then l - recover_amount l else l.

Lemma get0_leak_step ep since stake valid lk v x :
  get0 (leak_step ep since stake valid lk v) x =
    if decide (x = index v) then
      (if bool_decide (is_Some (valid !! x)) then get0 lk x
       else if get0 stake x =? 0 then get0 lk x
       else get0 lk x + bite ep (since - INACTIVITY_LEAK_THRESHOLD_EPOCHS) (get0 stake x))
    else get0 lk x.
Proof.
  unfold leak_step. destruct (decide (x = index v)) as [->|].
  - repeat case_goal; try done. rewrite get0_map_add, decide_True; done.
  - repeat case_goal; try done. rewrite get0_map_add, decide_False by done. lia.
Qed.

Lemma recover_step_fst leaking valid acc v x :
  get0 (recover_step leaking valid acc v).1 x =
    if decide (x = index v) then
      (if leaking && bool_decide (valid !! x = None) then get0 acc.1 x
       else get0 acc.1 x - recover_amount (get0 acc.1 x))
    else get0 acc.1 x.
Proof.
  destruct acc as [lk dr]. unfold recover_step. simpl.
  destruct (decide (x = index v)) as [->|].
  - case_goal; [done|]. destruct (lk !! index v) as [l|] eqn:Hl; simpl.
    + rewrite get0_insert, decide_True by done. unfold get0. by rewrite Hl.
    + unfold get0. by rewrite Hl.
  - case_goal; [done|]. destruct (lk !! index v); simpl; [|done].
    by rewrite get0_insert, decide_False.
Qed.

Lemma recover_step_drained leaking valid acc v :
  (∀ x, x ∈ acc.2 → get0 acc.1 x = 0) →
  ∀ x, x ∈ (recover_step leaking valid acc v).2 →
    get0 (recover_step leaking valid acc v).1 x = 0.
Proof.
  intros Hd x Hx. rewrite recover_step_fst. revert Hx. destruct acc as [lk dr].
  unfold recover_step. simpl in *.
  destruct (leaking && bool_decide (valid !! index v = None)) eqn:E.
  - intros Hx. destruct (decide (x = index v)) as [->|]; [rewrite E|]; auto.
  - destruct (decide (x = index v)) as [->|].
    + destruct (lk !! index v) as [l|] eqn:Hl; simpl; rewrite E.
      * unfold get0 in *. rewrite Hl. simpl. case_goal; boolp; [done|].
        intros Hx. apply Hd in Hx. rewrite Hl in Hx. simpl in Hx. subst. done.
      * intros Hx. apply Hd in Hx. by rewrite Hx.
    + destruct (lk !! index v); simpl; [case_goal|]; set_solver.
Qed.

Lemma get0_recover leaking valid active lk x :
  NoDup (index <$> active) →
  get0 (recover leaking valid active lk) x =
    if decide (x ∈ index <$> active) then
      (if leaking && bool_decide (valid !! x = None) then get0 lk x
       else get0 lk x - recover_amount (get0 lk x))
    else get0 lk x.
Proof.
  intros Hnd. unfold recover.
  assert (∀ acc, (∀ x, x ∈ acc.2 → get0 acc.1 x = 0) →
    let acc' := foldl (recover_step leaking valid) acc active in
    (∀ x, x ∈ acc'.2 → get0 acc'.1 x = 0) ∧
    get0 acc'.1 x = if decide (x ∈ index <$> active) then
      (if leaking && bool_decide (valid !! x = None) then get0 acc.1 x
       else get0 acc.1 x - recover_amount (get0 acc.1 x)) else get0 acc.1 x) as Hgen.
  { induction active as [|v active IH]; intros acc Hacc; csimpl in *.
    - split; [done|]. done.
    - apply NoDup_cons in Hnd as [Hv Hnd].
      destruct (IH Hnd (recover_step leaking valid acc v)) as [? Heq];
        [by apply recover_step_drained|].
      split; [done|]. rewrite Heq, recover_step_fst.
      destruct (decide (x = index v)) as [->|]; repeat case_decide; set_solver. }
  destruct (Hgen (lk, [])) as [Hdr Heq]; [set_solver|].
  destruct (foldl _ _ _) as [lk' dr]. simpl in *. rewrite <-Heq. unfold get0 in *.
  rewrite lookup_foldl_delete. destruct (decide (x ∈ dr)) as [Hx|Hx]; [|done]. by rewrite (Hdr x Hx).
Qed.

Lemma get0_leaked_after self votes fe v :
  NoDup (index <$> active_set votes) →
  get0 (leaked_after self votes (epoch_valid self votes) fe) v =
    if decide (v ∈ index <$> active_set votes)
    then leak_one self votes fe v (get0 (leaked self) v) else get0 (leaked self) v.
Proof.
  intros Hnd. unfold leaked_after, leak_one.
  set (stake := leak_adjusted_stake _ _). set (valid := epoch_valid _ _).
  assert (∀ since, get0 (foldl (leak_step (votes_epoch votes) since stake valid)
      (leaked self) (active_set votes)) v =
    if decide (v ∈ index <$> active_set votes) then
      (if bool_decide (is_Some (valid !! v)) then get0 (leaked self) v
       else if get0 stake v =? 0 then get0 (leaked self) v
       else get0 (leaked self) v +
            bite (votes_epoch votes) (since - INACTIVITY_LEAK_THRESHOLD_EPOCHS) (get0 stake v))
    else get0 (leaked self) v) as Hleak.
  { intros since. refine (get0_foldl_pointwise index _ (λ x l,
      if bool_decide (is_Some (valid !! x)) then l else if get0 stake x =? 0 then l
      else l + bite (votes_epoch votes) (since - INACTIVITY_LEAK_THRESHOLD_EPOCHS)
                 (get0 stake x)) _ _ v _ Hnd).
    intros. apply get0_leak_step. }
  destruct (is_leaking _ _), (LEAK_RECOVERY_ACTIVATION_EPOCH G <=? _); simpl;
    rewrite ?get0_recover, ?Hleak by done; case_decide; simpl; try done;
    destruct (valid !! v); simpl; by repeat case_bool_decide.
Qed.
End epoch.

(** ** Runs *)

(** A state wherever the node holds it: epochs are processed, the node notes
    its own checkpoints, a cached finality set is restored. *)
Inductive step {G : Gates} : FinalityState → FinalityState → Prop :=
| step_epoch self votes self' out :
    roster_ok (active_set votes) →
    process_epoch self votes = Ok (self', out) → step self self'
| step_own self ep r : step self (record_own_checkpoint self ep r)
| step_restore self set :
    (∀ fs, set = Some fs → set_ok fs) → step self (restore_finality_set self set).

Record finality_wf (genesis : Checkpoint) (st : FinalityState) : Prop := {
  wf_order : epoch genesis ≤ epoch (finalized st) ∧
             epoch (finalized st) ≤ epoch (current_justified st) < next_epoch st;
  wf_current : justified st !! epoch (current_justified st) = Some (root (current_justified st));
  wf_finalized : justified st !! epoch (finalized st) = Some (root (finalized st));
  wf_latest : ∀ e r, justified st !! e = Some r → e ≤ epoch (current_justified st);
  wf_child : finalized st = genesis ∨ is_Some (justified st !! (epoch (finalized st) + 1));
  wf_leaked : ∀ v, 0 ≤ get0 (leaked st) v ≤ u64_MAX;
  wf_fset : fset_ok st;
}.

Section run.
Context {G : Gates}.
#[local] Arguments finalized_now : simpl never.
Implicit Types (self : FinalityState) (votes : EpochVotes).

Lemma bite_bounds ep t s : 0 ≤ t → 0 ≤ s → 0 ≤ bite ep t s ≤ s.
Proof.
  intros Ht Hs. unfold bite, as_u64.
  pose proof (Z.mod_pos_bound (Z.max (s * t / inactivity_leak_quotient ep) 1) (2 ^ 64)). lia.
Qed.

Lemma recover_bounds l : 0 ≤ l → 0 ≤ recover_amount l ≤ l.
Proof. unfold recover_amount, INACTIVITY_LEAK_RECOVERY_QUOTIENT. intros. zlia. Qed.

Lemma recover_progress l : 0 < l → 1 ≤ recover_amount l.
Proof. unfold recover_amount. lia. Qed.

Lemma leak_one_bounds self votes fe v :
  roster_ok (active_set votes) → v ∈ active_set votes → 0 ≤ get0 (leaked self) (index v) →
  0 ≤ leak_one self votes fe (index v) (get0 (leaked self) (index v)) ≤
    Z.max (get0 (leaked self) (index v)) (effective_stake v).
Proof.
  intros [Hnd Hr] Hv Hl. rewrite Forall_forall in Hr. specialize (Hr v Hv). simpl in Hr.
  unfold leak_one. rewrite get0_stake by done.
  set (l := get0 _ _) in *. set (s := saturating_sub _ _).
  assert (0 ≤ s ∧ (s = 0 ∨ s = effective_stake v - l)) as [Hs0 Hs]
    by (subst s; unfold saturating_sub; lia).
  destruct (is_leaking _ _ && _) eqn:E.
  - boolp. unfold is_leaking in *. boolp. case_goal; boolp; [lia|].
    pose proof (bite_bounds (votes_epoch votes)
      (saturating_sub (votes_epoch votes) fe - INACTIVITY_LEAK_THRESHOLD_EPOCHS) s). lia.
  - pose proof (recover_bounds l). case_goal; lia.
Qed.

Lemma set_ok_close fs votes fin present :
  roster_ok (active_set votes) → set_ok fs → set_ok (close_finality_set fs votes fin present).
Proof.
  intros Hr [Hc Hp]. split; simpl.
  - intros v s. destruct fin as [f|], (pending fs) as [p|] eqn:E; eauto.
    case_goal; eauto.
  - intros p v s [= <-]. by apply snapshot_ok.
Qed.

Lemma fset_ok_process self votes self' out :
  roster_ok (active_set votes) → fset_ok self → process_epoch self votes = Ok (self', out) →
  fset_ok self'.
Proof.
  intros Hr Hf. unfold process_epoch. case_goal; [done|].
  destruct (collect_votes _ _ _) as [first eqv]. intros [= <- <-] fs'. simpl.
  pose proof (opened_set_ok self votes) as Ho. case_goal; [|auto].
  destruct (opened_set self votes) as [fs|]; simpl; [|done].
  intros [= <-]. apply set_ok_close; auto.
Qed.

Lemma finalized_now_Some self ep cp f :
  finalized_now self ep cp = Some f →
  f = current_justified self ∧ (∃ c, cp = Some c ∧ epoch c = epoch f + 1) ∧
  epoch (finalized self) < epoch f.
Proof.
  unfold finalized_now. destruct cp as [c|]; [|done]. case_goal; [|done]. intros [= <-].
  boolp. match goal with H : checked_add _ _ _ = _ |- _ => apply checked_add_Some in H end.
  naive_solver lia.
Qed.

Lemma wf_leaked_process self votes self' out :
  roster_ok (active_set votes) → (∀ v, 0 ≤ get0 (leaked self) v ≤ u64_MAX) →
  process_epoch self votes = Ok (self', out) → ∀ v, 0 ≤ get0 (leaked self') v ≤ u64_MAX.
Proof.
  intros Hr Hl (_ & _ & _ & _ & _ & _ & _ & ->)%process_epoch_Ok v.
  rewrite get0_leaked_after by apply Hr. gdec as [Hv|]; [|done].
  apply list_elem_of_fmap in Hv as (w & -> & Hw).
  pose proof (leak_one_bounds self votes (epoch (finalized self')) w Hr Hw).
  destruct Hr as [_ Hr]. rewrite Forall_forall in Hr. specialize (Hr w Hw). simpl in Hr.
  specialize (Hl (index w)). lia.
Qed.

Lemma finality_wf_process genesis self votes self' out :
  finality_wf genesis self → roster_ok (active_set votes) →
  process_epoch self votes = Ok (self', out) → finality_wf genesis self'.
Proof.
  intros [[? ?] Hc Hf Hlat Hch Hl Hfs] Hr Hp.
  pose proof (wf_leaked_process _ _ _ _ Hr Hl Hp) as Hl'.
  pose proof (fset_ok_process _ _ _ _ Hr Hfs Hp) as Hfs'.
  apply process_epoch_Ok in Hp as (He & Hn & _ & _ & Hj & Hcj & Hfin & _).
  destruct (justified_now self votes (epoch_valid self votes)) as [cp|] eqn:Ej; simpl in *.
  - pose proof (justified_now_epoch _ _ _ _ Ej) as Hcp.
    rewrite (proj2 (Z.ltb_lt _ _)) in Hcj by lia.
    destruct (finalized_now _ _ _) as [f|] eqn:Ef; simpl in *.
    + apply finalized_now_Some in Ef as (-> & (c & [= <-] & ?) & ?).
      split; rewrite ?Hcj, ?Hfin, ?Hj, ?Hn; try done; [lia|..].
      * by rewrite lookup_insert_eq.
      * rewrite lookup_insert_ne by lia. done.
      * intros e r [[<- <-]|[_ Hin]]%lookup_insert_Some; [lia|]. apply Hlat in Hin. lia.
      * right. replace (epoch (current_justified self) + 1) with (epoch cp) by lia.
        rewrite lookup_insert_eq. eauto.
    + split; rewrite ?Hcj, ?Hfin, ?Hj, ?Hn; try done; [lia|..].
      * by rewrite lookup_insert_eq.
      * rewrite lookup_insert_ne by lia. done.
      * intros e r [[<- <-]|[_ Hin]]%lookup_insert_Some; [lia|]. apply Hlat in Hin. lia.
      * destruct Hch as [|Hch]; [by left|right].
        destruct (decide (epoch cp = epoch (finalized self) + 1)) as [<-|];
          [rewrite lookup_insert_eq; eauto|by rewrite lookup_insert_ne].
  - split; rewrite ?Hcj, ?Hfin, ?Hj, ?Hn; try done; lia.
Qed.

Lemma finality_wf_step genesis self self' :
  finality_wf genesis self → step self self' → finality_wf genesis self'.
Proof.
  intros Hwf Hs. destruct Hs; [by eapply finality_wf_process| |];
    destruct Hwf; by split.
Qed.

(** ** Theorems *)

(** C13: an epoch processed in order returns a result, and it justifies a root
    exactly when the root is supported by two thirds of the quorum denominator.
    A validator supports the target of its vote when all its votes for the epoch
    are the same vote and that vote builds on the justified checkpoint; its
    weight is its leak-adjusted stake, or its stake in the frozen set. *)
Theorem justified_iff_quorum self votes :
  votes_epoch votes = next_epoch self → roster_ok (active_set votes) → fset_ok self →
  ∃ self' out, process_epoch self votes = Ok (self', out) ∧
    ∀ r, out_justified out = Some (mkCheckpoint (votes_epoch votes) r) ↔
      0 < total_active self votes ∧ 2 * total_active self votes ≤ 3 * support self votes r.
Proof.
  intros He Hr Hf. destruct (process_epoch_expected self votes He) as (self' & out & Hp).
  exists self', out. split; [done|]. intros r.
  apply process_epoch_Ok in Hp as (_ & _ & -> & _). by apply justified_now_iff.
Qed.

(** C14: accountable safety of one epoch.  If two nodes with the same state and
    roster process different sets of votes and justify different roots, the
    validators behind both roots carry at least a third of the denominator, and
    each of them signed two different votes for the same target epoch. *)
Theorem conflicting_justifications_slashable self votes1 votes2 s1 o1 s2 o2 r1 r2 :
  roster_ok (active_set votes1) → fset_ok self → active_set votes1 = active_set votes2 →
  process_epoch self votes1 = Ok (s1, o1) → process_epoch self votes2 = Ok (s2, o2) →
  out_justified o1 = Some (mkCheckpoint (votes_epoch votes1) r1) →
  out_justified o2 = Some (mkCheckpoint (votes_epoch votes2) r2) → r1 ≠ r2 →
  let culprits := filter (λ v, supports self votes1 r1 (index v) ∧
                               supports self votes2 r2 (index v)) (active_set votes1) in
  total_active self votes1 ≤
    3 * sumZ ((λ v, vote_weight self votes1 (index v)) <$> culprits) ∧
  ∀ v, v ∈ culprits → ∃ d1 d2, (index v, d1) ∈ attestations votes1 ∧
    (index v, d2) ∈ attestations votes2 ∧ is_double_vote d1 d2 = true.
Proof.
  intros Hr Hf Ha Hp1 Hp2 Hj1 Hj2 Hne culprits.
  apply process_epoch_Ok in Hp1 as (He1 & _ & Ho1 & _).
  apply process_epoch_Ok in Hp2 as (He2 & _ & Ho2 & _).
  rewrite Ho1 in Hj1. rewrite Ho2 in Hj2.
  apply justified_now_iff in Hj1 as [Hpos Hq1]; [|done..].
  apply justified_now_iff in Hj2 as [_ Hq2]; [|by rewrite <-Ha|done].
  assert (votes_epoch votes2 = votes_epoch votes1) as He by congruence.
  assert (total_active self votes2 = total_active self votes1) as Ht.
  { destruct votes1, votes2. simpl in *. by subst. }
  assert (∀ v, vote_weight self votes2 v = vote_weight self votes1 v) as Hw.
  { destruct votes1, votes2. simpl in *. by subst. }
  rewrite Ht in Hq2. split.
  - pose proof (vote_weight_total self votes1 Hr Hf) as Htot. subst culprits.
    rewrite sumZ_filter. unfold support in Hq1, Hq2. rewrite <-Ha in Hq2.
    set (A := sumZ _) in Hq1. set (B := sumZ _) in Hq2. set (T := sumZ _) in Htot.
    set (C := sumZ _). assert (A + B ≤ T + C); [|lia]. subst A B T C.
    rewrite <-!sumZ_fmap_add. apply sumZ_fmap_le. intros v Hv. simpl. rewrite Hw.
    pose proof (vote_weight_nonneg self votes1 (index v) Hr Hf).
    repeat case_decide; tauto || lia.
  - intros v ([Hs1 Hs2] & Hv)%list_elem_of_filter.
    apply supports_iff in Hs1 as (d1 & [(? & ? & _) _] & <-).
    apply supports_iff in Hs2 as (d2 & [(? & ? & _) _] & <-).
    exists d1, d2. split_and!; [done..|]. unfold is_double_vote.
    rewrite bool_decide_true by congruence. rewrite andb_true_r. apply Z.eqb_eq. lia.
Qed.

Lemma collect_votes_ext ep stake atts1 atts2 :
  (∀ x, x ∈ atts1 ↔ x ∈ atts2) → collect_votes ep stake atts1 = collect_votes ep stake atts2.
Proof.
  intros Hx. assert (∀ v d, eligible ep stake atts1 v d ↔ eligible ep stake atts2 v d) as He
    by (intros; unfold eligible; by rewrite Hx).
  apply injective_projections.
  - apply map_eq. intros v. apply option_eq. intros d. rewrite !collect_votes_spec.
    by setoid_rewrite He.
  - apply set_eq. intros v. rewrite !collect_votes_equivocators. by setoid_rewrite He.
Qed.

(** The result of an epoch depends on the set of votes only: neither the
    order in which votes arrived nor repeated copies of a vote change the new
    state or the outcome. *)
Theorem votes_order_independent self ep active atts1 atts2 :
  (∀ x, x ∈ atts1 ↔ x ∈ atts2) →
  process_epoch self (mkEpochVotes ep active atts1) =
    process_epoch self (mkEpochVotes ep active atts2).
Proof.
  intros Hx. unfold process_epoch. simpl. by rewrite (collect_votes_ext _ _ _ atts2 Hx).
Qed.

Lemma finality_wf_new genesis : finality_wf genesis (new genesis).
Proof.
  split; simpl; try done; try lia; try (by rewrite lookup_singleton_eq).
  - intros e r [<- _]%lookup_singleton_Some. done.
  - by left.
Qed.

(** C15: in every state a node can reach from genesis, the finalized checkpoint
    is not after the justified one, which is before the next epoch; both are on
    record as justified, the justified one is the latest on record, a finalized
    checkpoint other than genesis has a justified successor epoch, and the leaked
    balances stay in [u64] (the additions of the leak cannot overflow). *)
Theorem finality_reachable genesis st :
  rtc step (new genesis) st → finality_wf genesis st.
Proof.
  apply (rtc_ind_r (λ st, finality_wf genesis st)).
  - apply finality_wf_new.
  - intros self self' _ Hs Hwf. by eapply finality_wf_step.
Qed.

Lemma process_epoch_permanent genesis self votes self' out :
  finality_wf genesis self → process_epoch self votes = Ok (self', out) →
  justified self ⊆ justified self' ∧
  (finalized self' = finalized self ∨ epoch (finalized self) < epoch (finalized self')).
Proof.
  intros Hwf (He & _ & _ & _ & Hj & _ & Hfin & _)%process_epoch_Ok. split.
  - rewrite Hj. destruct (justified_now _ _ _) as [cp|] eqn:Ej; simpl; [|done].
    apply insert_subseteq. destruct (justified self !! epoch cp) as [r|] eqn:E; [|done].
    apply (wf_latest _ _ Hwf) in E. apply justified_now_epoch in Ej.
    destruct (wf_order _ _ Hwf). lia.
  - rewrite Hfin. destruct (finalized_now _ _ _) as [f|] eqn:Ef; simpl; [|by left].
    apply finalized_now_Some in Ef as (-> & _ & ?). by right.
Qed.

(** C16: finality is permanent along every run: a checkpoint that was justified
    or finalized stays on record as justified, and the finalized checkpoint
    either stays or moves to a strictly later epoch, never to another root of
    the same epoch or backwards. *)
Theorem finality_permanent genesis st st' :
  finality_wf genesis st → rtc step st st' →
  justified st ⊆ justified st' ∧ is_justified st' (finalized st) = true ∧
  (finalized st' = finalized st ∨ epoch (finalized st) < epoch (finalized st')).
Proof.
  intros Hwf Hrun.
  assert (justified st ⊆ justified st' ∧
    (finalized st' = finalized st ∨ epoch (finalized st) < epoch (finalized st'))) as [Hj Hf].
  { revert Hwf. induction Hrun as [st|st st1 st' Hs _ IH]; intros Hwf; [by split; [|left]|].
    destruct (IH (finality_wf_step _ _ _ Hwf Hs)) as [Hj Hf].
    destruct Hs as [self votes self' out _ Hp|self ep r|self set _]; [|done..].
    destruct (process_epoch_permanent _ _ _ _ _ Hwf Hp) as [Hj' Hf'].
    split; [by etrans|]. destruct Hf as [->|Hf], Hf' as [Hf'|Hf'];
      [by left|by right|right; congruence|right; lia]. }
  split_and!; [done| |done]. unfold is_justified. apply bool_decide_eq_true.
  exact (lookup_weaken _ _ _ _ (wf_finalized _ _ Hwf) Hj).
Qed.

Lemma voted_iff self votes v :
  v ∈ active_set votes →
  is_Some (epoch_valid self votes !! index v) ↔ ∃ d, counts self votes (index v) d.
Proof.
  intros Hv. assert (index v ∈ index <$> active_set votes) by (apply list_elem_of_fmap; eauto).
  split.
  - intros [d [_ ?]%epoch_valid_spec]. eauto.
  - intros [d ?]. exists d. by apply epoch_valid_spec.
Qed.

(** C17: the inactivity leak.  For an active validator with leaked balance [l]
    and remaining stake [s], an epoch leaves a balance between 0 and
    [max l effective_stake]; a validator whose vote counted never leaks, nor does
    anyone in an epoch that ends within the finality threshold; from the recovery
    epoch on such a validator's positive balance strictly shrinks; and a
    validator that missed a leaking epoch loses exactly
    [min s (max 1 (s * t / quotient))], [t] epochs past the threshold, as long as
    the quotient fits [u64]. *)
Theorem leak_and_recovery self votes self' out v :
  roster_ok (active_set votes) → 0 ≤ leaked_of self (index v) →
  process_epoch self votes = Ok (self', out) → v ∈ active_set votes →
  let ep := votes_epoch votes in
  let l := leaked_of self (index v) in
  let l' := leaked_of self' (index v) in
  let s := saturating_sub (effective_stake v) l in
  let voted := ∃ d, counts self votes (index v) d in
  let leaking := is_leaking ep (epoch (finalized self')) in
  let loss := s * (ep - epoch (finalized self') - INACTIVITY_LEAK_THRESHOLD_EPOCHS)
              / inactivity_leak_quotient ep in
  0 ≤ l' ≤ Z.max l (effective_stake v) ∧
  (voted ∨ leaking = false → l' ≤ l) ∧
  (voted ∨ leaking = false → LEAK_RECOVERY_ACTIVATION_EPOCH G ≤ ep → 0 < l → l' < l) ∧
  (¬ voted → leaking = true → 0 < s → loss ≤ u64_MAX → l' = l + Z.min s (Z.max 1 loss)).
Proof.
  intros Hr Hl Hp Hv ep l l' s voted leaking loss.
  assert (l' = leak_one self votes (epoch (finalized self')) (index v) l) as Hl'.
  { subst l' l. unfold leaked_of. apply process_epoch_Ok in Hp as (_ & _ & _ & _ & _ & _ & _ & ->).
    rewrite get0_leaked_after, decide_True; [done|apply list_elem_of_fmap; eauto|apply Hr]. }
  pose proof (voted_iff self votes v Hv) as Hvo. fold voted in Hvo.
  split; [rewrite Hl'; by apply leak_one_bounds|].
  assert (voted ∨ leaking = false → l' =
    if LEAK_RECOVERY_ACTIVATION_EPOCH G <=? ep then l - recover_amount l else l) as Hrec.
  { intros Hc. rewrite Hl'. unfold leak_one. fold ep leaking.
    destruct Hc as [Hc|Hc]; rewrite ?Hc; [|done].
    rewrite bool_decide_true by tauto. by rewrite andb_false_r. }
  pose proof (recover_bounds l Hl). split_and!.
  - intros Hc. rewrite (Hrec Hc). case_goal; lia.
  - intros Hc Hge Hpos. rewrite (Hrec Hc), (proj2 (Z.leb_le _ _)) by done.
    pose proof (recover_progress l Hpos). lia.
  - intros Hnv Hlk Hs Hloss. rewrite Hl'. unfold leak_one. fold ep leaking.
    rewrite Hlk, bool_decide_false by tauto. simpl. rewrite get0_stake by (done || apply Hr).
    fold l. fold (leaked_of self (index v)). fold l. fold s.
    rewrite (proj2 (Z.eqb_neq _ _)) by lia.
    unfold leaking, is_leaking in Hlk. boolp. unfold bite, as_u64.
    replace (saturating_sub ep _ - INACTIVITY_LEAK_THRESHOLD_EPOCHS) with
      (ep - epoch (finalized self') - INACTIVITY_LEAK_THRESHOLD_EPOCHS)
      by (unfold saturating_sub, INACTIVITY_LEAK_THRESHOLD_EPOCHS in *; lia).
    fold loss. rewrite Z.mod_small; [lia|]. unfold u64_MAX in Hloss. lia.
Qed.
End run.

(** ** Concrete epochs *)

Section examples.

Definition ex_active : list Validator :=
  [mkValidator 0 10; mkValidator 1 10; mkValidator 2 10].
Definition ex_vote (ep : Z) (r : hash) : AttestationData := mkAttData (ep * 32) r 0 7 ep r.
Definition ex_genesis : Checkpoint := mkCheckpoint 0 7.
Definition ex_votes1 : EpochVotes :=
  mkEpochVotes 1 ex_active [(0, ex_vote 1 11); (1, ex_vote 1 11)].
Definition ex_votes2 : EpochVotes :=
  mkEpochVotes 1 ex_active [(1, ex_vote 1 12); (2, ex_vote 1 12)].
Definition ex_next (self : FinalityState) (votes : EpochVotes) : FinalityState * EpochOutcome :=
  match process_epoch (G := mainnet) self votes with
  | Ok r => r
  | Err _ => (self, mkEpochOutcome None None [])
  end.

(** Six epochs without finality: the leak has started. *)
Definition ex_stalled : FinalityState :=
  mkFinalityState {[ 0 := 7 ]} ex_genesis ex_genesis ∅ 6 None ∅.
Definition ex_votes6 : EpochVotes :=
  mkEpochVotes 6 ex_active [(0, ex_vote 6 11); (1, ex_vote 6 11)].

Lemma ex_active_ok : roster_ok ex_active.
Proof.
  split; [apply (bool_decide_unpack _); vm_compute; exact I|].
  unfold u64_MAX. repeat constructor; simpl; lia.
Qed.

Lemma ex_fset_ok st : finality_set st = None → fset_ok st.
Proof. intros E fs. by rewrite E. Qed.
End examples.

Lemma justified_iff_quorum_witness :
  ∃ self' out, process_epoch (G := mainnet) (new ex_genesis) ex_votes1 = Ok (self', out) ∧
    ∀ r, out_justified out = Some (mkCheckpoint 1 r) ↔
      0 < total_active (G := mainnet) (new ex_genesis) ex_votes1 ∧
      2 * total_active (G := mainnet) (new ex_genesis) ex_votes1 ≤
        3 * support (G := mainnet) (new ex_genesis) ex_votes1 r.
Proof.
  apply (justified_iff_quorum (G := mainnet) (new ex_genesis) ex_votes1);
    [done|apply ex_active_ok|by apply ex_fset_ok].
Defined.

Lemma conflicting_justifications_slashable_witness :
  ∃ culprits, total_active (G := mainnet) (new ex_genesis) ex_votes1 ≤
    3 * sumZ ((λ v, vote_weight (G := mainnet) (new ex_genesis) ex_votes1 (index v)) <$> culprits).
Proof.
  eexists. apply (conflicting_justifications_slashable (G := mainnet) (new ex_genesis)
    ex_votes1 ex_votes2 (ex_next (new ex_genesis) ex_votes1).1
    (ex_next (new ex_genesis) ex_votes1).2 (ex_next (new ex_genesis) ex_votes2).1
    (ex_next (new ex_genesis) ex_votes2).2 11 12);
    [apply ex_active_ok|by apply ex_fset_ok|done|vm_compute; reflexivity..|done].
Defined.

Lemma votes_order_independent_witness :
  process_epoch (G := mainnet) (new ex_genesis)
    (mkEpochVotes 1 ex_active [(0, ex_vote 1 11); (1, ex_vote 1 12)]) =
  process_epoch (G := mainnet) (new ex_genesis)
    (mkEpochVotes 1 ex_active [(1, ex_vote 1 12); (0, ex_vote 1 11); (1, ex_vote 1 12)]).
Proof. apply (votes_order_independent (G := mainnet)). set_solver. Defined.

Lemma finality_reachable_witness :
  finality_wf ex_genesis (ex_next (new ex_genesis) ex_votes1).1.
Proof.
  apply (finality_reachable (G := mainnet)). apply rtc_once.
  apply (step_epoch _ ex_votes1 _ (ex_next (new ex_genesis) ex_votes1).2);
    [apply ex_active_ok|vm_compute; reflexivity].
Defined.

Lemma finality_permanent_witness :
  is_justified (ex_next (new ex_genesis) ex_votes1).1 ex_genesis = true.
Proof.
  apply (finality_permanent (G := mainnet) ex_genesis (new ex_genesis));
    [apply finality_wf_new|]. apply rtc_once.
  apply (step_epoch _ ex_votes1 _ (ex_next (new ex_genesis) ex_votes1).2);
    [apply ex_active_ok|vm_compute; reflexivity].
Defined.

Lemma leak_and_recovery_witness : leaked_of (ex_next ex_stalled ex_votes6).1 2 = 1.
Proof.
  refine (proj2 (proj2 (proj2 (leak_and_recovery (G := mainnet) ex_stalled ex_votes6
    (ex_next ex_stalled ex_votes6).1 (ex_next ex_stalled ex_votes6).2 (mkValidator 2 10)
    ex_active_ok _ _ _))) _ _ _ _); [done|vm_compute; reflexivity|set_solver| |done..].
  intros (d & (Hin & _) & _). simpl in Hin. set_solver.
Defined.

End Finality.
