(* ===== verification/Sample.v ===== *)
(** * Stake-weighted sortition

    Models [crates/bloch-pos-committee/src/sample.rs] and the two wrappers of
    [lib.rs].  SHAKE256 is the parameter [Xof]: the stream of [u128] blocks read
    from the output.  The rejection loop re-reads the stream until a block is
    below a limit; it is modelled with [fuel] reads per loop, and [None] stands
    for a run that does not return (fuel exhausted) or panics (an index out of
    range).  Nothing is assumed of the stream: the theorems say that a draw
    fails to return only where [fuel] blocks in a row are in the upper half of their
    range ([dry_run]; every limit the code computes is at least [2^127]), and that a
    result does not change with more fuel.  [XofLive], the absence of such runs, is assumed
    only by further results that are built on a draw that returned.

    [sort_unstable_by_key] leaves the order of equal keys open; the theorems that
    fix the result assume distinct indices. *)

From S2P Require Import Prelude Bytes Params Types.
Local Open Scope Z_scope.

Module Sample.
Import Bytes Params Types.

Inductive Role := SlotSubcommittee | EpochCommittee.

Definition ROLE_SLOT : Z := 1.
Definition ROLE_EPOCH : Z := 2.

Definition tag (r : Role) : Z :=
  match r with SlotSubcommittee => ROLE_SLOT | EpochCommittee => ROLE_EPOCH end.

(** What the draw absorbs into the XOF. *)
Definition sortition_input (beacon_mix : hash) (index : Z) (role_tag : Z) : list Z :=
  DS_SORTITION ++ hash_bytes beacon_mix ++ le_bytes 8 index ++ [role_tag].

(** Running totals of the stakes, starting from [acc]. *)
Fixpoint cumulate (acc : Z) (l : list Validator) : list Z :=
  match l with
  | [] => []
  | v :: l => acc + effective_stake v :: cumulate (acc + effective_stake v) l
  end.

(** [slice::partition_point] on a slice whose prefix satisfies the test. *)
Fixpoint partition_point (p : Z → bool) (l : list Z) : nat :=
  match l with
  | [] => O
  | c :: l => if p c then S (partition_point p l) else O
  end.

(** The last multiple of [bound] that the draws are compared to. *)
Definition rejection_limit (bound : Z) : Z := u128_MAX / bound * bound.

Section xof.
Context `{Xof} (fuel : nat).

(** [loop { xof.read(&mut buf); if v < limit { break v } }]: the value and the
    next read position. *)
Fixpoint read_below (n : nat) (input : list Z) (limit : Z) (pos : nat) : option (Z * nat) :=
  match n with
  | O => None
  | S n =>
      let v := shake256_u128 input pos in
      if v <? limit then Some (v, S pos) else read_below n input limit (S pos)
  end.

(** [while chosen.len() < k && draws < MAX_DRAWS_PER_SLOT], [draws] left. *)
Fixpoint draw_loop (draws : nat) (input : list Z) (eligible : list Validator)
    (cumulative : list Z) (total limit : Z) (k : nat)
    (chosen : list Z) (taken : list bool) (pos : nat) : option (list Z * list bool) :=
  match draws with
  | O => Some (chosen, taken)
  | S draws =>
      if (length chosen <? k)%nat then
        '(v, pos) ← read_below fuel input limit pos;
        let r := v mod total in
        let p := partition_point (λ c, c <=? r) cumulative in
        t ← taken !! p;
        if t : bool then
          draw_loop draws input eligible cumulative total limit k chosen taken pos
        else
          e ← eligible !! p;
          draw_loop draws input eligible cumulative total limit k
            (chosen ++ [index e]) (<[p := true]> taken) pos
      else Some (chosen, taken)
  end.

(** The deterministic fill when the draws ran out. *)
Fixpoint fill (k : nat) (chosen : list Z) (eligible : list Validator) (taken : list bool)
    : list Z :=
  match eligible, taken with
  | v :: eligible, t :: taken =>
      if (length chosen =? k)%nat then chosen
      else if t : bool then fill k chosen eligible taken
      else fill k (chosen ++ [index v]) eligible taken
  | _, _ => chosen
  end.

Definition eligible_set (validators : list Validator) : list Validator :=
  dedup_by index (sort_by index (filter (λ v, 0 < effective_stake v) validators)).

Definition sample (beacon_mix : hash) (idx : Z) (role : Role)
    (validators : list Validator) (k : nat) : option (list Z) :=
  let eligible := eligible_set validators in
  if bool_decide (eligible = []) || (k =? 0)%nat then Some []
  else if (length eligible <=? k)%nat then Some (sort (index <$> eligible))
  else
    let cumulative := cumulate 0 eligible in
    let total := total_stake eligible in
    let limit := rejection_limit total in
    let input := sortition_input beacon_mix idx (tag role) in
    '(chosen, taken) ←
      draw_loop (Z.to_nat MAX_DRAWS_PER_SLOT) input eligible cumulative total limit k
        [] (replicate (length eligible) false) 0;
    Some (sort (if (length chosen <? k)%nat then fill k chosen eligible taken else chosen)).

Definition is_selected (beacon_mix : hash) (idx : Z) (role : Role)
    (validators : list Validator) (k : nat) (validator : Z) : option bool :=
  (λ out, binary_search out validator) <$> sample beacon_mix idx role validators k.

(** ** [lib.rs] *)

Definition SLOT_SUBCOMMITTEE_SIZE : nat := 8.
Definition COMMITTEE_SIZE : nat := 128.

Definition slot_subcommittee (beacon_mix : hash) (slot : Z) (validators : list Validator) :=
  sample beacon_mix slot SlotSubcommittee validators SLOT_SUBCOMMITTEE_SIZE.

Definition epoch_committee (beacon_mix : hash) (ep : Z) (validators : list Validator) :=
  sample beacon_mix ep EpochCommittee validators COMMITTEE_SIZE.

(** [fuel] blocks in a row in the upper half of the range. *)
Definition dry_run (input : list Z) (pos : nat) : Prop :=
  ∀ i, (i < fuel)%nat → 2 ^ 127 ≤ shake256_u128 input (pos + i).

(** The stream never runs dry. *)
Class XofLive := xof_live :
  ∀ input pos, ∃ i, (i < fuel)%nat ∧ shake256_u128 input (pos + i) < 2 ^ 127.

End xof.
Global Arguments XofLive {_} fuel.

(** ** The draw *)

Lemma rejection_limit_ge bound : 0 < bound ≤ 2 ^ 126 → 2 ^ 127 ≤ rejection_limit bound.
Proof.
  intros. unfold rejection_limit. change u128_MAX with (2 * 2 ^ 127 - 1).
  assert (2 ^ 126 = 85070591730234615865843651857942052864) by reflexivity.
  assert (2 ^ 127 = 170141183460469231731687303715884105728) by reflexivity.
  pose proof (Z.div_mod (2 * 2 ^ 127 - 1) bound).
  pose proof (Z.mod_pos_bound (2 * 2 ^ 127 - 1) bound). lia.
Qed.

(** The limit is a multiple of the bound: every residue is drawn equally often. *)
Lemma rejection_limit_mod bound : 0 < bound → rejection_limit bound mod bound = 0.
Proof. intros. unfold rejection_limit. apply Z.mod_mul. lia. Qed.

Lemma total_stake_cons v l : total_stake (v :: l) = effective_stake v + total_stake l.
Proof. done. Qed.

Lemma length_cumulate acc l : length (cumulate acc l) = length l.
Proof. revert acc. induction l; intros; simpl; auto. Qed.

(** A draw [r] picks the entry whose stake interval contains it. *)
Lemma partition_point_interval acc l r :
  acc ≤ r < acc + total_stake l →
  let p := partition_point (λ c, c <=? r) (cumulate acc l) in
  ∃ e, l !! p = Some e ∧
    acc + total_stake (take p l) ≤ r < acc + total_stake (take p l) + effective_stake e.
Proof.
  revert acc. induction l as [|v l IH]; intros acc Hr; simpl.
  { unfold total_stake in Hr. simpl in Hr. lia. }
  rewrite total_stake_cons in Hr.
  destruct (Z.leb_spec (acc + effective_stake v) r) as [Hle|Hlt].
  - destruct (IH (acc + effective_stake v)) as (e & He & Hb); [lia|].
    exists e. split; [done|]. simpl. rewrite total_stake_cons. lia.
  - exists v. split; [done|]. unfold total_stake. simpl. lia.
Qed.

(** ** The chosen set *)

(** The indices of the entries marked [b] in [taken]. *)
Fixpoint marked (b : bool) (eligible : list Validator) (taken : list bool) : list Z :=
  match eligible, taken with
  | v :: eligible, t :: taken =>
      if bool_decide (t = b) then index v :: marked b eligible taken
      else marked b eligible taken
  | _, _ => []
  end.

Lemma marked_split eligible taken :
  length taken = length eligible →
  marked true eligible taken ++ marked false eligible taken ≡ₚ index <$> eligible.
Proof.
  revert taken. induction eligible as [|v l IH]; intros [|t taken] Hl; csimpl in *; try done.
  specialize (IH taken ltac:(lia)). destruct t; simpl; [by rewrite IH|].
  by rewrite <-Permutation_middle, IH.
Qed.

Lemma marked_none l : marked true l (replicate (length l) false) = [].
Proof. induction l; simpl; auto. Qed.

Lemma marked_insert l taken p e :
  l !! p = Some e → taken !! p = Some false →
  marked true l (<[p := true]> taken) ≡ₚ index e :: marked true l taken.
Proof.
  revert taken p. induction l as [|v l IH]; intros [|t taken] [|p] Hl Ht;
    simplify_eq/=; [done|].
  case_bool_decide; rewrite (IH taken p Hl Ht); [apply perm_swap|done].
Qed.

Lemma fill_spec k chosen l taken :
  length taken = length l → (length chosen ≤ k)%nat →
  fill k chosen l taken = chosen ++ take (k - length chosen) (marked false l taken).
Proof.
  revert chosen taken. induction l as [|v l IH]; intros chosen [|t taken] Hl Hk; simpl in *;
    try done; [by rewrite take_nil, app_nil_r|].
  destruct (Nat.eqb_spec (length chosen) k) as [->|Hne].
  - by rewrite Nat.sub_diag, app_nil_r.
  - destruct t; simpl; [apply IH; lia|].
    rewrite IH by (rewrite ?length_app; simpl; lia). rewrite length_app. simpl.
    replace (k - length chosen)%nat with (S (k - (length chosen + 1))) by lia.
    simpl. by rewrite <-app_assoc.
Qed.

Section outcome.
Context `{Xof} (fuel : nat).

(** A rejection loop finds a block, or [fuel] blocks in a row are too large. *)
Lemma read_below_outcome input limit pos :
  2 ^ 127 ≤ limit →
  (∃ v pos', read_below fuel input limit pos = Some (v, pos') ∧ (pos' ≤ pos + fuel)%nat) ∨
  (read_below fuel input limit pos = None ∧ dry_run fuel input pos).
Proof.
  intros Hlim. revert pos. unfold dry_run.
  induction fuel as [|n IH]; intros pos; [right; split; [done|lia]|]. simpl.
  destruct (Z.ltb_spec (shake256_u128 input pos) limit) as [|Hge]; [left; do 2 eexists; split; [done|lia]|].
  destruct (IH (S pos)) as [(v & pos' & -> & Hpos)|[-> Hdry]]; [left; do 2 eexists; split; [done|lia]|].
  right. split; [done|]. intros [|i] Hi; [rewrite Nat.add_0_r; lia|].
  replace (pos + S i)%nat with (S pos + i)%nat by lia. apply Hdry. lia.
Qed.

Lemma dry_run_live `{!XofLive fuel} input pos : ¬ dry_run fuel input pos.
Proof. intros Hd. destruct (xof_live fuel input pos) as (i & Hi & Hv). specialize (Hd i Hi). lia. Qed.

(** More reads do not change what a loop that ended gives. *)
Lemma read_below_more n n' input limit pos r :
  (n ≤ n')%nat → read_below n input limit pos = Some r → read_below n' input limit pos = Some r.
Proof.
  revert n' pos. induction n as [|n IH]; intros n' pos Hn; [done|]. destruct n' as [|n']; [lia|]. simpl.
  case_match; [done|]. apply IH. lia.
Qed.

Lemma draw_loop_more fuel' draws input l cumulative total limit k chosen taken pos r :
  (fuel ≤ fuel')%nat →
  draw_loop fuel draws input l cumulative total limit k chosen taken pos = Some r →
  draw_loop fuel' draws input l cumulative total limit k chosen taken pos = Some r.
Proof.
  intros Hf. revert chosen taken pos. induction draws as [|draws IH]; intros chosen taken pos; [done|]. simpl.
  case_match; [|done]. intros ([v pos'] & Hr & E)%bind_Some. rewrite (read_below_more _ _ _ _ _ _ Hf Hr). simpl.
  apply bind_Some in E as ([] & -> & E); simpl; [by apply IH|]. apply bind_Some in E as (e & -> & E). by apply IH.
Qed.

(** What the draw keeps true of [chosen] and [taken]. *)
Definition draw_inv (l : list Validator) (k : nat) (chosen : list Z) (taken : list bool) :=
  length taken = length l ∧ (length chosen ≤ k)%nat ∧ chosen ≡ₚ marked true l taken.

(** The draws end, or the stream runs dry within the blocks they may read. *)
Lemma draw_loop_outcome draws input l k chosen taken pos :
  0 < total_stake l ≤ 2 ^ 126 → draw_inv l k chosen taken →
  match draw_loop fuel draws input l (cumulate 0 l) (total_stake l)
          (rejection_limit (total_stake l)) k chosen taken pos with
  | Some (chosen', taken') => draw_inv l k chosen' taken'
  | None => ∃ pos', (pos' ≤ pos + draws * fuel)%nat ∧ dry_run fuel input pos'
  end.
Proof.
  intros Ht. revert chosen taken pos.
  induction draws as [|draws IH]; intros chosen taken pos Hinv; simpl; [done|].
  destruct (Nat.ltb_spec (length chosen) k) as [Hk|]; [|done].
  destruct (read_below_outcome input (rejection_limit (total_stake l)) pos)
    as [(v & pos' & -> & Hpos)|[-> Hdry]]; [by apply rejection_limit_ge| |exists pos; split; [lia|done]]. simpl.
  assert (∀ chosen taken, draw_inv l k chosen taken →
    match draw_loop fuel draws input l (cumulate 0 l) (total_stake l)
            (rejection_limit (total_stake l)) k chosen taken pos' with
    | Some (chosen', taken') => draw_inv l k chosen' taken'
    | None => ∃ pos'', (pos'' ≤ pos + (fuel + draws * fuel))%nat ∧ dry_run fuel input pos''
    end) as IH'.
  { intros c t Hi. specialize (IH c t pos' Hi). destruct (draw_loop _ _ _ _ _ _ _ _ _ _ _) as [[]|]; [done|].
    destruct IH as (q & ? & ?). exists q. split; [lia|done]. }
  destruct (partition_point_interval 0 l (v mod total_stake l)) as (e & He & _);
    [pose proof (Z.mod_pos_bound v (total_stake l)); lia|].
  set (p := partition_point _ _) in *. destruct Hinv as (Hl & Hc & Hp).
  destruct (lookup_lt_is_Some_2 taken p) as [t Htk];
    [rewrite Hl; by eapply lookup_lt_Some|].
  rewrite Htk, He. simpl. destruct t; [by apply IH'|]. apply IH'. split_and!.
  - by rewrite length_insert.
  - rewrite length_app. simpl. lia.
  - rewrite (marked_insert l taken p e) by done. rewrite Hp. by rewrite Permutation_app_comm.
Qed.
End outcome.

(** ** The eligible validators *)

Lemma eligible_sorted validators : StronglySorted Z.lt (index <$> eligible_set validators).
Proof. apply dedup_by_sorted. Qed.

Lemma elem_of_eligible validators v :
  v ∈ eligible_set validators → v ∈ validators ∧ 0 < effective_stake v.
Proof. intros Hv%elem_of_dedup_by. apply list_elem_of_filter in Hv. tauto. Qed.

Lemma eligible_total validators :
  (∀ v, v ∈ validators → 0 ≤ effective_stake v) →
  total_stake (eligible_set validators) ≤ total_stake validators.
Proof.
  intros Hnn.
  assert (∀ l k : list Validator, l `sublist_of` k → (∀ v, v ∈ k → 0 ≤ effective_stake v) →
    total_stake l ≤ total_stake k) as Hsub.
  { induction 1 as [|v l k _ IH|v l k _ IH]; intros Hk; [done|..]; rewrite !total_stake_cons.
    - specialize (IH ltac:(set_solver)). lia.
    - specialize (IH ltac:(set_solver)). specialize (Hk v ltac:(set_solver)). lia. }
  unfold eligible_set. etrans; [apply Hsub; [apply dedup_by_sublist|]|].
  - intros v Hv. rewrite sort_by_perm in Hv. apply list_elem_of_filter in Hv as [? Hv]. lia.
  - unfold total_stake. rewrite sort_by_perm. apply Hsub; [apply sublist_filter|done].
Qed.

Lemma eligible_positive validators :
  eligible_set validators ≠ [] → 0 < total_stake (eligible_set validators).
Proof.
  destruct (eligible_set validators) as [|v l] eqn:E; [done|]. intros _.
  rewrite total_stake_cons. assert (0 < effective_stake v)
    by (apply (elem_of_eligible validators); rewrite E; set_solver).
  assert (0 ≤ total_stake l); [|lia]. apply sumZ_fmap_nonneg. intros w Hw.
  assert (0 < effective_stake w); [|lia].
  apply (elem_of_eligible validators). rewrite E. set_solver.
Qed.

(** ** Theorems *)

Section theorems.
Context `{Xof} (fuel : nat).
#[local] Arguments draw_loop : simpl never.
#[local] Arguments Z.to_nat : simpl never.

Lemma finish_spec l k chosen taken :
  (k < length l)%nat → draw_inv l k chosen taken →
  let out := if (length chosen <? k)%nat then fill k chosen l taken else chosen in
  out ⊆+ index <$> l ∧ length out = k.
Proof.
  intros Hk (Hl & Hc & Hp). pose proof (marked_split l taken Hl) as Hs.
  pose proof (Permutation_length Hs) as Hlen.
  rewrite length_app, length_fmap, <-Hp in Hlen.
  destruct (Nat.ltb_spec (length chosen) k) as [Hlt|Hge]; simpl.
  - rewrite fill_spec by done. split.
    + rewrite <-Hs, <-Hp. apply submseteq_skips_l, sublist_submseteq, sublist_take.
    + rewrite length_app, length_take. lia.
  - split; [|lia]. rewrite <-Hs, <-Hp. apply submseteq_inserts_r. done.
Qed.

(** The members before they are sorted, or the place where the stream runs dry. *)
Lemma sample_outcome mix idx role validators k :
  (∀ v, v ∈ validators → 0 ≤ effective_stake v) → total_stake validators ≤ 2 ^ 126 →
  (∃ out, sample fuel mix idx role validators k = Some (sort out) ∧
     out ⊆+ index <$> eligible_set validators ∧
     length out = Nat.min k (length (eligible_set validators))) ∨
  (sample fuel mix idx role validators k = None ∧ (0 < k < length (eligible_set validators))%nat ∧
   ∃ pos, (pos ≤ Z.to_nat MAX_DRAWS_PER_SLOT * fuel)%nat ∧ dry_run fuel (sortition_input mix idx (tag role)) pos).
Proof.
  intros Hnn Htot. unfold sample. set (l := eligible_set validators) in *.
  case_bool_decide as Hl; cbn [orb].
  { left. exists []. rewrite Hl. split_and!; [done|apply submseteq_nil_l|simpl; lia]. }
  destruct (Nat.eqb_spec k 0) as [->|Hk].
  { left. exists []. split_and!; [done|apply submseteq_nil_l|done]. }
  destruct (Nat.leb_spec (length l) k) as [Hle|Hlt].
  { left. exists (index <$> l). split_and!; [done..|]. rewrite length_fmap. lia. }
  pose proof (draw_loop_outcome fuel (Z.to_nat MAX_DRAWS_PER_SLOT)
    (sortition_input mix idx (tag role)) l k [] (replicate (length l) false) 0) as Hd.
  destruct (draw_loop _ _ _ _ _ _ _ _ _ _ _) as [[chosen taken]|]; [left|right].
  - destruct (finish_spec l k chosen taken Hlt) as [Hsub Hlen]; [apply Hd|eexists; split_and!; [done|exact Hsub|lia]].
    + pose proof (eligible_positive validators Hl). pose proof (eligible_total validators Hnn). subst l. lia.
    + split_and!; [by rewrite length_replicate|simpl; lia|by rewrite marked_none].
  - split_and!; [done|lia|done|]. apply Hd.
    + pose proof (eligible_positive validators Hl). pose proof (eligible_total validators Hnn). subst l. lia.
    + split_and!; [by rewrite length_replicate|simpl; lia|by rewrite marked_none].
Qed.

Lemma sample_more fuel' mix idx role validators k out :
  (fuel ≤ fuel')%nat → sample fuel mix idx role validators k = Some out →
  sample fuel' mix idx role validators k = Some out.
Proof.
  intros Hf. unfold sample. do 2 (case_match; [done|]). intros ([chosen taken] & Hd & E)%bind_Some.
  by rewrite (draw_loop_more _ _ _ _ _ _ _ _ _ _ _ _ _ Hf Hd).
Qed.

Lemma sample_live `{!XofLive fuel} mix idx role validators k :
  (∀ v, v ∈ validators → 0 ≤ effective_stake v) → total_stake validators ≤ 2 ^ 126 →
  is_Some (sample fuel mix idx role validators k).
Proof.
  intros Hnn Ht. destruct (sample_outcome mix idx role validators k Hnn Ht)
    as [(out & -> & _)|(_ & _ & pos & _ & Hd)]; [done|by apply dry_run_live in Hd].
Qed.

(** C18: what sortition gives, for every roster of non-negative stakes whose total is at
    most 2^126 (the source's are 64-bit stakes of 32-bit indices) and every stream.  A
    committee it returns is strictly increasing (so [is_selected]'s
    binary search decides membership), holds only validators of the roster with positive
    stake, has [k] members, or all eligible ones when there are fewer, and stays the same
    when the rejection loops may read more blocks.  It fails to return only where it has
    to draw (more eligible validators than seats), and only if the
    first [MAX_DRAWS_PER_SLOT * fuel] blocks of this seed's stream lead into [fuel] blocks
    in a row in the upper half of their range. *)
Theorem sample_committee mix idx role validators k :
  (∀ v, v ∈ validators → 0 ≤ effective_stake v) → total_stake validators ≤ 2 ^ 126 →
  match sample fuel mix idx role validators k with
  | Some out =>
      StronglySorted Z.lt out ∧
      length out = Nat.min k (length (eligible_set validators)) ∧
      (∀ i, i ∈ out → ∃ v, v ∈ validators ∧ index v = i ∧ 0 < effective_stake v) ∧
      (∀ i, is_selected fuel mix idx role validators k i = Some (bool_decide (i ∈ out))) ∧
      (∀ fuel', (fuel ≤ fuel')%nat → sample fuel' mix idx role validators k = Some out)
  | None =>
      (0 < k < length (eligible_set validators))%nat ∧
      ∃ pos, (pos ≤ Z.to_nat MAX_DRAWS_PER_SLOT * fuel)%nat ∧
        ∀ i, (i < fuel)%nat → 2 ^ 127 ≤ shake256_u128 (sortition_input mix idx (tag role)) (pos + i)
  end.
Proof.
  intros Hnn Htot. destruct (sample_outcome mix idx role validators k Hnn Htot)
    as [(out & Hout & Hsub & Hlen)|(-> & Hk & Hdry)]; [|done].
  assert (NoDup out) as Hnd.
  { eapply NoDup_sub; [exact Hsub|]. apply lt_sorted_NoDup, eligible_sorted. }
  rewrite Hout. split_and!; [by apply sort_lt|by rewrite sort_perm| | |].
  - intros i Hi. rewrite sort_perm in Hi.
    eapply elem_of_submseteq in Hi; [|exact Hsub].
    apply list_elem_of_fmap in Hi as (v & -> & [? ?]%elem_of_eligible). eauto.
  - intros i. unfold is_selected. rewrite Hout. simpl. f_equal.
    apply binary_search_sorted, sort_lt, Hnd.
  - intros fuel' Hf. by apply sample_more.
Qed.

Lemma sort_by_perm_eq (l k : list Validator) :
  NoDup (index <$> l) → l ≡ₚ k → sort_by index l = sort_by index k.
Proof.
  intros Hnd Hp. assert (sort_by index l ≡ₚ sort_by index k) as Hs by (by rewrite !sort_by_perm).
  assert (NoDup (index <$> sort_by index l)) as Hndl by (by rewrite sort_by_perm).
  assert (NoDup (index <$> sort_by index k)) as Hndk by (by rewrite <-Hs).
  assert (index <$> sort_by index l = index <$> sort_by index k) as Hkey.
  { apply lt_sorted_ext; [apply le_sorted_lt; [apply sort_by_sorted|done]..|].
    intros x. by rewrite Hs. }
  revert Hs Hndl Hkey. generalize (sort_by index l), (sort_by index k). clear.
  induction l as [|x l IH]; intros [|y k] Hp Hnd Hkey; simplify_eq/=; [done|].
  apply NoDup_cons in Hnd as [Hx Hnd].
  assert (x = y) as ->.
  { assert (y ∈ x :: l) as Hy by (rewrite Hp; set_solver).
    apply elem_of_cons in Hy as [->|Hy]; [done|]. destruct Hx.
    apply list_elem_of_fmap. exists y. split; [congruence|done]. }
  f_equal. apply IH; [|done..]. by eapply Permutation_cons_inv.
Qed.

(** The order in which a node holds the validator registry does not reach the
    committee: rosters that are permutations of each other, with distinct
    indices, give the same draw. *)
Theorem sample_order_independent mix idx role validators1 validators2 k :
  NoDup (index <$> validators1) → validators1 ≡ₚ validators2 →
  sample fuel mix idx role validators1 k = sample fuel mix idx role validators2 k.
Proof.
  intros Hnd Hp. assert (eligible_set validators1 = eligible_set validators2) as E.
  { unfold eligible_set. f_equal. apply sort_by_perm_eq; [|by rewrite Hp].
    eapply NoDup_sub; [|exact Hnd].
    apply sublist_submseteq, fmap_sublist, sublist_filter. }
  unfold sample. by rewrite E.
Qed.

End theorems.

Lemma total_take_lt l p q e :
  (∀ v, v ∈ l → 0 < effective_stake v) → (p < q)%nat → l !! p = Some e →
  total_stake (take p l) + effective_stake e ≤ total_stake (take q l).
Proof.
  intros Hpos Hpq He. replace (total_stake (take p l) + effective_stake e)
    with (total_stake (take (S p) l)).
  - unfold total_stake. rewrite <-(take_drop (S p) (take q l)), take_take.
    replace (S p `min` q)%nat with (S p) by lia. rewrite fmap_app, sumZ_app.
    assert (0 ≤ sumZ (effective_stake <$> drop (S p) (take q l))); [|lia].
    apply sumZ_fmap_nonneg. intros v Hv.
    eapply elem_of_submseteq in Hv; [|apply sublist_submseteq; etrans;
      [apply sublist_drop|apply sublist_take]]. apply Hpos in Hv. lia.
  - rewrite (take_S_r _ _ _ He). unfold total_stake. rewrite fmap_app, sumZ_app. simpl. lia.
Qed.

(** A draw is proportional to stake.  The draws [r] below the total are cut
    into consecutive intervals, and an eligible validator is picked by exactly
    the [effective_stake] draws of its own interval; the rejection limit is a
    multiple of the total, so reducing the accepted blocks modulo the total
    favours no residue. *)
Theorem draw_proportional validators r p e :
  let l := eligible_set validators in
  0 ≤ r < total_stake l → l !! p = Some e →
  (partition_point (λ c, c <=? r) (cumulate 0 l) = p ↔
     total_stake (take p l) ≤ r < total_stake (take p l) + effective_stake e) ∧
  rejection_limit (total_stake l) mod total_stake l = 0.
Proof.
  intros l Hr He. split; [|apply rejection_limit_mod; lia].
  assert (∀ v, v ∈ l → 0 < effective_stake v) as Hpos 
    by (intros v Hv; exact (proj2 (elem_of_eligible _ _ Hv))).
  destruct (partition_point_interval 0 l r Hr) as (e' & He' & Hb).
  set (q := partition_point _ _) in *. split.
  - intros <-. rewrite He in He'. injection He' as <-. lia.
  - intros Hi. destruct (Nat.lt_trichotomy q p) as [Hlt|[?|Hlt]]; [|done|].
    + pose proof (total_take_lt l q p e' Hpos Hlt He'). lia.
    + pose proof (total_take_lt l p q e Hpos Hlt He). lia.
Qed.

(** ** Concrete draws *)

Definition ex_xof : Xof := λ _ n, Z.of_nat n mod 1000.
Definition ex_roster : list Validator :=
  [mkValidator 4 10; mkValidator 1 0; mkValidator 2 5; mkValidator 3 7].

Lemma ex_xof_live : XofLive (H := ex_xof) 1.
Proof.
  intros input pos. exists 0%nat. split; [lia|]. unfold shake256_u128, ex_xof.
  pose proof (Z.mod_pos_bound (Z.of_nat (pos + 0)) 1000). lia.
Qed.

Lemma ex_roster_stakes v : v ∈ ex_roster → 0 ≤ effective_stake v.
Proof. unfold ex_roster. set_unfold. naive_solver lia. Qed.

Lemma sample_committee_witness :
  sample (H := ex_xof) 1 0 5 SlotSubcommittee ex_roster 2 = Some [2; 3] ∧
  ∀ fuel, (1 ≤ fuel)%nat → sample (H := ex_xof) fuel 0 5 SlotSubcommittee ex_roster 2 = Some [2; 3].
Proof.
  assert (sample (H := ex_xof) 1 0 5 SlotSubcommittee ex_roster 2 = Some [2; 3]) as E by (vm_compute; reflexivity).
  pose proof (sample_committee (H := ex_xof) 1 0 5 SlotSubcommittee ex_roster 2) as Hs.
  specialize (Hs ex_roster_stakes ltac:(vm_compute; congruence)). rewrite E in Hs. destruct Hs as (_ & _ & _ & _ & Hmore).
  split; [exact E|exact Hmore].
Defined.

Lemma sample_order_independent_witness :
  sample (H := ex_xof) 1 0 5 SlotSubcommittee ex_roster 2 =
  sample (H := ex_xof) 1 0 5 SlotSubcommittee (reverse ex_roster) 2.
Proof.
  apply (sample_order_independent (H := ex_xof) 1).
  - apply (bool_decide_unpack _). vm_compute. exact I.
  - symmetry. apply reverse_Permutation.
Defined.

Lemma draw_proportional_witness :
  partition_point (λ c, c <=? 6) (cumulate 0 (eligible_set ex_roster)) = 1%nat.
Proof.
  apply (draw_proportional ex_roster 6 1 (mkValidator 3 7)); [|reflexivity|]; vm_compute;
    split; congruence.
Defined.

End Sample.
