(* ===== verification/Schedule.v ===== *)
(** * Slots, epochs and the proposer schedule

    Models [crates/bloch-pos-committee/src/schedule.rs].  Rust's [Option] is
    [option]; an outer [option] (as in [Sample]) is [None] for a run that does
    not return or panics. *)

From S2P Require Import Prelude Bytes Params Types Sample.
Local Open Scope Z_scope.

Module Schedule.
Import Bytes Params Types Sample.

(** ** The clock *)

Definition slot_at (genesis_time timestamp : Z) : option Z :=
  (λ elapsed, elapsed / SLOT_DURATION_SECS) <$> checked_sub timestamp genesis_time.

Definition slot_start (genesis_time slot : Z) : option Z :=
  offset ← checked_mul u64_MAX slot SLOT_DURATION_SECS;
  checked_add u64_MAX genesis_time offset.

Definition first_slot_of_epoch (ep : Z) : option Z := checked_mul u64_MAX ep SLOTS_PER_EPOCH.

Definition last_slot_of_epoch (ep : Z) : option Z :=
  first ← first_slot_of_epoch ep; checked_add u64_MAX first (SLOTS_PER_EPOCH - 1).

Definition epoch_at (genesis_time timestamp : Z) : option Z :=
  epoch_of <$> slot_at genesis_time timestamp.

Definition epoch_start (genesis_time ep : Z) : option Z :=
  first ← first_slot_of_epoch ep; slot_start genesis_time first.

(** [is_epoch_boundary] of [lib.rs]; [None] where [slot + 1] overflows. *)
Definition is_epoch_boundary (slot : Z) : option bool :=
  (λ s, s mod SLOTS_PER_EPOCH =? 0) <$> add_w u64_MAX slot 1.

(** ** Proposers *)

Record EpochSchedule := mkEpochSchedule {
  sched_epoch : Z;
  proposers : list (option Z);
}.

Definition proposer_at (self : EpochSchedule) (slot : Z) : option (option Z) :=
  if negb (epoch_of slot =? sched_epoch self) then Some None
  else
    match first_slot_of_epoch (sched_epoch self) with
    | None => Some None
    | Some first =>
        match checked_sub slot first with
        | None => Some None
        | Some offset => proposers self !! Z.to_nat offset
        end
    end.

Section xof.
Context `{Xof} (fuel : nat).

Definition proposer (beacon_mix : hash) (slot : Z) (validators : list Validator)
    : option (option Z) :=
  (λ out, out !! 0%nat) <$> sample fuel beacon_mix slot SlotSubcommittee validators 1.

(** The loop over the slots of the epoch, with its early return. *)
Fixpoint fill_proposers (beacon_mix : hash) (first : Z) (validators : list Validator)
    (offs : list Z) : option (option (list (option Z))) :=
  match offs with
  | [] => Some (Some [])
  | i :: offs =>
      match checked_add u64_MAX first i with
      | None => Some None
      | Some slot =>
          p ← proposer beacon_mix slot validators;
          rest ← fill_proposers beacon_mix first validators offs;
          Some (option_map (cons p) rest)
      end
  end.

Definition epoch_schedule (beacon_mix : hash) (ep : Z) (validators : list Validator)
    : option (option EpochSchedule) :=
  match first_slot_of_epoch ep, last_slot_of_epoch ep with
  | Some first, Some _ =>
      ps ← fill_proposers beacon_mix first validators (seqZ 0 SLOTS_PER_EPOCH);
      Some (option_map (mkEpochSchedule ep) ps)
  | _, _ => Some None
  end.

(** ** Lemmas *)

Lemma fill_proposers_lookup mix first validators offs ps n i :
  fill_proposers mix first validators offs = Some (Some ps) → offs !! n = Some i →
  ∃ p, ps !! n = Some p ∧ proposer mix (first + i) validators = Some p.
Proof.
  revert ps n. induction offs as [|i' offs IH]; intros ps n Hf Hn; simpl in *; [done|].
  destruct (checked_add u64_MAX first i') as [s|] eqn:Hs; [|done].
  apply checked_add_Some in Hs as [_ ->].
  destruct (proposer mix (first + i') validators) as [p|] eqn:Hp; simpl in Hf; [|done].
  destruct (fill_proposers mix first validators offs) as [[ps'|]|]; simplify_eq/=.
  destruct n as [|n]; simplify_eq/=; [eauto|]. by apply IH.
Qed.

Lemma fill_proposers_live `{!XofLive fuel} mix first validators offs :
  (∀ v, v ∈ validators → 0 ≤ effective_stake v) → total_stake validators ≤ 2 ^ 126 →
  Forall (λ i, first + i ≤ u64_MAX) offs →
  ∃ ps, fill_proposers mix first validators offs = Some (Some ps).
Proof.
  intros Hnn Ht. induction 1 as [|i offs Hi _ IH]; simpl; [eauto|].
  rewrite (proj2 (checked_add_Some _ _ _ _)) by done.
  unfold proposer at 1. destruct (sample_live fuel mix (first + i) SlotSubcommittee
    validators 1 Hnn Ht) as [out ->]. simpl.
  destruct IH as [ps ->]. simpl. eauto.
Qed.

(** ** Theorems *)

(** The cached schedule and the direct draw agree.  For an epoch whose slots
    fit [u64] the schedule is built, and [proposer_at] returns, for every slot of
    the epoch, exactly what [proposer] draws for it, and nothing for any other
    slot; the array is never indexed out of range. *)
Theorem schedule_matches_proposer `{!XofLive fuel} mix ep validators :
  (∀ v, v ∈ validators → 0 ≤ effective_stake v) → total_stake validators ≤ 2 ^ 126 →
  0 ≤ ep → ep * SLOTS_PER_EPOCH + (SLOTS_PER_EPOCH - 1) ≤ u64_MAX →
  ∃ sch, epoch_schedule mix ep validators = Some (Some sch) ∧
    ∀ slot, 0 ≤ slot →
      if epoch_of slot =? ep
      then ∃ p, proposer mix slot validators = Some p ∧ proposer_at sch slot = Some p
      else proposer_at sch slot = Some None.
Proof.
  intros Hnn Ht Hep Hmax. unfold SLOTS_PER_EPOCH in *.
  assert (first_slot_of_epoch ep = Some (ep * 32)) as Hfirst
    by (apply checked_mul_Some; unfold SLOTS_PER_EPOCH; lia).
  destruct (fill_proposers_live mix (ep * 32) validators (seqZ 0 32) Hnn Ht) as [ps Hps].
  { apply Forall_forall. intros i Hi%elem_of_seqZ. lia. }
  exists (mkEpochSchedule ep ps). split.
  - unfold epoch_schedule, last_slot_of_epoch. rewrite Hfirst. cbn [mbind option_bind].
    rewrite (proj2 (checked_add_Some _ _ _ _)) by (unfold SLOTS_PER_EPOCH; done).
    change SLOTS_PER_EPOCH with 32. by rewrite Hps.
  - intros slot Hslot. unfold proposer_at. simpl.
    destruct (Z.eqb_spec (epoch_of slot) ep) as [He|He]; simpl; [|done].
    unfold epoch_of, SLOTS_PER_EPOCH in He.
    rewrite Hfirst, (proj2 (checked_sub_Some slot (ep * 32) (slot - ep * 32)))
      by (split; [zlia|done]).
    destruct (fill_proposers_lookup _ _ _ _ _ (Z.to_nat (slot - ep * 32)) (slot - ep * 32) Hps)
      as (p & Hp & Hpr).
    + rewrite lookup_seqZ. zlia.
    + exists p. replace (ep * 32 + (slot - ep * 32)) with slot in Hpr by lia. done.
Qed.

(** The clock conversions invert each other.  Every second of a slot's
    [SLOT_DURATION_SECS] window maps back to that slot, and every second from an
    epoch's start to its last slot's end maps back to that epoch. *)
Theorem clock_round_trip genesis_time n t dt :
  0 ≤ n → 0 ≤ dt →
  (slot_start genesis_time n = Some t → dt < SLOT_DURATION_SECS →
   slot_at genesis_time (t + dt) = Some n) ∧
  (epoch_start genesis_time n = Some t → dt < SLOTS_PER_EPOCH * SLOT_DURATION_SECS →
   epoch_at genesis_time (t + dt) = Some n).
Proof.
  intros Hn Hdt. unfold epoch_start, epoch_at, slot_at, slot_start, first_slot_of_epoch.
  unfold epoch_of, SLOTS_PER_EPOCH, SLOT_DURATION_SECS. split.
  - intros (o & [_ ->]%checked_mul_Some & [_ ->]%checked_add_Some)%bind_Some Hlt.
    rewrite (proj2 (checked_sub_Some _ _ (n * 30 + dt))) by lia. simpl. f_equal. zlia.
  - intros (f & [_ ->]%checked_mul_Some & Hs)%bind_Some Hlt.
    apply bind_Some in Hs as (o & [_ ->]%checked_mul_Some & [_ ->]%checked_add_Some).
    rewrite (proj2 (checked_sub_Some _ _ (n * 32 * 30 + dt))) by lia. simpl. f_equal. zlia.
Qed.
End xof.

(** ** Concrete schedules *)

Lemma schedule_matches_proposer_witness :
  ∃ sch, epoch_schedule (H := ex_xof) 1 0 2 ex_roster = Some (Some sch) ∧
    ∃ p, proposer (H := ex_xof) 1 0 70 ex_roster = Some p ∧ proposer_at sch 70 = Some p.
Proof.
  destruct (schedule_matches_proposer (H := ex_xof) 1 (XofLive0 := ex_xof_live) 0 2 ex_roster)
    as (sch & Hs & Hp).
  - intros v Hv. unfold ex_roster in Hv. set_unfold in Hv. naive_solver lia.
  - vm_compute. congruence.
  - lia.
  - vm_compute. congruence.
  - exists sch. split; [exact Hs|]. exact (Hp 70 ltac:(lia)).
Defined.

Lemma clock_round_trip_witness : slot_at 1000 1304 = Some 10 ∧ epoch_at 1000 2900 = Some 1.
Proof.
  split.
  - exact (proj1 (clock_round_trip 1000 10 1300 4 ltac:(lia) ltac:(lia)) eq_refl eq_refl).
  - exact (proj2 (clock_round_trip 1000 1 1960 940 ltac:(lia) ltac:(lia)) eq_refl eq_refl).
Defined.

End Schedule.
