(* ===== verification/Committees.v ===== *)
(** * The per-slot committees of an epoch

    Models [crates/bloch-pos-committee/src/committees.rs] and
    [finality::votes_from_partition]: a Fisher-Yates shuffle of the registry
    indices, driven by the XOF, cut into one chunk per slot; and the one-entry
    cache in front of it, keyed by the mix, the epoch and a fingerprint of the
    roster.  SHA3-256 and SHAKE256 are parameters (see [Bytes] and [Sample]);
    [None] is a run that does not return or panics.  The recomputation counter
    is instrumentation and is left out. *)

From S2P Require Import Prelude Bytes Params Types Sample Finality.
Local Open Scope Z_scope.

Module Committees.
Import Bytes Params Types Sample Finality.

Definition ROLE_PARTITION : Z := 3.
Definition MIN_SEED_LOOKAHEAD_EPOCHS : Z := 1.
Definition n_slots : nat := 32.

(** ** The seed *)

Definition seed_epoch (ep : Z) : option Z := checked_sub ep (MIN_SEED_LOOKAHEAD_EPOCHS + 1).

Definition seed_mix (genesis_mix : hash) (boundary_mixes : list hash) (ep : Z) : option hash :=
  match seed_epoch ep with
  | None => Some genesis_mix
  | Some e => boundary_mixes !! Z.to_nat e
  end.

(** ** The partition *)

Definition swap (l : list Z) (i j : nat) : option (list Z) :=
  x ← l !! i; y ← l !! j; Some (<[i := y]> (<[j := x]> l)).

(** The chunk of each slot; the first [extra] slots take one more. *)
Fixpoint cut_slots (n slot base extra : nat) (l : list Z) : list (list Z) :=
  match n with
  | O => []
  | S n =>
      let take_n := (base + if slot <? extra then 1 else 0)%nat in
      sort (take take_n l) :: cut_slots n (S slot) base extra (drop take_n l)
  end.

Section xof.
Context `{Xof} (fuel : nat).

(** [for i in (1..len).rev()], starting at [i]. *)
Fixpoint shuffle (i : nat) (input : list Z) (pos : nat) (l : list Z) : option (list Z) :=
  match i with
  | O => Some l
  | S i' =>
      let bound := Z.of_nat i + 1 in
      '(v, pos) ← read_below fuel input (rejection_limit bound) pos;
      l ← swap l i (Z.to_nat (v mod bound));
      shuffle i' input pos l
  end.

Definition epoch_committees_uncached (beacon_mix : hash) (ep : Z) (validators : list Validator)
    : option (list (list Z)) :=
  let eligible := dedup (sort (index <$> validators)) in
  if bool_decide (eligible = []) then Some (replicate n_slots [])
  else
    let input := sortition_input beacon_mix ep ROLE_PARTITION in
    let len := length eligible in
    shuffled ← shuffle (len - 1) input 0 eligible;
    Some (cut_slots n_slots 0 (len / n_slots) (len mod n_slots) shuffled).

(** ** The cache *)

Context `{Sha3}.

Definition validator_bytes (v : Validator) : list Z :=
  le_bytes 4 (index v) ++ le_bytes 8 (effective_stake v).

Definition roster_bytes (validators : list Validator) : list Z :=
  le_bytes 8 (Z.of_nat (length validators)) ++ (validators ≫= validator_bytes).

Definition roster_fingerprint (validators : list Validator) : hash :=
  sha3_256 (roster_bytes validators).

Definition PartitionCacheKey : Type := hash * Z * hash * bool.
Definition Cache : Type := option (PartitionCacheKey * list (list Z)).

Definition partition_cache_key (beacon_mix : hash) (ep : Z) (validators : list Validator)
    : PartitionCacheKey :=
  (beacon_mix, ep, roster_fingerprint validators, false).

Definition partition_cache_get (cache : Cache) (key : PartitionCacheKey)
    : option (list (list Z)) :=
  match cache with
  | Some (k, v) => if bool_decide (k = key) then Some v else None
  | None => None
  end.

Definition partition_cache_put (key : PartitionCacheKey) (value : list (list Z)) : Cache :=
  Some (key, value).

Definition epoch_committees (cache : Cache) (beacon_mix : hash) (ep : Z)
    (validators : list Validator) : option (Cache * list (list Z)) :=
  let key := partition_cache_key beacon_mix ep validators in
  match partition_cache_get cache key with
  | Some hit => Some (cache, hit)
  | None =>
      out ← epoch_committees_uncached beacon_mix ep validators;
      Some (partition_cache_put key out, out)
  end.

Definition seeded_epoch_committees (cache : Cache) (genesis_mix : hash)
    (boundary_mixes : list hash) (ep : Z) (validators : list Validator)
    : option (Cache * option (list (list Z))) :=
  match seed_mix genesis_mix boundary_mixes ep with
  | None => Some (cache, None)
  | Some mix =>
      '(cache, out) ← epoch_committees cache mix ep validators; Some (cache, Some out)
  end.

Definition committee_for_slot (cache : Cache) (beacon_mix : hash) (slot : Z)
    (validators : list Validator) : option (Cache * list Z) :=
  '(cache, out) ← epoch_committees cache beacon_mix (slot / SLOTS_PER_EPOCH) validators;
  Some (cache, default [] (out !! Z.to_nat (slot mod SLOTS_PER_EPOCH))).

(** ** Votes of the members of the slot *)

Definition in_own_slot (committees : list (list Z)) (vd : Z * AttestationData) : bool :=
  match committees !! Z.to_nat (slot vd.2 mod SLOTS_PER_EPOCH) with
  | Some c => binary_search c vd.1
  | None => false
  end.

Definition votes_from_partition (cache : Cache) (ep : Z)
    (active partition_set : list Validator) (atts : list (Z * AttestationData))
    (beacon_mix : hash) : option (Cache * EpochVotes) :=
  '(cache, committees) ← epoch_committees cache beacon_mix ep partition_set;
  Some (cache, mkEpochVotes ep active (filter (λ vd, in_own_slot committees vd = true) atts)).

End xof.

(** ** Stake sums *)

Definition total_active_stake (validators : list Validator) : Z := total_stake validators.

Definition is_supermajority (stake_for total_active : Z) : bool :=
  (0 <? total_active) &&
  (saturating_mul u128_MAX total_active 2 <=? saturating_mul u128_MAX stake_for 3).

(** ** The shuffle is a permutation *)

Lemma swap_perm l i j l' : swap l i j = Some l' → l' ≡ₚ l.
Proof.
  unfold swap. intros (x & Hx & (y & Hy & [= <-])%bind_Some)%bind_Some.
  by apply Permutation_insert_swap.
Qed.

Lemma swap_live l i j : (i < length l)%nat → (j < length l)%nat → ∃ l', swap l i j = Some l'.
Proof.
  intros [x Hx]%lookup_lt_is_Some_2 [y Hy]%lookup_lt_is_Some_2.
  unfold swap. rewrite Hx, Hy. simpl. eauto.
Qed.

Lemma shuffle_perm `{Xof} fuel i input pos l l' :
  shuffle fuel i input pos l = Some l' → l' ≡ₚ l.
Proof.
  revert pos l. induction i as [|i IH]; intros pos l; cbn -[Z.of_nat]; [by intros [= ->]|].
  intros ([v pos'] & _ & (l1 & Hs%swap_perm & Hr%IH)%bind_Some)%bind_Some.
  by rewrite Hr.
Qed.

(** The shuffle ends, or the stream runs dry within the blocks it may read. *)
Lemma shuffle_outcome `{Xof} fuel i input pos l :
  (i < length l)%nat → Z.of_nat (length l) ≤ 2 ^ 32 →
  is_Some (shuffle fuel i input pos l) ∨
  (shuffle fuel i input pos l = None ∧ ∃ pos', (pos' ≤ pos + i * fuel)%nat ∧ dry_run fuel input pos').
Proof.
  revert pos l. induction i as [|i IH]; intros pos l Hi Hl; cbn -[Z.of_nat]; [eauto|].
  destruct (read_below_outcome fuel input (rejection_limit (Z.of_nat (S i) + 1)) pos)
    as [(v & pos' & -> & Hpos)|[-> Hdry]]; [apply rejection_limit_ge; lia| |right; split; [done|exists pos; split; [lia|done]]].
  cbn -[Z.of_nat].
  destruct (swap_live l (S i) (Z.to_nat (v mod (Z.of_nat (S i) + 1)))) as [l1 Hs]; [done| |].
  { pose proof (Z.mod_pos_bound v (Z.of_nat (S i) + 1)). lia. }
  rewrite Hs. cbn -[Z.of_nat]. pose proof (Permutation_length (swap_perm _ _ _ _ Hs)).
  destruct (IH pos' l1) as [?|[-> (q & ? & ?)]]; [lia|lia|by left|]. right. split; [done|]. exists q. split; [lia|done].
Qed.

Lemma shuffle_more `{Xof} fuel fuel' i input pos l l' :
  (fuel ≤ fuel')%nat → shuffle fuel i input pos l = Some l' → shuffle fuel' i input pos l = Some l'.
Proof.
  intros Hf. revert pos l. induction i as [|i IH]; intros pos l; cbn -[Z.of_nat]; [done|].
  intros ([v pos'] & Hr & (l1 & Hs & E)%bind_Some)%bind_Some.
  rewrite (read_below_more _ _ _ _ _ _ Hf Hr). cbn -[Z.of_nat]. rewrite Hs. by apply IH.
Qed.

(** ** The chunks *)

Lemma length_cut_slots n slot base extra l : length (cut_slots n slot base extra l) = n.
Proof. revert slot l. induction n; intros; simpl; auto. Qed.

(** What the slots from [slot] on take. *)
Lemma cut_slots_perm n slot base extra l :
  (length l = n * base + (extra - slot))%nat → (extra ≤ slot + n)%nat →
  concat (cut_slots n slot base extra l) ≡ₚ l.
Proof.
  revert slot l. induction n as [|n IH]; intros slot l Hl He; simpl in *.
  - symmetry. replace l with (@nil Z); [done|]. destruct l; simpl in *; [done|lia].
  - rewrite sort_perm. rewrite IH; [by rewrite take_drop| |lia].
    rewrite length_drop. destruct (Nat.ltb_spec slot extra); lia.
Qed.

Lemma cut_slots_sizes n slot base extra l c :
  (length l = n * base + (extra - slot))%nat → (extra ≤ slot + n)%nat →
  c ∈ cut_slots n slot base extra l →
  (base ≤ length c ≤ base + (if extra =? 0 then 0 else 1))%nat.
Proof.
  revert slot l. induction n as [|n IH]; intros slot l Hl He; simpl in *; [set_solver|].
  intros [->|Hc]%elem_of_cons.
  - rewrite sort_perm, length_take.
    destruct (Nat.ltb_spec slot extra), (Nat.eqb_spec extra 0); lia.
  - eapply IH; [| |exact Hc]; [|lia]. rewrite length_drop.
    destruct (Nat.ltb_spec slot extra); lia.
Qed.

Lemma cut_slots_sorted n slot base extra l c :
  NoDup l → c ∈ cut_slots n slot base extra l → StronglySorted Z.lt c.
Proof.
  revert slot l. induction n as [|n IH]; intros slot l Hnd; simpl; [set_solver|].
  set (k := (base + _)%nat). rewrite <-(take_drop k l), NoDup_app in Hnd.
  destruct Hnd as (? & _ & ?). intros [->|Hc]%elem_of_cons; [by apply sort_lt|by eapply IH].
Qed.

(** ** Theorems *)

Section theorems.
Context `{Xof} (fuel : nat).

Lemma dedup_sort_length (l : list Z) : (length (dedup (sort l)) ≤ length l)%nat.
Proof.
  transitivity (length (sort l)); [|by rewrite sort_perm].
  apply sublist_length. apply (dedup_by_sublist id).
Qed.

Lemma concat_replicate_nil (n : nat) : concat (replicate n (@nil Z)) = [].
Proof. induction n; simpl; auto. Qed.

(** The committees, or the place where the stream runs dry. *)
Lemma partition_outcome mix ep validators :
  Z.of_nat (length validators) ≤ 2 ^ 32 →
  (∃ cs, epoch_committees_uncached fuel mix ep validators = Some cs ∧
    length cs = n_slots ∧ NoDup (concat cs) ∧
    (∀ i, i ∈ concat cs ↔ i ∈ index <$> validators) ∧
    (∀ c, c ∈ cs → StronglySorted Z.lt c) ∧
    (∀ c c', c ∈ cs → c' ∈ cs → (length c ≤ length c' + 1)%nat)) ∨
  (epoch_committees_uncached fuel mix ep validators = None ∧
   ∃ pos, (pos ≤ length validators * fuel)%nat ∧ dry_run fuel (sortition_input mix ep ROLE_PARTITION) pos).
Proof.
  intros Hlen. set (l := dedup (sort (index <$> validators))).
  assert (StronglySorted Z.lt l) as Hsorted by apply dedup_sort_lt.
  assert (∀ i, i ∈ l ↔ i ∈ index <$> validators) as Hin by (intros; apply elem_of_dedup_sort).
  assert (length l ≤ length validators)%nat as Hle
    by (etrans; [apply dedup_sort_length|by rewrite length_fmap]).
  unfold epoch_committees_uncached. fold l. case_bool_decide as Hl.
  - left. exists (replicate n_slots []). rewrite concat_replicate_nil.
    split_and!; [done|done|constructor|intros i; rewrite <-Hin, Hl; done|..].
    + intros c [-> _]%elem_of_replicate. constructor.
    + intros c c' [-> _]%elem_of_replicate _. simpl. lia.
  - destruct (shuffle_outcome fuel (length l - 1) (sortition_input mix ep ROLE_PARTITION) 0 l)
      as [[l' Hl']|[-> (pos & Hpos & Hdry)]]; [destruct l; simpl in *; [done|lia]|lia|left|right].
    2: { split; [done|]. exists pos. split; [nia|done]. }
    rewrite Hl'. apply shuffle_perm in Hl'. cbn [mbind option_bind].
    pose proof (Permutation_length Hl') as Hlen'.
    pose proof (Nat.div_mod (length l) n_slots ltac:(done)) as Hdm.
    pose proof (Nat.mod_upper_bound (length l) n_slots ltac:(done)) as Hub.
    set (base := (length l / n_slots)%nat) in *. set (extra := (length l mod n_slots)%nat) in *.
    assert (length l' = n_slots * base + (extra - 0))%nat as Hl0 by lia.
    pose proof (cut_slots_perm n_slots 0 base extra l' Hl0 ltac:(lia)) as Hperm.
    assert (NoDup l') as Hnd by (rewrite Hl'; by apply lt_sorted_NoDup).
    eexists. split_and!; [done|apply length_cut_slots|by rewrite Hperm| | |].
    + intros i. by rewrite Hperm, Hl', Hin.
    + intros c. by apply cut_slots_sorted.
    + intros c c' Hc Hc'.
      pose proof (cut_slots_sizes _ _ _ _ _ _ Hl0 ltac:(lia) Hc).
      pose proof (cut_slots_sizes _ _ _ _ _ _ Hl0 ltac:(lia) Hc').
      destruct (extra =? 0)%nat; lia.
Qed.

Lemma partition_spec `{!XofLive fuel} mix ep validators :
  Z.of_nat (length validators) ≤ 2 ^ 32 →
  ∃ cs, epoch_committees_uncached fuel mix ep validators = Some cs ∧
    length cs = n_slots ∧ NoDup (concat cs) ∧
    (∀ i, i ∈ concat cs ↔ i ∈ index <$> validators) ∧
    (∀ c, c ∈ cs → StronglySorted Z.lt c) ∧
    (∀ c c', c ∈ cs → c' ∈ cs → (length c ≤ length c' + 1)%nat).
Proof.
  intros Hlen. destruct (partition_outcome mix ep validators Hlen) as [?|(_ & pos & _ & Hd)]; [done|].
  by apply dry_run_live in Hd.
Qed.

(** C19: the committees of an epoch are a partition of the registry, for every registry of
    at most 2^32 entries (indices are 32 bits wide) and every stream.  When the
    shuffle returns, the 32 committees are strictly increasing lists, together they
    hold every registry index exactly once, their sizes differ by at most one, and they
    stay the same when the rejection loops may read more blocks.  It fails to return only if the first blocks of this seed's stream ([fuel] for each
    validator) lead into [fuel] blocks in a row in the upper half of their range. *)
Theorem epoch_committees_partition mix ep validators :
  Z.of_nat (length validators) ≤ 2 ^ 32 →
  match epoch_committees_uncached fuel mix ep validators with
  | Some cs =>
      length cs = n_slots ∧ NoDup (concat cs) ∧
      (∀ i, i ∈ concat cs ↔ i ∈ index <$> validators) ∧
      (∀ c, c ∈ cs → StronglySorted Z.lt c) ∧
      (∀ c c', c ∈ cs → c' ∈ cs → (length c ≤ length c' + 1)%nat) ∧
      (∀ fuel', (fuel ≤ fuel')%nat → epoch_committees_uncached fuel' mix ep validators = Some cs)
  | None =>
      ∃ pos, (pos ≤ length validators * fuel)%nat ∧
        ∀ i, (i < fuel)%nat → 2 ^ 127 ≤ shake256_u128 (sortition_input mix ep ROLE_PARTITION) (pos + i)
  end.
Proof.
  intros Hlen. destruct (partition_outcome mix ep validators Hlen) as [(cs & E & ? & ? & ? & ? & ?)|(-> & Hd)]; [|done].
  rewrite E. split_and!; [done..|]. intros fuel' Hf. revert E. unfold epoch_committees_uncached. case_match; [done|].
  intros (l & Hs & <-)%bind_Some. by rewrite (shuffle_more _ _ _ _ _ _ _ Hf Hs).
Qed.

(** Committee membership is a function of the index set alone: two rosters
    with the same indices, whatever their order, repetitions or stakes, give
    the same committees. *)
Theorem partition_index_set mix ep validators1 validators2 :
  (∀ i, i ∈ index <$> validators1 ↔ i ∈ index <$> validators2) →
  epoch_committees_uncached fuel mix ep validators1 =
    epoch_committees_uncached fuel mix ep validators2.
Proof.
  intros Hi. unfold epoch_committees_uncached. by rewrite (dedup_sort_ext _ _ Hi).
Qed.

(** ** The cache *)

Context `{Sha3}.

Definition call : Type := hash * Z * list Validator.

(** A sequence of calls against one thread's cache. *)
Fixpoint run_calls (cache : Cache) (calls : list call) : option (list (list (list Z))) :=
  match calls with
  | [] => Some []
  | (mix, ep, vs) :: calls =>
      '(cache, out) ← epoch_committees fuel cache mix ep vs;
      outs ← run_calls cache calls;
      Some (out :: outs)
  end.

Definition roster_u32 (vs : list Validator) : Prop :=
  Z.of_nat (length vs) ≤ 2 ^ 32 ∧
  Forall (λ v, 0 ≤ index v ≤ u32_MAX ∧ 0 ≤ effective_stake v ≤ u64_MAX) vs.

Lemma validator_bytes_inj vs ws :
  Forall (λ v, 0 ≤ index v ≤ u32_MAX ∧ 0 ≤ effective_stake v ≤ u64_MAX) vs →
  Forall (λ v, 0 ≤ index v ≤ u32_MAX ∧ 0 ≤ effective_stake v ≤ u64_MAX) ws →
  length vs = length ws → vs ≫= validator_bytes = ws ≫= validator_bytes → vs = ws.
Proof.
  intros Hv. revert ws. induction Hv as [|[i s] vs [Hi Hs] _ IH]; intros [|[i' s'] ws] Hw Hl E;
    cbn in Hl; try done.
  apply Forall_cons in Hw as [[Hi' Hs'] Hw]. simpl in Hi, Hs, Hi', Hs'.
  rewrite !bind_cons in E. unfold validator_bytes at 1 3 in E. rewrite <-!app_assoc in E.
  cbn [index effective_stake] in E.
  apply app_inj_len in E as [E1 E]; [|by rewrite !length_le_bytes].
  apply app_inj_len in E as [E2 E]; [|by rewrite !length_le_bytes].
  apply le_bytes_inj in E1; [|unfold u32_MAX in *; lia..].
  apply le_bytes_inj in E2; [|unfold u64_MAX in *; lia..].
  subst. f_equal. apply IH; [done|lia|done].
Qed.

Lemma roster_bytes_inj vs ws :
  roster_u32 vs → roster_u32 ws → roster_bytes vs = roster_bytes ws → vs = ws.
Proof.
  intros [Hlv Hv] [Hlw Hw] E. unfold roster_bytes in E.
  apply app_inj_len in E as [E1 E]; [|by rewrite !length_le_bytes].
  apply le_bytes_inj in E1; [|lia..]. apply validator_bytes_inj; [done..|lia|done].
Qed.

(** The cached entry is what a fresh computation would return. *)
Definition cache_ok (calls : list call) (cache : Cache) : Prop :=
  ∀ k out, cache = Some (k, out) → ∃ mix ep vs, (mix, ep, vs) ∈ calls ∧
    k = partition_cache_key mix ep vs ∧ epoch_committees_uncached fuel mix ep vs = Some out.

(** The cache changes latency only.  Along any sequence of calls, starting
    from an empty cache, every result is the uncached computation's, provided
    the fingerprint hash has no collision among the rosters of the calls. *)
Theorem cache_transparent calls :
  (∀ mix ep vs, (mix, ep, vs) ∈ calls → roster_u32 vs) →
  (∀ c c', c ∈ calls → c' ∈ calls →
     roster_fingerprint c.2 = roster_fingerprint c'.2 → roster_bytes c.2 = roster_bytes c'.2) →
  run_calls None calls =
    mapM (λ c, epoch_committees_uncached fuel c.1.1 c.1.2 c.2) calls.
Proof.
  intros Hok Hcoll.
  assert (∀ todo cache, (∀ c, c ∈ todo → c ∈ calls) → cache_ok calls cache →
    run_calls cache todo = mapM (λ c, epoch_committees_uncached fuel c.1.1 c.1.2 c.2) todo)
    as Hgen; [|by apply Hgen].
  induction todo as [|[[mix ep] vs] todo IH]; intros cache Hin Hc; csimpl; [done|].
  assert (epoch_committees fuel cache mix ep vs =
    epoch_committees_uncached fuel mix ep vs ≫= λ out,
      Some (if partition_cache_get cache (partition_cache_key mix ep vs)
            then cache else partition_cache_put (partition_cache_key mix ep vs) out, out)) as ->.
  { unfold epoch_committees. destruct (partition_cache_get _ _) as [hit|] eqn:E; [|done].
    unfold partition_cache_get in E. destruct cache as [[k out]|]; [|done].
    case_bool_decide as Hk; [|done]. injection E as ->.
    destruct (Hc k hit eq_refl) as (mix' & ep' & vs' & Hcall & Hk' & Hout).
    rewrite Hk' in Hk. unfold partition_cache_key in Hk. injection Hk as -> -> Hfp.
    apply (Hcoll (mix, ep, vs') (mix, ep, vs) Hcall (Hin (mix, ep, vs) ltac:(left))) in Hfp.
    cbn [snd] in Hfp. apply roster_bytes_inj in Hfp; [|by eapply Hok|].
    - subst vs'. by rewrite Hout.
    - apply (Hok mix ep), Hin. left. }
  destruct (epoch_committees_uncached fuel mix ep vs) as [out|] eqn:Eo; [|done].
  cbn [mbind option_bind]. rewrite IH; [done|set_solver|].
  destruct (partition_cache_get _ _); [done|]. intros k o [= <- <-].
  exists mix, ep, vs. split_and!; [apply Hin; set_solver|done|done].
Qed.

(** ** Votes *)

Lemma NoDup_concat_lookup {A} (ls : list (list A)) i j a b x :
  NoDup (concat ls) → ls !! i = Some a → ls !! j = Some b → x ∈ a → x ∈ b → i = j.
Proof.
  assert (∀ (ls : list (list A)) i a, ls !! i = Some a → x ∈ a → x ∈ concat ls) as Hc.
  { intros l. induction l as [|c l IH]; intros [|k] d Hd Hx; simplify_eq/=; set_solver. }
  revert i j. induction ls as [|c ls IH]; intros i j Hnd Hi Hj Ha Hb; simpl in *; [done|].
  apply NoDup_app in Hnd as (_ & Hdis & Hnd).
  destruct i as [|i], j as [|j]; simplify_eq/=; [done|..].
  - destruct (Hdis x Ha). by eapply Hc.
  - destruct (Hdis x Hb). by eapply Hc.
  - f_equal. by apply IH.
Qed.

(** Only a member of a slot's committee votes in that slot.  Filtering by
    the partition keeps a vote exactly when its validator sits in the committee
    of the vote's slot, so all votes a validator gets counted in an epoch are for
    one slot position. *)
Theorem votes_one_slot `{!XofLive fuel} mix ep active partition_set atts :
  Z.of_nat (length partition_set) ≤ 2 ^ 32 →
  ∃ cs cache votes, epoch_committees_uncached fuel mix ep partition_set = Some cs ∧
    votes_from_partition fuel None ep active partition_set atts mix = Some (cache, votes) ∧
    votes_epoch votes = ep ∧ active_set votes = active ∧
    (∀ v d, (v, d) ∈ attestations votes ↔ (v, d) ∈ atts ∧
       ∃ c, cs !! Z.to_nat (slot d mod SLOTS_PER_EPOCH) = Some c ∧ v ∈ c) ∧
    (∀ v d d', (v, d) ∈ attestations votes → (v, d') ∈ attestations votes →
       slot d mod SLOTS_PER_EPOCH = slot d' mod SLOTS_PER_EPOCH).
Proof.
  intros Hlen. destruct (partition_spec mix ep partition_set Hlen)
    as (cs & Hcs & _ & Hnd & _ & Hsorted & _).
  exists cs. unfold votes_from_partition, epoch_committees. rewrite Hcs.
  cbn [partition_cache_get mbind option_bind].
  assert (∀ v d, in_own_slot cs (v, d) = true ↔
    ∃ c, cs !! Z.to_nat (slot d mod SLOTS_PER_EPOCH) = Some c ∧ v ∈ c) as Hslot.
  { intros v d. unfold in_own_slot. simpl.
    destruct (cs !! Z.to_nat (slot d mod SLOTS_PER_EPOCH)) as [c|] eqn:Ec; [|naive_solver].
    rewrite binary_search_sorted, bool_decide_eq_true
      by (by eapply Hsorted, list_elem_of_lookup_2). naive_solver. }
  eexists _, _. split_and!; [done..| |]; cbn [attestations].
  - intros v d. rewrite list_elem_of_filter, Hslot. tauto.
  - intros v d d' [Hd _]%list_elem_of_filter [Hd' _]%list_elem_of_filter.
    apply Hslot in Hd as (c & Hc & Hv). apply Hslot in Hd' as (c' & Hc' & Hv').
    pose proof (NoDup_concat_lookup _ _ _ _ _ _ Hnd Hc Hc' Hv Hv') as E.
    pose proof (Z.mod_pos_bound (slot d) SLOTS_PER_EPOCH eq_refl).
    pose proof (Z.mod_pos_bound (slot d') SLOTS_PER_EPOCH eq_refl). lia.
Qed.
End theorems.

(** ** Concrete committees *)

Definition ex_committees : list (list Z) :=
  default [] (epoch_committees_uncached (H := ex_xof) 1 0 5 ex_roster).

Lemma ex_committees_Some : epoch_committees_uncached (H := ex_xof) 1 0 5 ex_roster = Some ex_committees.
Proof. vm_compute. reflexivity. Qed.

Lemma epoch_committees_partition_witness :
  epoch_committees_uncached (H := ex_xof) 1 0 5 ex_roster = Some ex_committees ∧ NoDup (concat ex_committees).
Proof.
  pose proof (epoch_committees_partition (H := ex_xof) 1 0 5 ex_roster ltac:(vm_compute; congruence)) as Hp.
  rewrite ex_committees_Some in Hp. destruct Hp as (_ & Hnd & _). split; [exact ex_committees_Some|exact Hnd].
Defined.

Lemma partition_index_set_witness :
  epoch_committees_uncached (H := ex_xof) 1 0 5 [mkValidator 2 9; mkValidator 1 1] =
  epoch_committees_uncached (H := ex_xof) 1 0 5 [mkValidator 1 4; mkValidator 2 0; mkValidator 1 3].
Proof. apply (partition_index_set (H := ex_xof) 1). csimpl. set_solver. Defined.

(** An injective stand-in for the hash: the bytes read as one number, with the
    length kept by a leading one. *)
Definition ex_sha3 : Sha3 := λ l, from_le_bytes (l ++ [1]).

Lemma ex_sha3_inj l k : ex_sha3 l = ex_sha3 k → Forall is_byte l → Forall is_byte k → l = k.
Proof.
  unfold ex_sha3. revert k. induction l as [|b l IH]; intros [|c k] E Hl Hk; simpl in *; [done|..].
  - apply Forall_cons in Hk as [Hc Hk]. unfold is_byte in Hc.
    assert (0 < from_le_bytes (k ++ [1])); [|lia].
    clear -Hk. induction Hk as [|x k Hx _ IH]; simpl; [lia|]. unfold is_byte in Hx. lia.
  - apply Forall_cons in Hl as [Hc Hl]. unfold is_byte in Hc.
    assert (0 < from_le_bytes (l ++ [1])); [|lia].
    clear -Hl. induction Hl as [|x l Hx _ IH]; simpl; [lia|]. unfold is_byte in Hx. lia.
  - apply Forall_cons in Hl as [Hb Hl]. apply Forall_cons in Hk as [Hc Hk].
    unfold is_byte in *. assert (b = c) as -> by lia. f_equal. apply IH; [lia|done..].
Qed.

Definition ex_calls : list call :=
  [(0, 5, ex_roster); (0, 5, ex_roster); (0, 6, [mkValidator 1 1]); (0, 5, ex_roster)].

Lemma cache_transparent_witness :
  run_calls (H := ex_xof) 1 (H0 := ex_sha3) None ex_calls =
    mapM (λ c, epoch_committees_uncached (H := ex_xof) 1 c.1.1 c.1.2 c.2) ex_calls.
Proof.
  apply (cache_transparent (H := ex_xof) 1 (H0 := ex_sha3)).
  - intros mix ep vs Hin. unfold ex_calls in Hin. set_unfold in Hin.
    assert (vs = ex_roster ∨ vs = [mkValidator 1 1]) as [->| ->] by naive_solver;
      (split; [vm_compute; congruence|]); unfold u32_MAX, u64_MAX; repeat constructor; simpl; lia.
  - intros c c' _ _ E. apply ex_sha3_inj; [exact E|..]; unfold roster_bytes;
      (apply Forall_app; split; [apply le_bytes_range|]);
      apply Forall_bind, Forall_true; intros v; apply Forall_app; split; apply le_bytes_range.
Defined.

Lemma votes_one_slot_witness :
  ∃ cache votes, votes_from_partition (H := ex_xof) 1 (H0 := ex_sha3) None 5 ex_roster ex_roster
    [(4, mkAttData 160 9 0 7 5 9); (4, mkAttData 161 9 0 7 5 9)] 0 = Some (cache, votes) ∧
    votes_epoch votes = 5.
Proof.
  destruct (votes_one_slot (H := ex_xof) 1 (H0 := ex_sha3) (XofLive0 := ex_xof_live) 0 5
    ex_roster ex_roster [(4, mkAttData 160 9 0 7 5 9); (4, mkAttData 161 9 0 7 5 9)])
    as (cs & cache & votes & _ & Hv & He & _); [vm_compute; congruence|]. by exists cache, votes.
Defined.

End Committees.
