(* ===== verification/Signatures.v ===== *)
(** * Signature verification interfaces

    Models the traits of [crates/bloch-pos-committee/src/attestation.rs] through
    which consensus checks signatures: [SignatureVerifier] and [KeyLookup] are
    records of operations (the cryptography behind them is not part of the
    modelled code), [PolicyVerifier] wraps a verifier with a signature policy,
    and the policies are ordered by strictness.  [key_suite] is that of
    [transition/pq_migration.rs]; [KesPublic] is the key record of [kes.rs]. *)

From S2P Require Import Prelude Bytes Params.
Local Open Scope Z_scope.

Module Signatures.
Import Bytes Params.

(** ** Policies *)

Inductive SignaturePolicy := Compatible | CompatiblePinned | CanonicalUnbound | Bound.

Global Instance SignaturePolicy_eq_dec : EqDecision SignaturePolicy.
Proof. solve_decision. Defined.

Definition transaction_for (mldsa_pin sig_canonical : bool) : SignaturePolicy :=
  if mldsa_pin || sig_canonical then CompatiblePinned else Compatible.

Definition strictest (self other : SignaturePolicy) : SignaturePolicy :=
  match self, other with
  | Bound, _ | _, Bound => Bound
  | CanonicalUnbound, _ | _, CanonicalUnbound => CanonicalUnbound
  | CompatiblePinned, _ | _, CompatiblePinned => CompatiblePinned
  | Compatible, Compatible => Compatible
  end.

Definition policy_tag (p : SignaturePolicy) : Z :=
  match p with Compatible => 0 | CanonicalUnbound => 1 | Bound => 2 | CompatiblePinned => 3 end.

Section policy.
Context {G : Gates}.

(** [SignaturePolicy::consensus] and [SignaturePolicy::transaction]. *)
Definition consensus_policy (epoch : Z) : SignaturePolicy :=
  if sig_canonical_active epoch then Bound
  else if mldsa_pin_active epoch then CompatiblePinned
  else Compatible.

Definition transaction_policy (epoch : Z) : SignaturePolicy :=
  transaction_for (mldsa_pin_active epoch) (sig_canonical_active epoch).
End policy.

(** ** Keys *)

Record KesPublic := mkKesPublic { depth : Z; kes_root : hash; start_period : Z }.

Global Instance KesPublic_eq_dec : EqDecision KesPublic.
Proof. solve_decision. Defined.

Definition SUITE_MLDSA65_FALCON1024 : Z := 1.
Definition SUITE_SLHDSA128S_FALCON1024 : Z := 3.
Definition HYBRID_PK_BYTES : Z := 1952 + 1793.

Definition key_suite (pubkey : list Z) : option Z :=
  if Z.of_nat (length pubkey) =? HYBRID_PK_BYTES then Some SUITE_MLDSA65_FALCON1024
  else
    match pubkey with
    | m0 :: m1 :: a :: b :: _ =>
        if (m0 =? 177) && (m1 =? 12) then Some (from_le_bytes [a; b]) else None
    | _ => None
    end.

(** ** The traits *)

Record SignatureVerifier := mkVerifier {
  verify_with_key : list Z → hash → list Z → bool;
  verify_with_key_under : SignaturePolicy → list Z → hash → list Z → bool;
  verify_spend_at_epoch : list Z → hash → list Z → Z → bool;
  verify_kes : KesPublic → Z → hash → list Z → bool;
  verify_kes_leaf : list Z → hash → list Z → bool;
  verify_l2_settlement : hash → hash → list Z → list Z → bool;
}.

Record KeyLookup := mkKeyLookup {
  pubkey : Z → option (list Z);
  kes_public : Z → Z → option KesPublic;
  kes_network_domain : option hash;
  kes_enforced_from : option (option Z);
}.

(** A verifier that adds nothing to the required method; [kes] is its
    [verify_kes], whose default is [kes::verify]. *)
Definition default_verifier (vk : list Z → hash → list Z → bool)
    (kes : KesPublic → Z → hash → list Z → bool) : SignatureVerifier := {|
  verify_with_key := vk;
  verify_with_key_under := λ _, vk;
  verify_spend_at_epoch := λ pk root sig _, vk pk root sig;
  verify_kes := kes;
  verify_kes_leaf := vk;
  verify_l2_settlement := λ _ _ _ _, false;
|}.

(** A lookup that is not committed state: static keys only. *)
Definition static_lookup (pk : Z → option (list Z)) : KeyLookup :=
  mkKeyLookup pk (λ _ _, None) None None.

(** [impl SignatureVerifier for PolicyVerifier]. *)
Definition PolicyVerifier (inner : SignatureVerifier) (policy : SignaturePolicy)
    : SignatureVerifier := {|
  verify_with_key := λ pk root sig, verify_with_key_under inner policy pk root sig;
  verify_with_key_under := λ p pk root sig,
    verify_with_key_under inner (strictest policy p) pk root sig;
  verify_spend_at_epoch := λ pk root sig epoch,
    if bool_decide (key_suite pk = Some SUITE_SLHDSA128S_FALCON1024)
    then verify_spend_at_epoch inner pk root sig epoch
    else verify_with_key_under inner policy pk root sig;
  verify_kes := verify_kes inner;
  verify_kes_leaf := verify_kes_leaf inner;
  verify_l2_settlement := verify_l2_settlement inner;
|}.

Definition PolicyVerifier_consensus {G : Gates} (inner : SignatureVerifier) (epoch : Z)
    : SignatureVerifier :=
  PolicyVerifier inner (consensus_policy epoch).

End Signatures.
