(* ===== verification/Kes.v ===== *)
(** * Forward-secure validator keys

    Models [crates/bloch-pos-committee/src/kes.rs]: a Merkle tree of one-day leaf
    keys, the signature record and its wire encoding, the history of a
    validator's keys ([KesEntry]) and the rule that picks the key a consensus
    signature is checked with ([verify_validator]).  SHA3-256 is a parameter;
    indices into a slice that would panic give [None]. *)

From Stdlib Require Import String.
From S2P Require Import Prelude Bytes Params Signatures.
Local Open Scope Z_scope.

Module Kes.
Import Bytes Params Signatures.

Definition MIN_DEPTH : Z := 1.
Definition MAX_DEPTH : Z := 16.
Definition MAX_LEAF_PK_LEN : Z := 3749.
Definition HYBRID_SIGNATURE_MAX : Z := 4 + 3309 + 1462.
Definition MAX_LEAF_SIG_LEN : Z := HYBRID_SIGNATURE_MAX.
Definition MAX_SIGNATURE_LEN : Z :=
  4 + 4 + 4 + MAX_LEAF_PK_LEN + 4 + MAX_LEAF_SIG_LEN + 1 + 32 * MAX_DEPTH.
Definition SIGNATURE_MAGIC : list Z := string_bytes "KES1".

Definition DS_STEP : list Z := string_bytes "BLOCH-KES-v1/step".
Definition DS_LEAF : list Z := string_bytes "BLOCH-KES-v1/leaf".
Definition DS_PK : list Z := string_bytes "BLOCH-KES-v1/pk".
Definition DS_NODE : list Z := string_bytes "BLOCH-KES-v1/node".
Definition DS_REGISTER : list Z := string_bytes "BLOCH-KES-v1/register".
Definition DS_SIGN : list Z := string_bytes "BLOCH-KES-v2/sign".
Definition DS_AUTHORITY : list Z := string_bytes "BLOCH-KES-v1/authority".
Definition DS_ROTATE : list Z := string_bytes "BLOCH-KES-v1/rotate".

(** ** The Merkle tree *)

Section tree.
Context `{Sha3}.

Definition h (parts : list (list Z)) : hash := sha3_256 (concat parts).

Definition step (seed : hash) : hash := h [DS_STEP; hash_bytes seed].
Definition leaf_seed (seed : hash) : hash := h [DS_LEAF; hash_bytes seed].
Definition leaf_hash (pk : list Z) : hash := h [DS_PK; pk].
Definition node_hash (l r : hash) : hash := h [DS_NODE; hash_bytes l; hash_bytes r].

(** [level.chunks(2).map(|c| node_hash(&c[0], &c[1]))]. *)
Fixpoint level_up (level : list hash) : option (list hash) :=
  match level with
  | [] => Some []
  | [_] => None
  | l :: r :: rest => cons (node_hash l r) <$> level_up rest
  end.

Fixpoint merkle_loop (fuel : nat) (level : list hash) : option hash :=
  match level with
  | [] => Some 0
  | [x] => Some x
  | _ =>
      match fuel with
      | O => None
      | S fuel => level ← level_up level; merkle_loop fuel level
      end
  end.

(** Each round halves the level, so its length is enough rounds. *)
Definition merkle_root (leaves : list hash) : option hash :=
  merkle_loop (length leaves) leaves.

Fixpoint auth_loop (fuel : nat) (level : list hash) (i : nat) : option (list hash) :=
  match level with
  | [] | [_] => Some []
  | _ =>
      match fuel with
      | O => None
      | S fuel =>
          sib ← level !! Nat.lxor i 1;
          level ← level_up level;
          cons sib <$> auth_loop fuel level (Nat.div2 i)
      end
  end.

Definition auth_path (leaves : list hash) (i : nat) : option (list hash) :=
  auth_loop (length leaves) leaves i.

(** The loop of [verify]: hash the node up the path. *)
Fixpoint climb (node : hash) (i : nat) (path : list hash) : hash :=
  match path with
  | [] => node
  | sib :: path =>
      climb (if Nat.land i 1 =? 0 then node_hash node sib else node_hash sib node)%nat
        (Nat.div2 i) path
  end.

(** ** Keys and their periods *)

Definition periods (k : KesPublic) : Z := Z.shiftl 1 (Z.min (depth k) MAX_DEPTH).

Definition leaf_index (k : KesPublic) (period : Z) : option Z :=
  if negb ((MIN_DEPTH <=? depth k) && (depth k <=? MAX_DEPTH)) then None
  else
    leaf ← checked_sub period (start_period k);
    if leaf <? periods k then Some leaf else None.

Definition end_period (k : KesPublic) : Z :=
  saturating_add u64_MAX (start_period k) (periods k).

Definition remaining_periods (k : KesPublic) (period : Z) : Z :=
  saturating_sub (end_period k) (Z.max period (start_period k)).

Definition same_tree (k k' : KesPublic) : bool :=
  (depth k =? depth k') && (kes_root k =? kes_root k').

Definition public_bytes (k : KesPublic) : list Z :=
  [depth k] ++ hash_bytes (kes_root k) ++ le_bytes 8 (start_period k).

(** ** The history of a validator's keys *)

Record RetiredKes := mkRetired { public : KesPublic; retired_end : Z }.

Definition covers (r : RetiredKes) (period : Z) : bool :=
  (start_period (public r) <=? period) && (period <? retired_end r).

Record KesEntry := mkEntry {
  current : KesPublic;
  next : option KesPublic;
  retired : list RetiredKes;
}.

Definition entry_of (k : KesPublic) : KesEntry := mkEntry k None [].

Definition prune (e : KesEntry) (period : Z) : KesEntry :=
  let keep_from := saturating_sub period KES_KEY_HISTORY_PERIODS in
  mkEntry (current e) (next e) (filter (λ r, keep_from < retired_end r) (retired e)).

(** The latest retired key whose range covers [period]. *)
Definition find_retired (l : list RetiredKes) (period : Z) : option KesPublic :=
  public <$> (list_find (λ r, covers r period = true) (reverse l) ≫= λ ir, Some ir.2).

Definition in_force (e : KesEntry) (period : Z) : KesPublic :=
  let otherwise :=
    if start_period (current e) <=? period then current e
    else default (current e) (find_retired (retired e) period) in
  match next e with
  | Some n => if start_period n <=? period then n else otherwise
  | None => otherwise
  end.

Definition settled (e : KesEntry) (period : Z) : KesEntry :=
  let out :=
    match next e with
    | Some n =>
        if start_period n <=? period
        then mkEntry n None (retired e ++ [mkRetired (current e) (start_period n)])
        else e
    | None => e
    end in
  prune out period.

Definition replaced_by (e : KesEntry) (fresh : KesPublic) (period : Z) : KesEntry :=
  let retired' :=
    match next e with
    | Some n =>
        retired e ++ [mkRetired (current e) (start_period n);
                      mkRetired n (Z.min (end_period n) (start_period fresh))]
    | None =>
        retired e ++ [mkRetired (current e) (Z.min (end_period (current e)) (start_period fresh))]
    end in
  prune (mkEntry fresh None retired') period.

Definition pending_at (e : KesEntry) (period : Z) : option KesPublic :=
  n ← next e; if period <? start_period n then Some n else None.

Definition RETIRED_SECTION_TAG : Z := 255.

Definition entry_bytes (e : KesEntry) : list Z :=
  public_bytes (current e)
  ++ match next e with Some n => public_bytes n | None => [] end
  ++ match retired e with
     | [] => []
     | rs => [RETIRED_SECTION_TAG] ++ le_bytes 4 (Z.of_nat (length rs))
             ++ (rs ≫= λ r, public_bytes (public r) ++ le_bytes 8 (retired_end r))
     end.

(** ** Signatures *)

Record KesSignature := mkKesSig {
  sig_index : Z;
  leaf_pk : list Z;
  sig : list Z;
  path : list hash;
}.

Definition encode (s : KesSignature) : list Z :=
  SIGNATURE_MAGIC ++ le_bytes 4 (sig_index s)
  ++ le_bytes 4 (Z.of_nat (length (leaf_pk s))) ++ leaf_pk s
  ++ le_bytes 4 (Z.of_nat (length (sig s))) ++ sig s
  ++ [Z.of_nat (length (path s)) mod 256] ++ (path s ≫= hash_bytes).

(** [take] of [decode] is the cursor [take_n]. *)
Fixpoint take_path (n : nat) (bytes : list Z) : option (list hash * list Z) :=
  match n with
  | O => Some ([], bytes)
  | S n =>
      '(b, bytes) ← take_n 32 bytes;
      '(p, bytes) ← take_path n bytes;
      Some (from_hash_bytes b :: p, bytes)
  end.

Definition decode (bytes : list Z) : option KesSignature :=
  if (MAX_SIGNATURE_LEN <? Z.of_nat (length bytes))
     || negb (bool_decide (take 4 bytes = SIGNATURE_MAGIC)) then None
  else
    let rest := drop 4 bytes in
    '(b, rest) ← take_n 4 rest;
    let idx := from_le_bytes b in
    '(b, rest) ← take_n 4 rest;
    let pk_len := from_le_bytes b in
    if MAX_LEAF_PK_LEN <? pk_len then None
    else
      '(pk, rest) ← take_n (Z.to_nat pk_len) rest;
      '(b, rest) ← take_n 4 rest;
      let sig_len := from_le_bytes b in
      if MAX_LEAF_SIG_LEN <? sig_len then None
      else
        '(sg, rest) ← take_n (Z.to_nat sig_len) rest;
        '(b, rest) ← take_n 1 rest;
        let d := from_le_bytes b in
        if MAX_DEPTH <? d then None
        else
          '(p, rest) ← take_path (Z.to_nat d) rest;
          if bool_decide (rest = []) then Some (mkKesSig idx pk sg p) else None.

(** ** Verification *)

Definition verify (v : SignatureVerifier) (k : KesPublic) (period : Z)
    (message : hash) (signature : list Z) : bool :=
  match leaf_index k period, decode signature with
  | Some leaf, Some s =>
      if negb (sig_index s =? leaf) || negb (Z.of_nat (length (path s)) =? depth k) then false
      else
        (climb (leaf_hash (leaf_pk s)) (Z.to_nat leaf) (path s) =? kes_root k) &&
        verify_kes_leaf v (leaf_pk s) message (sig s)
  | _, _ => false
  end.

Definition register_signing_root (domain : hash) (validator : Z) (k : KesPublic) : hash :=
  h [DS_REGISTER; hash_bytes domain; le_bytes 4 validator; [depth k]; hash_bytes (kes_root k)].

Definition rotate_signing_root (domain : hash) (validator period new_depth : Z) (new_root : hash)
    : hash :=
  h [DS_ROTATE; hash_bytes domain; le_bytes 4 validator; le_bytes 8 period; [new_depth];
     hash_bytes new_root].

Definition bound_signing_root (domain : hash) (validator : Z) (k : KesPublic) (period : Z)
    (signing_root : hash) : hash :=
  h [DS_SIGN; hash_bytes domain; le_bytes 4 validator; [depth k]; hash_bytes (kes_root k);
     le_bytes 8 period; hash_bytes signing_root].

Definition leaf_message (domain : option hash) (validator : Z) (k : KesPublic) (period : Z)
    (signing_root : hash) : option hash :=
  (λ d, bound_signing_root d validator k period signing_root) <$> domain.

Inductive SigningMode := Static | Kes (period : Z) | FailClosed.

Context {G : Gates}.

Definition is_bound (keys : KeyLookup) (epoch : Z) : bool :=
  bool_decide (is_Some (kes_period epoch)) &&
  match kes_enforced_from keys with
  | Some (Some bound) => bound <=? epoch
  | _ => false
  end.

Definition signing_mode (keys : KeyLookup) (validator epoch : Z) : SigningMode :=
  match kes_period epoch with
  | None => Static
  | Some period =>
      match kes_enforced_from keys with
      | None => FailClosed
      | Some None => Static
      | Some (Some bound) =>
          if epoch <? bound then Static
          else
            match kes_public keys validator period with
            | Some _ => Kes period
            | None => Static
            end
      end
  end.

Definition verify_validator_in (keys : KeyLookup) (v : SignatureVerifier) (validator : Z)
    (period : option Z) (signing_root : hash) (signature : list Z) : option bool :=
  match pubkey keys validator with
  | None => None
  | Some static_key =>
      match period with
      | None => Some (verify_with_key v static_key signing_root signature)
      | Some period =>
          match kes_public keys validator period with
          | None => Some false
          | Some k =>
              match leaf_message (kes_network_domain keys) validator k period signing_root with
              | None => Some false
              | Some message => Some (verify_kes v k period message signature)
              end
          end
      end
  end.

Definition verify_validator (keys : KeyLookup) (v : SignatureVerifier) (validator epoch : Z)
    (signing_root : hash) (signature : list Z) : option bool :=
  match signing_mode keys validator epoch with
  | Static => verify_validator_in keys v validator None signing_root signature
  | Kes period => verify_validator_in keys v validator (Some period) signing_root signature
  | FailClosed => (λ _, false) <$> pubkey keys validator
  end.

Definition authority_fingerprint (keys : KeyLookup) (validator epoch : Z) : option hash :=
  static_key ← pubkey keys validator;
  let static_hash := h [static_key] in
  match signing_mode keys validator epoch with
  | Static =>
      if is_bound keys epoch
      then Some (h [DS_AUTHORITY; hash_bytes static_hash; string_bytes "static-fallback"])
      else Some static_hash
  | FailClosed => Some (h [DS_AUTHORITY; hash_bytes static_hash; string_bytes "fail-closed"])
  | Kes period =>
      let kes := default [] (public_bytes <$> kes_public keys validator period) in
      let domain := kes_network_domain keys in
      Some (h [DS_AUTHORITY; hash_bytes static_hash; le_bytes 4 (Z.of_nat (length kes)); kes;
               [if domain then 1 else 0]; hash_bytes (default 0 domain); le_bytes 8 period])
  end.
End tree.

(** ** The tree *)

Lemma lxor1_even k : Nat.lxor (2 * k) 1 = (2 * k + 1)%nat.
Proof.
  apply Nat.bits_inj. intros [|n]; rewrite Nat.lxor_spec.
  - by rewrite Nat.testbit_even_0, Nat.testbit_odd_0.
  - change (Nat.testbit 1 (S n)) with (Nat.testbit 0 n).
    by rewrite Nat.bits_0, xorb_false_r, Nat.testbit_even_succ', Nat.testbit_odd_succ'.
Qed.

Lemma lxor1_odd k : Nat.lxor (2 * k + 1) 1 = (2 * k)%nat.
Proof.
  apply Nat.bits_inj. intros [|n]; rewrite Nat.lxor_spec.
  - by rewrite Nat.testbit_even_0, Nat.testbit_odd_0.
  - change (Nat.testbit 1 (S n)) with (Nat.testbit 0 n).
    by rewrite Nat.bits_0, xorb_false_r, Nat.testbit_even_succ', Nat.testbit_odd_succ'.
Qed.

Lemma land1_even k : Nat.land (2 * k) 1 = 0%nat.
Proof.
  rewrite (Nat.land_ones _ 1). change (2 ^ 1)%nat with 2%nat.
  rewrite Nat.mul_comm. by apply Nat.Div0.mod_mul.
Qed.

Lemma land1_odd k : Nat.land (2 * k + 1) 1 = 1%nat.
Proof.
  rewrite (Nat.land_ones _ 1). change (2 ^ 1)%nat with 2%nat.
  rewrite Nat.add_comm, Nat.mul_comm. by rewrite Nat.Div0.mod_add.
Qed.

(** [i] is an even or an odd child of [Nat.div2 i]. *)
Lemma parity_cases i :
  ∃ k, Nat.div2 i = k ∧
    ((i = 2 * k ∧ Nat.land i 1 = 0 ∧ Nat.lxor i 1 = 2 * k + 1) ∨
     (i = 2 * k + 1 ∧ Nat.land i 1 = 1 ∧ Nat.lxor i 1 = 2 * k))%nat.
Proof.
  destruct (Nat.Even_or_Odd i) as [[k ->]|[k ->]]; exists k.
  - split; [apply Nat.div2_double|]. left. by rewrite land1_even, lxor1_even.
  - split; [rewrite Nat.add_1_r; apply Nat.div2_succ_double|]. right.
    by rewrite land1_odd, lxor1_odd.
Qed.

Section merkle.
Context `{Sha3}.

Definition node_input (l r : hash) : list Z := DS_NODE ++ hash_bytes l ++ hash_bytes r.

Lemma node_hash_input l r : node_hash l r = sha3_256 (node_input l r).
Proof. unfold node_hash, h. cbn [concat]. by rewrite app_nil_r. Qed.

Lemma level_up_even n l :
  length l = (2 * n)%nat →
  ∃ l', level_up l = Some l' ∧ length l' = n ∧
    ∀ k x, l' !! k = Some x ↔ ∃ a b, l !! (2 * k)%nat = Some a ∧
      l !! (2 * k + 1)%nat = Some b ∧ x = node_hash a b.
Proof.
  revert l. induction n as [|n IH]; intros l Hl.
  { destruct l; [|done]. exists []. split_and!; [done..|]. naive_solver. }
  destruct l as [|a [|b l]]; [simpl in Hl; lia..|].
  destruct (IH l) as (l' & Hup & Hlen & Hk); [simpl in Hl; lia|].
  exists (node_hash a b :: l'). simpl level_up. rewrite Hup. split_and!; [done|simpl; lia|].
  intros [|k] x.
  - simpl. naive_solver.
  - replace (2 * S k)%nat with (S (S (2 * k))) by lia. simpl. rewrite Hk.
    replace (k + (k + 0))%nat with (2 * k)%nat by lia. done.
Qed.

Lemma length_pow2_cons d (l : list hash) :
  length l = (2 ^ S d)%nat → ∃ a b l', l = a :: b :: l'.
Proof.
  intros Hl. pose proof (Nat.pow_nonzero 2 d ltac:(lia)). rewrite Nat.pow_succ_r' in Hl.
  destruct l as [|a [|b l']]; simpl in Hl; [lia..|eauto].
Qed.

Lemma merkle_complete d l i x fuel :
  length l = (2 ^ d)%nat → l !! i = Some x → (d ≤ fuel)%nat →
  ∃ path root, auth_loop fuel l i = Some path ∧ length path = d ∧
    merkle_loop fuel l = Some root ∧ climb x i path = root ∧
    Forall (λ sib, sib ∈ l ∨ ∃ a b, sib = node_hash a b) path.
Proof.
  revert l i x fuel. induction d as [|d IH]; intros l i x fuel Hl Hi Hf.
  - destruct l as [|y [|]]; simplify_eq/=. destruct i as [|i]; simplify_eq/=.
    exists [], x. by destruct fuel.
  - destruct fuel as [|fuel]; [lia|].
    destruct (level_up_even (2 ^ d) l) as (l' & Hup & Hlen & Hk);
      [rewrite Hl, Nat.pow_succ_r'; lia|].
    destruct (parity_cases i) as (k & Hdiv & Hpar).
    pose proof (lookup_lt_Some _ _ _ Hi) as Hlt. rewrite Hl, Nat.pow_succ_r' in Hlt.
    assert (∃ a b sib, l !! (2 * k)%nat = Some a ∧ l !! (2 * k + 1)%nat = Some b ∧
      l !! Nat.lxor i 1 = Some sib ∧ node_hash a b =
      (if Nat.land i 1 =? 0 then node_hash x sib else node_hash sib x)%nat)
      as (a & b & sib & Ha & Hb & Hsib & Hnode).
    { destruct Hpar as [(-> & Hand & Hxor)|(-> & Hand & Hxor)]; rewrite Hand, Hxor.
      - destruct (lookup_lt_is_Some_2 l (2 * k + 1)) as [b Hb];
          [rewrite Hl, Nat.pow_succ_r'; lia|]. by exists x, b, b.
      - destruct (lookup_lt_is_Some_2 l (2 * k)) as [a Ha];
          [rewrite Hl, Nat.pow_succ_r'; lia|]. by exists a, x, a. }
    destruct (IH l' k (node_hash a b) fuel) as (path & root & Hp & Hpl & Hr & Hc & Hall);
      [done|by apply Hk; eauto|lia|].
    exists (sib :: path), root.
    destruct (length_pow2_cons d l Hl) as (y & z & rest & E).
    split_and!.
    + rewrite E in *. cbn [auth_loop]. rewrite Hsib. cbn [mbind option_bind].
      rewrite Hup. cbn [mbind option_bind]. by rewrite Hdiv, Hp.
    + simpl. lia.
    + rewrite E in *. cbn [merkle_loop]. by rewrite Hup.
    + cbn [climb]. by rewrite <-Hnode, Hdiv.
    + constructor; [left; by eapply list_elem_of_lookup_2|].
      eapply Forall_impl; [exact Hall|]. intros s [Hs|Hs]; [|by right].
      apply list_elem_of_lookup in Hs as [j Hj]. apply Hk in Hj as (? & ? & _ & _ & ->). eauto.
Qed.

(** The byte strings hashed while building the tree and while climbing a path. *)
Fixpoint pair_inputs (level : list hash) : list (list Z) :=
  match level with
  | l :: r :: rest => node_input l r :: pair_inputs rest
  | _ => []
  end.

Fixpoint tree_inputs (fuel : nat) (level : list hash) : list (list Z) :=
  match fuel with
  | O => []
  | S fuel => pair_inputs level ++ from_option (tree_inputs fuel) [] (level_up level)
  end.

Fixpoint climb_inputs (node : hash) (i : nat) (path : list hash) : list (list Z) :=
  match path with
  | [] => []
  | sib :: path =>
      let e := (if Nat.land i 1 =? 0 then node_input node sib else node_input sib node)%nat in
      e :: climb_inputs (sha3_256 e) (Nat.div2 i) path
  end.

(** SHA3 maps no two of these strings to one digest. *)
Definition collision_free (xs ys : list (list Z)) : Prop :=
  ∀ x y, x ∈ xs → y ∈ ys → sha3_256 x = sha3_256 y → x = y.

Lemma elem_of_pair_inputs l k a b :
  l !! (2 * k)%nat = Some a → l !! (2 * k + 1)%nat = Some b → node_input a b ∈ pair_inputs l.
Proof.
  revert l. induction k as [|k IH]; intros l Ha Hb.
  { destruct l as [|x [|y l]]; simplify_eq/=. left. }
  replace (2 * S k)%nat with (S (S (2 * k))) in Ha, Hb by lia.
  destruct l as [|x [|y l]]; [done..|]. right. by apply IH.
Qed.

Lemma node_input_inj a b c d :
  is_hash a → is_hash b → is_hash c → is_hash d →
  node_input a b = node_input c d → a = c ∧ b = d.
Proof.
  intros Ha Hb Hc Hd E. unfold node_input in E.
  apply (app_inj_len DS_NODE) in E as [_ E]; [|done].
  apply app_inj_len in E as [E1 E2]; [|by rewrite !length_hash_bytes].
  split; by apply hash_bytes_inj.
Qed.

Lemma merkle_sound d l i node path root fuel :
  (∀ x, is_hash (sha3_256 x)) →
  length l = (2 ^ d)%nat → (i < 2 ^ d)%nat → length path = d → (d ≤ fuel)%nat →
  Forall is_hash l → is_hash node → Forall is_hash path →
  merkle_loop fuel l = Some root → climb node i path = root →
  collision_free (tree_inputs fuel l) (climb_inputs node i path) →
  l !! i = Some node.
Proof.
  intros Hsha. revert l i node path fuel.
  induction d as [|d IH]; intros l i node path fuel Hl Hi Hp Hf Fl Fn Fp Hr Hc Hcf.
  - destruct l as [|y [|]]; simplify_eq/=. assert (i = 0%nat) as -> by lia.
    destruct path; [|done]. destruct fuel; by simplify_eq/=.
  - destruct fuel as [|fuel]; [lia|]. destruct path as [|sib path]; [done|].
    destruct (level_up_even (2 ^ d) l) as (l' & Hup & Hlen & Hk);
      [rewrite Hl, Nat.pow_succ_r'; lia|].
    destruct (parity_cases i) as (k & Hdiv & Hpar). rewrite Nat.pow_succ_r' in Hi, Hl.
    destruct (lookup_lt_is_Some_2 l (2 * k)) as [a Ha]; [lia|].
    destruct (lookup_lt_is_Some_2 l (2 * k + 1)) as [b Hb]; [lia|].
    apply Forall_cons in Fp as [Fs Fp].
    set (e := (if Nat.land i 1 =? 0 then node_input node sib else node_input sib node)%nat).
    assert (climb (sha3_256 e) k path = root) as Hc'.
    { rewrite <-Hc. cbn [climb]. rewrite Hdiv. subst e.
      destruct (_ =? 0)%nat; by rewrite node_hash_input. }
    rewrite Forall_forall in Fl.
    assert (l' !! k = Some (sha3_256 e)) as Hk'.
    { apply (IH l' k (sha3_256 e) path fuel); [done|lia|simpl in Hp; lia|lia| |apply Hsha|done| |done|].
      - apply Forall_forall. intros x (j & Hj)%list_elem_of_lookup.
        apply Hk in Hj as (? & ? & _ & _ & ->). apply Hsha.
      - rewrite <-Hr. destruct (length_pow2_cons d l) as (y & z & rest & ->);
          [rewrite Nat.pow_succ_r'; lia|]. cbn [merkle_loop]. by rewrite Hup.
      - intros x y Hx Hy. apply Hcf.
        + cbn [tree_inputs]. rewrite Hup. apply elem_of_app. by right.
        + cbn [climb_inputs]. rewrite Hdiv. fold e. by right. }
    apply Hk in Hk' as (a' & b' & Ha' & Hb' & Heq).
    rewrite Ha in Ha'. injection Ha' as <-. rewrite Hb in Hb'. injection Hb' as <-.
    rewrite node_hash_input in Heq. symmetry in Heq.
    apply Hcf in Heq; [|cbn [tree_inputs]; apply elem_of_app; left;
      by eapply elem_of_pair_inputs|cbn [climb_inputs]; left].
    assert (is_hash a) by (by eapply Fl, list_elem_of_lookup_2).
    assert (is_hash b) by (by eapply Fl, list_elem_of_lookup_2).
    destruct Hpar as [(-> & Hand & _)|(-> & Hand & _)]; subst e; rewrite Hand in Heq;
      apply node_input_inj in Heq as [? ?]; by subst.
Qed.
End merkle.

(** ** The wire encoding *)

Definition sig_wf (s : KesSignature) : Prop :=
  0 ≤ sig_index s ≤ u32_MAX ∧ Z.of_nat (length (leaf_pk s)) ≤ MAX_LEAF_PK_LEN ∧
  Z.of_nat (length (sig s)) ≤ MAX_LEAF_SIG_LEN ∧ Z.of_nat (length (path s)) ≤ MAX_DEPTH ∧
  Forall is_hash (path s).

Lemma length_path_bytes (p : list hash) : length (p ≫= hash_bytes) = (32 * length p)%nat.
Proof.
  induction p as [|x p IH]; [done|]. rewrite bind_cons, length_app, length_hash_bytes, IH.
  simpl. lia.
Qed.

Lemma take_path_bytes (p : list hash) rest :
  Forall is_hash p → take_path (length p) ((p ≫= hash_bytes) ++ rest) = Some (p, rest).
Proof.
  induction 1 as [|x p Hx _ IH]; [done|]. rewrite bind_cons, <-app_assoc. cbn [length take_path].
  rewrite take_n_app by apply length_hash_bytes. cbn [mbind option_bind]. rewrite IH.
  cbn [mbind option_bind]. by rewrite from_hash_bytes_hash_bytes.
Qed.

Lemma take_path_Some n bytes p rest :
  take_path n bytes = Some (p, rest) → Forall is_byte bytes →
  bytes = (p ≫= hash_bytes) ++ rest ∧ length p = n ∧ Forall is_hash p.
Proof.
  revert bytes p rest. induction n as [|n IH]; intros bytes p rest; cbn [take_path].
  { intros [= <- <-] _. done. }
  intros ([b r] & Hb%take_n_Some & ([p' r'] & Hp & [= <- <-])%bind_Some)%bind_Some Hall.
  destruct Hb as [-> Hlen]. apply Forall_app in Hall as [Hbb Hr].
  destruct (IH r p' r' Hp Hr) as (-> & <- & Hh). rewrite bind_cons, <-app_assoc.
  split_and!; [by rewrite hash_bytes_from_hash_bytes|done|].
  constructor; [by apply from_hash_bytes_range|done].
Qed.

Lemma length_encode s :
  Z.of_nat (length (encode s)) =
    17 + Z.of_nat (length (leaf_pk s)) + Z.of_nat (length (sig s)) + 32 * Z.of_nat (length (path s)).
Proof.
  unfold encode. rewrite !length_app, !length_le_bytes, length_path_bytes. simpl. lia.
Qed.

Lemma decode_encode s : sig_wf s → decode (encode s) = Some s.
Proof.
  intros (Hi & Hpk & Hsg & Hd & Hh). pose proof (length_encode s) as Hlen.
  unfold decode. rewrite (proj2 (Z.ltb_ge _ _))
    by (unfold MAX_SIGNATURE_LEN, MAX_DEPTH, MAX_LEAF_SIG_LEN, MAX_LEAF_PK_LEN in *; lia).
  unfold encode. rewrite take_app_length' by done. rewrite bool_decide_true by done.
  cbn [orb negb]. rewrite drop_app_length' by done.
  rewrite take_n_app by apply length_le_bytes. cbn [mbind option_bind].
  rewrite take_n_app by apply length_le_bytes. cbn [mbind option_bind].
  rewrite !from_le_bytes_le_bytes
    by (unfold u32_MAX, MAX_LEAF_PK_LEN in *; lia).
  rewrite (proj2 (Z.ltb_ge _ _)), Nat2Z.id by done.
  rewrite take_n_app by done. cbn [mbind option_bind].
  rewrite take_n_app by apply length_le_bytes. cbn [mbind option_bind].
  rewrite !from_le_bytes_le_bytes
    by (unfold MAX_LEAF_SIG_LEN, HYBRID_SIGNATURE_MAX in *; lia).
  rewrite (proj2 (Z.ltb_ge _ _)), Nat2Z.id by done.
  rewrite take_n_app by done. cbn [mbind option_bind].
  rewrite (take_n_app 1) by done. cbn [mbind option_bind from_le_bytes].
  unfold MAX_DEPTH in Hd. rewrite Z.mul_0_r, Z.add_0_r, Z.mod_small by lia.
  rewrite (proj2 (Z.ltb_ge _ _)), Nat2Z.id by done.
  pose proof (take_path_bytes (path s) [] Hh) as Htp. rewrite app_nil_r in Htp.
  rewrite Htp. cbn [mbind option_bind]. rewrite bool_decide_true by done. by destruct s.
Qed.

(** An accepted byte string is the encoding of what it decodes to. *)
Lemma encode_decode bytes s :
  Forall is_byte bytes → decode bytes = Some s → encode s = bytes ∧ sig_wf s.
Proof.
  intros Hall. unfold decode. case_goal; [done|]. boolp.
  assert (bytes = SIGNATURE_MAGIC ++ drop 4 bytes) as Hb by (by rewrite <-H0, take_drop).
  apply (Forall_drop _ 4) in Hall. revert Hb Hall. clear.
  generalize (drop 4 bytes) as rest. intros rest -> Hall.
  intros ([b1 r1] & [-> L1]%take_n_Some & Hd)%bind_Some.
  apply Forall_app in Hall as [B1 Hall].
  apply bind_Some in Hd as ([b2 r2] & [-> L2]%take_n_Some & Hd).
  apply Forall_app in Hall as [B2 Hall].
  destruct (Z.ltb_spec MAX_LEAF_PK_LEN (from_le_bytes b2)) as [|Hpk]; [done|].
  apply bind_Some in Hd as ([pk r3] & [-> L3]%take_n_Some & Hd).
  apply Forall_app in Hall as [_ Hall].
  apply bind_Some in Hd as ([b4 r4] & [-> L4]%take_n_Some & Hd).
  apply Forall_app in Hall as [B4 Hall].
  destruct (Z.ltb_spec MAX_LEAF_SIG_LEN (from_le_bytes b4)) as [|Hsg]; [done|].
  apply bind_Some in Hd as ([sg r5] & [-> L5]%take_n_Some & Hd).
  apply Forall_app in Hall as [_ Hall].
  apply bind_Some in Hd as ([b6 r6] & [-> L6]%take_n_Some & Hd).
  apply Forall_app in Hall as [B6 Hall].
  destruct (Z.ltb_spec MAX_DEPTH (from_le_bytes b6)) as [|Hdp]; [done|].
  apply bind_Some in Hd as ([p r7] & (-> & L7 & Hh)%take_path_Some & Hd); [|done].
  case_bool_decide as Hr; [|done]. injection Hd as <-. subst r7. rewrite app_nil_r.
  pose proof (from_le_bytes_range b1 B1). pose proof (from_le_bytes_range b2 B2).
  pose proof (from_le_bytes_range b4 B4). pose proof (from_le_bytes_range b6 B6).
  unfold encode, sig_wf. simpl sig_index. simpl leaf_pk. simpl sig. simpl path.
  rewrite L3, L5, L7, !Z2Nat.id by lia. rewrite !le_bytes_from_le_bytes by done.
  split.
  - do 7 f_equal. destruct b6 as [|x [|]]; [done| |done]. simpl in *.
    apply Forall_cons in B6 as [B6 _]. unfold is_byte in B6.
    rewrite Z.mul_0_r, Z.add_0_r, Z.mod_small by lia. done.
  - rewrite L1 in *. unfold u32_MAX. split_and!; [lia..|done].
Qed.

(** ** Theorems *)

Section theorems.
Context `{Sha3}.

(** The tree of the leaf keys [pks] is the one [k] commits to. *)
Definition tree_of (k : KesPublic) (pks : list (list Z)) : Prop :=
  MIN_DEPTH ≤ depth k ≤ MAX_DEPTH ∧ length pks = (2 ^ Z.to_nat (depth k))%nat ∧
  merkle_root (leaf_hash <$> pks) = Some (kes_root k).

Lemma periods_pow k :
  MIN_DEPTH ≤ depth k ≤ MAX_DEPTH → periods k = Z.of_nat (2 ^ Z.to_nat (depth k)).
Proof.
  unfold MIN_DEPTH, periods. intros Hd. rewrite Z.min_l, Z.shiftl_1_l by lia.
  rewrite Nat2Z.inj_pow, Z2Nat.id by lia. done.
Qed.

Lemma leaf_index_Some k period leaf :
  MIN_DEPTH ≤ depth k ≤ MAX_DEPTH →
  leaf_index k period = Some leaf ↔
    leaf = period - start_period k ∧ 0 ≤ leaf < Z.of_nat (2 ^ Z.to_nat (depth k)).
Proof.
  intros Hd. unfold leaf_index. rewrite periods_pow by done.
  rewrite (proj2 (Z.leb_le _ _)), (proj2 (Z.leb_le _ _)) by lia. simpl.
  unfold checked_sub. destruct (Z.leb_spec (start_period k) period); simpl; [|naive_solver lia].
  case_goal; boolp; naive_solver lia.
Qed.

Lemma pow2_fuel d n : n = (2 ^ d)%nat → (d ≤ n)%nat.
Proof. intros ->. pose proof (Nat.pow_gt_lin_r 2 d). lia. Qed.

(** C20: an honest signature verifies.  For a key that commits to the leaf keys
    [pks], the signature of period [start_period + i] made of the [i]-th leaf key,
    its authentication path and a leaf signature is accepted, once encoded,
    exactly when the leaf signature verifies under that leaf key.  The leaf key and its
    signature are within the lengths the decoder allows. *)
Theorem kes_sign_verify v k pks (i : nat) pk sg message :
  (∀ x, is_hash (sha3_256 x)) → tree_of k pks → pks !! i = Some pk →
  Z.of_nat (length pk) ≤ MAX_LEAF_PK_LEN → Z.of_nat (length sg) ≤ MAX_LEAF_SIG_LEN →
  ∃ p, auth_path (leaf_hash <$> pks) i = Some p ∧
    verify v k (start_period k + Z.of_nat i) message
      (encode (mkKesSig (Z.of_nat i) pk sg p)) = verify_kes_leaf v pk message sg.
Proof.
  intros Hsha (Hd & Hlen & Hroot) Hi Hpk Hsg.
  destruct (merkle_complete (Z.to_nat (depth k)) (leaf_hash <$> pks) i (leaf_hash pk)
    (length (leaf_hash <$> pks))) as (p & r & Hp & Hpl & Hr & Hc & Hall);
    [by rewrite length_fmap|by rewrite list_lookup_fmap, Hi|by rewrite length_fmap; apply pow2_fuel|].
  exists p. split; [exact Hp|]. unfold merkle_root in Hroot. rewrite Hr in Hroot.
  injection Hroot as Hroot. apply lookup_lt_Some in Hi. unfold verify.
  assert (depth k ≤ 16 ∧ 1 ≤ depth k) as [Hd16 Hd1] by (unfold MIN_DEPTH, MAX_DEPTH in Hd; lia).
  rewrite (proj2 (leaf_index_Some k _ (Z.of_nat i) Hd)) by lia.
  rewrite decode_encode.
  - simpl sig_index. simpl path. simpl leaf_pk. simpl sig. rewrite Z.eqb_refl, Hpl.
    rewrite Z2Nat.id, Z.eqb_refl by lia. cbn [negb orb]. rewrite Nat2Z.id, Hc, Hroot.
    by rewrite Z.eqb_refl.
  - split_and!; simpl; [lia| |done|done|rewrite Hpl; unfold MAX_DEPTH; lia|].
    + rewrite Hlen in Hi. apply Nat2Z.inj_lt in Hi. rewrite Nat2Z.inj_pow, Z2Nat.id in Hi by lia.
      pose proof (Z.pow_le_mono_r 2 (depth k) 16 ltac:(lia) Hd16). unfold u32_MAX. lia.
    + eapply Forall_impl; [exact Hall|]. intros x [Hx|(a & b & ->)].
      * apply list_elem_of_fmap in Hx as (q & -> & _). apply Hsha.
      * apply Hsha.
Qed.

(** Forward security of the key tree.  A signature accepted for a period was
    made with exactly the leaf key the tree commits to for that period: an
    accepted signature decodes, its leaf key is the one at position
    [period - start_period], and the leaf signature verifies under it, unless
    SHA3 collides between the strings hashed in the tree and on the path. *)
Theorem kes_leaf_binding v k pks period message signature s :
  (∀ x, is_hash (sha3_256 x)) → tree_of k pks → Forall is_byte signature →
  decode signature = Some s →
  collision_free (tree_inputs (length pks) (leaf_hash <$> pks))
    (climb_inputs (leaf_hash (leaf_pk s)) (Z.to_nat (sig_index s)) (path s)) →
  (∀ pk, pk ∈ pks → leaf_hash pk = leaf_hash (leaf_pk s) → pk = leaf_pk s) →
  verify v k period message signature = true →
  start_period k ≤ period ∧
  pks !! Z.to_nat (period - start_period k) = Some (leaf_pk s) ∧
  verify_kes_leaf v (leaf_pk s) message (sig s) = true.
Proof.
  intros Hsha (Hd & Hlen & Hroot) Hbytes Hdec Hcf Hleaf. unfold verify. rewrite Hdec.
  destruct (leaf_index k period) as [leaf|] eqn:Hl; [|done].
  apply leaf_index_Some in Hl as [-> Hlt]; [|done]. case_goal; [done|]. boolp.
  intros [Hc%Z.eqb_eq Hv]%andb_true_iff. split_and!; [lia| |done].
  destruct (encode_decode signature s Hbytes Hdec) as (_ & _ & _ & _ & _ & Hh).
  assert (sig_index s = period - start_period k) as Hidx by lia. rewrite Hidx in Hcf.
  assert ((leaf_hash <$> pks) !! Z.to_nat (period - start_period k) =
    Some (leaf_hash (leaf_pk s))) as Hfound.
  { apply (merkle_sound (Z.to_nat (depth k)) _ _ _ (path s) (kes_root k) (length pks));
      [done|by rewrite length_fmap|lia|lia|by apply pow2_fuel| |apply Hsha|done| |done|done].
    - apply Forall_fmap, Forall_true. intros q. apply Hsha.
    - rewrite <-Hroot. unfold merkle_root. by rewrite length_fmap. }
  rewrite list_lookup_fmap in Hfound. apply fmap_Some in Hfound as (pk & Hpk & Heq).
  rewrite Hpk. f_equal. apply Hleaf; [by eapply list_elem_of_lookup_2|done].
Qed.

Lemma find_retired_app l r period :
  find_retired (l ++ [r]) period =
    if covers r period then Some (public r) else find_retired l period.
Proof.
  unfold find_retired. rewrite reverse_snoc. cbn [list_find].
  destruct (decide (covers r period = true)) as [E|E].
  - by rewrite E.
  - rewrite (not_true_is_false _ E). by destruct (list_find _ (reverse l)) as [[? ?]|].
Qed.

(** Pruning forgets nothing that covers a period within the kept history. *)
Lemma find_retired_prune l keep_from period :
  keep_from ≤ period →
  find_retired (filter (λ r, keep_from < retired_end r) l) period = find_retired l period.
Proof.
  intros Hk. induction l as [|r l IH] using rev_ind; [done|].
  rewrite filter_app, filter_cons, filter_nil. destruct (decide (keep_from < retired_end r)).
  - by rewrite !find_retired_app, IH.
  - rewrite app_nil_r, find_retired_app, IH. unfold covers.
    rewrite (proj2 (Z.ltb_ge _ _)), andb_false_r by lia. done.
Qed.

(** The key in force can change only where no key signs. *)
Lemma settled_in_force_cases e period q :
  period - KES_KEY_HISTORY_PERIODS ≤ q → 0 ≤ q →
  in_force (settled e period) q = in_force e q ∨
  (leaf_index (in_force (settled e period) q) q = None ∧ leaf_index (in_force e q) q = None).
Proof.
  intros Hq Hq0. unfold settled, in_force, prune.
  assert (saturating_sub period KES_KEY_HISTORY_PERIODS ≤ q) by (unfold saturating_sub; lia).
  assert (∀ k, q < start_period k → leaf_index k q = None) as Hnone.
  { intros k Hk. unfold leaf_index, checked_sub. rewrite (proj2 (Z.leb_gt (start_period k) q)) by done.
    by destruct (negb _). }
  destruct (next e) as [n|] eqn:En; [case_goal; boolp|]; simpl; rewrite ?En;
    rewrite find_retired_prune by done; try by left.
  rewrite find_retired_app. unfold covers. simpl.
  destruct (Z.leb_spec (start_period n) q); [by left|].
  destruct (Z.leb_spec (start_period (current e)) q); simpl.
  - rewrite (proj2 (Z.ltb_lt _ _)) by lia. by left.
  - destruct (find_retired (retired e) q); simpl; [by left|]. right. auto.
Qed.

(** Promoting a successor key rewrites no history.  Settling an entry at
    [period] and pruning its retired keys leaves every verification unchanged for
    the periods of the last [KES_KEY_HISTORY_PERIODS] and all later ones; where
    the key in force can sign the period at all, it is the same key. *)
Theorem settled_in_force e period q :
  period - KES_KEY_HISTORY_PERIODS ≤ q → 0 ≤ q →
  (∀ v message signature, verify v (in_force (settled e period) q) q message signature =
     verify v (in_force e q) q message signature) ∧
  (is_Some (leaf_index (in_force e q) q) → in_force (settled e period) q = in_force e q).
Proof.
  intros Hq Hq0. destruct (settled_in_force_cases e period q Hq Hq0) as [->|[E1 E2]].
  - done.
  - unfold verify. rewrite E1, E2. split; [done|]. by intros [? ?].
Qed.
End theorems.

(** ** A concrete tree *)

(** A stand-in digest: the bytes as a number, reduced below [2 ^ 256]. *)
Definition ex_sha3 : Sha3 := λ l, from_le_bytes (l ++ [1]) mod (2 ^ 256 - 189).

Lemma ex_sha3_hash x : is_hash (sha3_256 (Sha3 := ex_sha3) x).
Proof.
  unfold is_hash, sha3_256, ex_sha3.
  pose proof (Z.mod_pos_bound (from_le_bytes (x ++ [1])) (2 ^ 256 - 189) ltac:(lia)).
  change (256 ^ 32) with (2 ^ 256). lia.
Qed.

Definition ex_pks : list (list Z) := [[1]; [2]].
Definition ex_kes : KesPublic :=
  mkKesPublic 1 (default 0 (merkle_root (H := ex_sha3) (leaf_hash (H := ex_sha3) <$> ex_pks))) 7.
Definition ex_sig : KesSignature :=
  mkKesSig 1 [2] [9; 9]
    (default [] (auth_path (H := ex_sha3) (leaf_hash (H := ex_sha3) <$> ex_pks) 1)).
Definition ex_verifier : SignatureVerifier :=
  default_verifier (λ pk _ sg, bool_decide (pk = [2] ∧ sg = [9; 9])) (λ _ _ _ _, false).

Lemma ex_tree_of : tree_of (H := ex_sha3) ex_kes ex_pks.
Proof. split_and!; [done..|vm_compute; reflexivity]. Qed.

Lemma kes_sign_verify_witness :
  ∃ p, auth_path (H := ex_sha3) (leaf_hash (H := ex_sha3) <$> ex_pks) 1 = Some p ∧
    verify (H := ex_sha3) ex_verifier ex_kes 8 0 (encode (mkKesSig 1 [2] [9; 9] p)) = true.
Proof.
  destruct (kes_sign_verify (H := ex_sha3) ex_verifier ex_kes ex_pks 1 [2] [9; 9] 0)
    as (p & Hp & Hv); [apply ex_sha3_hash|apply ex_tree_of|done..|].
  exists p. split; [exact Hp|]. exact Hv.
Defined.

Lemma kes_leaf_binding_witness : ex_pks !! 1%nat = Some [2].
Proof.
  apply (kes_leaf_binding (H := ex_sha3) ex_verifier ex_kes ex_pks 8 0 (encode ex_sig) ex_sig).
  - apply ex_sha3_hash.
  - apply ex_tree_of.
  - apply (Forall_impl (λ b, 0 ≤ b < 256)); [|done].
    apply (bool_decide_unpack _). vm_compute. exact I.
  - vm_compute. reflexivity.
  - intros x y Hx Hy _. revert x y Hx Hy. vm_compute tree_inputs. vm_compute climb_inputs.
    intros x y Hx%list_elem_of_singleton Hy%list_elem_of_singleton. by subst.
  - intros pk [->|Hpk%list_elem_of_singleton]%elem_of_cons; [vm_compute; congruence|].
    by subst.
  - vm_compute. reflexivity.
Defined.

Lemma settled_in_force_witness :
  in_force (settled (mkEntry ex_kes (Some (mkKesPublic 1 5 9)) []) 20) 8 = ex_kes.
Proof.
  apply (settled_in_force (H := ex_sha3) (mkEntry ex_kes (Some (mkKesPublic 1 5 9)) []) 20 8);
    [unfold KES_KEY_HISTORY_PERIODS; lia|lia|]. vm_compute. eauto.
Defined.

End Kes.
