(* ===== verification/Header.v ===== *)
(** * Block headers and their identity

    Models [crates/bloch-pos-committee/src/header.rs]: the 304-byte canonical
    encoding of a header, its decoder, the block identity and the proposal
    signing roots.  SHA3-256 is a parameter. *)

From S2P Require Import Prelude Bytes.
Local Open Scope Z_scope.

Module Header.
Import Bytes.

Definition VERSION_G4 : Z := 2970353669.

Record BlockHeaderV4 := mkHeader {
  version : Z;
  parent : hash;
  state_root : hash;
  body_root : hash;
  slot : Z;
  proposer_index : Z;
  randao_reveal : hash;
  randao_mix : hash;
  justified_root : hash;
  finalized_root : hash;
  attestation_root : hash;
  coherence_root : hash;
}.

Global Instance BlockHeaderV4_eq_dec : EqDecision BlockHeaderV4.
Proof. solve_decision. Defined.

Definition ENCODED_LEN : nat := 304.

Definition canonical_serialize (h : BlockHeaderV4) : list Z :=
  le_bytes 4 (version h) ++ hash_bytes (parent h) ++ hash_bytes (state_root h)
  ++ hash_bytes (body_root h) ++ le_bytes 8 (slot h) ++ le_bytes 4 (proposer_index h)
  ++ hash_bytes (randao_reveal h) ++ hash_bytes (randao_mix h) ++ hash_bytes (justified_root h)
  ++ hash_bytes (finalized_root h) ++ hash_bytes (attestation_root h)
  ++ hash_bytes (coherence_root h).

Inductive DecodeError := WrongLength (got : nat).

Definition canonical_deserialize (bytes : list Z) : result DecodeError BlockHeaderV4 :=
  if negb (length bytes =? ENCODED_LEN)%nat then Err (WrongLength (length bytes))
  else
    let arr a b := from_hash_bytes (slice a b bytes) in
    Ok {| version := from_le_bytes (slice 0 4 bytes);
          parent := arr 4%nat 36%nat;
          state_root := arr 36%nat 68%nat;
          body_root := arr 68%nat 100%nat;
          slot := from_le_bytes (slice 100 108 bytes);
          proposer_index := from_le_bytes (slice 108 112 bytes);
          randao_reveal := arr 112%nat 144%nat;
          randao_mix := arr 144%nat 176%nat;
          justified_root := arr 176%nat 208%nat;
          finalized_root := arr 208%nat 240%nat;
          attestation_root := arr 240%nat 272%nat;
          coherence_root := arr 272%nat 304%nat |}.

Section hashes.
Context `{Sha3}.

(** [BlockId::of]. *)
Definition block_id (h : BlockHeaderV4) : hash := sha3_256 (DS_BLOCK ++ canonical_serialize h).

Definition proposal_signing_root (h : BlockHeaderV4) : hash :=
  sha3_256 (DS_PROPOSE ++ canonical_serialize h).

Definition network_bound_proposal_signing_root (h : BlockHeaderV4) (domain : hash) : hash :=
  sha3_256 (DS_NETSIG2 ++ hash_bytes domain ++ hash_bytes (proposal_signing_root h)).
End hashes.

(** Every field in its width. *)
Definition header_wf (h : BlockHeaderV4) : Prop :=
  0 ≤ version h ≤ u32_MAX ∧ 0 ≤ slot h ≤ u64_MAX ∧ 0 ≤ proposer_index h ≤ u32_MAX ∧
  is_hash (parent h) ∧ is_hash (state_root h) ∧ is_hash (body_root h) ∧
  is_hash (randao_reveal h) ∧ is_hash (randao_mix h) ∧ is_hash (justified_root h) ∧
  is_hash (finalized_root h) ∧ is_hash (attestation_root h) ∧ is_hash (coherence_root h).

(** ** The codec *)

Lemma length_serialize h : length (canonical_serialize h) = ENCODED_LEN.
Proof.
  unfold canonical_serialize. by rewrite !length_app, !length_le_bytes, !length_hash_bytes.
Qed.

Lemma deserialize_serialize h :
  header_wf h → canonical_deserialize (canonical_serialize h) = Ok h.
Proof.
  intros (Hv & Hs & Hp & Hh). unfold canonical_deserialize. rewrite length_serialize.
  cbn [negb Nat.eqb ENCODED_LEN].
  destruct h as [v a b c s p d e f g i j]. cbn in Hv, Hs, Hp, Hh.
  unfold canonical_serialize. cbn [version parent state_root body_root slot proposer_index
    randao_reveal randao_mix justified_root finalized_root attestation_root coherence_root].
  do 2 f_equal; read_field;
    try (apply from_le_bytes_le_bytes; unfold u32_MAX, u64_MAX in *; lia);
    try (apply from_hash_bytes_hash_bytes; tauto).
Qed.

Lemma serialize_deserialize bytes h :
  Forall is_byte bytes → canonical_deserialize bytes = Ok h → canonical_serialize h = bytes.
Proof.
  intros Hb. unfold canonical_deserialize. destruct (Nat.eqb_spec (length bytes) ENCODED_LEN)
    as [Hl|]; simpl; [|done]. unfold ENCODED_LEN in Hl. intros [= <-].
  unfold canonical_serialize. cbn [version parent state_root body_root slot proposer_index
    randao_reveal randao_mix justified_root finalized_root attestation_root coherence_root].
  rewrite !le_bytes_from_le_bytes, !hash_bytes_from_hash_bytes
    by (done || by apply slice_bytes || (rewrite length_slice; lia)).
  rewrite !slice_app by lia. unfold slice. rewrite drop_0. apply take_ge. lia.
Qed.

Lemma deserialize_wf bytes h :
  Forall is_byte bytes → canonical_deserialize bytes = Ok h → header_wf h.
Proof.
  intros Hb. unfold canonical_deserialize. destruct (Nat.eqb_spec (length bytes) ENCODED_LEN)
    as [Hl|]; simpl; [|done]. unfold ENCODED_LEN in Hl. intros [= <-].
  assert (∀ a b, (a ≤ b ≤ 304)%nat → 0 ≤ from_le_bytes (slice a b bytes) < 256 ^ Z.of_nat (b - a)) as Hi.
  { intros a b ?. rewrite <- (length_slice a b bytes) by lia. by apply from_le_bytes_range, slice_bytes. }
  assert (∀ a, (a + 32 ≤ 304)%nat → is_hash (from_hash_bytes (slice a (a + 32) bytes))) as Hh.
  { intros a ?. apply from_hash_bytes_range; [by apply slice_bytes|rewrite length_slice; lia]. }
  pose proof (Hi 0%nat 4%nat ltac:(lia)) as H4. pose proof (Hi 100%nat 108%nat ltac:(lia)) as H8.
  pose proof (Hi 108%nat 112%nat ltac:(lia)) as H4'.
  change (256 ^ Z.of_nat (4 - 0)) with (2 ^ 32) in H4. change (256 ^ Z.of_nat (108 - 100)) with (2 ^ 64) in H8.
  change (256 ^ Z.of_nat (112 - 108)) with (2 ^ 32) in H4'.
  unfold header_wf, u32_MAX, u64_MAX. cbn -[slice from_le_bytes from_hash_bytes is_hash Z.pow].
  split; [lia|]. split; [lia|]. split; [lia|].
  split; [apply (Hh 4%nat); lia|]. split; [apply (Hh 36%nat); lia|]. split; [apply (Hh 68%nat); lia|].
  split; [apply (Hh 112%nat); lia|]. split; [apply (Hh 144%nat); lia|]. split; [apply (Hh 176%nat); lia|].
  split; [apply (Hh 208%nat); lia|]. split; [apply (Hh 240%nat); lia|]. apply (Hh 272%nat). lia.
Qed.

(** ** Theorems *)

(** The header encoding is canonical: 304 bytes, decoding inverts encoding on
    every well-formed header, every byte string the decoder accepts is the
    encoding of its result, and any other length is refused with its length. *)
Theorem header_codec :
  (∀ h, header_wf h → length (canonical_serialize h) = ENCODED_LEN ∧
     canonical_deserialize (canonical_serialize h) = Ok h) ∧
  (∀ bytes h, Forall is_byte bytes → canonical_deserialize bytes = Ok h →
     canonical_serialize h = bytes) ∧
  (∀ bytes, length bytes ≠ ENCODED_LEN →
     canonical_deserialize bytes = Err (WrongLength (length bytes))).
Proof.
  split_and!.
  - intros h Hh. split; [apply length_serialize|by apply deserialize_serialize].
  - apply serialize_deserialize.
  - intros bytes Hl. unfold canonical_deserialize. by rewrite (proj2 (Nat.eqb_neq _ _)).
Qed.

Lemma serialize_inj h h' :
  header_wf h → header_wf h' → canonical_serialize h = canonical_serialize h' → h = h'.
Proof.
  intros Hh Hh' E. apply deserialize_serialize in Hh, Hh'. rewrite E, Hh' in Hh. congruence.
Qed.

Definition ex_header : BlockHeaderV4 := mkHeader VERSION_G4 1 2 3 64 5 6 7 8 9 10 11.

Lemma header_codec_witness :
  canonical_deserialize (canonical_serialize ex_header) = Ok ex_header.
Proof.
  apply (proj1 header_codec ex_header). repeat split; vm_compute; congruence.
Defined.

End Header.
