(* ===== verification/Attestation.v ===== *)
(** * Attestations: signing roots and validation

    Models [crates/bloch-pos-committee/src/attestation.rs] (the traits are in
    [Signatures], the data and slashing predicates in [Types]). *)

From S2P Require Import Prelude Bytes Params Types Signatures Kes.
Local Open Scope Z_scope.

Module Attestation.
Import Bytes Params Types Signatures.

Inductive RejectReason :=
| NotInCommittee | BadSignature | UnknownValidator | FutureSlot | NonMonotonicCheckpoints.

Section hashes.
Context `{Sha3}.

Definition attestation_bytes (d : AttestationData) : list Z :=
  DS_ATTEST ++ le_bytes 8 (slot d) ++ hash_bytes (head d) ++ le_bytes 8 (source_epoch d)
  ++ hash_bytes (source_root d) ++ le_bytes 8 (target_epoch d) ++ hash_bytes (target_root d).

Definition signing_root (d : AttestationData) : hash := sha3_256 (attestation_bytes d).

Definition network_bound_signing_root (d : AttestationData) (domain : hash) : hash :=
  sha3_256 (DS_NETSIG2 ++ hash_bytes domain ++ hash_bytes (signing_root d)).

Context {G : Gates}.

Definition validate (att : Attestation) (committee : list Z) (current_slot : Z)
    (verifier : SignatureVerifier) (keys : KeyLookup) : result RejectReason unit :=
  if negb (binary_search committee (att_validator att)) then Err NotInCommittee
  else if current_slot <? slot (att_data att) then Err FutureSlot
  else if target_epoch (att_data att) <=? source_epoch (att_data att) then
    Err NonMonotonicCheckpoints
  else
    match Kes.verify_validator keys verifier (att_validator att) (target_epoch (att_data att))
            (signing_root (att_data att)) (att_signature att) with
    | None => Err UnknownValidator
    | Some valid => if negb valid then Err BadSignature else Ok tt
    end.

(** Every field in its width. *)
Definition data_wf (d : AttestationData) : Prop :=
  0 ≤ slot d ≤ u64_MAX ∧ 0 ≤ source_epoch d ≤ u64_MAX ∧ 0 ≤ target_epoch d ≤ u64_MAX ∧
  is_hash (head d) ∧ is_hash (source_root d) ∧ is_hash (target_root d).

Lemma attestation_bytes_inj a b :
  data_wf a → data_wf b → attestation_bytes a = attestation_bytes b → a = b.
Proof.
  intros (? & ? & ? & ? & ? & ?) (? & ? & ? & ? & ? & ?) E. unfold attestation_bytes in E.
  apply (app_inj_len DS_ATTEST) in E as [_ E]; [|done].
  repeat (apply app_inj_len in E as [?E E]; [|by rewrite ?length_le_bytes, ?length_hash_bytes]).
  destruct a, b. unfold u64_MAX in *. simpl in *.
  f_equal; first [by apply hash_bytes_inj | apply (le_bytes_inj 8); done || lia].
Qed.

(** What a signed attestation fixes.  Two well-formed payloads whose encodings
    SHA3 does not collide on have the same signing root only if they are the same
    payload; and an attestation passes validation exactly when its validator is
    in the (sorted) committee, its slot has come, its checkpoints are in order and
    its signature verifies for the target epoch over that root. *)
Theorem attestation_binding a b att committee current_slot verifier keys :
  data_wf a → data_wf b →
  (sha3_256 (attestation_bytes a) = sha3_256 (attestation_bytes b) →
   attestation_bytes a = attestation_bytes b) →
  StronglySorted Z.lt committee →
  (signing_root a = signing_root b → a = b) ∧
  (validate att committee current_slot verifier keys = Ok tt ↔
     att_validator att ∈ committee ∧ slot (att_data att) ≤ current_slot ∧
     source_epoch (att_data att) < target_epoch (att_data att) ∧
     Kes.verify_validator keys verifier (att_validator att) (target_epoch (att_data att))
       (signing_root (att_data att)) (att_signature att) = Some true).
Proof.
  intros Ha Hb Hcol Hs. split; [intros E; apply attestation_bytes_inj; auto|].
  unfold validate. rewrite binary_search_sorted by done. case_bool_decide; simpl; [|naive_solver].
  destruct (Z.ltb_spec current_slot (slot (att_data att))); [naive_solver lia|].
  destruct (Z.leb_spec (target_epoch (att_data att)) (source_epoch (att_data att)));
    [naive_solver lia|].
  destruct (Kes.verify_validator _ _ _ _ _ _) as [[]|]; naive_solver.
Qed.
End hashes.

Definition ex_data : AttestationData := mkAttData 64 1 0 2 2 3.

Lemma attestation_binding_witness :
  let att := mkAttestation ex_data 4 [9] in
  let v := default_verifier (λ _ _ _, true) (λ _ _ _ _, false) in
  validate (H := Kes.ex_sha3) (G := mainnet) att [1; 4; 7] 64 v (static_lookup (λ _, Some [1])) = Ok tt.
Proof.
  apply (attestation_binding (H := Kes.ex_sha3) (G := mainnet) ex_data ex_data).
  1,2: repeat split; vm_compute; congruence.
  - done.
  - repeat constructor; lia.
  - split_and!; [set_solver|simpl; lia|simpl; lia|vm_compute; reflexivity].
Defined.

End Attestation.
