(* ===== verification/Delegation.v ===== *)
(** * Delegated stake: activation queue, churn and caps

    Models [crates/bloch-pos-committee/src/delegation.rs].  [resolve] replays the
    activation and release loops epoch by epoch from the list of delegations.

    The release profile checks arithmetic, so every [+], [-] and [*] of the loops
    is the checked operation of [Prelude], and [None] stands for the panic;
    [resolve_conservation] shows it does not happen for amounts within the
    supply.  [active] is a vector sorted by validator that the code searches with
    [binary_search_by_key]; the model walks the sorted list. *)

From S2P Require Import Prelude Types.
Local Open Scope Z_scope.

Module Delegation.
Import Types.

Definition SAT_PER_BLOCH : Z := 100000000.
Definition WARMUP_RATE_BPS : Z := 25.
Definition MIN_DELEGATION_SAT : Z := 10 * SAT_PER_BLOCH.
Definition MIN_CHURN_SAT : Z := 500000 * SAT_PER_BLOCH.
Definition MAX_VALIDATOR_STAKE_BPS : Z := 100.
Definition CAP_FIXPOINT_ROUNDS : nat := 32.
Definition COOLDOWN_EPOCHS : Z := 32.

Record Delegation := mkDelegation {
  delegator : Z;
  validator : Z;
  amount_sat : Z;
  requested_epoch : Z;
  deactivate_epoch : option Z;
  eligible : bool;
}.
Global Instance Delegation_eta : Eta Delegation := λ d,
  mkDelegation (delegator d) (validator d) (amount_sat d) (requested_epoch d) (deactivate_epoch d) (eligible d).

Definition queue_key (d : Delegation) : Z * Z * Z * Z :=
  (requested_epoch d, validator d, delegator d, amount_sat d).

(** The derived order of the key tuples. *)
Definition key_leb (k k' : Z * Z * Z * Z) : bool :=
  let '(a, b, c, d) := k in
  let '(a', b', c', d') := k' in
  (a <? a') || ((a =? a') && ((b <? b') || ((b =? b') && ((c <? c') || ((c =? c') && (d <=? d')))))).

Inductive StakeState := Activating | Active | Deactivating | Inactive.
Global Instance StakeState_eq_dec : EqDecision StakeState.
Proof. solve_decision. Defined.

Record Registry := mkRegistry {
  reg_epoch : Z;
  stakes : list (Z * Z);
  total_active : Z;
  admitted : list (Z * Z * Z * Z);
  activated : list (Z * Z * Z * Z * Z);
}.

(** ** Caps over a list of stakes *)

Definition div_or_zero (value divisor : Z) : Z := default 0 (checked_div value divisor).

Definition saturating_sum (l : list Z) : Z := foldl (saturating_add u128_MAX) 0 l.

Definition cap_to (cap s : Z) : Z := if cap <? s then cap else s.

Definition next_cap (stakes : list Z) (cap : Z) : Z :=
  div_or_zero
    (saturating_mul u128_MAX (saturating_sum (cap_to cap <$> stakes)) MAX_VALIDATOR_STAKE_BPS)
    10000.

(** [while round < CAP_FIXPOINT_ROUNDS], with the rounds left. *)
Fixpoint cap_rounds (rounds : nat) (stakes : list Z) (cap : Z) : Z :=
  match rounds with
  | O => cap
  | S rounds =>
      let next := next_cap stakes cap in
      if next =? cap then cap else cap_rounds rounds stakes next
  end.

Definition combined_cap_sat (stakes : list Z) : Z :=
  let n := Z.of_nat (length (filter (λ s, 0 < s) stakes)) in
  if n =? 0 then 0
  else
    let total := saturating_sum stakes in
    let cap := cap_rounds CAP_FIXPOINT_ROUNDS stakes
                 (div_or_zero (saturating_mul u128_MAX total MAX_VALIDATOR_STAKE_BPS) 10000) in
    let floor := div_or_zero total n in
    if cap <? floor then floor else cap.

(** ** The queue *)

(** Stable insertion: [sort_by_key] keeps the order of equal keys. *)
Fixpoint insert_by (d : Delegation) (l : list Delegation) : list Delegation :=
  match l with
  | [] => [d]
  | d' :: l' => if key_leb (queue_key d) (queue_key d') then d :: l else d' :: insert_by d l'
  end.

Definition sort_queue (l : list Delegation) : list Delegation := foldr insert_by [] l.

Definition queue_of (delegations : list Delegation) : list Delegation :=
  sort_queue (filter (λ d, eligible d = true ∧ MIN_DELEGATION_SAT ≤ amount_sat d) delegations).

(** ** The sorted vector of active stake *)

Fixpoint active_get (l : list (Z * Z)) (v : Z) : Z :=
  match l with
  | [] => 0
  | (w, s) :: l => if v =? w then s else active_get l v
  end.

(** [Ok(pos) => active[pos].1 += take, Err(pos) => active.insert(pos, ..)]. *)
Fixpoint active_add (l : list (Z * Z)) (v x : Z) : option (list (Z * Z)) :=
  match l with
  | [] => Some [(v, x)]
  | (w, s) :: l' =>
      if v <? w then Some ((v, x) :: l)
      else if v =? w then s ← add_w u128_MAX s x; Some ((w, s) :: l')
      else l' ← active_add l' v x; Some ((w, s) :: l')
  end.

(** [active[pos].1 -= give], dropping the entry at zero. *)
Fixpoint active_sub (l : list (Z * Z)) (v x : Z) : option (list (Z * Z)) :=
  match l with
  | [] => Some []
  | (w, s) :: l' =>
      if v <? w then Some l
      else if v =? w then
        s ← sub_w s x; if s =? 0 then Some l' else Some ((w, s) :: l')
      else l' ← active_sub l' v x; Some ((w, s) :: l')
  end.

(** ** One epoch *)

(** The queue paired with what each entry has activated. *)
Abbreviation entries := (list (Delegation * Z)) (only parsing).

Definition deactivated_by (d : Delegation) (e : Z) : bool :=
  match deactivate_epoch d with Some de => de <=? e | None => false end.

Fixpoint activate_loop (e budget : Z) (q : entries) (used total : Z) (active : list (Z * Z))
    : option (entries * Z * Z * list (Z * Z)) :=
  match q with
  | [] => Some ([], used, total, active)
  | (d, a) :: q =>
      if (e <? requested_epoch d) || deactivated_by d e then
        '(q, used, total, active) ← activate_loop e budget q used total active;
        Some ((d, a) :: q, used, total, active)
      else
        remaining ← sub_w (amount_sat d) a;
        if (remaining =? 0) || (budget <=? used) then
          '(q, used, total, active) ← activate_loop e budget q used total active;
          Some ((d, a) :: q, used, total, active)
        else
          room ← sub_w budget used;
          let take := Z.min remaining room in
          used ← add_w u128_MAX used take;
          a ← add_w u128_MAX a take;
          total ← add_w u128_MAX total take;
          active ← active_add active (validator d) take;
          '(q, used, total, active) ← activate_loop e budget q used total active;
          Some ((d, a) :: q, used, total, active)
  end.

Fixpoint release_loop (e budget : Z) (q : entries) (released total : Z) (active : list (Z * Z))
    : option (entries * Z * Z * list (Z * Z)) :=
  match q with
  | [] => Some ([], released, total, active)
  | (d, a) :: q =>
      let skip :=
        '(q, released, total, active) ← release_loop e budget q released total active;
        Some ((d, a) :: q, released, total, active) in
      match deactivate_epoch d with
      | None => skip
      | Some de =>
          if (e <? de) || (a =? 0) || (budget <=? released) then skip
          else
            room ← sub_w budget released;
            let give := Z.min a room in
            released ← add_w u128_MAX released give;
            a ← sub_w a give;
            total ← sub_w total give;
            active ← active_sub active (validator d) give;
            '(q, released, total, active) ← release_loop e budget q released total active;
            Some ((d, a) :: q, released, total, active)
      end
  end.

Definition churn_budget (e total : Z) : option Z :=
  if e =? 0 then Some u128_MAX
  else
    x ← mul_w u128_MAX total WARMUP_RATE_BPS;
    let rate := x / 10000 in
    Some (if MIN_CHURN_SAT <? rate then rate else MIN_CHURN_SAT).

Record RState := mkRState { rs_queue : entries; rs_total : Z; rs_active : list (Z * Z) }.

Definition resolve_epoch (st : RState) (e : Z) : option RState :=
  budget ← churn_budget e (rs_total st);
  '(q, _, total, active) ← activate_loop e budget (rs_queue st) 0 (rs_total st) (rs_active st);
  '(q, _, total, active) ← release_loop e budget q 0 total active;
  Some (mkRState q total active).

(** [for e in 0..=epoch], as the list of the epochs. *)
Fixpoint resolve_epochs (st : RState) (es : list Z) : option RState :=
  match es with
  | [] => Some st
  | e :: es => st ← resolve_epoch st e; resolve_epochs st es
  end.

Definition initial (delegations : list Delegation) : RState :=
  mkRState ((λ d, (d, 0)) <$> queue_of delegations) 0 [].

(** The sorted key vectors of the result. *)
Fixpoint insert_key (k : Z * Z * Z * Z) (l : list (Z * Z * Z * Z)) : list (Z * Z * Z * Z) :=
  match l with
  | [] => [k]
  | k' :: l' => if key_leb k k' then k :: l else k' :: insert_key k l'
  end.

Definition activated_leb (x y : Z * Z * Z * Z * Z) : bool :=
  if bool_decide (x.1 = y.1) then x.2 <=? y.2 else key_leb x.1 y.1.

Fixpoint insert_activated (k : Z * Z * Z * Z * Z) (l : list (Z * Z * Z * Z * Z))
    : list (Z * Z * Z * Z * Z) :=
  match l with
  | [] => [k]
  | k' :: l' => if activated_leb k k' then k :: l else k' :: insert_activated k l'
  end.

Definition registry_of (ep : Z) (st : RState) : Registry := {|
  reg_epoch := ep;
  stakes := rs_active st;
  total_active := rs_total st;
  admitted := foldr insert_key []
    (queue_key ∘ fst <$> filter (λ da, da.2 = amount_sat da.1) (rs_queue st));
  activated := foldr insert_activated []
    ((λ da, (queue_key da.1, da.2)) <$> filter (λ da, 0 < da.2) (rs_queue st));
|}.

Definition resolve (delegations : list Delegation) (ep : Z) : option Registry :=
  if bool_decide (queue_of delegations = []) then Some (mkRegistry ep [] 0 [] [])
  else registry_of ep <$> resolve_epochs (initial delegations) (seqZ 0 (ep + 1)).

(** ** The registry's views *)

(** [Iterator::sum] on [u128]. *)
Fixpoint sum_w (acc : Z) (l : list Z) : option Z :=
  match l with
  | [] => Some acc
  | x :: l => acc ← add_w u128_MAX acc x; sum_w acc l
  end.

Fixpoint reg_cap_rounds (rounds : nat) (l : list Z) (cap : Z) : option Z :=
  match rounds with
  | O => Some cap
  | S rounds =>
      capped_total ← sum_w 0 (cap_to cap <$> l);
      x ← mul_w u128_MAX capped_total MAX_VALIDATOR_STAKE_BPS;
      let next := x / 10000 in
      if next =? cap then Some cap else reg_cap_rounds rounds l next
  end.

Definition cap_sat (self : Registry) : option Z :=
  if total_active self =? 0 then Some 0
  else
    x ← mul_w u128_MAX (total_active self) MAX_VALIDATOR_STAKE_BPS;
    reg_cap_rounds CAP_FIXPOINT_ROUNDS (stakes self).*2 (x / 10000).

Definition capped_validator (cap : Z) (vs : Z * Z) : Validator :=
  let capped := if (0 <? cap) && (cap <? vs.2) then cap else vs.2 in
  mkValidator vs.1 (if u64_MAX <? capped then u64_MAX else capped).

Definition validators (self : Registry) : option (list Validator) :=
  cap ← cap_sat self; Some (capped_validator cap <$> stakes self).

Definition validators_with_absolute_cap (self : Registry) (cap : Z) : list Validator :=
  (λ vs, mkValidator vs.1 (Z.min (Z.min vs.2 cap) u64_MAX)) <$> stakes self.

Definition stake_of (self : Registry) (v : Z) : Z := active_get (stakes self) v.

Definition top_share_bps (self : Registry) : option Z :=
  if total_active self =? 0 then Some 0
  else
    x ← mul_w u128_MAX (foldl Z.max 0 (stakes self).*2) 10000;
    Some (x / total_active self).

Fixpoint nakamoto_scan (threshold acc : Z) (n : nat) (l : list Z) : option nat :=
  match l with
  | [] => Some n
  | s :: l =>
      acc ← add_w u128_MAX acc s;
      if threshold <? acc then Some (S n) else nakamoto_scan threshold acc (S n) l
  end.

Definition nakamoto_coefficient (self : Registry) : option nat :=
  if total_active self =? 0 then Some O
  else
    nakamoto_scan (total_active self / 3) 0 0 (reverse (merge_sort Z.le (stakes self).*2)).

(** Where several entries share a key the binary search may return any of them;
    the model returns the first. *)
Definition activated_sat (self : Registry) (d : Delegation) : Z :=
  default 0 (snd <$> (snd <$> list_find (λ kv, kv.1 = queue_key d) (activated self))).

Definition state_of (self : Registry) (d : Delegation) : option StakeState :=
  if negb (eligible d) || (amount_sat d <? MIN_DELEGATION_SAT) then Some Inactive
  else
    let admission :=
      if bool_decide (queue_key d ∈ admitted self) then Some Active else Some Activating in
    match deactivate_epoch d with
    | Some de =>
        cooled ← add_w u64_MAX de COOLDOWN_EPOCHS;
        if cooled <=? reg_epoch self then Some Inactive
        else if de <=? reg_epoch self then Some Deactivating
        else admission
    | None => admission
    end.

(** The loss of each delegation; the panic of an overflowing product is [None]. *)
Fixpoint apply_slash (delegations : list Delegation) (v penalty_bps : Z) : option (list Z) :=
  match delegations with
  | [] => Some []
  | d :: delegations =>
      loss ← (if (validator d =? v) && eligible d
              then x ← mul_w u128_MAX (amount_sat d) (Z.min penalty_bps 10000); Some (x / 10000)
              else Some 0);
      rest ← apply_slash delegations v penalty_bps;
      Some (loss :: rest)
  end.

(** What a registry reports as activated is never negative. *)
Lemma elem_of_insert_activated k l x : x ∈ insert_activated k l → x = k ∨ x ∈ l.
Proof.
  induction l as [|k' l IH]; cbn; [set_solver|]. case_goal as E; [set_solver|].
  intros [->|Hx]%elem_of_cons; [set_solver|]. apply IH in Hx. set_solver.
Qed.

Lemma activated_nonneg ds ep reg d : resolve ds ep = Some reg → 0 ≤ activated_sat reg d.
Proof.
  unfold resolve. case_match; [intros [= <-]; done|]. intros (st & _ & ->)%fmap_Some.
  unfold activated_sat. destruct (list_find _ _) as [[i kv]|] eqn:E; [|done]. cbn.
  apply list_find_Some in E as (E%list_elem_of_lookup_2 & _ & _). revert E. unfold registry_of. cbn.
  assert (Forall (λ da, 0 < da.2) (filter (λ da : Delegation * Z, 0 < da.2) (rs_queue st))) as Hf.
  { apply Forall_forall. intros x Hx. by apply list_elem_of_filter in Hx as [? _]. }
  induction Hf as [|da l Hda Hf IH]; cbn; [by intros ?%not_elem_of_nil|].
  intros [->|Hk]%elem_of_insert_activated; cbn; [lia|by apply IH].
Qed.

(** ** The queue is a permutation of the eligible delegations *)

(** Nor is a validator's stake. *)
Definition stakes_wf (l : list (Z * Z)) : Prop := Forall (λ vs, 0 ≤ vs.2) l.

Lemma active_add_wf l v x l' : active_add l v x = Some l' → stakes_wf l → 0 ≤ x → stakes_wf l'.
Proof.
  intros E Hl Hx. revert l' E. induction Hl as [|[w s] l Hs Hl IH]; cbn; intros l' E.
  { injection E as <-. by repeat constructor. }
  cbn in Hs. case_match; [injection E as <-; by repeat constructor|]. case_match.
  - apply bind_Some in E as (y & ? & [= <-]). checked_inv. constructor; cbn; [lia|done].
  - apply bind_Some in E as (y & Hy & [= <-]). constructor; [done|]. by apply IH.
Qed.

Lemma active_sub_wf l v x l' : active_sub l v x = Some l' → stakes_wf l → stakes_wf l'.
Proof.
  intros E Hl. revert l' E. induction Hl as [|[w s] l Hs Hl IH]; cbn; intros l' E.
  { injection E as <-. constructor. }
  case_match; [injection E as <-; by constructor|]. case_match.
  - apply bind_Some in E as (y & Hy & E). checked_inv. case_match; injection E as <-; [done|].
    constructor; cbn; [lia|done].
  - apply bind_Some in E as (y & Hy & [= <-]). constructor; [done|]. by apply IH.
Qed.

Lemma activate_loop_stakes e budget q used total active q' used' total' active' :
  activate_loop e budget q used total active = Some (q', used', total', active') → stakes_wf active → stakes_wf active'.
Proof.
  revert used total active q'. induction q as [|[d a] q IH]; cbn; intros used total active q' E Hw.
  { by injection E as <- <- <- <-. }
  repeat first [case_match | apply bind_Some in E as (? & ? & E)]; simplify_eq; checked_inv; eauto.
  eapply IH; [done|]. eapply active_add_wf; [done..|]. lia.
Qed.

Lemma release_loop_stakes e budget q used total active q' used' total' active' :
  release_loop e budget q used total active = Some (q', used', total', active') → stakes_wf active → stakes_wf active'.
Proof.
  revert used total active q'. induction q as [|[d a] q IH]; cbn; intros used total active q' E Hw.
  { by injection E as <- <- <- <-. }
  repeat first [case_match | apply bind_Some in E as (? & ? & E)]; simplify_eq; eauto using active_sub_wf.
Qed.

Lemma resolve_stakes ds ep reg : resolve ds ep = Some reg → stakes_wf (stakes reg).
Proof.
  unfold resolve. case_match; [intros [= <-]; constructor|]. intros (st & Hst & ->)%fmap_Some. cbn.
  assert (stakes_wf (rs_active (initial ds))) as Hi by constructor. revert Hi Hst.
  generalize (initial ds). generalize (seqZ 0 (ep + 1)). intros es. induction es as [|e es IH]; cbn; intros st0 Hw Hst.
  { by injection Hst as <-. }
  apply bind_Some in Hst as (st1 & H1 & Hst). apply (IH st1); [|done]. clear IH Hst.
  unfold resolve_epoch in H1. apply bind_Some in H1 as (budget & _ & H1).
  apply bind_Some in H1 as ([[[? ?] ?] ?] & Ha & H1). apply bind_Some in H1 as ([[[? ?] ?] ?] & Hr & [= <-]). cbn.
  eauto using activate_loop_stakes, release_loop_stakes.
Qed.

Lemma stake_of_nonneg ds ep reg v : resolve ds ep = Some reg → 0 ≤ stake_of reg v.
Proof.
  intros Hw%resolve_stakes. unfold stake_of. induction Hw as [|[w s] l Hs _ IH]; cbn; [done|]. by case_match.
Qed.

Lemma insert_by_perm d l : insert_by d l ≡ₚ d :: l.
Proof.
  induction l as [|x l IH]; simpl; [done|]. case_goal; [done|].
  rewrite IH. apply perm_swap.
Qed.

Lemma sort_queue_perm l : sort_queue l ≡ₚ l.
Proof. induction l as [|d l IH]; simpl; [done|]. by rewrite insert_by_perm, IH. Qed.

Lemma elem_of_queue ds d :
  d ∈ queue_of ds ↔ d ∈ ds ∧ eligible d = true ∧ MIN_DELEGATION_SAT ≤ amount_sat d.
Proof. unfold queue_of. rewrite sort_queue_perm, list_elem_of_filter. tauto. Qed.

(** ** The active vector *)

Definition sorted_active (l : list (Z * Z)) : Prop :=
  StronglySorted Z.lt l.*1 ∧ Forall (λ vs, 0 < vs.2) l.

Lemma active_get_lt l v : Forall (Z.lt v) l.*1 → active_get l v = 0.
Proof.
  induction l as [|[w s] l IH]; simpl; [done|]. intros [Hw Hl]%Forall_cons.
  simpl in Hw. rewrite (proj2 (Z.eqb_neq _ _)) by lia. auto.
Qed.

Lemma Forall_lt_trans v w (l : list Z) : v < w → Forall (Z.lt w) l → Forall (Z.lt v) l.
Proof. intros Hvw Hl. eapply Forall_impl; [exact Hl|]. simpl. lia. Qed.

Lemma active_get_nonneg l v : sorted_active l → 0 ≤ active_get l v.
Proof.
  intros [_ Hp]. induction Hp as [|[w s] l Hs _ IH]; simpl in *; [done|]. case_goal; lia.
Qed.

Lemma active_add_spec l v x :
  sorted_active l → 0 < x → active_get l v + x ≤ u128_MAX →
  ∃ l', active_add l v x = Some l' ∧ sorted_active l' ∧
    (∀ w, active_get l' w = active_get l w + if decide (w = v) then x else 0) ∧
    (∀ k, Forall (Z.lt k) l.*1 → k < v → Forall (Z.lt k) l'.*1).
Proof.
  intros [Hs Hp] Hx. induction l as [|[w s] l IH]; intros Hb; simpl in *.
  { exists [(v, x)]. split_and!; [done|split; repeat constructor; done| |].
    - intros y. simpl. destruct (decide (y = v)) as [->|];
        [rewrite Z.eqb_refl|rewrite (proj2 (Z.eqb_neq y v)) by done]; lia.
    - intros k _ Hk. by repeat constructor. }
  apply StronglySorted_cons in Hs as [Hw Hs]. apply Forall_cons in Hp as [Hs0 Hp]. simpl in Hs0.
  destruct (Z.ltb_spec v w) as [Hlt|Hge].
  - exists ((v, x) :: (w, s) :: l). split_and!; [done| | |].
    + split; [|by repeat constructor]. constructor; [by constructor|].
      constructor; [done|]. by eapply Forall_lt_trans.
    + intros y. simpl. destruct (decide (y = v)) as [->|].
      * rewrite Z.eqb_refl, (proj2 (Z.eqb_neq v w)), active_get_lt by
          (done || lia || by eapply Forall_lt_trans). lia.
      * rewrite (proj2 (Z.eqb_neq y v)) by done. lia.
    + intros k Hk Hkv. by constructor.
  - destruct (Z.eqb_spec v w) as [->|Hne].
    + rewrite add_w_ok by done. simpl.
      exists ((w, s + x) :: l). split_and!; [done| | |done].
      * split; constructor; simpl; [done|done|lia|done].
      * intros y. simpl. destruct (decide (y = w)) as [->|];
          [rewrite Z.eqb_refl|rewrite (proj2 (Z.eqb_neq y w)) by done]; lia.
    + destruct IH as (l' & -> & [Hs' Hp'] & Hg & Hk); [done..|]. simpl.
      exists ((w, s) :: l'). split_and!; [done| | |].
      * split; constructor; simpl; [done|apply Hk; [done|lia]|done|done].
      * intros y. simpl. rewrite Hg. destruct (Z.eqb_spec y w) as [->|]; [|done].
        rewrite decide_False by done. lia.
      * intros k [? ?]%Forall_cons Hkv. constructor; [done|]. by apply Hk.
Qed.

Lemma active_sub_spec l v x :
  sorted_active l → 0 < x ≤ active_get l v →
  ∃ l', active_sub l v x = Some l' ∧ sorted_active l' ∧
    (∀ w, active_get l' w = active_get l w - if decide (w = v) then x else 0) ∧
    (∀ k, Forall (Z.lt k) l.*1 → Forall (Z.lt k) l'.*1).
Proof.
  intros [Hs Hp]. induction l as [|[w s] l IH]; intros Hb; simpl in *; [lia|].
  apply StronglySorted_cons in Hs as [Hw Hs]. apply Forall_cons in Hp as [Hs0 Hp]. simpl in Hs0.
  destruct (Z.ltb_spec v w) as [Hlt|Hge].
  - rewrite (proj2 (Z.eqb_neq v w)), active_get_lt in Hb
      by (lia || by eapply Forall_lt_trans). lia.
  - destruct (Z.eqb_spec v w) as [->|Hne].
    + rewrite sub_w_ok by lia. simpl.
      destruct (Z.eqb_spec (s - x) 0) as [Hz|Hz].
      * exists l. split_and!; [done|done| |by intros k [_ ?]%Forall_cons].
        intros y. destruct (Z.eqb_spec y w) as [->|].
        -- rewrite decide_True, active_get_lt by done. lia.
        -- rewrite decide_False by done. lia.
      * exists ((w, s - x) :: l). split_and!; [done| | |done].
        -- split; constructor; simpl; [done|done|lia|done].
        -- intros y. simpl. destruct (Z.eqb_spec y w) as [->|];
             [rewrite decide_True by done|rewrite decide_False by done]; lia.
    + destruct IH as (l' & -> & [Hs' Hp'] & Hg & Hk); [done..|]. simpl.
      exists ((w, s) :: l'). split_and!; [done| | |].
      * split; constructor; simpl; [done|by apply Hk|done|done].
      * intros y. simpl. rewrite Hg. destruct (Z.eqb_spec y w) as [->|]; [|done].
        rewrite decide_False by done. lia.
      * intros k [? ?]%Forall_cons. constructor; [done|]. by apply Hk.
Qed.

(** ** The loops of one epoch *)

Definition sum_a (q : entries) : Z := sumZ (snd <$> q).
Definition vsum (q : entries) (v : Z) : Z :=
  sumZ ((λ da, if decide (validator da.1 = v) then da.2 else 0) <$> q).
Definition sum_amount (l : list Delegation) : Z := sumZ (amount_sat <$> l).
Definition bounded (q : entries) : Prop := Forall (λ da, 0 ≤ da.2 ≤ amount_sat da.1) q.

Lemma sum_a_cons d a q : sum_a ((d, a) :: q) = a + sum_a q.
Proof. done. Qed.

Lemma vsum_cons d a q v :
  vsum ((d, a) :: q) v = (if decide (validator d = v) then a else 0) + vsum q v.
Proof. done. Qed.

Lemma sum_amount_cons d l : sum_amount (d :: l) = amount_sat d + sum_amount l.
Proof. done. Qed.

Lemma bounded_sum q : bounded q → 0 ≤ sum_a q ≤ sum_amount q.*1.
Proof.
  induction 1 as [|[d a] q Ha _ IH]; [done|]. rewrite sum_a_cons. csimpl.
  rewrite sum_amount_cons. simpl in Ha. lia.
Qed.

Lemma vsum_bounds q v : bounded q → 0 ≤ vsum q v ≤ sum_a q.
Proof.
  induction 1 as [|[d a] q Ha _ IH]; [done|]. rewrite sum_a_cons, vsum_cons. simpl in Ha.
  case_decide; lia.
Qed.

(** What the activation loop does to the totals. *)
Lemma activate_loop_spec e budget q used total active :
  bounded q → sorted_active active → 0 ≤ used ≤ budget → budget ≤ u128_MAX → 0 ≤ total →
  (∀ v, active_get active v ≤ total) → total + (sum_amount q.*1 - sum_a q) ≤ u128_MAX →
  sum_amount q.*1 ≤ u128_MAX →
  ∃ q' active', let moved := sum_a q' - sum_a q in
    activate_loop e budget q used total active =
      Some (q', used + moved, total + moved, active') ∧
    q'.*1 = q.*1 ∧ bounded q' ∧ sorted_active active' ∧
    0 ≤ moved ∧ used + moved ≤ budget ∧
    (∀ v, active_get active' v = active_get active v + (vsum q' v - vsum q v)).
Proof.
  intros Hq. revert used total active.
  induction Hq as [|[d a] q Ha Hq IH]; intros used total active Hs Hu Hb Ht Hv Hm Ha0.
  { exists [], active. unfold sum_a, vsum. simpl.
    rewrite !Z.add_0_r. split_and!; try done; try lia. by constructor. }
  simpl in Ha. pose proof (bounded_sum q Hq) as Hsum. csimpl in Hm. csimpl in Ha0.
  rewrite sum_a_cons, sum_amount_cons in Hm. rewrite sum_amount_cons in Ha0.
  assert (∃ q' active', let moved := sum_a q' - sum_a ((d, a) :: q) in
    ('(q, used, total, active) ← activate_loop e budget q used total active;
     Some ((d, a) :: q, used, total, active)) =
      Some (q', used + moved, total + moved, active') ∧
    q'.*1 = d :: q.*1 ∧ bounded q' ∧ sorted_active active' ∧
    0 ≤ moved ∧ used + moved ≤ budget ∧
    (∀ v, active_get active' v = active_get active v + (vsum q' v - vsum ((d, a) :: q) v)))
    as Hskip.
  { destruct (IH used total active) as (q' & active' & Hl & Hfst & Hq' & Hs' & Hmv & Hub & Hg);
      [done..|lia|lia|]. exists ((d, a) :: q'), active'. cbv zeta. rewrite Hl.
    cbn [mbind option_bind]. rewrite !sum_a_cons. split_and!; [|by csimpl; rewrite Hfst|by constructor|done|lia|lia|].
    - by replace (a + sum_a q' - (a + sum_a q)) with (sum_a q' - sum_a q) by lia.
    - intros v. rewrite Hg, !vsum_cons. lia. }
  cbn [activate_loop]. case_goal; [exact Hskip|].
  rewrite (sub_w_ok (amount_sat d) a) by lia. cbn [mbind option_bind].
  case_goal as Hz; [exact Hskip|]. boolp. rewrite (sub_w_ok budget used) by lia. cbn [mbind option_bind].
  set (take := Z.min (amount_sat d - a) (budget - used)). assert (0 < take) by lia.
  rewrite (add_w_ok _ used take), (add_w_ok _ a take), (add_w_ok _ total take) by lia.
  cbn [mbind option_bind].
  destruct (active_add_spec active (validator d) take) as (active1 & -> & Hs1 & Hg1 & _);
    [done|done|specialize (Hv (validator d)); lia|]. cbn [mbind option_bind].
  destruct (IH (used + take) (total + take) active1)
    as (q' & active' & Hl & Hfst & Hq' & Hs' & Hmv & Hub & Hg); [done|lia|done|lia| |lia|lia|].
  { intros v. rewrite Hg1. specialize (Hv v). case_decide; lia. }
  rewrite Hl. exists ((d, a + take) :: q'), active'. cbv zeta. cbn [mbind option_bind].
  rewrite !sum_a_cons. split_and!; [|by csimpl; rewrite Hfst| |done|lia|lia|].
  - by replace (used + (a + take + sum_a q' - (a + sum_a q))) with
      (used + take + (sum_a q' - sum_a q)) by lia;
      replace (total + (a + take + sum_a q' - (a + sum_a q))) with
      (total + take + (sum_a q' - sum_a q)) by lia.
  - constructor; [simpl; lia|done].
  - intros v. rewrite Hg, Hg1, !vsum_cons. repeat case_decide; congruence || lia.
Qed.

Lemma release_loop_spec e budget q released total active :
  bounded q → sorted_active active → 0 ≤ released ≤ budget → budget ≤ u128_MAX →
  sum_a q ≤ total → (∀ v, vsum q v ≤ active_get active v) →
  ∃ q' active', let moved := sum_a q - sum_a q' in
    release_loop e budget q released total active =
      Some (q', released + moved, total - moved, active') ∧
    q'.*1 = q.*1 ∧ bounded q' ∧ sorted_active active' ∧
    0 ≤ moved ∧ released + moved ≤ budget ∧
    (∀ v, active_get active' v = active_get active v + (vsum q' v - vsum q v)).
Proof.
  intros Hq. revert released total active.
  induction Hq as [|[d a] q Ha Hq IH]; intros released total active Hs Hr Hb Ht Hv.
  { exists [], active. unfold sum_a, vsum. simpl.
    rewrite !Z.sub_0_r, !Z.add_0_r. split_and!; try done; try lia. by constructor. }
  simpl in Ha. pose proof (bounded_sum q Hq) as Hsum. rewrite sum_a_cons in Ht.
  assert (∀ v, vsum q v ≤ active_get active v) as Hv'.
  { intros v. specialize (Hv v). rewrite vsum_cons in Hv. case_decide; lia. }
  assert (∃ q' active', let moved := sum_a ((d, a) :: q) - sum_a q' in
    ('(q, released, total, active) ← release_loop e budget q released total active;
     Some ((d, a) :: q, released, total, active)) =
      Some (q', released + moved, total - moved, active') ∧
    q'.*1 = d :: q.*1 ∧ bounded q' ∧ sorted_active active' ∧
    0 ≤ moved ∧ released + moved ≤ budget ∧
    (∀ v, active_get active' v = active_get active v + (vsum q' v - vsum ((d, a) :: q) v)))
    as Hskip.
  { destruct (IH released total active) as (q' & active' & Hl & Hfst & Hq' & Hs' & Hmv & Hub & Hg);
      [done..|lia|done|]. exists ((d, a) :: q'), active'. cbv zeta. rewrite Hl.
    cbn [mbind option_bind]. rewrite !sum_a_cons.
    split_and!; [|by csimpl; rewrite Hfst|by constructor|done|lia|lia|].
    - by replace (a + sum_a q - (a + sum_a q')) with (sum_a q - sum_a q') by lia.
    - intros v. rewrite Hg, !vsum_cons. lia. }
  cbn [release_loop]. destruct (deactivate_epoch d) as [de|]; [|exact Hskip].
  case_goal as Hz; [exact Hskip|]. boolp. rewrite (sub_w_ok budget released) by lia.
  cbn [mbind option_bind].
  set (give := Z.min a (budget - released)). assert (0 < give) by lia.
  rewrite (add_w_ok _ released give), (sub_w_ok a give), (sub_w_ok total give) by lia.
  cbn [mbind option_bind].
  destruct (active_sub_spec active (validator d) give) as (active1 & -> & Hs1 & Hg1 & _);
    [done| |].
  { specialize (Hv (validator d)). rewrite vsum_cons, decide_True in Hv by done.
    pose proof (vsum_bounds q (validator d) Hq). lia. }
  cbn [mbind option_bind].
  destruct (IH (released + give) (total - give) active1)
    as (q' & active' & Hl & Hfst & Hq' & Hs' & Hmv & Hub & Hg); [done|lia|done|lia| |].
  { intros v. rewrite Hg1. specialize (Hv v). rewrite vsum_cons in Hv.
    repeat case_decide; congruence || lia. }
  rewrite Hl. exists ((d, a - give) :: q'), active'. cbv zeta. cbn [mbind option_bind].
  rewrite !sum_a_cons. split_and!; [|by csimpl; rewrite Hfst| |done|lia|lia|].
  - by replace (released + (a + sum_a q - (a - give + sum_a q'))) with
      (released + give + (sum_a q - sum_a q')) by lia;
      replace (total - (a + sum_a q - (a - give + sum_a q'))) with
      (total - give - (sum_a q - sum_a q')) by lia.
  - constructor; [simpl; lia|done].
  - intros v. rewrite Hg, Hg1, !vsum_cons. repeat case_decide; congruence || lia.
Qed.

(** ** Epochs *)

Record rstate_wf (ds : list Delegation) (st : RState) : Prop := {
  wf_queue : (rs_queue st).*1 = queue_of ds;
  wf_bounded : bounded (rs_queue st);
  wf_sorted : sorted_active (rs_active st);
  wf_total : rs_total st = sum_a (rs_queue st);
  wf_active : ∀ v, active_get (rs_active st) v = vsum (rs_queue st) v;
}.

(** The amounts of the queue fit the supply (in fact [2 ^ 120] leaves room for
    the products of the code). *)
Definition amounts_ok (ds : list Delegation) : Prop := sum_amount (queue_of ds) ≤ 2 ^ 120.

Definition churn_limit (total : Z) : Z := Z.max (total * WARMUP_RATE_BPS / 10000) MIN_CHURN_SAT.

Lemma resolve_epoch_wf ds st e :
  amounts_ok ds → rstate_wf ds st →
  ∃ st', resolve_epoch st e = Some st' ∧ rstate_wf ds st' ∧
    (e ≠ 0 → Z.abs (rs_total st' - rs_total st) ≤ churn_limit (rs_total st)).
Proof.
  intros Hok [Hq Hb Hs Ht Ha]. unfold amounts_ok in Hok. rewrite <-Hq in Hok.
  pose proof (bounded_sum _ Hb) as Hsum. rewrite <-Ht in Hsum.
  assert (2 ^ 120 * 25 ≤ u128_MAX) as Hbig by (unfold u128_MAX; lia).
  assert (∃ budget, churn_budget e (rs_total st) = Some budget ∧ 0 ≤ budget ≤ u128_MAX ∧
    (e ≠ 0 → budget = churn_limit (rs_total st))) as (budget & Hbud & Hbr & Hbl).
  { unfold churn_budget, churn_limit. destruct (Z.eqb_spec e 0).
    { exists u128_MAX. unfold u128_MAX. naive_solver lia. }
    unfold WARMUP_RATE_BPS. rewrite mul_w_ok by lia. cbn [mbind option_bind].
    eexists. split; [done|]. unfold MIN_CHURN_SAT, SAT_PER_BLOCH, u128_MAX in *.
    split; [case_goal; zlia|]. intros _. case_goal; boolp; lia. }
  unfold resolve_epoch. rewrite Hbud. cbn [mbind option_bind].
  destruct (activate_loop_spec e budget (rs_queue st) 0 (rs_total st) (rs_active st))
    as (q1 & a1 & Hl1 & Hf1 & Hb1 & Hs1 & Hm1 & Hu1 & Hg1); try done; try lia.
  { intros v. rewrite Ha, Ht. by apply vsum_bounds. }
  rewrite Hl1. cbn [mbind option_bind]. pose proof (bounded_sum q1 Hb1) as Hsum1.
  destruct (release_loop_spec e budget q1 0 (rs_total st + (sum_a q1 - sum_a (rs_queue st))) a1)
    as (q2 & a2 & Hl2 & Hf2 & Hb2 & Hs2 & Hm2 & Hu2 & Hg2); try done; try lia.
  { intros v. rewrite Hg1, Ha. lia. }
  rewrite Hl2. cbn [mbind option_bind]. eexists. split; [done|]. split.
  - split; simpl; [congruence|done|done|lia|]. intros v. rewrite Hg2, Hg1, Ha. lia.
  - intros He. rewrite Hbl in * by done. simpl. lia.
Qed.

Lemma resolve_epochs_wf ds es st :
  amounts_ok ds → rstate_wf ds st →
  ∃ st', resolve_epochs st es = Some st' ∧ rstate_wf ds st'.
Proof.
  intros Hok. revert st. induction es as [|e es IH]; intros st Hwf; simpl; [eauto|].
  destruct (resolve_epoch_wf ds st e Hok Hwf) as (st1 & -> & Hwf1 & _). simpl. by apply IH.
Qed.

Lemma resolve_epochs_app st es es' :
  resolve_epochs st (es ++ es') = resolve_epochs st es ≫= λ st, resolve_epochs st es'.
Proof.
  revert st. induction es as [|e es IH]; intros st; simpl; [done|].
  destruct (resolve_epoch st e); simpl; auto.
Qed.

Lemma initial_wf ds : rstate_wf ds (initial ds).
Proof.
  unfold initial. split; simpl.
  - rewrite <-list_fmap_compose. apply list_fmap_id.
  - apply Forall_fmap, Forall_forall. intros d [_ [_ Hd]]%elem_of_queue. simpl.
    unfold MIN_DELEGATION_SAT, SAT_PER_BLOCH in Hd. lia.
  - split; constructor.
  - unfold sum_a. rewrite <-list_fmap_compose. symmetry. by apply sumZ_fmap_const0.
  - intros v. unfold vsum. rewrite <-list_fmap_compose. symmetry.
    apply sumZ_fmap_const0. intros d _. simpl. by case_decide.
Qed.

Lemma vsum_filter q w v :
  vsum (filter (λ da, validator da.1 ≠ w) q) v = if decide (v = w) then 0 else vsum q v.
Proof.
  induction q as [|[d a] q IH]; [by case_decide|]. rewrite filter_cons, vsum_cons. simpl.
  destruct (decide (validator d ≠ w)) as [Hn|Hn].
  - rewrite vsum_cons, IH. repeat case_decide; congruence || lia.
  - rewrite IH. repeat case_decide; try lia.
Qed.

Lemma sum_a_filter q w :
  sum_a q = vsum q w + sum_a (filter (λ da, validator da.1 ≠ w) q).
Proof.
  induction q as [|[d a] q IH]; [done|]. rewrite filter_cons, vsum_cons, sum_a_cons. simpl.
  destruct (decide (validator d ≠ w)), (decide (validator d = w)); try done.
  - rewrite sum_a_cons. lia.
  - lia.
Qed.

(** The vector of active stake adds up to what the queue has activated. *)
Lemma active_sum l q :
  StronglySorted Z.lt l.*1 → bounded q → (∀ v, active_get l v = vsum q v) →
  sumZ l.*2 = sum_a q.
Proof.
  revert q. induction l as [|[w s] l IH]; intros q Hs Hq Hg; csimpl in *.
  - symmetry. unfold sum_a. apply sumZ_fmap_const0. intros [d a] Hda. simpl.
    specialize (Hg (validator d)). clear -Hq Hda Hg.
    induction Hq as [|[d' a'] q Ha Hq IH]; [by apply elem_of_nil in Hda|].
    rewrite vsum_cons in Hg. simpl in Ha. pose proof (vsum_bounds q (validator d) Hq).
    apply elem_of_cons in Hda as [[= -> ->]|Hda].
    + rewrite decide_True in Hg by done. lia.
    + apply IH; try done. case_decide; lia.
  - apply StronglySorted_cons in Hs as [Hw Hs].
    rewrite (sum_a_filter q w), <-(Hg w), Z.eqb_refl. f_equal. apply IH; [done| |].
    + unfold bounded in *. rewrite Forall_forall in *. intros x [_ Hx]%list_elem_of_filter. auto.
    + intros v. rewrite vsum_filter. case_decide as Hv.
      * subst. by apply active_get_lt.
      * rewrite <-Hg, (proj2 (Z.eqb_neq v w)) by done. done.
Qed.

Lemma vsum_amount q v :
  bounded q →
  vsum q v ≤ sum_amount (filter (λ d, validator d = v) q.*1).
Proof.
  induction 1 as [|[d a] q Ha _ IH]; [done|]. rewrite vsum_cons. csimpl in *.
  rewrite filter_cons. case_decide; [rewrite sum_amount_cons|]; lia.
Qed.

Lemma resolve_Some ds ep r :
  resolve ds ep = Some r → 0 ≤ ep → amounts_ok ds →
  ∃ st, resolve_epochs (initial ds) (seqZ 0 (ep + 1)) = Some st ∧ rstate_wf ds st ∧
    total_active r = rs_total st ∧ stakes r = rs_active st.
Proof.
  intros Hr Hep Hok. destruct (resolve_epochs_wf ds (seqZ 0 (ep + 1)) (initial ds) Hok)
    as (st & Hst & Hwf); [apply initial_wf|]. exists st. split_and!; [done..| |];
  unfold resolve in Hr; case_bool_decide as Hq; simplify_eq; simpl.
  - rewrite (wf_total _ _ Hwf). pose proof (wf_queue _ _ Hwf) as Hf. rewrite Hq in Hf.
    by apply fmap_nil_inv in Hf as ->.
  - rewrite Hst in Hr. by simplify_eq/=.
  - pose proof (wf_queue _ _ Hwf) as Hf. rewrite Hq in Hf. apply fmap_nil_inv in Hf.
    pose proof (wf_active _ _ Hwf) as Ha. destruct (wf_sorted _ _ Hwf) as [_ Hp].
    rewrite Hf in Ha. destruct (rs_active st) as [|[w s] l]; [done|].
    specialize (Ha w). simpl in Ha. rewrite Z.eqb_refl in Ha. apply Forall_cons in Hp as [Hp _].
    simpl in Hp. unfold vsum in Ha. simpl in Ha. lia.
  - rewrite Hst in Hr. by simplify_eq/=.
Qed.

Lemma resolve_live ds ep : amounts_ok ds → ∃ r, resolve ds ep = Some r.
Proof.
  intros Hok. unfold resolve. case_bool_decide; [eauto|].
  destruct (resolve_epochs_wf ds (seqZ 0 (ep + 1)) (initial ds) Hok) as (st & -> & _);
    [apply initial_wf|]. simpl. eauto.
Qed.

(** ** Theorems *)

(** C21: resolving the delegations conserves stake.  When the eligible amounts sum to at
    most 2^120 satoshi ([amounts_ok]; the supply is below 2^64), the loops return without a
    panic; the total active stake is the sum of the per-validator stakes, the vector of
    stakes is strictly sorted by validator with positive entries, and a validator's stake
    lies between zero and the eligible amounts delegated to it.  Larger
    sums may overflow the checked arithmetic: funded delegations cannot reach them, being
    paid for with outputs, and unfunded ones, which are bounded only from below, are closed
    in the source's schedule. *)
Theorem resolve_conservation ds ep :
  amounts_ok ds → 0 ≤ ep →
  ∃ r, resolve ds ep = Some r ∧ total_active r = sumZ (stakes r).*2 ∧
    StronglySorted Z.lt (stakes r).*1 ∧ Forall (λ vs, 0 < vs.2) (stakes r) ∧
    ∀ v, 0 ≤ stake_of r v ≤ sum_amount (filter (λ d, validator d = v) (queue_of ds)).
Proof.
  intros Hok Hep. destruct (resolve_live ds ep Hok) as [r Hr]. exists r. split; [done|].
  destruct (resolve_Some ds ep r Hr Hep Hok) as (st & _ & [Hq Hb [Hs Hp] Ht Ha] & -> & Hst).
  unfold stake_of. rewrite Hst. split_and!; [|done..|].
  - rewrite Ht. symmetry. by apply active_sum.
  - intros v. rewrite Ha. split; [by apply vsum_bounds|]. rewrite <-Hq. by apply vsum_amount.
Qed.

(** Stake churn is bounded.  From one epoch to the next the total active
    stake changes by at most the warm-up rate of what was active, or the minimum
    churn when that is larger; only the genesis epoch is unbounded. *)
Theorem resolve_churn ds ep :
  amounts_ok ds → 1 ≤ ep →
  ∃ r r', resolve ds (ep - 1) = Some r ∧ resolve ds ep = Some r' ∧
    Z.abs (total_active r' - total_active r) ≤ churn_limit (total_active r).
Proof.
  intros Hok Hep. destruct (resolve_live ds (ep - 1) Hok) as [r Hr].
  destruct (resolve_live ds ep Hok) as [r' Hr']. exists r, r'. split_and!; [done..|].
  destruct (resolve_Some ds _ r Hr ltac:(lia) Hok) as (st & Hst & Hwf & -> & _).
  destruct (resolve_Some ds _ r' Hr' ltac:(lia) Hok) as (st' & Hst' & _ & -> & _).
  replace (ep - 1 + 1) with ep in Hst by lia.
  assert (seqZ 0 (ep + 1) = seqZ 0 ep ++ [ep]) as Hsnoc.
  { rewrite seqZ_app by lia. by replace (0 + ep) with ep by lia. }
  rewrite Hsnoc, resolve_epochs_app, Hst in Hst'. simpl in Hst'.
  destruct (resolve_epoch_wf ds st ep Hok Hwf) as (st1 & Hst1 & _ & Hch).
  rewrite Hst1 in Hst'. simpl in Hst'. injection Hst' as <-. apply Hch. lia.
Qed.

(** ** A concrete queue *)

Definition ex_delegations : list Delegation :=
  [mkDelegation 1 7 (2000000 * SAT_PER_BLOCH) 0 (Some 3) true;
   mkDelegation 2 5 (900000 * SAT_PER_BLOCH) 1 None true;
   mkDelegation 3 5 (20 * SAT_PER_BLOCH) 1 None false].

Lemma ex_amounts_ok : amounts_ok ex_delegations.
Proof. vm_compute. congruence. Qed.

Lemma resolve_conservation_witness :
  ∃ r, resolve ex_delegations 2 = Some r ∧ total_active r = sumZ (stakes r).*2.
Proof.
  destruct (resolve_conservation ex_delegations 2 ex_amounts_ok) as (r & Hr & Ht & _);
    [lia|]. by exists r.
Defined.

Lemma resolve_churn_witness :
  ∃ r r', resolve ex_delegations 3 = Some r ∧ resolve ex_delegations 4 = Some r' ∧
    Z.abs (total_active r' - total_active r) ≤ churn_limit (total_active r).
Proof. apply (resolve_churn ex_delegations 4 ex_amounts_ok). lia. Defined.

End Delegation.
