(* ===== verification/Slashing.v ===== *)
(** * Slashing: evidence, penalties and the correlation window

    Models [crates/bloch-pos-committee/src/slashing.rs].  Evidence is refused
    with the code's errors, in the code's order; accepted evidence changes the
    state through [commit_offense].  The outer [option] is [None] where a checked
    [u128] operation panics; [slashing_penalty_bounds] shows it does not for
    amounts within the supply. *)

From S2P Require Import Prelude Bytes Params Types Signatures Kes Header Attestation Delegation.
Local Open Scope Z_scope.

Module Slashing.
Import Bytes Params Types Signatures Attestation.

Definition SLASH_PROPOSER_EQUIV_BPS : Z := 500.
Definition SLASH_SURROUND_VOTE_BPS : Z := 500.
Definition WHISTLEBLOWER_QUOTIENT : Z := 32.
Definition CORRELATION_MULTIPLIER : Z := 3.
Definition CORRELATION_WINDOW_EPOCHS : Z := 4096.

Inductive SlashableOffense := ProposerEquivocation | DoubleVote | SurroundVote.

Definition base_penalty_bps (o : SlashableOffense) : Z :=
  match o with
  | ProposerEquivocation => SLASH_PROPOSER_EQUIV_BPS
  | DoubleVote => SLASH_PROPOSER_EQUIV_BPS
  | SurroundVote => SLASH_SURROUND_VOTE_BPS
  end.

Inductive EvidenceError :=
| DifferentValidators | NotConflicting | AlreadyApplied | AlreadySlashed
| EvidenceBadSignature | EvidenceUnknownValidator.

Record SlashingEvidence := mkEvidence { ev_first : Attestation; ev_second : Attestation }.

Record ProposalEnvelope := mkEnvelope {
  env_header : Header.BlockHeaderV4;
  proposer_sig : list Z;
}.

(** [interfaces::SlashingEvidence]. *)
Inductive AnyEvidence :=
| ProposerEquivocationEvidence (a b : ProposalEnvelope)
| AttestationOffence (a b : Attestation).

Definition offense (ev : SlashingEvidence) : result EvidenceError SlashableOffense :=
  if negb (att_validator (ev_first ev) =? att_validator (ev_second ev)) then
    Err DifferentValidators
  else
    let a := att_data (ev_first ev) in
    let b := att_data (ev_second ev) in
    if is_double_vote a b then Ok DoubleVote
    else if surrounds a b || surrounds b a then Ok SurroundVote
    else Err NotConflicting.

Definition evidence_offence_epoch (ev : AnyEvidence) : Z :=
  match ev with
  | AttestationOffence a b => Z.max (target_epoch (att_data a)) (target_epoch (att_data b))
  | ProposerEquivocationEvidence a b =>
      Z.max (Header.slot (env_header a)) (Header.slot (env_header b)) / SLOTS_PER_EPOCH
  end.

Definition offence_predates_activation {G : Gates} (ev : AnyEvidence) : bool :=
  evidence_offence_epoch ev <? SLASHING_EVIDENCE_ACTIVATION_EPOCH G.

Record SlashingOutcome := mkOutcome {
  out_offense : SlashableOffense;
  out_penalty_bps : Z;
  operator_loss_sat : Z;
  delegation_losses_sat : list Z;
  total_slashed_sat : Z;
  whistleblower_reward_sat : Z;
  including_proposer : Z;
}.

Record SlashingState := mkState {
  applied : gset hash;
  ejected : gset Z;
  window : gmap Z Z;
}.

Definition new : SlashingState := mkState ∅ ∅ ∅.

Definition is_applied (st : SlashingState) (id : hash) : bool := bool_decide (id ∈ applied st).
Definition is_ejected (st : SlashingState) (v : Z) : bool := bool_decide (v ∈ ejected st).

(** [window.range(floor..=epoch)...sum()]. *)
Definition window_sum (st : SlashingState) (floor epoch : Z) : option Z :=
  try_from u128_MAX
    (map_sum (λ e s, if (floor <=? e) && (e <=? epoch) then s else 0) (window st)).

Definition window_floor (epoch : Z) : Z := saturating_sub epoch (CORRELATION_WINDOW_EPOCHS - 1).

Definition slashed_in_window (st : SlashingState) (epoch : Z) : option Z :=
  window_sum st (window_floor epoch) epoch.

Section slashing.
Context `{Sha3} {G : Gates}.

(** The two signing roots in a fixed order. *)
Definition pair_id (v : Z) (r1 r2 : hash) : hash :=
  let '(lo, hi) := if r1 <=? r2 then (r1, r2) else (r2, r1) in
  sha3_256 (DS_SLASH ++ le_bytes 4 v ++ hash_bytes lo ++ hash_bytes hi).

Definition evidence_id (ev : SlashingEvidence) : hash :=
  pair_id (att_validator (ev_first ev)) (signing_root (att_data (ev_first ev)))
    (signing_root (att_data (ev_second ev))).

Definition proposer_evidence_id (v : Z) (a b : Header.BlockHeaderV4) : hash :=
  pair_id v (Header.proposal_signing_root a) (Header.proposal_signing_root b).

Definition verify_offender_signature (keys : KeyLookup) (verifier : SignatureVerifier)
    (v message_epoch : Z) (root : hash) (signature : list Z) : option bool :=
  Kes.verify_validator keys (PolicyVerifier_consensus verifier message_epoch) v message_epoch
    root signature.

Definition priced_window_sat (st : SlashingState) (epoch : Z) : option Z :=
  let floor :=
    match slashing_economics_v2_start epoch with
    | Some activation => Z.max (window_floor epoch) activation
    | None => window_floor epoch
    end in
  window_sum st floor epoch.

Definition penalty_bps (st : SlashingState) (base_bps epoch total_active_sat : Z) : option Z :=
  if total_active_sat =? 0 then Some (Z.min base_bps 10000)
  else
    w ← priced_window_sat st epoch;
    x ← mul_w u128_MAX (CORRELATION_MULTIPLIER * 10000) w;
    y ← add_w u128_MAX base_bps (x / total_active_sat);
    Some (Z.min y 10000).

Definition commit_offense (st : SlashingState) (id : hash) (v : Z) (off : SlashableOffense)
    (epoch own_bond_sat : Z) (delegations : list Delegation.Delegation)
    (total_active_sat offender_effective_sat proposer : Z)
    : option (SlashingState * SlashingOutcome) :=
  bps ← penalty_bps st (base_penalty_bps off) epoch total_active_sat;
  let operator_loss := saturating_mul u128_MAX own_bond_sat (Z.min bps 10000) / 10000 in
  losses ← Delegation.apply_slash delegations v bps;
  losses_sum ← Delegation.sum_w 0 losses;
  let total_slashed := saturating_add u128_MAX operator_loss losses_sum in
  let reward := operator_loss / WHISTLEBLOWER_QUOTIENT in
  let window_loss :=
    if slashing_economics_v2_active epoch
    then saturating_mul u128_MAX offender_effective_sat (Z.min bps 10000) / 10000
    else total_slashed in
  entry ← add_w u128_MAX (get0 (window st) epoch) window_loss;
  let floor := window_floor epoch in
  Some (mkState ({[id]} ∪ applied st) ({[v]} ∪ ejected st)
          (filter (λ '(e, _), floor ≤ e) (<[epoch := entry]> (window st))),
        mkOutcome off bps operator_loss losses total_slashed reward proposer).

(** The signature checks of both messages, first failure first. *)
Fixpoint check_signatures (keys : KeyLookup) (verifier : SignatureVerifier) (v : Z)
    (messages : list (Z * hash * list Z)) : result EvidenceError unit :=
  match messages with
  | [] => Ok tt
  | (epoch, root, sg) :: messages =>
      match verify_offender_signature keys verifier v epoch root sg with
      | None => Err EvidenceUnknownValidator
      | Some false => Err EvidenceBadSignature
      | Some true => check_signatures keys verifier v messages
      end
  end.

Definition attestation_message (att : Attestation) : Z * hash * list Z :=
  (epoch_of (slot (att_data att)), signing_root (att_data att), att_signature att).

Definition proposal_message (env : ProposalEnvelope) : Z * hash * list Z :=
  (epoch_of (Header.slot (env_header env)), Header.proposal_signing_root (env_header env),
   proposer_sig env).

Definition process_with_effective_exposure (st : SlashingState) (ev : SlashingEvidence)
    (epoch own_bond_sat : Z) (delegations : list Delegation.Delegation)
    (total_active_sat offender_effective_sat proposer : Z)
    (verifier : SignatureVerifier) (keys : KeyLookup)
    : option (result EvidenceError (SlashingState * SlashingOutcome)) :=
  match offense ev with
  | Err e => Some (Err e)
  | Ok off =>
      let id := evidence_id ev in
      let v := att_validator (ev_first ev) in
      if is_applied st id then Some (Err AlreadyApplied)
      else if is_ejected st v then Some (Err AlreadySlashed)
      else
        match check_signatures keys verifier v
                [attestation_message (ev_first ev); attestation_message (ev_second ev)] with
        | Err e => Some (Err e)
        | Ok _ =>
            out ← commit_offense st id v off epoch own_bond_sat delegations total_active_sat
                    offender_effective_sat proposer;
            Some (Ok out)
        end
  end.

Definition process (st : SlashingState) (ev : SlashingEvidence) (epoch own_bond_sat : Z)
    (delegations : list Delegation.Delegation) (total_active_sat proposer : Z)
    (verifier : SignatureVerifier) (keys : KeyLookup) :=
  process_with_effective_exposure st ev epoch own_bond_sat delegations total_active_sat 0
    proposer verifier keys.

Definition process_proposer_with_effective_exposure (st : SlashingState)
    (first second : ProposalEnvelope)
    (epoch own_bond_sat : Z) (delegations : list Delegation.Delegation)
    (total_active_sat offender_effective_sat proposer : Z)
    (verifier : SignatureVerifier) (keys : KeyLookup)
    : option (result EvidenceError (SlashingState * SlashingOutcome)) :=
  let a := env_header first in
  let b := env_header second in
  if negb (Header.proposer_index a =? Header.proposer_index b) then
    Some (Err DifferentValidators)
  else if negb (Header.slot a =? Header.slot b) || (Header.block_id a =? Header.block_id b) then
    Some (Err NotConflicting)
  else
    let v := Header.proposer_index a in
    let id := proposer_evidence_id v a b in
    if is_applied st id then Some (Err AlreadyApplied)
    else if is_ejected st v then Some (Err AlreadySlashed)
    else
      match check_signatures keys verifier v [proposal_message first; proposal_message second] with
      | Err e => Some (Err e)
      | Ok _ =>
          out ← commit_offense st id v ProposerEquivocation epoch own_bond_sat delegations
                  total_active_sat offender_effective_sat proposer;
          Some (Ok out)
      end.

Definition process_proposer (st : SlashingState) (first second : ProposalEnvelope)
    (epoch own_bond_sat : Z) (delegations : list Delegation.Delegation)
    (total_active_sat proposer : Z) (verifier : SignatureVerifier) (keys : KeyLookup) :=
  process_proposer_with_effective_exposure st first second epoch own_bond_sat delegations
    total_active_sat 0 proposer verifier keys.


(** ** Penalties *)

Lemma sum_w_ok acc l :
  0 ≤ acc → Forall (Z.le 0) l → acc + sumZ l ≤ u128_MAX →
  Delegation.sum_w acc l = Some (acc + sumZ l).
Proof.
  intros Hacc Hl. revert acc Hacc. induction Hl as [|x l Hx Hl IH]; intros acc Hacc Hb; simpl in *.
  - f_equal. lia.
  - pose proof (sumZ_nonneg l Hl). rewrite add_w_ok by lia. simpl.
    rewrite IH by lia. f_equal. lia.
Qed.

Lemma apply_slash_spec ds v bps :
  Forall (λ d, 0 ≤ Delegation.amount_sat d ≤ 2 ^ 100) ds → 0 ≤ bps →
  ∃ losses, Delegation.apply_slash ds v bps = Some losses ∧
    Forall2 (λ d l, 0 ≤ l ≤ Delegation.amount_sat d ∧ (Delegation.validator d ≠ v → l = 0))
      ds losses.
Proof.
  intros Hds Hb. induction Hds as [|d ds Hd _ (losses & IH & Hall)]; simpl; [eauto|].
  rewrite IH. destruct (_ && _) eqn:E.
  - rewrite mul_w_ok by (unfold u128_MAX; nia). simpl. eexists. split; [done|].
    constructor; [|done]. boolp. split; [zlia|]. intros Hne. lia.
  - simpl. eexists. split; [done|]. constructor; [|done]. split; [lia|done].
Qed.

Lemma losses_sum ds losses v :
  Forall2 (λ d l, 0 ≤ l ≤ Delegation.amount_sat d ∧ (Delegation.validator d ≠ v → l = 0))
    ds losses →
  0 ≤ sumZ losses ≤ sumZ (Delegation.amount_sat <$> ds) ∧ Forall (Z.le 0) losses.
Proof.
  induction 1 as [|d l ds losses [Hl _] _ [IH Hn]]; csimpl; [done|].
  split; [lia|]. constructor; [lia|done].
Qed.

(** Amounts within the supply, far below the width of the arithmetic. *)
Definition priced_ok (st : SlashingState) (bond : Z) (ds : list Delegation.Delegation)
    (total eff : Z) : Prop :=
  (∀ e s, window st !! e = Some s → 0 ≤ s) ∧ map_sum (λ _ s, s) (window st) ≤ 2 ^ 100 ∧
  0 ≤ bond ≤ 2 ^ 100 ∧ Forall (λ d, 0 ≤ Delegation.amount_sat d ≤ 2 ^ 100) ds ∧
  sumZ (Delegation.amount_sat <$> ds) ≤ 2 ^ 100 ∧ 0 ≤ total ∧ 0 ≤ eff ≤ 2 ^ 100.

Lemma window_sum_ok st floor epoch :
  (∀ e s, window st !! e = Some s → 0 ≤ s) → map_sum (λ _ s, s) (window st) ≤ 2 ^ 100 →
  ∃ w, window_sum st floor epoch = Some w ∧ 0 ≤ w ≤ 2 ^ 100.
Proof.
  intros Hn Hs. unfold window_sum. set (w := map_sum _ _).
  assert (0 ≤ w ≤ map_sum (λ _ s, s) (window st)).
  { subst w. split; [apply map_sum_nonneg|apply map_sum_le];
      intros e s He; apply Hn in He; case_goal; lia. }
  exists w. rewrite try_from_Some. unfold u128_MAX. lia.
Qed.

Lemma penalty_bps_ok st off epoch bond ds total eff :
  priced_ok st bond ds total eff →
  ∃ bps, penalty_bps st (base_penalty_bps off) epoch total = Some bps ∧
    base_penalty_bps off ≤ bps ≤ 10000.
Proof.
  intros (Hn & Hs & _ & _ & _ & Ht & _).
  assert (0 ≤ base_penalty_bps off ≤ 10000) as Hbase by (by destruct off).
  unfold penalty_bps. destruct (Z.eqb_spec total 0).
  { eexists. split; [done|]. lia. }
  unfold priced_window_sat. edestruct window_sum_ok as (w & -> & Hw); [done..|].
  cbn [mbind option_bind]. unfold CORRELATION_MULTIPLIER.
  rewrite mul_w_ok by (unfold u128_MAX; lia). cbn [mbind option_bind].
  assert (0 ≤ 3 * 10000 * w / total ≤ 3 * 10000 * w).
  { split; [apply Z.div_pos; lia|]. apply Z.div_le_upper_bound; nia. }
  rewrite add_w_ok by (unfold u128_MAX; lia). cbn [mbind option_bind].
  eexists. split; [done|]. lia.
Qed.

Lemma commit_offense_ok st id v off epoch bond ds total eff proposer :
  priced_ok st bond ds total eff →
  ∃ st' out, commit_offense st id v off epoch bond ds total eff proposer = Some (st', out) ∧
    out_offense out = off ∧ base_penalty_bps off ≤ out_penalty_bps out ≤ 10000 ∧
    operator_loss_sat out = bond * out_penalty_bps out / 10000 ∧
    0 ≤ operator_loss_sat out ≤ bond ∧
    Forall2 (λ d l, 0 ≤ l ≤ Delegation.amount_sat d ∧ (Delegation.validator d ≠ v → l = 0))
      ds (delegation_losses_sat out) ∧
    total_slashed_sat out = operator_loss_sat out + sumZ (delegation_losses_sat out) ∧
    whistleblower_reward_sat out = operator_loss_sat out / WHISTLEBLOWER_QUOTIENT ∧
    0 ≤ WHISTLEBLOWER_QUOTIENT * whistleblower_reward_sat out ≤ operator_loss_sat out ∧
    applied st' = {[id]} ∪ applied st ∧ ejected st' = {[v]} ∪ ejected st.
Proof.
  intros Hok. destruct (penalty_bps_ok st off epoch bond ds total eff Hok) as (bps & Hbps & Hr).
  destruct Hok as (Hn & Hs & Hbond & Hds & Hsum & _ & Heff).
  assert (0 ≤ base_penalty_bps off) by (by destruct off).
  destruct (apply_slash_spec ds v bps Hds ltac:(lia)) as (losses & Hl & Hall).
  pose proof (losses_sum _ _ _ Hall) as [Hls Hnn].
  unfold commit_offense. rewrite Hbps. cbn [mbind option_bind]. rewrite Hl. cbn [mbind option_bind].
  rewrite sum_w_ok by (done || unfold u128_MAX; lia). cbn [mbind option_bind].
  rewrite Z.min_l by lia.
  assert (∀ x, 0 ≤ x ≤ 2 ^ 100 → saturating_mul u128_MAX x bps = x * bps) as Hmul
    by (intros; unfold saturating_mul, u128_MAX; nia).
  rewrite (Hmul bond Hbond), (Hmul eff Heff).
  pose proof (share_bounds bond bps 10000 ltac:(lia) ltac:(lia)) as Hop.
  unfold saturating_add. rewrite (Z.min_r u128_MAX (bond * bps / 10000 + _)) by (unfold u128_MAX; lia).
  rewrite add_w_ok.
  - cbn [mbind option_bind]. eexists _, _. split; [done|]. simpl.
    split_and!; try done; try lia; unfold WHISTLEBLOWER_QUOTIENT; zlia.
  - assert (0 ≤ get0 (window st) epoch ≤ 2 ^ 100).
    { unfold get0. destruct (window st !! epoch) as [s|] eqn:E; simpl; [|lia].
      split; [eauto|]. etrans; [|exact Hs]. exact (map_sum_elem (λ _ s, s) _ _ _ Hn E). }
    case_goal; [|unfold u128_MAX; lia].
    pose proof (share_bounds eff bps 10000 ltac:(lia) ltac:(lia)). unfold u128_MAX. lia.
Qed.

(** C22: a slash takes what it should and no more.  For amounts of at most 2^100
    satoshi ([priced_ok]: the bond, the delegations and their sum, the window and the
    effective stake; the supply is below 2^64), processing attestation evidence never
    panics; when it is accepted the penalty lies between the offence's base and 100%, the
    operator loses that share of the bond, each delegation to the offender at most its
    amount and every other delegation nothing, the total is the sum of the losses, and the
    whistleblower gets 1/32, rounded down, of what the operator alone lost (the doc of
    [SlashingOutcome] and the tests; two other comments say 1/32 of the whole penalty). *)
Theorem slashing_penalty_bounds st ev epoch bond ds total eff proposer verifier keys :
  priced_ok st bond ds total eff →
  ∃ r, process_with_effective_exposure st ev epoch bond ds total eff proposer verifier keys =
    Some r ∧
  ∀ st' out, r = Ok (st', out) →
    offense ev = Ok (out_offense out) ∧
    base_penalty_bps (out_offense out) ≤ out_penalty_bps out ≤ 10000 ∧
    operator_loss_sat out = bond * out_penalty_bps out / 10000 ∧
    Forall2 (λ d l, 0 ≤ l ≤ Delegation.amount_sat d ∧
      (Delegation.validator d ≠ att_validator (ev_first ev) → l = 0))
      ds (delegation_losses_sat out) ∧
    total_slashed_sat out = operator_loss_sat out + sumZ (delegation_losses_sat out) ∧
    whistleblower_reward_sat out = operator_loss_sat out / WHISTLEBLOWER_QUOTIENT ∧
    WHISTLEBLOWER_QUOTIENT * whistleblower_reward_sat out ≤ operator_loss_sat out ≤ bond.
Proof.
  intros Hok. unfold process_with_effective_exposure.
  destruct (offense ev) as [off|e] eqn:Eo; [|by eexists].
  case_goal; [by eexists|]. case_goal; [by eexists|].
  destruct (check_signatures _ _ _ _); [|by eexists].
  edestruct commit_offense_ok as (st1 & o1 & -> & Ho & Hp & Hl & Hlb & Hd & Ht & Hq & Hw & _);
    [exact Hok|]. cbn [mbind option_bind]. eexists. split; [done|].
  intros st' out [= <- <-]. rewrite Ho in *. split_and!; done || lia.
Qed.

(** ** Signs of a slash

    What an accepted offence guarantees without any bound on the amounts. *)

Lemma penalty_bps_nonneg st off epoch total bps :
  (∀ e s, window st !! e = Some s → 0 ≤ s) → 0 ≤ total →
  penalty_bps st (base_penalty_bps off) epoch total = Some bps → 0 ≤ bps ≤ 10000.
Proof.
  intros Hn Ht. assert (0 ≤ base_penalty_bps off ≤ 10000) as Hbase by (by destruct off).
  unfold penalty_bps. destruct (Z.eqb_spec total 0) as [|Hne]; [intros [= <-]; lia|].
  intros (w & Hw & (x & Hx & (y & Hy & [= <-])%bind_Some)%bind_Some)%bind_Some.
  assert (0 ≤ w) as Hw0.
  { unfold priced_window_sat, window_sum in Hw. checked_inv. apply map_sum_nonneg.
    intros e sat He%Hn. destruct (_ && _); lia. }
  clear Hw.
  checked_inv. assert (0 ≤ CORRELATION_MULTIPLIER * 10000 * w / total); [|lia].
  apply Z.div_pos; unfold CORRELATION_MULTIPLIER; lia.
Qed.

Lemma apply_slash_nonneg ds v bps losses :
  Forall (λ d, 0 ≤ Delegation.amount_sat d) ds → 0 ≤ bps →
  Delegation.apply_slash ds v bps = Some losses → Forall (Z.le 0) losses.
Proof.
  intros Hds Hb. revert losses. induction Hds as [|d ds Hd _ IH]; cbn; intros losses.
  { intros [= <-]. constructor. }
  intros Hl. repeat (apply bind_Some in Hl as (? & ? & Hl)). simplify_eq.
  constructor; [|eauto]. destruct (_ && _); simplify_eq; [|done].
  repeat match goal with H : _ ≫= _ = Some _ |- _ => apply bind_Some in H as (? & ? & ?) end.
  checked_inv. simplify_eq. apply Z.div_pos; lia.
Qed.

Lemma sum_w_nonneg acc l total :
  Delegation.sum_w acc l = Some total → 0 ≤ acc → Forall (Z.le 0) l → 0 ≤ total.
Proof.
  intros Hs Ha Hl. revert acc Hs Ha. induction Hl as [|x l Hx _ IH]; cbn; intros acc Hs Ha; [congruence|].
  apply bind_Some in Hs as (y & Hy & Hs). checked_inv. apply (IH _ Hs). lia.
Qed.

Lemma commit_offense_signs st id v off epoch bond ds total eff proposer st' out :
  commit_offense st id v off epoch bond ds total eff proposer = Some (st', out) →
  (∀ e s, window st !! e = Some s → 0 ≤ s) → 0 ≤ bond → Forall (λ d, 0 ≤ Delegation.amount_sat d) ds →
  0 ≤ total → 0 ≤ eff →
  0 ≤ operator_loss_sat out ≤ bond ∧
  0 ≤ WHISTLEBLOWER_QUOTIENT * whistleblower_reward_sat out ≤ operator_loss_sat out ∧
  Forall (Z.le 0) (delegation_losses_sat out) ∧ (∀ e s, window st' !! e = Some s → 0 ≤ s).
Proof.
  unfold commit_offense. intros Hc Hn Hbond Hds Htot Heff.
  apply bind_Some in Hc as (bps & Hbps & Hc). apply penalty_bps_nonneg in Hbps; [|done..].
  apply bind_Some in Hc as (losses & Hl & Hc). apply apply_slash_nonneg in Hl; [|done|lia].
  apply bind_Some in Hc as (ls & Hls & Hc). apply sum_w_nonneg in Hls; [|lia|done].
  apply bind_Some in Hc as (entry & He & [= <- <-]). cbn.
  assert (∀ x, 0 ≤ x → 0 ≤ saturating_mul u128_MAX x (Z.min bps 10000) / 10000 ≤ x) as Hshare.
  { intros x Hx. assert (0 ≤ saturating_mul u128_MAX x (Z.min bps 10000) ≤ x * 10000)
      by (unfold saturating_mul, u128_MAX; nia). zlia. }
  specialize (Hshare bond Hbond) as Hop. split_and!; [lia..| | |done|].
  1,2: unfold WHISTLEBLOWER_QUOTIENT; zlia.
  assert (map_Forall (λ _ x, 0 ≤ x) (<[epoch := entry]> (window st))) as Hins.
  { apply map_Forall_insert_2; [|done].
    assert (0 ≤ get0 (window st) epoch).
    { unfold get0. destruct (window st !! epoch) eqn:Ew; cbn; [by eapply Hn|done]. }
    specialize (Hshare eff Heff) as Hex. checked_inv. unfold saturating_add, u128_MAX in *.
    destruct (slashing_economics_v2_active epoch); lia. }
  intros e x [Hx _]%map_lookup_filter_Some. exact (Hins e x Hx).
Qed.

(** ** No validator is slashed twice *)

(** One accepted piece of evidence against [v]. *)
Inductive slash_step : SlashingState → Z → SlashingState → Prop :=
| step_attestation st ev epoch bond ds total eff proposer verifier keys st' out :
    process_with_effective_exposure st ev epoch bond ds total eff proposer verifier keys =
      Some (Ok (st', out)) →
    slash_step st (att_validator (ev_first ev)) st'
| step_proposer st a b epoch bond ds total eff proposer verifier keys st' out :
    process_proposer_with_effective_exposure st a b epoch bond ds total eff proposer verifier keys =
      Some (Ok (st', out)) →
    slash_step st (Header.proposer_index (env_header a)) st'.

Lemma commit_offense_sets st id v off epoch bond ds total eff proposer st' out :
  commit_offense st id v off epoch bond ds total eff proposer = Some (st', out) →
  applied st' = {[id]} ∪ applied st ∧ ejected st' = {[v]} ∪ ejected st.
Proof.
  unfold commit_offense. intros Hc. repeat (apply bind_Some in Hc as (? & _ & Hc)).
  by simplify_eq/=.
Qed.

Lemma process_Ok st ev epoch bond ds total eff proposer verifier keys st' out :
  process_with_effective_exposure st ev epoch bond ds total eff proposer verifier keys =
    Some (Ok (st', out)) →
  is_ok (offense ev) = true ∧
  att_validator (ev_first ev) ∉ ejected st ∧
  applied st' = {[evidence_id ev]} ∪ applied st ∧
  ejected st' = {[att_validator (ev_first ev)]} ∪ ejected st.
Proof.
  unfold process_with_effective_exposure. destruct (offense ev) as [off|]; [|done].
  case_goal as E1; [done|]. case_goal as E2; [done|]. destruct (check_signatures _ _ _ _); [|done].
  intros (o & Hc & [= ->])%bind_Some. apply commit_offense_sets in Hc as [? ?].
  unfold is_ejected in E2. boolp. eauto.
Qed.

Lemma process_proposer_Ok st a b epoch bond ds total eff proposer verifier keys st' out :
  process_proposer_with_effective_exposure st a b epoch bond ds total eff proposer verifier keys =
    Some (Ok (st', out)) →
  Header.proposer_index (env_header a) ∉ ejected st ∧
  applied st ⊆ applied st' ∧ ejected st' = {[Header.proposer_index (env_header a)]} ∪ ejected st.
Proof.
  unfold process_proposer_with_effective_exposure.
  do 3 (case_goal; [done|]). case_goal as E; [done|]. destruct (check_signatures _ _ _ _); [|done].
  intros (o & Hc & [= ->])%bind_Some. apply commit_offense_sets in Hc as [-> ->].
  unfold is_ejected in E. boolp. set_solver.
Qed.

Lemma slash_step_sets st v st' :
  slash_step st v st' →
  v ∉ ejected st ∧ ejected st' = {[v]} ∪ ejected st ∧ applied st ⊆ applied st'.
Proof.
  destruct 1 as [???????????? Hp|????????????? Hp].
  - apply process_Ok in Hp as (_ & ? & -> & ->). set_solver.
  - apply process_proposer_Ok in Hp as (? & ? & ->). set_solver.
Qed.

Inductive slash_run : SlashingState → list Z → SlashingState → Prop :=
| run_nil st : slash_run st [] st
| run_cons st v st1 vs st2 : slash_step st v st1 → slash_run st1 vs st2 → slash_run st (v :: vs) st2.

Lemma slash_run_sets st vs st' :
  slash_run st vs st' →
  ejected st' = list_to_set vs ∪ ejected st ∧ applied st ⊆ applied st' ∧
  NoDup vs ∧ ∀ v, v ∈ vs → v ∉ ejected st.
Proof.
  induction 1 as [st|st v st1 vs st2 Hs _ (IH1 & IH2 & IH3 & IH4)]; [set_solver by constructor|].
  apply slash_step_sets in Hs as (Hv & He & Ha). rewrite He in *. split_and!.
  - rewrite IH1. set_solver.
  - set_solver.
  - constructor; [|done]. intros Hin. apply IH4 in Hin. set_solver.
  - intros w [->|Hw]%elem_of_cons; [done|]. apply IH4 in Hw. set_solver.
Qed.

Definition swap_pair (ev : SlashingEvidence) : SlashingEvidence :=
  mkEvidence (ev_second ev) (ev_first ev).

Lemma pair_id_comm v r1 r2 : pair_id v r1 r2 = pair_id v r2 r1.
Proof.
  unfold pair_id. destruct (Z.leb_spec r1 r2), (Z.leb_spec r2 r1); try done; [|lia].
  by replace r2 with r1 by lia.
Qed.

Lemma is_double_vote_comm a b : is_double_vote a b = is_double_vote b a.
Proof.
  unfold is_double_vote. rewrite (Z.eqb_sym (target_epoch b)). f_equal.
  apply bool_decide_ext. naive_solver.
Qed.

Lemma offense_swap ev : offense (swap_pair ev) = offense ev.
Proof.
  unfold offense, swap_pair. simpl. rewrite (Z.eqb_sym (att_validator (ev_second ev))).
  by rewrite is_double_vote_comm, orb_comm.
Qed.

Lemma evidence_id_swap ev : is_ok (offense ev) = true → evidence_id (swap_pair ev) = evidence_id ev.
Proof.
  unfold offense, evidence_id, swap_pair. simpl. case_goal; [done|]. boolp. intros _.
  rewrite pair_id_comm. congruence.
Qed.

Lemma applied_refused st ev epoch bond ds total eff proposer verifier keys :
  is_ok (offense ev) = true → evidence_id ev ∈ applied st →
  process_with_effective_exposure st ev epoch bond ds total eff proposer verifier keys =
    Some (Err AlreadyApplied).
Proof.
  intros Ho Hid. unfold process_with_effective_exposure, is_applied.
  destruct (offense ev); [|done]. by rewrite bool_decide_true.
Qed.

(** C23: no one is slashed twice.  Along any run of accepted evidence the offenders
    are pairwise different; an offender stays ejected, so every later piece of
    evidence against it, vote or proposal, is refused without a change of state;
    and replaying accepted vote evidence, with its two votes in the same or in the other
    order, is refused as already applied. *)
Theorem no_double_slashing st vs st' v epoch bond ds total eff proposer verifier keys :
  slash_run st vs st' → v ∈ vs →
  NoDup vs ∧
  (∀ ev, att_validator (ev_first ev) = v → ∃ e,
     process_with_effective_exposure st' ev epoch bond ds total eff proposer verifier keys =
       Some (Err e)) ∧
  (∀ a b, Header.proposer_index (env_header a) = v → ∃ e,
     process_proposer_with_effective_exposure st' a b epoch bond ds total eff proposer verifier keys
       = Some (Err e)) ∧
  (∀ ev epoch' bond' ds' total' eff' proposer' verifier' keys' st1 out,
     process_with_effective_exposure st' ev epoch' bond' ds' total' eff' proposer' verifier' keys' =
       Some (Ok (st1, out)) →
     process_with_effective_exposure st1 ev epoch bond ds total eff proposer verifier keys =
       Some (Err AlreadyApplied) ∧
     process_with_effective_exposure st1 (swap_pair ev) epoch bond ds total eff proposer verifier keys =
       Some (Err AlreadyApplied)).
Proof.
  intros Hrun Hv. destruct (slash_run_sets _ _ _ Hrun) as (He & _ & Hnd & _).
  assert (is_ejected st' v = true) as Hej
    by (apply bool_decide_eq_true; rewrite He; set_solver).
  split_and!; [done|..].
  - intros ev <-. unfold process_with_effective_exposure.
    destruct (offense ev); [|eauto]. case_goal; [eauto|]. rewrite Hej. eauto.
  - intros a b <-. unfold process_proposer_with_effective_exposure.
    do 3 (case_goal; [eauto|]). rewrite Hej. eauto.
  - intros ev epoch' bond' ds' total' eff' proposer' verifier' keys' st1 out
      (Hok & _ & Ha & _)%process_Ok.
    split; apply applied_refused; [done|rewrite Ha; set_solver|by rewrite offense_swap|].
    rewrite evidence_id_swap, Ha by done. set_solver.
Qed.
End slashing.

(** ** Concrete evidence *)

Definition ex_verifier : SignatureVerifier :=
  default_verifier (λ _ _ _, true) (λ _ _ _ _, false).
Definition ex_keys : KeyLookup := static_lookup (λ v, if v =? 4 then Some [1] else None).
Definition ex_evidence : SlashingEvidence :=
  mkEvidence (mkAttestation (mkAttData 64 1 0 2 2 3) 4 [9])
             (mkAttestation (mkAttData 64 1 0 2 2 8) 4 [9]).
Definition ex_ds : list Delegation.Delegation :=
  [Delegation.mkDelegation 1 4 1000 0 None true; Delegation.mkDelegation 2 5 1000 0 None true].
Definition ex_after : SlashingState :=
  match process_with_effective_exposure (H := Kes.ex_sha3) (G := mainnet) new ex_evidence 9 50000
          ex_ds 1000000 0 7 ex_verifier ex_keys with
  | Some (Ok (st, _)) => st
  | _ => new
  end.

Lemma slashing_penalty_bounds_witness :
  ∃ r, process_with_effective_exposure (H := Kes.ex_sha3) (G := mainnet) new ex_evidence 9 50000
    ex_ds 1000000 0 7 ex_verifier ex_keys = Some r.
Proof.
  destruct (slashing_penalty_bounds (H := Kes.ex_sha3) (G := mainnet) new ex_evidence 9 50000
    ex_ds 1000000 0 7 ex_verifier ex_keys) as (r & Hr & _).
  - split_and!; [|by vm_compute|lia|lia| |by vm_compute|lia|lia|lia].
    + intros e s He. unfold new in He. cbn [window] in He. by rewrite lookup_empty in He.
    + repeat constructor; simpl; lia.
  - exists r. exact Hr.
Defined.

Lemma no_double_slashing_witness :
  ∃ e, process_with_effective_exposure (H := Kes.ex_sha3) (G := mainnet) ex_after ex_evidence 10
    50000 ex_ds 1000000 0 7 ex_verifier ex_keys = Some (Err e).
Proof.
  refine (proj1 (proj2 (no_double_slashing (H := Kes.ex_sha3) (G := mainnet) new [4] ex_after 4
    10 50000 ex_ds 1000000 0 7 ex_verifier ex_keys _ _)) ex_evidence eq_refl); [|left].
  apply (run_cons new 4 ex_after); [|constructor].
  eapply (step_attestation new ex_evidence 9 50000 ex_ds 1000000 0 7 ex_verifier ex_keys).
  vm_compute. reflexivity.
Defined.

End Slashing.
