(* ===== verification/SlashProt.v ===== *)
(** * Slashing protection of the validator node

    Models [crates/bloch-pos-node/src/slashprot.rs]: the watermarks a node writes
    durably before every signature, the three versions of the record file, the
    guards around signing, and the signer anchor (a second copy of the record).

    The file system is two optional byte strings, the record and the anchor.  A
    write is atomic (staging file and rename); it may fail, and then the new
    contents may or may not have reached the disk: [WriteOutcome] is chosen by
    the environment at every write.  Directory creation, locks, ownership checks
    and the texts of the errors are left out.  SHAKE256 is a parameter. *)

From Stdlib Require Import String.
From S2P Require Import Prelude Bytes Params Types Slashing.
Local Open Scope Z_scope.

Module SlashProt.
Import Bytes Params Types.

Definition MAGIC_V1 : list Z := string_bytes "BPOSSLP1".
Definition VERSION_V1 : Z := 1.
Definition RECORD_LEN_V1 : nat := 8 + 4 + 8 * 4 + 32.
Definition MAGIC_V2 : list Z := string_bytes "BPOSSLP2".
Definition VERSION_V2 : Z := 2.
Definition RECORD_LEN_V2 : nat := RECORD_LEN_V1 + 32 + 32.
Definition MAGIC_V3 : list Z := string_bytes "BPOSSLP3".
Definition VERSION_V3 : Z := 3.
Definition MAX_RECORD_LEN : nat := RECORD_LEN_V2 + 8 + 8 + 4 + 32 + 32.
Definition NONE : Z := u64_MAX.

Record Watermarks := mkMarks {
  proposal_slot : option Z;
  attestation_slot : option Z;
  wm_source_epoch : option Z;
  wm_target_epoch : option Z;
}.

Global Instance Watermarks_eq_dec : EqDecision Watermarks.
Proof. solve_decision. Defined.

Definition no_marks : Watermarks := mkMarks None None None None.

Record RecommitIntent := mkIntent {
  ri_epoch : Z;
  generation : Z;
  commitment : hash;
  ri_signing_root : hash;
}.

Global Instance RecommitIntent_eq_dec : EqDecision RecommitIntent.
Proof. solve_decision. Defined.

Record RecommitProtection := mkRecommit {
  epoch_floor : option Z;
  intent : option RecommitIntent;
}.

Global Instance RecommitProtection_eq_dec : EqDecision RecommitProtection.
Proof. solve_decision. Defined.

Record Binding := mkBinding { validator_pubkey_sha3 : hash; genesis_digest : hash }.

Global Instance Binding_eq_dec : EqDecision Binding.
Proof. solve_decision. Defined.

Inductive IoError := InvalidData | InvalidInput | WriteFailed | ReadFailed.

Inductive Refusal :=
| RefuseProposal (slot watermark : Z)
| RefuseAttestationSlot (slot watermark : Z)
| RefuseDoubleVote (target watermark : Z)
| RefuseSurroundVote (source watermark : Z)
| RefuseRecommit (epoch gen : Z)
| RefuseIo (e : IoError).

(** [Option<u64>::max]: [None] is below every value. *)
Definition opt_max (a b : option Z) : option Z :=
  match a, b with
  | Some x, Some y => Some (Z.max x y)
  | Some x, None => Some x
  | None, b => b
  end.

Definition max_marks (a b : Watermarks) : Watermarks :=
  mkMarks (opt_max (proposal_slot a) (proposal_slot b))
    (opt_max (attestation_slot a) (attestation_slot b))
    (opt_max (wm_source_epoch a) (wm_source_epoch b))
    (opt_max (wm_target_epoch a) (wm_target_epoch b)).

Definition or_else {A} (a b : option A) : option A :=
  match a with Some _ => a | None => b end.

Definition merge_intents (a b : RecommitIntent) : result IoError RecommitIntent :=
  if ((ri_epoch a =? ri_epoch b) && negb (bool_decide (a = b)))
     || ((generation a =? generation b) && negb (commitment a =? commitment b))
     || ((ri_epoch a <? ri_epoch b) && (generation b <? generation a))
     || ((ri_epoch b <? ri_epoch a) && (generation a <? generation b))
  then Err InvalidData
  else Ok (if ri_epoch b <=? ri_epoch a then a else b).

Definition merge_recommit (left right : option RecommitProtection)
    : result IoError (option RecommitProtection) :=
  match left, right with
  | Some l, Some r =>
      i ← match intent l, intent r with
          | Some a, Some b => i ← merge_intents a b; Ok (Some i)
          | a, b => Ok (or_else a b)
          end;
      Ok (Some (mkRecommit (opt_max (epoch_floor l) (epoch_floor r)) i))
  | _, _ => Ok (or_else left right)
  end.

(** ** The record file *)

Section codec.
Context `{Shake32}.

Definition digest (body : list Z) : list Z := hash_bytes (shake256_32 body).

Definition mark_bytes (m : option Z) : list Z := le_bytes 8 (default NONE m).

Definition marks_bytes (wm : Watermarks) : list Z :=
  mark_bytes (proposal_slot wm) ++ mark_bytes (attestation_slot wm)
  ++ mark_bytes (wm_source_epoch wm) ++ mark_bytes (wm_target_epoch wm).

Definition binding_bytes (b : Binding) : list Z :=
  hash_bytes (validator_pubkey_sha3 b) ++ hash_bytes (genesis_digest b).

Definition with_digest (body : list Z) : list Z := body ++ digest body.

Definition encode (wm : Watermarks) (binding : option Binding) : list Z :=
  with_digest
    (match binding with
     | Some _ => MAGIC_V2 ++ le_bytes 4 VERSION_V2
     | None => MAGIC_V1 ++ le_bytes 4 VERSION_V1
     end ++ marks_bytes wm ++ match binding with Some b => binding_bytes b | None => [] end).

(** The V2 body with the V3 header and the recommit fields appended. *)
Definition encode_v3 (wm : Watermarks) (b : Binding) (p : RecommitProtection) : list Z :=
  let i := default (mkIntent NONE 0 0 0) (intent p) in
  with_digest
    (MAGIC_V3 ++ le_bytes 4 VERSION_V3 ++ drop 12 (take 108 (encode wm (Some b)))
     ++ mark_bytes (epoch_floor p) ++ le_bytes 8 (ri_epoch i) ++ le_bytes 4 (generation i)
     ++ hash_bytes (commitment i) ++ hash_bytes (ri_signing_root i)).

(** The [i]-th 8-byte field after the header. *)
Definition field (bytes : list Z) (i : nat) : option Z :=
  let v := from_le_bytes (slice (12 + 8 * i) (12 + 8 * i + 8) bytes) in
  if v =? NONE then None else Some v.

Definition has_header (bytes magic : list Z) (version : Z) : bool :=
  bool_decide (take 8 bytes = magic) && bool_decide (slice 8 12 bytes = le_bytes 4 version).

Definition decode_layout (bytes : list Z) : option (nat * bool) :=
  if (length bytes =? RECORD_LEN_V1)%nat && has_header bytes MAGIC_V1 VERSION_V1 then
    Some (RECORD_LEN_V1 - 32, false)%nat
  else if (length bytes =? RECORD_LEN_V2)%nat && has_header bytes MAGIC_V2 VERSION_V2 then
    Some (RECORD_LEN_V2 - 32, true)%nat
  else if (length bytes =? MAX_RECORD_LEN)%nat && has_header bytes MAGIC_V3 VERSION_V3 then
    Some (MAX_RECORD_LEN - 32, true)%nat
  else None.

Definition decode_recommit (bytes : list Z) : option RecommitProtection :=
  let floor := from_le_bytes (slice 108 116 bytes) in
  let ep := from_le_bytes (slice 116 124 bytes) in
  let gen := from_le_bytes (slice 124 128 bytes) in
  let com := from_hash_bytes (slice 128 160 bytes) in
  let root := from_hash_bytes (slice 160 192 bytes) in
  i ← (if ep =? NONE then
         if negb (gen =? 0) || negb (com =? 0) || negb (root =? 0) then None else Some None
       else if gen =? 0 then None
       else Some (Some (mkIntent ep gen com root)));
  Some (mkRecommit (if floor =? NONE then None else Some floor) i).

Definition decode_record (bytes : list Z)
    : option (Watermarks * option Binding * option RecommitProtection) :=
  '(body_len, bound) ← decode_layout bytes;
  if negb (bool_decide (drop body_len bytes = digest (take body_len bytes))) then None
  else
    let wm := mkMarks (field bytes 0) (field bytes 1) (field bytes 2) (field bytes 3) in
    let binding :=
      if bound : bool
      then Some (mkBinding (from_hash_bytes (slice 44 76 bytes)) (from_hash_bytes (slice 76 108 bytes)))
      else None in
    r ← (if (length bytes =? MAX_RECORD_LEN)%nat then Some <$> decode_recommit bytes
         else Some None);
    Some (wm, binding, r).

(** What [write_record] puts on disk. *)
Definition record_bytes (wm : Watermarks) (binding : option Binding)
    (recommit : option RecommitProtection) : result IoError (list Z) :=
  match recommit with
  | Some p =>
      match binding with
      | Some b => Ok (encode_v3 wm b p)
      | None => Err InvalidData
      end
  | None => Ok (encode wm binding)
  end.

Definition merge_records (binding : Binding) (left right : list Z) : result IoError (list Z) :=
  '(lw, lb, lr) ← ok_or (decode_record left) InvalidData;
  '(rw, rb, rr) ← ok_or (decode_record right) InvalidData;
  if negb (bool_decide (lb = Some binding)) || negb (bool_decide (rb = Some binding)) then
    Err InvalidData
  else
    let wm := max_marks lw rw in
    r ← merge_recommit lr rr;
    Ok (match r with Some p => encode_v3 wm binding p | None => encode wm (Some binding) end).


(** ** Disk *)

Inductive WriteOutcome := WriteOk | WriteErr (published : bool).

Record Disk := mkDisk { file : option (list Z); anchor_file : option (list Z) }.

(** [store::atomic_private_write]: the result and the contents afterwards. *)
Definition atomic_private_write (o : WriteOutcome) (old : option (list Z)) (bytes : list Z)
    : result IoError unit * option (list Z) :=
  match o with
  | WriteOk => (Ok tt, Some bytes)
  | WriteErr published => (Err WriteFailed, if published then Some bytes else old)
  end.

Record SlashingProtection := mkProtection {
  wm : Watermarks;
  binding : option Binding;
  recommit : option RecommitProtection;
  mirror : bool;
}.

Definition write_record (self : SlashingProtection) (d : Disk) (next : Watermarks)
    (r : option RecommitProtection) (o o' : WriteOutcome) : result IoError unit * Disk :=
  match record_bytes next (binding self) r with
  | Err e => (Err e, d)
  | Ok bytes =>
      match atomic_private_write o (file d) bytes with
      | (Err e, f) => (Err e, mkDisk f (anchor_file d))
      | (Ok _, f) =>
          if mirror self then
            let '(res, a) := atomic_private_write o' (anchor_file d) bytes in (res, mkDisk f a)
          else (Ok tt, mkDisk f (anchor_file d))
      end
  end.

Definition set_wm (self : SlashingProtection) (next : Watermarks) : SlashingProtection :=
  mkProtection next (binding self) (recommit self) (mirror self).

(** [commit]: durable first, in memory only if that succeeded. *)
Definition commit (self : SlashingProtection) (d : Disk) (next : Watermarks) (o o' : WriteOutcome)
    : result Refusal unit * SlashingProtection * Disk :=
  match write_record self d next (recommit self) o o' with
  | (Err e, d) => (Err (RefuseIo e), self, d)
  | (Ok _, d) => (Ok tt, set_wm self next, d)
  end.

(** ** Opening *)

Definition open_with (d : Disk) (want : option Binding) : result IoError SlashingProtection :=
  '(w, on_disk, r) ← match file d with
                     | Some bytes => ok_or (decode_record bytes) InvalidData
                     | None => Ok (no_marks, None, None)
                     end;
  b ← match on_disk, want with
      | Some f, Some mine => if bool_decide (f = mine) then Ok (Some f) else Err InvalidData
      | Some f, None => Ok (Some f)
      | None, Some mine => Ok (Some mine)
      | None, None => Ok None
      end;
  Ok (mkProtection w b r false).

(** ** The guards: [Ok] is a signature made *)

Definition at_most (value : Z) (mark : option Z) : option Z :=
  match mark with Some w => if value <=? w then Some w else None | None => None end.

Definition below (value : Z) (mark : option Z) : option Z :=
  match mark with Some w => if value <? w then Some w else None | None => None end.

Definition guard_proposal (self : SlashingProtection) (d : Disk) (slot : Z) (o o' : WriteOutcome)
    : result Refusal unit * SlashingProtection * Disk :=
  match at_most slot (proposal_slot (wm self)) with
  | Some w => (Err (RefuseProposal slot w), self, d)
  | None =>
      let next := mkMarks (Some slot) (attestation_slot (wm self)) (wm_source_epoch (wm self))
                    (wm_target_epoch (wm self)) in
      commit self d next o o'
  end.

Definition guard_attestation (self : SlashingProtection) (d : Disk)
    (slot source_epoch target_epoch : Z) (o o' : WriteOutcome)
    : result Refusal unit * SlashingProtection * Disk :=
  match at_most slot (attestation_slot (wm self)) with
  | Some w => (Err (RefuseAttestationSlot slot w), self, d)
  | None =>
      match at_most target_epoch (wm_target_epoch (wm self)) with
      | Some w => (Err (RefuseDoubleVote target_epoch w), self, d)
      | None =>
          match below source_epoch (wm_source_epoch (wm self)) with
          | Some w => (Err (RefuseSurroundVote source_epoch w), self, d)
          | None =>
              let next := mkMarks (proposal_slot (wm self)) (Some slot) (Some source_epoch)
                            (Some target_epoch) in
              commit self d next o o'
          end
      end
  end.

(** The checks against the last durable intent. *)
Definition recommit_conflict (prev : RecommitIntent) (ep gen : Z) (com root : hash) : bool :=
  (ep <? ri_epoch prev) || (gen <? generation prev)
  || ((ep =? ri_epoch prev) && negb (root =? ri_signing_root prev))
  || ((gen =? generation prev) && negb (com =? commitment prev))
  || ((ep =? ri_epoch prev) && negb (gen =? generation prev)).

Definition guard_recommit (self : SlashingProtection) (d : Disk) (ep gen : Z) (com root : hash)
    (o o' : WriteOutcome) : result Refusal unit * SlashingProtection * Disk :=
  let refuse := (Err (RefuseRecommit ep gen), self, d) in
  if bool_decide (binding self = None) then refuse
  else if (ep =? u64_MAX) || (gen =? 0) then refuse
  else
    let next := default (mkRecommit None None) (recommit self) in
    if bool_decide (is_Some (at_most ep (epoch_floor next))) then refuse
    else if (match intent next with
             | Some prev => recommit_conflict prev ep gen com root
             | None => false
             end) then refuse
    else
      let next := mkRecommit (epoch_floor next) (Some (mkIntent ep gen com root)) in
      match write_record self d (wm self) (Some next) o o' with
      | (Err e, d) => (Err (RefuseIo e), self, d)
      | (Ok _, d) => (Ok tt, mkProtection (wm self) (binding self) (Some next) (mirror self), d)
      end.

(** ** Raising the marks *)

Inductive Published :=
| PublishedProposal (slot : Z)
| PublishedAttestation (slot source_epoch target_epoch : Z).

Definition is_uncovered (self : SlashingProtection) (seen : Published) : bool :=
  let above value mark := bool_decide (at_most value mark = None) in
  match seen with
  | PublishedProposal slot => above slot (proposal_slot (wm self))
  | PublishedAttestation slot _ target =>
      above slot (attestation_slot (wm self)) || above target (wm_target_epoch (wm self))
  end.

Definition published_marks (seen : Published) : Watermarks :=
  match seen with
  | PublishedProposal slot => mkMarks (Some slot) None None None
  | PublishedAttestation slot source target => mkMarks None (Some slot) (Some source) (Some target)
  end.

Definition raise_to_published (self : SlashingProtection) (d : Disk) (seen : Published)
    (o o' : WriteOutcome) : result IoError Watermarks * SlashingProtection * Disk :=
  let next := max_marks (wm self) (published_marks seen) in
  if bool_decide (next = wm self) then (Ok next, self, d)
  else
    match write_record self d next (recommit self) o o' with
    | (Err e, d) => (Err e, self, d)
    | (Ok _, d) => (Ok next, set_wm self next, d)
    end.

Inductive AnchorCheck := Adopted | InSync | AnchorRaised | DataDirRolledForward.

(** [attach_anchor_path]; the writes of its steps have their own outcomes. *)
Definition attach_anchor (self : SlashingProtection) (d : Disk) (accept_rollback : bool)
    (o o' o1 o1' : WriteOutcome) : result IoError AnchorCheck * SlashingProtection * Disk :=
  let mirrored p := mkProtection (wm p) (binding p) (recommit p) true in
  match binding self with
  | None => (Err InvalidData, self, d)
  | Some b =>
      match anchor_file d with
      | None =>
          match record_bytes (wm self) (binding self) (recommit self) with
          | Err e => (Err e, self, d)
          | Ok bytes =>
              match atomic_private_write o (anchor_file d) bytes with
              | (Err e, a) => (Err e, self, mkDisk (file d) a)
              | (Ok _, a) => (Ok Adopted, mirrored self, mkDisk (file d) a)
              end
          end
      | Some bytes =>
          match decode_record bytes with
          | None => (Err InvalidData, self, d)
          | Some (anchor_wm, anchor_binding, anchor_recommit) =>
              if negb (bool_decide (anchor_binding = Some b)) then (Err InvalidData, self, d)
              else
                let merged := max_marks (wm self) anchor_wm in
                match merge_recommit (recommit self) anchor_recommit with
                | Err e => (Err e, self, d)
                | Ok r =>
                    let data_behind := negb (bool_decide (merged = wm self ∧ r = recommit self)) in
                    let anchor_behind :=
                      negb (bool_decide (merged = anchor_wm ∧ r = anchor_recommit)) in
                    if data_behind && negb accept_rollback then (Err InvalidData, self, d)
                    else
                      let '(res, self, d) :=
                        if data_behind then
                          match write_record self d merged r o o' with
                          | (Err e, d) => (Err e, self, d)
                          | (Ok _, d) => (Ok tt, mkProtection merged (binding self) r (mirror self), d)
                          end
                        else (Ok tt, self, d) in
                      match res with
                      | Err e => (Err e, self, d)
                      | Ok _ =>
                          let self := mirrored self in
                          let '(res, d) :=
                            if anchor_behind then write_record self d (wm self) (recommit self) o1 o1'
                            else (Ok tt, d) in
                          match res with
                          | Err e => (Err e, self, d)
                          | Ok _ =>
                              (Ok (if data_behind then DataDirRolledForward
                                   else if anchor_behind then AnchorRaised else InSync), self, d)
                          end
                      end
                end
          end
      end
  end.

(** [merge_bound], behind [import_bound] and [initialize_floor]. *)
Definition merge_bound (d : Disk) (b : Binding) (incoming : Watermarks)
    (incoming_recommit : option RecommitProtection) (o o' : WriteOutcome)
    : result IoError Watermarks * Disk :=
  match open_with d (Some b) with
  | Err e => (Err e, d)
  | Ok p =>
      let merged := max_marks (wm p) incoming in
      match merge_recommit (recommit p) incoming_recommit with
      | Err e => (Err e, d)
      | Ok r =>
          match write_record p d merged r o o' with
          | (Err e, d) => (Err e, d)
          | (Ok _, d) => (Ok merged, d)
          end
      end
  end.

Definition import_bound (d : Disk) (b : Binding) (bytes : list Z) (o o' : WriteOutcome)
    : result IoError Watermarks * Disk :=
  match decode_record bytes with
  | None => (Err InvalidData, d)
  | Some (incoming, actual, r) =>
      if negb (bool_decide (actual = Some b)) then (Err InvalidData, d)
      else merge_bound d b incoming r o o'
  end.

Definition export_bound (d : Disk) (b : Binding) : result IoError (list Z) :=
  bytes ← ok_or (file d) ReadFailed;
  '(_, actual, _) ← ok_or (decode_record bytes) InvalidData;
  if negb (bool_decide (actual = Some b)) then Err InvalidData else Ok bytes.

Definition initialize_floor (d : Disk) (b : Binding) (min_slot : Z) (o o' : WriteOutcome)
    : result IoError Watermarks * Disk :=
  if (min_slot =? 0) || (min_slot =? u64_MAX) then (Err InvalidInput, d)
  else
    let slot := min_slot - 1 in
    let ep := slot / SLOTS_PER_EPOCH in
    merge_bound d b (mkMarks (Some slot) (Some slot) (Some ep) (Some ep))
      (Some (mkRecommit (Some ep) None)) o o'.


(** ** The record file round-trips *)

Definition mark_ok (m : option Z) : Prop := ∀ x, m = Some x → 0 ≤ x < u64_MAX.

Definition marks_ok (w : Watermarks) : Prop :=
  mark_ok (proposal_slot w) ∧ mark_ok (attestation_slot w) ∧
  mark_ok (wm_source_epoch w) ∧ mark_ok (wm_target_epoch w).

Definition intent_ok (i : RecommitIntent) : Prop :=
  0 ≤ ri_epoch i < u64_MAX ∧ 1 ≤ generation i ≤ u32_MAX ∧
  is_hash (commitment i) ∧ is_hash (ri_signing_root i).

Definition recommit_ok (r : option RecommitProtection) : Prop :=
  ∀ p, r = Some p → mark_ok (epoch_floor p) ∧ ∀ i, intent p = Some i → intent_ok i.

Definition binding_ok (b : option Binding) : Prop :=
  ∀ x, b = Some x → is_hash (validator_pubkey_sha3 x) ∧ is_hash (genesis_digest x).

Lemma mark_round_trip m :
  mark_ok m → (if from_le_bytes (mark_bytes m) =? NONE then None
               else Some (from_le_bytes (mark_bytes m))) = m.
Proof.
  intros Hm. unfold mark_bytes. destruct m as [x|]; cbn [from_option id].
  - specialize (Hm x eq_refl). unfold u64_MAX, NONE, u64_MAX in *.
    rewrite from_le_bytes_le_bytes by lia. by rewrite (proj2 (Z.eqb_neq _ _)) by lia.
  - rewrite from_le_bytes_le_bytes by (unfold NONE, u64_MAX; lia). by rewrite Z.eqb_refl.
Qed.

Lemma length_mark_bytes m : length (mark_bytes m) = 8%nat.
Proof. apply length_le_bytes. Qed.

Lemma length_digest body : length (digest body) = 32%nat.
Proof. apply length_hash_bytes. Qed.

(** The last 32 bytes are the digest of what precedes them. *)
Lemma with_digest_check body n :
  length body = n →
  bool_decide (drop n (with_digest body) = digest (take n (with_digest body))) = true.
Proof.
  intros <-. unfold with_digest. rewrite drop_app_length, take_app_length.
  by apply bool_decide_eq_true.
Qed.

Lemma encode_body wm0 b :
  length (take 108 (encode wm0 (Some b))) = 108%nat ∧
  drop 12 (take 108 (encode wm0 (Some b))) = marks_bytes wm0 ++ binding_bytes b.
Proof.
  unfold encode, with_digest.
  assert (length ((MAGIC_V2 ++ le_bytes 4 VERSION_V2) ++ marks_bytes wm0 ++ binding_bytes b)
    = 108%nat) as Hl.
  { unfold marks_bytes, binding_bytes.
    by rewrite !length_app, !length_mark_bytes, !length_le_bytes, !length_hash_bytes. }
  rewrite take_app_length' by done. split; [done|].
  rewrite drop_app_length' by (by rewrite length_app, length_le_bytes). done.
Qed.

(** Skip the blocks of the record up to the field that is read. *)
Ltac record_field :=
  unfold with_digest, marks_bytes, binding_bytes; rewrite <-?app_assoc;
  rewrite (slice_skip _ _ 8) by (done || lia); rewrite (slice_skip _ _ 4) by (apply length_le_bytes || lia);
  repeat first
    [ rewrite (slice_skip _ _ 8) by (apply length_mark_bytes || apply length_le_bytes || lia)
    | rewrite (slice_skip _ _ 4) by (apply length_le_bytes || lia)
    | rewrite (slice_skip _ _ 32) by (apply length_hash_bytes || lia) ];
  first
    [ rewrite (slice_here _ _ 8) by (apply length_mark_bytes || apply length_le_bytes || lia)
    | rewrite (slice_here _ _ 4) by (apply length_le_bytes || lia)
    | rewrite (slice_here _ _ 32) by (apply length_hash_bytes || lia) ].

Lemma has_header_ok magic v rest :
  length magic = 8%nat → has_header (magic ++ le_bytes 4 v ++ rest) magic v = true.
Proof.
  intros Hm. unfold has_header. rewrite take_app_length' by done.
  rewrite (slice_skip _ _ 8), (slice_here _ _ 4) by (apply length_le_bytes || done || lia).
  by rewrite !bool_decide_true.
Qed.

Lemma decode_layout_ok n bound magic v body :
  length body = (n - 12)%nat →
  (n = RECORD_LEN_V1 ∧ magic = MAGIC_V1 ∧ v = VERSION_V1 ∧ bound = false) ∨
  (n = RECORD_LEN_V2 ∧ magic = MAGIC_V2 ∧ v = VERSION_V2 ∧ bound = true) ∨
  (n = MAX_RECORD_LEN ∧ magic = MAGIC_V3 ∧ v = VERSION_V3 ∧ bound = true) →
  decode_layout (magic ++ le_bytes 4 v ++ body) = Some ((n - 32)%nat, bound).
Proof.
  intros Hl Hin. unfold decode_layout.
  assert (length (magic ++ le_bytes 4 v ++ body) = n) as ->.
  { rewrite length_app, length_app, Hl, length_le_bytes.
    by destruct Hin as [(-> & -> & _)|[(-> & -> & _)|(-> & -> & _)]]. }
  destruct Hin as [(-> & -> & -> & ->)|[(-> & -> & -> & ->)|(-> & -> & -> & ->)]];
    rewrite has_header_ok by done; done.
Qed.

Lemma field_ok magic v m0 m1 m2 m3 rest i m :
  length magic = 8%nat → [m0; m1; m2; m3] !! i = Some m → mark_ok m →
  field (magic ++ le_bytes 4 v ++ mark_bytes m0 ++ mark_bytes m1 ++ mark_bytes m2 ++ mark_bytes m3
    ++ rest) i = m.
Proof.
  intros Hm Hi Hok. etrans; [|by apply mark_round_trip]. unfold field.
  assert (slice (12 + 8 * i) (12 + 8 * i + 8) (magic ++ le_bytes 4 v ++ mark_bytes m0 ++
    mark_bytes m1 ++ mark_bytes m2 ++ mark_bytes m3 ++ rest) = mark_bytes m) as ->; [|done].
  destruct i as [|[|[|[|i]]]]; cbn in Hi; [injection Hi as ->..|by destruct i];
    record_field; done.
Qed.


(** A record with a valid header and checksum: the marks are read back, the rest
    depends on the version. *)
Lemma decode_record_layout n bound magic v w tail :
  marks_ok w → length tail = (n - 76)%nat →
  (n = RECORD_LEN_V1 ∧ magic = MAGIC_V1 ∧ v = VERSION_V1 ∧ bound = false) ∨
  (n = RECORD_LEN_V2 ∧ magic = MAGIC_V2 ∧ v = VERSION_V2 ∧ bound = true) ∨
  (n = MAX_RECORD_LEN ∧ magic = MAGIC_V3 ∧ v = VERSION_V3 ∧ bound = true) →
  let bytes := with_digest (magic ++ le_bytes 4 v ++ marks_bytes w ++ tail) in
  decode_record bytes =
    (r ← (if (n =? MAX_RECORD_LEN)%nat then Some <$> decode_recommit bytes else Some None);
     Some (w, if bound then Some (mkBinding (from_hash_bytes (slice 44 76 bytes))
                                    (from_hash_bytes (slice 76 108 bytes))) else None, r)).
Proof.
  intros (H0 & H1 & H2 & H3) Ht Hin bytes.
  assert (length magic = 8%nat ∧ 76 ≤ n)%nat as [Hm Hn]
    by (destruct Hin as [(-> & -> & _)|[(-> & -> & _)|(-> & -> & _)]]; cbv; lia).
  assert (length (magic ++ le_bytes 4 v ++ marks_bytes w ++ tail) = (n - 32)%nat) as Hbody.
  { unfold marks_bytes. rewrite !length_app, !length_mark_bytes, length_le_bytes. lia. }
  assert (length bytes = n) as Hlen
    by (unfold bytes, with_digest; rewrite length_app, length_digest, Hbody; lia).
  unfold decode_record.
  assert (decode_layout bytes = Some ((n - 32)%nat, bound)) as ->.
  { unfold bytes, with_digest. rewrite <-!app_assoc. apply decode_layout_ok; [|done].
    unfold marks_bytes. rewrite !length_app, !length_mark_bytes, length_digest. lia. }
  cbn [mbind option_bind]. unfold bytes at 1 2. rewrite with_digest_check by done.
  cbn [negb]. rewrite Hlen.
  assert (mkMarks (field bytes 0) (field bytes 1) (field bytes 2) (field bytes 3) = w) as ->; [|done].
  destruct w as [m0 m1 m2 m3]. unfold bytes, with_digest, marks_bytes. rewrite <-!app_assoc.
  f_equal; (eapply field_ok; [done|done|done]).
Qed.

Lemma decode_encode_plain w b :
  marks_ok w → binding_ok b → decode_record (encode w b) = Some (w, b, None).
Proof.
  intros Hw Hb. destruct b as [b|]; [specialize (Hb b eq_refl) as [Hb1 Hb2]|].
  - assert (encode w (Some b) = with_digest (MAGIC_V2 ++ le_bytes 4 VERSION_V2 ++ marks_bytes w ++
      binding_bytes b)) as -> by (unfold encode; by rewrite <-app_assoc).
    rewrite (decode_record_layout RECORD_LEN_V2 true); [|done| |tauto].
    + cbn [Nat.eqb MAX_RECORD_LEN RECORD_LEN_V2 RECORD_LEN_V1 Nat.add Nat.mul mbind option_bind].
      destruct b as [k g]. simpl in Hb1, Hb2. repeat f_equal; record_field;
        by apply from_hash_bytes_hash_bytes.
    + unfold binding_bytes. by rewrite length_app, !length_hash_bytes.
  - assert (encode w None = with_digest (MAGIC_V1 ++ le_bytes 4 VERSION_V1 ++ marks_bytes w ++ []))
      as -> by (unfold encode; by rewrite <-app_assoc).
    rewrite (decode_record_layout RECORD_LEN_V1 false); [done|done|done|tauto].
Qed.

Lemma decode_encode_v3 w b p :
  marks_ok w → binding_ok (Some b) → recommit_ok (Some p) →
  decode_record (encode_v3 w b p) = Some (w, Some b, Some p).
Proof.
  intros Hw Hb Hp. specialize (Hb b eq_refl) as [Hb1 Hb2].
  specialize (Hp p eq_refl) as [Hfl Hi].
  set (i := default (mkIntent NONE 0 0 0) (intent p)).
  assert (encode_v3 w b p = with_digest (MAGIC_V3 ++ le_bytes 4 VERSION_V3 ++ marks_bytes w ++
    binding_bytes b ++ mark_bytes (epoch_floor p) ++ le_bytes 8 (ri_epoch i) ++
    le_bytes 4 (generation i) ++ hash_bytes (commitment i) ++ hash_bytes (ri_signing_root i))) as ->
    by (unfold encode_v3; rewrite (proj2 (encode_body w b)); by rewrite <-!app_assoc).
  rewrite (decode_record_layout MAX_RECORD_LEN true); [|done| |tauto].
  2: { unfold binding_bytes. by rewrite !length_app, !length_mark_bytes, !length_le_bytes,
         !length_hash_bytes. }
  rewrite Nat.eqb_refl. set (bytes := with_digest _).
  assert (from_le_bytes (slice 116 124 bytes) = ri_epoch i ∧
    from_le_bytes (slice 124 128 bytes) = generation i ∧
    from_hash_bytes (slice 128 160 bytes) = commitment i ∧
    from_hash_bytes (slice 160 192 bytes) = ri_signing_root i) as (E1 & E2 & E3 & E4).
  { assert (0 ≤ ri_epoch i ≤ u64_MAX ∧ 0 ≤ generation i ≤ u32_MAX ∧ is_hash (commitment i) ∧
      is_hash (ri_signing_root i)) as (R1 & R2 & R3 & R4).
    { subst i. destruct (intent p) as [i|]; cbn [from_option id].
      - destruct (Hi i eq_refl) as (? & ? & ? & ?). split_and!; lia || done.
      - unfold is_hash, NONE, u64_MAX, u32_MAX. simpl. lia. }
    unfold u64_MAX, u32_MAX in *. unfold bytes. split_and!; record_field;
      first [by apply from_hash_bytes_hash_bytes|apply (from_le_bytes_le_bytes 8)|
             apply (from_le_bytes_le_bytes 4)]; lia. }
  assert (decode_recommit bytes = Some p) as ->.
  { unfold decode_recommit. rewrite E1, E2, E3, E4.
    assert (slice 108 116 bytes = mark_bytes (epoch_floor p)) as ->
      by (unfold bytes; by record_field). rewrite (mark_round_trip _ Hfl).
    destruct p as [fl [i'|]]; subst i; cbn [from_option id intent epoch_floor].
    - destruct (Hi i' eq_refl) as (? & ? & _). rewrite !(proj2 (Z.eqb_neq _ _)) by (unfold NONE; lia).
      by destruct i'.
    - done. }
  cbn [fmap option_fmap option_map mbind option_bind]. destruct b as [k g]. simpl in Hb1, Hb2.
  repeat f_equal; unfold bytes; record_field; by apply from_hash_bytes_hash_bytes.
Qed.

Lemma decode_record_bytes w b r bytes :
  marks_ok w → binding_ok b → recommit_ok r → record_bytes w b r = Ok bytes →
  decode_record bytes = Some (w, b, r).
Proof.
  intros Hw Hb Hr. unfold record_bytes. destruct r as [p|]; [destruct b as [b|]|];
    intros [= <-]; [by apply decode_encode_v3|by apply decode_encode_plain].
Qed.

(** ** The node over time *)

(** What the key has signed. *)
Inductive Signed :=
| SignedProposal (slot : Z)
| SignedAttestation (d : AttestationData)
| SignedRecommit (ep gen : Z) (com root : hash).

(** The open protection (if the node runs), the disk, the signatures made, newest
    first. *)
Record Sys := mkSys {
  prot : option SlashingProtection;
  disk : Disk;
  signed : list Signed;
}.

Definition sign_if {E} (res : result E unit) (s : Signed) (l : list Signed) : list Signed :=
  match res with Ok _ => s :: l | Err _ => l end.

(** One event: a crash or stop, a start, a duty under its guard, a message of this
    key seen on the network, an anchor attached, marks merged while stopped.
    Write outcomes are arbitrary; [u64::MAX] is not a slot or an epoch. *)
Inductive sys_step : Sys → Sys → Prop :=
| step_stop p d l : sys_step (mkSys p d l) (mkSys None d l)
| step_open p0 d l want p :
    binding_ok want → open_with d want = Ok p → sys_step (mkSys p0 d l) (mkSys (Some p) d l)
| step_proposal p d l slot o o' res p' d' :
    0 ≤ slot < u64_MAX → guard_proposal p d slot o o' = (res, p', d') →
    sys_step (mkSys (Some p) d l) (mkSys (Some p') d' (sign_if res (SignedProposal slot) l))
| step_attestation p d l a o o' res p' d' :
    0 ≤ slot a < u64_MAX → 0 ≤ source_epoch a < u64_MAX → 0 ≤ target_epoch a < u64_MAX →
    guard_attestation p d (slot a) (source_epoch a) (target_epoch a) o o' = (res, p', d') →
    sys_step (mkSys (Some p) d l) (mkSys (Some p') d' (sign_if res (SignedAttestation a) l))
| step_recommit p d l ep gen com root o o' res p' d' :
    0 ≤ ep ≤ u64_MAX → 0 ≤ gen ≤ u32_MAX → is_hash com → is_hash root →
    guard_recommit p d ep gen com root o o' = (res, p', d') →
    sys_step (mkSys (Some p) d l) (mkSys (Some p') d' (sign_if res (SignedRecommit ep gen com root) l))
| step_raise p d l seen o o' res p' d' :
    marks_ok (published_marks seen) → raise_to_published p d seen o o' = (res, p', d') →
    sys_step (mkSys (Some p) d l) (mkSys (Some p') d' l)
| step_anchor p d l accept o o' o1 o1' res p' d' :
    attach_anchor p d accept o o' o1 o1' = (res, p', d') →
    sys_step (mkSys (Some p) d l) (mkSys (Some p') d' l)
| step_merge d l b incoming r o o' res d' :
    binding_ok (Some b) → marks_ok incoming → recommit_ok r →
    merge_bound d b incoming r o o' = (res, d') →
    sys_step (mkSys None d l) (mkSys None d' l).

(** ** The invariant *)

Definition le_mark (x : Z) (m : option Z) : Prop := from_option (Z.le x) False m.

Definition recommit_covers (ep gen : Z) (com root : hash) (r : option RecommitProtection) : Prop :=
  ∃ p i, r = Some p ∧ intent p = Some i ∧ ep ≤ ri_epoch i ∧ gen ≤ generation i ∧
    (ep = ri_epoch i → root = ri_signing_root i) ∧ (gen = generation i → com = commitment i).

Definition covered (w : Watermarks) (r : option RecommitProtection) (s : Signed) : Prop :=
  match s with
  | SignedProposal slot => le_mark slot (proposal_slot w)
  | SignedAttestation a =>
      le_mark (slot a) (attestation_slot w) ∧ le_mark (source_epoch a) (wm_source_epoch w) ∧
      le_mark (target_epoch a) (wm_target_epoch w)
  | SignedRecommit ep gen com root => recommit_covers ep gen com root r
  end.

Definition marks_cover (w : Watermarks) (r : option RecommitProtection) (l : list Signed) : Prop :=
  Forall (covered w r) l.

(** [s] was signed before [s']: the pair is no offence. *)
Definition safe_pair (s s' : Signed) : Prop :=
  match s, s' with
  | SignedProposal a, SignedProposal b => a < b
  | SignedAttestation a, SignedAttestation b =>
      target_epoch a < target_epoch b ∧ source_epoch a ≤ source_epoch b
  | SignedRecommit e g c r, SignedRecommit e' g' c' r' => (e = e' → r = r') ∧ (g = g' → c = c')
  | _, _ => True
  end.

Fixpoint all_safe (l : list Signed) : Prop :=
  match l with
  | [] => True
  | s' :: l => Forall (λ s, safe_pair s s') l ∧ all_safe l
  end.

Definition fields_ok (w : Watermarks) (b : option Binding) (r : option RecommitProtection) : Prop :=
  marks_ok w ∧ binding_ok b ∧ recommit_ok r ∧ (r ≠ None → b ≠ None).

Definition prot_ok (p : SlashingProtection) : Prop := fields_ok (wm p) (binding p) (recommit p).

Definition record_ok (bytes : list Z) (l : list Signed) : Prop :=
  ∃ w b r, record_bytes w b r = Ok bytes ∧ fields_ok w b r ∧ marks_cover w r l.

Definition file_ok (f : option (list Z)) (l : list Signed) : Prop :=
  match f with Some bytes => record_ok bytes l | None => l = [] end.

(** The anchor holds some record; it may be older than what was signed. *)
Definition anchor_ok (a : option (list Z)) : Prop :=
  match a with Some bytes => record_ok bytes [] | None => True end.

Record sys_ok (s : Sys) : Prop := {
  ok_safe : all_safe (signed s);
  ok_file : file_ok (file (disk s)) (signed s);
  ok_anchor : anchor_ok (anchor_file (disk s));
  ok_prot : ∀ p, prot s = Some p → prot_ok p ∧ marks_cover (wm p) (recommit p) (signed s);
}.

Lemma write_record_ok p d next r o o' res d' l :
  write_record p d next r o o' = (res, d') →
  marks_ok next → binding_ok (binding p) → recommit_ok r →
  file_ok (file d) l → anchor_ok (anchor_file d) → marks_cover next r l →
  file_ok (file d') l ∧ anchor_ok (anchor_file d') ∧
  (r ≠ None → res = Ok tt → binding p ≠ None) ∧
  (res = Ok tt → ∀ l', marks_cover next r l' → file_ok (file d') l').
Proof.
  intros Hw Hn Hb Hr Hf Ha Hc. unfold write_record in Hw.
  destruct (record_bytes next (binding p) r) as [bytes|e] eqn:Eb; [|by simplify_eq].
  assert (r ≠ None → binding p ≠ None) as Hrb
    by (unfold record_bytes in Eb; destruct r, (binding p); naive_solver).
  assert (∀ l', marks_cover next r l' → record_ok bytes l') as Hrec
    by (intros l' Hl'; exists next, (binding p), r; done).
  assert (record_ok bytes []) as Hrec0 by (apply Hrec; constructor).
  unfold atomic_private_write in Hw. destruct o as [|[]], (mirror p), o' as [|[]];
    simplify_eq/=; naive_solver.
Qed.

Lemma le_mark_max x m m' : le_mark x m → le_mark x (opt_max m m').
Proof. destruct m, m'; simpl; lia. Qed.

Lemma mark_ok_max m m' : mark_ok m → mark_ok m' → mark_ok (opt_max m m').
Proof.
  intros Hm Hm' x. destruct m as [a|], m' as [b|]; simpl; intros [= <-]; [|by apply Hm|by apply Hm'].
  specialize (Hm a eq_refl). specialize (Hm' b eq_refl). lia.
Qed.

Lemma marks_ok_max w w' : marks_ok w → marks_ok w' → marks_ok (max_marks w w').
Proof. intros (?&?&?&?) (?&?&?&?). split_and!; by apply mark_ok_max. Qed.

Lemma covers_max w w' r l : marks_cover w r l → marks_cover (max_marks w w') r l.
Proof.
  intros Hc. apply (Forall_impl _ _ _ Hc). intros [slot|a|ep gen com root]; cbn [covered].
  - apply le_mark_max.
  - intros (?&?&?). split_and!; by apply le_mark_max.
  - done.
Qed.

Lemma merge_intents_either a b i :
  merge_intents a b = Ok i → (i = a ∨ i = b) ∧
  ri_epoch a ≤ ri_epoch i ∧ generation a ≤ generation i ∧
  (ri_epoch a = ri_epoch i → ri_signing_root a = ri_signing_root i) ∧
  (generation a = generation i → commitment a = commitment i).
Proof.
  unfold merge_intents. case_goal as E; [done|]. intros [= Hi].
  rewrite !orb_false_iff, !andb_false_iff, !negb_false_iff, bool_decide_eq_true in E.
  destruct (ri_epoch b <=? ri_epoch a) eqn:E5; subst i.
  { split_and!; auto with lia. }
  destruct E as [[[[E1|E1] E2] E3] E4]; [|subst b; lia].
  rewrite ?Z.eqb_neq, ?Z.eqb_eq, ?Z.ltb_ge, ?Z.leb_gt in *.
  split_and!; [by right|lia|lia|lia|]. destruct E2; lia.
Qed.

Lemma merge_recommit_covers r r' m ep gen com root :
  merge_recommit r r' = Ok m → recommit_covers ep gen com root r → recommit_covers ep gen com root m.
Proof.
  intros Hm (p & i & -> & Hi & He & Hg & Hr & Hc). simpl in Hm. destruct r' as [p'|]; [|simplify_eq].
  - rewrite Hi in Hm. destruct (intent p') as [b|].
    + destruct (merge_intents i b) as [j|] eqn:Ej; simplify_eq/=.
      apply merge_intents_either in Ej as (_ & ? & ? & Hr' & Hc').
      eexists _, j. split_and!; [done|done|lia|lia| |]; intros ?.
      * rewrite Hr by lia. apply Hr'. lia.
      * rewrite Hc by lia. apply Hc'. lia.
    + simplify_eq/=. eexists _, i. eauto 10.
  - exists p, i. eauto 10.
Qed.

Lemma merge_recommit_ok r r' m :
  merge_recommit r r' = Ok m → recommit_ok r → recommit_ok r' → recommit_ok m.
Proof.
  intros Hm Hr Hr'. destruct r as [p|]; [destruct r' as [p'|]|]; simpl in Hm; simplify_eq; try done.
  destruct (Hr p eq_refl) as [Hf Hi]. destruct (Hr' p' eq_refl) as [Hf' Hi'].
  assert (∀ j, match intent p, intent p' with
               | Some a, Some b => i ← merge_intents a b; Ok (Some i)
               | a, b => Ok (or_else a b)
               end = Ok j → ∀ i, j = Some i → intent_ok i) as Hj.
  { intros j Hj i ->. destruct (intent p) as [a|], (intent p') as [b|]; simplify_eq/=; eauto.
    destruct (merge_intents a b) as [k|] eqn:Ek; simplify_eq/=.
    apply merge_intents_either in Ek as ([-> | ->] & _); eauto. }
  destruct (match intent p, intent p' with Some a, Some b => _ | a, b => _ end) as [j|] eqn:Ej;
    simplify_eq/=.
  intros ? [= <-]. split; [by apply mark_ok_max|apply (Hj j eq_refl)].
Qed.

Lemma covers_merge w r r' m l :
  merge_recommit r r' = Ok m → marks_cover w r l → marks_cover w m l.
Proof.
  intros Hm Hc. apply (Forall_impl _ _ _ Hc). intros [|a|ep gen com root]; simpl; try done.
  by eapply merge_recommit_covers.
Qed.

Lemma record_ok_decode bytes l :
  record_ok bytes l → ∃ w b r, decode_record bytes = Some (w, b, r) ∧ fields_ok w b r ∧ marks_cover w r l.
Proof.
  intros (w & b & r & Hb & Hf & Hc). exists w, b, r. split; [|done].
  destruct Hf as (?&?&?&_). by apply decode_record_bytes.
Qed.

Lemma open_with_ok d l want p :
  file_ok (file d) l → binding_ok want → open_with d want = Ok p →
  prot_ok p ∧ marks_cover (wm p) (recommit p) l.
Proof.
  unfold open_with. intros Hf Hw Ho. destruct (file d) as [bytes|].
  - apply record_ok_decode in Hf as (w & b & r & E & (?&?&?&Hrb) & Hc).
    rewrite E in Ho. cbn [ok_or result_bind] in Ho.
    destruct b as [f|], want as [mine|]; simpl in Ho; [case_bool_decide| | |]; simplify_eq/=;
      split; try done; split_and!; done || naive_solver.
  - simpl in Hf. subst l. simpl in Ho.
    destruct want; simplify_eq/=; split; try constructor; split_and!; done || naive_solver.
Qed.

Lemma at_most_None x m : at_most x m = None → ∀ y, le_mark y m → y < x.
Proof. unfold at_most, le_mark. destruct m; simpl; [case_goal as E; naive_solver lia|done]. Qed.

Lemma below_None x m : below x m = None → ∀ y, le_mark y m → y ≤ x.
Proof. unfold below, le_mark. destruct m; simpl; [case_goal as E; naive_solver lia|done]. Qed.

(** A guard's tail: the marks [next] cover what was signed and the new message. *)
Lemma commit_ok p d next o o' res p' d' l s :
  commit p d next o o' = (res, p', d') →
  sys_ok (mkSys (Some p) d l) → marks_ok next →
  marks_cover next (recommit p) (s :: l) → Forall (λ s', safe_pair s' s) l →
  sys_ok (mkSys (Some p') d' (sign_if res s l)).
Proof.
  intros Hcm [Hs Hf Ha Hp] Hn Hc Hsafe. simpl in *. destruct (Hp p eq_refl) as [(Hm&Hb&Hr&Hrb) Hcov].
  unfold commit in Hcm. destruct (write_record p d next (recommit p) o o') as [res' d1] eqn:Ew.
  pose proof (proj2 (proj1 (Forall_cons _ _ _) Hc)) as Hc'.
  destruct (write_record_ok _ _ _ _ _ _ _ _ l Ew Hn Hb Hr Hf Ha Hc') as (Hf' & Ha' & _ & Hok).
  destruct res' as [[]|e]; simplify_eq/=; constructor; simpl; try done.
  - by apply Hok.
  - by intros ? [= <-].
Qed.

Lemma guard_proposal_ok p d l slot o o' res p' d' :
  sys_ok (mkSys (Some p) d l) → 0 ≤ slot < u64_MAX → guard_proposal p d slot o o' = (res, p', d') →
  sys_ok (mkSys (Some p') d' (sign_if res (SignedProposal slot) l)).
Proof.
  intros Hok Hslot. unfold guard_proposal. destruct (at_most _ _) eqn:E; [by intros [= <- <- <-]|].
  intros Hcm. destruct (ok_prot _ Hok p eq_refl) as [((?&?&?&?)&_) Hc].
  eapply commit_ok; [exact Hcm|done| | |].
  - split_and!; try done. by intros ? [= <-].
  - constructor; [simpl; lia|]. apply (Forall_impl _ _ _ Hc).
    intros [s|a|]; simpl; try done. intros ?. by apply Z.lt_le_incl, (at_most_None _ _ E).
  - apply (Forall_impl _ _ _ Hc). intros [s|a|]; simpl; try done. apply (at_most_None _ _ E).
Qed.

Lemma guard_attestation_ok p d l a o o' res p' d' :
  sys_ok (mkSys (Some p) d l) →
  0 ≤ slot a < u64_MAX → 0 ≤ source_epoch a < u64_MAX → 0 ≤ target_epoch a < u64_MAX →
  guard_attestation p d (slot a) (source_epoch a) (target_epoch a) o o' = (res, p', d') →
  sys_ok (mkSys (Some p') d' (sign_if res (SignedAttestation a) l)).
Proof.
  intros Hok H1 H2 H3. unfold guard_attestation.
  destruct (at_most (slot a) _) eqn:E1; [by intros [= <- <- <-]|].
  destruct (at_most (target_epoch a) _) eqn:E2; [by intros [= <- <- <-]|].
  destruct (below _ _) eqn:E3; [by intros [= <- <- <-]|].
  intros Hcm. destruct (ok_prot _ Hok p eq_refl) as [((?&?&?&?)&_) Hc].
  eapply commit_ok; [exact Hcm|done| | |].
  - split_and!; try done; by intros ? [= <-].
  - constructor; [simpl; lia|]. apply (Forall_impl _ _ _ Hc).
    intros [s|b|]; simpl; try done. intros (Ha & Hb & Ht).
    apply (at_most_None _ _ E1) in Ha. apply (at_most_None _ _ E2) in Ht.
    apply (below_None _ _ E3) in Hb. lia.
  - apply (Forall_impl _ _ _ Hc). intros [s|b|]; simpl; try done. intros (Ha & Hb & Ht).
    split; [by apply (at_most_None _ _ E2)|by apply (below_None _ _ E3)].
Qed.

Lemma recommit_conflict_false prev ep gen com root :
  recommit_conflict prev ep gen com root = false →
  ri_epoch prev ≤ ep ∧ generation prev ≤ gen ∧
  (ri_epoch prev = ep → ri_signing_root prev = root) ∧ (generation prev = gen → commitment prev = com).
Proof.
  unfold recommit_conflict.
  rewrite !orb_false_iff, !andb_false_iff, !negb_false_iff, !Z.ltb_ge, !Z.eqb_eq, !Z.eqb_neq.
  intros [[[[? ?] ?] ?] ?]. lia.
Qed.

Lemma guard_recommit_ok p d l ep gen com root o o' res p' d' :
  sys_ok (mkSys (Some p) d l) →
  0 ≤ ep ≤ u64_MAX → 0 ≤ gen ≤ u32_MAX → is_hash com → is_hash root →
  guard_recommit p d ep gen com root o o' = (res, p', d') →
  sys_ok (mkSys (Some p') d' (sign_if res (SignedRecommit ep gen com root) l)).
Proof.
  intros Hok He Hg Hcom Hroot. unfold guard_recommit.
  case_bool_decide as Eb; [by intros [= <- <- <-]|].
  destruct ((ep =? u64_MAX) || (gen =? 0)) eqn:E0; [by intros [= <- <- <-]|].
  apply orb_false_iff in E0 as [?%Z.eqb_neq ?%Z.eqb_neq].
  set (cur := default (mkRecommit None None) (recommit p)).
  case_bool_decide as Ef; [by intros [= <- <- <-]|].
  destruct (match intent cur with Some prev => _ | None => false end) eqn:Ei; [by intros [= <- <- <-]|].
  set (next := mkRecommit (epoch_floor cur) (Some (mkIntent ep gen com root))).
  destruct Hok as [Hs Hf Ha Hp]. simpl in *. destruct (Hp p eq_refl) as [(Hm&Hb&Hr&Hrb) Hcov].
  assert (∀ e g c r, recommit_covers e g c r (recommit p) →
            e ≤ ep ∧ g ≤ gen ∧ (e = ep → r = root) ∧ (g = gen → c = com)) as Hold.
  { intros e g c r (q & i & Eq & Hi & ? & ? & Hri & Hci). unfold cur in Ei. rewrite Eq in Ei. simpl in Ei.
    rewrite Hi in Ei. apply recommit_conflict_false in Ei as (? & ? & Hr1 & Hc1).
    split_and!; [lia|lia|intros ?; rewrite Hri by lia; apply Hr1; lia|].
    intros ?. rewrite Hci by lia. apply Hc1. lia. }
  assert (marks_cover (wm p) (Some next) (SignedRecommit ep gen com root :: l)) as Hc.
  { constructor; [exists next, (mkIntent ep gen com root); simpl; auto with lia|].
    apply (Forall_impl _ _ _ Hcov). intros [|a|e g c r]; simpl; try done.
    intros Ho%Hold. exists next, (mkIntent ep gen com root). simpl. tauto. }
  assert (recommit_ok (Some next)) as Hrn.
  { intros ? [= <-]. split; [|intros ? [= <-]; split_and!; simpl; lia || done].
    unfold next, cur. simpl. destruct (recommit p) as [q|]; [apply (Hr q eq_refl)|by intros ?]. }
  pose proof (proj2 (proj1 (Forall_cons _ _ _) Hc)) as Hc'.
  destruct (write_record _ _ _ _ _ _) as [res' d1] eqn:Ew.
  destruct (write_record_ok _ _ _ _ _ _ _ _ l Ew Hm Hb Hrn Hf Ha Hc') as (Hf' & Ha' & _ & Hok).
  destruct res' as [[]|e]; intros [= <- <- <-]; constructor; simpl; try done.
  - split; [|done]. apply (Forall_impl _ _ _ Hcov). intros [|a|e g c r]; simpl; try done.
    intros Ho%Hold. tauto.
  - by apply Hok.
  - by intros ? [= <-].
Qed.

(** A write that raises the marks and signs nothing. *)
Lemma update_ok p d next r o o' res d' l m :
  write_record p d next r o o' = (res, d') →
  sys_ok (mkSys (Some p) d l) → marks_ok next → recommit_ok r → marks_cover next r l →
  sys_ok (mkSys (Some p) d' l) ∧
  (res = Ok tt → sys_ok (mkSys (Some (mkProtection next (binding p) r m)) d' l)).
Proof.
  intros Ew [Hs Hf Ha Hp] Hn Hr Hc. simpl in *. destruct (Hp p eq_refl) as [(Hm&Hb&Hr'&Hrb) Hcov].
  destruct (write_record_ok _ _ _ _ _ _ _ _ l Ew Hn Hb Hr Hf Ha Hc) as (Hf' & Ha' & Hrb' & _).
  split; [by constructor|]. intros ->. constructor; simpl; try done.
  intros ? [= <-]. split; [|done]. split_and!; simpl; auto.
Qed.

Lemma raise_to_published_ok p d l seen o o' res p' d' :
  sys_ok (mkSys (Some p) d l) → marks_ok (published_marks seen) →
  raise_to_published p d seen o o' = (res, p', d') → sys_ok (mkSys (Some p') d' l).
Proof.
  intros Hok Hseen. destruct (ok_prot _ Hok p eq_refl) as [(Hm&_&Hr&_) Hc]. simpl in *.
  unfold raise_to_published. case_bool_decide; [by intros [= <- <- <-]|].
  destruct (write_record _ _ _ _ _ _) as [res' d1] eqn:Ew.
  destruct (update_ok _ _ _ _ _ _ _ _ l (mirror p) Ew Hok) as [H1 H2];
    [by apply marks_ok_max|done|by apply covers_max|].
  destruct res' as [[]|e]; intros [= <- <- <-]; [by apply H2|done].
Qed.

Lemma sys_ok_mirror p d l m :
  sys_ok (mkSys (Some p) d l) →
  sys_ok (mkSys (Some (mkProtection (wm p) (binding p) (recommit p) m)) d l).
Proof.
  intros [Hs Hf Ha Hp]. constructor; simpl in *; try done. intros ? [= <-]. by apply (Hp p).
Qed.

Lemma attach_anchor_ok p d l accept o o' o1 o1' res p' d' :
  sys_ok (mkSys (Some p) d l) →
  attach_anchor p d accept o o' o1 o1' = (res, p', d') → sys_ok (mkSys (Some p') d' l).
Proof.
  intros Hok. pose proof Hok as [Hs Hf Ha Hp]. simpl in *.
  destruct (Hp p eq_refl) as [(Hm&Hb&Hr&Hrb) Hc].
  unfold attach_anchor. destruct (binding p) as [b|] eqn:Eb; [|by intros [= <- <- <-]].
  destruct (anchor_file d) as [bytes|] eqn:Ea.
  - apply record_ok_decode in Ha as (aw & ab & ar & -> & (Ham&_&Har&_) & _).
    case_bool_decide as Hab; cbn [negb]; [|by intros [= <- <- <-]].
    destruct (merge_recommit (recommit p) ar) as [r|] eqn:Er; [|by intros [= <- <- <-]].
    set (data_behind := negb (bool_decide (_ ∧ r = recommit p))).
    set (anchor_behind := negb (bool_decide (_ ∧ r = ar))).
    destruct (data_behind && negb accept); [by intros [= <- <- <-]|].
    pose proof (covers_merge _ _ _ _ _ Er (covers_max _ aw _ _ Hc)) as Hcm.
    pose proof (merge_recommit_ok _ _ _ Er Hr Har) as Hrm.
    pose proof (marks_ok_max _ _ Hm Ham) as Hmm.
    destruct (if data_behind then _ else _) as [[r1 p1] d1] eqn:E1.
    assert (sys_ok (mkSys (Some p1) d1 l)) as Hok1.
    { destruct data_behind; [|by simplify_eq].
      destruct (write_record p d _ r o o') as [res' d2] eqn:Ew.
      destruct (update_ok _ _ _ _ _ _ _ _ l (mirror p) Ew Hok Hmm Hrm Hcm) as [H1 H2].
      destruct res' as [[]|e]; simplify_eq; [rewrite <-Eb; by apply H2|done]. }
    destruct r1 as [[]|e]; [|by intros [= <- <- <-]].
    apply (sys_ok_mirror _ _ _ true) in Hok1.
    destruct (if anchor_behind then _ else _) as [r2 d2] eqn:E2.
    assert (sys_ok (mkSys (Some (mkProtection (wm p1) (binding p1) (recommit p1) true)) d2 l)) as Hok2.
    { destruct anchor_behind; [|by simplify_eq].
      destruct (ok_prot _ Hok1 _ eq_refl) as [(?&_&?&_) ?].
      by refine (proj1 (update_ok _ _ _ _ _ _ _ _ l true E2 Hok1 _ _ _)). }
    destruct r2; by intros [= <- <- <-].
  - destruct (record_bytes _ _ _) as [bytes|] eqn:Er; [|by intros [= <- <- <-]].
    assert (record_ok bytes []) as Hrec.
    { exists (wm p), (binding p), (recommit p). rewrite Eb. split; [done|]. split; [done|constructor]. }
    destruct o as [|[]]; simpl; intros [= <- <- <-]; rewrite <-?Eb; try apply sys_ok_mirror;
      constructor; simpl; try done; intros ? [= <-]; unfold prot_ok; by rewrite Eb.
Qed.

Lemma merge_bound_ok d l b incoming r o o' res d' :
  sys_ok (mkSys None d l) → binding_ok (Some b) → marks_ok incoming → recommit_ok r →
  merge_bound d b incoming r o o' = (res, d') → sys_ok (mkSys None d' l).
Proof.
  intros Hok Hb Hi Hr. unfold merge_bound.
  destruct (open_with d (Some b)) as [p|] eqn:Eo; [|by intros [= <- <-]].
  destruct (open_with_ok d l _ _ (ok_file _ Hok) Hb Eo) as [(Hm&Hb'&Hr'&Hrb) Hc].
  destruct (merge_recommit _ _) as [r'|] eqn:Er; [|by intros [= <- <-]].
  assert (sys_ok (mkSys (Some p) d l)) as Hokp.
  { destruct Hok as [Hs Hf Ha Hp]. constructor; simpl in *; try done. intros ? [= <-]. done. }
  destruct (write_record p d _ r' o o') as [res' d1] eqn:Ew.
  destruct (update_ok _ _ _ _ _ _ _ _ l (mirror p) Ew Hokp) as [H1 _].
  { by apply marks_ok_max. }
  { by apply (merge_recommit_ok _ _ _ Er). }
  { apply (covers_merge _ _ _ _ _ Er). by apply covers_max. }
  assert (sys_ok (mkSys None d1 l)) as H2
    by (destruct H1 as [Hs Hf Ha Hp]; constructor; simpl in *; done).
  destruct res'; by intros [= <- <-].
Qed.

Lemma sys_step_ok s s' : sys_step s s' → sys_ok s → sys_ok s'.
Proof.
  destruct 1; intros Hok; eauto using guard_proposal_ok, guard_attestation_ok, guard_recommit_ok,
    raise_to_published_ok, attach_anchor_ok, merge_bound_ok.
  - destruct Hok as [Hs Hf Ha Hp]. by constructor.
  - pose proof (open_with_ok _ _ _ _ (ok_file _ Hok) H0 H1).
    destruct Hok as [Hs Hf Ha Hp]. constructor; simpl in *; try done. by intros ? [= <-].
Qed.

Lemma sys_steps_ok s s' : rtc sys_step s s' → sys_ok s → sys_ok s'.
Proof. induction 1; eauto using sys_step_ok. Qed.

Lemma all_safe_lookup l i j s s' :
  all_safe l → (i < j)%nat → l !! i = Some s' → l !! j = Some s → safe_pair s s'.
Proof.
  revert i j. induction l as [|x l IH]; intros i j; [done|]. intros [Hx Hl] Hij.
  destruct i as [|i], j as [|j]; simpl; try lia.
  - intros [= ->] Hs. by apply (Forall_lookup_1 _ _ _ _ Hx Hs).
  - apply IH; [done|lia].
Qed.

(** Of two different entries one is older. *)
Lemma all_safe_pairs l i j s s' :
  all_safe l → i ≠ j → l !! i = Some s → l !! j = Some s' → safe_pair s s' ∨ safe_pair s' s.
Proof.
  intros Hl Hij Hi Hj. destruct (decide (i < j)%nat).
  - right. by apply (all_safe_lookup l i j).
  - left. apply (all_safe_lookup l j i); try done. lia.
Qed.

Lemma safe_pair_offense a b v sa sb :
  safe_pair (SignedAttestation a) (SignedAttestation b) ∨
    safe_pair (SignedAttestation b) (SignedAttestation a) →
  Slashing.offense (Slashing.mkEvidence (mkAttestation a v sa) (mkAttestation b v sb))
  = Err Slashing.NotConflicting.
Proof.
  intros Hs. unfold Slashing.offense, is_double_vote, surrounds. simpl. rewrite Z.eqb_refl. simpl.
  rewrite (proj2 (Z.eqb_neq (target_epoch a) (target_epoch b))) by (simpl in Hs; lia). simpl.
  case_goal as E; [|done]. simpl in Hs. lia.
Qed.

(** C24: Whatever the order of duties, crashes, failed or half-failed writes, restarts,
    anchor attachments and imports, the messages the guards let the key sign from
    an empty data directory never make an offence: no two attestations are evidence
    the slashing module accepts, no two proposals share a slot, and two RANDAO
    recommitments for one epoch (or generation) are the same message (commitment). *)
Theorem signatures_never_slashable s :
  rtc sys_step (mkSys None (mkDisk None None) []) s →
  ∀ i j, i ≠ j →
  (∀ a b v sa sb, signed s !! i = Some (SignedAttestation a) → signed s !! j = Some (SignedAttestation b) →
     Slashing.offense (Slashing.mkEvidence (mkAttestation a v sa) (mkAttestation b v sb))
     = Err Slashing.NotConflicting) ∧
  (∀ x y, signed s !! i = Some (SignedProposal x) → signed s !! j = Some (SignedProposal y) → x ≠ y) ∧
  (∀ e g c r e' g' c' r', signed s !! i = Some (SignedRecommit e g c r) →
     signed s !! j = Some (SignedRecommit e' g' c' r') → (e = e' → r = r') ∧ (g = g' → c = c')).
Proof.
  intros Hrun. assert (sys_ok s) as [Hs _ _ _].
  { apply (sys_steps_ok _ _ Hrun). constructor; simpl; done. }
  intros i j Hij. split_and!.
  - intros a b v sa sb Hi Hj. by apply safe_pair_offense, (all_safe_pairs (signed s) i j).
  - intros x y Hi Hj. destruct (all_safe_pairs _ i j _ _ Hs Hij Hi Hj); simpl in *; lia.
  - intros e g c r e' g' c' r' Hi Hj.
    destruct (all_safe_pairs _ i j _ _ Hs Hij Hi Hj) as [[]|[H1 H2]]; [done|].
    split; intros; symmetry; auto.
Qed.

Lemma decode_record_digest bytes x :
  decode_record bytes = Some x → ∃ body, bytes = body ++ digest body.
Proof.
  unfold decode_record. destruct (decode_layout bytes) as [[n bound]|]; [|done]. cbn.
  case_bool_decide as E; cbn; [|done]. intros _. exists (take n bytes).
  by rewrite <-E, take_drop.
Qed.

(** A record written to disk reads back as the marks, the binding and the recommit
    protection it was made from, in each of the three formats; only bytes that end
    in the digest of what precedes it are read at all; and a bound record imported
    into an empty data directory is stored there byte for byte. *)
Theorem record_round_trip w b r bytes :
  marks_ok w → binding_ok b → recommit_ok r → record_bytes w b r = Ok bytes →
  decode_record bytes = Some (w, b, r) ∧
  (∀ bytes' x, decode_record bytes' = Some x → ∃ body, bytes' = body ++ digest body) ∧
  (∀ k, b = Some k →
     import_bound (mkDisk None None) k bytes WriteOk WriteOk = (Ok w, mkDisk (Some bytes) None)).
Proof.
  intros Hw Hb Hr Hrec. pose proof (decode_record_bytes _ _ _ _ Hw Hb Hr Hrec) as Hd.
  split_and!; [done|apply decode_record_digest|]. intros k ->.
  unfold import_bound. rewrite Hd, bool_decide_eq_true_2 by done. cbn [negb].
  unfold merge_bound. change (open_with _ _) with (Ok (E := IoError) (mkProtection no_marks (Some k) None false)).
  cbv beta iota zeta. cbn [wm recommit].
  replace (merge_recommit None r) with (Ok (E := IoError) r) by by destruct r.
  replace (max_marks no_marks w) with w by (by destruct w).
  unfold write_record. cbn [binding]. by rewrite Hrec.
Qed.

End codec.

(** ** Witnesses *)

(** A checksum standing for SHAKE256. *)
Definition ex_shake : Shake32 := λ body, foldl (λ acc x, (acc * 31 + x) `mod` 2 ^ 256) 7 body.

Definition ex_binding : Binding := mkBinding 11 12.

Definition ex_vote (sl src tgt head : Z) : AttestationData := mkAttData sl head src 0 tgt 1.

Definition ex_p0 : SlashingProtection := mkProtection no_marks (Some ex_binding) None false.
Definition ex_duty1 := Eval vm_compute in
  guard_proposal (H := ex_shake) ex_p0 (mkDisk None None) 5 WriteOk WriteOk.
Definition ex_duty2 := Eval vm_compute in
  guard_attestation (H := ex_shake) ex_duty1.1.2 ex_duty1.2 32 0 1 WriteOk WriteOk.
Definition ex_duty3 := Eval vm_compute in
  guard_attestation (H := ex_shake) ex_duty2.1.2 ex_duty2.2 40 0 2 (WriteErr true) WriteOk.
Definition ex_duty4 := Eval vm_compute in
  guard_attestation (H := ex_shake) ex_duty3.1.2 ex_duty3.2 64 1 3 WriteOk WriteOk.

(** A start, a proposal, a vote, a vote whose write reached the disk but reported an
    error (nothing is signed), and the next vote. *)
Definition ex_end : Sys :=
  mkSys (Some ex_duty4.1.2) ex_duty4.2
    (sign_if ex_duty4.1.1 (SignedAttestation (ex_vote 64 1 3 10))
      (sign_if ex_duty3.1.1 (SignedAttestation (ex_vote 40 0 2 8))
        (sign_if ex_duty2.1.1 (SignedAttestation (ex_vote 32 0 1 9))
          (sign_if ex_duty1.1.1 (SignedProposal 5) [])))).

Lemma ex_run : rtc (sys_step (H := ex_shake)) (mkSys None (mkDisk None None) []) ex_end.
Proof.
  eapply rtc_l; [apply (step_open (H := ex_shake) _ _ _ (Some ex_binding) ex_p0)|].
  { intros ? [= <-]. split; unfold is_hash; simpl; lia. }
  { reflexivity. }
  eapply rtc_l.
  { eapply (step_proposal (H := ex_shake) _ _ _ 5 WriteOk WriteOk); [unfold u64_MAX; lia|vm_compute; reflexivity]. }
  eapply rtc_l.
  { eapply (step_attestation (H := ex_shake) _ _ _ (ex_vote 32 0 1 9) WriteOk WriteOk); simpl;
      [unfold u64_MAX; lia..|vm_compute; reflexivity]. }
  eapply rtc_l.
  { eapply (step_attestation (H := ex_shake) _ _ _ (ex_vote 40 0 2 8) (WriteErr true) WriteOk); simpl;
      [unfold u64_MAX; lia..|vm_compute; reflexivity]. }
  apply rtc_once. unfold ex_end.
  eapply (step_attestation (H := ex_shake) _ _ _ (ex_vote 64 1 3 10) WriteOk WriteOk); simpl;
    [unfold u64_MAX; lia..|vm_compute; reflexivity].
Qed.

Lemma signatures_never_slashable_witness :
  signed ex_end = [SignedAttestation (ex_vote 64 1 3 10); SignedAttestation (ex_vote 32 0 1 9);
                   SignedProposal 5] ∧
  Slashing.offense (Slashing.mkEvidence (mkAttestation (ex_vote 64 1 3 10) 3 [])
                      (mkAttestation (ex_vote 32 0 1 9) 3 [])) = Err Slashing.NotConflicting.
Proof.
  split; [done|].
  refine (proj1 (signatures_never_slashable (H := ex_shake) ex_end ex_run 0 1 _) _ _ _ _ _ eq_refl eq_refl).
  lia.
Defined.

Lemma record_round_trip_witness :
  let _ := ex_shake in
  let w := mkMarks (Some 5) (Some 4) None (Some 2) in
  let r := Some (mkRecommit (Some 1) (Some (mkIntent 3 1 8 9))) in
  ∃ bytes, record_bytes w (Some ex_binding) r = Ok bytes ∧
           decode_record bytes = Some (w, Some ex_binding, r).
Proof.
  intros sh w r. destruct (record_bytes w (Some ex_binding) r) as [bytes|] eqn:E; [|discriminate E].
  exists bytes. split; [reflexivity|].
  refine (proj1 (record_round_trip w (Some ex_binding) r bytes _ _ _ E)).
  - split_and!; intros ? [=]; subst; unfold u64_MAX; lia.
  - intros ? [= <-]. split; unfold is_hash; simpl; lia.
  - intros ? [= <-]. split; [intros ? [= <-]; unfold u64_MAX; lia|]. intros ? [= <-].
    split_and!; simpl; unfold u64_MAX, u32_MAX, is_hash; lia.
Defined.

End SlashProt.
