(* ===== verification/Staking.v ===== *)
(** * Validator lifecycle: deposits, activation queue, exits and withdrawals

    Models [crates/bloch-pos-committee/src/staking.rs].  The two halves of the
    hybrid signature are verified by code outside the sources ([HybridKeyVerifier]
    is a record of two functions).  Byte arrays are lists of bytes; 32-byte arrays
    are numbers ([hash]). *)

From S2P Require Import Prelude Bytes Types Signatures Delegation.
Local Open Scope Z_scope.

Module Staking.
Import Bytes Types Signatures.

Definition MLDSA65_PK_BYTES : nat := 1952.
Definition MLDSA65_SIG_BYTES : nat := 3309.
Definition MIN_DEPOSIT_SAT : Z := 25000 * Delegation.SAT_PER_BLOCH.
Definition ACTIVATION_DELAY_EPOCHS : Z := 8.
Definition MAX_ACTIVATIONS_PER_EPOCH : nat := 4.
Definition GROWTH_DIV : Z := 64.
Definition EXIT_DELAY_EPOCHS : Z := 32.
Definition WITHDRAWAL_DELAY_EPOCHS : Z := 2048.
Definition ROLE_ACTIVATION_QUEUE : Z := 4.

(** ** The growth budget *)

Definition growth_budget_sat (w : Z) : Z :=
  let g := w / GROWTH_DIV in if MIN_DEPOSIT_SAT <? g then g else MIN_DEPOSIT_SAT.

Fixpoint growth_admissions (used budget : Z) (stakes : list Z) : nat :=
  match stakes with
  | [] => 0
  | stake :: stakes =>
      if negb (used =? 0) && (budget <? saturating_add u128_MAX used stake) then 0
      else S (growth_admissions (saturating_add u128_MAX used stake) budget stakes)
  end.

(** ** Deposits *)

Record HybridKeyVerifier := mkHybrid {
  verify_mldsa65 : list Z → hash → list Z → bool;
  verify_falcon1024 : list Z → hash → list Z → bool;
}.

Definition verify_hybrid (pubkey : list Z) (root : hash) (sig : list Z) (v : HybridKeyVerifier)
    : bool :=
  if (length sig <=? MLDSA65_SIG_BYTES)%nat then false
  else
    verify_mldsa65 v (take MLDSA65_PK_BYTES pubkey) root (take MLDSA65_SIG_BYTES sig)
    && verify_falcon1024 v (drop MLDSA65_PK_BYTES pubkey) root (drop MLDSA65_SIG_BYTES sig).

Record DepositInput := mkInput { transparent : bool; tainted : bool }.

Record DepositTx := mkDeposit {
  suite : Z;
  dep_amount_sat : Z;
  validator_pubkey : list Z;
  randao_commitment : hash;
  dep_withdrawal_addr : hash;
  proof_of_possession : list Z;
}.

Inductive DepositReject :=
| WrongSuite | ShieldedInput | TaintedInput | BelowMinimum | AboveMaximum | BadProofOfPossession.

Definition deposit_shape (suite : Z) (pubkey_len : nat) (amount_sat max_stake_sat : Z)
    : result DepositReject unit :=
  if negb (suite =? SUITE_MLDSA65_FALCON1024)
     || negb (Z.of_nat pubkey_len =? HYBRID_PK_BYTES) then Err WrongSuite
  else if amount_sat <? MIN_DEPOSIT_SAT then Err BelowMinimum
  else if max_stake_sat <? amount_sat then Err AboveMaximum
  else Ok tt.

Section hashed.
Context `{Sha3}.

Definition deposit_signing_root (tx : DepositTx) : hash :=
  sha3_256 (DS_DEPOSIT ++ le_bytes 2 (suite tx) ++ le_bytes 16 (dep_amount_sat tx)
            ++ validator_pubkey tx ++ hash_bytes (randao_commitment tx)
            ++ hash_bytes (dep_withdrawal_addr tx)).

Definition validate_deposit (tx : DepositTx) (inputs : list DepositInput) (max_stake_sat : Z)
    (v : HybridKeyVerifier) : result DepositReject unit :=
  if negb (suite tx =? SUITE_MLDSA65_FALCON1024) then Err WrongSuite
  else if existsb (λ i, negb (transparent i)) inputs then Err ShieldedInput
  else if existsb tainted inputs then Err TaintedInput
  else
    _ ← deposit_shape (suite tx) (length (validator_pubkey tx)) (dep_amount_sat tx) max_stake_sat;
    if negb (verify_hybrid (validator_pubkey tx) (deposit_signing_root tx)
               (proof_of_possession tx) v)
    then Err BadProofOfPossession else Ok tt.

Definition wire_deposit_pop_root (pubkey : list Z) (amount_sat : Z) (randao : hash)
    (credentials : list Z) (commission_bps : Z) : hash :=
  sha3_256 (DS_DEPOSIT ++ le_bytes 4 (Z.of_nat (length pubkey) `mod` 2 ^ 32) ++ pubkey
            ++ le_bytes 16 amount_sat ++ hash_bytes randao
            ++ le_bytes 4 (Z.of_nat (length credentials) `mod` 2 ^ 32) ++ credentials
            ++ le_bytes 16 commission_bps).

Definition validate_wire_deposit (pubkey : list Z) (amount_sat : Z) (randao : hash)
    (credentials : list Z) (commission_bps : Z) (pop : list Z) (max_stake_sat : Z)
    (v : SignatureVerifier) : result DepositReject unit :=
  _ ← deposit_shape SUITE_MLDSA65_FALCON1024 (length pubkey) amount_sat max_stake_sat;
  let root := wire_deposit_pop_root pubkey amount_sat randao credentials commission_bps in
  if negb (verify_with_key v pubkey root pop) then Err BadProofOfPossession else Ok tt.

(** ** The activation queue *)

Definition activation_queue_priority (queue_v2 : bool) (seed pubkey_hash : hash) : hash :=
  if negb queue_v2 then pubkey_hash
  else sha3_256 (DS_SORTITION ++ hash_bytes seed ++ hash_bytes pubkey_hash
                 ++ [ROLE_ACTIVATION_QUEUE]).

Record QueuedDeposit := mkQueued { pubkey_hash : hash; deposit_epoch : Z; q_amount_sat : Z }.

Definition queue_key (d : QueuedDeposit) : Z * hash := (deposit_epoch d, pubkey_hash d).

(** The order of the key pairs. *)
Definition key_leb (k k' : Z * hash) : bool :=
  (k.1 <? k'.1) || ((k.1 =? k'.1) && (k.2 <=? k'.2)).

(** [sort_by_key], which is stable. *)
Fixpoint insert_queued (d : QueuedDeposit) (l : list QueuedDeposit) : list QueuedDeposit :=
  match l with
  | [] => [d]
  | d' :: l' => if key_leb (queue_key d) (queue_key d') then d :: l else d' :: insert_queued d l'
  end.

Definition sort_deposits (l : list QueuedDeposit) : list QueuedDeposit := foldr insert_queued [] l.

Definition eligible_at (d : QueuedDeposit) : Z :=
  saturating_add u64_MAX (deposit_epoch d) ACTIVATION_DELAY_EPOCHS.

Fixpoint admit_loop (epoch : Z) (queue : list QueuedDeposit) (ae : Z) (admitted : nat)
    : list (hash * Z) :=
  match queue with
  | [] => []
  | d :: queue =>
      let '(ae, admitted) := if ae <? eligible_at d then (eligible_at d, 0%nat) else (ae, admitted) in
      match (if (admitted =? MAX_ACTIVATIONS_PER_EPOCH)%nat
             then (λ next, (next, 0%nat)) <$> checked_add u64_MAX ae 1
             else Some (ae, admitted)) with
      | None => []
      | Some (ae, admitted) =>
          if epoch <? ae then []
          else (pubkey_hash d, ae) :: admit_loop epoch queue ae (S admitted)
      end
  end.

Definition resolve_activations (deposits : list QueuedDeposit) (epoch : Z) : list (hash * Z) :=
  admit_loop epoch (sort_deposits deposits) 0 0.

(** ** Exits and withdrawals *)

Record ValidatorRecord := mkRecord {
  vr_pubkey : list Z;
  vr_amount_sat : Z;
  activation_epoch : Z;
  exit_epoch : option Z;
  withdrawal_addr : hash;
  withdrawn : bool;
}.

Definition assigned_duties_at (r : ValidatorRecord) (epoch : Z) : bool :=
  match exit_epoch r with
  | Some x => epoch <? saturating_add u64_MAX x EXIT_DELAY_EPOCHS
  | None => activation_epoch r <=? epoch
  end.

Record ExitTx := mkExit { ex_pubkey_hash : hash; ex_epoch : Z; ex_signature : list Z }.

Definition exit_signing_root (e : ExitTx) : hash :=
  sha3_256 (DS_EXIT ++ hash_bytes (ex_pubkey_hash e) ++ le_bytes 8 (ex_epoch e)).

Inductive ExitReject := ExitUnknownValidator | AlreadyExited | FutureEpoch | ExitBadSignature.

Definition validate_exit (e : ExitTx) (r : ValidatorRecord) (current_epoch : Z)
    (v : HybridKeyVerifier) : result ExitReject unit :=
  let expected := sha3_256 (vr_pubkey r) in
  if negb (ex_pubkey_hash e =? expected) then Err ExitUnknownValidator
  else if bool_decide (is_Some (exit_epoch r)) then Err AlreadyExited
  else if current_epoch <? ex_epoch e then Err FutureEpoch
  else if negb (verify_hybrid (vr_pubkey r) (exit_signing_root e) (ex_signature e) v)
  then Err ExitBadSignature else Ok tt.

End hashed.

Inductive WithdrawReject := NotExited | DelayNotElapsed | AlreadyWithdrawn.

Definition validate_withdrawal (r : ValidatorRecord) (current_epoch : Z)
    : result WithdrawReject (hash * Z) :=
  match exit_epoch r with
  | None => Err NotExited
  | Some x =>
      if withdrawn r then Err AlreadyWithdrawn
      else if current_epoch <? saturating_add u64_MAX x WITHDRAWAL_DELAY_EPOCHS
      then Err DelayNotElapsed
      else Ok (withdrawal_addr r, vr_amount_sat r)
  end.

(** ** The activation queue, epoch by epoch *)

(** The deposits at the head of the queue that are eligible at [e]. *)
Fixpoint ready (e : Z) (q : list QueuedDeposit) : nat :=
  match q with
  | [] => 0
  | d :: q => if eligible_at d <=? e then S (ready e q) else 0
  end.

(** The rule as stated: each of the [n] epochs from [e] on admits the first eligible
    deposits of the queue, [cap] in the first epoch and
    [MAX_ACTIVATIONS_PER_EPOCH] in the others. *)
Fixpoint by_epoch (n : nat) (e : Z) (cap : nat) (q : list QueuedDeposit) : list (hash * Z) :=
  match n with
  | O => []
  | S n =>
      let k := (cap `min` ready e q)%nat in
      ((λ d, (pubkey_hash d, e)) <$> take k q)
      ++ by_epoch n (e + 1) MAX_ACTIVATIONS_PER_EPOCH (drop k q)
  end.

(** Nobody at the head is eligible before [e']. *)
Lemma by_epoch_skip n e e' cap q :
  e ≤ e' → (∀ d, q !! 0%nat = Some d → e' ≤ eligible_at d) → (e = e' → cap = MAX_ACTIVATIONS_PER_EPOCH) →
  by_epoch n e cap q
  = by_epoch (Z.to_nat (Z.of_nat n - (e' - e))) e' MAX_ACTIVATIONS_PER_EPOCH q.
Proof.
  intros He Hq Hcap. remember (Z.to_nat (e' - e)) as g eqn:Eg.
  revert n e cap He Hcap Eg. induction g as [|g IH]; intros n e cap He Hcap Eg.
  - assert (e' = e) as -> by lia. rewrite Hcap by lia. f_equal. lia.
  - destruct n as [|n]; [by replace (Z.to_nat _) with 0%nat by lia|]. cbn [by_epoch].
    assert (ready e q = 0%nat) as ->.
    { destruct q as [|d q]; simpl; [done|]. specialize (Hq d eq_refl). by rewrite (proj2 (Z.leb_gt _ _)) by lia. }
    rewrite Nat.min_0_r, take_0, drop_0. simpl. rewrite (IH n (e + 1)) by lia. f_equal. lia.
Qed.

Lemma by_epoch_push n e cap d q :
  eligible_at d ≤ e →
  by_epoch (S n) e (S cap) (d :: q) = (pubkey_hash d, e) :: by_epoch (S n) e cap q.
Proof. intros Hd. cbn [by_epoch ready]. rewrite (proj2 (Z.leb_le _ _)) by done. done. Qed.

Lemma admit_loop_by_epoch epoch q ae admitted :
  0 ≤ ae ≤ u64_MAX → epoch ≤ u64_MAX → (admitted ≤ MAX_ACTIVATIONS_PER_EPOCH)%nat →
  admit_loop epoch q ae admitted
  = by_epoch (Z.to_nat (epoch - ae + 1)) ae (MAX_ACTIVATIONS_PER_EPOCH - admitted) q.
Proof.
  intros Hae Hep Hadm. revert ae admitted Hae Hadm. induction q as [|d q IH]; intros ae admitted Hae Hadm.
  { simpl. generalize (MAX_ACTIVATIONS_PER_EPOCH - admitted)%nat (Z.to_nat (epoch - ae + 1)). intros c n.
    clear. revert ae c. induction n as [|n IHn]; intros ae c; [done|]. cbn [by_epoch].
    rewrite take_nil, drop_nil. simpl. apply IHn. }
  assert (eligible_at d ≤ u64_MAX) as Hel by (unfold eligible_at, saturating_add; lia).
  (* what happens once the head is eligible and the epoch has room *)
  assert (∀ ae admitted, 0 ≤ ae ≤ u64_MAX → (admitted < MAX_ACTIVATIONS_PER_EPOCH)%nat → eligible_at d ≤ ae →
    (if epoch <? ae then [] else (pubkey_hash d, ae) :: admit_loop epoch q ae (S admitted))
    = by_epoch (Z.to_nat (epoch - ae + 1)) ae (MAX_ACTIVATIONS_PER_EPOCH - admitted) (d :: q)) as Hpush.
  { clear ae admitted Hae Hadm. intros ae admitted Hae Hadm Hd. destruct (epoch <? ae) eqn:E.
    - by replace (Z.to_nat _) with 0%nat by lia.
    - rewrite IH by lia. replace (Z.to_nat (epoch - ae + 1)) with (S (Z.to_nat (epoch - ae))) by lia.
      replace (MAX_ACTIVATIONS_PER_EPOCH - admitted)%nat with (S (MAX_ACTIVATIONS_PER_EPOCH - S admitted)) by lia.
      by rewrite by_epoch_push. }
  cbn [admit_loop]. destruct (ae <? eligible_at d) eqn:Ee.
  - cbn [Nat.eqb MAX_ACTIVATIONS_PER_EPOCH]. rewrite Hpush by (unfold MAX_ACTIVATIONS_PER_EPOCH; lia).
    rewrite (by_epoch_skip _ ae (eligible_at d)); [|lia| |lia].
    + unfold MAX_ACTIVATIONS_PER_EPOCH. f_equal. lia.
    + intros ? [= <-]. lia.
  - destruct (admitted =? MAX_ACTIVATIONS_PER_EPOCH)%nat eqn:Ea.
    + apply Nat.eqb_eq in Ea. subst admitted. rewrite Nat.sub_diag.
      unfold checked_add. case_goal as Ec; cbn [fmap option_fmap option_map].
      * rewrite Hpush by (unfold MAX_ACTIVATIONS_PER_EPOCH; lia).
        destruct (decide (ae ≤ epoch)).
        -- replace (Z.to_nat (epoch - ae + 1)) with (S (Z.to_nat (epoch - (ae + 1) + 1))) by lia. done.
        -- by replace (Z.to_nat (epoch - ae + 1)) with 0%nat by lia;
             replace (Z.to_nat (epoch - (ae + 1) + 1)) with 0%nat by lia.
      * destruct (Z.to_nat (epoch - ae + 1)) as [|[|n]] eqn:En; [done|done|lia].
    + apply Nat.eqb_neq in Ea. apply Hpush; lia.
Qed.

(** An entry of the schedule is for one of the scheduled epochs; the first of them
    takes [cap] entries, the others [MAX_ACTIVATIONS_PER_EPOCH]. *)
Lemma by_epoch_count n e cap q e' :
  (cap ≤ MAX_ACTIVATIONS_PER_EPOCH)%nat →
  (length (filter (λ x : hash * Z, x.2 = e') (by_epoch n e cap q))
   ≤ if decide (e' < e)%Z then 0 else MAX_ACTIVATIONS_PER_EPOCH)%nat.
Proof.
  revert e cap q. induction n as [|n IH]; intros e cap q Hcap; [simpl; lia|]. cbn [by_epoch].
  rewrite filter_app, length_app.
  specialize (IH (e + 1) MAX_ACTIVATIONS_PER_EPOCH (drop (cap `min` ready e q) q) ltac:(lia)).
  set (k := (cap `min` ready e q)%nat) in *.
  assert (length (filter (λ x : hash * Z, x.2 = e') ((λ d, (pubkey_hash d, e)) <$> take k q))
          ≤ if decide (e' = e) then k else 0)%nat as Hk.
  { destruct (decide (e' = e)).
    - etransitivity; [apply length_filter|]. rewrite length_fmap, length_take. lia.
    - clear IH. induction (take k q) as [|d l IHl]; csimpl; [lia|].
      rewrite filter_cons_False by (simpl; congruence). done. }
  repeat case_decide; lia.
Qed.

Lemma ready_take e q k : (k ≤ ready e q)%nat → Forall (λ d, eligible_at d ≤ e) (take k q).
Proof.
  revert k. induction q as [|d q IH]; intros [|k]; simpl; try constructor; destruct (eligible_at d <=? e) eqn:E;
    [lia|lia|apply IH; lia|lia].
Qed.

Lemma by_epoch_entry n e cap q h e' :
  (h, e') ∈ by_epoch n e cap q →
  ∃ d, d ∈ q ∧ pubkey_hash d = h ∧ eligible_at d ≤ e' ∧ e ≤ e' < e + Z.of_nat n.
Proof.
  revert e cap q. induction n as [|n IH]; intros e cap q; cbn [by_epoch]; [by intros ?%not_elem_of_nil|].
  intros [Hin|Hin]%elem_of_app.
  - apply list_elem_of_fmap in Hin as (d & [= -> ->] & Hd).
    assert (eligible_at d ≤ e) as Hel.
    { revert d Hd IH. intros d Hd _. revert d Hd. apply Forall_forall, ready_take. lia. }
    exists d. split_and!; [|done|done|lia|lia].
    eapply elem_of_submseteq; [exact Hd|]. apply sublist_submseteq, sublist_take.
  - apply IH in Hin as (d & Hd & ? & ? & ?). exists d. split_and!; [|done|done|lia|lia].
    eapply elem_of_submseteq; [exact Hd|]. apply sublist_submseteq, sublist_drop.
Qed.

Lemma admit_loop_prefix epoch epoch' q ae admitted :
  epoch ≤ epoch' → admit_loop epoch q ae admitted `prefix_of` admit_loop epoch' q ae admitted.
Proof.
  intros He. revert ae admitted. induction q as [|d q IH]; intros ae admitted; cbn [admit_loop]; [done|].
  destruct (if ae <? eligible_at d then _ else _) as [ae1 adm1].
  destruct (if (adm1 =? _)%nat then _ else _) as [[ae2 adm2]|]; [|done].
  destruct (epoch <? ae2) eqn:E; [apply prefix_nil|].
  rewrite (proj2 (Z.ltb_ge epoch' ae2)) by lia. apply prefix_cons, IH.
Qed.

Lemma admit_loop_keys epoch q q' ae admitted :
  queue_key <$> q = queue_key <$> q' →
  admit_loop epoch q ae admitted = admit_loop epoch q' ae admitted.
Proof.
  revert q' ae admitted. induction q as [|d q IH]; intros [|d' q'] ae admitted; csimpl; try done.
  intros [= Hd Hp Hq]. unfold eligible_at. rewrite Hd, Hp.
  destruct (if ae <? _ then _ else _) as [ae1 adm1].
  destruct (if (adm1 =? _)%nat then _ else _) as [[ae2 adm2]|]; [|done].
  destruct (epoch <? ae2); [done|]. f_equal. by apply IH.
Qed.

Definition key_le2 (k k' : Z * hash) : Prop := key_leb k k' = true.

Lemma key_leb_spec k k' : key_leb k k' = true ↔ k.1 < k'.1 ∨ (k.1 = k'.1 ∧ k.2 ≤ k'.2).
Proof. unfold key_leb. lia. Qed.

#[local] Instance key_le2_antisymm : AntiSymm eq key_le2.
Proof.
  intros [a b] [c d]. unfold key_le2. rewrite !key_leb_spec. simpl. intros. f_equal; lia.
Qed.

Lemma insert_queued_perm d l : insert_queued d l ≡ₚ d :: l.
Proof.
  induction l as [|d' l IH]; simpl; [done|]. case_goal as E; [done|]. rewrite IH. by constructor.
Qed.

Lemma sort_deposits_perm l : sort_deposits l ≡ₚ l.
Proof. induction l as [|d l IH]; simpl; [done|]. by rewrite insert_queued_perm, IH. Qed.

Lemma insert_queued_sorted d l :
  StronglySorted key_le2 (queue_key <$> l) → StronglySorted key_le2 (queue_key <$> insert_queued d l).
Proof.
  induction l as [|d' l IH]; csimpl; intros Hs; [by repeat constructor|].
  apply StronglySorted_inv in Hs as [Hs Hall]. case_goal as E; csimpl.
  - constructor; [by constructor|]. constructor; [done|]. apply (Forall_impl _ _ _ Hall).
    unfold key_le2 in *. intros k. rewrite !key_leb_spec in *. lia.
  - constructor; [by apply IH|]. rewrite insert_queued_perm. csimpl. constructor; [|done].
    unfold key_le2, key_leb in *. lia.
Qed.

Lemma sort_deposits_keys l l' :
  l ≡ₚ l' → queue_key <$> sort_deposits l = queue_key <$> sort_deposits l'.
Proof.
  intros Hl. apply (StronglySorted_unique key_le2).
  - clear. induction l; simpl; [constructor|]. by apply insert_queued_sorted.
  - clear. induction l'; simpl; [constructor|]. by apply insert_queued_sorted.
  - by rewrite !sort_deposits_perm, Hl.
Qed.

(** C25: The single pass over the sorted activation queue, which jumps from one
    eligibility or churn boundary to the next, computes the rule stated epoch by
    epoch: from epoch 0 to [epoch], each epoch admits the first eligible deposits of
    the queue, at most four.  The result does not depend on the order the deposits
    are given in, nobody activates before its delay, and what was activated by an
    epoch stays as it is when later epochs are resolved. *)
Theorem activation_queue ds epoch :
  0 ≤ epoch ≤ u64_MAX →
  resolve_activations ds epoch
    = by_epoch (Z.to_nat (epoch + 1)) 0 MAX_ACTIVATIONS_PER_EPOCH (sort_deposits ds) ∧
  (∀ e, (length (filter (λ x : hash * Z, x.2 = e) (resolve_activations ds epoch))
         ≤ MAX_ACTIVATIONS_PER_EPOCH)%nat) ∧
  (∀ h e, (h, e) ∈ resolve_activations ds epoch →
     ∃ d, d ∈ ds ∧ pubkey_hash d = h ∧ eligible_at d ≤ e ≤ epoch) ∧
  (∀ ds', ds ≡ₚ ds' → resolve_activations ds' epoch = resolve_activations ds epoch) ∧
  (∀ epoch', epoch ≤ epoch' → resolve_activations ds epoch `prefix_of` resolve_activations ds epoch').
Proof.
  intros He. assert (resolve_activations ds epoch
    = by_epoch (Z.to_nat (epoch + 1)) 0 MAX_ACTIVATIONS_PER_EPOCH (sort_deposits ds)) as Hr.
  { unfold resolve_activations. rewrite admit_loop_by_epoch by (unfold u64_MAX in *; lia).
    rewrite Nat.sub_0_r. f_equal. lia. }
  split_and!; [done| | | |].
  - intros e. rewrite Hr. etransitivity; [by apply by_epoch_count|]. case_decide; lia.
  - intros h e. rewrite Hr. intros (d & Hd & ? & ? & ?)%by_epoch_entry. rewrite sort_deposits_perm in Hd.
    exists d. split_and!; [done|done|lia|lia].
  - intros ds' Hp. by apply admit_loop_keys, sort_deposits_keys.
  - intros epoch'. apply admit_loop_prefix.
Qed.

Lemma growth_admissions_spec used budget stakes :
  0 ≤ used → Forall (λ s, 0 ≤ s) stakes → used + sumZ stakes ≤ u128_MAX →
  let n := growth_admissions used budget stakes in
  (n ≤ length stakes)%nat ∧
  (used + sumZ (take n stakes) ≤ budget ∨ n = 0%nat ∨
     ∃ i, (i < n)%nat ∧ used + sumZ (take i stakes) = 0 ∧ n = S i) ∧
  (∀ s, stakes !! n = Some s → used + sumZ (take n stakes) ≠ 0 ∧
     budget < used + sumZ (take n stakes) + s).
Proof.
  revert used. induction stakes as [|x stakes IH]; intros used Hu Hall Hsum; csimpl.
  { split_and!; [lia|auto|done]. }
  apply Forall_cons in Hall as [Hx Hall]. simpl in Hsum.
  assert (0 ≤ sumZ stakes) by (by apply sumZ_nonneg).
  assert (saturating_add u128_MAX used x = used + x) as -> by (unfold saturating_add; lia).
  case_goal as E; csimpl.
  - split_and!; [lia|auto|]. intros s [= <-]. lia.
  - destruct (IH (used + x)) as (H1 & H2 & H3); [lia|done|lia|].
    set (n := growth_admissions (used + x) budget stakes) in *. simpl in *.
    split_and!; [lia| |].
    + destruct H2 as [H2|[H2|(i & Hi & H2 & Hn)]]; [left; lia| |].
      * rewrite H2. simpl. destruct (decide (used = 0)); [|left; lia].
        right; right. exists 0%nat. simpl. lia.
      * right; right. exists (S i). simpl. lia.
    + intros s Hs. destruct (H3 s Hs). lia.
Qed.

(** A record that can be withdrawn has exited, at least [WITHDRAWAL_DELAY_EPOCHS]
    epochs ago unless the clock has reached its last epoch, has not been paid, has
    no duties left at that epoch or any later one, and pays exactly its amount to the
    address fixed at deposit; a record whose exit was accepted can be withdrawn
    from the end of the delay on. *)
Theorem withdrawal_after_duties (r : ValidatorRecord) (epoch : Z) :
  (∀ addr amount, validate_withdrawal r epoch = Ok (addr, amount) →
     addr = withdrawal_addr r ∧ amount = vr_amount_sat r ∧ withdrawn r = false ∧
     (∃ x, exit_epoch r = Some x ∧ (x + WITHDRAWAL_DELAY_EPOCHS ≤ epoch ∨ u64_MAX ≤ epoch)) ∧
     (∀ epoch', epoch ≤ epoch' → assigned_duties_at r epoch' = false)) ∧
  (∀ x, exit_epoch r = Some x → withdrawn r = false → x + WITHDRAWAL_DELAY_EPOCHS ≤ epoch →
     validate_withdrawal r epoch = Ok (withdrawal_addr r, vr_amount_sat r)).
Proof.
  unfold validate_withdrawal, assigned_duties_at, saturating_add, WITHDRAWAL_DELAY_EPOCHS,
    EXIT_DELAY_EPOCHS. split.
  - intros addr amount. destruct (exit_epoch r) as [x|]; [|done]. destruct (withdrawn r); [done|].
    case_goal as E; [done|]. intros [= <- <-]. split_and!; try done.
    + exists x. split; [done|lia].
    + intros epoch' ?. apply Z.ltb_ge. lia.
  - intros x -> -> Hx. rewrite (proj2 (Z.ltb_ge _ _)) by lia. done.
Qed.

(** ** Witnesses *)

Definition ex_queue : list QueuedDeposit :=
  [mkQueued 9 3 1; mkQueued 4 0 1; mkQueued 5 0 1; mkQueued 3 0 1; mkQueued 2 0 1; mkQueued 1 0 1].

(** Five deposits of epoch 0 and one of epoch 3: four activate at epoch 8, one at 9,
    the last at 11. *)
Lemma activation_queue_witness :
  resolve_activations ex_queue 11 = [(1, 8); (2, 8); (3, 8); (4, 8); (5, 9); (9, 11)] ∧
  resolve_activations ex_queue 11 = by_epoch 12 0 4 (sort_deposits ex_queue).
Proof. split; [reflexivity|]. exact (proj1 (activation_queue ex_queue 11 ltac:(unfold u64_MAX; lia))). Defined.

Definition ex_record : ValidatorRecord := mkRecord [] 77 3 (Some 10) 5 false.

Lemma withdrawal_after_duties_witness :
  validate_withdrawal ex_record 2058 = Ok (5, 77) ∧ assigned_duties_at ex_record 2058 = false ∧
  validate_withdrawal ex_record 2057 = Err DelayNotElapsed ∧ assigned_duties_at ex_record 41 = true.
Proof.
  destruct (withdrawal_after_duties ex_record 2058) as [H1 H2].
  assert (validate_withdrawal ex_record 2058 = Ok (5, 77)) as E
    by (apply (H2 10); [reflexivity|reflexivity|unfold WITHDRAWAL_DELAY_EPOCHS; lia]).
  split_and!; [exact E| |reflexivity|reflexivity].
  destruct (H1 _ _ E) as (_ & _ & _ & _ & Hd). apply Hd. lia.
Defined.

(** The code's duty test looks only at the exit once there is one: a record that has
    exited counts as on duty at epochs before its activation. *)
Theorem duty_before_activation (r : ValidatorRecord) x epoch :
  exit_epoch r = Some x → epoch < activation_epoch r → epoch ≤ x → x < u64_MAX →
  assigned_duties_at r epoch = true.
Proof.
  intros Hx _ He Hm. unfold assigned_duties_at, saturating_add, EXIT_DELAY_EPOCHS. rewrite Hx. lia.
Qed.

End Staking.
