(* ===== verification/Tokenomics.v ===== *)
(** * Supply, vesting and emission

    Models [crates/bloch-pos-committee/src/tokenomics_v4.rs]: the allocation of the
    supply, the vesting lines and the three emission curves (flat, halving and
    decay).  The [while] loops of the curves are bounded by a constant number of
    eras or years, which is their fuel.  The products of the file stay below
    2^105 (a supply of 10^19 satoshis times at most 4.2 * 10^7 slots), so the
    [u128] arithmetic is exact and is written with plain integers. *)

From S2P Require Import Prelude Delegation.
Local Open Scope Z_scope.

Module Tokenomics.
Import Delegation.

(** ** The allocation *)

Definition SPLIT_NUMERATOR : Z := 100.
Definition SPLIT_DENOMINATOR : Z := 21.
Definition split_g3_sat (g3_sat : Z) : option Z :=
  x ← mul_w u128_MAX g3_sat SPLIT_NUMERATOR; Some (x / SPLIT_DENOMINATOR).

Definition TOTAL_SUPPLY_BLOCH : Z := 100000000000.
Definition TOTAL_SUPPLY_SAT : Z := TOTAL_SUPPLY_BLOCH * SAT_PER_BLOCH.
Definition FOUNDER_BLOCH : Z := 10000000000.
Definition VC_BLOCH : Z := 10000000000.
Definition TEAM_BLOCH : Z := 10000000000.
Definition MARKETING_BLOCH : Z := 4000000000.
Definition LIQUIDITY_BLOCH : Z := 5000000000.
Definition FOUNDATION_HELD_BLOCH : Z := VC_BLOCH + TEAM_BLOCH + MARKETING_BLOCH + LIQUIDITY_BLOCH.
Definition CARRYOVER_TOTAL_BLOCH : Z := 18146400000.
Definition HOLDER_CARRYOVER_CAP_BLOCH : Z := 0.
Definition VALIDATOR_EMISSION_BLOCH : Z :=
  TOTAL_SUPPLY_BLOCH - CARRYOVER_TOTAL_BLOCH - FOUNDER_BLOCH - VC_BLOCH - TEAM_BLOCH
  - MARKETING_BLOCH - LIQUIDITY_BLOCH.
Definition VALIDATOR_EMISSION_SAT : Z := VALIDATOR_EMISSION_BLOCH * SAT_PER_BLOCH.
Definition GENESIS_ISSUED_SAT : Z := TOTAL_SUPPLY_SAT - VALIDATOR_EMISSION_SAT.

Definition SLOTS_PER_DAY : Z := 2880.
Definition SLOTS_PER_YEAR : Z := 1051920.
Definition EMISSION_YEARS : Z := 40.
Definition EMISSION_SLOTS : Z := EMISSION_YEARS * SLOTS_PER_YEAR.

(** ** Vesting *)

Definition FOUNDER_CLIFF_SLOTS : Z := 2 * SLOTS_PER_YEAR.
Definition FOUNDER_VESTING_SLOTS : Z := 8 * SLOTS_PER_YEAR.
Definition FOUNDER_VESTING_END_SLOT : Z := FOUNDER_CLIFF_SLOTS + FOUNDER_VESTING_SLOTS.

Definition founder_vested_sat (slot : Z) : Z :=
  let total := FOUNDER_BLOCH * SAT_PER_BLOCH in
  if slot <? FOUNDER_CLIFF_SLOTS then 0
  else if FOUNDER_VESTING_END_SLOT <=? slot then total
  else
    let elapsed := slot - FOUNDER_CLIFF_SLOTS in
    total * elapsed / FOUNDER_VESTING_SLOTS.

Definition MONTH_SLOTS : Z := SLOTS_PER_YEAR / 12.
Definition VC_CLIFF_SLOTS : Z := 12 * MONTH_SLOTS.
Definition VC_VESTING_SLOTS : Z := 24 * MONTH_SLOTS.
Definition TEAM_CLIFF_SLOTS : Z := 18 * MONTH_SLOTS.
Definition TEAM_VESTING_SLOTS : Z := 36 * MONTH_SLOTS.
Definition MARKETING_TGE_NUMERATOR : Z := 25.
Definition MARKETING_TGE_DENOMINATOR : Z := 100.
Definition MARKETING_VESTING_SLOTS : Z := 24 * MONTH_SLOTS.
Definition FOUNDATION_LIQUID_AT_GENESIS_BLOCH : Z :=
  LIQUIDITY_BLOCH + MARKETING_BLOCH * MARKETING_TGE_NUMERATOR / MARKETING_TGE_DENOMINATOR.

Definition vested_sat (total_bloch slot cliff duration : Z) : Z :=
  let total := total_bloch * SAT_PER_BLOCH in
  if slot <? cliff then 0
  else if (duration =? 0) || (cliff + duration <=? slot) then total
  else total * (slot - cliff) / duration.

Definition vc_vested_sat (slot : Z) : Z := vested_sat VC_BLOCH slot VC_CLIFF_SLOTS VC_VESTING_SLOTS.
Definition team_vested_sat (slot : Z) : Z :=
  vested_sat TEAM_BLOCH slot TEAM_CLIFF_SLOTS TEAM_VESTING_SLOTS.

Definition marketing_vested_sat (slot : Z) : Z :=
  let total := MARKETING_BLOCH * SAT_PER_BLOCH in
  let at_tge := total * MARKETING_TGE_NUMERATOR / MARKETING_TGE_DENOMINATOR in
  at_tge + vested_sat (MARKETING_BLOCH - MARKETING_BLOCH * MARKETING_TGE_NUMERATOR
                                          / MARKETING_TGE_DENOMINATOR)
             slot 0 MARKETING_VESTING_SLOTS.

Definition liquidity_vested_sat (slot : Z) : Z := LIQUIDITY_BLOCH * SAT_PER_BLOCH.

Definition insider_unlocked_sat (slot : Z) : Z :=
  founder_vested_sat slot + team_vested_sat slot + vc_vested_sat slot + marketing_vested_sat slot.

Definition scaled_carryover_sat (balance_sat total_non_founder_sat : Z) : Z :=
  let cap_sat := HOLDER_CARRYOVER_CAP_BLOCH * SAT_PER_BLOCH in
  if (total_non_founder_sat <=? cap_sat) || (total_non_founder_sat =? 0) then balance_sat
  else balance_sat * cap_sat / total_non_founder_sat.

(** ** Emission curves *)

Definition validator_reward_flat_sat (slot : Z) : Z :=
  if EMISSION_SLOTS <=? slot then 0 else VALIDATOR_EMISSION_BLOCH * SAT_PER_BLOCH / EMISSION_SLOTS.

Definition validator_emitted_flat_by (slot : Z) : Z :=
  let s := if EMISSION_SLOTS <? slot then EMISSION_SLOTS else slot in
  validator_reward_flat_sat 0 * s.

Definition HALVING_PERIOD_SLOTS : Z := 4 * SLOTS_PER_YEAR.
Definition HALVINGS : nat := 10.
Definition INITIAL_REWARD_SAT : Z :=
  VALIDATOR_EMISSION_BLOCH * SAT_PER_BLOCH * 1024 / (HALVING_PERIOD_SLOTS * 2046).

Definition validator_reward_halving_sat (slot : Z) : Z :=
  if EMISSION_SLOTS <=? slot then 0
  else
    let era := slot / HALVING_PERIOD_SLOTS in
    if Z.of_nat HALVINGS <=? era then 0 else Z.shiftr INITIAL_REWARD_SAT era.

Fixpoint halving_loop (fuel : nat) (last era total : Z) : Z :=
  match fuel with
  | O => total
  | S fuel =>
      let era_start := era * HALVING_PERIOD_SLOTS in
      if last <=? era_start then total
      else
        let in_era := last - era_start in
        let span := if HALVING_PERIOD_SLOTS <? in_era then HALVING_PERIOD_SLOTS else in_era in
        halving_loop fuel last (era + 1) (total + Z.shiftr INITIAL_REWARD_SAT era * span)
  end.

Definition validator_emitted_halving_by (slot : Z) : Z :=
  let last := if EMISSION_SLOTS <? slot then EMISSION_SLOTS else slot in
  halving_loop HALVINGS last 0 0.

Definition DECAY_NUMERATOR : Z := 9.
Definition DECAY_DENOMINATOR : Z := 10.
Definition INITIAL_ANNUAL_SAT : Z := 434965169252191762.
Definition EMISSION_DUST_SAT : Z := 855280.

(** The loop [while n < year]. *)
Fixpoint decayed (years : nat) (annual : Z) : Z :=
  match years with
  | O => annual
  | S years => decayed years (annual * DECAY_NUMERATOR / DECAY_DENOMINATOR)
  end.

Definition validator_reward_decay_sat (slot : Z) : Z :=
  if EMISSION_SLOTS <=? slot then 0
  else
    let year := slot / SLOTS_PER_YEAR in
    decayed (Z.to_nat year) INITIAL_ANNUAL_SAT / SLOTS_PER_YEAR.

Fixpoint decay_loop (fuel : nat) (last year annual total : Z) : Z :=
  match fuel with
  | O => total
  | S fuel =>
      let start := year * SLOTS_PER_YEAR in
      if last <=? start then total
      else
        let in_year := last - start in
        let span := if SLOTS_PER_YEAR <? in_year then SLOTS_PER_YEAR else in_year in
        decay_loop fuel last (year + 1) (annual * DECAY_NUMERATOR / DECAY_DENOMINATOR)
          (total + annual / SLOTS_PER_YEAR * span)
  end.

Definition validator_emitted_decay_by (slot : Z) : Z :=
  let last := if EMISSION_SLOTS <? slot then EMISSION_SLOTS else slot in
  decay_loop (Z.to_nat EMISSION_YEARS) last 0 INITIAL_ANNUAL_SAT 0.

Definition annual_inflation_bps (year : Z) : Z :=
  decayed (Z.to_nat year) INITIAL_ANNUAL_SAT * 10000 / TOTAL_SUPPLY_SAT.

(** ** Curves that are constant on periods *)

Section piecewise.
Context (P : Z) (HP : 0 < P).

(** [rates] from period [y] on, each for the part of its period before [last]. *)
Fixpoint piecewise (rates : list Z) (y last : Z) : Z :=
  match rates with
  | [] => 0
  | r :: rates => r * Z.max 0 (Z.min P (last - y * P)) + piecewise rates (y + 1) last
  end.

Lemma piecewise_beyond rates y last : last ≤ y * P → piecewise rates y last = 0.
Proof.
  revert y. induction rates as [|r rates IH]; intros y Hy; simpl; [done|].
  rewrite IH by nia. rewrite Z.max_l by lia. lia.
Qed.

Lemma piecewise_step rates y last :
  0 ≤ last →
  piecewise rates y (last + 1)
  = piecewise rates y last
    + (if y <=? last / P then nth (Z.to_nat (last / P - y)) rates 0 else 0).
Proof.
  intros Hl. pose proof (Z.div_mod last P ltac:(lia)) as Hdm.
  pose proof (Z.mod_pos_bound last P HP) as Hmb. set (q := last / P) in *.
  revert y. induction rates as [|r rates IH]; intros y; simpl.
  { case_goal as E; [by destruct (Z.to_nat (q - y))|done]. }
  rewrite IH. clear IH. set (a := last - y * P). replace (last + 1 - y * P) with (a + 1) by lia.
  destruct (Z.lt_trichotomy q y) as [Hq|[Hq|Hq]].
  - rewrite !(proj2 (Z.leb_gt _ _)) by lia. assert (a + 1 ≤ 0) by nia.
    replace (Z.max 0 (Z.min P (a + 1))) with 0 by lia. replace (Z.max 0 (Z.min P a)) with 0 by lia. lia.
  - rewrite (proj2 (Z.leb_gt (y + 1) q)), (proj2 (Z.leb_le y q)) by lia.
    replace (Z.to_nat (q - y)) with 0%nat by lia. assert (0 ≤ a < P) by nia.
    replace (Z.max 0 (Z.min P (a + 1))) with (a + 1) by lia.
    replace (Z.max 0 (Z.min P a)) with a by lia. simpl. lia.
  - rewrite (proj2 (Z.leb_le (y + 1) q)), (proj2 (Z.leb_le y q)) by lia.
    replace (Z.to_nat (q - y)) with (S (Z.to_nat (q - (y + 1)))) by lia. assert (P ≤ a) by nia.
    replace (Z.max 0 (Z.min P (a + 1))) with P by lia. replace (Z.max 0 (Z.min P a)) with P by lia.
    simpl. lia.
Qed.

End piecewise.

(** A running total is the sum of its steps. *)
Lemma running_total (total step : Z → Z) :
  total 0 = 0 → (∀ s, 0 ≤ s → total (s + 1) = total s + step s) →
  ∀ s, 0 ≤ s → total s = sumZ (step <$> seqZ 0 s).
Proof.
  intros H0 Hstep s Hs. rewrite <-(Z2Nat.id s Hs). generalize (Z.to_nat s). clear s Hs.
  intros n. induction n as [|n IH]; [done|].
  rewrite seqZ_S, fmap_app, sumZ_app, <-IH, Z.add_0_l. simpl.
  replace (Z.of_nat (S n)) with (Z.of_nat n + 1) by lia. rewrite Hstep by lia. lia.
Qed.

Lemma running_total_mono (total step : Z → Z) s s' :
  (∀ s, 0 ≤ s → total (s + 1) = total s + step s) → (∀ s, 0 ≤ step s) →
  0 ≤ s ≤ s' → total s ≤ total s'.
Proof.
  intros Hstep Hpos Hs. replace s' with (s + Z.of_nat (Z.to_nat (s' - s))) by lia.
  generalize (Z.to_nat (s' - s)). intros n. induction n as [|n IH]; [by rewrite Z.add_0_r|].
  replace (s + Z.of_nat (S n)) with (s + Z.of_nat n + 1) by lia. rewrite Hstep by lia.
  specialize (Hpos (s + Z.of_nat n)). lia.
Qed.

Fixpoint halving_rates (fuel : nat) (era : Z) : list Z :=
  match fuel with
  | O => []
  | S fuel => Z.shiftr INITIAL_REWARD_SAT era :: halving_rates fuel (era + 1)
  end.

Lemma nth_halving_rates fuel era n :
  nth n (halving_rates fuel era) 0
  = if (n <? fuel)%nat then Z.shiftr INITIAL_REWARD_SAT (era + Z.of_nat n) else 0.
Proof.
  revert era n. induction fuel as [|fuel IH]; intros era [|n]; try done.
  - simpl. by rewrite Z.add_0_r.
  - cbn [halving_rates nth]. rewrite IH. change (S n <? S fuel)%nat with (n <? fuel)%nat.
    replace (era + 1 + Z.of_nat n) with (era + Z.of_nat (S n)) by lia. done.
Qed.

Lemma halving_loop_piecewise fuel last era total :
  halving_loop fuel last era total
  = total + piecewise HALVING_PERIOD_SLOTS (halving_rates fuel era) era last.
Proof.
  revert era total. induction fuel as [|fuel IH]; intros era total; cbn [halving_loop].
  { simpl. lia. }
  assert (0 < HALVING_PERIOD_SLOTS) by done. case_goal as E.
  - rewrite piecewise_beyond by lia. lia.
  - rewrite IH. cbn [halving_rates piecewise]. rewrite Z.max_r by lia.
    case_goal as E'; [rewrite Z.min_l by lia|rewrite Z.min_r by lia]; lia.
Qed.

Fixpoint decay_rates (fuel : nat) (annual : Z) : list Z :=
  match fuel with
  | O => []
  | S fuel => annual / SLOTS_PER_YEAR :: decay_rates fuel (annual * DECAY_NUMERATOR / DECAY_DENOMINATOR)
  end.

Lemma nth_decay_rates fuel annual n :
  nth n (decay_rates fuel annual) 0
  = if (n <? fuel)%nat then decayed n annual / SLOTS_PER_YEAR else 0.
Proof.
  revert annual n. induction fuel as [|fuel IH]; intros annual [|n]; try done.
  cbn [decay_rates nth]. rewrite IH. done.
Qed.

Lemma decay_loop_piecewise fuel last year annual total :
  decay_loop fuel last year annual total
  = total + piecewise SLOTS_PER_YEAR (decay_rates fuel annual) year last.
Proof.
  revert year annual total. induction fuel as [|fuel IH]; intros year annual total; cbn [decay_loop].
  { simpl. lia. }
  assert (0 < SLOTS_PER_YEAR) by done. case_goal as E.
  - rewrite piecewise_beyond by lia. lia.
  - rewrite IH. cbn [decay_rates piecewise]. rewrite Z.max_r by lia.
    case_goal as E'; [rewrite Z.min_l by lia|rewrite Z.min_r by lia]; lia.
Qed.

Lemma decayed_nonneg n annual : 0 ≤ annual → 0 ≤ decayed n annual.
Proof.
  revert annual. induction n as [|n IH]; intros annual Ha; simpl; [done|]. apply IH, Z.div_pos; [|done].
  unfold DECAY_NUMERATOR. lia.
Qed.

Lemma emitted_decay_step s :
  0 ≤ s → validator_emitted_decay_by (s + 1) = validator_emitted_decay_by s + validator_reward_decay_sat s.
Proof.
  intros Hs. unfold validator_emitted_decay_by, validator_reward_decay_sat.
  destruct (EMISSION_SLOTS <=? s) eqn:E.
  - rewrite (proj2 (Z.ltb_lt EMISSION_SLOTS (s + 1))) by lia. rewrite Z.add_0_r.
    case_goal as E'; [done|]. by replace EMISSION_SLOTS with s by lia.
  - rewrite !(proj2 (Z.ltb_ge EMISSION_SLOTS _)) by lia.
    rewrite !decay_loop_piecewise, piecewise_step by done.
    assert (0 ≤ s / SLOTS_PER_YEAR < EMISSION_YEARS).
    { split; [by apply Z.div_pos|]. apply Z.div_lt_upper_bound; [done|]. 
      change EMISSION_SLOTS with (EMISSION_YEARS * SLOTS_PER_YEAR) in E. lia. }
    rewrite (proj2 (Z.leb_le 0 _)), nth_decay_rates, Z.sub_0_r by lia.
    rewrite (proj2 (Nat.ltb_lt _ _)) by lia. lia.
Qed.

Lemma emitted_halving_step s :
  0 ≤ s →
  validator_emitted_halving_by (s + 1) = validator_emitted_halving_by s + validator_reward_halving_sat s.
Proof.
  intros Hs. unfold validator_emitted_halving_by, validator_reward_halving_sat.
  destruct (EMISSION_SLOTS <=? s) eqn:E.
  - rewrite (proj2 (Z.ltb_lt EMISSION_SLOTS (s + 1))) by lia. rewrite Z.add_0_r.
    case_goal as E'; [done|]. by replace EMISSION_SLOTS with s by lia.
  - rewrite !(proj2 (Z.ltb_ge EMISSION_SLOTS _)) by lia.
    rewrite !halving_loop_piecewise, piecewise_step by done.
    assert (0 ≤ s / HALVING_PERIOD_SLOTS) by (by apply Z.div_pos).
    rewrite (proj2 (Z.leb_le 0 _)), nth_halving_rates, Z.sub_0_r by lia.
    destruct (Z.of_nat HALVINGS <=? s / HALVING_PERIOD_SLOTS) eqn:Eh.
    + rewrite (proj2 (Nat.ltb_ge _ _)) by lia. lia.
    + rewrite (proj2 (Nat.ltb_lt _ _)) by lia. rewrite !Z.add_0_l, Z2Nat.id by lia. done.
Qed.

Lemma emitted_flat_step s :
  0 ≤ s → validator_emitted_flat_by (s + 1) = validator_emitted_flat_by s + validator_reward_flat_sat s.
Proof.
  intros Hs. unfold validator_emitted_flat_by, validator_reward_flat_sat.
  set (r := VALIDATOR_EMISSION_BLOCH * SAT_PER_BLOCH / EMISSION_SLOTS).
  replace (EMISSION_SLOTS <=? 0) with false by done.
  destruct (EMISSION_SLOTS <=? s) eqn:E.
  - rewrite (proj2 (Z.ltb_lt EMISSION_SLOTS (s + 1))) by lia.
    case_goal as E'; [lia|]. replace EMISSION_SLOTS with s by lia. lia.
  - rewrite !(proj2 (Z.ltb_ge EMISSION_SLOTS _)) by lia. lia.
Qed.

Lemma rewards_nonneg s :
  0 ≤ validator_reward_flat_sat s ∧ 0 ≤ validator_reward_halving_sat s ∧ 0 ≤ validator_reward_decay_sat s.
Proof.
  unfold validator_reward_flat_sat, validator_reward_halving_sat, validator_reward_decay_sat. split_and!.
  - by case_goal as E.
  - case_goal as E; [done|]. case_goal as E'; [done|]. by apply Z.shiftr_nonneg.
  - case_goal as E; [done|]. apply Z.div_pos; [by apply decayed_nonneg|done].
Qed.

(** A curve that ends below the allocation is below it at every slot. *)
Lemma emission_capped (total step : Z → Z) slot :
  (∀ s, 0 ≤ s → total (s + 1) = total s + step s) → (∀ s, 0 ≤ step s) →
  total EMISSION_SLOTS ≤ VALIDATOR_EMISSION_SAT →
  (EMISSION_SLOTS ≤ slot → total slot = total EMISSION_SLOTS) →
  0 ≤ slot → total slot ≤ VALIDATOR_EMISSION_SAT.
Proof.
  intros Hstep Hpos Hend Hflat Hs. destruct (decide (EMISSION_SLOTS ≤ slot)); [rewrite Hflat; done|].
  etransitivity; [|exact Hend]. apply (running_total_mono total step); [done|done|lia].
Qed.

Lemma emitted_after slot :
  EMISSION_SLOTS ≤ slot →
  validator_emitted_flat_by slot = validator_emitted_flat_by EMISSION_SLOTS ∧
  validator_emitted_halving_by slot = validator_emitted_halving_by EMISSION_SLOTS ∧
  validator_emitted_decay_by slot = validator_emitted_decay_by EMISSION_SLOTS.
Proof.
  intros Hs. unfold validator_emitted_flat_by, validator_emitted_halving_by, validator_emitted_decay_by.
  rewrite Z.ltb_irrefl. case_goal as E; [done|]. by replace slot with EMISSION_SLOTS by lia.
Qed.

(** Each of the three closed-form emission totals is, at every slot, the sum of the
    per-slot rewards before it, and stays within the validators' allocation; with the
    decay curve the whole supply never exceeds the cap, and at the end of the emission
    it falls short of it by exactly the documented dust. *)
Theorem emission_curves slot :
  0 ≤ slot →
  validator_emitted_flat_by slot = sumZ (validator_reward_flat_sat <$> seqZ 0 slot) ∧
  validator_emitted_halving_by slot = sumZ (validator_reward_halving_sat <$> seqZ 0 slot) ∧
  validator_emitted_decay_by slot = sumZ (validator_reward_decay_sat <$> seqZ 0 slot) ∧
  validator_emitted_flat_by slot ≤ VALIDATOR_EMISSION_SAT ∧
  validator_emitted_halving_by slot ≤ VALIDATOR_EMISSION_SAT ∧
  GENESIS_ISSUED_SAT + validator_emitted_decay_by slot ≤ TOTAL_SUPPLY_SAT ∧
  (EMISSION_SLOTS ≤ slot →
     GENESIS_ISSUED_SAT + validator_emitted_decay_by slot + EMISSION_DUST_SAT = TOTAL_SUPPLY_SAT).
Proof.
  intros Hs. assert (validator_emitted_decay_by slot ≤ VALIDATOR_EMISSION_SAT) as Hcap.
  { apply (emission_capped _ _ slot emitted_decay_step); [apply rewards_nonneg|by vm_compute| |done].
    intros ?. by apply emitted_after. }
  split_and!.
  - by apply running_total; [done|apply emitted_flat_step|].
  - by apply running_total; [done|apply emitted_halving_step|].
  - by apply running_total; [done|apply emitted_decay_step|].
  - apply (emission_capped _ _ slot emitted_flat_step); [apply rewards_nonneg|by vm_compute| |done].
    intros ?. by apply emitted_after.
  - apply (emission_capped _ _ slot emitted_halving_step); [apply rewards_nonneg|by vm_compute| |done].
    intros ?. by apply emitted_after.
  - unfold GENESIS_ISSUED_SAT. lia.
  - intros H. destruct (emitted_after slot H) as (_ & _ & ->). by vm_compute.
Qed.

Lemma emission_curves_witness :
  validator_emitted_decay_by 3 = 1240489303137 ∧
  validator_emitted_decay_by 3 = sumZ (validator_reward_decay_sat <$> seqZ 0 3).
Proof.
  split; [vm_compute; reflexivity|]. apply (emission_curves 3). lia.
Defined.

Lemma vested_sat_line total slot slot' cliff duration :
  0 ≤ total → 0 ≤ duration → slot ≤ slot' →
  0 ≤ vested_sat total slot cliff duration ≤ vested_sat total slot' cliff duration ∧
  vested_sat total slot' cliff duration ≤ total * SAT_PER_BLOCH ∧
  (cliff + duration ≤ slot' → vested_sat total slot' cliff duration = total * SAT_PER_BLOCH).
Proof.
  intros Ht Hd Hs. unfold vested_sat. set (T := total * SAT_PER_BLOCH).
  assert (0 ≤ T) by (unfold T, SAT_PER_BLOCH; lia).
  assert (∀ x, cliff ≤ x → 0 < duration → 0 ≤ T * (x - cliff) / duration) as Hlo
    by (intros; apply Z.div_pos; nia).
  assert (∀ x, x < cliff + duration → 0 < duration → T * (x - cliff) / duration ≤ T) as Hhi
    by (intros; apply Z.div_le_upper_bound; nia).
  assert (∀ x y, x ≤ y → 0 < duration → T * (x - cliff) / duration ≤ T * (y - cliff) / duration)
    by (intros; apply Z.div_le_mono; nia).
  destruct (Z.ltb_spec slot cliff), (Z.ltb_spec slot' cliff); try lia;
    destruct (Z.eqb_spec duration 0); cbn [orb]; try lia;
    destruct (Z.leb_spec (cliff + duration) slot), (Z.leb_spec (cliff + duration) slot'); try lia;
    split_and!; try lia; auto with lia.
Qed.

Lemma founder_vested_line slot :
  founder_vested_sat slot = vested_sat FOUNDER_BLOCH slot FOUNDER_CLIFF_SLOTS FOUNDER_VESTING_SLOTS.
Proof. done. Qed.

(** What the insiders (founder, team, investors, marketing) can spend never decreases,
    never exceeds their four allocations, equals them from the end of the founder's line
    on, and holds nothing of the founder's before the founder's cliff. *)
Theorem vesting_lines slot slot' :
  slot ≤ slot' →
  0 ≤ insider_unlocked_sat slot ≤ insider_unlocked_sat slot' ∧
  insider_unlocked_sat slot'
    ≤ (FOUNDER_BLOCH + TEAM_BLOCH + VC_BLOCH + MARKETING_BLOCH) * SAT_PER_BLOCH ∧
  (slot < FOUNDER_CLIFF_SLOTS →
     insider_unlocked_sat slot = team_vested_sat slot + vc_vested_sat slot + marketing_vested_sat slot) ∧
  (FOUNDER_VESTING_END_SLOT ≤ slot' →
     insider_unlocked_sat slot'
     = (FOUNDER_BLOCH + TEAM_BLOCH + VC_BLOCH + MARKETING_BLOCH) * SAT_PER_BLOCH).
Proof.
  intros Hs. unfold insider_unlocked_sat, team_vested_sat, vc_vested_sat, marketing_vested_sat.
  rewrite !founder_vested_line.
  pose proof (vested_sat_line FOUNDER_BLOCH slot slot' FOUNDER_CLIFF_SLOTS FOUNDER_VESTING_SLOTS
    ltac:(done) ltac:(done) Hs) as (H1 & H2 & H3).
  pose proof (vested_sat_line TEAM_BLOCH slot slot' TEAM_CLIFF_SLOTS TEAM_VESTING_SLOTS
    ltac:(done) ltac:(done) Hs) as (H4 & H5 & H6).
  pose proof (vested_sat_line VC_BLOCH slot slot' VC_CLIFF_SLOTS VC_VESTING_SLOTS
    ltac:(done) ltac:(done) Hs) as (H7 & H8 & H9).
  set (M := MARKETING_BLOCH - MARKETING_BLOCH * MARKETING_TGE_NUMERATOR / MARKETING_TGE_DENOMINATOR).
  pose proof (vested_sat_line M slot slot' 0 MARKETING_VESTING_SLOTS
    ltac:(done) ltac:(done) Hs) as (H10 & H11 & H12).
  set (tge := MARKETING_BLOCH * SAT_PER_BLOCH * MARKETING_TGE_NUMERATOR / MARKETING_TGE_DENOMINATOR).
  assert (M * SAT_PER_BLOCH + tge = MARKETING_BLOCH * SAT_PER_BLOCH) as HM by done.
  assert (0 ≤ tge) by done.
  split_and!; try lia.
  - intros Hc. unfold vested_sat at 1. rewrite (proj2 (Z.ltb_lt _ _)) by done. lia.
  - intros He. rewrite H3, H6, H9, H12; [lia|..]; by eapply Z.le_trans, He.
Qed.

Lemma vesting_lines_witness :
  insider_unlocked_sat 10519200 = 3400000000000000000 ∧ insider_unlocked_sat 0 ≤ insider_unlocked_sat 10519200.
Proof.
  split; [vm_compute; reflexivity|]. exact (proj2 (proj1 (vesting_lines 0 10519200 ltac:(lia)))).
Defined.

End Tokenomics.
