(* ===== verification/Rewards.v ===== *)
(** * Fees and staking rewards

    Models [crates/bloch-pos-committee/src/rewards.rs] and the settlement half of
    [fee_market.rs]: how a block's fees are split between burn and producer, how
    issuance and producer fees are divided between an operator and its
    delegators, and how the delegators' part is shared among them.

    Plain [+], [-] and [*] on [u128] are the checked operations of the prelude;
    [None] is the panic of a build with overflow checks. *)

From S2P Require Import Prelude Delegation Tokenomics.
Local Open Scope Z_scope.

Module Rewards.
Import Delegation Tokenomics.

Definition BPS : Z := 10000.
Definition BASE_FEE_BURN_BPS : Z := 5000.
Definition PRIORITY_FEE_PRODUCER_BPS : Z := 10000.
Definition MAX_BLOCK_FEE_TO_PRODUCER_SAT : Z := 100 * SAT_PER_BLOCH.
Definition MAX_COMMISSION_BPS : Z := 10000.

Abbreviation add := (add_w u128_MAX).
Abbreviation sub := sub_w.
Abbreviation mul := (mul_w u128_MAX).

Record FeeSplit := mkSplit { to_producer : Z; burned : Z }.

Definition split_fees_at (base_fee priority_fee slot : Z) : option FeeSplit :=
  if EMISSION_SLOTS <=? slot then
    p ← add base_fee priority_fee; Some (mkSplit p 0)
  else
    x ← mul base_fee BASE_FEE_BURN_BPS;
    let base_burn := x / BPS in
    y ← mul priority_fee PRIORITY_FEE_PRODUCER_BPS;
    let prio_producer := y / BPS in
    keep ← sub base_fee base_burn;
    p ← add keep prio_producer;
    rest ← sub priority_fee prio_producer;
    b ← add base_burn rest;
    Some (mkSplit p b).

Definition split_fees (base_fee priority_fee : Z) : option FeeSplit :=
  split_fees_at base_fee priority_fee 0.

Record StakeAccount := mkAccount {
  self_stake : Z;
  delegated_stake : Z;
  commission_bps : Z;
  credits : Z;
  max_credits : Z;
}.

Record Payout := mkPayout { operator : Z; delegators : Z; forfeited : Z }.

(** The commission split, the same in [distribute] and [distribute_producer_fees]. *)
Definition commission_split (acct : StakeAccount) (stake amount forfeit : Z) : option Payout :=
  x ← mul amount (delegated_stake acct);
  let delegator_gross := x / stake in
  operator_gross ← sub amount delegator_gross;
  y ← mul delegator_gross (Z.min (commission_bps acct) MAX_COMMISSION_BPS);
  let commission := y / BPS in
  o ← add operator_gross commission;
  d ← sub delegator_gross commission;
  Some (mkPayout o d forfeit).

Definition distribute (acct : StakeAccount) (epoch_issuance total_stake : Z) : option Payout :=
  stake ← add (self_stake acct) (delegated_stake acct);
  if (total_stake =? 0) || (stake =? 0) || (max_credits acct =? 0) then Some (mkPayout 0 0 0)
  else
    x ← mul epoch_issuance stake;
    let gross := x / total_stake in
    y ← mul gross (Z.min (credits acct) (max_credits acct));
    let earned := y / max_credits acct in
    forfeited ← sub gross earned;
    commission_split acct stake earned forfeited.

Definition nominal_yield_bps (annual_issuance_sat total_staked_sat : Z) : option Z :=
  if total_staked_sat =? 0 then Some 0
  else x ← mul annual_issuance_sat BPS; Some (x / total_staked_sat).

(** ** Producer fees (fee_market.rs) *)

Definition distribute_producer_fees (acct : StakeAccount) (producer_fee_sat : Z) : option Payout :=
  stake ← add (self_stake acct) (delegated_stake acct);
  if stake =? 0 then Some (mkPayout producer_fee_sat 0 0)
  else commission_split acct stake producer_fee_sat 0.

(** The loop of [split_delegator_fees]: the shares in order and [paid]. *)
Fixpoint share_loop (stakes : list (Z * Z)) (delegators_sat total paid : Z)
    : option (list (Z * Z) * Z) :=
  match stakes with
  | [] => Some ([], paid)
  | (d, s) :: stakes =>
      x ← mul delegators_sat s;
      let share := x / total in
      paid ← add paid share;
      '(parts, paid) ← share_loop stakes delegators_sat total paid;
      Some ((d, share) :: parts, paid)
  end.

Fixpoint checked_sum (acc : Z) (l : list Z) : option Z :=
  match l with [] => Some acc | x :: l => acc ← add acc x; checked_sum acc l end.

Definition split_delegator_fees (stakes : list (Z * Z)) (delegators_sat : Z)
    : option (list (Z * Z) * Z) :=
  total ← checked_sum 0 (stakes.*2);
  if (total =? 0) || (delegators_sat =? 0) then
    Some ((λ '(d, _), (d, 0)) <$> stakes, delegators_sat)
  else
    '(parts, paid) ← share_loop stakes delegators_sat total 0;
    remainder ← sub delegators_sat paid;
    Some (parts, remainder).

(** ** Conservation *)

Lemma commission_split_ok acct stake amount forfeit :
  0 ≤ amount → amount * BPS ≤ u128_MAX → amount * stake ≤ u128_MAX →
  0 ≤ self_stake acct → 0 ≤ delegated_stake acct → 0 ≤ commission_bps acct →
  stake = self_stake acct + delegated_stake acct → 0 < stake →
  ∃ p, commission_split acct stake amount forfeit = Some p ∧
    0 ≤ operator p ∧ 0 ≤ delegators p ∧ operator p + delegators p = amount ∧ forfeited p = forfeit ∧
    delegators p ≤ amount * delegated_stake acct / stake.
Proof.
  intros Ha Hbps Hmul Hs Hd Hc -> Hpos. unfold commission_split.
  set (st := self_stake acct + delegated_stake acct) in *.
  pose proof (share_bounds amount (delegated_stake acct) st Ha ltac:(lia)) as Hg.
  set (g := amount * delegated_stake acct / st) in *.
  set (c := Z.min (commission_bps acct) MAX_COMMISSION_BPS).
  assert (0 ≤ c ≤ BPS) as Hc' by (unfold c, MAX_COMMISSION_BPS, BPS; lia).
  pose proof (share_bounds g c BPS ltac:(lia) Hc') as Hk.
  rewrite (mul_w_ok u128_MAX amount) by (unfold u128_MAX in *; nia). cbn [mbind option_bind].
  fold g. rewrite (sub_w_ok amount) by lia. cbn [mbind option_bind].
  rewrite (mul_w_ok u128_MAX g) by (unfold BPS, u128_MAX in *; nia). cbn [mbind option_bind].
  set (k := g * c / BPS) in *. unfold BPS, u128_MAX in *.
  rewrite (add_w_ok _ (amount - g)) by lia. cbn [mbind option_bind].
  rewrite (sub_w_ok g) by lia. cbn [mbind option_bind].
  eexists. split; [done|]. simpl. lia.
Qed.

Lemma checked_sum_ok acc l :
  Forall (Z.le 0) l → acc + sumZ l ≤ u128_MAX → checked_sum acc l = Some (acc + sumZ l).
Proof.
  revert acc. induction l as [|x l IH]; intros acc Hl Hs; csimpl; [f_equal; lia|].
  apply Forall_cons in Hl as [Hx Hl]. simpl in Hs. pose proof (sumZ_nonneg l Hl).
  rewrite add_w_ok by lia. cbn [mbind option_bind]. rewrite IH by (done || lia). f_equal. lia.
Qed.

Definition shares (D T : Z) (stakes : list (Z * Z)) : list (Z * Z) :=
  (λ '(d, s), (d, D * s / T)) <$> stakes.

(** Truncated shares of [D] in proportion [s / T] sum to [D] times the stakes over [T],
    less at most one unit per share. *)
Lemma shares_bounds D T stakes :
  0 ≤ D → 0 < T → Forall (Z.le 0) (stakes.*2) →
  0 ≤ sumZ ((shares D T stakes).*2) ∧
  T * sumZ ((shares D T stakes).*2) ≤ D * sumZ (stakes.*2) ∧
  D * sumZ (stakes.*2) ≤ T * sumZ ((shares D T stakes).*2) + (T - 1) * Z.of_nat (length stakes).
Proof.
  intros HD HT. induction stakes as [|[d s] stakes IH]; intros Hs; csimpl; [lia|].
  csimpl in Hs. apply Forall_cons in Hs as [Hs0 Hs]. destruct (IH Hs) as (H1 & H2 & H3).
  pose proof (Z.div_mod (D * s) T ltac:(lia)). pose proof (Z.mod_pos_bound (D * s) T HT).
  assert (0 ≤ D * s / T) by (apply Z.div_pos; nia). unfold shares in *. split_and!; nia.
Qed.

Lemma share_loop_ok stakes D T paid :
  0 ≤ D → 0 < T → Forall (λ s, 0 ≤ s ∧ D * s ≤ u128_MAX) (stakes.*2) → 0 ≤ paid →
  paid + sumZ ((shares D T stakes).*2) ≤ u128_MAX →
  share_loop stakes D T paid = Some (shares D T stakes, paid + sumZ ((shares D T stakes).*2)).
Proof.
  intros HD HT. revert paid. induction stakes as [|[d s] stakes IH]; intros paid Hs Hp Hsum; csimpl.
  { by rewrite Z.add_0_r. }
  csimpl in Hs. apply Forall_cons in Hs as [[Hs0 Hm] Hs]. csimpl in Hsum.
  assert (0 ≤ sumZ ((shares D T stakes).*2)).
  { apply (shares_bounds D T stakes); try done. eapply Forall_impl; [exact Hs|]. by intros ? []. }
  assert (0 ≤ D * s / T) by (apply Z.div_pos; nia). unfold shares in *.
  rewrite mul_w_ok by done. cbn [mbind option_bind]. rewrite add_w_ok by lia. cbn [mbind option_bind].
  rewrite IH by (done || lia). cbn [mbind option_bind]. do 2 f_equal. lia.
Qed.

Lemma split_fees_ok base prio slot :
  0 ≤ base → 0 ≤ prio → (base + prio) * BPS ≤ u128_MAX →
  ∃ sp, split_fees_at base prio slot = Some sp ∧ 0 ≤ to_producer sp ∧ 0 ≤ burned sp ∧
    to_producer sp + burned sp = base + prio ∧
    burned sp = (if EMISSION_SLOTS <=? slot then 0 else base / 2).
Proof.
  intros Hb Hp Hm. unfold split_fees_at. destruct (EMISSION_SLOTS <=? slot).
  - rewrite add_w_ok by (unfold BPS in Hm; lia). cbn [mbind option_bind]. eexists. split; [done|]. simpl. lia.
  - unfold BASE_FEE_BURN_BPS, PRIORITY_FEE_PRODUCER_BPS, BPS in *.
    rewrite (mul_w_ok _ base) by lia. cbn [mbind option_bind].
    rewrite (mul_w_ok _ prio) by lia. cbn [mbind option_bind].
    rewrite Z.div_mul by lia.
    assert (base * 5000 / 10000 = base / 2) as ->
      by (change 10000 with (2 * 5000); by rewrite Z.div_mul_cancel_r by lia).
    assert (0 ≤ base / 2 ≤ base) by (split; [apply Z.div_pos|apply Z.div_le_upper_bound]; lia).
    rewrite (sub_w_ok base) by lia. cbn [mbind option_bind].
    rewrite (add_w_ok _ (base - base / 2)) by lia. cbn [mbind option_bind].
    rewrite (sub_w_ok prio) by lia. cbn [mbind option_bind].
    rewrite (add_w_ok _ (base / 2)) by lia. cbn [mbind option_bind].
    eexists. split; [done|]. simpl. lia.
Qed.

Lemma split_delegator_fees_ok stakes D :
  0 ≤ D ≤ TOTAL_SUPPLY_SAT → Forall (Z.le 0) (stakes.*2) → sumZ (stakes.*2) ≤ TOTAL_SUPPLY_SAT →
  ∃ parts rem, split_delegator_fees stakes D = Some (parts, rem) ∧
    parts.*1 = stakes.*1 ∧ sumZ (parts.*2) + rem = D ∧ 0 ≤ rem ∧
    (0 < sumZ (stakes.*2) → rem ≤ Z.of_nat (length stakes)).
Proof.
  intros HD Hs Hsum. unfold split_delegator_fees, TOTAL_SUPPLY_SAT, TOTAL_SUPPLY_BLOCH, SAT_PER_BLOCH in *.
  rewrite checked_sum_ok by (done || (unfold u128_MAX; lia)). rewrite Z.add_0_l. cbn [mbind option_bind].
  set (T := sumZ (stakes.*2)) in *. assert (0 ≤ T) by (by apply sumZ_nonneg).
  destruct ((T =? 0) || (D =? 0)) eqn:E.
  - eexists _, D. split; [done|]. split_and!; [|clear|lia|lia].
    + rewrite <-list_fmap_compose. apply list_fmap_ext. by intros ? [].
    + induction stakes as [|[d x] stakes IH]; csimpl; lia.
  - destruct (shares_bounds D T stakes) as (H1 & H2 & H3); [lia|lia|done|]. fold T in H2, H3.
    assert (sumZ ((shares D T stakes).*2) ≤ D) by nia.
    rewrite (share_loop_ok stakes D T 0); [|lia|lia| |lia|unfold u128_MAX; lia].
    + cbn [mbind option_bind]. rewrite sub_w_ok by lia. cbn [mbind option_bind].
      eexists _, _. split; [done|]. split_and!; [|lia|lia|].
      * unfold shares. rewrite <-list_fmap_compose. apply list_fmap_ext. by intros ? [].
      * intros _. nia.
    + apply Forall_forall. intros x Hx. rewrite Forall_forall in Hs. pose proof (Hs x Hx).
      pose proof (sumZ_fmap_elem id (stakes.*2) x Hs Hx) as Hle. rewrite list_fmap_id in Hle.
      unfold id in Hle. fold T in Hle. split; [done|]. unfold u128_MAX. nia.
Qed.

(** ** What a successful split adds up to

    Without any bound on the amounts: whenever the arithmetic does not overflow. *)

Lemma commission_split_Some acct stake amount forfeit p :
  commission_split acct stake amount forfeit = Some p →
  operator p + delegators p = amount ∧ forfeited p = forfeit ∧
  (0 ≤ amount → 0 ≤ delegated_stake acct → 0 ≤ stake → 0 ≤ commission_bps acct → 0 ≤ operator p ∧ 0 ≤ delegators p).
Proof.
  unfold commission_split. intros E. repeat (apply bind_Some in E as (? & ? & E)). injection E as <-. checked_inv. cbn.
  split; [lia|]. split; [done|]. intros Ha Hd Hs Hc.
  assert (0 ≤ amount * delegated_stake acct / stake).
  { destruct (decide (stake = 0)) as [->|]; [by rewrite Z.div_0_r|]. apply Z.div_pos; nia. }
  assert (0 ≤ amount * delegated_stake acct / stake * Z.min (commission_bps acct) MAX_COMMISSION_BPS / BPS).
  { apply Z.div_pos; [unfold MAX_COMMISSION_BPS; nia|done]. }
  lia.
Qed.

Lemma distribute_producer_fees_Some acct amount p :
  distribute_producer_fees acct amount = Some p →
  operator p + delegators p = amount ∧
  (0 ≤ amount → 0 ≤ self_stake acct → 0 ≤ delegated_stake acct → 0 ≤ commission_bps acct →
   0 ≤ operator p ∧ 0 ≤ delegators p).
Proof.
  unfold distribute_producer_fees. intros (stake & Hs & E)%bind_Some. checked_inv. case_match.
  - injection E as <-. cbn. lia.
  - apply commission_split_Some in E as (? & _ & Hn). split; [done|]. intros. apply Hn; lia.
Qed.

(** An account whose entries are not negative. *)
Record account_wf (a : StakeAccount) : Prop := {
  ac_self : 0 ≤ self_stake a; ac_delegated : 0 ≤ delegated_stake a; ac_commission : 0 ≤ commission_bps a;
  ac_credits : 0 ≤ credits a; ac_max : 0 ≤ max_credits a;
}.

Lemma distribute_Some acct issuance total p :
  distribute acct issuance total = Some p → account_wf acct → 0 ≤ issuance → 0 < total →
  0 ≤ operator p ∧ 0 ≤ delegators p ∧
  operator p + delegators p ≤ issuance * (self_stake acct + delegated_stake acct) / total.
Proof.
  unfold distribute. intros (stake & Hs & E)%bind_Some [] Hi Ht. checked_inv.
  assert (0 ≤ issuance * (self_stake acct + delegated_stake acct) / total) by (apply Z.div_pos; nia).
  destruct (_ || _) eqn:E0; [injection E as <-; cbn; lia|]. boolp.
  do 3 (apply bind_Some in E as (? & ? & E)). apply commission_split_Some in E as (Hsum & _ & Hn). checked_inv.
  destruct Hn; [apply Z.div_pos; nia|lia..].
Qed.

Lemma share_loop_Some stakes D T paid parts paid' :
  share_loop stakes D T paid = Some (parts, paid') →
  paid' = paid + sumZ (parts.*2) ∧
  (0 ≤ D → 0 ≤ T → Forall (Z.le 0) (stakes.*2) → Forall (Z.le 0) (parts.*2)).
Proof.
  revert paid parts. induction stakes as [|[d s] stakes IH]; intros paid parts E; cbn in E.
  { injection E as <- <-. cbn. split; [lia|]. constructor. }
  apply bind_Some in E as (x & Hx & E). apply bind_Some in E as (y & Hy & E).
  apply bind_Some in E as ([ps pd] & Hl & [= <- <-]). apply IH in Hl as [-> Hn]. checked_inv. csimpl. split; [lia|].
  intros HD HT [Hs Hss]%Forall_cons. constructor; [|auto].
  destruct (decide (T = 0)) as [->|]; [by rewrite Z.div_0_r|]. apply Z.div_pos; nia.
Qed.

Lemma checked_sum_nonneg acc l t : checked_sum acc l = Some t → 0 ≤ acc → Forall (Z.le 0) l → 0 ≤ t.
Proof.
  intros E Ha Hl. revert acc E Ha. induction Hl as [|x l Hx _ IH]; cbn; intros acc E Ha; [congruence|].
  apply bind_Some in E as (y & Hy & E). checked_inv. apply (IH _ E). lia.
Qed.

Lemma split_delegator_fees_Some stakes D parts rem :
  split_delegator_fees stakes D = Some (parts, rem) →
  sumZ (parts.*2) + rem = D ∧
  (0 ≤ D → Forall (Z.le 0) (stakes.*2) → Forall (Z.le 0) (parts.*2) ∧ 0 ≤ rem).
Proof.
  unfold split_delegator_fees. intros (T & HT & E)%bind_Some. case_match.
  - injection E as <- <-. assert ((λ '(d, _), (d, 0)) <$> stakes = (λ ds : Z * Z, (ds.1, 0)) <$> stakes) as ->.
    { apply list_fmap_ext. by intros ? [? ?]. }
    rewrite <- list_fmap_compose. rewrite sumZ_fmap_const0 by done. split; [lia|]. intros HD _. split; [|done].
    apply Forall_fmap, Forall_true. done.
  - apply bind_Some in E as ([ps pd] & Hl & E). apply bind_Some in E as (y & Hy & [= <- <-]).
    apply share_loop_Some in Hl as [-> Hn]. checked_inv. split; [lia|]. intros HD Hs.
    split; [apply Hn; [done| |done]|lia]. by eapply checked_sum_nonneg.
Qed.

Lemma split_fees_at_Some base prio slot sp :
  split_fees_at base prio slot = Some sp → 0 ≤ base → to_producer sp ≤ base + prio.
Proof.
  unfold split_fees_at. case_goal; intros E Hb; repeat (apply bind_Some in E as (? & ? & E)); injection E as <-;
    checked_inv; cbn; [lia|].
  assert (0 ≤ base * BASE_FEE_BURN_BPS / BPS) by (apply Z.div_pos; [unfold BASE_FEE_BURN_BPS; lia|done]).
  assert (prio * PRIORITY_FEE_PRODUCER_BPS / BPS = prio) as ->; [|lia].
  unfold PRIORITY_FEE_PRODUCER_BPS, BPS. by rewrite Z.div_mul.
Qed.

(** C26: No satoshi of a block's fees is lost or made: what the transactions pay (base
    and priority) is exactly what is burned, plus what the operator keeps, plus what
    each delegator gets, plus a remainder, which is at most one satoshi per delegator when
    their stakes are not all zero.  No
    step overflows for amounts within the supply, half of the base fee is burned during
    emission and nothing after it. *)
Theorem fees_conserved base prio slot acct stakes :
  0 ≤ base → 0 ≤ prio → base + prio ≤ TOTAL_SUPPLY_SAT →
  0 ≤ self_stake acct → 0 ≤ delegated_stake acct → 0 ≤ commission_bps acct →
  self_stake acct + delegated_stake acct ≤ TOTAL_SUPPLY_SAT →
  Forall (Z.le 0) (stakes.*2) → sumZ (stakes.*2) ≤ TOTAL_SUPPLY_SAT →
  ∃ sp p parts rem,
    split_fees_at base prio slot = Some sp ∧
    distribute_producer_fees acct (to_producer sp) = Some p ∧
    split_delegator_fees stakes (delegators p) = Some (parts, rem) ∧
    base + prio = burned sp + operator p + sumZ (parts.*2) + rem ∧
    burned sp = (if EMISSION_SLOTS <=? slot then 0 else base / 2) ∧
    0 ≤ operator p ∧ 0 ≤ delegators p ∧ parts.*1 = stakes.*1 ∧ 0 ≤ rem ∧
    (0 < sumZ (stakes.*2) → rem ≤ Z.of_nat (length stakes)).
Proof.
  intros Hb Hp Hbp Hs Hd Hc Hsd Hst Hsum.
  pose proof Hbp as Hbp'. pose proof Hsd as Hsd'.
  unfold TOTAL_SUPPLY_SAT, TOTAL_SUPPLY_BLOCH, SAT_PER_BLOCH in Hbp', Hsd'.
  destruct (split_fees_ok base prio slot) as (sp & E1 & Ht & Hbu & Hsp & Hbe);
    [done|done|unfold BPS, u128_MAX; lia|].
  assert (∃ p, distribute_producer_fees acct (to_producer sp) = Some p ∧
    0 ≤ operator p ∧ 0 ≤ delegators p ∧ operator p + delegators p = to_producer sp)
    as (p & E2 & Ho & Hdp & Hod).
  { unfold distribute_producer_fees. rewrite add_w_ok by (unfold u128_MAX; lia). cbn [mbind option_bind].
    case_goal as E; [eexists; split; [done|]; simpl; lia|].
    destruct (commission_split_ok acct (self_stake acct + delegated_stake acct) (to_producer sp) 0)
      as (p & Hp' & ? & ? & ? & _); [..|eauto 10]; try done; unfold BPS, u128_MAX; nia. }
  destruct (split_delegator_fees_ok stakes (delegators p)) as (parts & rem & E3 & ? & ? & ? & ?);
    [lia|done|done|].
  exists sp, p, parts, rem. split_and!; try done. lia.
Qed.

Definition stake_of (a : StakeAccount) : Z := self_stake a + delegated_stake a.

Definition account_ok (a : StakeAccount) : Prop :=
  0 ≤ self_stake a ∧ 0 ≤ delegated_stake a ∧ 0 ≤ commission_bps a ∧
  0 ≤ credits a ≤ u64_MAX ∧ 0 ≤ max_credits a ≤ u64_MAX.

Definition paid_out (p : Payout) : Z := operator p + delegators p + forfeited p.

Lemma distribute_ok a issuance total :
  account_ok a → 0 ≤ issuance ≤ TOTAL_SUPPLY_SAT → stake_of a ≤ total ≤ TOTAL_SUPPLY_SAT →
  ∃ p, distribute a issuance total = Some p ∧
    0 ≤ operator p ∧ 0 ≤ delegators p ∧ 0 ≤ forfeited p ∧
    paid_out p ≤ issuance * stake_of a / total ∧
    (credits a = 0 → operator p = 0 ∧ delegators p = 0) ∧
    (max_credits a ≤ credits a → forfeited p = 0) ∧
    (0 < stake_of a → 0 < max_credits a → paid_out p = issuance * stake_of a / total).
Proof.
  intros (Hs & Hd & Hc & Hcr & Hmc) Hi Ht. unfold stake_of, paid_out in *.
  set (st := self_stake a + delegated_stake a) in *.
  pose proof Hi as Hi'. pose proof Ht as Ht'.
  unfold TOTAL_SUPPLY_SAT, TOTAL_SUPPLY_BLOCH, SAT_PER_BLOCH in Hi', Ht'.
  pose proof (share_bounds issuance st total ltac:(lia) ltac:(lia)) as Hg.
  unfold distribute. rewrite add_w_ok by (unfold u128_MAX; lia). cbn [mbind option_bind]. fold st.
  destruct ((total =? 0) || (st =? 0) || (max_credits a =? 0)) eqn:E.
  { eexists. split; [done|]. simpl. split_and!; try lia. }
  rewrite mul_w_ok by (unfold u128_MAX; nia). cbn [mbind option_bind].
  set (g := issuance * st / total) in *. set (c := Z.min (credits a) (max_credits a)).
  pose proof (share_bounds g c (max_credits a) ltac:(lia) ltac:(lia)) as He.
  rewrite mul_w_ok by (unfold u64_MAX, u128_MAX in *; nia). cbn [mbind option_bind].
  set (e := g * c / max_credits a) in *.
  assert (credits a = 0 → e = 0) by (intros E0; unfold e; replace c with 0 by lia; by rewrite Z.mul_0_r).
  assert (max_credits a ≤ credits a → e = g)
    by (intros; unfold e; replace c with (max_credits a) by lia; apply Z.div_mul; lia).
  rewrite sub_w_ok by lia. cbn [mbind option_bind].
  destruct (commission_split_ok a st e (g - e)) as (p & Hp & ? & ? & ? & ? & ?);
    [lia|unfold BPS, u128_MAX; lia|unfold u128_MAX; nia|done|done|done|done|lia|].
  exists p. split; [done|]. split_and!; lia.
Qed.

(** Paying every validator its slice of an epoch's issuance never pays more than the
    issuance, whatever credits were earned: operators, delegators and the forfeited
    parts together are within it, every call returns, a validator with no credits
    and its delegators get nothing, and one with all its credits forfeits nothing. *)
Theorem issuance_conserved accts issuance :
  Forall account_ok accts → 0 ≤ issuance ≤ TOTAL_SUPPLY_SAT →
  sumZ (stake_of <$> accts) ≤ TOTAL_SUPPLY_SAT →
  ∃ ps, mapM (λ a, distribute a issuance (sumZ (stake_of <$> accts))) accts = Some ps ∧
    sumZ (paid_out <$> ps) ≤ issuance ∧
    Forall2 (λ a p, 0 ≤ operator p ∧ 0 ≤ delegators p ∧ 0 ≤ forfeited p ∧
               (credits a = 0 → operator p = 0 ∧ delegators p = 0) ∧
               (max_credits a ≤ credits a → forfeited p = 0)) accts ps.
Proof.
  intros Hok Hi Hsum. set (total := sumZ (stake_of <$> accts)) in *.
  assert (∀ l, Forall (λ a, account_ok a ∧ stake_of a ≤ total) l →
    ∃ ps, mapM (λ a, distribute a issuance total) l = Some ps ∧
      sumZ (paid_out <$> ps) ≤ sumZ ((λ a, issuance * stake_of a / total) <$> l) ∧
      Forall2 (λ a p, 0 ≤ operator p ∧ 0 ≤ delegators p ∧ 0 ≤ forfeited p ∧
                 (credits a = 0 → operator p = 0 ∧ delegators p = 0) ∧
                 (max_credits a ≤ credits a → forfeited p = 0)) l ps) as Hall.
  { induction l as [|a l IH]; intros Hl; [exists []; split_and!; done || constructor|].
    apply Forall_cons in Hl as [[Ha Hs] Hl]. destruct (IH Hl) as (ps & E & ? & ?).
    destruct (distribute_ok a issuance total) as (p & Ep & ? & ? & ? & ? & ? & ? & _); [done|lia|lia|].
    exists (p :: ps). split_and!; [|csimpl; lia|by constructor].
    apply mapM_Some. constructor; [done|by apply mapM_Some]. }
  destruct (Hall accts) as (ps & E & Hps & Hf).
  { rewrite Forall_forall in *. intros a Ha. split; [auto|].
    apply (sumZ_fmap_elem stake_of accts); [|done]. intros b Hb. destruct (Hok b Hb) as (?&?&_).
    unfold stake_of. lia. }
  exists ps. split; [done|]. split; [|done]. etransitivity; [exact Hps|].
  destruct (decide (0 < total)) as [Ht|Ht].
  - pose proof (shares_bounds issuance total ((λ a, (0, stake_of a)) <$> accts) ltac:(lia) Ht) as Hb.
    unfold shares in Hb. rewrite <-!list_fmap_compose in Hb.
    change (snd ∘ λ a, (0, stake_of a)) with stake_of in Hb. fold total in Hb.
    destruct Hb as (_ & Hb & _).
    { rewrite Forall_fmap. apply (Forall_impl _ _ _ Hok). intros b (?&?&_). simpl. unfold stake_of. lia. }
    match type of Hb with total * ?s ≤ _ => assert (s ≤ issuance) as Hle by nia end. exact Hle.
  - rewrite sumZ_fmap_const0; [lia|]. intros a Ha.
    assert (total = 0) as ->; [|by rewrite Z.div_0_r].
    assert (0 ≤ total); [|lia]. apply sumZ_fmap_nonneg. rewrite Forall_forall in Hok.
    intros b Hb. destruct (Hok b Hb) as (?&?&_). unfold stake_of. lia.
Qed.

(** ** Witnesses *)

Definition ex_account : StakeAccount := mkAccount 600 400 1000 31 32.

(** 1078 satoshis: 500 burned, 371 to the operator, 155 and 51 to the delegators, 1 left. *)
Lemma fees_conserved_witness :
  split_fees_at 1001 77 5 = Some (mkSplit 578 500) ∧
  ∃ p parts rem, split_delegator_fees [(1, 300); (2, 100)] (delegators p) = Some (parts, rem) ∧
    1001 + 77 = 500 + operator p + sumZ (parts.*2) + rem.
Proof.
  split; [reflexivity|].
  destruct (fees_conserved 1001 77 5 ex_account [(1, 300); (2, 100)])
    as (sp & p & parts & rem & E1 & E2 & E3 & Hsum & Hb & _);
    [vm_compute; discriminate.. |repeat constructor; discriminate|vm_compute; discriminate|].
  exists p, parts, rem. split; [exact E3|]. change (burned sp = 500) in Hb. lia.
Defined.

Lemma issuance_conserved_witness :
  ∃ ps, mapM (λ a, distribute a 5000 2000) [ex_account; mkAccount 1000 0 0 0 32] = Some ps ∧
        sumZ (paid_out <$> ps) ≤ 5000.
Proof.
  destruct (issuance_conserved [ex_account; mkAccount 1000 0 0 0 32] 5000) as (ps & E & Hs & _).
  - repeat constructor; vm_compute; discriminate.
  - split; vm_compute; discriminate.
  - vm_compute; discriminate.
  - exists ps. split; [exact E|exact Hs].
Defined.

End Rewards.
