(* ===== verification/FeeMarket.v ===== *)
(** * The fee market

    Models [crates/bloch-pos-committee/src/fee_market.rs] up to the settlement of
    producer fees, which is in [Rewards]: the per-suite verification cost, the
    intrinsic gas of a transaction, the base-fee controller and the charge of a
    transaction.  A public key is its list of bytes. *)

From S2P Require Import Prelude Bytes Params Delegation Tokenomics.
Local Open Scope Z_scope.

Module FeeMarket.
Import Bytes Params Delegation Tokenomics.

(** ** Block limits *)

Definition MAX_BLOCK_TX_BYTES : Z := 262144.
Definition BLOCK_GAS_LIMIT : Z := 60000000.
Definition BLOCK_GAS_TARGET : Z := BLOCK_GAS_LIMIT / 2.
Definition BLOCK_TX_BYTES_TARGET : Z := MAX_BLOCK_TX_BYTES / 2.
Definition MAX_BLOCK_TX_BYTES_V2 : Z := 524288.
Definition BLOCK_TX_BYTES_TARGET_V2 : Z := MAX_BLOCK_TX_BYTES_V2 / 2.

Definition max_block_tx_bytes {G : Gates} (epoch : Z) : Z :=
  if epoch <? BLOCK_BYTES_V2_ACTIVATION_EPOCH G then MAX_BLOCK_TX_BYTES else MAX_BLOCK_TX_BYTES_V2.

Definition block_tx_bytes_target {G : Gates} (epoch : Z) : Z :=
  if epoch <? BLOCK_BYTES_V2_ACTIVATION_EPOCH G then BLOCK_TX_BYTES_TARGET
  else BLOCK_TX_BYTES_TARGET_V2.

(** ** Verification cost *)

Definition GAS_PER_BYTE : Z := 16.
Definition TX_FLAT_GAS : Z := 5000.
Definition HYBRID_SIG_BYTES : Z := 4589.
Definition TX_BYTES_DECLARE_SLACK : Z := HYBRID_SIG_BYTES.
Definition HYBRID_VERIFY_INSTRUCTIONS : Z := 7274849.
Definition INSTRUCTIONS_PER_GAS : Z := 100.
Definition HYBRID_VERIFY_GAS : Z := HYBRID_VERIFY_INSTRUCTIONS / INSTRUCTIONS_PER_GAS.
Definition SECP256K1_VERIFY_GAS : Z := 3000.
Definition SHIELDED_VERIFY_GAS_PROVISIONAL : Z := 25 * HYBRID_VERIFY_GAS.
Definition SUITE_ENVELOPE_MAGIC : list Z := [0xB1; 0x0C].
Definition SUITE_SLHDSA128S_FALCON1024 : Z := 3.
Definition SLHDSA_FALCON_ENVELOPED_PUBKEY_LEN : Z := 4 + 32 + 1793.
Definition FALCON1024_VERIFY_INSTRUCTIONS : Z := 1312901.
Definition SLHDSA128S_VERIFY_INSTRUCTIONS : Z := 76056212.
Definition MLDSA65_VERIFY_NATIVE_NS : Z := 53600.
Definition FALCON1024_VERIFY_NATIVE_NS : Z := 102000.
Definition SLHDSA128S_VERIFY_NATIVE_NS : Z := 2181500.
Definition HYBRID_VERIFY_NATIVE_NS : Z := MLDSA65_VERIFY_NATIVE_NS + FALCON1024_VERIFY_NATIVE_NS.

Definition div_ceil (n d : Z) : Z := n / d + if n `mod` d =? 0 then 0 else 1.

(** The cast of the quotient to [u64] wraps. *)
Definition pair_verify_gas (instructions native_ns : Z) : Z :=
  let by_instructions := instructions / INSTRUCTIONS_PER_GAS in
  let by_time := div_ceil (HYBRID_VERIFY_GAS * native_ns) HYBRID_VERIFY_NATIVE_NS `mod` 2 ^ 64 in
  if by_time <? by_instructions then by_instructions else by_time.

Definition SLHDSA_FALCON_VERIFY_GAS : Z :=
  pair_verify_gas (SLHDSA128S_VERIFY_INSTRUCTIONS + FALCON1024_VERIFY_INSTRUCTIONS)
    (SLHDSA128S_VERIFY_NATIVE_NS + FALCON1024_VERIFY_NATIVE_NS).

Definition per_suite_verify_gas_active {G : Gates} (epoch : Z) : bool := hf3_slh_suite_active epoch.

Inductive VerifySuite := Hybrid | SlhDsaFalcon.

Definition byte_at (l : list Z) (i : nat) : Z := default 0 (l !! i).

Definition verify_suite_of (pubkey : list Z) : VerifySuite :=
  if negb (Z.of_nat (length pubkey) =? SLHDSA_FALCON_ENVELOPED_PUBKEY_LEN)
     || negb (byte_at pubkey 0 =? byte_at SUITE_ENVELOPE_MAGIC 0)
     || negb (byte_at pubkey 1 =? byte_at SUITE_ENVELOPE_MAGIC 1) then Hybrid
  else if from_le_bytes [byte_at pubkey 2; byte_at pubkey 3] =? SUITE_SLHDSA128S_FALCON1024
  then SlhDsaFalcon else Hybrid.

Definition suite_verify_gas (s : VerifySuite) : Z :=
  match s with Hybrid => HYBRID_VERIFY_GAS | SlhDsaFalcon => SLHDSA_FALCON_VERIFY_GAS end.

Definition verify_cost_units (pubkey : list Z) : Z :=
  div_ceil (suite_verify_gas (verify_suite_of pubkey)) HYBRID_VERIFY_GAS.

Definition verify_cost_units_at {G : Gates} (pubkey : list Z) (epoch : Z) : Z :=
  if per_suite_verify_gas_active epoch then verify_cost_units pubkey else 1.

(** ** Gas of a transaction *)

Inductive TxClass :=
| Eutxo (inputs : Z)
| EutxoSuites (hybrid slh_falcon : Z)
| EvmPq
| EvmSecp256k1
| Shielded.

Fixpoint count_suites (keys : list (list Z)) (hybrid slh_falcon : Z) : Z * Z :=
  match keys with
  | [] => (hybrid, slh_falcon)
  | key :: keys =>
      match verify_suite_of key with
      | Hybrid => count_suites keys (saturating_add u32_MAX hybrid 1) slh_falcon
      | SlhDsaFalcon => count_suites keys hybrid (saturating_add u32_MAX slh_falcon 1)
      end
  end.

Definition eutxo_class_for_keys_with (armed : bool) (keys : list (list Z)) : TxClass :=
  let '(hybrid, slh_falcon) := count_suites keys 0 0 in
  if negb armed || (slh_falcon =? 0) then Eutxo (saturating_add u32_MAX hybrid slh_falcon)
  else EutxoSuites hybrid slh_falcon.

Definition eutxo_class_for_keys {G : Gates} (epoch : Z) (keys : list (list Z)) : TxClass :=
  eutxo_class_for_keys_with (per_suite_verify_gas_active epoch) keys.

Definition verify_gas (class : TxClass) : Z :=
  match class with
  | Eutxo inputs => saturating_mul u64_MAX HYBRID_VERIFY_GAS inputs
  | EutxoSuites hybrid slh_falcon =>
      saturating_add u64_MAX (saturating_mul u64_MAX HYBRID_VERIFY_GAS hybrid)
        (saturating_mul u64_MAX SLHDSA_FALCON_VERIFY_GAS slh_falcon)
  | EvmPq => HYBRID_VERIFY_GAS
  | EvmSecp256k1 => SECP256K1_VERIFY_GAS
  | Shielded => SHIELDED_VERIFY_GAS_PROVISIONAL
  end.

Definition intrinsic_gas (class : TxClass) (tx_bytes : Z) : Z :=
  saturating_add u64_MAX
    (saturating_add u64_MAX TX_FLAT_GAS (saturating_mul u64_MAX tx_bytes GAS_PER_BYTE))
    (verify_gas class).

(** ** The base-fee controller *)

Definition MILLISAT_PER_SAT : Z := 1000.
Definition MIN_BASE_FEE_MILLISAT_PER_GAS : Z := 10.
Definition MAX_BASE_FEE_MILLISAT_PER_GAS : Z := TOTAL_SUPPLY_SAT * MILLISAT_PER_SAT.
Definition BASE_FEE_CHANGE_DENOMINATOR : Z := 8.
Definition MAX_TIP_MILLISAT_PER_GAS : Z := MAX_BASE_FEE_MILLISAT_PER_GAS.
Definition MAX_TX_GAS : Z := BLOCK_GAS_LIMIT.

Record BlockUsage := mkUsage { gas_used : Z; tx_bytes : Z }.

Definition clamp_base_fee (v : Z) : Z :=
  if v <? MIN_BASE_FEE_MILLISAT_PER_GAS then MIN_BASE_FEE_MILLISAT_PER_GAS
  else if MAX_BASE_FEE_MILLISAT_PER_GAS <? v then MAX_BASE_FEE_MILLISAT_PER_GAS
  else v.

(** The scarcer axis: its use and its target. *)
Definition binding_axis {G : Gates} (parent : BlockUsage) (epoch : Z) : option (Z * Z) :=
  let byte_target := block_tx_bytes_target epoch in
  gas_cross ← mul_w u128_MAX (gas_used parent) byte_target;
  bytes_cross ← mul_w u128_MAX (tx_bytes parent) BLOCK_GAS_TARGET;
  Some (if bytes_cross <=? gas_cross then (gas_used parent, BLOCK_GAS_TARGET)
        else (tx_bytes parent, byte_target)).

Definition next_base_fee {G : Gates} (parent_base_fee : Z) (parent : BlockUsage) (epoch : Z)
    : option Z :=
  '(used, target) ← binding_axis parent epoch;
  let base := clamp_base_fee parent_base_fee in
  if used =? target then Some base
  else if target <? used then
    x ← mul_w u128_MAX base (used - target);
    let delta := x / target / BASE_FEE_CHANGE_DENOMINATOR in
    let delta := if delta =? 0 then 1 else delta in
    y ← add_w u128_MAX base delta;
    Some (clamp_base_fee y)
  else
    x ← mul_w u128_MAX base (target - used);
    let delta := x / target / BASE_FEE_CHANGE_DENOMINATOR in
    y ← sub_w base delta;
    Some (clamp_base_fee y).

(** ** The charge *)

Definition ceil_div (n d : Z) : Z := n / d + if negb (n `mod` d =? 0) then 1 else 0.

Definition part_sat (gas price : Z) : Z :=
  ceil_div (saturating_mul u128_MAX gas price) MILLISAT_PER_SAT.

Definition fee_parts_sat (gas base_fee tip : Z) : Z * Z := (part_sat gas base_fee, part_sat gas tip).

Record TxCharge := mkCharge {
  charge_gas : Z; charge_tx_bytes : Z; base_fee_sat : Z; priority_fee_sat : Z;
}.

Definition charge (class : TxClass) (bytes base_fee tip : Z) : TxCharge :=
  let gas := intrinsic_gas class bytes in
  let '(b, p) := fee_parts_sat gas base_fee tip in
  mkCharge gas bytes b p.

(** ** The controller is bounded and tracks the scarcer resource *)

Lemma clamp_bounds v :
  MIN_BASE_FEE_MILLISAT_PER_GAS ≤ clamp_base_fee v ≤ MAX_BASE_FEE_MILLISAT_PER_GAS.
Proof.
  assert (MIN_BASE_FEE_MILLISAT_PER_GAS ≤ MAX_BASE_FEE_MILLISAT_PER_GAS) by done.
  unfold clamp_base_fee. destruct (Z.ltb_spec v MIN_BASE_FEE_MILLISAT_PER_GAS); [lia|].
  destruct (Z.ltb_spec MAX_BASE_FEE_MILLISAT_PER_GAS v); lia.
Qed.

Lemma clamp_up base d :
  MIN_BASE_FEE_MILLISAT_PER_GAS ≤ base ≤ MAX_BASE_FEE_MILLISAT_PER_GAS → 0 < d →
  clamp_base_fee (base + d) = Z.min (base + d) MAX_BASE_FEE_MILLISAT_PER_GAS.
Proof. intros Hb Hd. unfold clamp_base_fee. destruct (Z.ltb_spec (base + d) MIN_BASE_FEE_MILLISAT_PER_GAS); [lia|].
  destruct (Z.ltb_spec MAX_BASE_FEE_MILLISAT_PER_GAS (base + d)); lia. Qed.

Lemma clamp_down base d :
  MIN_BASE_FEE_MILLISAT_PER_GAS ≤ base ≤ MAX_BASE_FEE_MILLISAT_PER_GAS → 0 ≤ d →
  clamp_base_fee (base - d) = Z.max (base - d) MIN_BASE_FEE_MILLISAT_PER_GAS.
Proof. intros Hb Hd. unfold clamp_base_fee. destruct (Z.ltb_spec (base - d) MIN_BASE_FEE_MILLISAT_PER_GAS); [lia|].
  destruct (Z.ltb_spec MAX_BASE_FEE_MILLISAT_PER_GAS (base - d)); lia. Qed.

Lemma byte_target_cases {G : Gates} epoch :
  block_tx_bytes_target epoch = 131072 ∨ block_tx_bytes_target epoch = 262144.
Proof. unfold block_tx_bytes_target. case_goal as E; auto. Qed.

(** The chosen axis is at least as utilised as each of the two. *)
Lemma binding_axis_spec {G : Gates} parent epoch :
  0 ≤ gas_used parent ≤ BLOCK_GAS_LIMIT → 0 ≤ tx_bytes parent ≤ MAX_BLOCK_TX_BYTES_V2 →
  ∃ used target, binding_axis parent epoch = Some (used, target) ∧
    0 ≤ used ≤ BLOCK_GAS_LIMIT ∧ 131072 ≤ target ≤ BLOCK_GAS_TARGET ∧
    (target < used ↔ BLOCK_GAS_TARGET < gas_used parent ∨ block_tx_bytes_target epoch < tx_bytes parent) ∧
    (used < target ↔ gas_used parent < BLOCK_GAS_TARGET ∧ tx_bytes parent < block_tx_bytes_target epoch) ∧
    (tx_bytes parent ≤ 2 * block_tx_bytes_target epoch → used ≤ 2 * target).
Proof.
  unfold BLOCK_GAS_LIMIT, MAX_BLOCK_TX_BYTES_V2. intros Hg Hb.
  assert (BLOCK_GAS_TARGET = 30000000) as Ht by done. unfold binding_axis. rewrite Ht.
  destruct (byte_target_cases epoch) as [-> | ->];
    rewrite (mul_w_ok _ (gas_used parent)) by (unfold u128_MAX; lia); cbn [mbind option_bind];
    rewrite (mul_w_ok _ (tx_bytes parent)) by (unfold u128_MAX; lia); cbn [mbind option_bind];
    case_goal as E; eexists _, _; (split; [done|]); split_and!; lia.
Qed.

(** C27: The base-fee controller never panics on usage within the block limits, stays
    between its floor and its ceiling, and is driven by the scarcer of gas and bytes:
    a parent above either target raises the price (up to the ceiling), one below both
    lowers it or leaves it, by at most an eighth; at most an eighth up too (or one
    unit) when the parent was within twice the byte target it is measured against. *)
Theorem base_fee_controller {G : Gates} base0 parent epoch :
  0 ≤ gas_used parent ≤ BLOCK_GAS_LIMIT → 0 ≤ tx_bytes parent ≤ MAX_BLOCK_TX_BYTES_V2 →
  let base := clamp_base_fee base0 in
  let bytes_target := block_tx_bytes_target epoch in
  ∃ next, next_base_fee base0 parent epoch = Some next ∧
    MIN_BASE_FEE_MILLISAT_PER_GAS ≤ next ≤ MAX_BASE_FEE_MILLISAT_PER_GAS ∧
    (BLOCK_GAS_TARGET < gas_used parent ∨ bytes_target < tx_bytes parent →
       base < next ∨ next = MAX_BASE_FEE_MILLISAT_PER_GAS) ∧
    (tx_bytes parent ≤ 2 * bytes_target → next ≤ base + Z.max 1 (base / 8)) ∧
    (gas_used parent < BLOCK_GAS_TARGET ∧ tx_bytes parent < bytes_target → next ≤ base) ∧
    base - base / 8 ≤ next.
Proof.
  intros Hg Hb base bt. pose proof (clamp_bounds base0) as Hbase. fold base in Hbase.
  destruct (binding_axis_spec parent epoch Hg Hb) as (used & target & E & Hu & Ht & Hup & Hdn & H2).
  fold bt in Hup, Hdn, H2. change BLOCK_GAS_TARGET with 30000000 in *.
  unfold BLOCK_GAS_LIMIT in Hu. unfold next_base_fee. rewrite E. cbn [mbind option_bind]. fold base.
  change MAX_BASE_FEE_MILLISAT_PER_GAS with 10000000000000000000000 in *.
  unfold MIN_BASE_FEE_MILLISAT_PER_GAS in *.
  assert (0 ≤ base / 8 ≤ base) by (split; [apply Z.div_pos|apply Z.div_le_upper_bound]; lia).
  destruct (Z.eqb_spec used target) as [Eq|Neq].
  { exists base. split; [done|]. split_and!; lia. }
  destruct (Z.ltb_spec target used) as [Hlt|Hge].
  - rewrite (mul_w_ok _ base) by (unfold u128_MAX; nia). cbn [mbind option_bind].
    set (delta := base * (used - target) / target / BASE_FEE_CHANGE_DENOMINATOR).
    assert (0 ≤ delta ≤ base * used) as Hd.
    { unfold delta, BASE_FEE_CHANGE_DENOMINATOR. split; [repeat apply Z.div_pos; nia|].
      apply Z.div_le_upper_bound; [lia|]. apply Z.div_le_upper_bound; nia. }
    assert (used ≤ 2 * target → delta ≤ base / 8).
    { intros Hle. unfold delta, BASE_FEE_CHANGE_DENOMINATOR. apply Z.div_le_mono; [lia|].
      apply Z.div_le_upper_bound; nia. }
    set (delta' := if delta =? 0 then 1 else delta).
    assert (delta' = Z.max 1 delta) as Hd' by (unfold delta'; case_goal as E'; lia).
    rewrite add_w_ok by (unfold u128_MAX; nia). cbn [mbind option_bind].
    rewrite clamp_up; [|done|lia]. change MAX_BASE_FEE_MILLISAT_PER_GAS with 10000000000000000000000.
    eexists. split; [done|]. split_and!; lia.
  - rewrite (mul_w_ok _ base) by (unfold u128_MAX; nia). cbn [mbind option_bind].
    set (delta := base * (target - used) / target / BASE_FEE_CHANGE_DENOMINATOR).
    assert (0 ≤ delta ≤ base / 8) as Hd.
    { unfold delta, BASE_FEE_CHANGE_DENOMINATOR. split; [repeat apply Z.div_pos; nia|].
      apply Z.div_le_mono; [lia|]. apply Z.div_le_upper_bound; nia. }
    rewrite sub_w_ok by lia. cbn [mbind option_bind]. rewrite clamp_down; [|done|lia].
    unfold MIN_BASE_FEE_MILLISAT_PER_GAS. eexists. split; [done|]. split_and!; lia.
Qed.

Lemma base_fee_controller_witness :
  next_base_fee (G := mainnet) 1000 (mkUsage 60000000 1000) 900 = Some 1125 ∧
  ∃ next, next_base_fee (G := mainnet) 1000 (mkUsage 60000000 1000) 900 = Some next ∧
          next ≤ 1000 + Z.max 1 (1000 / 8).
Proof.
  split; [reflexivity|].
  destruct (base_fee_controller (G := mainnet) 1000 (mkUsage 60000000 1000) 900)
    as (next & E & _ & _ & H2 & _); [split; vm_compute; discriminate..|].
  exists next. split; [exact E|]. apply H2. vm_compute. discriminate.
Defined.

(** ** A transaction pays for its verification and its bytes *)

Definition suite_count (suite : VerifySuite) (keys : list (list Z)) : Z :=
  sumZ ((λ k, match suite, verify_suite_of k with
              | Hybrid, Hybrid | SlhDsaFalcon, SlhDsaFalcon => 1
              | _, _ => 0
              end) <$> keys).

Lemma suite_count_bounds suite keys : 0 ≤ suite_count suite keys ≤ Z.of_nat (length keys).
Proof.
  unfold suite_count. induction keys as [|k keys IH]; csimpl; [lia|].
  destruct suite, (verify_suite_of k); lia.
Qed.

Lemma suite_count_total keys :
  suite_count Hybrid keys + suite_count SlhDsaFalcon keys = Z.of_nat (length keys).
Proof.
  unfold suite_count. induction keys as [|k keys IH]; csimpl; [lia|].
  destruct (verify_suite_of k); lia.
Qed.

Lemma count_suites_spec keys h s :
  0 ≤ h → 0 ≤ s → h + s + Z.of_nat (length keys) ≤ u32_MAX →
  count_suites keys h s = (h + suite_count Hybrid keys, s + suite_count SlhDsaFalcon keys).
Proof.
  revert h s. induction keys as [|k keys IH]; intros h s Hh Hs Hn; csimpl in *.
  { unfold suite_count. simpl. f_equal; lia. }
  unfold suite_count. csimpl. fold (suite_count Hybrid keys) (suite_count SlhDsaFalcon keys).
  unfold saturating_add. destruct (verify_suite_of k); rewrite Z.min_r by lia; rewrite IH by lia; f_equal; lia.
Qed.

Definition key_gas (armed : bool) (key : list Z) : Z :=
  if armed then suite_verify_gas (verify_suite_of key) else HYBRID_VERIFY_GAS.

Lemma key_gas_sum armed keys :
  sumZ (key_gas armed <$> keys)
  = if armed then HYBRID_VERIFY_GAS * suite_count Hybrid keys
                  + SLHDSA_FALCON_VERIFY_GAS * suite_count SlhDsaFalcon keys
    else HYBRID_VERIFY_GAS * Z.of_nat (length keys).
Proof.
  unfold suite_count, key_gas. induction keys as [|k keys IH]; csimpl; [by destruct armed; lia|].
  rewrite IH. destruct armed; [|lia]. destruct (verify_suite_of k); cbn [suite_verify_gas]; lia.
Qed.

Lemma verify_gas_sum armed keys :
  Z.of_nat (length keys) ≤ u32_MAX →
  verify_gas (eutxo_class_for_keys_with armed keys) = sumZ (key_gas armed <$> keys).
Proof.
  intros Hn. unfold eutxo_class_for_keys_with. rewrite count_suites_spec, !Z.add_0_l by lia.
  pose proof (suite_count_total keys) as Ht. pose proof (suite_count_bounds Hybrid keys).
  pose proof (suite_count_bounds SlhDsaFalcon keys). rewrite key_gas_sum.
  unfold u32_MAX in *. assert (HYBRID_VERIFY_GAS = 72748) as -> by done.
  assert (SLHDSA_FALCON_VERIFY_GAS = 1067610) as -> by (vm_compute; reflexivity).
  case_goal as E; cbn [verify_gas]; unfold saturating_add, saturating_mul, u64_MAX, u32_MAX;
    assert (HYBRID_VERIFY_GAS = 72748) as -> by done.
  - destruct armed; simpl in E; lia.
  - assert (SLHDSA_FALCON_VERIFY_GAS = 1067610) as -> by (vm_compute; reflexivity).
    destruct armed; simpl in E; lia.
Qed.

Lemma part_sat_bounds gas price :
  0 ≤ gas * price ≤ u128_MAX →
  gas * price ≤ MILLISAT_PER_SAT * part_sat gas price < gas * price + MILLISAT_PER_SAT.
Proof.
  intros Hm. unfold part_sat, ceil_div, saturating_mul, MILLISAT_PER_SAT. rewrite Z.min_r by lia.
  pose proof (Z.div_mod (gas * price) 1000 ltac:(lia)).
  pose proof (Z.mod_pos_bound (gas * price) 1000 ltac:(lia)).
  destruct (Z.eqb_spec ((gas * price) `mod` 1000) 0); cbn [negb]; lia.
Qed.

(** A transfer is charged the gas of each of its signatures at the price of that
    key's suite (one price for all before the suites are told apart), plus its bytes
    and the flat part; and both fee parts are that gas times the price, rounded up
    to a whole satoshi: work is never free.  No saturation occurs within the limits. *)
Theorem charge_covers_cost armed keys bytes base_fee tip :
  Z.of_nat (length keys) ≤ u32_MAX → 0 ≤ bytes ≤ u32_MAX →
  let gas := TX_FLAT_GAS + GAS_PER_BYTE * bytes + sumZ (key_gas armed <$> keys) in
  gas ≤ MAX_TX_GAS →
  0 ≤ base_fee ≤ MAX_BASE_FEE_MILLISAT_PER_GAS → 0 ≤ tip ≤ MAX_TIP_MILLISAT_PER_GAS →
  let c := charge (eutxo_class_for_keys_with armed keys) bytes base_fee tip in
  charge_gas c = gas ∧ charge_tx_bytes c = bytes ∧
  gas * base_fee ≤ MILLISAT_PER_SAT * base_fee_sat c < gas * base_fee + MILLISAT_PER_SAT ∧
  gas * tip ≤ MILLISAT_PER_SAT * priority_fee_sat c < gas * tip + MILLISAT_PER_SAT ∧
  (0 < base_fee → 0 < base_fee_sat c).
Proof.
  intros Hn Hb gas Hgas Hbase Htip c.
  assert (0 ≤ sumZ (key_gas armed <$> keys)).
  { apply sumZ_fmap_nonneg. intros k _. unfold key_gas. by destruct armed, (verify_suite_of k). }
  assert (intrinsic_gas (eutxo_class_for_keys_with armed keys) bytes = gas) as Hi.
  { unfold intrinsic_gas. rewrite verify_gas_sum by done. unfold gas, MAX_TX_GAS, BLOCK_GAS_LIMIT in *.
    unfold saturating_add, saturating_mul, TX_FLAT_GAS, GAS_PER_BYTE, u32_MAX, u64_MAX in *. lia. }
  assert (5000 ≤ gas ≤ 60000000) as Hg.
  { split; [|exact Hgas]. unfold gas, TX_FLAT_GAS, GAS_PER_BYTE. lia. }
  change MAX_TIP_MILLISAT_PER_GAS with 10000000000000000000000 in Htip.
  change MAX_BASE_FEE_MILLISAT_PER_GAS with 10000000000000000000000 in Hbase.
  unfold c, charge, fee_parts_sat. rewrite Hi. cbn [charge_gas charge_tx_bytes base_fee_sat priority_fee_sat].
  clearbody gas. pose proof (part_sat_bounds gas base_fee ltac:(unfold u128_MAX; nia)) as H1.
  pose proof (part_sat_bounds gas tip ltac:(unfold u128_MAX; nia)) as H2.
  split_and!; try done; try lia. intros Hpos. unfold MILLISAT_PER_SAT in *. nia.
Qed.

Lemma charge_covers_cost_witness :
  charge (eutxo_class_for_keys_with true [[]; []]) 100 10 0 = mkCharge 152096 100 1521 0 ∧
  152096 * 10 ≤ MILLISAT_PER_SAT * base_fee_sat (charge (eutxo_class_for_keys_with true [[]; []]) 100 10 0).
Proof.
  split; [reflexivity|].
  apply (charge_covers_cost true [[]; []] 100 10 0); try split; vm_compute; discriminate.
Defined.

End FeeMarket.
