(* ===== verification/Cohort.v ===== *)
(** * The genesis cohort's declining cap

    Models [crates/bloch-pos-committee/src/genesis_cohort.rs].  Sums of [u64] stakes
    are taken in [u128] and cannot overflow; the scaling product can, so it is the
    checked one and [None] stands for the panic. *)

From S2P Require Import Prelude Bytes Params Types Delegation Tokenomics Staking.
Local Open Scope Z_scope.

Module Cohort.
Import Bytes Params Types Tokenomics.

Definition EPOCHS_PER_YEAR : Z := SLOTS_PER_YEAR / SLOTS_PER_EPOCH.
Definition COHORT_CAP_START_BPS : Z := 10000.
Definition COHORT_CAP_FLOOR_BPS : Z := 3333.
Definition COHORT_TAPER_EPOCHS : Z := EPOCHS_PER_YEAR.
Definition CAP_MEANINGFUL_AT_SAT : Z := Staking.MIN_DEPOSIT_SAT.

Definition cohort_cap_bps (epoch : Z) : Z :=
  if COHORT_TAPER_EPOCHS <=? epoch then COHORT_CAP_FLOOR_BPS
  else
    let span := COHORT_CAP_START_BPS - COHORT_CAP_FLOOR_BPS in
    COHORT_CAP_START_BPS - span * epoch / COHORT_TAPER_EPOCHS.

Inductive CapStatus :=
| NotTapering
| Enforced (cap_sat : Z)
| Deferred (independent_sat : Z).

Definition in_cohort (cohort : list Z) (v : Validator) : bool := binary_search cohort (index v).

Definition cohort_stake (vs : list Validator) (cohort : list Z) : Z :=
  total_stake (filter (λ v, in_cohort cohort v = true) vs).

Definition cap_status (vs : list Validator) (cohort : list Z) (epoch : Z) : CapStatus :=
  let bps := cohort_cap_bps epoch in
  if 10000 <=? bps then NotTapering
  else
    let total := total_stake vs in
    let others := total - cohort_stake vs cohort in
    if others <? CAP_MEANINGFUL_AT_SAT then Deferred others
    else Enforced (others * bps / (10000 - bps)).

(** The scaled stake is cast to [u64]. *)
Definition scale (cap cohort_total : Z) (cohort : list Z) (v : Validator) : option Validator :=
  if in_cohort cohort v then
    x ← mul_w u128_MAX (effective_stake v) cap;
    Some (mkValidator (index v) ((x / cohort_total) `mod` 2 ^ 64))
  else Some v.

Definition apply_cohort_cap (vs : list Validator) (cohort : list Z) (epoch : Z)
    : option (list Validator) :=
  let total := total_stake vs in
  if total =? 0 then Some vs
  else
    let cstake := cohort_stake vs cohort in
    match cap_status vs cohort epoch with
    | NotTapering | Deferred _ => Some vs
    | Enforced _ =>
        let bps := cohort_cap_bps epoch in
        let others := total - cstake in
        let cap := others * bps / (10000 - bps) in
        if cstake <=? cap then Some vs else mapM (scale cap cstake cohort) vs
    end.

Definition cohort_share_bps (vs : list Validator) (cohort : list Z) : Z :=
  let total := total_stake vs in
  if total =? 0 then 0 else cohort_stake vs cohort * 10000 / total.

(** ** The taper *)

Lemma cap_bps_bounds epoch :
  0 ≤ epoch → COHORT_CAP_FLOOR_BPS ≤ cohort_cap_bps epoch ≤ COHORT_CAP_START_BPS.
Proof.
  intros He. unfold cohort_cap_bps. case_goal as E; [done|].
  pose proof (share_bounds (COHORT_CAP_START_BPS - COHORT_CAP_FLOOR_BPS) epoch COHORT_TAPER_EPOCHS
    ltac:(done) ltac:(lia)). lia.
Qed.

Lemma cap_bps_mono epoch epoch' :
  0 ≤ epoch ≤ epoch' → cohort_cap_bps epoch' ≤ cohort_cap_bps epoch.
Proof.
  intros He. unfold cohort_cap_bps at 1. case_goal as E; [by apply cap_bps_bounds; lia|].
  unfold cohort_cap_bps. rewrite (proj2 (Z.leb_gt _ _)) by lia.
  set (span := COHORT_CAP_START_BPS - COHORT_CAP_FLOOR_BPS).
  assert (span * epoch / COHORT_TAPER_EPOCHS ≤ span * epoch' / COHORT_TAPER_EPOCHS); [|lia].
  apply Z.div_le_mono; [done|]. assert (0 ≤ span) by done. nia.
Qed.

(** ** The cap holds *)

Definition stakes_ok (vs : list Validator) : Prop := Forall (λ v, 0 ≤ effective_stake v ≤ u64_MAX) vs.

Lemma total_split vs cohort :
  total_stake vs = cohort_stake vs cohort + total_stake (filter (λ v, in_cohort cohort v ≠ true) vs).
Proof.
  unfold cohort_stake, total_stake. induction vs as [|v vs IH]; [done|].
  destruct (in_cohort cohort v) eqn:E.
  - rewrite filter_cons_True, filter_cons_False by (rewrite ?E; auto). csimpl. lia.
  - rewrite filter_cons_False, filter_cons_True by (by rewrite ?E). csimpl. lia.
Qed.

Lemma total_nonneg vs : stakes_ok vs → 0 ≤ total_stake vs.
Proof.
  intros Hs. apply sumZ_fmap_nonneg. intros v Hv. unfold stakes_ok in Hs. rewrite Forall_forall in Hs.
  by apply Hs.
Qed.

Lemma stakes_ok_filter (P : Validator → Prop) `{∀ v, Decision (P v)} vs :
  stakes_ok vs → stakes_ok (filter P vs).
Proof.
  unfold stakes_ok. rewrite !Forall_forall. intros Hs v Hv%list_elem_of_filter. naive_solver.
Qed.

(** Scaling by [cap / C]: members keep their index and do not grow, the others are as
    they were, and the members' stakes sum to at most [cap / C] of what they were. *)
Lemma scale_spec cap C cohort vs :
  0 ≤ cap < C → C ≤ TOTAL_SUPPLY_SAT → stakes_ok vs → cohort_stake vs cohort ≤ C →
  ∃ vs', mapM (scale cap C cohort) vs = Some vs' ∧
    Forall2 (λ v v', index v' = index v ∧ 0 ≤ effective_stake v' ≤ effective_stake v ∧
               (in_cohort cohort v = false → v' = v)) vs vs' ∧
    C * cohort_stake vs' cohort ≤ cap * cohort_stake vs cohort ∧
    total_stake (filter (λ v, in_cohort cohort v ≠ true) vs')
      = total_stake (filter (λ v, in_cohort cohort v ≠ true) vs).
Proof.
  intros Hc HC. unfold TOTAL_SUPPLY_SAT, TOTAL_SUPPLY_BLOCH, Delegation.SAT_PER_BLOCH in HC.
  induction vs as [|v vs IH]; intros Hs Hle.
  { exists []. split; [done|]. split; [by apply Forall2_nil_2|]. split; [|done].
    change (C * 0 ≤ cap * 0). lia. }
  apply Forall_cons in Hs as [Hv Hs].
  assert (0 ≤ cohort_stake vs cohort) by (by apply total_nonneg, stakes_ok_filter).
  unfold cohort_stake, total_stake in Hle. destruct (in_cohort cohort v) eqn:E.
  - rewrite filter_cons_True in Hle by done. csimpl in Hle.
    fold (total_stake (filter (λ v, in_cohort cohort v = true) vs)) in Hle. fold (cohort_stake vs cohort) in Hle.
    destruct (IH Hs) as (vs' & Em & Hf & Hsum & Hoth); [lia|].
    pose proof (share_bounds (effective_stake v) cap C ltac:(lia) ltac:(lia)) as Hb.
    set (v' := mkValidator (index v) (effective_stake v * cap / C)).
    assert (scale cap C cohort v = Some v') as Ev.
    { unfold scale. rewrite E, mul_w_ok by (unfold u64_MAX, u128_MAX in *; nia). cbn [mbind option_bind].
      unfold v'. rewrite Z.mod_small; [done|]. unfold u64_MAX in Hv. lia. }
    assert (in_cohort cohort v' = true) as E' by done.
    exists (v' :: vs'). split_and!.
    + apply mapM_Some. constructor; [done|by apply mapM_Some].
    + constructor; [|done]. split_and!; [done|apply Hb|apply Hb|]. intros E0. by rewrite E0 in E.
    + unfold cohort_stake, total_stake. rewrite !filter_cons_True by done. csimpl.
      fold (total_stake (filter (λ v, in_cohort cohort v = true) vs')).
      fold (total_stake (filter (λ v, in_cohort cohort v = true) vs)).
      fold (cohort_stake vs' cohort) (cohort_stake vs cohort).
      change (effective_stake v') with (effective_stake v * cap / C).
      pose proof (Z.mul_div_le (effective_stake v * cap) C ltac:(lia)). lia.
    + rewrite !filter_cons_False by (rewrite ?E, ?E'; auto). done.
  - rewrite filter_cons_False in Hle by (by rewrite E).
    destruct (IH Hs Hle) as (vs' & Em & Hf & Hsum & Hoth).
    exists (v :: vs'). split_and!.
    + apply mapM_Some. constructor; [unfold scale; by rewrite E|by apply mapM_Some].
    + constructor; [|done]. split_and!; done || lia.
    + unfold cohort_stake. rewrite !filter_cons_False by (by rewrite E). exact Hsum.
    + rewrite !filter_cons_True by (by rewrite E). unfold total_stake in *. csimpl. lia.
Qed.

(** A cohort weight within [others * bps / (10000 - bps)] is within [bps] of the whole. *)
Lemma cap_is_share others c bps :
  0 ≤ others → 0 ≤ bps < 10000 → c ≤ others * bps / (10000 - bps) → 10000 * c ≤ bps * (c + others).
Proof.
  intros Ho Hb Hc. pose proof (Z.mul_div_le (others * bps) (10000 - bps) ltac:(lia)). nia.
Qed.

(** Applying the cohort cap always returns a roster with the same validators in the
    same order, in which no stake grew and validators outside the genesis cohort are
    untouched.  Where the cap is enforced, the cohort holds at most the tapered share of
    the stake that remains active, and from the end of the taper on less than a third
    of it; where the cap is deferred or has not begun, nothing changes. *)
Theorem cohort_cap vs cohort epoch :
  0 ≤ epoch → StronglySorted Z.lt cohort → stakes_ok vs → total_stake vs ≤ TOTAL_SUPPLY_SAT →
  ∃ vs', apply_cohort_cap vs cohort epoch = Some vs' ∧
    Forall2 (λ v v', index v' = index v ∧ 0 ≤ effective_stake v' ≤ effective_stake v ∧
               (index v ∉ cohort → v' = v)) vs vs' ∧
    match cap_status vs cohort epoch with
    | Enforced _ =>
        10000 * cohort_stake vs' cohort ≤ cohort_cap_bps epoch * total_stake vs' ∧
        (COHORT_TAPER_EPOCHS ≤ epoch → 3 * cohort_stake vs' cohort < total_stake vs')
    | _ => vs' = vs
    end.
Proof.
  intros He Hc Hs Ht.
  assert (∀ v, index v ∉ cohort → in_cohort cohort v = false) as Hin.
  { intros v Hv. unfold in_cohort. rewrite binary_search_sorted by done. by apply bool_decide_eq_false. }
  assert (Forall2 (λ v v', index v' = index v ∧ 0 ≤ effective_stake v' ≤ effective_stake v ∧
            (index v ∉ cohort → v' = v)) vs vs) as Hid.
  { apply Forall_Forall2_diag. apply (Forall_impl _ _ _ Hs). intros v Hv. split_and!; done || lia. }
  assert (0 ≤ cohort_stake vs cohort) as Hcs by (by apply total_nonneg, stakes_ok_filter).
  pose proof (total_split vs cohort) as Hsp.
  set (O := total_stake (filter (λ v, in_cohort cohort v ≠ true) vs)) in *.
  assert (0 ≤ O) as HO by (by apply total_nonneg, stakes_ok_filter).
  unfold apply_cohort_cap. destruct (cap_status vs cohort epoch) as [|cs|] eqn:Ecs;
    [case_goal as E0; exists vs; by split_and!| |case_goal as E0; exists vs; by split_and!].
  unfold cap_status in Ecs. destruct (10000 <=? cohort_cap_bps epoch) eqn:Eb; [done|].
  destruct (total_stake vs - cohort_stake vs cohort <? CAP_MEANINGFUL_AT_SAT) eqn:Eo; [done|]. clear Ecs.
  pose proof (cap_bps_bounds epoch He) as Hbps. set (bps := cohort_cap_bps epoch) in *.
  assert (COHORT_TAPER_EPOCHS ≤ epoch → bps = 3333) as Hend.
  { intros Hle. unfold bps, cohort_cap_bps. by rewrite (proj2 (Z.leb_le _ _)) by done. }
  change CAP_MEANINGFUL_AT_SAT with 2500000000000 in Eo. unfold COHORT_CAP_FLOOR_BPS in Hbps.
  rewrite (proj2 (Z.eqb_neq (total_stake vs) 0)) by lia.
  replace (total_stake vs - cohort_stake vs cohort) with O by lia.
  set (cap := O * bps / (10000 - bps)).
  assert (0 ≤ cap) by (apply Z.div_pos; nia).
  assert (∀ c, c ≤ cap → 10000 * c ≤ bps * (c + O) ∧ (COHORT_TAPER_EPOCHS ≤ epoch → 3 * c < c + O)) as Hshare.
  { intros c Hcap. pose proof (cap_is_share O c bps HO ltac:(lia) Hcap) as Hsh. split; [done|].
    intros Hle. rewrite (Hend Hle) in Hsh. lia. }
  destruct (cohort_stake vs cohort <=? cap) eqn:Ec.
  - exists vs. split; [done|]. split; [done|]. rewrite Hsp. apply Hshare. lia.
  - destruct (scale_spec cap (cohort_stake vs cohort) cohort vs) as (vs' & Em & Hf & Hsum & Hoth);
      [lia|lia|done|lia|].
    exists vs'. split; [done|]. split.
    + eapply Forall2_impl; [exact Hf|]. intros v v' (?&?&Hv). split; [done|]. split; [done|auto].
    + rewrite (total_split vs' cohort), Hoth. apply Hshare. nia.
Qed.

Definition ex_set : list Validator :=
  [mkValidator 0 9000000000000; mkValidator 1 9000000000000; mkValidator 7 4000000000000].

(** After the taper the two cohort validators are scaled to under a third. *)
Lemma cohort_cap_witness :
  apply_cohort_cap ex_set [0; 1] 40000
    = Some [mkValidator 0 999850007499; mkValidator 1 999850007499; mkValidator 7 4000000000000] ∧
  ∃ vs', apply_cohort_cap ex_set [0; 1] 40000 = Some vs' ∧ 3 * cohort_stake vs' [0; 1] < total_stake vs'.
Proof.
  split; [vm_compute; reflexivity|].
  destruct (cohort_cap ex_set [0; 1] 40000) as (vs' & E & _ & Hm).
  - lia.
  - repeat constructor; lia.
  - repeat constructor; vm_compute; discriminate.
  - vm_compute. discriminate.
  - exists vs'. split; [exact E|].
    assert (∃ c, cap_status ex_set [0; 1] 40000 = Enforced c) as [c Ec] by (eexists; vm_compute; reflexivity).
    rewrite Ec in Hm. apply Hm.
    vm_compute. discriminate.
Defined.

End Cohort.
