(* ===== verification/Beacon.v ===== *)
(** * The RANDAO beacon

    Models [crates/bloch-pos-committee/src/beacon.rs]: the validator's hash chain and
    the walk down it, the committed reveal state, and the global mix.  SHAKE-256 and
    SHA3-256 are parameters. *)

From S2P Require Import Prelude Bytes Params Types.
Local Open Scope Z_scope.

Module Beacon.
Import Bytes Params Types.

Inductive BeaconError := InvalidReveal | ChainExhausted.

(** The validator's secret chain: [values] from the seed up, [revealed] reveals made. *)
Record RandaoChain := mkChain { values : list hash; revealed : Z }.

Record RevealState := mkReveal { commitment : hash; reveals_used : Z }.

Section chain.
Context `{Shake32}.

Definition chain_step (x : hash) : hash := shake256_32 (hash_bytes x).

Fixpoint chain_from (n : nat) (cur : hash) : list hash :=
  match n with
  | O => []
  | S n => let cur := chain_step cur in cur :: chain_from n cur
  end.

Definition generate (seed : hash) : RandaoChain :=
  mkChain (seed :: chain_from (Z.to_nat RANDAO_CHAIN_LENGTH) seed) 0.

(** Indexing a vector: [None] is the panic. *)
Definition chain_commitment (c : RandaoChain) : option hash :=
  values c !! Z.to_nat RANDAO_CHAIN_LENGTH.

Definition remaining (c : RandaoChain) : Z := saturating_sub RANDAO_CHAIN_LENGTH (revealed c).

(** [Some None]: the chain is spent. *)
Definition peek_reveal (c : RandaoChain) : option (option hash) :=
  if RANDAO_CHAIN_LENGTH <=? revealed c then Some None
  else
    match checked_sub (RANDAO_CHAIN_LENGTH - 1) (revealed c) with
    | None => Some None
    | Some idx => Some <$> values c !! Z.to_nat idx
    end.

Definition next_reveal (c : RandaoChain) : option (option hash * RandaoChain) :=
  r ← peek_reveal c;
  match r with
  | None => Some (None, c)
  | Some reveal => n ← add_w u32_MAX (revealed c) 1; Some (Some reveal, mkChain (values c) n)
  end.

(** ** The committed state *)

Definition register (c0 : hash) : RevealState := mkReveal c0 0.

Definition is_exhausted (s : RevealState) : bool := RANDAO_CHAIN_LENGTH <=? reveals_used s.

Definition verify_and_advance (s : RevealState) (reveal : hash) : result BeaconError RevealState :=
  if is_exhausted s then Err ChainExhausted
  else if negb (chain_step reveal =? commitment s) then Err InvalidReveal
  else
    n ← ok_or (checked_add u32_MAX (reveals_used s) 1) ChainExhausted;
    Ok (mkReveal reveal n).

Definition recommit (s : RevealState) (new_c0 : hash) : RevealState := register new_c0.

Context `{Sha3}.

Definition mix_in (randao_mix reveal : hash) : hash :=
  sha3_256 (DS_RANDAO ++ hash_bytes randao_mix ++ hash_bytes reveal).

Definition recommit_signing_root (validator epoch : Z) (new_c0 : hash) : hash :=
  sha3_256 (DS_RANDAO ++ le_bytes 4 validator ++ le_bytes 8 epoch ++ hash_bytes new_c0).

Definition process_reveal (s : RevealState) (randao_mix reveal : hash)
    : result BeaconError (RevealState * hash) :=
  next ← verify_and_advance s reveal;
  Ok (next, mix_in randao_mix reveal).

(** ** Producer and verifier in step *)

Lemma length_chain_from n cur : length (chain_from n cur) = n.
Proof. revert cur. induction n as [|n IH]; intros cur; simpl; [done|]. by rewrite IH. Qed.

(** Each value is the image of the one below it. *)
Lemma chain_link seed n i x y :
  (seed :: chain_from n seed) !! i = Some x → (seed :: chain_from n seed) !! S i = Some y →
  y = chain_step x.
Proof.
  revert seed i. induction n as [|n IH]; intros seed i; [done|].
  destruct i as [|i]; [by intros [= <-] [= <-]|]. apply (IH (chain_step seed) i).
Qed.

Lemma chain_lookup seed i :
  (i ≤ Z.to_nat RANDAO_CHAIN_LENGTH)%nat → is_Some (values (generate seed) !! i).
Proof.
  intros Hi. apply lookup_lt_is_Some_2. unfold generate. cbn [values length].
  rewrite length_chain_from. lia.
Qed.

#[local] Opaque RANDAO_CHAIN_LENGTH.

(** One proposal by a validator with chain [c], against the committed state [s]. *)
Definition propose (cs : RandaoChain * RevealState) : option (RandaoChain * RevealState) :=
  '(r, c) ← next_reveal cs.1;
  reveal ← r;
  match verify_and_advance cs.2 reveal with Ok s => Some (c, s) | Err _ => None end.

Fixpoint propose_n (n : nat) (cs : RandaoChain * RevealState) : option (RandaoChain * RevealState) :=
  match n with O => Some cs | S n => cs ← propose cs; propose_n n cs end.

(** The committed value is the one the validator last showed. *)
Definition in_step (seed : hash) (n : Z) (cs : RandaoChain * RevealState) : Prop :=
  cs.1 = mkChain (values (generate seed)) n ∧ reveals_used cs.2 = n ∧
  values (generate seed) !! Z.to_nat (RANDAO_CHAIN_LENGTH - n) = Some (commitment cs.2).

Lemma chain_length_u32 : 0 < RANDAO_CHAIN_LENGTH < u32_MAX.
Proof. done. Qed.

Lemma propose_in_step seed n cs :
  0 ≤ n < RANDAO_CHAIN_LENGTH → in_step seed n cs →
  ∃ cs', propose cs = Some cs' ∧ in_step seed (n + 1) cs'.
Proof.
  intros Hn (Hc & Hu & Hv). destruct cs as [c [com used]].
  cbn [fst snd reveals_used commitment] in *. subst c used.
  pose proof chain_length_u32 as Hlen.
  destruct (chain_lookup seed (Z.to_nat (RANDAO_CHAIN_LENGTH - 1 - n)) ltac:(lia)) as [r Hr].
  assert (com = chain_step r) as ->.
  { apply (chain_link seed _ (Z.to_nat (RANDAO_CHAIN_LENGTH - 1 - n)) r com Hr).
    replace (S (Z.to_nat (RANDAO_CHAIN_LENGTH - 1 - n))) with (Z.to_nat (RANDAO_CHAIN_LENGTH - n)) by lia.
    exact Hv. }
  unfold in_step. set (vs := values (generate seed)) in *. clearbody vs.
  exists (mkChain vs (n + 1), mkReveal r (n + 1)).
  unfold propose, next_reveal, peek_reveal, verify_and_advance, is_exhausted. cbn [fst snd values revealed].
  rewrite (proj2 (Z.leb_gt RANDAO_CHAIN_LENGTH n)) by lia.
  rewrite (proj2 (checked_sub_Some (RANDAO_CHAIN_LENGTH - 1) n (RANDAO_CHAIN_LENGTH - 1 - n))) by lia.
  rewrite Hr. cbn [fmap option_fmap option_map mbind option_bind].
  rewrite (add_w_ok u32_MAX n 1) by (clear -Hn Hlen; destruct Hn, Hlen; lia). cbn [mbind option_bind fst snd reveals_used commitment].
  rewrite (proj2 (Z.leb_gt RANDAO_CHAIN_LENGTH n)) by lia. rewrite Z.eqb_refl. cbn [negb].
  rewrite (proj2 (checked_add_Some u32_MAX n 1 (n + 1))) by lia.
  split; [done|]. split_and!; [done|done|]. simpl.
  replace (RANDAO_CHAIN_LENGTH - (n + 1)) with (RANDAO_CHAIN_LENGTH - 1 - n) by lia. done.
Qed.

Lemma propose_n_in_step seed k n cs :
  0 ≤ n → n + Z.of_nat k ≤ RANDAO_CHAIN_LENGTH → in_step seed n cs →
  ∃ cs', propose_n k cs = Some cs' ∧ in_step seed (n + Z.of_nat k) cs'.
Proof.
  revert n cs. induction k as [|k IH]; intros n cs Hn Hk Hs.
  { exists cs. by rewrite Z.add_0_r. }
  destruct (propose_in_step seed n cs) as (cs1 & E1 & H1); [lia|done|].
  destruct (IH (n + 1) cs1) as (cs2 & E2 & H2); [lia|lia|done|].
  exists cs2. cbn [propose_n]. rewrite E1. cbn [mbind option_bind]. split; [done|].
  by replace (n + Z.of_nat (S k)) with (n + 1 + Z.of_nat k) by lia.
Qed.

(** A validator that registers the head of the chain it generated can reveal in
    exactly [RANDAO_CHAIN_LENGTH] proposals: each of its first reveals, in the order
    the client takes them off the chain, is accepted by the committed state, the two
    counters agree throughout, and after the last one the client has nothing left to
    reveal and consensus refuses every value until a re-commit. *)
Theorem reveals_accepted seed n :
  0 ≤ n ≤ RANDAO_CHAIN_LENGTH →
  ∃ c0 cs, chain_commitment (generate seed) = Some c0 ∧
    propose_n (Z.to_nat n) (generate seed, register c0) = Some cs ∧
    revealed cs.1 = n ∧ reveals_used cs.2 = n ∧ remaining cs.1 = RANDAO_CHAIN_LENGTH - n ∧
    (n = RANDAO_CHAIN_LENGTH →
       next_reveal cs.1 = Some (None, cs.1) ∧
       (∀ reveal, verify_and_advance cs.2 reveal = Err ChainExhausted) ∧
       (∀ c0', is_exhausted (recommit cs.2 c0') = false)).
Proof.
  intros Hn. pose proof chain_length_u32 as Hlen.
  destruct (chain_lookup seed (Z.to_nat RANDAO_CHAIN_LENGTH) ltac:(lia)) as [c0 Hc0].
  destruct (propose_n_in_step seed (Z.to_nat n) 0 (generate seed, register c0)) as (cs & E & Hs).
  - lia.
  - lia.
  - split_and!; [done|done|]. by rewrite Z.sub_0_r.
  - exists c0, cs. replace (0 + Z.of_nat (Z.to_nat n)) with n in Hs by lia.
    destruct Hs as (Hc & Hu & _). split_and!; [done|done|by rewrite Hc|done| |].
    + rewrite Hc. unfold remaining, saturating_sub. cbn [revealed]. lia.
    + intros ->. unfold next_reveal, peek_reveal, verify_and_advance, is_exhausted.
      rewrite Hu, Hc. cbn [revealed]. rewrite Z.leb_refl. split_and!; [done|done|].
      intros c0'. apply Z.leb_gt. cbn [recommit register reveals_used]. lia.
Qed.

(** Only the value below the commitment is accepted: two values the same state
    accepts are equal unless they collide under the hash; an accepted value becomes the
    commitment and enters the mix, and showing it again is refused unless it is a fixed
    point of the hash. *)
Theorem reveal_binding s mix reveal s' mix' :
  process_reveal s mix reveal = Ok (s', mix') →
  commitment s = chain_step reveal ∧ s' = mkReveal reveal (reveals_used s + 1) ∧
  mix' = mix_in mix reveal ∧ reveals_used s < RANDAO_CHAIN_LENGTH ∧
  (∀ other m, is_ok (process_reveal s m other) = true → is_hash reveal → is_hash other →
     (chain_step reveal = chain_step other → hash_bytes reveal = hash_bytes other) → other = reveal) ∧
  (∀ m, chain_step reveal ≠ reveal → is_ok (process_reveal s' m reveal) = false).
Proof.
  unfold process_reveal, verify_and_advance, is_exhausted.
  destruct (RANDAO_CHAIN_LENGTH <=? reveals_used s) eqn:Eu; [done|].
  destruct (chain_step reveal =? commitment s) eqn:Ec; cbn [negb]; [|done]. apply Z.eqb_eq in Ec.
  destruct (checked_add _ _ _) as [n|] eqn:En; [|done]. apply checked_add_Some in En as [_ ->].
  intros [= <- <-]. split_and!; [done|done|done|lia| |].
  - intros other m Hok Hr Ho Hcoll. destruct (chain_step other =? commitment s) eqn:Eo; [|done].
    apply Z.eqb_eq in Eo. symmetry. apply hash_bytes_inj; [done|done|]. apply Hcoll. congruence.
  - intros m Hfix. cbn [reveals_used commitment].
    rewrite (proj2 (Z.eqb_neq (chain_step reveal) reveal) Hfix).
    by destruct (RANDAO_CHAIN_LENGTH <=? reveals_used s + 1).
Qed.

End chain.

(** ** Witnesses *)

(** Stand-ins for SHAKE-256 and SHA3-256. *)
Definition ex_shake : Shake32 := λ l, foldl (λ a x, (a * 257 + x + 1) `mod` 2 ^ 256) 0 l.
Definition ex_sha : Sha3 := λ l, foldl (λ a x, (a * 263 + x + 1) `mod` 2 ^ 256) 0 l.

Lemma reveals_accepted_witness :
  let _ := ex_shake in let _ := ex_sha in
  ∃ c0 cs, chain_commitment (generate 5) = Some c0 ∧
    propose_n (Z.to_nat RANDAO_CHAIN_LENGTH) (generate 5, register c0) = Some cs ∧
    next_reveal cs.1 = Some (None, cs.1).
Proof.
  intros sh sa. destruct (reveals_accepted 5 RANDAO_CHAIN_LENGTH) as (c0 & cs & E1 & E2 & _ & _ & _ & H).
  - split; vm_compute; discriminate.
  - exists c0, cs. split; [exact E1|]. split; [exact E2|]. apply H. reflexivity.
Defined.

Lemma reveal_binding_witness :
  let _ := ex_shake in let _ := ex_sha in
  let s := mkReveal (chain_step 9) 3 in
  process_reveal s 1 9 = Ok (mkReveal 9 4, mix_in 1 9) ∧ is_ok (process_reveal (mkReveal 9 4) 2 9) = false.
Proof.
  intros sh sa s. split; [vm_compute; reflexivity|].
  destruct (reveal_binding s 1 9 (mkReveal 9 4) (mix_in 1 9)) as (_ & _ & _ & _ & _ & H).
  - vm_compute. reflexivity.
  - apply H. vm_compute. discriminate.
Defined.

End Beacon.
