(* ===== verification/Gossip.v ===== *)
(** * The attestation pool

    Models [crates/bloch-pos-committee/src/gossip.rs]: deduplication, equivocation
    capture and the pool of attestations waiting for a block.  The B-tree maps are
    finite maps ([gmap]) and are walked in ascending order where the code iterates.
    The committee, block and key lookups and the signature verifier are arguments,
    as in the code.

    The [usize] counters of the pool are at most [MAX_PENDING_ATTESTATIONS] (part of
    the invariant), so their increments are plain; [next_seq] is a [u64] and its
    increment is the checked one, [None] standing for the panic. *)

From S2P Require Import Prelude Bytes Params Types Signatures Kes Attestation Slashing.
Local Open Scope Z_scope.

Module Gossip.
Import Bytes Params Types Signatures Attestation.

Definition ATTESTATION_WINDOW_SLOTS : Z := 2 * SLOTS_PER_EPOCH.
Definition CLOCK_SKEW_SLOTS : Z := 1.
Definition MAX_PENDING_ATTESTATIONS : Z := 256.
Definition MAX_PENDING_ATTESTATIONS_PER_ROOT : Z := 32.
Definition MAX_PENDING_ATTESTATION_ROOTS : Z := 32.
Definition MAX_PENDING_ATTESTATIONS_PER_SOURCE : Z := 32.
Definition MAX_PENDING_ATTESTATIONS_PER_SOURCE_ROOT : Z := 8.
Definition MAX_PENDING_UNATTRIBUTED_ATTESTATIONS : Z := 32.
Definition MAX_PENDING_UNATTRIBUTED_ATTESTATIONS_PER_ROOT : Z := 8.
Definition MAX_EQUIVOCATIONS_PER_DUTY : Z := 2.

Inductive IgnoreReason :=
| OutsideWindow | Duplicate | EquivocationLimit | Unjudgeable | IgnoreUnknownValidator
| PendingDutyLimit | PendingRootLimit | PendingRootSetLimit | PendingSourceLimit
| PendingSourceRootLimit | PendingUnattributedLimit | PendingUnattributedRootLimit.

Inductive GossipDecision :=
| Accept (slashing_candidate : option Slashing.SlashingEvidence)
| Ignore (reason : IgnoreReason)
| Reject (reason : RejectReason)
| Hold (missing_root : hash).

Abbreviation DutyKey := (Z * Z)%type.
Abbreviation SeenKey := (Z * Z * hash)%type.
Abbreviation DutyRecord := (list (hash * Attestation)).

Record PendingEntry := mkPending {
  pe_att : Attestation;
  missing_root : hash;
  verification_source : option hash;
  verified_pubkey_sha3 : hash;
}.

(** The token handed out when a pending entry is released. *)
Record AuthenticatedPendingAttestation := mkAuthenticated {
  ap_att : Attestation;
  ap_source : option hash;
  ap_pubkey_sha3 : hash;
}.

Record AttestationPool := mkPool {
  seen : gmap DutyKey DutyRecord;
  pending : gmap Z PendingEntry;
  pending_by_root : gmap hash (gset Z);
  pending_keys : gset SeenKey;
  pending_by_duty : gmap DutyKey Z;
  pending_by_source : gmap hash Z;
  pending_by_source_root : gmap (hash * hash) Z;
  pending_unattributed : Z;
  pending_unattributed_by_root : gmap hash Z;
  next_seq : Z;
}.

Definition new : AttestationPool := mkPool ∅ ∅ ∅ ∅ ∅ ∅ ∅ 0 ∅ 0.

Definition duty_of (att : Attestation) : DutyKey := (slot (att_data att), att_validator att).

(** [*entry(k).or_insert(0) += 1]. *)
Definition bump `{Countable K} (ix : gmap K Z) (k : K) : gmap K Z := map_add ix k 1.

(** The decrement of [remove_pending], which removes a counter that reaches zero. *)
Definition lower `{Countable K} (ix : gmap K Z) (k : K) : gmap K Z :=
  match ix !! k with
  | Some count =>
      let count := saturating_sub count 1 in
      if count =? 0 then delete k ix else <[k := count]> ix
  | None => ix
  end.

Section pool.
Context `{Sha3} {G : Gates}.

Definition seen_key (att : Attestation) : SeenKey :=
  (slot (att_data att), att_validator att, signing_root (att_data att)).

Definition remove_pending (p : AttestationPool) (seq : Z) : option PendingEntry * AttestationPool :=
  match pending p !! seq with
  | None => (None, p)
  | Some entry =>
      let root := missing_root entry in
      let '(by_source, by_source_root, unattributed, unattributed_by_root) :=
        match verification_source entry with
        | Some source =>
            (lower (pending_by_source p) source, lower (pending_by_source_root p) (source, root),
             pending_unattributed p, pending_unattributed_by_root p)
        | None =>
            (pending_by_source p, pending_by_source_root p,
             saturating_sub (pending_unattributed p) 1, lower (pending_unattributed_by_root p) root)
        end in
      let by_root :=
        match pending_by_root p !! root with
        | Some s =>
            let s := s ∖ {[seq]} in
            if bool_decide (s = ∅) then delete root (pending_by_root p)
            else <[root := s]> (pending_by_root p)
        | None => pending_by_root p
        end in
      (Some entry,
       mkPool (seen p) (delete seq (pending p)) by_root
         (pending_keys p ∖ {[seen_key (pe_att entry)]})
         (lower (pending_by_duty p) (duty_of (pe_att entry)))
         by_source by_source_root unattributed unattributed_by_root (next_seq p))
  end.

Definition evict (p : AttestationPool) (seq : Z) : AttestationPool := (remove_pending p seq).2.

Definition oldest (p : AttestationPool) : option Z := hd_error (ascending (dom (pending p))).

(** [while self.pending.len() >= MAX]: each round removes one entry. *)
Fixpoint make_room (fuel : nat) (p : AttestationPool) : AttestationPool :=
  match fuel with
  | O => p
  | S fuel =>
      if MAX_PENDING_ATTESTATIONS <=? Z.of_nat (size (pending p)) then
        match oldest p with
        | None => p
        | Some seq => make_room fuel (evict p seq)
        end
      else p
  end.

Definition hold (p : AttestationPool) (duty : DutyKey) (att : Attestation) (root data_hash : hash)
    (source : option hash) (pubkey_sha3 : hash) : option (GossipDecision * AttestationPool) :=
  let p := make_room (S (size (pending p))) p in
  let seq := next_seq p in
  next ← add_w u64_MAX seq 1;
  let keys := pending_keys p ∪ {[(slot (att_data att), att_validator att, data_hash)]} in
  let by_root := <[root := default ∅ (pending_by_root p !! root) ∪ {[seq]}]> (pending_by_root p) in
  let by_duty := bump (pending_by_duty p) duty in
  let '(by_source, by_source_root, unattributed, unattributed_by_root) :=
    match source with
    | Some s => (bump (pending_by_source p) s, bump (pending_by_source_root p) (s, root),
                 pending_unattributed p, pending_unattributed_by_root p)
    | None => (pending_by_source p, pending_by_source_root p,
               pending_unattributed p + 1, bump (pending_unattributed_by_root p) root)
    end in
  Some (Hold root,
        mkPool (seen p) (<[seq := mkPending att root source pubkey_sha3]> (pending p)) by_root keys
          by_duty by_source by_source_root unattributed unattributed_by_root next).

Definition root_len (p : AttestationPool) (root : hash) : Z :=
  from_option (λ s, Z.of_nat (size (s : gset Z))) 0 (pending_by_root p !! root).

Definition pending_capacity_reason (p : AttestationPool) (duty : DutyKey) (root : hash)
    (source : option hash) : option IgnoreReason :=
  if MAX_EQUIVOCATIONS_PER_DUTY <=? get0 (pending_by_duty p) duty then Some PendingDutyLimit
  else if MAX_PENDING_ATTESTATIONS_PER_ROOT <=? root_len p root then Some PendingRootLimit
  else if negb (bool_decide (is_Some (pending_by_root p !! root)))
          && (MAX_PENDING_ATTESTATION_ROOTS <=? Z.of_nat (size (pending_by_root p)))
  then Some PendingRootSetLimit
  else
    match source with
    | Some s =>
        if MAX_PENDING_ATTESTATIONS_PER_SOURCE <=? get0 (pending_by_source p) s
        then Some PendingSourceLimit
        else if MAX_PENDING_ATTESTATIONS_PER_SOURCE_ROOT <=? get0 (pending_by_source_root p) (s, root)
        then Some PendingSourceRootLimit
        else None
    | None =>
        if MAX_PENDING_UNATTRIBUTED_ATTESTATIONS <=? pending_unattributed p
        then Some PendingUnattributedLimit
        else if MAX_PENDING_UNATTRIBUTED_ATTESTATIONS_PER_ROOT
                <=? get0 (pending_unattributed_by_root p) root
        then Some PendingUnattributedRootLimit
        else None
    end.

(** The verification of step 7: the consensus policy and the key of the slot's epoch. *)
Definition authentic (verifier : SignatureVerifier) (keys : KeyLookup) (att : Attestation) : bool :=
  let e := epoch_of (slot (att_data att)) in
  bool_decide (Kes.verify_validator keys (PolicyVerifier_consensus verifier e) (att_validator att) e
                 (signing_root (att_data att)) (att_signature att) = Some true).

Definition first_missing (blocks : hash → bool) (d : AttestationData) : option hash :=
  List.find (λ root, negb (blocks root)) [head d; target_root d].

Definition process_inner (p : AttestationPool) (att : Attestation) (current_slot : Z)
    (committees : Z → list Z) (blocks : hash → bool) (verifier : SignatureVerifier)
    (keys : KeyLookup) (source : option hash) (authenticated : option hash)
    : option (GossipDecision * AttestationPool) :=
  let d := att_data att in
  if (saturating_add u64_MAX (slot d) ATTESTATION_WINDOW_SLOTS <? current_slot)
     || (saturating_add u64_MAX current_slot CLOCK_SKEW_SLOTS <? slot d)
  then Some (Ignore OutsideWindow, p)
  else if target_epoch d <=? source_epoch d then Some (Reject NonMonotonicCheckpoints, p)
  else
    let duty := duty_of att in
    let data_hash := signing_root d in
    let rec := default [] (seen p !! duty) in
    if existsb (λ x, x.1 =? data_hash) rec then Some (Ignore Duplicate, p)
    else if MAX_EQUIVOCATIONS_PER_DUTY <=? Z.of_nat (length rec) then
      Some (Ignore EquivocationLimit, p)
    else if bool_decide ((slot d, att_validator att, data_hash) ∈ pending_keys p) then
      Some (Ignore Duplicate, p)
    else if negb (binary_search (committees (slot d)) (att_validator att)) then
      Some (Reject NotInCommittee, p)
    else
      match Kes.authority_fingerprint keys (att_validator att) (target_epoch d) with
      | None => Some (Ignore IgnoreUnknownValidator, p)
      | Some current_pubkey_sha3 =>
          let missing := first_missing blocks d in
          match root ← missing; pending_capacity_reason p duty root source with
          | Some reason => Some (Ignore reason, p)
          | None =>
              let already_authenticated := bool_decide (authenticated = Some current_pubkey_sha3) in
              if negb already_authenticated && negb (authentic verifier keys att) then
                Some (Reject BadSignature, p)
              else
                match missing with
                | Some root => hold p duty att root data_hash source current_pubkey_sha3
                | None =>
                    let candidate := (λ x, Slashing.mkEvidence x.2 att) <$> hd_error rec in
                    Some (Accept candidate,
                          mkPool (<[duty := rec ++ [(data_hash, att)]]> (seen p)) (pending p)
                            (pending_by_root p) (pending_keys p) (pending_by_duty p)
                            (pending_by_source p) (pending_by_source_root p)
                            (pending_unattributed p) (pending_unattributed_by_root p) (next_seq p))
                end
          end
      end.

Definition process_from_source (p : AttestationPool) (att : Attestation) (current_slot : Z)
    (committees : Z → list Z) (blocks : hash → bool) (verifier : SignatureVerifier)
    (keys : KeyLookup) (source : option hash) : option (GossipDecision * AttestationPool) :=
  process_inner p att current_slot committees blocks verifier keys source None.

Definition process (p : AttestationPool) (att : Attestation) (current_slot : Z)
    (committees : Z → list Z) (blocks : hash → bool) (verifier : SignatureVerifier)
    (keys : KeyLookup) : option (GossipDecision * AttestationPool) :=
  process_from_source p att current_slot committees blocks verifier keys None.

Definition process_authenticated_pending (p : AttestationPool)
    (ap : AuthenticatedPendingAttestation) (current_slot : Z) (committees : Z → list Z)
    (blocks : hash → bool) (verifier : SignatureVerifier) (keys : KeyLookup)
    : option (GossipDecision * AttestationPool) :=
  process_inner p (ap_att ap) current_slot committees blocks verifier keys (ap_source ap)
    (Some (ap_pubkey_sha3 ap)).

Fixpoint take_seqs (p : AttestationPool) (seqs : list Z)
    : list AuthenticatedPendingAttestation * AttestationPool :=
  match seqs with
  | [] => ([], p)
  | seq :: seqs =>
      let '(e, p) := remove_pending p seq in
      let '(out, p) := take_seqs p seqs in
      (match e with
       | Some e => mkAuthenticated (pe_att e) (verification_source e) (verified_pubkey_sha3 e) :: out
       | None => out
       end, p)
  end.

Definition take_authenticated_waiting_on_limit (p : AttestationPool) (root : hash) (limit : nat)
    : list AuthenticatedPendingAttestation * bool * AttestationPool :=
  let seqs := take limit (from_option ascending [] (pending_by_root p !! root)) in
  let '(out, p) := take_seqs p seqs in
  let remains := from_option (λ s, negb (bool_decide (s = (∅ : gset Z)))) false (pending_by_root p !! root) in
  (out, remains, p).

Fixpoint replay (p : AttestationPool) (l : list AuthenticatedPendingAttestation) (current_slot : Z)
    (committees : Z → list Z) (blocks : hash → bool) (verifier : SignatureVerifier)
    (keys : KeyLookup) : option (list (Attestation * GossipDecision) * AttestationPool) :=
  match l with
  | [] => Some ([], p)
  | ap :: l =>
      '(decision, p) ← process_authenticated_pending p ap current_slot committees blocks verifier keys;
      '(out, p) ← replay p l current_slot committees blocks verifier keys;
      Some ((ap_att ap, decision) :: out, p)
  end.

(** [usize::MAX] as the limit takes them all. *)
Definition on_block (p : AttestationPool) (root : hash) (current_slot : Z)
    (committees : Z → list Z) (blocks : hash → bool) (verifier : SignatureVerifier)
    (keys : KeyLookup) : option (list (Attestation * GossipDecision) * AttestationPool) :=
  let '(waiting, _, p) :=
    take_authenticated_waiting_on_limit p root (size (default ∅ (pending_by_root p !! root))) in
  replay p waiting current_slot committees blocks verifier keys.

Definition expired_at (p : AttestationPool) (floor seq : Z) : bool :=
  from_option (λ e, slot (att_data (pe_att e)) <? floor) false (pending p !! seq).

Definition prune (p : AttestationPool) (current_slot : Z) : AttestationPool :=
  let floor := saturating_sub current_slot ATTESTATION_WINDOW_SLOTS in
  let p := mkPool (filter (λ kv, floor ≤ kv.1.1) (seen p)) (pending p) (pending_by_root p)
             (pending_keys p) (pending_by_duty p) (pending_by_source p) (pending_by_source_root p)
             (pending_unattributed p) (pending_unattributed_by_root p) (next_seq p) in
  let expired := filter (λ seq, expired_at p floor seq = true) (ascending (dom (pending p))) in
  foldl evict p expired.

Definition accepted_hashes (p : AttestationPool) (slot validator : Z) : list hash :=
  from_option (λ r : DutyRecord, r.*1) [] (seen p !! (slot, validator)).

Definition pending_for_root (p : AttestationPool) (root : hash) : Z := root_len p root.
Definition pending_len (p : AttestationPool) : Z := Z.of_nat (size (pending p)).

(** ** Counter indexes *)

(** How many pending entries have key [k]. *)
Definition tally `{Countable K} (key : PendingEntry → option K) (m : gmap Z PendingEntry) (k : K) : Z :=
  map_sum (λ _ e, if decide (key e = Some k) then 1 else 0) m.

(** The index holds exactly the non-zero tallies. *)
Definition index_ok `{Countable K} (key : PendingEntry → option K) (ix : gmap K Z)
    (m : gmap Z PendingEntry) : Prop :=
  ∀ k, ix !! k = if decide (tally key m k = 0) then None else Some (tally key m k).

Section index.
Context `{Countable K} (key : PendingEntry → option K).
Implicit Types (ix : gmap K Z) (m : gmap Z PendingEntry).

Lemma tally_nonneg m k : 0 ≤ tally key m k.
Proof. apply map_sum_nonneg. intros. case_decide; lia. Qed.

Lemma tally_insert m s e k :
  m !! s = None → tally key (<[s:=e]> m) k = tally key m k + if decide (key e = Some k) then 1 else 0.
Proof. intros Hs. unfold tally. rewrite map_sum_insert by done. lia. Qed.

Lemma tally_delete m s e k :
  m !! s = Some e → tally key (delete s m) k = tally key m k - if decide (key e = Some k) then 1 else 0.
Proof. intros Hs. unfold tally. rewrite (map_sum_delete _ m s e) by done. lia. Qed.

Lemma get0_index ix m k : index_ok key ix m → get0 ix k = tally key m k.
Proof. intros Hix. unfold get0. rewrite (Hix k). case_decide; simpl; lia. Qed.

Lemma index_ok_empty : index_ok key ∅ ∅.
Proof. intros k. rewrite lookup_empty. unfold tally. by rewrite map_sum_empty. Qed.

Lemma index_ok_insert ix m s e :
  index_ok key ix m → m !! s = None →
  index_ok key (from_option (bump ix) ix (key e)) (<[s:=e]> m).
Proof.
  intros Hix Hs k. rewrite tally_insert by done. pose proof (tally_nonneg m k) as Hn.
  destruct (key e) as [k'|] eqn:E; simpl.
  - unfold bump, map_add. rewrite (get0_index _ _ _ Hix). destruct (decide (k' = k)) as [->|Hk].
    + rewrite lookup_insert_eq, (decide_True _ _ (eq_refl (Some k))), decide_False by lia. done.
    + rewrite lookup_insert_ne by done. rewrite (decide_False (P := Some k' = Some k)) by congruence.
      rewrite Z.add_0_r. apply Hix.
  - rewrite Z.add_0_r. apply Hix.
Qed.

Lemma index_ok_delete ix m s e :
  index_ok key ix m → m !! s = Some e →
  index_ok key (from_option (lower ix) ix (key e)) (delete s m).
Proof.
  intros Hix Hs k. pose proof (tally_nonneg (delete s m) k) as Hn.
  rewrite (tally_delete m s e) in * by done. destruct (key e) as [k'|] eqn:E; simpl.
  - unfold lower. destruct (decide (k' = k)) as [->|Hk].
    + rewrite (decide_True _ _ (eq_refl (Some k))) in *. rewrite (Hix k).
      rewrite (decide_False (P := tally key m k = 0)) by lia. unfold saturating_sub.
      replace (Z.max 0 (tally key m k - 1)) with (tally key m k - 1) by lia.
      destruct (Z.eqb_spec (tally key m k - 1) 0).
      * rewrite decide_True by done. apply lookup_delete_eq.
      * rewrite decide_False by done. apply lookup_insert_eq.
    + rewrite (decide_False (P := Some k' = Some k)) in * by congruence. rewrite Z.sub_0_r in *.
      rewrite <-(Hix k). destruct (ix !! k'); [|done].
      destruct (_ =? 0); [by apply lookup_delete_ne|by apply lookup_insert_ne].
  - rewrite Z.sub_0_r in *. apply Hix.
Qed.

End index.

(** ** The pool's indexes are functions of its pending entries *)

Definition by_duty (e : PendingEntry) : option DutyKey := Some (duty_of (pe_att e)).
Definition by_source_root (e : PendingEntry) : option (hash * hash) :=
  (λ s, (s, missing_root e)) <$> verification_source e.
Definition unattributed (e : PendingEntry) : option unit :=
  match verification_source e with Some _ => None | None => Some tt end.
Definition unattributed_root (e : PendingEntry) : option hash :=
  match verification_source e with Some _ => None | None => Some (missing_root e) end.

(** The entries waiting for [root]. *)
Definition waiting (m : gmap Z PendingEntry) (root : hash) : gset Z :=
  dom (filter (λ kv : Z * PendingEntry, missing_root kv.2 = root) m).

Record indexes_exact (p : AttestationPool) : Prop := {
  ix_duty : index_ok by_duty (pending_by_duty p) (pending p);
  ix_source : index_ok verification_source (pending_by_source p) (pending p);
  ix_source_root : index_ok by_source_root (pending_by_source_root p) (pending p);
  ix_unattributed : pending_unattributed p = tally unattributed (pending p) tt;
  ix_unattributed_root : index_ok unattributed_root (pending_unattributed_by_root p) (pending p);
  ix_root : ∀ r, pending_by_root p !! r
              = if decide (waiting (pending p) r = ∅) then None else Some (waiting (pending p) r);
  ix_keys : ∀ k, k ∈ pending_keys p ↔ ∃ s e, pending p !! s = Some e ∧ seen_key (pe_att e) = k;
  ix_inj : ∀ s s' e e', pending p !! s = Some e → pending p !! s' = Some e' →
             seen_key (pe_att e) = seen_key (pe_att e') → s = s';
  ix_seq : ∀ s, is_Some (pending p !! s) → s < next_seq p;
}.

Lemma elem_of_waiting m r s : s ∈ waiting m r ↔ ∃ e, m !! s = Some e ∧ missing_root e = r.
Proof.
  unfold waiting. rewrite elem_of_dom. unfold is_Some. setoid_rewrite map_lookup_filter_Some. naive_solver.
Qed.

Lemma waiting_insert_eq m s e r :
  m !! s = None →
  waiting (<[s:=e]> m) r = if decide (missing_root e = r) then waiting m r ∪ {[s]} else waiting m r.
Proof.
  intros Hs. apply set_eq. intros x. destruct (decide (missing_root e = r)) as [Hr|Hr].
  - rewrite elem_of_union, !elem_of_waiting, elem_of_singleton. destruct (decide (x = s)) as [->|Hx].
    + rewrite lookup_insert_eq. naive_solver.
    + rewrite lookup_insert_ne by done. naive_solver.
  - rewrite !elem_of_waiting. destruct (decide (x = s)) as [->|Hx].
    + rewrite lookup_insert_eq, Hs. naive_solver.
    + rewrite lookup_insert_ne by done. naive_solver.
Qed.

Lemma waiting_delete m s e r :
  m !! s = Some e →
  waiting (delete s m) r = if decide (missing_root e = r) then waiting m r ∖ {[s]} else waiting m r.
Proof.
  intros Hs. apply set_eq. intros x. destruct (decide (missing_root e = r)) as [Hr|Hr].
  - rewrite elem_of_difference, !elem_of_waiting, elem_of_singleton. destruct (decide (x = s)) as [->|Hx].
    + rewrite lookup_delete_eq. naive_solver.
    + rewrite lookup_delete_ne by done. naive_solver.
  - rewrite !elem_of_waiting. destruct (decide (x = s)) as [->|Hx].
    + rewrite lookup_delete_eq, Hs. naive_solver.
    + rewrite lookup_delete_ne by done. naive_solver.
Qed.

Lemma indexes_exact_new : indexes_exact new.
Proof.
  constructor; simpl; try apply index_ok_empty.
  - unfold tally. by rewrite map_sum_empty.
  - intros r. rewrite lookup_empty, decide_True; [done|]. unfold waiting. by rewrite map_filter_empty, dom_empty_L.
  - intros k. split; [by intros ?%not_elem_of_empty|]. intros (s & e & Hs & _). by rewrite lookup_empty in Hs.
  - intros s s' e e' Hs. by rewrite lookup_empty in Hs.
  - intros s [e Hs]. by rewrite lookup_empty in Hs.
Qed.

(** What [remove_pending] does to the parts that are not indexes. *)
Lemma remove_pending_main p seq :
  let '(e, p') := remove_pending p seq in
  e = pending p !! seq ∧ seen p' = seen p ∧ pending p' = delete seq (pending p) ∧ next_seq p' = next_seq p.
Proof.
  unfold remove_pending. destruct (pending p !! seq) as [e|] eqn:E.
  - destruct (verification_source e); done.
  - split_and!; try done. by rewrite delete_id.
Qed.

Definition root_index_ok (ix : gmap hash (gset Z)) (m : gmap Z PendingEntry) : Prop :=
  ∀ r, ix !! r = if decide (waiting m r = ∅) then None else Some (waiting m r).

Lemma root_index_delete ix m s e :
  root_index_ok ix m → m !! s = Some e →
  root_index_ok match ix !! missing_root e with
                | Some w => let w := w ∖ {[s]} in
                            if bool_decide (w = ∅) then delete (missing_root e) ix
                            else <[missing_root e := w]> ix
                | None => ix
                end (delete s m).
Proof.
  intros Hix Hs r. rewrite (waiting_delete m s e r Hs), (Hix (missing_root e)).
  assert (s ∈ waiting m (missing_root e)) as Hin by (apply elem_of_waiting; eauto).
  rewrite decide_False by set_solver. cbv zeta.
  destruct (decide (missing_root e = r)) as [<-|Hr].
  - destruct (decide (waiting m (missing_root e) ∖ {[s]} = ∅)) as [Hw|Hw].
    + rewrite bool_decide_eq_true_2 by done. apply lookup_delete_eq.
    + rewrite bool_decide_eq_false_2 by done. apply lookup_insert_eq.
  - rewrite <-(Hix r). case_bool_decide; [by apply lookup_delete_ne|by apply lookup_insert_ne].
Qed.

Lemma root_index_insert ix m s e :
  root_index_ok ix m → m !! s = None →
  root_index_ok (<[missing_root e := default ∅ (ix !! missing_root e) ∪ {[s]}]> ix) (<[s:=e]> m).
Proof.
  intros Hix Hs r. rewrite (waiting_insert_eq m s e r Hs).
  destruct (decide (missing_root e = r)) as [<-|Hr].
  - rewrite lookup_insert_eq, (Hix (missing_root e)).
    rewrite (decide_False (P := waiting m (missing_root e) ∪ {[s]} = ∅)) by set_solver.
    case_decide as Hw; simpl; [rewrite Hw; f_equal; set_solver|done].
  - rewrite lookup_insert_ne by done. apply Hix.
Qed.

Definition keys_ok (ks : gset SeenKey) (m : gmap Z PendingEntry) : Prop :=
  (∀ k, k ∈ ks ↔ ∃ s e, m !! s = Some e ∧ seen_key (pe_att e) = k) ∧
  (∀ s s' e e', m !! s = Some e → m !! s' = Some e' →
     seen_key (pe_att e) = seen_key (pe_att e') → s = s').

Lemma keys_ok_delete ks m s e :
  keys_ok ks m → m !! s = Some e → keys_ok (ks ∖ {[seen_key (pe_att e)]}) (delete s m).
Proof.
  intros [Hk Hinj] Hs. split.
  - intros k. rewrite elem_of_difference, elem_of_singleton, Hk. split.
    + intros [(s' & e' & Hs' & Hk') Hne]. exists s', e'. split; [|done].
      rewrite lookup_delete_ne; [done|]. intros ->. congruence.
    + intros (s' & e' & Hs' & Hk'). apply lookup_delete_Some in Hs' as [Hne Hs'].
      split; [by exists s', e'|]. intros ->. apply Hne. by apply (Hinj _ _ _ _ Hs Hs').
  - intros s1 s2 e1 e2 H1 H2. apply lookup_delete_Some in H1 as [_ H1], H2 as [_ H2]. by apply Hinj.
Qed.

Lemma keys_ok_insert ks m s e :
  keys_ok ks m → m !! s = None → seen_key (pe_att e) ∉ ks →
  keys_ok (ks ∪ {[seen_key (pe_att e)]}) (<[s:=e]> m).
Proof.
  intros [Hk Hinj] Hs Hnew. split.
  - intros k. rewrite elem_of_union, elem_of_singleton, Hk. split.
    + intros [(s' & e' & Hs' & Hk')| ->]; [exists s', e'|exists s, e].
      * rewrite lookup_insert_ne; [done|]. intros ->. congruence.
      * by rewrite lookup_insert_eq.
    + intros (s' & e' & Hs' & Hk'). apply lookup_insert_Some in Hs' as [[<- <-]|[_ Hs']]; [by right|].
      left. by exists s', e'.
  - assert (∀ s' e', m !! s' = Some e' → seen_key (pe_att e') ≠ seen_key (pe_att e)) as Hfresh.
    { intros s' e' Hs' Heq. apply Hnew. rewrite <-Heq. apply Hk. by exists s', e'. }
    intros s1 s2 e1 e2 H1 H2 Heq.
    apply lookup_insert_Some in H1 as [[<- <-]|[_ H1]], H2 as [[<- <-]|[_ H2]]; [done| | |by eapply Hinj].
    + by apply Hfresh in H2.
    + by apply Hfresh in H1.
Qed.

Lemma remove_pending_exact p seq : indexes_exact p → indexes_exact (remove_pending p seq).2.
Proof.
  intros [Hd Hso Hsr Hu Hur Hr Hk Hinj Hseq]. unfold remove_pending.
  destruct (pending p !! seq) as [e|] eqn:E; [|by constructor].
  pose proof (index_ok_delete _ _ _ _ _ Hd E) as Hd'. pose proof (index_ok_delete _ _ _ _ _ Hso E) as Hso'.
  pose proof (index_ok_delete _ _ _ _ _ Hsr E) as Hsr'. pose proof (index_ok_delete _ _ _ _ _ Hur E) as Hur'.
  pose proof (tally_delete unattributed _ _ _ tt E) as Hu'.
  pose proof (tally_nonneg unattributed (delete seq (pending p)) tt) as Hn.
  pose proof (root_index_delete _ _ _ _ Hr E) as Hr'.
  destruct (keys_ok_delete _ _ _ _ (conj Hk Hinj) E) as [Hk' Hinj'].
  assert (∀ s, is_Some (delete seq (pending p) !! s) → s < next_seq p) as Hseq'.
  { intros s [e' He']. apply lookup_delete_Some in He' as [_ He']. apply Hseq. eauto. }
  destruct (verification_source e) as [so|] eqn:Es.
  - assert (by_source_root e = Some (so, missing_root e)) as E1 by (unfold by_source_root; by rewrite Es).
    assert (unattributed e = None) as E2 by (unfold unattributed; by rewrite Es).
    assert (unattributed_root e = None) as E3 by (unfold unattributed_root; by rewrite Es).
    rewrite E1 in Hsr'. rewrite E2 in Hu'. rewrite E3 in Hur'.
    rewrite decide_False in Hu' by done. constructor; simpl; try done. lia.
  - assert (by_source_root e = None) as E1 by (unfold by_source_root; by rewrite Es).
    assert (unattributed e = Some tt) as E2 by (unfold unattributed; by rewrite Es).
    assert (unattributed_root e = Some (missing_root e)) as E3 by (unfold unattributed_root; by rewrite Es).
    rewrite E1 in Hsr'. rewrite E2 in Hu'. rewrite E3 in Hur'.
    rewrite decide_True in Hu' by done. constructor; simpl; try done. unfold saturating_sub. lia.
Qed.

(** ** The caps *)

Record caps_hold (p : AttestationPool) : Prop := {
  cap_total : Z.of_nat (size (pending p)) ≤ MAX_PENDING_ATTESTATIONS;
  cap_duty : ∀ d, tally by_duty (pending p) d ≤ MAX_EQUIVOCATIONS_PER_DUTY;
  cap_root : ∀ r, Z.of_nat (size (waiting (pending p) r)) ≤ MAX_PENDING_ATTESTATIONS_PER_ROOT;
  cap_roots : Z.of_nat (size (pending_by_root p)) ≤ MAX_PENDING_ATTESTATION_ROOTS;
  cap_source : ∀ so, tally verification_source (pending p) so ≤ MAX_PENDING_ATTESTATIONS_PER_SOURCE;
  cap_source_root : ∀ k, tally by_source_root (pending p) k ≤ MAX_PENDING_ATTESTATIONS_PER_SOURCE_ROOT;
  cap_unattributed :
    tally unattributed (pending p) tt ≤ MAX_PENDING_UNATTRIBUTED_ATTESTATIONS;
  cap_unattributed_root : ∀ r,
    tally unattributed_root (pending p) r ≤ MAX_PENDING_UNATTRIBUTED_ATTESTATIONS_PER_ROOT;
}.

(** [p'] is [p] with some pending entries removed. *)
Definition shrunk (p p' : AttestationPool) : Prop :=
  pending p' ⊆ pending p ∧ seen p' = seen p ∧ next_seq p' = next_seq p ∧
  (indexes_exact p → indexes_exact p').

Lemma shrunk_refl p : shrunk p p.
Proof. done. Qed.

Lemma shrunk_trans p p' p'' : shrunk p p' → shrunk p' p'' → shrunk p p''.
Proof.
  intros (?&?&?&?) (?&?&?&?). split_and!; [by etransitivity|congruence|congruence|auto].
Qed.

Lemma remove_pending_shrunk p seq : shrunk p (remove_pending p seq).2.
Proof.
  pose proof (remove_pending_main p seq) as Hm. pose proof (remove_pending_exact p seq) as Hx.
  destruct (remove_pending p seq) as [e p']. simpl in *. destruct Hm as (_ & ? & Hp & ?).
  split_and!; try done. rewrite Hp. apply delete_subseteq.
Qed.

Lemma tally_shrunk `{Countable K} (key : PendingEntry → option K) p p' k :
  shrunk p p' → tally key (pending p') k ≤ tally key (pending p) k.
Proof. intros (Hsub & _). apply map_sum_subseteq; [|done]. intros. case_decide; lia. Qed.

Lemma waiting_shrunk p p' r : shrunk p p' → waiting (pending p') r ⊆ waiting (pending p) r.
Proof.
  intros (Hsub & _) s. rewrite !elem_of_waiting. intros (e & He & Hr). exists e. split; [|done].
  by eapply lookup_weaken.
Qed.

Lemma elem_of_dom_root p r :
  indexes_exact p → r ∈ dom (pending_by_root p) ↔ waiting (pending p) r ≠ ∅.
Proof.
  intros Hx. rewrite elem_of_dom, (ix_root p Hx). case_decide; unfold is_Some; naive_solver.
Qed.

Lemma dom_root_shrunk p p' :
  indexes_exact p → shrunk p p' → dom (pending_by_root p') ⊆ dom (pending_by_root p).
Proof.
  intros Hx Hs r. pose proof Hs as (_ & _ & _ & Hx'). specialize (Hx' Hx).
  rewrite !elem_of_dom_root by done. pose proof (waiting_shrunk p p' r Hs). set_solver.
Qed.

Lemma caps_shrunk p p' : indexes_exact p → shrunk p p' → caps_hold p → caps_hold p'.
Proof.
  intros Hx Hs [Ht Hd Hr Hrs Hso Hsr Hu Hur]. pose proof Hs as (Hsub & _).
  constructor; try (intros; etransitivity; [by apply tally_shrunk|done]).
  - apply map_subseteq_size in Hsub. lia.
  - intros r. etransitivity; [|apply (Hr r)]. apply inj_le, subseteq_size. by apply waiting_shrunk.
  - etransitivity; [|apply Hrs]. rewrite <-!size_dom. apply inj_le, subseteq_size. by apply dom_root_shrunk.
Qed.

Lemma make_room_shrunk fuel p : shrunk p (make_room fuel p).
Proof.
  revert p. induction fuel as [|fuel IH]; intros p; simpl; [done|].
  case_goal as E; [|done]. destruct (oldest p) as [s|]; [|done].
  eapply shrunk_trans; [apply remove_pending_shrunk|apply IH].
Qed.

Lemma oldest_pending p : pending p ≠ ∅ → ∃ s, oldest p = Some s ∧ is_Some (pending p !! s).
Proof.
  intros Hne. unfold oldest. destruct (ascending (dom (pending p))) as [|s l] eqn:E.
  - exfalso. apply Hne. apply dom_empty_inv_L. apply set_eq. intros s.
    rewrite <-elem_of_ascending, E. set_solver.
  - exists s. split; [done|]. apply elem_of_dom. rewrite <-elem_of_ascending, E. by left.
Qed.

(** The loop of [hold] ends with room for one more entry. *)
Lemma make_room_size fuel p :
  (size (pending p) < fuel)%nat → Z.of_nat (size (pending (make_room fuel p))) < MAX_PENDING_ATTESTATIONS.
Proof.
  revert p. induction fuel as [|fuel IH]; intros p Hf; [lia|]. simpl. case_goal as E; [|lia].
  destruct (oldest_pending p) as (s & -> & e & He).
  { intros E0. rewrite E0, map_size_empty in E. done. }
  apply IH. pose proof (remove_pending_main p s) as Hm. unfold evict.
  destruct (remove_pending p s) as [x p']. destruct Hm as (_ & _ & Hp & _). simpl. rewrite Hp.
  assert (0 < size (pending p))%nat.
  { apply Nat.neq_0_lt_0. intros E0%map_size_empty_inv. by rewrite E0, lookup_empty in He. }
  rewrite map_size_delete, He. lia.
Qed.

(** The pool [hold] leaves, from the pool [p1] with room. *)
Definition held (p1 : AttestationPool) (e : PendingEntry) (next : Z) : AttestationPool :=
  let root := missing_root e in
  mkPool (seen p1) (<[next_seq p1 := e]> (pending p1))
    (<[root := default ∅ (pending_by_root p1 !! root) ∪ {[next_seq p1]}]> (pending_by_root p1))
    (pending_keys p1 ∪ {[seen_key (pe_att e)]})
    (from_option (bump (pending_by_duty p1)) (pending_by_duty p1) (by_duty e))
    (from_option (bump (pending_by_source p1)) (pending_by_source p1) (verification_source e))
    (from_option (bump (pending_by_source_root p1)) (pending_by_source_root p1) (by_source_root e))
    (pending_unattributed p1 + if decide (unattributed e = Some tt) then 1 else 0)
    (from_option (bump (pending_unattributed_by_root p1)) (pending_unattributed_by_root p1)
       (unattributed_root e))
    next.

Lemma hold_held p att root source fp d p' :
  hold p (duty_of att) att root (signing_root (att_data att)) source fp = Some (d, p') →
  d = Hold root ∧
  p' = held (make_room (S (size (pending p))) p) (mkPending att root source fp) (next_seq p + 1).
Proof.
  unfold hold. set (p1 := make_room (S (size (pending p))) p).
  assert (next_seq p1 = next_seq p) as Hn by apply make_room_shrunk. rewrite Hn.
  destruct (add_w u64_MAX (next_seq p) 1) as [n|] eqn:En; [|done].
  apply checked_add_Some in En as [_ ->]. cbn [mbind option_bind].
  destruct source as [so|]; intros [= <- <-]; (split; [done|]); unfold held; simpl; rewrite Hn; try done.
  by rewrite Z.add_0_r.
Qed.

Lemma held_exact p1 e :
  indexes_exact p1 → seen_key (pe_att e) ∉ pending_keys p1 →
  indexes_exact (held p1 e (next_seq p1 + 1)).
Proof.
  intros [Hd Hso Hsr Hu Hur Hr Hk Hinj Hseq] Hnew.
  assert (pending p1 !! next_seq p1 = None) as Hs.
  { destruct (pending p1 !! next_seq p1) eqn:E; [|done]. exfalso.
    assert (next_seq p1 < next_seq p1) by (apply Hseq; eauto). lia. }
  destruct (keys_ok_insert _ _ _ e (conj Hk Hinj) Hs Hnew) as [Hk' Hinj'].
  constructor; cbn [held pending pending_by_duty pending_by_source pending_by_source_root
    pending_unattributed pending_unattributed_by_root pending_by_root pending_keys next_seq];
    try (by apply index_ok_insert); try done.
  - rewrite tally_insert, Hu by done. done.
  - by apply root_index_insert.
  - intros s [e' He']. apply lookup_insert_Some in He' as [[<- _]|[_ He']]; [lia|].
    assert (s < next_seq p1) by (apply Hseq; eauto). lia.
Qed.

Lemma root_len_waiting p r : indexes_exact p → root_len p r = Z.of_nat (size (waiting (pending p) r)).
Proof.
  intros Hx. unfold root_len. rewrite (ix_root p Hx). case_decide as E; simpl; [|done].
  by rewrite E, size_empty.
Qed.

(** The capacity test reads the caps off the indexes. *)
Lemma capacity_None p duty root source :
  indexes_exact p → pending_capacity_reason p duty root source = None →
  tally by_duty (pending p) duty < MAX_EQUIVOCATIONS_PER_DUTY ∧
  Z.of_nat (size (waiting (pending p) root)) < MAX_PENDING_ATTESTATIONS_PER_ROOT ∧
  (root ∈ dom (pending_by_root p) ∨
   Z.of_nat (size (pending_by_root p)) < MAX_PENDING_ATTESTATION_ROOTS) ∧
  match source with
  | Some so =>
      tally verification_source (pending p) so < MAX_PENDING_ATTESTATIONS_PER_SOURCE ∧
      tally by_source_root (pending p) (so, root) < MAX_PENDING_ATTESTATIONS_PER_SOURCE_ROOT
  | None =>
      tally unattributed (pending p) tt < MAX_PENDING_UNATTRIBUTED_ATTESTATIONS ∧
      tally unattributed_root (pending p) root < MAX_PENDING_UNATTRIBUTED_ATTESTATIONS_PER_ROOT
  end.
Proof.
  intros Hx. pose proof Hx as [Hd Hso Hsr Hu Hur _ _ _ _]. unfold pending_capacity_reason.
  rewrite (get0_index _ _ _ _ Hd), root_len_waiting by done.
  destruct (MAX_EQUIVOCATIONS_PER_DUTY <=? _) eqn:E1; [done|].
  destruct (MAX_PENDING_ATTESTATIONS_PER_ROOT <=? _) eqn:E2; [done|].
  destruct (negb _ && _) eqn:E3; [done|].
  intros Hrest. apply Z.leb_gt in E1, E2. split; [done|]. split; [done|]. split.
  { apply andb_false_iff in E3 as [E3|E3]; [left|right; lia].
    apply negb_false_iff, bool_decide_eq_true in E3. by apply elem_of_dom. }
  destruct source as [so|].
  - rewrite (get0_index _ _ _ _ Hso), (get0_index _ _ _ _ Hsr) in Hrest.
    destruct (MAX_PENDING_ATTESTATIONS_PER_SOURCE <=? _) eqn:E4; [done|].
    destruct (MAX_PENDING_ATTESTATIONS_PER_SOURCE_ROOT <=? _) eqn:E5; [done|]. lia.
  - rewrite Hu, (get0_index _ _ _ _ Hur) in Hrest.
    destruct (MAX_PENDING_UNATTRIBUTED_ATTESTATIONS <=? _) eqn:E4; [done|].
    destruct (MAX_PENDING_UNATTRIBUTED_ATTESTATIONS_PER_ROOT <=? _) eqn:E5; [done|]. lia.
Qed.

Lemma tally_held `{Countable K} (key : PendingEntry → option K) p p1 e next cap k :
  shrunk p p1 → pending p1 !! next_seq p1 = None →
  tally key (pending p) k ≤ cap → (key e = Some k → tally key (pending p) k < cap) →
  tally key (pending (held p1 e next)) k ≤ cap.
Proof.
  intros Hs Hf Hc Hlt. simpl. rewrite tally_insert by done.
  pose proof (tally_shrunk key p p1 k Hs). case_decide as E; [|lia]. specialize (Hlt E). lia.
Qed.

Lemma held_caps p p1 e :
  indexes_exact p → caps_hold p → shrunk p p1 →
  Z.of_nat (size (pending p1)) < MAX_PENDING_ATTESTATIONS →
  pending_capacity_reason p (duty_of (pe_att e)) (missing_root e) (verification_source e) = None →
  caps_hold (held p1 e (next_seq p1 + 1)).
Proof.
  intros Hx [Ht Hd Hr Hrs Hso Hsr Hu Hur] Hs Hsize Hcap.
  destruct (capacity_None _ _ _ _ Hx Hcap) as (Cd & Cr & Crs & Csrc).
  pose proof Hs as (_ & _ & Hnext & Hx1). specialize (Hx1 Hx).
  assert (pending p1 !! next_seq p1 = None) as Hf.
  { destruct (pending p1 !! next_seq p1) eqn:E; [|done]. exfalso.
    assert (next_seq p1 < next_seq p1) by (apply (ix_seq p1 Hx1); eauto). lia. }
  constructor.
  - cbn [held pending]. rewrite map_size_insert, Hf. lia.
  - intros d. eapply tally_held; [done..|]. by intros [= <-].
  - intros r. cbn [held pending]. rewrite waiting_insert_eq by done.
    pose proof (subseteq_size _ _ (waiting_shrunk p p1 r Hs)). specialize (Hr r).
    case_decide as E; [|lia]. subst r. pose proof (size_union_alt (waiting (pending p1) (missing_root e)) {[next_seq p1]}).
    pose proof (subseteq_size ({[next_seq p1]} ∖ waiting (pending p1) (missing_root e)) {[next_seq p1]} ltac:(set_solver)) as Hone.
    rewrite size_singleton in Hone. lia.
  - cbn [held pending_by_root]. rewrite <-size_dom, dom_insert_L, size_union_alt, <-size_dom in *.
    pose proof (dom_root_shrunk p p1 Hx Hs) as Hsub.
    pose proof (subseteq_size (dom (pending_by_root p1) ∖ {[missing_root e]})
                  (dom (pending_by_root p) ∖ {[missing_root e]}) ltac:(set_solver)) as Hle.
    rewrite size_singleton. destruct Crs as [Hin|Hlt].
    + rewrite (size_difference (dom (pending_by_root p)) {[missing_root e]}) in Hle by set_solver.
      rewrite size_singleton in Hle.
      assert (0 < size (dom (pending_by_root p)))%nat.
      { apply Nat.neq_0_lt_0. intros E0%size_empty_inv. set_solver. }
      lia.
    + pose proof (subseteq_size (dom (pending_by_root p) ∖ {[missing_root e]}) (dom (pending_by_root p))
        ltac:(set_solver)). lia.
  - intros so. eapply tally_held; [done..|]. intros E. rewrite E in Csrc. apply Csrc.
  - intros k. eapply tally_held; [done..|]. unfold by_source_root.
    destruct (verification_source e); simpl; [|done]. intros [= <-]. apply Csrc.
  - eapply tally_held; [done..|]. unfold unattributed. destruct (verification_source e); [done|].
    intros _. apply Csrc.
  - intros r. eapply tally_held; [done..|]. unfold unattributed_root.
    destruct (verification_source e); [done|]. intros [= <-]. apply Csrc.
Qed.

(** ** What the pool has accepted *)

Definition duty_records_ok (p : AttestationPool) : Prop :=
  ∀ d rec, seen p !! d = Some rec →
    rec ≠ [] ∧ Z.of_nat (length rec) ≤ MAX_EQUIVOCATIONS_PER_DUTY ∧ NoDup (rec.*1) ∧
    Forall (λ x, x.1 = signing_root (att_data x.2) ∧ duty_of x.2 = d) rec.

(** The attestation was verified under a registry whose fingerprint for it is [fp]. *)
Definition verified (V : SignatureVerifier) (fp : hash) (att : Attestation) : Prop :=
  ∃ keys, Kes.authority_fingerprint keys (att_validator att) (target_epoch (att_data att)) = Some fp ∧
          authentic V keys att = true.

Definition all_verified (V : SignatureVerifier) (p : AttestationPool) : Prop :=
  (∀ s e, pending p !! s = Some e → verified V (verified_pubkey_sha3 e) (pe_att e)) ∧
  (∀ d rec x, seen p !! d = Some rec → x ∈ rec → ∃ fp, verified V fp x.2).

Record pool_ok (V : SignatureVerifier) (p : AttestationPool) : Prop := {
  pok_exact : indexes_exact p;
  pok_caps : caps_hold p;
  pok_seen : duty_records_ok p;
  pok_verified : all_verified V p;
}.

Lemma pool_ok_new V : pool_ok V new.
Proof.
  constructor.
  - apply indexes_exact_new.
  - constructor; simpl; unfold tally; try (intros; rewrite map_sum_empty; done).
    + done.
    + intros r. unfold waiting. by rewrite map_filter_empty, dom_empty_L, size_empty.
    + done.
  - intros d rec. cbn [new seen]. by rewrite lookup_empty.
  - split; [intros s e|intros d rec x]; cbn [new seen pending]; by rewrite lookup_empty.
Qed.

Lemma pool_ok_shrunk V p p' : pool_ok V p → shrunk p p' → pool_ok V p'.
Proof.
  intros [Hx Hc Hs [Hp Hv]] Hsh. pose proof Hsh as (Hsub & Hseen & _ & Hx'). constructor; [auto| | |].
  - by eapply caps_shrunk.
  - intros d rec. rewrite Hseen. apply Hs.
  - split; [|rewrite Hseen; apply Hv]. intros s e He. eapply Hp, lookup_weaken; done.
Qed.

Lemma not_seen_hash (rec : DutyRecord) h :
  existsb (λ x, x.1 =? h) rec = false → h ∉ rec.*1.
Proof.
  intros E Hin. apply list_elem_of_fmap in Hin as (x & -> & Hx). apply not_true_iff_false in E. apply E.
  apply existsb_exists. exists x. split; [by apply list_elem_of_In|apply Z.eqb_refl].
Qed.

Definition in_window (now slot : Z) : bool :=
  negb ((saturating_add u64_MAX slot ATTESTATION_WINDOW_SLOTS <? now)
        || (saturating_add u64_MAX now CLOCK_SKEW_SLOTS <? slot)).

(** The three ways [process_inner] ends: no change, an entry held, a record accepted. *)
Lemma process_inner_cases V p att now committees blocks keys source tok d p' :
  process_inner p att now committees blocks V keys source tok = Some (d, p') →
  (p' = p ∧ ((∃ r, d = Ignore r) ∨ (∃ r, d = Reject r))) ∨
  ∃ fp, Kes.authority_fingerprint keys (att_validator att) (target_epoch (att_data att)) = Some fp ∧
    (tok = Some fp ∨ authentic V keys att = true) ∧
    seen_key att ∉ pending_keys p ∧
    signing_root (att_data att) ∉ (default [] (seen p !! duty_of att)).*1 ∧
    Z.of_nat (length (default [] (seen p !! duty_of att))) < MAX_EQUIVOCATIONS_PER_DUTY ∧
    binary_search (committees (slot (att_data att))) (att_validator att) = true ∧
    in_window now (slot (att_data att)) = true ∧ source_epoch (att_data att) < target_epoch (att_data att) ∧
    ((∃ root, first_missing blocks (att_data att) = Some root ∧ d = Hold root ∧
        pending_capacity_reason p (duty_of att) root source = None ∧
        p' = held (make_room (S (size (pending p))) p) (mkPending att root source fp) (next_seq p + 1)) ∨
     (first_missing blocks (att_data att) = None ∧
      d = Accept ((λ x, Slashing.mkEvidence x.2 att) <$> hd_error (default [] (seen p !! duty_of att))) ∧
      p' = mkPool (<[duty_of att := default [] (seen p !! duty_of att)
                                     ++ [(signing_root (att_data att), att)]]> (seen p)) (pending p)
             (pending_by_root p) (pending_keys p) (pending_by_duty p)
             (pending_by_source p) (pending_by_source_root p)
             (pending_unattributed p) (pending_unattributed_by_root p) (next_seq p))).
Proof.
  unfold process_inner. set (rec := default [] (seen p !! duty_of att)).
  unfold in_window. destruct (_ || _); [intros [= <- <-]; eauto|].
  destruct (target_epoch _ <=? _) eqn:Ete; [intros [= <- <-]; eauto|].
  destruct (existsb _ rec) eqn:Erec; [intros [= <- <-]; eauto|].
  destruct (MAX_EQUIVOCATIONS_PER_DUTY <=? _) eqn:Elen; [intros [= <- <-]; eauto|].
  case_bool_decide as Ekey; [intros [= <- <-]; eauto|].
  destruct (binary_search _ _) eqn:Ebs; cbn [negb]; [|intros [= <- <-]; eauto].
  destruct (Kes.authority_fingerprint _ _ _) as [fp|] eqn:Efp; [|intros [= <- <-]; eauto].
  destruct (root ← first_missing _ _; _) as [r|] eqn:Ecap; [intros [= <- <-]; eauto|].
  destruct (negb (bool_decide (tok = Some fp)) && negb (authentic V keys att)) eqn:Eauth;
    [intros [= <- <-]; eauto|].
  intros Hd. right. exists fp. split; [done|]. split.
  { apply andb_false_iff in Eauth as [E|E]; apply negb_false_iff in E; [|by right].
    apply bool_decide_eq_true in E. by left. }
  split; [exact Ekey|]. split; [by apply not_seen_hash|]. split; [lia|]. split; [done|].
  split; [done|]. split; [lia|].
  destruct (first_missing blocks (att_data att)) as [root|]; [left; exists root|right].
  - apply hold_held in Hd as [-> ->]. done.
  - simplify_eq. done.
Qed.

Lemma process_inner_ok V p att now committees blocks keys source tok d p' :
  pool_ok V p → (∀ fp, tok = Some fp → verified V fp att) →
  process_inner p att now committees blocks V keys source tok = Some (d, p') → pool_ok V p'.
Proof.
  intros Hok Htok Hp. apply process_inner_cases in Hp as [[-> _]|(fp & Hfp & Hauth & Hkey & Hseen & Hlen & _ & _ & _ & Hp)];
    [done|].
  assert (verified V fp att) as Hv by (destruct Hauth as [->|Ha]; [by apply Htok|by exists keys]).
  destruct Hp as [(root & _ & _ & Hcap & ->)|(_ & _ & ->)].
  - set (p1 := make_room (S (size (pending p))) p).
    assert (shrunk p p1) as Hs by apply make_room_shrunk.
    assert (next_seq p1 = next_seq p) as Hn by apply Hs. rewrite <-Hn.
    pose proof (pool_ok_shrunk V p p1 Hok Hs) as [Hx1 _ Hs1 [Hp1 Hv1]]. constructor.
    + apply held_exact; [done|]. simpl. intros Hin. apply Hkey.
      apply (ix_keys p1 Hx1) in Hin as (s & e & He & Hk). apply (ix_keys p (pok_exact _ _ Hok)).
      exists s, e. split; [|done]. destruct Hs as [Hsub _]. by eapply lookup_weaken.
    + eapply held_caps; [apply Hok|apply Hok|done| |done]. apply make_room_size. lia.
    + exact Hs1.
    + split; [|exact Hv1]. intros s e. cbn [held pending].
      intros [[<- <-]|[_ He]]%lookup_insert_Some; [exact Hv|]. by apply (Hp1 s).
  - destruct Hok as [Hx Hc Hs [Hpe Hve]]. constructor.
    + by destruct Hx.
    + by destruct Hc.
    + intros d0 rec. cbn [seen]. intros [[<- <-]|[_ He]]%lookup_insert_Some; [|by apply Hs].
      split; [by destruct (default [] _)|]. split; [rewrite length_app; simpl; lia|].
      rewrite fmap_app. split.
      * apply NoDup_app. split_and!; [|set_solver|apply NoDup_singleton].
        destruct (seen p !! duty_of att) eqn:E; [by apply (Hs _ _ E)|apply NoDup_nil_2].
      * apply Forall_app. split; [|by repeat constructor].
        destruct (seen p !! duty_of att) eqn:E; [by apply (Hs _ _ E)|constructor].
    + split; [exact Hpe|]. intros d0 rec x. cbn [seen].
      intros [[<- <-]|[_ He]]%lookup_insert_Some; [|by eapply Hve].
      intros [Hx0|Hx0%list_elem_of_singleton]%elem_of_app; [|subst x; by exists fp].
      destruct (seen p !! duty_of att) eqn:E; [by apply (Hve _ _ _ E)|by apply not_elem_of_nil in Hx0].
Qed.

(** ** Histories *)

(** A node: its pool and the released tokens it has not replayed yet.  The lookups may
    differ at every call. *)
Inductive gossip_step (V : SignatureVerifier)
  : AttestationPool * list AuthenticatedPendingAttestation →
    AttestationPool * list AuthenticatedPendingAttestation → Prop :=
| gs_process p toks att now committees blocks keys source d p' :
    process_from_source p att now committees blocks V keys source = Some (d, p') →
    gossip_step V (p, toks) (p', toks)
| gs_take p toks root limit out remains p' :
    take_authenticated_waiting_on_limit p root limit = (out, remains, p') →
    gossip_step V (p, toks) (p', out ++ toks)
| gs_replay p t toks toks' now committees blocks keys d p' :
    toks ≡ₚ t :: toks' →
    process_authenticated_pending p t now committees blocks V keys = Some (d, p') →
    gossip_step V (p, toks) (p', toks')
| gs_on_block p toks root now committees blocks keys out p' :
    on_block p root now committees blocks V keys = Some (out, p') →
    gossip_step V (p, toks) (p', toks)
| gs_prune p toks now : gossip_step V (p, toks) (prune p now, toks).

Definition token_ok (V : SignatureVerifier) (t : AuthenticatedPendingAttestation) : Prop :=
  verified V (ap_pubkey_sha3 t) (ap_att t).

Lemma take_seqs_ok V p seqs :
  pool_ok V p →
  shrunk p (take_seqs p seqs).2 ∧ Forall (token_ok V) (take_seqs p seqs).1.
Proof.
  revert p. induction seqs as [|s seqs IH]; intros p Hok; simpl; [done|].
  pose proof (remove_pending_main p s) as Hm. pose proof (remove_pending_shrunk p s) as Hs.
  destruct (remove_pending p s) as [e p1] eqn:E. simpl in Hs. destruct Hm as (He & _).
  destruct (IH p1 (pool_ok_shrunk _ _ _ Hok Hs)) as [Hs' Hf].
  destruct (take_seqs p1 seqs) as [out p2]. simpl in *. split; [by eapply shrunk_trans|].
  destruct e as [e|]; [|done]. constructor; [|done].
  exact (proj1 (pok_verified _ _ Hok) s e (eq_sym He)).
Qed.

Lemma take_authenticated_ok V p root limit out remains p' :
  pool_ok V p → take_authenticated_waiting_on_limit p root limit = (out, remains, p') →
  pool_ok V p' ∧ Forall (token_ok V) out.
Proof.
  intros Hok. unfold take_authenticated_waiting_on_limit.
  set (seqs := take limit _). destruct (take_seqs_ok V p seqs Hok) as [Hs Hf].
  destruct (take_seqs p seqs) as [o p1]. intros [= <- <- <-]. split; [|done]. by eapply pool_ok_shrunk.
Qed.

Lemma replay_ok V p l now committees blocks keys out p' :
  pool_ok V p → Forall (token_ok V) l →
  replay p l now committees blocks V keys = Some (out, p') → pool_ok V p'.
Proof.
  revert p out. induction l as [|t l IH]; intros p out Hok Hl; cbn [replay]; [by intros [= <- <-]|].
  apply Forall_cons in Hl as [Ht Hl].
  destruct (process_authenticated_pending _ _ _ _ _ _ _) as [[d p1]|] eqn:E; [|done]. cbn.
  destruct (replay p1 l _ _ _ _ _) as [[o p2]|] eqn:E'; [|done]. intros [= <- <-].
  eapply IH; [|done|exact E']. eapply process_inner_ok; [exact Hok| |exact E]. by intros fp [= <-].
Qed.

Lemma foldl_evict_shrunk p l : shrunk p (foldl evict p l).
Proof.
  revert p. induction l as [|s l IH]; intros p; simpl; [done|].
  eapply shrunk_trans; [apply remove_pending_shrunk|apply IH].
Qed.

Lemma prune_ok V p now : pool_ok V p → pool_ok V (prune p now).
Proof.
  intros [Hx Hc Hs [Hp Hv]]. unfold prune. eapply pool_ok_shrunk; [|apply foldl_evict_shrunk].
  constructor; [by destruct Hx|by destruct Hc| |split; [done|]].
  - intros d rec. cbn [seen]. intros [Hd _]%map_lookup_filter_Some. by apply Hs.
  - intros d rec x. cbn [seen]. intros [Hd _]%map_lookup_filter_Some. by eapply Hv.
Qed.

Lemma gossip_step_ok V s s' :
  gossip_step V s s' → pool_ok V s.1 → Forall (token_ok V) s.2 →
  pool_ok V s'.1 ∧ Forall (token_ok V) s'.2.
Proof.
  destruct 1 as [p toks att now cs bs keys source d p' E|p toks root limit out remains p' E
    |p t toks toks' now cs bs keys d p' Hperm E|p toks root now cs bs keys out p' E|p toks now];
    simpl; intros Hok Htok.
  - split; [|done]. eapply process_inner_ok; [exact Hok| |exact E]. done.
  - destruct (take_authenticated_ok _ _ _ _ _ _ _ Hok E). split; [done|]. by apply Forall_app.
  - rewrite Hperm in Htok. apply Forall_cons in Htok as [Ht Htok]. split; [|done].
    eapply process_inner_ok; [exact Hok| |exact E]. by intros fp [= <-].
  - split; [|done]. unfold on_block in E.
    destruct (take_authenticated_waiting_on_limit _ _ _) as [[o r] p1] eqn:E1.
    destruct (take_authenticated_ok _ _ _ _ _ _ _ Hok E1). by eapply replay_ok.
  - split; [|done]. by apply prune_ok.
Qed.

(** C28: After any history of arrivals, releases, replays, block imports and pruning, the
    seven indexes of the pool are exactly what its pending entries say, all its caps
    hold, a duty has at most two accepted attestations with different contents, and
    every attestation accepted, pending or released passed signature verification under
    some registry (the one whose fingerprint a pending entry carries): a replay
    token is not a way around the signature. *)
Theorem pool_invariant V p toks :
  rtc (gossip_step V) (new, []) (p, toks) →
  indexes_exact p ∧ caps_hold p ∧ duty_records_ok p ∧ all_verified V p ∧ Forall (token_ok V) toks.
Proof.
  intros Hrun. assert (∀ s s', rtc (gossip_step V) s s' → pool_ok V s.1 → Forall (token_ok V) s.2 →
    pool_ok V s'.1 ∧ Forall (token_ok V) s'.2) as Hall.
  { induction 1 as [|x y z Hxy _ IH]; [done|]. intros Hok Ht.
    destruct (gossip_step_ok _ _ _ Hxy Hok Ht). auto. }
  destruct (Hall _ _ Hrun) as [[Hx Hc Hs Hv] Ht]; [apply pool_ok_new|constructor|]. auto.
Qed.

(** The pair an accepted attestation carries: the first on record for its duty, and itself. *)
Lemma candidate_pair p att ev :
  signing_root (att_data att) ∉ (default [] (seen p !! duty_of att)).*1 →
  (λ x : hash * Attestation, Slashing.mkEvidence x.2 att) <$> hd_error (default [] (seen p !! duty_of att)) = Some ev →
  Slashing.ev_second ev = att ∧
  ∃ h later, seen p !! duty_of att = Some ((h, Slashing.ev_first ev) :: later) ∧ h ≠ signing_root (att_data att) ∧
    (duty_records_ok p → duty_of (Slashing.ev_first ev) = duty_of att ∧
       signing_root (att_data (Slashing.ev_first ev)) ≠ signing_root (att_data att)).
Proof.
  destruct (seen p !! duty_of att) as [[|[h a] later]|] eqn:E; cbn; intros Hns [= <-]. cbn. split; [done|].
  assert (h ≠ signing_root (att_data att)) as Hne by (intros ->; apply Hns; left).
  exists h, later. split_and!; [done|done|]. intros Hok. destruct (Hok _ _ E) as (_ & _ & _ & Hall).
  apply Forall_cons in Hall as [[Hh Hd] _]. cbn in *. split; [done|congruence].
Qed.

(** C29: What each decision rests on.  A rejection has one of three causes: checkpoints
    out of order, a validator outside the slot's committee, or a signature that fails under
    the key in force, static or evolving (and was not checked before under the same
    fingerprint).  Rejected and ignored messages leave the pool as it was; a held one names
    a block that is indeed unknown; an accepted one is in the window, from a committee
    member, with both its blocks known, and is recorded after the earlier ones of its duty.
    It carries a pair exactly when there are earlier ones: the first of them and itself,
    which, in a pool whose records are sound ([duty_records_ok], part of the pool's
    invariant), are of the same slot and validator and have different contents. *)
Theorem decisions_justified V p att now committees blocks keys source tok d p' :
  process_inner p att now committees blocks V keys source tok = Some (d, p') →
  let dt := att_data att in
  match d with
  | Reject r =>
      p' = p ∧
      ((r = NonMonotonicCheckpoints ∧ target_epoch dt ≤ source_epoch dt) ∨
       (r = NotInCommittee ∧ binary_search (committees (slot dt)) (att_validator att) = false) ∨
       (r = BadSignature ∧ authentic V keys att = false ∧
        ∃ fp, Kes.authority_fingerprint keys (att_validator att) (target_epoch dt) = Some fp ∧ tok ≠ Some fp))
  | Ignore _ => p' = p
  | Hold root => blocks root = false ∧ (root = head dt ∨ root = target_root dt) ∧ seen p' = seen p
  | Accept candidate =>
      in_window now (slot dt) = true ∧ source_epoch dt < target_epoch dt ∧
      binary_search (committees (slot dt)) (att_validator att) = true ∧
      blocks (head dt) = true ∧ blocks (target_root dt) = true ∧
      pending p' = pending p ∧
      accepted_hashes p' (slot dt) (att_validator att)
        = accepted_hashes p (slot dt) (att_validator att) ++ [signing_root dt] ∧
      (candidate = None ↔ accepted_hashes p (slot dt) (att_validator att) = []) ∧
      (∀ ev, candidate = Some ev →
         Slashing.ev_second ev = att ∧
         ∃ h later, seen p !! duty_of att = Some ((h, Slashing.ev_first ev) :: later) ∧ h ≠ signing_root dt ∧
           (duty_records_ok p →
              duty_of (Slashing.ev_first ev) = duty_of att ∧
              signing_root (att_data (Slashing.ev_first ev)) ≠ signing_root dt))
  end.
Proof.
  intros Hp dt. pose proof (process_inner_cases _ _ _ _ _ _ _ _ _ _ _ Hp) as Hc.
  destruct Hc as [[-> [[r ->]|[r ->]]]|(fp & Hfp & _ & _ & Hns & _ & Hbs & Hw & Hm & Hc)]; [done| |].
  - split; [done|]. unfold process_inner in Hp. fold dt in Hp.
    destruct (_ || _); [done|]. destruct (target_epoch dt <=? source_epoch dt) eqn:Ete.
    { simplify_eq. left. split; [done|lia]. }
    destruct (existsb _ _); [done|]. destruct (MAX_EQUIVOCATIONS_PER_DUTY <=? _); [done|].
    destruct (bool_decide _); [done|]. destruct (binary_search _ _) eqn:Ebs; cbn [negb] in Hp;
      [|simplify_eq; eauto].
    destruct (Kes.authority_fingerprint _ _ _) as [fp|] eqn:Efp; [|done].
    destruct (mbind _ _); [done|].
    destruct (negb _ && negb _) eqn:Ea.
    + simplify_eq. right; right. apply andb_true_iff in Ea as [E1%negb_true_iff E2%negb_true_iff].
      apply bool_decide_eq_false in E1. eauto.
    + destruct (first_missing _ _) as [root|]; [|done]. by apply hold_held in Hp as [? _].
  - destruct Hc as [(root & Hmiss & -> & _ & ->)|(Hmiss & -> & ->)].
    + unfold first_missing in Hmiss. apply find_some in Hmiss as [Hin Hb%negb_true_iff].
      split_and!; [done|simpl in Hin; naive_solver|]. cbn [held seen]. apply make_room_shrunk.
    + unfold first_missing in Hmiss. simpl in Hmiss. fold dt in Hmiss.
      destruct (blocks (head dt)), (blocks (target_root dt)); try done. simpl.
      unfold accepted_hashes, duty_of. cbn [seen]. rewrite lookup_insert_eq. simpl.
      split_and!; try done.
      * destruct (seen p !! _); simpl; [by rewrite fmap_app|done].
      * destruct (seen p !! _) as [[|[h a] rec]|]; simpl; done || naive_solver.
      * intros ev Hev. by apply candidate_pair in Hev.
Qed.

(** The remaining steps when every check passes and both blocks are known. *)
Lemma process_inner_accepts V p att now committees blocks keys source tok fp :
  in_window now (slot (att_data att)) = true → source_epoch (att_data att) < target_epoch (att_data att) →
  signing_root (att_data att) ∉ (default [] (seen p !! duty_of att)).*1 →
  Z.of_nat (length (default [] (seen p !! duty_of att))) < MAX_EQUIVOCATIONS_PER_DUTY →
  seen_key att ∉ pending_keys p →
  binary_search (committees (slot (att_data att))) (att_validator att) = true →
  Kes.authority_fingerprint keys (att_validator att) (target_epoch (att_data att)) = Some fp →
  (tok = Some fp ∨ authentic V keys att = true) →
  first_missing blocks (att_data att) = None →
  ∃ p', process_inner p att now committees blocks V keys source tok
        = Some (Accept ((λ x, Slashing.mkEvidence x.2 att) <$> hd_error (default [] (seen p !! duty_of att))), p') ∧
    seen p' = <[duty_of att := default [] (seen p !! duty_of att)
                                ++ [(signing_root (att_data att), att)]]> (seen p) ∧
    pending p' = pending p.
Proof.
  intros Hw Hm Hseen Hlen Hkey Hbs Hfp Hauth Hmiss. unfold process_inner.
  unfold in_window in Hw. apply negb_true_iff in Hw. rewrite Hw.
  rewrite (proj2 (Z.leb_gt _ _)) by done.
  destruct (existsb _ _) eqn:E.
  { exfalso. apply Hseen. apply existsb_exists in E as (x & Hx & Ex%Z.eqb_eq). rewrite <-Ex.
    apply list_elem_of_fmap_2. by apply list_elem_of_In. }
  rewrite (proj2 (Z.leb_gt _ _)) by done. rewrite bool_decide_eq_false_2 by done.
  rewrite Hbs, Hfp, Hmiss. cbn [negb mbind option_bind].
  assert (negb (bool_decide (tok = Some fp)) && negb (authentic V keys att) = false) as ->.
  { destruct Hauth as [->| ->]; [by rewrite bool_decide_eq_true_2|apply andb_false_r]. }
  eexists. split; [done|]. done.
Qed.

Lemma ascending_singleton x : ascending {[x]} = [x].
Proof. unfold ascending. by rewrite elements_singleton. Qed.

(** An attestation that outruns its block loses nothing.  If it is held, and the block
    is then imported, the import releases it to the decision it would have had if
    the block had come first: it is accepted, with the same slashing candidate, and leaves the
    same accepted records and the same pending entries.  (For a pool with room, and
    no other vote waiting for that block.) *)
Theorem race_converges V p att now now' committees blocks blocks' keys source root p1 :
  pool_ok V p → Z.of_nat (size (pending p)) < MAX_PENDING_ATTESTATIONS →
  waiting (pending p) root = ∅ →
  process_from_source p att now committees blocks V keys source = Some (Hold root, p1) →
  in_window now' (slot (att_data att)) = true →
  blocks' (head (att_data att)) = true → blocks' (target_root (att_data att)) = true →
  ∃ c p2 p3,
    on_block p1 root now' committees blocks' V keys = Some ([(att, Accept c)], p2) ∧
    process_from_source p att now' committees blocks' V keys source = Some (Accept c, p3) ∧
    seen p2 = seen p3 ∧ pending p2 = pending p3 ∧ pending p3 = pending p.
Proof.
  intros Hok Hroom Hwait Hhold Hw Hb1 Hb2. unfold process_from_source in *.
  assert (first_missing blocks' (att_data att) = None) as Hmiss
    by (unfold first_missing; simpl; by rewrite Hb1, Hb2).
  pose proof (process_inner_ok _ _ _ _ _ _ _ _ None _ _ Hok ltac:(done) Hhold) as Hok1.
  apply process_inner_cases in Hhold as [[_ [[? ?]|[? ?]]]|
    (fp & Hfp & Hauth & Hkey & Hseen & Hlen & Hbs & _ & Hm & Hc)]; [done|done|].
  destruct Hauth as [?|Hauth]; [done|].
  destruct Hc as [(r & _ & [= <-] & _ & Hp1)|(_ & ? & _)]; [|done].
  assert (make_room (S (size (pending p))) p = p) as Hmr
    by (simpl; by rewrite (proj2 (Z.leb_gt _ _)) by done).
  rewrite Hmr in Hp1. set (e := mkPending att root source fp) in *.
  destruct (process_inner_accepts V p att now' committees blocks' keys source None fp)
    as (p3 & E3 & Hs3 & Hp3); [done..|by right|done|].
  (* releasing the entry *)
  pose proof (remove_pending_main p1 (next_seq p)) as Hrm.
  pose proof (remove_pending_exact p1 (next_seq p) (pok_exact _ _ Hok1)) as Hxr.
  assert (pending p !! next_seq p = None) as Hfresh.
  { destruct (pending p !! next_seq p) eqn:E; [|done]. exfalso.
    assert (next_seq p < next_seq p) by (apply (ix_seq p (pok_exact _ _ Hok)); eauto). lia. }
  assert (pending p1 = <[next_seq p := e]> (pending p)) as Hpend by (by rewrite Hp1).
  assert (pending_by_root p1 !! root = Some {[next_seq p]}) as Hbr.
  { rewrite (ix_root p1 (pok_exact _ _ Hok1)), Hpend, waiting_insert_eq by done.
    rewrite (decide_True (P := missing_root e = root)) by done. rewrite Hwait.
    rewrite decide_False by set_solver. f_equal. set_solver. }
  destruct (remove_pending p1 (next_seq p)) as [e' pr] eqn:Erm. destruct Hrm as (He' & Hsr & Hpr & _).
  rewrite Hpend, lookup_insert_eq in He'. subst e'.
  rewrite Hpend, delete_insert_id in Hpr by done. simpl in Hxr.
  assert (seen pr = seen p) as Hsr' by (rewrite Hsr, Hp1; done).
  assert (seen_key att ∉ pending_keys pr) as Hkr.
  { intros Hin. apply (ix_keys pr Hxr) in Hin as (s & e1 & He1 & Hk1). rewrite Hpr in He1.
    apply Hkey. apply (ix_keys p (pok_exact _ _ Hok)). eauto. }
  destruct (process_inner_accepts V pr att now' committees blocks' keys source (Some fp) fp)
    as (p2 & E2 & Hs2 & Hp2); rewrite ?Hsr'; [done..|by left|done|].
  eexists _, p2, p3. split_and!; [|exact E3| | |done].
  - unfold on_block, take_authenticated_waiting_on_limit. rewrite Hbr.
    cbn [from_option id]. rewrite size_singleton, ascending_singleton. cbn [take take_seqs].
    rewrite Erm. cbn [pe_att verification_source verified_pubkey_sha3 e replay].
    unfold process_authenticated_pending. cbn [ap_att ap_source ap_pubkey_sha3]. rewrite E2, Hsr'. done.
  - by rewrite Hs2, Hs3, Hsr'.
  - by rewrite Hp2, Hp3.
Qed.

End pool.

(** ** Witnesses *)

(** A stand-in for SHA3-256; signatures are accepted when they repeat the key. *)
Definition ex_sha : Sha3 := λ l, foldl (λ a x, (a * 263 + x + 1) `mod` 2 ^ 256) 0 l.
Definition ex_verifier : SignatureVerifier :=
  default_verifier (λ pk _ sg, bool_decide (pk = sg)) (λ k _ _ sg, bool_decide ([kes_root k] = sg)).
Definition ex_keys : KeyLookup := static_lookup (λ v, Some [v]).
Definition ex_att (sl hd src tgt : Z) : Attestation :=
  mkAttestation (mkAttData sl hd src 0 tgt 50) 3 [3].
Definition ex_committees (sl : Z) : list Z := [1; 3; 8].
Definition ex_known (root : hash) : bool := root =? 50.
Definition ex_all (root : hash) : bool := true.

Definition ex_pool : AttestationPool :=
  from_option snd new (process_from_source (H := ex_sha) (G := mainnet) new (ex_att 70 9 1 2) 71
                         ex_committees ex_known ex_verifier ex_keys (Some 4)).

Lemma ex_step : gossip_step (H := ex_sha) (G := mainnet) ex_verifier (new, []) (ex_pool, []).
Proof.
  apply (gs_process _ _ _ (ex_att 70 9 1 2) 71 ex_committees ex_known ex_keys (Some 4) (Hold 9)).
  vm_compute. reflexivity.
Qed.

Lemma pool_invariant_witness :
  pending_len ex_pool = 1 ∧ indexes_exact (H := ex_sha) ex_pool ∧ caps_hold ex_pool.
Proof.
  split; [vm_compute; reflexivity|].
  destruct (pool_invariant (H := ex_sha) (G := mainnet) ex_verifier ex_pool [] (rtc_once _ _ ex_step))
    as (H1 & H2 & _). split; [exact H1|exact H2].
Defined.

Lemma decisions_justified_witness :
  ∃ p', process_inner (H := ex_sha) (G := mainnet) new (ex_att 70 9 2 2) 71 ex_committees ex_known
          ex_verifier ex_keys None None = Some (Reject NonMonotonicCheckpoints, p') ∧ p' = new.
Proof.
  eexists. split; [vm_compute; reflexivity|].
  eapply (proj1 (decisions_justified (H := ex_sha) (G := mainnet) ex_verifier new (ex_att 70 9 2 2) 71
    ex_committees ex_known ex_keys None None (Reject NonMonotonicCheckpoints) new eq_refl)).
Defined.

Lemma race_converges_witness :
  ∃ c p2 p3,
    on_block (H := ex_sha) (G := mainnet) ex_pool 9 72 ex_committees ex_all ex_verifier ex_keys
      = Some ([(ex_att 70 9 1 2, Accept c)], p2) ∧
    process_from_source (H := ex_sha) (G := mainnet) new (ex_att 70 9 1 2) 72 ex_committees ex_all
      ex_verifier ex_keys (Some 4) = Some (Accept c, p3) ∧
    seen p2 = seen p3 ∧ pending p2 = pending p3 ∧ pending p3 = pending new.
Proof.
  apply (race_converges (H := ex_sha) (G := mainnet) ex_verifier new (ex_att 70 9 1 2) 71 72 ex_committees
    ex_known ex_all ex_keys (Some 4) 9 ex_pool).
  - apply pool_ok_new.
  - vm_compute. reflexivity.
  - vm_compute. reflexivity.
  - vm_compute. reflexivity.
  - vm_compute. reflexivity.
  - reflexivity.
  - reflexivity.
Defined.

(** ** The reuse test looks at another epoch than the verification *)

Definition ex_gates : Gates :=
  {| LEAK_RECOVERY_ACTIVATION_EPOCH := 0; ETH_PACED_LEAK_ACTIVATION_EPOCH := 0;
     HF1_OWN_TARGET_VOTES_EPOCH := 0; HF1_FROZEN_FINALITY_SET_EPOCH := 0;
     NATIVE_FINALITY_SET_RECOVERY_EPOCHS := []; SLASHING_EVIDENCE_ACTIVATION_EPOCH := 0;
     SLASHING_ECONOMICS_V2_ACTIVATION_EPOCH := 0; SIG_CANONICAL_ACTIVATION_EPOCH := 0;
     MLDSA_PIN_ACTIVATION_EPOCH := 0; BLOCK_BYTES_V2_ACTIVATION_EPOCH := 0; HF3_SLH_SUITE_EPOCH := 0;
     KES_REGISTRATION_EPOCH := 0; KES_ACTIVATION_EPOCH := 2 |}.

(** The same registry before and after validator 3 registers another evolving key. *)
Definition ex_kes_keys (root : hash) : KeyLookup :=
  mkKeyLookup (λ v, Some [v]) (λ _ _, Some (mkKesPublic 4 root 0)) (Some 1) (Some (Some 0)).

Definition ex_late : Attestation := mkAttestation (mkAttData 70 9 0 0 1 50) 3 [7].

(** A vote of slot 70 (epoch 2, where the evolving key signs) for target epoch 1 (where the
    static key does) is held after verification under the first registry.  When its
    block arrives the second registry is in force, under which the vote does not verify;
    the replay accepts it all the same, because the fingerprint it compares is that
    of the target epoch. *)
Theorem stale_authority_accepted :
  let arrival := process (H := ex_sha) (G := ex_gates) new ex_late 71 ex_committees ex_known
                   ex_verifier (ex_kes_keys 7) in
  fst <$> arrival = Some (Hold 9) ∧
  authentic (H := ex_sha) (G := ex_gates) ex_verifier (ex_kes_keys 8) ex_late = false ∧
  fst <$> on_block (H := ex_sha) (G := ex_gates) (from_option snd new arrival) 9 72 ex_committees ex_all
            ex_verifier (ex_kes_keys 8) = Some [(ex_late, Accept None)].
Proof. split_and!; vm_compute; reflexivity. Qed.

End Gossip.
