(* ===== verification/Ws.v ===== *)
(** * Weak-subjectivity checkpoints

    Models [crates/bloch-pos-committee/src/ws.rs]: the checkpoint and its digest, the
    signer set and the verification of a signed envelope, which checkpoint a node
    keeps, and what it does at boot.  Signature verification is the parameter of
    [Staking.verify_hybrid].  Signer indices are bytes. *)

From S2P Require Import Prelude Bytes Params Types Delegation Staking Finality.
Local Open Scope Z_scope.

Module Ws.
Import Bytes Params Types Staking.

Definition WS_PERIOD_EPOCHS : Z := WITHDRAWAL_DELAY_EPOCHS - EXIT_DELAY_EPOCHS.
Definition WS_FRESH_EPOCHS : Z := WS_PERIOD_EPOCHS / 2.
Definition WS_PUBLICATION_INTERVAL_EPOCHS : Z := 256.
Definition EPOCHS_PER_DAY : Z := 86400 / (SLOT_DURATION_SECS * SLOTS_PER_EPOCH).
Definition WS_ARRANGEMENT_REVIEW_EPOCHS : Z := 365 * EPOCHS_PER_DAY.
Definition WS_ARRANGEMENT_GRACE_EPOCHS : Z := 91 * EPOCHS_PER_DAY.
Definition WS_FORMAT_VERSION : Z := 1.
Definition WS_PHASE_A_THRESHOLD : nat := 2.
Definition WS_PHASE_A_SIGNERS : nat := 3.
Definition WS_PHASE_A_MIN_EXTERNAL : nat := 1.
Definition WS_PHASE_B_THRESHOLD : nat := 3.
Definition WS_PHASE_B_SIGNERS : nat := 5.
Definition WS_PHASE_B_MIN_EXTERNAL : nat := 2.
Definition WS_GENESIS_SIGNER_SET_ID : Z := 0.

Definition is_publication_epoch (epoch : Z) : bool :=
  epoch `mod` WS_PUBLICATION_INTERVAL_EPOCHS =? 0.

Definition wallclock_epoch (genesis_unix now_unix : Z) : Z :=
  saturating_sub now_unix genesis_unix / (SLOT_DURATION_SECS * SLOTS_PER_EPOCH).

Record WeakSubjectivityCheckpoint := mkWs {
  version : Z;
  network_id : Z;
  genesis_root : hash;
  ws_epoch : Z;
  block_root : hash;
  state_root : hash;
  validator_set_root : hash;
  issued_at : Z;
  signer_set_id : Z;
}.

Definition canonical_serialize (cp : WeakSubjectivityCheckpoint) : list Z :=
  le_bytes 2 (version cp) ++ le_bytes 4 (network_id cp) ++ hash_bytes (genesis_root cp)
  ++ le_bytes 8 (ws_epoch cp) ++ hash_bytes (block_root cp) ++ hash_bytes (state_root cp)
  ++ hash_bytes (validator_set_root cp) ++ le_bytes 8 (issued_at cp) ++ le_bytes 4 (signer_set_id cp).

Definition as_finality_checkpoint (cp : WeakSubjectivityCheckpoint) : Checkpoint :=
  mkCheckpoint (ws_epoch cp) (block_root cp).

Definition anchor (cp : WeakSubjectivityCheckpoint) : Finality.FinalityState :=
  Finality.new (as_finality_checkpoint cp).

(** ** Signer sets *)

Record Signer := mkSigner { signer_pubkey : list Z; external : bool }.

Record SignerSet := mkSet {
  set_id : Z;
  signers : list Signer;
  threshold : nat;
  min_external : nat;
  adopted_epoch : Z;
}.

Definition review_deadline (set : SignerSet) : Z :=
  saturating_add u64_MAX (adopted_epoch set) WS_ARRANGEMENT_REVIEW_EPOCHS.
Definition hard_stop (set : SignerSet) : Z :=
  saturating_add u64_MAX (review_deadline set) WS_ARRANGEMENT_GRACE_EPOCHS.

Definition count_external (l : list Signer) : nat := length (filter (λ s, external s = true) l).

Definition matches_policy (set : SignerSet) (t n me : nat) : bool :=
  (threshold set =? t)%nat && (length (signers set) =? n)%nat && (min_external set =? me)%nat
  && (me <=? count_external (signers set))%nat
  && (threshold set <=? length (signers set))%nat && (min_external set <=? threshold set)%nat.

Record CheckpointEnvelope := mkEnvelope {
  checkpoint : WeakSubjectivityCheckpoint;
  signatures : list (Z * list Z);
}.

Inductive EnvelopeReject :=
| WrongVersion (got : Z)
| WrongNetwork (got expected : Z)
| WrongGenesisRoot
| WrongSignerSet (got expected : Z)
| ReservedSignerSet
| ArrangementExpired (hard_stop_epoch : Z)
| UnknownSignerIndex (index : Z)
| DuplicateSigner (index : Z)
| DuplicateSignerKey (first second : nat)
| QuorumNotReached (got need : nat)
| ExternalQuorumNotReached (got need : nat)
| BadSignature (index : Z)
| SignerSetShapeMismatch (t n me : nat).

Record EnvelopeOk := mkEnvelopeOk { arrangement_past_review : bool }.

(** The first [second] whose key occurs before it, scanning with the prefix in [before]. *)
Fixpoint duplicate_key (before after : list Signer) : option (nat * nat) :=
  match after with
  | [] => None
  | s :: after =>
      match list_find (λ s', signer_pubkey s' = signer_pubkey s) before with
      | Some (first, _) => Some (first, length before)
      | None => duplicate_key (before ++ [s]) after
      end
  end.

(** The loop over the listed indices, [seen] as a set. *)
Fixpoint check_indices (n : nat) (seen : gset Z) (sigs : list (Z * list Z))
    : result EnvelopeReject unit :=
  match sigs with
  | [] => Ok tt
  | (index, _) :: sigs =>
      if (n <=? Z.to_nat index)%nat then Err (UnknownSignerIndex index)
      else if bool_decide (index ∈ seen) then Err (DuplicateSigner index)
      else check_indices n ({[index]} ∪ seen) sigs
  end.

Definition signer_at (set : SignerSet) (index : Z) : option Signer := signers set !! Z.to_nat index.

Definition external_at (set : SignerSet) (index : Z) : bool :=
  from_option external false (signer_at set index).

Section hashed.
Context `{Sha3}.

Definition ws_digest (cp : WeakSubjectivityCheckpoint) : hash :=
  sha3_256 (DS_WSCKPT ++ canonical_serialize cp).

(** Indexing past the end would panic; [check_indices] has excluded it. *)
Fixpoint check_envelope_signatures (set : SignerSet) (digest : hash) (v : HybridKeyVerifier)
    (sigs : list (Z * list Z)) : option (result EnvelopeReject unit) :=
  match sigs with
  | [] => Some (Ok tt)
  | (index, sg) :: sigs =>
      signer ← signer_at set index;
      if negb (verify_hybrid (signer_pubkey signer) digest sg v) then Some (Err (BadSignature index))
      else check_envelope_signatures set digest v sigs
  end.

Definition verify_envelope (env : CheckpointEnvelope) (set : SignerSet) (expected_network_id : Z)
    (expected_genesis_root : hash) (v : HybridKeyVerifier)
    : option (result EnvelopeReject EnvelopeOk) :=
  let n := length (signers set) in
  if (threshold set =? 0)%nat || (256 <? n)%nat || (n <? threshold set)%nat
     || (threshold set <? min_external set)%nat
     || (count_external (signers set) <? min_external set)%nat
  then Some (Err (SignerSetShapeMismatch (threshold set) n (min_external set)))
  else
    match duplicate_key [] (signers set) with
    | Some (first, second) => Some (Err (DuplicateSignerKey first second))
    | None =>
        let cp := checkpoint env in
        if negb (version cp =? WS_FORMAT_VERSION) then Some (Err (WrongVersion (version cp)))
        else if negb (network_id cp =? expected_network_id) then
          Some (Err (WrongNetwork (network_id cp) expected_network_id))
        else if negb (genesis_root cp =? expected_genesis_root) then Some (Err WrongGenesisRoot)
        else if (signer_set_id cp =? WS_GENESIS_SIGNER_SET_ID) || (set_id set =? WS_GENESIS_SIGNER_SET_ID)
        then Some (Err ReservedSignerSet)
        else if negb (signer_set_id cp =? set_id set) then
          Some (Err (WrongSignerSet (signer_set_id cp) (set_id set)))
        else if hard_stop set <? ws_epoch cp then Some (Err (ArrangementExpired (hard_stop set)))
        else
          match check_indices n ∅ (signatures env) with
          | Err e => Some (Err e)
          | Ok _ =>
              if (length (signatures env) <? threshold set)%nat then
                Some (Err (QuorumNotReached (length (signatures env)) (threshold set)))
              else
                let external_listed := length (filter (λ x, external_at set x.1 = true) (signatures env)) in
                if (external_listed <? min_external set)%nat then
                  Some (Err (ExternalQuorumNotReached external_listed (min_external set)))
                else
                  r ← check_envelope_signatures set (ws_digest cp) v (signatures env);
                  match r with
                  | Err e => Some (Err e)
                  | Ok _ => Some (Ok (mkEnvelopeOk (review_deadline set <? ws_epoch cp)))
                  end
          end
    end.

Definition verify_envelope_with_shape_policy (env : CheckpointEnvelope) (set : SignerSet)
    (expected_network_id : Z) (expected_genesis_root : hash) (v : HybridKeyVerifier) (t n me : nat)
    : option (result EnvelopeReject EnvelopeOk) :=
  if negb (matches_policy set t n me) then Some (Err (SignerSetShapeMismatch t n me))
  else verify_envelope env set expected_network_id expected_genesis_root v.

(** ** Which checkpoint is kept *)

Inductive Acceptance := Store | IgnoreCheckpoint | Conflict.

Definition accept (stored : option WeakSubjectivityCheckpoint) (incoming : WeakSubjectivityCheckpoint)
    : Acceptance :=
  match stored with
  | None => Store
  | Some s =>
      if ws_epoch s <? ws_epoch incoming then Store
      else if ws_epoch incoming <? ws_epoch s then IgnoreCheckpoint
      else if ws_digest incoming =? ws_digest s then IgnoreCheckpoint
      else Conflict
  end.

End hashed.

(** ** Boot *)

Inductive BootDecision := RequireCheckpoint | Resume | ResumeStaleWarn | RefuseStale.

Definition boot_decision (has_local_finality : bool) (age_epochs : Z) : BootDecision :=
  if negb has_local_finality then RequireCheckpoint
  else if age_epochs <? WS_FRESH_EPOCHS then Resume
  else if age_epochs <? WS_PERIOD_EPOCHS then ResumeStaleWarn
  else RefuseStale.

Inductive Reconciliation :=
| ContinueForward
| HaltForOperator (local_finalized_root checkpoint_root : hash).

Definition reconcile (cp : WeakSubjectivityCheckpoint) (local_finalized_root : hash)
    (checkpoint_descends_local : bool) : Reconciliation :=
  if checkpoint_descends_local || (block_root cp =? local_finalized_root) then ContinueForward
  else HaltForOperator local_finalized_root (block_root cp).

Inductive CrossCheck :=
| Consistent
| AheadOfLocal
| CrossConflict (local_root published_root : hash).

Definition cross_check (local_root_at_epoch : option hash) (published : WeakSubjectivityCheckpoint)
    : CrossCheck :=
  match local_root_at_epoch with
  | None => AheadOfLocal
  | Some root =>
      if root =? block_root published then Consistent else CrossConflict root (block_root published)
  end.

Definition genesis_anchor (network : Z) (genesis state validators : hash) (issued : Z)
    : WeakSubjectivityCheckpoint :=
  mkWs WS_FORMAT_VERSION network genesis 0 genesis state validators issued WS_GENESIS_SIGNER_SET_ID.

(** ** What an accepted envelope shows *)

Lemma duplicate_key_None before after :
  NoDup (signer_pubkey <$> before) →
  duplicate_key before after = None ↔ NoDup (signer_pubkey <$> before ++ after).
Proof.
  revert before. induction after as [|s after IH]; intros before Hb; cbn [duplicate_key].
  { by rewrite app_nil_r. }
  destruct (list_find _ before) as [[i s']|] eqn:E.
  - apply list_find_Some in E as (Hi & Hs & _). split; [done|]. rewrite fmap_app. cbn [fmap list_fmap].
    rewrite NoDup_app. intros (_ & Hn & _). exfalso. apply (Hn (signer_pubkey s)).
    + rewrite <- Hs. apply list_elem_of_fmap_2. by eapply list_elem_of_lookup_2.
    + left.
  - apply list_find_None in E. rewrite IH.
    + by rewrite <- app_assoc.
    + rewrite fmap_app, NoDup_app. split; [done|]. split; [|apply NoDup_singleton].
      intros k (s' & -> & Hs')%list_elem_of_fmap Hk. apply list_elem_of_singleton in Hk.
      rewrite Forall_forall in E. by apply (E s').
Qed.

Lemma check_indices_Ok n seen sigs u :
  check_indices n seen sigs = Ok u ↔
  Forall (λ i, (Z.to_nat i < n)%nat ∧ i ∉ seen) sigs.*1 ∧ NoDup sigs.*1.
Proof.
  destruct u. revert seen. induction sigs as [|[i sg] sigs IH]; intros seen; cbn [check_indices fmap list_fmap fst].
  { split; [|done]. intros _. split; constructor. }
  rewrite NoDup_cons, Forall_cons. destruct (Nat.leb_spec n (Z.to_nat i)); [split; [done|lia]|].
  case_bool_decide as Hs; [split; [done|naive_solver]|]. rewrite IH.
  rewrite !Forall_forall. set_solver.
Qed.

Section accepted.
Context `{Sha3}.

Lemma check_envelope_signatures_spec set digest v sigs :
  Forall (λ i, is_Some (signer_at set i)) sigs.*1 →
  is_Some (check_envelope_signatures set digest v sigs) ∧
  ∀ u, check_envelope_signatures set digest v sigs = Some (Ok u) ↔
    Forall (λ x, ∃ s, signer_at set x.1 = Some s ∧
              verify_hybrid (signer_pubkey s) digest x.2 v = true) sigs.
Proof.
  induction sigs as [|[i sg] sigs IH]; cbn [check_envelope_signatures fmap list_fmap fst].
  { intros _. split; [eauto|]. intros []. split; constructor. }
  rewrite Forall_cons. intros [[s Hs] Hr]. destruct (IH Hr) as [IH1 IH2]. rewrite Hs. cbn [mbind option_bind].
  destruct (verify_hybrid (signer_pubkey s) digest sg v) eqn:E; cbn [negb].
  - split; [done|]. intros u. rewrite IH2, Forall_cons. cbn [fst snd].
    split; [by eauto|]. by intros [_ ?].
  - split; [eauto|]. intros u. split; [done|]. rewrite Forall_cons. cbn [fst snd].
    intros [(s' & Hs' & Hv) _]. rewrite Hs in Hs'. injection Hs' as <-. by rewrite E in Hv.
Qed.

(** The conditions under which an envelope is accepted. *)
Record accepted (env : CheckpointEnvelope) (set : SignerSet) (net : Z) (genesis : hash)
    (v : HybridKeyVerifier) : Prop := {
  acc_threshold : (0 < threshold set ≤ length (signers set))%nat;
  acc_size : (length (signers set) ≤ 256)%nat;
  acc_min : (min_external set ≤ threshold set ∧ min_external set ≤ count_external (signers set))%nat;
  acc_keys : NoDup (signer_pubkey <$> signers set);
  acc_version : version (checkpoint env) = WS_FORMAT_VERSION;
  acc_network : network_id (checkpoint env) = net;
  acc_genesis : genesis_root (checkpoint env) = genesis;
  acc_set : signer_set_id (checkpoint env) = set_id set ∧ set_id set ≠ WS_GENESIS_SIGNER_SET_ID;
  acc_epoch : ws_epoch (checkpoint env) ≤ hard_stop set;
  acc_distinct : NoDup (signatures env).*1;
  acc_quorum : (threshold set ≤ length (signatures env))%nat;
  acc_external : (min_external set ≤ length (filter (λ x, external_at set x.1 = true) (signatures env)))%nat;
  acc_signed : Forall (λ x, ∃ s, signer_at set x.1 = Some s ∧
    verify_hybrid (signer_pubkey s) (ws_digest (checkpoint env)) x.2 v = true) (signatures env);
}.

Lemma verify_envelope_total env set net genesis v : is_Some (verify_envelope env set net genesis v).
Proof.
  unfold verify_envelope. case_goal as E; [by eexists|].
  destruct (duplicate_key _ _) as [[]|]; [by eexists|]. do 6 (case_goal; [by eexists|]).
  destruct (check_indices _ _ _) as [u|e] eqn:Ei; [|by eexists]. do 2 (case_goal; [by eexists|]).
  apply check_indices_Ok in Ei as [Hi _].
  edestruct (check_envelope_signatures_spec set (ws_digest (checkpoint env)) v (signatures env)) as [[r ->] _].
  { apply (Forall_impl _ _ _ Hi). intros i [Hlt _]. by apply lookup_lt_is_Some. }
  destruct r; by eexists.
Qed.

Lemma verify_envelope_Ok env set net genesis v ok :
  verify_envelope env set net genesis v = Some (Ok ok) ↔
  accepted env set net genesis v ∧
  ok = mkEnvelopeOk (review_deadline set <? ws_epoch (checkpoint env)).
Proof.
  assert (Hdup := duplicate_key_None [] (signers set) (NoDup_nil_2)). cbn [app] in Hdup.
  assert (Hidx := check_indices_Ok (length (signers set)) ∅ (signatures env) tt).
  assert (Hsigs := check_envelope_signatures_spec set (ws_digest (checkpoint env)) v (signatures env)).
  unfold verify_envelope. split.
  - case_goal as E; [done|]. rewrite !orb_false_iff, Nat.eqb_neq, !Nat.ltb_ge in E.
    destruct (duplicate_key _ _) as [[]|]; [done|].
    case_goal as E1; [done|]. case_goal as E2; [done|]. case_goal as E3; [done|].
    case_goal as E4; [done|]. case_goal as E5; [done|]. case_goal as E6; [done|].
    destruct (check_indices _ _ _) as [[]|]; [|done]. destruct Hidx as [[Hi Hn] _]; [done|].
    case_goal as E7; [done|]. case_goal as E8; [done|]. rewrite Nat.ltb_ge in E7, E8.
    destruct Hsigs as [_ Hs].
    { apply (Forall_impl _ _ _ Hi). intros i [Hlt _]. by apply lookup_lt_is_Some. }
    destruct (check_envelope_signatures _ _ _ _) as [[u|]|]; [|done|done].
    cbn [mbind option_bind]. intros [= <-]. split; [|done]. specialize (proj1 (Hs u) eq_refl) as Hf.
    constructor; try done; try lia; by apply Hdup.
  - intros [Ha ->]. destruct Ha.
    case_goal as E; [exfalso; rewrite !orb_true_iff, Nat.eqb_eq, !Nat.ltb_lt in E; lia|].
    rewrite (proj2 Hdup) by done.
    do 6 (case_goal; [exfalso; lia|]).
    assert (Forall (λ i, is_Some (signer_at set i)) (signatures env).*1) as Hsome.
    { apply Forall_fmap, (Forall_impl _ _ _ acc_signed0). intros x (s & Hs & _). by exists s. }
    rewrite (proj2 Hidx).
    2:{ split; [|done]. apply (Forall_impl _ _ _ Hsome). intros i Hi. split; [|set_solver].
        by apply lookup_lt_is_Some. }
    rewrite (proj2 (Nat.ltb_ge _ _)) by lia. rewrite (proj2 (Nat.ltb_ge _ _)) by lia.
    destruct (Hsigs Hsome) as [_ Hs]. by rewrite (proj2 (Hs tt)).
Qed.

(** C30: Verifying a checkpoint envelope never panics, whatever indices it lists.  It
    accepts exactly when the signer set is well shaped with pairwise distinct keys, the
    checkpoint has the expected version, network, genesis and (unreserved) signer set and
    is not past the arrangement's hard stop, the listed indices are distinct signers of
    the set, at least the threshold of them and at least the minimum of externals, and
    every one of the signatures verifies under its signer's key over the checkpoint's
    digest; the result flags a checkpoint past the review deadline. *)
Theorem envelope_acceptance env set net genesis v :
  is_Some (verify_envelope env set net genesis v) ∧
  ∀ ok, verify_envelope env set net genesis v = Some (Ok ok) ↔
    accepted env set net genesis v ∧
    ok = mkEnvelopeOk (review_deadline set <? ws_epoch (checkpoint env)).
Proof. split; [apply verify_envelope_total|]. intros ok. apply verify_envelope_Ok. Qed.

Lemma majority_intersect (n : nat) (l1 l2 : list nat) :
  NoDup l1 → NoDup l2 → Forall (λ i, i < n)%nat l1 → Forall (λ i, i < n)%nat l2 →
  (n < length l1 + length l2)%nat → ∃ i, i ∈ l1 ∧ i ∈ l2.
Proof.
  intros H1 H2 Hb1 Hb2 Hn. rewrite Forall_forall in Hb1, Hb2.
  destruct (decide (Exists (λ i, i ∈ l2) l1)) as [He|He]; [by apply Exists_exists in He|].
  exfalso. rewrite Exists_exists in He.
  assert (NoDup (l1 ++ l2)) as Hnd by (apply NoDup_app; split; [done|split; [set_solver|done]]).
  assert (l1 ++ l2 ⊆+ seq 0 n) as Hs.
  { apply NoDup_submseteq; [done|]. intros i Hi. apply elem_of_seq. set_solver by lia. }
  apply submseteq_length in Hs. rewrite length_app, length_seq in Hs. lia.
Qed.

Lemma accepted_indices env set net genesis v :
  accepted env set net genesis v → Forall (λ x, 0 ≤ x.1) (signatures env) →
  let l := (λ x, Z.to_nat x.1) <$> signatures env in
  NoDup l ∧ Forall (λ i, i < length (signers set))%nat l ∧ (threshold set ≤ length l)%nat.
Proof.
  intros [] Hpos l. unfold l. rewrite length_fmap. split; [|split; [|done]].
  - replace ((λ x, Z.to_nat x.1) <$> signatures env) with (Z.to_nat <$> (signatures env).*1)
      by (by rewrite <- list_fmap_compose). apply NoDup_fmap_2_strong; [|done].
    intros x y (a & -> & Ha)%list_elem_of_fmap (b & -> & Hb)%list_elem_of_fmap.
    rewrite Forall_forall in Hpos. pose proof (Hpos _ Ha). pose proof (Hpos _ Hb). lia.
  - apply Forall_fmap, (Forall_impl _ _ _ acc_signed0). intros x (s & Hs & _).
    by eapply lookup_lt_Some.
Qed.

(** Under a signer set whose threshold is a strict majority (both published policies,
    2 of 3 and 3 of 5, are), any two accepted envelopes have a signer in common: one key
    of the set, listed by both, under which its signature over each of the two digests verified.  Two
    conflicting checkpoints thus always come with a key that signed both. *)
Theorem conflicting_checkpoints env1 env2 set net genesis v ok1 ok2 :
  (length (signers set) < 2 * threshold set)%nat →
  Forall (λ x, 0 ≤ x.1) (signatures env1) → Forall (λ x, 0 ≤ x.1) (signatures env2) →
  verify_envelope env1 set net genesis v = Some (Ok ok1) →
  verify_envelope env2 set net genesis v = Some (Ok ok2) →
  ∃ i signer sig1 sig2, signer_at set i = Some signer ∧
    (i, sig1) ∈ signatures env1 ∧ (i, sig2) ∈ signatures env2 ∧
    verify_hybrid (signer_pubkey signer) (ws_digest (checkpoint env1)) sig1 v = true ∧
    verify_hybrid (signer_pubkey signer) (ws_digest (checkpoint env2)) sig2 v = true.
Proof.
  intros Hm Hp1 Hp2 [Ha1 _]%verify_envelope_Ok [Ha2 _]%verify_envelope_Ok.
  destruct (accepted_indices _ _ _ _ _ Ha1 Hp1) as (Hn1 & Hb1 & Ht1).
  destruct (accepted_indices _ _ _ _ _ Ha2 Hp2) as (Hn2 & Hb2 & Ht2).
  destruct (majority_intersect _ _ _ Hn1 Hn2 Hb1 Hb2) as (i & Hi1 & Hi2); [lia|].
  apply list_elem_of_fmap in Hi1 as (x1 & -> & Hx1). apply list_elem_of_fmap in Hi2 as (x2 & E & Hx2).
  destruct Ha1, Ha2. rewrite Forall_forall in acc_signed0, acc_signed1.
  destruct (acc_signed0 _ Hx1) as (s1 & Hs1 & Hv1). destruct (acc_signed1 _ Hx2) as (s2 & Hs2 & Hv2).
  unfold signer_at in Hs1, Hs2. rewrite E in Hs1. rewrite Hs1 in Hs2. injection Hs2 as <-.
  rewrite Forall_forall in Hp1, Hp2. pose proof (Hp1 _ Hx1). pose proof (Hp2 _ Hx2).
  destruct x1 as [i1 g1], x2 as [i2 g2]. cbn [fst snd] in *. assert (i1 = i2) as -> by lia.
  by exists i2, s1, g1, g2.
Qed.

End accepted.

(** The weak-subjectivity period leaves no validator unaccountable.  When a node whose
    finalized epoch is [local] boots at [now] and is allowed to resume, with or without
    the staleness warning, every validator that was on duty at the local finalized epoch
    is still inside its withdrawal delay (or has not exited): its stake cannot have been
    withdrawn under the rules, so a rewrite signed by the old set is still slashable. *)
Theorem resume_within_withdrawal (r : ValidatorRecord) local now :
  0 ≤ local ≤ now → now < u64_MAX → withdrawn r = false →
  boot_decision true (now - local) = Resume ∨ boot_decision true (now - local) = ResumeStaleWarn →
  assigned_duties_at r local = true →
  validate_withdrawal r now = Err NotExited ∨ validate_withdrawal r now = Err DelayNotElapsed.
Proof.
  intros Hl Hn Hw Hb Hd. assert (now - local < WS_PERIOD_EPOCHS) as Hage.
  { unfold boot_decision, WS_FRESH_EPOCHS in Hb. change WS_PERIOD_EPOCHS with 2016 in *. cbn [negb] in Hb.
    destruct (Z.ltb_spec (now - local) (2016 / 2)); [change (2016 / 2) with 1008 in *; lia|].
    destruct (Z.ltb_spec (now - local) 2016); [done|]. by destruct Hb. }
  change WS_PERIOD_EPOCHS with (2048 - 32) in Hage. unfold assigned_duties_at in Hd.
  unfold validate_withdrawal. destruct (exit_epoch r) as [x|]; [|by left]. rewrite Hw. right.
  unfold saturating_add, WITHDRAWAL_DELAY_EPOCHS, EXIT_DELAY_EPOCHS in *.
  by rewrite (proj2 (Z.ltb_lt _ _)) by lia.
Qed.

(** ** Witnesses *)

Local Instance ex_sha_ws : Sha3 := λ l, foldl (λ a x, (a * 263 + x + 1) `mod` 2 ^ 256) 0 l.

(** A verifier that accepts a signature whose first byte is the key's. *)
Definition ex_ws_verifier : HybridKeyVerifier :=
  {| verify_mldsa65 := λ pk _ sg, bool_decide (pk !! 0%nat = sg !! 0%nat);
     verify_falcon1024 := λ _ _ _, true |}.
Definition ex_set : SignerSet :=
  mkSet 1 [mkSigner [1] false; mkSigner [2] false; mkSigner [3] true] 2 1 0.
Definition ex_sig (index : Z) : list Z := (index + 1) :: replicate 3309 0.
Definition ex_ckpt (root : hash) : WeakSubjectivityCheckpoint := mkWs 1 7 5 256 root 0 0 0 1.
Definition ex_env (root : hash) (i j : Z) : CheckpointEnvelope :=
  mkEnvelope (ex_ckpt root) [(i, ex_sig i); (j, ex_sig j)].

(** Signers 0 and 2 (external) are enough, signers 0 and 1 are not. *)
Example envelope_acceptance_witness :
  accepted (ex_env 11 0 2) ex_set 7 5 ex_ws_verifier ∧
  verify_envelope (ex_env 11 0 1) ex_set 7 5 ex_ws_verifier = Some (Err (ExternalQuorumNotReached 0 1)).
Proof.
  destruct (envelope_acceptance (ex_env 11 0 2) ex_set 7 5 ex_ws_verifier) as [_ H].
  split; [|vm_compute; reflexivity]. apply (H (mkEnvelopeOk false)). vm_compute. reflexivity.
Defined.

(** Two conflicting checkpoints at one epoch: signer 2 is on both. *)
Example conflicting_checkpoints_witness :
  ∃ i signer sig1 sig2, signer_at ex_set i = Some signer ∧
    (i, sig1) ∈ signatures (ex_env 11 0 2) ∧ (i, sig2) ∈ signatures (ex_env 12 2 1) ∧
    verify_hybrid (signer_pubkey signer) (ws_digest (ex_ckpt 11)) sig1 ex_ws_verifier = true ∧
    verify_hybrid (signer_pubkey signer) (ws_digest (ex_ckpt 12)) sig2 ex_ws_verifier = true.
Proof.
  apply (conflicting_checkpoints (ex_env 11 0 2) (ex_env 12 2 1) ex_set 7 5 ex_ws_verifier
           (mkEnvelopeOk false) (mkEnvelopeOk false)).
  - vm_compute. lia.
  - repeat constructor; vm_compute; discriminate.
  - repeat constructor; vm_compute; discriminate.
  - vm_compute. reflexivity.
  - vm_compute. reflexivity.
Defined.

Definition ex_exited : ValidatorRecord :=
  mkRecord [] 77 0 (Some 10) 5 false.

(** Exit requested at epoch 10, last duties at 41; a node that finalized 41 and wakes up
    2015 epochs later may resume, and the stake is still locked. *)
Example resume_within_withdrawal_witness :
  boot_decision true (2056 - 41) = ResumeStaleWarn ∧
  (validate_withdrawal ex_exited 2056 = Err NotExited ∨
   validate_withdrawal ex_exited 2056 = Err DelayNotElapsed).
Proof.
  split; [reflexivity|]. apply (resume_within_withdrawal ex_exited 41 2056).
  - lia.
  - reflexivity.
  - reflexivity.
  - right. reflexivity.
  - reflexivity.
Defined.

End Ws.
