(* ===== verification/Codec.v ===== *)
(** * The transaction reader and the laws of its codecs

    [TxReader] of [crates/bloch-pos-committee/src/transition.rs] is a cursor over a byte
    string; here a reader takes the bytes left and returns a value and what is left
    after it, or the error.  [codec P enc dec] says that [enc] and [dec] invert each
    other on the values of [P], in both directions: what was written is read back, and
    what is read was written that way, so that there is one encoding per value.  The
    lemmas close it under sequencing, counted vectors and length-prefixed bytes. *)

From S2P Require Import Prelude Bytes.
Local Open Scope Z_scope.

Module Codec.
Import Bytes.

Inductive TxDecodeError :=
| Truncated
| UnknownTag (tag : Z)
| EvidenceNotDecodable
| NotCanonical (value : Z)
| TrailingBytes.

Global Instance TxDecodeError_eq_dec : EqDecision TxDecodeError.
Proof. solve_decision. Defined.

Definition Reader (A : Type) : Type := list Z → result TxDecodeError (A * list Z).

Global Instance Reader_ret : MRet Reader := λ A a bs, Ok (a, bs).
Global Instance Reader_bind : MBind Reader := λ A B f m bs,
  match m bs with Ok (a, bs) => f a bs | Err e => Err e end.

Definition fail {A} (e : TxDecodeError) : Reader A := λ _, Err e.

(** [TxReader::take]: [i + n] cannot leave [usize], a slice being shorter than [2^63]
    and [n] at most [u32::MAX]. *)
Definition r_take (n : nat) : Reader (list Z) := λ bs,
  match take_n n bs with Some r => Ok r | None => Err Truncated end.

(** An integer of [n] bytes. *)
Definition r_int (n : nat) : Reader Z := s ← r_take n; mret (from_le_bytes s).
Definition r_u8 : Reader Z := r_int 1.
Definition r_u32 : Reader Z := r_int 4.
Definition r_u64 : Reader Z := r_int 8.
Definition r_u128 : Reader Z := r_int 16.
Definition r_h32 : Reader hash := s ← r_take 32; mret (from_hash_bytes s).

Definition r_bytes : Reader (list Z) := n ← r_u32; r_take (Z.to_nat n).

(** [for _ in 0..n] pushing what [r] reads. *)
Fixpoint r_vec {A} (n : nat) (r : Reader A) : Reader (list A) :=
  match n with
  | O => mret []
  | S n => x ← r; xs ← r_vec n r; mret (x :: xs)
  end.

(** A [u32] length that [ok] refuses is the error [e], before anything is read. *)
Definition r_bytes_if (ok : Z → bool) (e : TxDecodeError) : Reader (list Z) :=
  n ← r_u32; if ok n then r_take (Z.to_nat n) else fail e.

(** A [u32] count that [ok] refuses is the error [e]. *)
Definition r_counted {A} (ok : Z → bool) (e : TxDecodeError) (r : Reader A) : Reader (list A) :=
  n ← r_u32; if ok n then r_vec (Z.to_nat n) r else fail e.

(** Writers. *)
Definition put (bytes : list Z) : list Z := le_bytes 4 (Z.of_nat (length bytes)) ++ bytes.
Definition put_vec {A} (enc : A → list Z) (l : list A) : list Z :=
  le_bytes 4 (Z.of_nat (length l)) ++ (l ≫= enc).

(** ** Widths *)

Definition is_int (n : nat) (z : Z) : Prop := 0 ≤ z < 256 ^ Z.of_nat n.
Definition is_bytes (ok : Z → bool) (l : list Z) : Prop :=
  Forall is_byte l ∧ is_int 4 (Z.of_nat (length l)) ∧ ok (Z.of_nat (length l)) = true.
Definition is_vec {A} (P : A → Prop) (ok : Z → bool) (l : list A) : Prop :=
  Forall P l ∧ is_int 4 (Z.of_nat (length l)) ∧ ok (Z.of_nat (length l)) = true.
(** A fixed array, kept as a list. *)
Definition is_array (n : nat) (l : list Z) : Prop := Forall is_byte l ∧ length l = n.
Definition any (_ : Z) : bool := true.

(** ** Laws *)

Definition codec {A} (P : A → Prop) (enc : A → list Z) (dec : Reader A) : Prop :=
  (∀ a rest, P a → dec (enc a ++ rest) = Ok (a, rest)) ∧
  (∀ bs a rest, Forall is_byte bs → dec bs = Ok (a, rest) → P a ∧ bs = enc a ++ rest).

Lemma codec_ext {A} (P Q : A → Prop) enc dec :
  (∀ a, P a ↔ Q a) → codec P enc dec → codec Q enc dec.
Proof. intros E [H1 H2]. split; [naive_solver|]. intros bs a rest Hb Hd. rewrite <- E. by apply H2. Qed.

Lemma codec_take (n : nat) :
  codec (is_array n) (λ l, l) (r_take n).
Proof.
  unfold r_take. split.
  - intros a rest [_ Hl]. by rewrite take_n_app.
  - intros bs a rest Hb. destruct (take_n n bs) as [[]|] eqn:E; [|done]. intros [= <- <-].
    apply take_n_Some in E as [-> Hl]. apply Forall_app in Hb as [Hb _]. done.
Qed.

Lemma r_take_app n (a rest : list Z) : length a = n → r_take n (a ++ rest) = Ok (a, rest).
Proof. intros. unfold r_take. by rewrite take_n_app. Qed.

Lemma codec_int (n : nat) : codec (is_int n) (le_bytes n) (r_int n).
Proof.
  destruct (codec_take n) as [_ H2]. unfold r_int. split.
  - intros z rest Hz. unfold mbind, Reader_bind. rewrite r_take_app by apply length_le_bytes.
    unfold mret, Reader_ret. by rewrite from_le_bytes_le_bytes.
  - intros bs z rest Hb. unfold mbind, Reader_bind. destruct (r_take n bs) as [[s r]|] eqn:E; [|done].
    apply H2 in E as [[Hs Hl] ->]; [|done]. intros [= <- <-]. split.
    + unfold is_int. rewrite <- Hl. by apply from_le_bytes_range.
    + by rewrite le_bytes_from_le_bytes.
Qed.

Lemma codec_u8 : codec (is_int 1) (le_bytes 1) r_u8.
Proof. apply codec_int. Qed.
Lemma codec_u32 : codec (is_int 4) (le_bytes 4) r_u32.
Proof. apply codec_int. Qed.
Lemma codec_u64 : codec (is_int 8) (le_bytes 8) r_u64.
Proof. apply codec_int. Qed.
Lemma codec_u128 : codec (is_int 16) (le_bytes 16) r_u128.
Proof. apply codec_int. Qed.

Lemma codec_h32 : codec is_hash hash_bytes r_h32.
Proof.
  destruct (codec_take 32) as [_ H2]. unfold r_h32. split.
  - intros z rest Hz. unfold mbind, Reader_bind. rewrite r_take_app by apply length_hash_bytes.
    unfold mret, Reader_ret. by rewrite from_hash_bytes_hash_bytes.
  - intros bs z rest Hb. unfold mbind, Reader_bind. destruct (r_take 32 bs) as [[s r]|] eqn:E; [|done].
    apply H2 in E as [[Hs Hl] ->]; [|done]. intros [= <- <-]. split.
    + by apply from_hash_bytes_range.
    + by rewrite hash_bytes_from_hash_bytes.
Qed.

(** Read a field, then the rest of the value given it.  [Q] collects the fields already
    read. *)
Lemma codec_bind {A X} (p : A → X) (PX : X → Prop) (Q P : A → Prop) eX dX eA (f : X → Reader A) :
  codec PX eX dX → (∀ x, PX x → codec (λ a, (Q a ∧ p a = x) ∧ P a) eA (f x)) →
  codec (λ a, Q a ∧ PX (p a) ∧ P a) (λ a, eX (p a) ++ eA a) (dX ≫= f).
Proof.
  intros [HX1 HX2] Hf. unfold mbind, Reader_bind. split.
  - intros a rest (HQ & HX & HP). rewrite <- app_assoc, HX1 by done.
    by apply (proj1 (Hf (p a) HX)).
  - intros bs a rest Hb. destruct (dX bs) as [[x r]|] eqn:E; [|done].
    apply HX2 in E as [Hx ->]; [|done]. intros E. apply Forall_app in Hb as [_ Hb].
    apply (proj2 (Hf x Hx)) in E as [[[HQ Hp] HP] ->]; [|done]. subst x.
    by rewrite <- app_assoc.
Qed.

(** The last field. *)
Lemma codec_last {A X} (p : A → X) (PX : X → Prop) (Q : A → Prop) eX dX (f : X → A) :
  codec PX eX dX → (∀ x a, PX x → Q a ∧ p a = x ↔ a = f x) →
  codec (λ a, Q a ∧ PX (p a)) (λ a, eX (p a)) (x ← dX; mret (f x)).
Proof.
  intros [HX1 HX2] Hf. unfold mbind, mret, Reader_bind, Reader_ret. split.
  - intros a rest (HQ & HX). rewrite HX1 by done. f_equal. f_equal. symmetry. by apply Hf.
  - intros bs a rest Hb. destruct (dX bs) as [[x r]|] eqn:E; [|done].
    apply HX2 in E as [Hx ->]; [|done]. intros [= <- <-].
    destruct (proj2 (Hf x (f x) Hx) eq_refl) as [HQ Hp]. by rewrite Hp.
Qed.

Lemma codec_start {A} (P : A → Prop) enc dec :
  codec (λ a, True ∧ P a) enc dec → codec P enc dec.
Proof. apply codec_ext. naive_solver. Qed.

Definition is_list {A} (P : A → Prop) (n : nat) (l : list A) : Prop := Forall P l ∧ length l = n.

Lemma codec_vec_n {A} (P : A → Prop) enc dec (n : nat) :
  codec P enc dec → codec (is_list P n) (λ l, l ≫= enc) (r_vec n dec).
Proof.
  intros [H1 H2]. induction n as [|n IH]; cbn [r_vec].
  - split; [by intros [|??] rest [_ ?]|]. by intros bs a rest _ [= <- <-].
  - destruct IH as [IH1 IH2]. unfold mbind, mret, Reader_bind, Reader_ret in *. split.
    + intros [|x l] rest [HF Hl]; [done|]. apply Forall_cons in HF as [Hx HF]. injection Hl as Hl.
      cbn [list_bind]. rewrite <- app_assoc, H1 by done. by rewrite IH1.
    + intros bs l rest Hb. destruct (dec bs) as [[x r]|] eqn:E; [|done].
      apply H2 in E as [Hx ->]; [|done]. apply Forall_app in Hb as [_ Hb].
      destruct (r_vec n dec r) as [[xs r']|] eqn:E; [|done]. apply IH2 in E as [[HF Hl] ->]; [|done].
      intros [= <- <-]. split; [split; [by constructor|cbn; by rewrite Hl]|].
      cbn [list_bind]. by rewrite <- app_assoc.
Qed.

Lemma codec_counted {A} (P : A → Prop) enc dec ok e :
  codec P enc dec → codec (is_vec P ok) (put_vec enc) (r_counted ok e dec).
Proof.
  intros Hc. unfold r_counted, put_vec. destruct (codec_int 4) as [I1 I2].
  unfold mbind, Reader_bind. split.
  - intros l rest (HF & Hl & Hok). rewrite <- app_assoc. rewrite (I1 _ _ Hl), Hok, Nat2Z.id.
    by apply (proj1 (codec_vec_n P enc dec (length l) Hc)).
  - intros bs l rest Hb. destruct (r_u32 bs) as [[n r]|] eqn:E; [|done]. apply I2 in E as [Hn ->]; [|done].
    destruct (ok n) eqn:Hok; [|done]. intros E. apply Forall_app in Hb as [_ Hb].
    apply (proj2 (codec_vec_n P enc dec (Z.to_nat n) Hc)) in E as [[HF Hl] ->]; [|done].
    assert (n = Z.of_nat (length l)) as -> by (unfold is_int in Hn; lia).
    split; [done|]. by rewrite <- app_assoc.
Qed.

Lemma codec_bytes_if ok e : codec (is_bytes ok) put (r_bytes_if ok e).
Proof.
  unfold r_bytes_if, put. destruct (codec_int 4) as [I1 I2]. unfold mbind, Reader_bind. split.
  - intros l rest (HF & Hl & Hok). rewrite <- app_assoc. rewrite (I1 _ _ Hl), Hok, Nat2Z.id.
    by apply (proj1 (codec_take (length l))).
  - intros bs l rest Hb. destruct (r_u32 bs) as [[n r]|] eqn:E; [|done]. apply I2 in E as [Hn ->]; [|done].
    destruct (ok n) eqn:Hok; [|done]. intros E. apply Forall_app in Hb as [_ Hb].
    apply (proj2 (codec_take (Z.to_nat n))) in E as [[HF Hl] ->]; [|done].
    assert (n = Z.of_nat (length l)) as -> by (unfold is_int in Hn; lia).
    split; [done|]. by rewrite <- app_assoc.
Qed.

Lemma codec_bytes : codec (is_bytes any) put r_bytes.
Proof. exact (codec_bytes_if any Truncated). Qed.

Lemma codec_vec {A} (P : A → Prop) enc dec :
  codec P enc dec → codec (is_vec P any) (put_vec enc) (n ← r_u32; r_vec (Z.to_nat n) dec).
Proof. exact (codec_counted P enc dec any Truncated). Qed.

Lemma codec_assoc {A} (P : A → Prop) e1 e2 e3 dec :
  codec P (λ a, e1 a ++ e2 a ++ e3 a) dec → codec P (λ a, (e1 a ++ e2 a) ++ e3 a) dec.
Proof.
  intros [H1 H2]. split.
  - intros a rest Ha. rewrite <- (H1 a rest Ha). by rewrite <- !app_assoc.
  - intros bs a rest Hb Hd. destruct (H2 bs a rest Hb Hd) as [? ->]. by rewrite <- !app_assoc.
Qed.

(** A check on what was read. *)
Lemma codec_check {A} (P : A → Prop) enc dec (b : bool) e :
  (b = true → ∀ a, ¬ P a) → (b = false → codec P enc dec) →
  codec P enc (if b then fail e else dec).
Proof.
  intros Ht Hf. destruct b; [|auto]. split; [|done]. intros a rest HP. by destruct (Ht eq_refl a).
Qed.

(** Reading one variant of a sum, to the end of the bytes. *)
Lemma codec_variant {A B} (C : A → B) (P : A → Prop) enc dec bs b :
  codec P enc dec → Forall is_byte bs →
  (x ← dec; mret (C x)) bs = Ok (b, []) ↔ ∃ x, b = C x ∧ P x ∧ bs = enc x.
Proof.
  intros [H1 H2] Hb. unfold mbind, mret, Reader_bind, Reader_ret. split.
  - destruct (dec bs) as [[x r]|] eqn:E; [|done]. intros [= <- ->].
    apply H2 in E as [HP ->]; [|done]. exists x. by rewrite app_nil_r.
  - intros (x & -> & HP & ->). rewrite <- (app_nil_r (enc x)). by rewrite H1.
Qed.

(** Reading a whole transaction: nothing may be left. *)
Lemma codec_whole {A} (P : A → Prop) enc dec bs a :
  codec P enc dec → Forall is_byte bs → dec bs = Ok (a, []) ↔ P a ∧ bs = enc a.
Proof.
  intros [H1 H2] Hb. split.
  - intros E. apply H2 in E as [HP ->]; [|done]. by rewrite app_nil_r.
  - intros [HP ->]. rewrite <- (app_nil_r (enc a)). by apply H1.
Qed.

End Codec.

Create HintDb codec.
#[export] Hint Resolve Codec.codec_u8 Codec.codec_u32 Codec.codec_u64 Codec.codec_u128 Codec.codec_h32
  Codec.codec_take Codec.codec_bytes Codec.codec_bytes_if Codec.codec_counted Codec.codec_vec : codec.

Ltac codec_right :=
  try match goal with
  | |- Codec.codec _ (λ a, (@?e1 a ++ @?e2 a) ++ @?e3 a) _ => apply (Codec.codec_assoc _ e1 e2 e3)
  end.

(** Read the next field, the projection [p], with a codec of the database. *)
Tactic Notation "codec_field" constr(p) :=
  codec_right; eapply (Codec.codec_bind p); [solve [eauto with codec]|]; intros ? _.
