(* ===== verification/Tx.v ===== *)
(** * Transactions and their wire format

    Models [PosTransaction] and its codec in
    [crates/bloch-pos-committee/src/transition.rs], the payloads of
    [transition/{funded,funded_delegation,pq_migration,l2_deposit,l2_da,l2_claim}.rs]
    and the settlement transaction of [l2_settlement.rs]: the canonical bytes, the
    decoder with its bounds and errors, and the roots that are signed and that name a
    transaction.  A struct-like variant of the enum is a record of its fields.  Fixed
    arrays other than 32-byte ones are byte lists. *)

From Stdlib Require Import String.
From S2P Require Import Prelude Bytes Params Types Signatures Kes Header Attestation Delegation Slashing Codec.
Local Open Scope Z_scope.

Module Tx.
Import Bytes Params Types Codec.

(** ** Constants *)

Definition FUNDED_DEPOSIT_TAG : Z := 0x0b.
Definition FUNDED_DELEGATE_TAG : Z := 0x0e.
Definition FUNDED_UNDELEGATE_TAG : Z := 0x0f.
Definition FUNDED_DELEGATION_WITHDRAW_TAG : Z := 0x10.
Definition VALIDATOR_COMMISSION_UPDATE_TAG : Z := 0x11.
Definition WIRE_TAG : Z := 0x12.
Definition ASYNC_WIRE_TAG : Z := 0x13.
Definition L2_DEPOSIT_TAG : Z := 0x14.
Definition L2_DATA_AVAILABILITY_TAG : Z := 0x15.
Definition L2_WITHDRAW_CLAIM_TAG : Z := 0x16.
Definition REGISTER_TAG : Z := 0x17.
Definition WITHDRAWAL_CREDENTIAL_ROTATION_TAG : Z := 0x18.
Definition RESCUE_COMMIT_TAG : Z := 0x19.
Definition RESCUE_REVEAL_TAG : Z := 0x1A.
Definition ROTATE_TAG : Z := 0x1B.

Definition MAX_FUNDING_INPUTS : Z := 128.
Definition ADMISSION_PQ_KEY_BYTES : Z := 3749.
Definition ADMISSION_PQ_SIGNATURE_MAX : Z := 4593.
Definition SLH_SUITE_SIGNATURE_MAX : Z := 4 + 7856 + 1462.
Definition MAX_DEPOSIT_INPUTS : Z := 128.
Definition DA_MAX_INPUTS : Z := 16.
Definition DA_MAX_PAYLOAD_BYTES : Z := 114688.
Definition MAX_CLAIM_INPUTS : Z := 16.
Definition MAX_ATTESTORS : Z := 7.
Definition TREE_DEPTH : nat := 32.
Definition CLAIM_VERSION : Z := 1.
Definition CLAIM_VERSION_ATTESTED : Z := 2.
Definition STATEMENT_BYTES : nat := 590.
Definition STATEMENT_V3_BYTES : nat := 766.
Definition PROOF_BYTES : nat := 356.

(** ** Data *)

Record TransferInput := mkInput { ti_txid : hash; ti_vout : Z; ti_pubkey : list Z; ti_signature : list Z }.
Record WitnessKey := mkKey { wk_pubkey : list Z; wk_signature : list Z }.
Record TransferInputV2 := mkInputV2 { ti2_txid : hash; ti2_vout : Z; key_index : Z }.
Record TransferOutput := mkOutput { out_value : Z; out_script_hash : hash }.
Record FundingInput := mkFunding { fi_txid : hash; fi_vout : Z }.

Record TransferTx := mkTransfer {
  t_inputs : list TransferInput; t_outputs : list TransferOutput; t_tx_bytes : Z; t_tip : Z }.
Record TransferV2Tx := mkTransferV2 {
  t2_keys : list WitnessKey; t2_inputs : list TransferInputV2; t2_outputs : list TransferOutput;
  t2_tx_bytes : Z; t2_tip : Z }.
Record WireDeposit := mkWireDeposit {
  d_pubkey : list Z; d_amount_sat : Z; d_randao_commitment : hash; d_withdrawal_credentials : list Z;
  d_commission_bps : Z; d_proof_of_possession : list Z }.
Record ExitV2 := mkExitV2 { xv_pubkey_hash : hash; xv_epoch : Z; xv_signature : list Z }.
Record RandaoRecommit := mkRecommit {
  rr_validator : Z; rr_new_commitment : hash; rr_epoch : Z; rr_signature : list Z }.
Record KesRegister := mkKesRegister {
  kr_validator : Z; kr_depth : Z; kr_root : hash; kr_signature : list Z }.
Record KesRotate := mkKesRotate {
  ko_validator : Z; ko_period : Z; ko_depth : Z; ko_root : hash; ko_signature : list Z }.
Record DelegateTx := mkDelegate {
  dg_delegator : Z; dg_validator : Z; dg_amount_sat : Z; dg_eligible : bool }.

Record FundedDeposit := mkFundedDeposit {
  fd_network_domain : hash; fd_valid_until_epoch : Z; fd_funding_pubkey : list Z;
  fd_inputs : list FundingInput; fd_validator_pubkey : list Z; fd_amount_sat : Z;
  fd_randao_commitment : hash; fd_withdrawal_credentials : hash; fd_commission_bps : Z;
  fd_change : TransferOutput; fd_max_base_fee : Z; fd_tip : Z; fd_tx_bytes : Z;
  fd_funding_signature : list Z; fd_proof_of_possession : list Z }.
Record FundedDelegate := mkFundedDelegate {
  fe_network_domain : hash; fe_valid_until_epoch : Z; fe_funding_pubkey : list Z;
  fe_inputs : list FundingInput; fe_validator_pubkey_hash : hash; fe_amount_sat : Z;
  fe_change : TransferOutput; fe_max_base_fee : Z; fe_tip : Z; fe_tx_bytes : Z;
  fe_funding_signature : list Z }.
Record FundedUndelegate := mkFundedUndelegate {
  fu_network_domain : hash; fu_epoch : Z; fu_delegator_id : Z; fu_position : Z;
  fu_funding_pubkey : list Z; fu_signature : list Z }.
Record FundedDelegationWithdraw := mkFundedWithdraw {
  fw_network_domain : hash; fw_epoch : Z; fw_delegator_id : Z; fw_position : Z;
  fw_funding_pubkey : list Z; fw_destination : hash; fw_max_base_fee : Z; fw_signature : list Z }.
Record ValidatorCommissionUpdate := mkCommission {
  cu_network_domain : hash; cu_epoch : Z; cu_validator : Z; cu_commission_bps : Z;
  cu_signature : list Z }.

Record WithdrawalCredentialRotation := mkRotation {
  wr_network_domain : hash; wr_epoch : Z; wr_validator : Z; wr_authorizing_pubkey : list Z;
  wr_new_pubkey : list Z; wr_authorizing_signature : list Z; wr_new_key_signature : list Z }.
Record RescueCommit := mkRescueCommit { rc_network_domain : hash; rc_commitment : hash }.
Record RescueReveal := mkRescueReveal {
  rv_network_domain : hash; rv_pubkey : list Z; rv_inputs : list FundingInput;
  rv_destination : hash; rv_tip : Z; rv_tx_bytes : Z; rv_signature : list Z }.

Record L2Deposit := mkL2Deposit {
  ld_network_domain : hash; ld_funding_pubkey : list Z; ld_inputs : list FundingInput;
  ld_amount_sat : Z; ld_recipient : list Z; ld_change : TransferOutput; ld_tx_bytes : Z; ld_tip : Z;
  ld_signature : list Z }.
Record L2DataAvailability := mkL2Da {
  la_network_domain : hash; la_funding_pubkey : list Z; la_inputs : list FundingInput;
  la_chain_id : Z; la_block_number : Z; la_payload : list Z; la_change : TransferOutput;
  la_tx_bytes : Z; la_tip : Z; la_signature : list Z }.
Record ClaimAttestation := mkClaimAttestation {
  ca_threshold : Z; ca_keys : list (list Z); ca_signatures : list (Z * list Z) }.
Record L2WithdrawClaim := mkL2Claim {
  lc_network_domain : hash; lc_funding_pubkey : list Z; lc_inputs : list FundingInput;
  lc_chain_id : Z; lc_index : Z; lc_l1_recipient : hash; lc_sats : Z; lc_siblings : list hash;
  lc_release : TransferOutput; lc_change : TransferOutput; lc_tx_bytes : Z; lc_tip : Z;
  lc_attestation : option ClaimAttestation; lc_signature : list Z }.
Record SettlementTx := mkSettlement { proof_policy : hash; statement : list Z; proof : list Z }.

Inductive PosTransaction :=
| L2Settlement (tx : SettlementTx)
| L2SettlementAsync (tx : SettlementTx)
| TxFundedDeposit (tx : FundedDeposit)
| TxFundedDelegate (tx : FundedDelegate)
| TxFundedUndelegate (tx : FundedUndelegate)
| TxFundedDelegationWithdraw (tx : FundedDelegationWithdraw)
| TxValidatorCommissionUpdate (tx : ValidatorCommissionUpdate)
| TxL2Deposit (tx : L2Deposit)
| TxL2DataAvailability (tx : L2DataAvailability)
| TxL2WithdrawClaim (tx : L2WithdrawClaim)
| TxWithdrawalCredentialRotation (tx : WithdrawalCredentialRotation)
| TxRescueCommit (tx : RescueCommit)
| TxRescueReveal (tx : RescueReveal)
| Transfer (tx : TransferTx)
| TransferV2 (tx : TransferV2Tx)
| Deposit (tx : WireDeposit)
| Exit (validator : Z)
| Withdraw (validator : Z)
| TxExitV2 (tx : ExitV2)
| TxRandaoRecommit (tx : RandaoRecommit)
| TxKesRegister (tx : KesRegister)
| TxKesRotate (tx : KesRotate)
| Delegate (tx : DelegateTx)
| TxSlashingEvidence (ev : Slashing.AnyEvidence).

(** ** Canonical bytes *)

Definition enc_input (i : TransferInput) : list Z :=
  hash_bytes (ti_txid i) ++ le_bytes 4 (ti_vout i) ++ put (ti_pubkey i) ++ put (ti_signature i).
Definition enc_key (k : WitnessKey) : list Z := put (wk_pubkey k) ++ put (wk_signature k).
Definition enc_input_v2 (i : TransferInputV2) : list Z :=
  hash_bytes (ti2_txid i) ++ le_bytes 4 (ti2_vout i) ++ le_bytes 4 (key_index i).
Definition enc_output (o : TransferOutput) : list Z :=
  le_bytes 8 (out_value o) ++ hash_bytes (out_script_hash o).
Definition enc_funding (i : FundingInput) : list Z := hash_bytes (fi_txid i) ++ le_bytes 4 (fi_vout i).

Definition enc_transfer (t : TransferTx) : list Z :=
  put_vec enc_input (t_inputs t) ++ put_vec enc_output (t_outputs t)
  ++ le_bytes 8 (t_tx_bytes t) ++ le_bytes 16 (t_tip t).
Definition enc_transfer_v2 (t : TransferV2Tx) : list Z :=
  put_vec enc_key (t2_keys t) ++ put_vec enc_input_v2 (t2_inputs t)
  ++ put_vec enc_output (t2_outputs t) ++ le_bytes 8 (t2_tx_bytes t) ++ le_bytes 16 (t2_tip t).
Definition enc_deposit (d : WireDeposit) : list Z :=
  put (d_pubkey d) ++ le_bytes 16 (d_amount_sat d) ++ hash_bytes (d_randao_commitment d)
  ++ put (d_withdrawal_credentials d) ++ le_bytes 16 (d_commission_bps d) ++ put (d_proof_of_possession d).
Definition enc_exit_v2 (x : ExitV2) : list Z :=
  hash_bytes (xv_pubkey_hash x) ++ le_bytes 8 (xv_epoch x) ++ put (xv_signature x).
Definition enc_recommit (r : RandaoRecommit) : list Z :=
  le_bytes 4 (rr_validator r) ++ hash_bytes (rr_new_commitment r) ++ le_bytes 8 (rr_epoch r)
  ++ put (rr_signature r).
Definition enc_kes_register (k : KesRegister) : list Z :=
  le_bytes 4 (kr_validator k) ++ le_bytes 1 (kr_depth k) ++ hash_bytes (kr_root k) ++ put (kr_signature k).
Definition enc_kes_rotate (k : KesRotate) : list Z :=
  le_bytes 4 (ko_validator k) ++ le_bytes 8 (ko_period k) ++ le_bytes 1 (ko_depth k)
  ++ hash_bytes (ko_root k) ++ put (ko_signature k).
Definition enc_bool (b : bool) : list Z := [if b then 1 else 0].
Definition enc_delegate (d : DelegateTx) : list Z :=
  le_bytes 4 (dg_delegator d) ++ le_bytes 4 (dg_validator d) ++ le_bytes 16 (dg_amount_sat d)
  ++ enc_bool (dg_eligible d).
Definition enc_envelope (e : Slashing.ProposalEnvelope) : list Z :=
  Header.canonical_serialize (Slashing.env_header e) ++ put (Slashing.proposer_sig e).
Definition enc_data (d : AttestationData) : list Z :=
  le_bytes 8 (slot d) ++ hash_bytes (head d) ++ le_bytes 8 (source_epoch d) ++ hash_bytes (source_root d)
  ++ le_bytes 8 (target_epoch d) ++ hash_bytes (target_root d).
Definition enc_attestation (a : Attestation) : list Z :=
  le_bytes 4 (att_validator a) ++ enc_data (att_data a) ++ put (att_signature a).
Definition enc_evidence (ev : Slashing.AnyEvidence) : list Z :=
  match ev with
  | Slashing.ProposerEquivocationEvidence first second =>
      0x01 :: enc_envelope first ++ enc_envelope second
  | Slashing.AttestationOffence first second => 0x02 :: enc_attestation first ++ enc_attestation second
  end.

(** The funded transactions sign their bytes up to the signatures: [*_intent]. *)
Definition fd_fields (t : FundedDeposit) : list Z :=
  hash_bytes (fd_network_domain t) ++ le_bytes 8 (fd_valid_until_epoch t) ++ put (fd_funding_pubkey t)
  ++ put_vec enc_funding (fd_inputs t) ++ put (fd_validator_pubkey t) ++ le_bytes 16 (fd_amount_sat t)
  ++ hash_bytes (fd_randao_commitment t) ++ hash_bytes (fd_withdrawal_credentials t)
  ++ le_bytes 16 (fd_commission_bps t) ++ enc_output (fd_change t) ++ le_bytes 16 (fd_max_base_fee t)
  ++ le_bytes 16 (fd_tip t) ++ le_bytes 8 (fd_tx_bytes t).
Definition fd_intent (t : FundedDeposit) : list Z := FUNDED_DEPOSIT_TAG :: fd_fields t.
Definition fd_bytes (t : FundedDeposit) : list Z :=
  fd_intent t ++ put (fd_funding_signature t) ++ put (fd_proof_of_possession t).

Definition fe_fields (t : FundedDelegate) : list Z :=
  hash_bytes (fe_network_domain t) ++ le_bytes 8 (fe_valid_until_epoch t) ++ put (fe_funding_pubkey t)
  ++ put_vec enc_funding (fe_inputs t) ++ hash_bytes (fe_validator_pubkey_hash t)
  ++ le_bytes 16 (fe_amount_sat t) ++ enc_output (fe_change t) ++ le_bytes 16 (fe_max_base_fee t)
  ++ le_bytes 16 (fe_tip t) ++ le_bytes 8 (fe_tx_bytes t).
Definition fe_intent (t : FundedDelegate) : list Z := FUNDED_DELEGATE_TAG :: fe_fields t.
Definition fe_bytes (t : FundedDelegate) : list Z := fe_intent t ++ put (fe_funding_signature t).

Definition fu_fields (t : FundedUndelegate) : list Z :=
  hash_bytes (fu_network_domain t) ++ le_bytes 8 (fu_epoch t) ++ le_bytes 4 (fu_delegator_id t)
  ++ le_bytes 4 (fu_position t) ++ put (fu_funding_pubkey t).
Definition fu_intent (t : FundedUndelegate) : list Z := FUNDED_UNDELEGATE_TAG :: fu_fields t.
Definition fu_bytes (t : FundedUndelegate) : list Z := fu_intent t ++ put (fu_signature t).

Definition fw_fields (t : FundedDelegationWithdraw) : list Z :=
  hash_bytes (fw_network_domain t) ++ le_bytes 8 (fw_epoch t) ++ le_bytes 4 (fw_delegator_id t)
  ++ le_bytes 4 (fw_position t) ++ put (fw_funding_pubkey t) ++ hash_bytes (fw_destination t)
  ++ le_bytes 16 (fw_max_base_fee t).
Definition fw_intent (t : FundedDelegationWithdraw) : list Z :=
  FUNDED_DELEGATION_WITHDRAW_TAG :: fw_fields t.
Definition fw_bytes (t : FundedDelegationWithdraw) : list Z := fw_intent t ++ put (fw_signature t).

Definition cu_fields (t : ValidatorCommissionUpdate) : list Z :=
  hash_bytes (cu_network_domain t) ++ le_bytes 8 (cu_epoch t) ++ le_bytes 4 (cu_validator t)
  ++ le_bytes 16 (cu_commission_bps t).
Definition cu_intent (t : ValidatorCommissionUpdate) : list Z :=
  VALIDATOR_COMMISSION_UPDATE_TAG :: cu_fields t.
Definition cu_bytes (t : ValidatorCommissionUpdate) : list Z := cu_intent t ++ put (cu_signature t).

Definition wr_fields (t : WithdrawalCredentialRotation) : list Z :=
  hash_bytes (wr_network_domain t) ++ le_bytes 8 (wr_epoch t) ++ le_bytes 4 (wr_validator t)
  ++ put (wr_authorizing_pubkey t) ++ put (wr_new_pubkey t).
Definition wr_intent (t : WithdrawalCredentialRotation) : list Z :=
  WITHDRAWAL_CREDENTIAL_ROTATION_TAG :: wr_fields t.
Definition wr_bytes (t : WithdrawalCredentialRotation) : list Z :=
  wr_intent t ++ put (wr_authorizing_signature t) ++ put (wr_new_key_signature t).

Definition rc_bytes (t : RescueCommit) : list Z :=
  RESCUE_COMMIT_TAG :: hash_bytes (rc_network_domain t) ++ hash_bytes (rc_commitment t).

Definition rv_fields (t : RescueReveal) : list Z :=
  hash_bytes (rv_network_domain t) ++ put (rv_pubkey t) ++ put_vec enc_funding (rv_inputs t)
  ++ hash_bytes (rv_destination t) ++ le_bytes 16 (rv_tip t) ++ le_bytes 8 (rv_tx_bytes t).
Definition rv_intent (t : RescueReveal) : list Z := RESCUE_REVEAL_TAG :: rv_fields t.
Definition rv_bytes (t : RescueReveal) : list Z := rv_intent t ++ put (rv_signature t).

Definition ld_fields (t : L2Deposit) : list Z :=
  hash_bytes (ld_network_domain t) ++ put (ld_funding_pubkey t) ++ put_vec enc_funding (ld_inputs t)
  ++ le_bytes 8 (ld_amount_sat t) ++ ld_recipient t ++ enc_output (ld_change t)
  ++ le_bytes 8 (ld_tx_bytes t) ++ le_bytes 16 (ld_tip t).
Definition ld_intent (t : L2Deposit) : list Z := L2_DEPOSIT_TAG :: ld_fields t.
Definition ld_bytes (t : L2Deposit) : list Z := ld_intent t ++ put (ld_signature t).

Definition la_fields (t : L2DataAvailability) : list Z :=
  hash_bytes (la_network_domain t) ++ put (la_funding_pubkey t) ++ put_vec enc_funding (la_inputs t)
  ++ le_bytes 8 (la_chain_id t) ++ le_bytes 8 (la_block_number t) ++ put (la_payload t)
  ++ enc_output (la_change t) ++ le_bytes 8 (la_tx_bytes t) ++ le_bytes 16 (la_tip t).
Definition la_intent (t : L2DataAvailability) : list Z := L2_DATA_AVAILABILITY_TAG :: la_fields t.
Definition la_bytes (t : L2DataAvailability) : list Z := la_intent t ++ put (la_signature t).

Definition enc_claim_attestation (a : ClaimAttestation) : list Z :=
  le_bytes 1 (ca_threshold a)
  ++ le_bytes 1 (Z.of_nat (length (ca_keys a))) ++ (ca_keys a ≫= id)
  ++ le_bytes 1 (Z.of_nat (length (ca_signatures a)))
  ++ (ca_signatures a ≫= λ x, le_bytes 1 x.1 ++ put x.2).
Definition claim_version (t : L2WithdrawClaim) : Z :=
  match lc_attestation t with Some _ => CLAIM_VERSION_ATTESTED | None => CLAIM_VERSION end.
Definition lc_fields (t : L2WithdrawClaim) : list Z :=
  le_bytes 1 (claim_version t) ++ hash_bytes (lc_network_domain t) ++ put (lc_funding_pubkey t)
  ++ put_vec enc_funding (lc_inputs t) ++ le_bytes 8 (lc_chain_id t) ++ le_bytes 8 (lc_index t)
  ++ hash_bytes (lc_l1_recipient t) ++ le_bytes 8 (lc_sats t) ++ (lc_siblings t ≫= hash_bytes)
  ++ enc_output (lc_release t) ++ enc_output (lc_change t) ++ le_bytes 8 (lc_tx_bytes t)
  ++ le_bytes 16 (lc_tip t)
  ++ match lc_attestation t with Some a => enc_claim_attestation a | None => [] end.
Definition lc_intent (t : L2WithdrawClaim) : list Z := L2_WITHDRAW_CLAIM_TAG :: lc_fields t.
Definition lc_bytes (t : L2WithdrawClaim) : list Z := lc_intent t ++ put (lc_signature t).

(** [l2_settlement::Transaction::encode_tag]. *)
Definition encode_tag (t : SettlementTx) (tag : Z) : list Z :=
  tag :: hash_bytes (proof_policy t) ++ statement t ++ proof t.

Definition canonical_bytes (tx : PosTransaction) : list Z :=
  match tx with
  | L2Settlement t => encode_tag t WIRE_TAG
  | L2SettlementAsync t => encode_tag t ASYNC_WIRE_TAG
  | TxFundedDeposit t => fd_bytes t
  | TxFundedDelegate t => fe_bytes t
  | TxFundedUndelegate t => fu_bytes t
  | TxFundedDelegationWithdraw t => fw_bytes t
  | TxValidatorCommissionUpdate t => cu_bytes t
  | TxL2Deposit t => ld_bytes t
  | TxL2DataAvailability t => la_bytes t
  | TxL2WithdrawClaim t => lc_bytes t
  | TxWithdrawalCredentialRotation t => wr_bytes t
  | TxRescueCommit t => rc_bytes t
  | TxRescueReveal t => rv_bytes t
  | Transfer t => 0x01 :: enc_transfer t
  | TransferV2 t => 0x06 :: enc_transfer_v2 t
  | Deposit t => 0x02 :: enc_deposit t
  | Exit v => 0x03 :: le_bytes 4 v
  | Withdraw v => 0x0D :: le_bytes 4 v
  | TxExitV2 t => 0x0C :: enc_exit_v2 t
  | TxKesRegister t => REGISTER_TAG :: enc_kes_register t
  | TxKesRotate t => ROTATE_TAG :: enc_kes_rotate t
  | TxRandaoRecommit t => 0x0A :: enc_recommit t
  | Delegate t => 0x04 :: enc_delegate t
  | TxSlashingEvidence ev => 0x05 :: enc_evidence ev
  end.

(** ** The decoder *)

Definition upto (max n : Z) : bool := n <=? max.
Definition one_to (max n : Z) : bool := negb (n =? 0) && (n <=? max).

Definition dec_input : Reader TransferInput :=
  a ← r_h32; b ← r_u32; c ← r_bytes; d ← r_bytes; mret (mkInput a b c d).
Definition dec_key : Reader WitnessKey := a ← r_bytes; b ← r_bytes; mret (mkKey a b).
Definition dec_input_v2 : Reader TransferInputV2 :=
  a ← r_h32; b ← r_u32; c ← r_u32; mret (mkInputV2 a b c).
Definition dec_output : Reader TransferOutput := a ← r_u64; b ← r_h32; mret (mkOutput a b).
Definition dec_funding : Reader FundingInput := a ← r_h32; b ← r_u32; mret (mkFunding a b).
Definition r_list {A} (r : Reader A) : Reader (list A) := n ← r_u32; r_vec (Z.to_nat n) r.

Definition dec_transfer : Reader TransferTx :=
  a ← r_list dec_input; b ← r_list dec_output; c ← r_u64; d ← r_u128; mret (mkTransfer a b c d).
Definition dec_transfer_v2 : Reader TransferV2Tx :=
  a ← r_list dec_key; b ← r_list dec_input_v2; c ← r_list dec_output; d ← r_u64; e ← r_u128;
  mret (mkTransferV2 a b c d e).
Definition dec_deposit : Reader WireDeposit :=
  a ← r_bytes; b ← r_u128; c ← r_h32; d ← r_bytes; e ← r_u128; f ← r_bytes;
  mret (mkWireDeposit a b c d e f).
Definition dec_exit_v2 : Reader ExitV2 := a ← r_h32; b ← r_u64; c ← r_bytes; mret (mkExitV2 a b c).
Definition dec_recommit : Reader RandaoRecommit :=
  a ← r_u32; b ← r_h32; c ← r_u64; d ← r_bytes; mret (mkRecommit a b c d).
Definition dec_kes_register : Reader KesRegister :=
  a ← r_u32; b ← r_u8; c ← r_h32; d ← r_bytes; mret (mkKesRegister a b c d).
Definition dec_kes_rotate : Reader KesRotate :=
  a ← r_u32; b ← r_u64; c ← r_u8; d ← r_h32; e ← r_bytes; mret (mkKesRotate a b c d e).
Definition dec_bool : Reader bool :=
  b ← r_u8; if b =? 0 then mret false else if b =? 1 then mret true else fail (NotCanonical b).
Definition dec_delegate : Reader DelegateTx :=
  a ← r_u32; b ← r_u32; c ← r_u128; d ← dec_bool; mret (mkDelegate a b c d).
Definition dec_header : Reader Header.BlockHeaderV4 :=
  raw ← r_take Header.ENCODED_LEN;
  match Header.canonical_deserialize raw with Ok h => mret h | Err _ => fail Truncated end.
Definition dec_envelope : Reader Slashing.ProposalEnvelope :=
  a ← dec_header; b ← r_bytes; mret (Slashing.mkEnvelope a b).
Definition dec_data : Reader AttestationData :=
  a ← r_u64; b ← r_h32; c ← r_u64; d ← r_h32; e ← r_u64; f ← r_h32; mret (mkAttData a b c d e f).
Definition dec_attestation : Reader Attestation :=
  v ← r_u32; d ← dec_data; s ← r_bytes; mret (mkAttestation d v s).
Definition dec_evidence : Reader Slashing.AnyEvidence :=
  family ← r_u8;
  if family =? 0x01 then
    a ← dec_envelope; b ← dec_envelope; mret (Slashing.ProposerEquivocationEvidence a b)
  else if family =? 0x02 then
    a ← dec_attestation; b ← dec_attestation; mret (Slashing.AttestationOffence a b)
  else fail (NotCanonical family).

(** [bounded]. *)
Definition bounded (max tag : Z) : Reader (list Z) := r_bytes_if (upto max) (NotCanonical tag).
Definition key_exact (tag : Z) : Reader (list Z) :=
  r_bytes_if (λ n, n =? ADMISSION_PQ_KEY_BYTES) (NotCanonical tag).

Definition dec_funded_deposit : Reader FundedDeposit :=
  let t := FUNDED_DEPOSIT_TAG in
  a ← r_h32; b ← r_u64; c ← bounded ADMISSION_PQ_KEY_BYTES t;
  d ← r_counted (upto MAX_FUNDING_INPUTS) (NotCanonical t) dec_funding;
  e ← bounded ADMISSION_PQ_KEY_BYTES t; f ← r_u128; g ← r_h32; h ← r_h32; i ← r_u128;
  j ← dec_output; k ← r_u128; l ← r_u128; m ← r_u64;
  n ← bounded ADMISSION_PQ_SIGNATURE_MAX t; o ← bounded ADMISSION_PQ_SIGNATURE_MAX t;
  mret (mkFundedDeposit a b c d e f g h i j k l m n o).
Definition dec_funded_delegate : Reader FundedDelegate :=
  let t := FUNDED_DELEGATE_TAG in
  a ← r_h32; b ← r_u64; c ← bounded ADMISSION_PQ_KEY_BYTES t;
  d ← r_counted (upto MAX_FUNDING_INPUTS) (NotCanonical t) dec_funding;
  e ← r_h32; f ← r_u128; g ← dec_output; h ← r_u128; i ← r_u128; j ← r_u64;
  k ← bounded ADMISSION_PQ_SIGNATURE_MAX t; mret (mkFundedDelegate a b c d e f g h i j k).
Definition dec_funded_undelegate : Reader FundedUndelegate :=
  let t := FUNDED_UNDELEGATE_TAG in
  a ← r_h32; b ← r_u64; c ← r_u32; d ← r_u32; e ← bounded ADMISSION_PQ_KEY_BYTES t;
  f ← bounded ADMISSION_PQ_SIGNATURE_MAX t; mret (mkFundedUndelegate a b c d e f).
Definition dec_funded_withdraw : Reader FundedDelegationWithdraw :=
  let t := FUNDED_DELEGATION_WITHDRAW_TAG in
  a ← r_h32; b ← r_u64; c ← r_u32; d ← r_u32; e ← bounded ADMISSION_PQ_KEY_BYTES t;
  f ← r_h32; g ← r_u128; h ← bounded ADMISSION_PQ_SIGNATURE_MAX t;
  mret (mkFundedWithdraw a b c d e f g h).
Definition dec_commission : Reader ValidatorCommissionUpdate :=
  a ← r_h32; b ← r_u64; c ← r_u32; d ← r_u128;
  e ← bounded ADMISSION_PQ_SIGNATURE_MAX VALIDATOR_COMMISSION_UPDATE_TAG; mret (mkCommission a b c d e).

Definition dec_rotation : Reader WithdrawalCredentialRotation :=
  let t := WITHDRAWAL_CREDENTIAL_ROTATION_TAG in
  a ← r_h32; b ← r_u64; c ← r_u32; d ← bounded ADMISSION_PQ_KEY_BYTES t;
  e ← bounded ADMISSION_PQ_KEY_BYTES t; f ← bounded SLH_SUITE_SIGNATURE_MAX t;
  g ← bounded SLH_SUITE_SIGNATURE_MAX t; mret (mkRotation a b c d e f g).
Definition dec_rescue_commit : Reader RescueCommit := a ← r_h32; b ← r_h32; mret (mkRescueCommit a b).
Definition dec_rescue_reveal : Reader RescueReveal :=
  let t := RESCUE_REVEAL_TAG in
  a ← r_h32; b ← bounded ADMISSION_PQ_KEY_BYTES t; c ← r_list dec_funding; d ← r_h32; e ← r_u128;
  f ← r_u64; g ← bounded SLH_SUITE_SIGNATURE_MAX t; mret (mkRescueReveal a b c d e f g).

Definition dec_l2_deposit : Reader L2Deposit :=
  let t := L2_DEPOSIT_TAG in
  a ← r_h32; b ← key_exact t; c ← r_counted (one_to MAX_DEPOSIT_INPUTS) (NotCanonical t) dec_funding;
  d ← r_u64; e ← r_take 20; f ← dec_output; g ← r_u64; h ← r_u128;
  i ← bounded ADMISSION_PQ_SIGNATURE_MAX t; mret (mkL2Deposit a b c d e f g h i).
Definition dec_l2_da : Reader L2DataAvailability :=
  let t := L2_DATA_AVAILABILITY_TAG in
  a ← r_h32; b ← key_exact t; c ← r_counted (one_to DA_MAX_INPUTS) (NotCanonical t) dec_funding;
  d ← r_u64; e ← r_u64; f ← bounded DA_MAX_PAYLOAD_BYTES t; g ← dec_output; h ← r_u64; i ← r_u128;
  j ← bounded ADMISSION_PQ_SIGNATURE_MAX t; mret (mkL2Da a b c d e f g h i j).
Definition dec_claim_sig (bad : TxDecodeError) : Reader (Z * list Z) :=
  i ← r_u8; s ← r_bytes_if (upto ADMISSION_PQ_SIGNATURE_MAX) bad; mret (i, s).
Definition dec_claim_attestation (bad : TxDecodeError) : Reader ClaimAttestation :=
  threshold ← r_u8; n ← r_u8;
  if (n =? 0) || (MAX_ATTESTORS <? n) then fail bad
  else
    keys ← r_vec (Z.to_nat n) (r_take (Z.to_nat ADMISSION_PQ_KEY_BYTES));
    m ← r_u8;
    if n <? m then fail bad
    else sigs ← r_vec (Z.to_nat m) (dec_claim_sig bad); mret (mkClaimAttestation threshold keys sigs).
Definition dec_claim_option (bad : TxDecodeError) (version : Z) : Reader (option ClaimAttestation) :=
  if version =? CLAIM_VERSION_ATTESTED then x ← dec_claim_attestation bad; mret (Some x)
  else mret None.
Definition dec_l2_claim : Reader L2WithdrawClaim :=
  let bad := NotCanonical L2_WITHDRAW_CLAIM_TAG in
  version ← r_u8;
  if negb (version =? CLAIM_VERSION) && negb (version =? CLAIM_VERSION_ATTESTED) then fail bad
  else
    a ← r_h32; b ← key_exact L2_WITHDRAW_CLAIM_TAG; c ← r_counted (one_to MAX_CLAIM_INPUTS) bad dec_funding;
    d ← r_u64; e ← r_u64; f ← r_h32; g ← r_u64; h ← r_vec TREE_DEPTH r_h32; i ← dec_output;
    j ← dec_output; k ← r_u64; l ← r_u128;
    m ← dec_claim_option bad version;
    n ← bounded ADMISSION_PQ_SIGNATURE_MAX L2_WITHDRAW_CLAIM_TAG;
    mret (mkL2Claim a b c d e f g h i j k l m n).

(** [StatementVersion::of] and [l2_settlement::Transaction::decode_tag]. *)
Definition statement_ok (s : list Z) : bool :=
  (length s =? STATEMENT_BYTES)%nat
    && bool_decide (string_bytes "BLOCH:EVM:SETTLEMENT:2" `prefix_of` s)
  || (length s =? STATEMENT_V3_BYTES)%nat
    && bool_decide (string_bytes "BLOCH:EVM:SETTLEMENT:3" `prefix_of` s).

Definition decode_tag (bytes : list Z) (tag : Z) : option SettlementTx :=
  statement_bytes ← (if (length bytes =? 1 + 32 + STATEMENT_BYTES + PROOF_BYTES)%nat then Some STATEMENT_BYTES
                     else if (length bytes =? 1 + 32 + STATEMENT_V3_BYTES + PROOF_BYTES)%nat
                     then Some STATEMENT_V3_BYTES else None);
  if negb (bool_decide (bytes !! 0%nat = Some tag)) then None
  else
    let s := slice 33 (33 + statement_bytes) bytes in
    if statement_ok s then
      Some (mkSettlement (from_hash_bytes (slice 1 33 bytes)) s (drop (33 + statement_bytes) bytes))
    else None.

(** The decoder of the bytes after the tag. *)
Definition dec_tagged (tag : Z) : Reader PosTransaction :=
  if tag =? FUNDED_DEPOSIT_TAG then x ← dec_funded_deposit; mret (TxFundedDeposit x)
  else if tag =? FUNDED_DELEGATE_TAG then x ← dec_funded_delegate; mret (TxFundedDelegate x)
  else if tag =? FUNDED_UNDELEGATE_TAG then x ← dec_funded_undelegate; mret (TxFundedUndelegate x)
  else if tag =? FUNDED_DELEGATION_WITHDRAW_TAG then
    x ← dec_funded_withdraw; mret (TxFundedDelegationWithdraw x)
  else if tag =? VALIDATOR_COMMISSION_UPDATE_TAG then x ← dec_commission; mret (TxValidatorCommissionUpdate x)
  else if tag =? L2_DEPOSIT_TAG then x ← dec_l2_deposit; mret (TxL2Deposit x)
  else if tag =? L2_DATA_AVAILABILITY_TAG then x ← dec_l2_da; mret (TxL2DataAvailability x)
  else if tag =? L2_WITHDRAW_CLAIM_TAG then x ← dec_l2_claim; mret (TxL2WithdrawClaim x)
  else if tag =? WITHDRAWAL_CREDENTIAL_ROTATION_TAG then
    x ← dec_rotation; mret (TxWithdrawalCredentialRotation x)
  else if tag =? RESCUE_COMMIT_TAG then x ← dec_rescue_commit; mret (TxRescueCommit x)
  else if tag =? RESCUE_REVEAL_TAG then x ← dec_rescue_reveal; mret (TxRescueReveal x)
  else if tag =? 0x01 then x ← dec_transfer; mret (Transfer x)
  else if tag =? 0x02 then x ← dec_deposit; mret (Deposit x)
  else if tag =? 0x03 then x ← r_u32; mret (Exit x)
  else if tag =? 0x04 then x ← dec_delegate; mret (Delegate x)
  else if tag =? 0x0C then x ← dec_exit_v2; mret (TxExitV2 x)
  else if tag =? 0x0D then x ← r_u32; mret (Withdraw x)
  else if tag =? REGISTER_TAG then x ← dec_kes_register; mret (TxKesRegister x)
  else if tag =? ROTATE_TAG then x ← dec_kes_rotate; mret (TxKesRotate x)
  else if tag =? 0x0A then x ← dec_recommit; mret (TxRandaoRecommit x)
  else if tag =? 0x05 then x ← dec_evidence; mret (TxSlashingEvidence x)
  else if tag =? 0x06 then x ← dec_transfer_v2; mret (TransferV2 x)
  else fail (UnknownTag tag).

Definition from_canonical_bytes (bytes : list Z) : result TxDecodeError PosTransaction :=
  if bool_decide (bytes !! 0%nat = Some WIRE_TAG) then
    ok_or (L2Settlement <$> decode_tag bytes WIRE_TAG) Truncated
  else if bool_decide (bytes !! 0%nat = Some ASYNC_WIRE_TAG) then
    ok_or (L2SettlementAsync <$> decode_tag bytes ASYNC_WIRE_TAG) Truncated
  else
    '(tag, r) ← r_u8 bytes;
    '(tx, r) ← dec_tagged tag r;
    if (length r =? 0)%nat then Ok tx else Err TrailingBytes.

(** ** Roots *)

(** The outpoints a transfer spends. *)
Definition spends_v1 (t : TransferTx) : list FundingInput :=
  (λ i, mkFunding (ti_txid i) (ti_vout i)) <$> t_inputs t.
Definition spends_v2 (t : TransferV2Tx) : list FundingInput :=
  (λ i, mkFunding (ti2_txid i) (ti2_vout i)) <$> t2_inputs t.

Definition fold_spend (spends : list FundingInput) (outputs : list TransferOutput) (tx_bytes tip : Z)
    : list Z :=
  put_vec enc_funding spends ++ put_vec enc_output outputs ++ le_bytes 8 tx_bytes ++ le_bytes 16 tip.

Definition sighash_network_binding_active {R : Rules} (epoch : Z) : bool :=
  epoch_gate_active epoch (SIGHASH_NETWORK_BINDING_ACTIVATION_EPOCH R).

Section roots.
Context `{Sha3} {R : Rules}.

Definition role_root (domain intent : list Z) : hash := sha3_256 (domain ++ intent).

Definition fd_intent_root (t : FundedDeposit) : hash :=
  role_root (string_bytes "BLOCH:VALIDATOR:DEPOSIT:V1") (fd_intent t).
Definition funding_root (t : FundedDeposit) : hash :=
  role_root (string_bytes "BLOCH:VALIDATOR:FUNDING:V1") (hash_bytes (fd_intent_root t)).
Definition possession_root (t : FundedDeposit) : hash :=
  role_root (string_bytes "BLOCH:VALIDATOR:POSSESSION:V1") (hash_bytes (fd_intent_root t)).
Definition fe_signing_root (t : FundedDelegate) : hash :=
  role_root (string_bytes "BLOCH:DELEGATION:FUND:V1") (fe_intent t).
Definition fu_signing_root (t : FundedUndelegate) : hash :=
  role_root (string_bytes "BLOCH:DELEGATION:DEACTIVATE:V1") (fu_intent t).
Definition fw_signing_root (t : FundedDelegationWithdraw) : hash :=
  role_root (string_bytes "BLOCH:DELEGATION:WITHDRAW:V1") (fw_intent t).
Definition cu_signing_root (t : ValidatorCommissionUpdate) : hash :=
  role_root (string_bytes "BLOCH:VALIDATOR:COMMISSION:V1") (cu_intent t).
Definition ld_intent_root (t : L2Deposit) : hash := role_root (string_bytes "BLOCH:L2:DEPOSIT:V1") (ld_intent t).
Definition la_intent_root (t : L2DataAvailability) : hash :=
  role_root (string_bytes "BLOCH:L2:DA:V1") (la_intent t).
Definition lc_intent_root (t : L2WithdrawClaim) : hash :=
  role_root (string_bytes "BLOCH:L2:CLAIM:V1") (lc_intent t).
Definition wr_signing_root (t : WithdrawalCredentialRotation) : hash :=
  role_root (string_bytes "BLOCH:VALIDATOR:WITHDRAWAL-CREDENTIAL:V1") (wr_intent t).
Definition rc_signing_root (t : RescueCommit) : hash :=
  role_root (string_bytes "BLOCH:PQ-RESCUE:COMMIT-ID:V1") (rc_bytes t).
Definition rv_signing_root (t : RescueReveal) : hash :=
  role_root (string_bytes "BLOCH:PQ-RESCUE:REVEAL:V1") (rv_intent t).

Definition spend_signing_root (tx : PosTransaction) : hash :=
  match tx with
  | Transfer t =>
      sha3_256 (DS_SPEND ++ fold_spend (spends_v1 t) (t_outputs t) (t_tx_bytes t) (t_tip t))
  | TransferV2 t =>
      sha3_256 (DS_SPEND ++ fold_spend (spends_v2 t) (t2_outputs t) (t2_tx_bytes t) (t2_tip t))
  | TxFundedDeposit t => fd_intent_root t
  | TxFundedDelegate t => fe_signing_root t
  | TxFundedUndelegate t => fu_signing_root t
  | TxFundedDelegationWithdraw t => fw_signing_root t
  | TxValidatorCommissionUpdate t => cu_signing_root t
  | TxL2Deposit t => ld_intent_root t
  | TxL2DataAvailability t => la_intent_root t
  | TxL2WithdrawClaim t => lc_intent_root t
  | TxWithdrawalCredentialRotation t => wr_signing_root t
  | TxRescueCommit t => rc_signing_root t
  | TxRescueReveal t => rv_signing_root t
  | other => sha3_256 (DS_SPEND ++ canonical_bytes other)
  end.

Definition txid (tx : PosTransaction) : hash := sha3_256 (DS_TXID ++ hash_bytes (spend_signing_root tx)).

Definition fold_network_binding (base binding : hash) : hash :=
  sha3_256 (DS_SPEND2 ++ hash_bytes binding ++ hash_bytes base).

Definition network_binding : hash :=
  let label := string_bytes "BLCH4:GENESIS-4:MAINNET" in
  from_hash_bytes (label ++ replicate (32 - length label) 0).

Definition checked_signing_root (tx : PosTransaction) (epoch : Z) : hash :=
  if negb (sighash_network_binding_active epoch) then spend_signing_root tx
  else fold_network_binding (spend_signing_root tx) network_binding.

Definition checked_signing_root_for_network (tx : PosTransaction) (epoch : Z)
    (network_domain : option hash) : option hash :=
  if negb (sighash_network_binding_active epoch) then Some (spend_signing_root tx)
  else (λ domain, fold_network_binding (spend_signing_root tx) domain) <$> network_domain.

End roots.

(** ** Well-formed values: every field in its width and its bounds *)

Definition input_wf (i : TransferInput) : Prop :=
  is_hash (ti_txid i) ∧ is_int 4 (ti_vout i) ∧ is_bytes any (ti_pubkey i) ∧ is_bytes any (ti_signature i).
Definition key_wf (k : WitnessKey) : Prop := is_bytes any (wk_pubkey k) ∧ is_bytes any (wk_signature k).
Definition input_v2_wf (i : TransferInputV2) : Prop :=
  is_hash (ti2_txid i) ∧ is_int 4 (ti2_vout i) ∧ is_int 4 (key_index i).
Definition output_wf (o : TransferOutput) : Prop := is_int 8 (out_value o) ∧ is_hash (out_script_hash o).
Definition funding_wf (i : FundingInput) : Prop := is_hash (fi_txid i) ∧ is_int 4 (fi_vout i).

Definition transfer_wf (t : TransferTx) : Prop :=
  is_vec input_wf any (t_inputs t) ∧ is_vec output_wf any (t_outputs t) ∧
  is_int 8 (t_tx_bytes t) ∧ is_int 16 (t_tip t).
Definition transfer_v2_wf (t : TransferV2Tx) : Prop :=
  is_vec key_wf any (t2_keys t) ∧ is_vec input_v2_wf any (t2_inputs t) ∧
  is_vec output_wf any (t2_outputs t) ∧ is_int 8 (t2_tx_bytes t) ∧ is_int 16 (t2_tip t).

Ltac codec_done := apply Codec.codec_last; [solve [eauto with codec]|];
  let a := fresh "a" in intros ? a _; destruct a; simpl; split;
    [intros; destruct_and?; by subst|intros [=]; subst; by repeat split].

Lemma codec_input : codec input_wf enc_input dec_input.
Proof. apply codec_start. codec_field ti_txid. codec_field ti_vout. codec_field ti_pubkey. codec_done. Qed.
Lemma codec_key : codec key_wf enc_key dec_key.
Proof. apply codec_start. codec_field wk_pubkey. codec_done. Qed.
Lemma codec_input_v2 : codec input_v2_wf enc_input_v2 dec_input_v2.
Proof. apply codec_start. codec_field ti2_txid. codec_field ti2_vout. codec_done. Qed.
Lemma codec_output : codec output_wf enc_output dec_output.
Proof. apply codec_start. codec_field out_value. codec_done. Qed.
Lemma codec_funding : codec funding_wf enc_funding dec_funding.
Proof. apply codec_start. codec_field fi_txid. codec_done. Qed.
Lemma codec_list {A} (P : A → Prop) enc dec :
  codec P enc dec → codec (is_vec P any) (put_vec enc) (r_list dec).
Proof. apply codec_vec. Qed.
Lemma codec_bounded max tag : codec (is_bytes (upto max)) put (bounded max tag).
Proof. apply codec_bytes_if. Qed.
Lemma codec_key_exact tag : codec (is_bytes (λ n, n =? ADMISSION_PQ_KEY_BYTES)) put (key_exact tag).
Proof. apply codec_bytes_if. Qed.

Lemma codec_bool : codec (λ _ : bool, True) enc_bool dec_bool.
Proof.
  unfold dec_bool. destruct codec_u8 as [H1 H2]. unfold mbind, Reader_bind. split.
  - intros b rest _. destruct b.
    + change (enc_bool true ++ rest) with (le_bytes 1 1 ++ rest). by rewrite H1.
    + change (enc_bool false ++ rest) with (le_bytes 1 0 ++ rest). by rewrite H1.
  - intros bs b rest Hb. destruct (r_u8 bs) as [[x r]|] eqn:E; [|done]. apply H2 in E as [Hx ->]; [|done].
    destruct (Z.eqb_spec x 0) as [->|]; [by intros [= <- <-]|].
    destruct (Z.eqb_spec x 1) as [->|]; [by intros [= <- <-]|done].
Qed.

Lemma codec_header : codec Header.header_wf Header.canonical_serialize dec_header.
Proof.
  unfold dec_header. destruct (codec_take Header.ENCODED_LEN) as [_ H2].
  unfold mbind, Reader_bind. split.
  - intros h rest Hh. rewrite r_take_app by apply Header.length_serialize.
    by rewrite Header.deserialize_serialize.
  - intros bs h rest Hb. destruct (r_take _ bs) as [[raw r]|] eqn:E; [|done].
    apply H2 in E as [[Hr Hl] ->]; [|done].
    destruct (Header.canonical_deserialize raw) as [h'|] eqn:E; [|done]. intros [= <- <-].
    split; [by apply (Header.deserialize_wf raw)|]. by rewrite (Header.serialize_deserialize _ _ Hr E).
Qed.
#[local] Hint Resolve codec_input codec_key codec_input_v2 codec_output codec_funding codec_list
  codec_bounded codec_key_exact codec_bool codec_header : codec.

Lemma codec_transfer : codec transfer_wf enc_transfer dec_transfer.
Proof. apply codec_start. codec_field t_inputs. codec_field t_outputs. codec_field t_tx_bytes. codec_done. Qed.
Lemma codec_transfer_v2 : codec transfer_v2_wf enc_transfer_v2 dec_transfer_v2.
Proof.
  apply codec_start. codec_field t2_keys. codec_field t2_inputs. codec_field t2_outputs.
  codec_field t2_tx_bytes. codec_done.
Qed.

Definition deposit_wf (d : WireDeposit) : Prop :=
  is_bytes any (d_pubkey d) ∧ is_int 16 (d_amount_sat d) ∧ is_hash (d_randao_commitment d) ∧
  is_bytes any (d_withdrawal_credentials d) ∧ is_int 16 (d_commission_bps d) ∧
  is_bytes any (d_proof_of_possession d).
Lemma codec_deposit : codec deposit_wf enc_deposit dec_deposit.
Proof.
  apply codec_start. codec_field d_pubkey. codec_field d_amount_sat. codec_field d_randao_commitment.
  codec_field d_withdrawal_credentials. codec_field d_commission_bps. codec_done.
Qed.

Definition exit_v2_wf (x : ExitV2) : Prop :=
  is_hash (xv_pubkey_hash x) ∧ is_int 8 (xv_epoch x) ∧ is_bytes any (xv_signature x).
Lemma codec_exit_v2 : codec exit_v2_wf enc_exit_v2 dec_exit_v2.
Proof. apply codec_start. codec_field xv_pubkey_hash. codec_field xv_epoch. codec_done. Qed.

Definition recommit_wf (r : RandaoRecommit) : Prop :=
  is_int 4 (rr_validator r) ∧ is_hash (rr_new_commitment r) ∧ is_int 8 (rr_epoch r) ∧
  is_bytes any (rr_signature r).
Lemma codec_recommit : codec recommit_wf enc_recommit dec_recommit.
Proof.
  apply codec_start. codec_field rr_validator. codec_field rr_new_commitment. codec_field rr_epoch. codec_done.
Qed.

Definition kes_register_wf (k : KesRegister) : Prop :=
  is_int 4 (kr_validator k) ∧ is_int 1 (kr_depth k) ∧ is_hash (kr_root k) ∧ is_bytes any (kr_signature k).
Lemma codec_kes_register : codec kes_register_wf enc_kes_register dec_kes_register.
Proof. apply codec_start. codec_field kr_validator. codec_field kr_depth. codec_field kr_root. codec_done. Qed.

Definition kes_rotate_wf (k : KesRotate) : Prop :=
  is_int 4 (ko_validator k) ∧ is_int 8 (ko_period k) ∧ is_int 1 (ko_depth k) ∧ is_hash (ko_root k) ∧
  is_bytes any (ko_signature k).
Lemma codec_kes_rotate : codec kes_rotate_wf enc_kes_rotate dec_kes_rotate.
Proof.
  apply codec_start. codec_field ko_validator. codec_field ko_period. codec_field ko_depth.
  codec_field ko_root. codec_done.
Qed.

Definition delegate_wf (d : DelegateTx) : Prop :=
  is_int 4 (dg_delegator d) ∧ is_int 4 (dg_validator d) ∧ is_int 16 (dg_amount_sat d) ∧ True.
Lemma codec_delegate : codec delegate_wf enc_delegate dec_delegate.
Proof.
  apply codec_start. codec_field dg_delegator. codec_field dg_validator. codec_field dg_amount_sat.
  apply (codec_last dg_eligible (λ _, True)); [apply codec_bool|]. intros ? a _. destruct a; simpl; naive_solver.
Qed.

Definition envelope_wf (e : Slashing.ProposalEnvelope) : Prop :=
  Header.header_wf (Slashing.env_header e) ∧ is_bytes any (Slashing.proposer_sig e).
Lemma codec_envelope : codec envelope_wf enc_envelope dec_envelope.
Proof. apply codec_start. codec_field Slashing.env_header. codec_done. Qed.

Definition data_wf (d : AttestationData) : Prop :=
  is_int 8 (slot d) ∧ is_hash (head d) ∧ is_int 8 (source_epoch d) ∧ is_hash (source_root d) ∧
  is_int 8 (target_epoch d) ∧ is_hash (target_root d).
Lemma codec_data : codec data_wf enc_data dec_data.
Proof.
  apply codec_start. codec_field slot. codec_field head. codec_field source_epoch.
  codec_field source_root. codec_field target_epoch. codec_done.
Qed.
#[local] Hint Resolve codec_envelope codec_data : codec.

Definition attestation_wf (a : Attestation) : Prop :=
  is_int 4 (att_validator a) ∧ data_wf (att_data a) ∧ is_bytes any (att_signature a).
Lemma codec_attestation : codec attestation_wf enc_attestation dec_attestation.
Proof. apply codec_start. codec_field att_validator. codec_field att_data. codec_done. Qed.
#[local] Hint Resolve codec_attestation : codec.

Definition evidence_wf (ev : Slashing.AnyEvidence) : Prop :=
  match ev with
  | Slashing.ProposerEquivocationEvidence a b => envelope_wf a ∧ envelope_wf b
  | Slashing.AttestationOffence a b => attestation_wf a ∧ attestation_wf b
  end.

(** A pair read one after the other. *)
Lemma codec_pair {A B} (C : A → A → B) (P : A → Prop) enc dec bs b rest :
  codec P enc dec → Forall is_byte bs → (x ← dec; y ← dec; mret (C x y)) bs = Ok (b, rest) →
  ∃ x y, b = C x y ∧ P x ∧ P y ∧ bs = (enc x ++ enc y) ++ rest.
Proof.
  intros [H1 H2] Hb. unfold mbind, mret, Reader_bind, Reader_ret.
  destruct (dec bs) as [[x r]|] eqn:E; [|done]. apply H2 in E as [Hx ->]; [|done].
  apply Forall_app in Hb as [_ Hb].
  destruct (dec r) as [[y r']|] eqn:E; [|done]. apply H2 in E as [Hy ->]; [|done].
  intros [= <- <-]. exists x, y. by rewrite <- app_assoc.
Qed.

Lemma codec_evidence : codec evidence_wf enc_evidence dec_evidence.
Proof.
  unfold dec_evidence. destruct codec_u8 as [U1 U2]. unfold mbind at 1, Reader_bind at 1. split.
  - intros ev rest Hev. destruct ev as [a b|a b]; destruct Hev as [Ha Hb]; cbn [enc_evidence].
    + change ((1 :: enc_envelope a ++ enc_envelope b) ++ rest)
        with (le_bytes 1 1 ++ (enc_envelope a ++ enc_envelope b) ++ rest).
      rewrite U1, <- app_assoc by done. cbn [Z.eqb Pos.eqb]. unfold mbind, mret, Reader_bind, Reader_ret.
      by rewrite (proj1 codec_envelope), (proj1 codec_envelope).
    + change ((2 :: enc_attestation a ++ enc_attestation b) ++ rest)
        with (le_bytes 1 2 ++ (enc_attestation a ++ enc_attestation b) ++ rest).
      rewrite U1, <- app_assoc by done. cbn [Z.eqb Pos.eqb]. unfold mbind, mret, Reader_bind, Reader_ret.
      by rewrite (proj1 codec_attestation), (proj1 codec_attestation).
  - intros bs ev rest Hb. destruct (r_u8 bs) as [[x r]|] eqn:E; [|done].
    apply U2 in E as [Hx ->]; [|done]. apply Forall_app in Hb as [_ Hb].
    destruct (Z.eqb_spec x 1) as [->|].
    { intros E. apply (codec_pair _ _ _ _ _ _ _ codec_envelope Hb) in E as (a & b & -> & Ha & Hb' & ->). done. }
    destruct (Z.eqb_spec x 2) as [->|]; [|done].
    intros E. apply (codec_pair _ _ _ _ _ _ _ codec_attestation Hb) in E as (a & b & -> & Ha & Hb' & ->). done.
Qed.

Notation key_upto := (is_bytes (upto ADMISSION_PQ_KEY_BYTES)).
Notation sig_upto := (is_bytes (upto ADMISSION_PQ_SIGNATURE_MAX)).
Notation slh_sig_upto := (is_bytes (upto SLH_SUITE_SIGNATURE_MAX)).
Notation key_exactly := (is_bytes (λ n, n =? ADMISSION_PQ_KEY_BYTES)).

Definition funded_deposit_wf (t : FundedDeposit) : Prop :=
  is_hash (fd_network_domain t) ∧ is_int 8 (fd_valid_until_epoch t) ∧ key_upto (fd_funding_pubkey t) ∧
  is_vec funding_wf (upto MAX_FUNDING_INPUTS) (fd_inputs t) ∧ key_upto (fd_validator_pubkey t) ∧
  is_int 16 (fd_amount_sat t) ∧ is_hash (fd_randao_commitment t) ∧ is_hash (fd_withdrawal_credentials t) ∧
  is_int 16 (fd_commission_bps t) ∧ output_wf (fd_change t) ∧ is_int 16 (fd_max_base_fee t) ∧
  is_int 16 (fd_tip t) ∧ is_int 8 (fd_tx_bytes t) ∧ sig_upto (fd_funding_signature t) ∧
  sig_upto (fd_proof_of_possession t).
Lemma codec_funded_deposit :
  codec funded_deposit_wf (λ t, fd_fields t ++ put (fd_funding_signature t) ++ put (fd_proof_of_possession t))
    dec_funded_deposit.
Proof.
  unfold fd_fields. apply codec_start. codec_field fd_network_domain. codec_field fd_valid_until_epoch.
  codec_field fd_funding_pubkey. codec_field fd_inputs. codec_field fd_validator_pubkey.
  codec_field fd_amount_sat. codec_field fd_randao_commitment. codec_field fd_withdrawal_credentials.
  codec_field fd_commission_bps. codec_field fd_change. codec_field fd_max_base_fee. codec_field fd_tip.
  codec_field fd_tx_bytes. codec_field fd_funding_signature. codec_done.
Qed.

Definition funded_delegate_wf (t : FundedDelegate) : Prop :=
  is_hash (fe_network_domain t) ∧ is_int 8 (fe_valid_until_epoch t) ∧ key_upto (fe_funding_pubkey t) ∧
  is_vec funding_wf (upto MAX_FUNDING_INPUTS) (fe_inputs t) ∧ is_hash (fe_validator_pubkey_hash t) ∧
  is_int 16 (fe_amount_sat t) ∧ output_wf (fe_change t) ∧ is_int 16 (fe_max_base_fee t) ∧
  is_int 16 (fe_tip t) ∧ is_int 8 (fe_tx_bytes t) ∧ sig_upto (fe_funding_signature t).
Lemma codec_funded_delegate :
  codec funded_delegate_wf (λ t, fe_fields t ++ put (fe_funding_signature t)) dec_funded_delegate.
Proof.
  unfold fe_fields. apply codec_start. codec_field fe_network_domain. codec_field fe_valid_until_epoch.
  codec_field fe_funding_pubkey. codec_field fe_inputs. codec_field fe_validator_pubkey_hash.
  codec_field fe_amount_sat. codec_field fe_change. codec_field fe_max_base_fee. codec_field fe_tip.
  codec_field fe_tx_bytes. codec_done.
Qed.

Definition funded_undelegate_wf (t : FundedUndelegate) : Prop :=
  is_hash (fu_network_domain t) ∧ is_int 8 (fu_epoch t) ∧ is_int 4 (fu_delegator_id t) ∧
  is_int 4 (fu_position t) ∧ key_upto (fu_funding_pubkey t) ∧ sig_upto (fu_signature t).
Lemma codec_funded_undelegate :
  codec funded_undelegate_wf (λ t, fu_fields t ++ put (fu_signature t)) dec_funded_undelegate.
Proof.
  unfold fu_fields. apply codec_start. codec_field fu_network_domain. codec_field fu_epoch.
  codec_field fu_delegator_id. codec_field fu_position. codec_field fu_funding_pubkey. codec_done.
Qed.

Definition funded_withdraw_wf (t : FundedDelegationWithdraw) : Prop :=
  is_hash (fw_network_domain t) ∧ is_int 8 (fw_epoch t) ∧ is_int 4 (fw_delegator_id t) ∧
  is_int 4 (fw_position t) ∧ key_upto (fw_funding_pubkey t) ∧ is_hash (fw_destination t) ∧
  is_int 16 (fw_max_base_fee t) ∧ sig_upto (fw_signature t).
Lemma codec_funded_withdraw :
  codec funded_withdraw_wf (λ t, fw_fields t ++ put (fw_signature t)) dec_funded_withdraw.
Proof.
  unfold fw_fields. apply codec_start. codec_field fw_network_domain. codec_field fw_epoch.
  codec_field fw_delegator_id. codec_field fw_position. codec_field fw_funding_pubkey.
  codec_field fw_destination. codec_field fw_max_base_fee. codec_done.
Qed.

Definition commission_wf (t : ValidatorCommissionUpdate) : Prop :=
  is_hash (cu_network_domain t) ∧ is_int 8 (cu_epoch t) ∧ is_int 4 (cu_validator t) ∧
  is_int 16 (cu_commission_bps t) ∧ sig_upto (cu_signature t).
Lemma codec_commission : codec commission_wf (λ t, cu_fields t ++ put (cu_signature t)) dec_commission.
Proof.
  unfold cu_fields. apply codec_start. codec_field cu_network_domain. codec_field cu_epoch.
  codec_field cu_validator. codec_field cu_commission_bps. codec_done.
Qed.

Definition rotation_wf (t : WithdrawalCredentialRotation) : Prop :=
  is_hash (wr_network_domain t) ∧ is_int 8 (wr_epoch t) ∧ is_int 4 (wr_validator t) ∧
  key_upto (wr_authorizing_pubkey t) ∧ key_upto (wr_new_pubkey t) ∧
  slh_sig_upto (wr_authorizing_signature t) ∧ slh_sig_upto (wr_new_key_signature t).
Lemma codec_rotation :
  codec rotation_wf (λ t, wr_fields t ++ put (wr_authorizing_signature t) ++ put (wr_new_key_signature t))
    dec_rotation.
Proof.
  unfold wr_fields. apply codec_start. codec_field wr_network_domain. codec_field wr_epoch.
  codec_field wr_validator. codec_field wr_authorizing_pubkey. codec_field wr_new_pubkey.
  codec_field wr_authorizing_signature. codec_done.
Qed.

Definition rescue_commit_wf (t : RescueCommit) : Prop :=
  is_hash (rc_network_domain t) ∧ is_hash (rc_commitment t).
Lemma codec_rescue_commit :
  codec rescue_commit_wf (λ t, hash_bytes (rc_network_domain t) ++ hash_bytes (rc_commitment t))
    dec_rescue_commit.
Proof. apply codec_start. codec_field rc_network_domain. codec_done. Qed.

Definition rescue_reveal_wf (t : RescueReveal) : Prop :=
  is_hash (rv_network_domain t) ∧ key_upto (rv_pubkey t) ∧ is_vec funding_wf any (rv_inputs t) ∧
  is_hash (rv_destination t) ∧ is_int 16 (rv_tip t) ∧ is_int 8 (rv_tx_bytes t) ∧
  slh_sig_upto (rv_signature t).
Lemma codec_rescue_reveal :
  codec rescue_reveal_wf (λ t, rv_fields t ++ put (rv_signature t)) dec_rescue_reveal.
Proof.
  unfold rv_fields. apply codec_start. codec_field rv_network_domain. codec_field rv_pubkey.
  codec_field rv_inputs. codec_field rv_destination. codec_field rv_tip. codec_field rv_tx_bytes. codec_done.
Qed.

Definition l2_deposit_wf (t : L2Deposit) : Prop :=
  is_hash (ld_network_domain t) ∧ key_exactly (ld_funding_pubkey t) ∧
  is_vec funding_wf (one_to MAX_DEPOSIT_INPUTS) (ld_inputs t) ∧ is_int 8 (ld_amount_sat t) ∧
  is_array 20 (ld_recipient t) ∧ output_wf (ld_change t) ∧
  is_int 8 (ld_tx_bytes t) ∧ is_int 16 (ld_tip t) ∧ sig_upto (ld_signature t).
Lemma codec_l2_deposit : codec l2_deposit_wf (λ t, ld_fields t ++ put (ld_signature t)) dec_l2_deposit.
Proof.
  unfold ld_fields. apply codec_start. codec_field ld_network_domain. codec_field ld_funding_pubkey.
  codec_field ld_inputs. codec_field ld_amount_sat.
  codec_right. apply (codec_bind ld_recipient (is_array 20) _ _ (λ l, l)); [apply codec_take|]; intros ? _.
  codec_field ld_change. codec_field ld_tx_bytes. codec_field ld_tip. codec_done.
Qed.

Definition l2_da_wf (t : L2DataAvailability) : Prop :=
  is_hash (la_network_domain t) ∧ key_exactly (la_funding_pubkey t) ∧
  is_vec funding_wf (one_to DA_MAX_INPUTS) (la_inputs t) ∧ is_int 8 (la_chain_id t) ∧
  is_int 8 (la_block_number t) ∧ is_bytes (upto DA_MAX_PAYLOAD_BYTES) (la_payload t) ∧
  output_wf (la_change t) ∧ is_int 8 (la_tx_bytes t) ∧ is_int 16 (la_tip t) ∧ sig_upto (la_signature t).
Lemma codec_l2_da : codec l2_da_wf (λ t, la_fields t ++ put (la_signature t)) dec_l2_da.
Proof.
  unfold la_fields. apply codec_start. codec_field la_network_domain. codec_field la_funding_pubkey.
  codec_field la_inputs. codec_field la_chain_id. codec_field la_block_number. codec_field la_payload.
  codec_field la_change. codec_field la_tx_bytes. codec_field la_tip. codec_done.
Qed.

(** The counts written before the keys and the signatures of a claim's attestation. *)
Definition n_keys (a : ClaimAttestation) : Z := Z.of_nat (length (ca_keys a)).
Definition n_signatures (a : ClaimAttestation) : Z := Z.of_nat (length (ca_signatures a)).

Definition claim_sig_wf (x : Z * list Z) : Prop := is_int 1 x.1 ∧ sig_upto x.2.
Definition claim_attestation_wf (a : ClaimAttestation) : Prop :=
  is_int 1 (ca_threshold a) ∧ 1 ≤ n_keys a ≤ MAX_ATTESTORS ∧
  Forall (is_array (Z.to_nat ADMISSION_PQ_KEY_BYTES)) (ca_keys a) ∧
  n_signatures a ≤ n_keys a ∧ Forall claim_sig_wf (ca_signatures a).

Lemma codec_claim_sig bad :
  codec claim_sig_wf (λ x, le_bytes 1 x.1 ++ put x.2) (dec_claim_sig bad).
Proof. apply codec_start. codec_field (@fst Z (list Z)). codec_done. Qed.

Lemma codec_claim_attestation bad :
  codec claim_attestation_wf enc_claim_attestation (dec_claim_attestation bad).
Proof.
  apply (codec_ext (λ a, True ∧ is_int 1 (ca_threshold a) ∧ is_int 1 (n_keys a) ∧ claim_attestation_wf a)).
  { intros a. unfold claim_attestation_wf, is_int, MAX_ATTESTORS. change (256 ^ Z.of_nat 1) with 256.
    split; [tauto|]. intros (? & ? & Ha). split; [done|]. split; [done|]. split; [lia|]. done. }
  eapply (codec_bind ca_threshold); [apply codec_u8|]. intros th Hth.
  eapply (codec_bind n_keys); [apply codec_u8|]. intros nk Hnk.
  apply codec_check; [intros Hb a [[_ Hn] (_ & Ha & _)]; unfold MAX_ATTESTORS in *; lia|]. intros Hb.
  match goal with |- codec (λ a, (@?Q a ∧ n_keys a = ?n) ∧ _) _ _ =>
    eapply (codec_ext (λ a, (Q a ∧ n_keys a = n) ∧
      is_list (is_array (Z.to_nat ADMISSION_PQ_KEY_BYTES)) (Z.to_nat n) (ca_keys a) ∧
      is_int 1 (n_signatures a) ∧ claim_attestation_wf a)) end.
  { intros a. unfold claim_attestation_wf, is_int, is_list, MAX_ATTESTORS, n_keys, n_signatures.
    change (256 ^ Z.of_nat 1) with 256. split; [tauto|]. intros ([? Hn] & ? & ? & ? & ? & ?).
    repeat split; try done; lia. }
  eapply (codec_bind ca_keys); [apply codec_vec_n, codec_take|]. intros keys Hkeys.
  eapply (codec_bind n_signatures); [apply codec_u8|]. intros ns Hns.
  apply codec_check; [intros Hlt a H; unfold claim_attestation_wf in H; lia|]. intros Hle.
  unfold is_int, is_list, n_keys, n_signatures, MAX_ATTESTORS in *. change (256 ^ Z.of_nat 1) with 256 in *.
  eapply codec_ext; [|apply (codec_last ca_signatures (is_list claim_sig_wf (Z.to_nat ns)) (λ a,
    (((True ∧ ca_threshold a = th) ∧ n_keys a = nk) ∧ ca_keys a = keys) ∧ n_signatures a = ns));
    [apply codec_vec_n, codec_claim_sig|]].
  - intros a. unfold claim_attestation_wf, is_list, n_keys, n_signatures, is_int, MAX_ATTESTORS.
    change (256 ^ Z.of_nat 1) with 256. split.
    + intros [[[[[_ Ht] Hk] Hks] Hs] [HF Hl]]. rewrite Hks. repeat split; try done; try lia; subst; tauto.
    + intros [[[[[_ Ht] Hk] Hks] Hs] Hw]. repeat split; try done; try tauto; lia.
  - intros x a [Hx Hl]. destruct a as [t k s]. unfold n_keys, n_signatures; cbn. split.
    + intros [[[[[_ ->] Hk] ->] Hs] ->]. done.
    + intros [= -> -> ->]. repeat split; try done; destruct Hkeys; lia.
Qed.


Definition enc_claim_option (o : option ClaimAttestation) : list Z :=
  match o with Some a => enc_claim_attestation a | None => [] end.
Definition option_version (o : option ClaimAttestation) : Z :=
  match o with Some _ => CLAIM_VERSION_ATTESTED | None => CLAIM_VERSION end.
Definition claim_option_wf (o : option ClaimAttestation) : Prop :=
  match o with Some a => claim_attestation_wf a | None => True end.

Lemma codec_claim_option bad version :
  version = CLAIM_VERSION ∨ version = CLAIM_VERSION_ATTESTED →
  codec (λ o, claim_option_wf o ∧ option_version o = version) enc_claim_option (dec_claim_option bad version).
Proof.
  destruct (codec_claim_attestation bad) as [H1 H2]. unfold dec_claim_option.
  unfold mbind, mret, Reader_bind, Reader_ret. intros [-> | ->]; cbn [Z.eqb CLAIM_VERSION CLAIM_VERSION_ATTESTED Pos.eqb].
  - split; [|by intros bs o rest _ [= <- <-]]. by intros [a|] rest (_ & ?).
  - split.
    + intros [a|] rest (? & ?); [|done]. cbn [enc_claim_option]. by rewrite H1.
    + intros bs o rest Hb. destruct (dec_claim_attestation bad bs) as [[x r]|] eqn:E; [|done].
      apply H2 in E as [? ->]; [|done]. by intros [= <- <-].
Qed.

Definition l2_claim_wf (t : L2WithdrawClaim) : Prop :=
  is_hash (lc_network_domain t) ∧ key_exactly (lc_funding_pubkey t) ∧
  is_vec funding_wf (one_to MAX_CLAIM_INPUTS) (lc_inputs t) ∧ is_int 8 (lc_chain_id t) ∧
  is_int 8 (lc_index t) ∧ is_hash (lc_l1_recipient t) ∧ is_int 8 (lc_sats t) ∧
  is_list is_hash TREE_DEPTH (lc_siblings t) ∧ output_wf (lc_release t) ∧ output_wf (lc_change t) ∧
  is_int 8 (lc_tx_bytes t) ∧ is_int 16 (lc_tip t) ∧ claim_option_wf (lc_attestation t) ∧
  sig_upto (lc_signature t).

Lemma codec_l2_claim : codec l2_claim_wf (λ t, lc_fields t ++ put (lc_signature t)) dec_l2_claim.
Proof.
  apply (codec_ext (λ t, True ∧ is_int 1 (claim_version t) ∧ l2_claim_wf t)).
  { intros t. split; [tauto|]. intros. split; [done|]. split; [|done].
    unfold claim_version. by destruct (lc_attestation t). }
  unfold lc_fields. codec_right. eapply (codec_bind claim_version); [apply codec_u8|]. intros ver _.
  apply codec_check.
  { intros Hv t [[_ Ht] _]. unfold claim_version in Ht. destruct (lc_attestation t); subst ver; done. }
  intros Hv. assert (ver = CLAIM_VERSION ∨ ver = CLAIM_VERSION_ATTESTED) as Hver by lia. clear Hv.
  codec_field lc_network_domain. codec_field lc_funding_pubkey. codec_field lc_inputs.
  codec_field lc_chain_id. codec_field lc_index. codec_field lc_l1_recipient. codec_field lc_sats.
  codec_right. eapply (codec_bind lc_siblings); [apply codec_vec_n, codec_h32|]. intros ? _.
  codec_field lc_release. codec_field lc_change. codec_field lc_tx_bytes. codec_field lc_tip.
  match goal with |- codec (λ t, @?Q t ∧ _) _ _ =>
    eapply (codec_ext (λ t, Q t ∧ (claim_option_wf (lc_attestation t) ∧ option_version (lc_attestation t) = ver)
                              ∧ sig_upto (lc_signature t)));
      [intros t; cbv beta; unfold claim_version, option_version; split; tauto|] end.
  eapply (codec_bind lc_attestation (λ o, claim_option_wf o ∧ option_version o = ver) _ _ enc_claim_option);
    [by apply codec_claim_option|]. intros o [_ Ho].
  apply codec_last; [apply codec_bounded|]. intros s a _. destruct a; simpl. split.
  - intros; destruct_and?; by subst.
  - intros [=]; subst. by repeat split.
Qed.

(** ** The settlement transaction *)

Definition settlement_wf (t : SettlementTx) : Prop :=
  is_hash (proof_policy t) ∧ Forall is_byte (statement t) ∧ statement_ok (statement t) = true ∧
  is_array PROOF_BYTES (proof t).

Lemma statement_ok_length s :
  statement_ok s = true → length s = STATEMENT_BYTES ∨ length s = STATEMENT_V3_BYTES.
Proof. unfold statement_ok. rewrite orb_true_iff, !andb_true_iff, !Nat.eqb_eq. tauto. Qed.

Lemma decode_tag_Some bytes tag t :
  Forall is_byte bytes → decode_tag bytes tag = Some t ↔ settlement_wf t ∧ bytes = encode_tag t tag.
Proof.
  intros Hb. unfold decode_tag. split.
  - set (n := if (length bytes =? _)%nat then _ else _).
    assert (∀ k, n = Some k → length bytes = (33 + k + PROOF_BYTES)%nat) as Hn.
    { intros k. unfold n. destruct (Nat.eqb_spec (length bytes) (1 + 32 + STATEMENT_BYTES + PROOF_BYTES)).
      - intros [= <-]. done.
      - destruct (Nat.eqb_spec (length bytes) (1 + 32 + STATEMENT_V3_BYTES + PROOF_BYTES)); [|done].
        by intros [= <-]. }
    clearbody n. destruct n as [k|]; [|done]. specialize (Hn k eq_refl). cbn [mbind option_bind].
    case_bool_decide as H0; [|done]. cbn [negb].
    destruct (statement_ok _) eqn:Hs; [|done]. intros E; apply (inj Some) in E; subst t.
    destruct bytes as [|b bytes]; [done|]. injection H0 as ->.
    assert (slice 1 33 (tag :: bytes) = slice 0 32 bytes) as E1 by done.
    assert (slice 33 (33 + k) (tag :: bytes) = slice 32 (32 + k) bytes) as E2 by done.
    assert (drop (33 + k) (tag :: bytes) = drop (32 + k) bytes) as E3 by done.
    rewrite E1, E2, E3. rewrite E2 in Hs. clear E1 E2 E3. apply Forall_cons in Hb as [_ Hb]. cbn [length] in Hn.
    split; [split; [|split; [by apply slice_bytes|split; [done|]]]|].
    + apply from_hash_bytes_range; [by apply slice_bytes|]. rewrite length_slice; lia.
    + split; [by apply Forall_drop|]. cbn [proof]. rewrite length_drop. lia.
    + unfold encode_tag. cbn [proof_policy statement proof]. f_equal.
      rewrite hash_bytes_from_hash_bytes; [|by apply slice_bytes|rewrite length_slice; lia].
      rewrite app_assoc, slice_app by lia. unfold slice. by rewrite drop_0, Nat.sub_0_r, take_drop.
  - intros [(Hp & Hst & Hok & Hpf & Hl) ->]. destruct t as [pp st pf]. unfold encode_tag.
    cbn [proof_policy statement proof] in *.
    assert (length (tag :: hash_bytes pp ++ st ++ pf) = 33 + length st + PROOF_BYTES)%nat as Hlen.
    { cbn [length]. rewrite !length_app, length_hash_bytes. lia. }
    assert (slice 1 33 (tag :: hash_bytes pp ++ st ++ pf) = hash_bytes pp) as E1.
    { apply (slice_here 0 32 32); [apply length_hash_bytes|done|done]. }
    assert (slice 33 (33 + length st) (tag :: hash_bytes pp ++ st ++ pf) = st) as E2.
    { change (slice 32 (32 + length st) (hash_bytes pp ++ st ++ pf) = st).
      rewrite (slice_skip _ _ 32) by (apply length_hash_bytes || lia).
      apply (slice_here _ _ (length st)); lia. }
    assert (drop (33 + length st) (tag :: hash_bytes pp ++ st ++ pf) = pf) as E3.
    { change (drop (32 + length st) (hash_bytes pp ++ st ++ pf) = pf). rewrite app_assoc.
      replace (32 + length st)%nat with (length (hash_bytes pp ++ st))
        by (rewrite length_app, length_hash_bytes; done). apply drop_app_length. }
    assert ((if (length (tag :: hash_bytes pp ++ st ++ pf) =? 1 + 32 + STATEMENT_BYTES + PROOF_BYTES)%nat
             then Some STATEMENT_BYTES
             else if (length (tag :: hash_bytes pp ++ st ++ pf) =? 1 + 32 + STATEMENT_V3_BYTES + PROOF_BYTES)%nat
             then Some STATEMENT_V3_BYTES else None) = Some (length st)) as ->.
    { rewrite Hlen. by destruct (statement_ok_length st Hok) as [-> | ->]. }
    cbn [mbind option_bind]. rewrite bool_decide_eq_true_2 by done. cbn [negb].
    rewrite E1, E2, E3, Hok. by rewrite from_hash_bytes_hash_bytes.
Qed.

(** ** Every transaction *)

Definition tx_wf (tx : PosTransaction) : Prop :=
  match tx with
  | L2Settlement t | L2SettlementAsync t => settlement_wf t
  | TxFundedDeposit t => funded_deposit_wf t
  | TxFundedDelegate t => funded_delegate_wf t
  | TxFundedUndelegate t => funded_undelegate_wf t
  | TxFundedDelegationWithdraw t => funded_withdraw_wf t
  | TxValidatorCommissionUpdate t => commission_wf t
  | TxL2Deposit t => l2_deposit_wf t
  | TxL2DataAvailability t => l2_da_wf t
  | TxL2WithdrawClaim t => l2_claim_wf t
  | TxWithdrawalCredentialRotation t => rotation_wf t
  | TxRescueCommit t => rescue_commit_wf t
  | TxRescueReveal t => rescue_reveal_wf t
  | Transfer t => transfer_wf t
  | TransferV2 t => transfer_v2_wf t
  | Deposit t => deposit_wf t
  | Exit v | Withdraw v => is_int 4 v
  | TxExitV2 t => exit_v2_wf t
  | TxRandaoRecommit t => recommit_wf t
  | TxKesRegister t => kes_register_wf t
  | TxKesRotate t => kes_rotate_wf t
  | Delegate t => delegate_wf t
  | TxSlashingEvidence ev => evidence_wf ev
  end.

(** The first byte. *)
Definition tx_tag (tx : PosTransaction) : Z :=
  match tx with
  | L2Settlement _ => WIRE_TAG
  | L2SettlementAsync _ => ASYNC_WIRE_TAG
  | TxFundedDeposit _ => FUNDED_DEPOSIT_TAG
  | TxFundedDelegate _ => FUNDED_DELEGATE_TAG
  | TxFundedUndelegate _ => FUNDED_UNDELEGATE_TAG
  | TxFundedDelegationWithdraw _ => FUNDED_DELEGATION_WITHDRAW_TAG
  | TxValidatorCommissionUpdate _ => VALIDATOR_COMMISSION_UPDATE_TAG
  | TxL2Deposit _ => L2_DEPOSIT_TAG
  | TxL2DataAvailability _ => L2_DATA_AVAILABILITY_TAG
  | TxL2WithdrawClaim _ => L2_WITHDRAW_CLAIM_TAG
  | TxWithdrawalCredentialRotation _ => WITHDRAWAL_CREDENTIAL_ROTATION_TAG
  | TxRescueCommit _ => RESCUE_COMMIT_TAG
  | TxRescueReveal _ => RESCUE_REVEAL_TAG
  | Transfer _ => 0x01
  | TransferV2 _ => 0x06
  | Deposit _ => 0x02
  | Exit _ => 0x03
  | Withdraw _ => 0x0D
  | TxExitV2 _ => 0x0C
  | TxRandaoRecommit _ => 0x0A
  | TxKesRegister _ => REGISTER_TAG
  | TxKesRotate _ => ROTATE_TAG
  | Delegate _ => 0x04
  | TxSlashingEvidence _ => 0x05
  end.

Definition tx_body (tx : PosTransaction) : list Z := drop 1 (canonical_bytes tx).

Lemma canonical_bytes_cons tx : canonical_bytes tx = tx_tag tx :: tx_body tx.
Proof. by destruct tx. Qed.

(** One branch of the decoder: of the tags, only that of its own variant starts a
    transaction. *)
Ltac tag_case T H :=
  match goal with
  | Hb : Forall is_byte _ |- context [(if ?tag =? _ then _ else _) _ = Ok (?tx, _)] =>
      destruct (Z.eqb_spec tag T) as [->|];
      [ rewrite (codec_variant _ _ _ _ _ _ H Hb); split;
        [ let x := fresh in intros (x & -> & ? & ->); done
        | let Ht := fresh in intros (? & Ht & -> & _); destruct tx; try discriminate Ht; by eexists ]
      | ]
  end.

Lemma dec_tagged_Ok tag body tx :
  Forall is_byte body → dec_tagged tag body = Ok (tx, []) ↔
  tx_wf tx ∧ tag = tx_tag tx ∧ body = tx_body tx ∧ tag ≠ WIRE_TAG ∧ tag ≠ ASYNC_WIRE_TAG.
Proof.
  intros Hb. unfold dec_tagged.
  tag_case FUNDED_DEPOSIT_TAG codec_funded_deposit.
  tag_case FUNDED_DELEGATE_TAG codec_funded_delegate.
  tag_case FUNDED_UNDELEGATE_TAG codec_funded_undelegate.
  tag_case FUNDED_DELEGATION_WITHDRAW_TAG codec_funded_withdraw.
  tag_case VALIDATOR_COMMISSION_UPDATE_TAG codec_commission.
  tag_case L2_DEPOSIT_TAG codec_l2_deposit.
  tag_case L2_DATA_AVAILABILITY_TAG codec_l2_da.
  tag_case L2_WITHDRAW_CLAIM_TAG codec_l2_claim.
  tag_case WITHDRAWAL_CREDENTIAL_ROTATION_TAG codec_rotation.
  tag_case RESCUE_COMMIT_TAG codec_rescue_commit.
  tag_case RESCUE_REVEAL_TAG codec_rescue_reveal.
  tag_case 0x01 codec_transfer.
  tag_case 0x02 codec_deposit.
  tag_case 0x03 codec_u32.
  tag_case 0x04 codec_delegate.
  tag_case 0x0C codec_exit_v2.
  tag_case 0x0D codec_u32.
  tag_case REGISTER_TAG codec_kes_register.
  tag_case ROTATE_TAG codec_kes_rotate.
  tag_case 0x0A codec_recommit.
  tag_case 0x05 codec_evidence.
  tag_case 0x06 codec_transfer_v2.
  split; [done|]. intros (_ & Ht & _ & ? & ?). exfalso. destruct tx; simpl in Ht; congruence.
Qed.

(** C31: The wire format of transactions is canonical.  A byte string decodes to a
    transaction exactly when it is that transaction's canonical bytes and every field is
    within its width and its bounds: what is written is read back, nothing else reads as
    it, no two transactions share an encoding and no transaction has two.  This holds
    for all 24 kinds of transaction, tags, counts, length prefixes, evidence and
    settlement proofs included. *)
Theorem transaction_codec bytes tx :
  Forall is_byte bytes →
  from_canonical_bytes bytes = Ok tx ↔ tx_wf tx ∧ bytes = canonical_bytes tx.
Proof.
  intros Hb. unfold from_canonical_bytes. rewrite canonical_bytes_cons.
  destruct bytes as [|tag body]; [by split; [|intros [_ ?]]|]. pose proof Hb as Hb0.
  apply Forall_cons in Hb as [Htag Hb].
  case_bool_decide as E1; [|case_bool_decide as E2].
  - injection E1 as ->. rewrite ok_or_Ok, fmap_Some. split.
    + intros (t & Hd & ->). apply decode_tag_Some in Hd as [Hw E]; [|done]. split; [done|]. by rewrite E.
    + intros [Hw [= Ht ->]]. destruct tx; try discriminate Ht. exists tx. split; [|done].
      by apply decode_tag_Some.
  - injection E2 as ->. rewrite ok_or_Ok, fmap_Some. split.
    + intros (t & Hd & ->). apply decode_tag_Some in Hd as [Hw E]; [|done]. split; [done|]. by rewrite E.
    + intros [Hw [= Ht ->]]. destruct tx; try discriminate Ht. exists tx. split; [|done].
      by apply decode_tag_Some.
  - assert (r_u8 (tag :: body) = Ok (tag, body)) as ->.
    { change (tag :: body) with ([tag] ++ body). rewrite <- (Z.mod_small tag 256) at 1 by done.
      by apply (proj1 codec_u8 tag body). }
    cbn [mbind result_bind]. pose proof (dec_tagged_Ok tag body tx Hb) as Hd. split.
    + destruct (dec_tagged tag body) as [[tx' r]|]; [|done]. cbn [mbind result_bind].
      destruct r as [|x r]; [|done]. cbn. intros [= ->].
      destruct Hd as [Hd _]. destruct Hd as (Hw & -> & -> & _); done.
    + intros [Hw [= -> ->]]. rewrite (proj2 Hd); [done|]. split; [done|]. split; [done|]. split; [done|].
      split; intros E; [apply E1|apply E2]; by rewrite <- E.
Qed.

(** The part of a transfer that its owners sign. *)
Record spend := mkSpend {
  sp_spends : list FundingInput; sp_outputs : list TransferOutput; sp_tx_bytes : Z; sp_tip : Z }.

Definition spend_of (tx : PosTransaction) : option spend :=
  match tx with
  | Transfer t => Some (mkSpend (spends_v1 t) (t_outputs t) (t_tx_bytes t) (t_tip t))
  | TransferV2 t => Some (mkSpend (spends_v2 t) (t2_outputs t) (t2_tx_bytes t) (t2_tip t))
  | _ => None
  end.
Definition spend_bytes (s : spend) : list Z :=
  fold_spend (sp_spends s) (sp_outputs s) (sp_tx_bytes s) (sp_tip s).
Definition spend_wf (s : spend) : Prop :=
  is_vec funding_wf any (sp_spends s) ∧ is_vec output_wf any (sp_outputs s) ∧
  is_int 8 (sp_tx_bytes s) ∧ is_int 16 (sp_tip s).

Lemma spend_of_wf tx s : tx_wf tx → spend_of tx = Some s → spend_wf s.
Proof.
  destruct tx; try done; cbn; intros Hw [= <-].
  - destruct Hw as ((Hi & Hl & _) & Ho & Hb & Ht). split; [|done]. split; [|by cbn [sp_spends]; unfold spends_v1; rewrite length_fmap].
    apply Forall_fmap, (Forall_impl _ _ _ Hi). by intros i (? & ? & _).
  - destruct Hw as (_ & (Hi & Hl & _) & Ho & Hb & Ht). split; [|done]. split; [|by cbn [sp_spends]; unfold spends_v2; rewrite length_fmap].
    apply Forall_fmap, (Forall_impl _ _ _ Hi). by intros i (? & ? & _).
Qed.

Definition dec_spend : Reader spend :=
  a ← r_list dec_funding; b ← r_list dec_output; c ← r_u64; d ← r_u128; mret (mkSpend a b c d).

Lemma codec_spend : codec spend_wf spend_bytes dec_spend.
Proof.
  apply codec_start. unfold spend_bytes, fold_spend. codec_field sp_spends. codec_field sp_outputs.
  codec_field sp_tx_bytes. codec_done.
Qed.

(** C32: A transaction id names what a transfer does.  Transfers of either form that spend
    the same outpoints, pay the same outputs, declare the same size and tip have the
    same id, whoever signs and however often it is re-signed; conversely well-formed
    transfers with the same id agree on all of that, unless SHA3 collides on the
    preimages of their two roots or of their two ids. *)
Theorem txid_names_the_spend `{Sha3} tx1 tx2 s1 s2 :
  tx_wf tx1 → tx_wf tx2 → spend_of tx1 = Some s1 → spend_of tx2 = Some s2 →
  (sha3_256 (DS_SPEND ++ spend_bytes s1) = sha3_256 (DS_SPEND ++ spend_bytes s2) →
   spend_bytes s1 = spend_bytes s2) →
  (txid tx1 = txid tx2 → spend_signing_root tx1 = spend_signing_root tx2) →
  txid tx1 = txid tx2 ↔ s1 = s2.
Proof.
  intros Hw1 Hw2 Hs1 Hs2 Hc1 Hc2.
  assert (∀ tx s, spend_of tx = Some s → spend_signing_root tx = sha3_256 (DS_SPEND ++ spend_bytes s)) as Hr.
  { intros tx s. by destruct tx; try done; intros [= <-]. }
  split.
  - intros E. apply Hc2 in E. rewrite (Hr _ _ Hs1), (Hr _ _ Hs2) in E. apply Hc1 in E.
    apply (spend_of_wf _ _ Hw1) in Hs1. apply (spend_of_wf _ _ Hw2) in Hs2.
    apply (proj1 codec_spend s1 []) in Hs1. apply (proj1 codec_spend s2 []) in Hs2. congruence.
  - intros ->. unfold txid. by rewrite (Hr _ _ Hs1), (Hr _ _ Hs2).
Qed.

(** ** Witnesses *)

Definition ex_vote (slot root : Z) : Attestation :=
  mkAttestation (mkAttData slot root 1 11 2 12) 7 [1; 2; 3].
Definition ex_evidence : PosTransaction :=
  TxSlashingEvidence (Slashing.AttestationOffence (ex_vote 64 5) (ex_vote 64 6)).

(** Evidence of a double vote reads back; with a byte after it, it does not. *)
Example transaction_codec_witness :
  from_canonical_bytes (canonical_bytes ex_evidence) = Ok ex_evidence ∧
  from_canonical_bytes (canonical_bytes ex_evidence ++ [0]) = Err TrailingBytes.
Proof.
  split; [|vm_compute; reflexivity].
  apply (transaction_codec (canonical_bytes ex_evidence) ex_evidence).
  - apply (bool_decide_unpack (Forall (λ b, 0 ≤ b ∧ b < 256) (canonical_bytes ex_evidence))).
    vm_compute. exact I.
  - split; [|reflexivity]. cbn. unfold is_bytes, is_int, is_hash, any.
    repeat split; try (vm_compute; congruence); repeat constructor; vm_compute; congruence.
Defined.

Definition ex_sha_tx : Sha3 := λ l, foldl (λ a x, (a * 263 + x + 1) `mod` 2 ^ 256) 0 l.
Definition ex_v1 (sig : list Z) : PosTransaction :=
  Transfer (mkTransfer [mkInput 9 0 [4; 4] sig] [mkOutput 70 3] 200 5).
Definition ex_v2 (value : Z) : PosTransaction :=
  TransferV2 (mkTransferV2 [mkKey [4; 4] [8]] [mkInputV2 9 0 0] [mkOutput value 3] 200 5).

Lemma ex_v1_wf sig : sig = [1] → tx_wf (ex_v1 sig).
Proof.
  intros ->. cbn. unfold transfer_wf, is_vec, input_wf, output_wf, is_bytes, is_int, is_hash, any. cbn.
  repeat split; repeat constructor; cbn; try (vm_compute; congruence); lia.
Qed.

(** The second form of the same spend has the same id; another amount has another. *)
Example txid_names_the_spend_witness :
  @txid ex_sha_tx (ex_v1 [1]) = @txid ex_sha_tx (ex_v2 70) ∧
  @txid ex_sha_tx (ex_v1 [1]) ≠ @txid ex_sha_tx (ex_v2 71).
Proof.
  split; [|vm_compute; congruence].
  apply (@txid_names_the_spend ex_sha_tx (ex_v1 [1]) (ex_v2 70)
           (mkSpend [mkFunding 9 0] [mkOutput 70 3] 200 5) (mkSpend [mkFunding 9 0] [mkOutput 70 3] 200 5)).
  - by apply ex_v1_wf.
  - cbn. unfold transfer_v2_wf, is_vec, key_wf, input_v2_wf, output_wf, is_bytes, is_int, is_hash, any. cbn.
    repeat split; repeat constructor; cbn; try (vm_compute; congruence); lia.
  - reflexivity.
  - reflexivity.
  - reflexivity.
  - intros _. reflexivity.
  - reflexivity.
Defined.

End Tx.
