(* ===== verification/Smt.v ===== *)
(** * The sparse Merkle tree of the state root

    Models the tree of [crates/bloch-pos-committee/src/state_root.rs]: the hashes, the
    memo of single-leaf subtrees, the node operations with their stored hashes, and
    inclusion and absence proofs.  [Option<Node>] is [tree], [None] being [Empty];
    sharing through [Arc] is not visible in the values.  Keys are 256-bit numbers, most
    significant bit first, as the code's [bit] reads the bytes.  A result of [None] is a
    panic: reading the bit after the last. *)

From S2P Require Import Prelude Bytes.
Local Open Scope Z_scope.

Module Smt.
Import Bytes.

Definition TREE_DEPTH : nat := 256.
Definition MARK_LEAF : Z := 0x00.
Definition MARK_NODE : Z := 0x01.
Definition MARK_EMPTY : Z := 0x02.
Definition MARK_KEY : Z := 0x03.
Definition MARK_VALUE : Z := 0x04.

(** [(key[d / 8] >> (7 - d % 8)) & 1]: [bit_of_bytes] says so of the bytes. *)
Definition bit (key : hash) (d : nat) : bool := Z.testbit key (255 - Z.of_nat d).

(** A stored leaf keeps the hash of the subtree it fills, and the depth of that. *)
Inductive tree :=
| Empty
| Leaf (key value_hash hash : hash) (depth : nat)
| Split (left right : tree) (hash : hash).

Section hashed.
Context `{Sha3}.

Definition sha3 (parts : list (list Z)) : hash := sha3_256 (DS_STATE ++ concat parts).
Definition leaf_hash (key value_hash : hash) : hash :=
  sha3 [[MARK_LEAF]; hash_bytes key; hash_bytes value_hash].
Definition node_hash (left right : hash) : hash :=
  sha3 [[MARK_NODE]; hash_bytes left; hash_bytes right].
Definition empty_leaf : hash := sha3 [[MARK_EMPTY]].
Definition derive_key (component_tag : Z) (entry_key : list Z) : hash :=
  sha3 [[MARK_KEY]; [component_tag]; entry_key].
Definition hash_value (serialized : list Z) : hash := sha3 [[MARK_VALUE]; serialized].

(** The hash of an empty subtree of height [h]; [empty[d]] is that of height
    [TREE_DEPTH - d]. *)
Fixpoint empty_height (h : nat) : hash :=
  match h with
  | O => empty_leaf
  | S h => let e := empty_height h in node_hash e e
  end.
Definition empty_at (d : nat) : hash := empty_height (TREE_DEPTH - d).
Definition empty_hashes : list hash := empty_at <$> seq 0 (S TREE_DEPTH).

(** One level up from [h] at depth [d]: the other side is empty. *)
Definition fold_up (key : hash) (d : nat) (h sib : hash) : hash :=
  if bit key d then node_hash sib h else node_hash h sib.

(** The fold of one leaf from the bottom to the depth [TREE_DEPTH - n], and the empty
    hash of that depth, which the code reads from its vector. *)
Fixpoint singleton_with (key value_hash : hash) (n : nat) : hash * hash :=
  match n with
  | O => (leaf_hash key value_hash, empty_leaf)
  | S n => let '(h, e) := singleton_with key value_hash n in
           (fold_up key (TREE_DEPTH - S n) h e, node_hash e e)
  end.
Definition singleton_fold (key value_hash : hash) (n : nat) : hash := (singleton_with key value_hash n).1.
Definition singleton (key value_hash : hash) (depth : nat) : hash :=
  singleton_fold key value_hash (TREE_DEPTH - depth).

(** ** The memo of single-leaf subtrees *)

Definition SingletonKey : Type := hash * hash * nat.
Record SingletonMemo := mkMemo { hot : gmap SingletonKey hash; cold : gmap SingletonKey hash }.
Definition SINGLETON_MEMO_GENERATION : nat := Z.to_nat 600000.

Definition memo_get (m : SingletonMemo) (key : SingletonKey) : option hash * SingletonMemo :=
  match hot m !! key with
  | Some hit => (Some hit, m)
  | None =>
      match cold m !! key with
      | Some hit => (Some hit, mkMemo (<[key := hit]> (hot m)) (cold m))
      | None => (None, m)
      end
  end.

Definition memo_put (m : SingletonMemo) (key : SingletonKey) (value : hash) : SingletonMemo :=
  let hot' := <[key := value]> (hot m) in
  if (SINGLETON_MEMO_GENERATION <=? size hot')%nat then mkMemo ∅ hot' else mkMemo hot' (cold m).

Definition singleton_subtree_root (m : SingletonMemo) (key value_hash : hash) (depth : nat)
    : hash * SingletonMemo :=
  match memo_get m (key, value_hash, depth) with
  | (Some hit, m) => (hit, m)
  | (None, m) =>
      let h := singleton key value_hash depth in
      (h, memo_put m (key, value_hash, depth) h)
  end.

(** ** Nodes *)

Definition hash_of (node : tree) (depth : nat) : hash :=
  match node with
  | Empty => empty_at depth
  | Leaf _ _ h _ => h
  | Split _ _ h => h
  end.

Definition new_leaf (key value_hash : hash) (depth : nat) : tree :=
  Leaf key value_hash (singleton key value_hash depth) depth.
Definition new_split (left right : tree) (depth : nat) : tree :=
  Split left right (node_hash (hash_of left (S depth)) (hash_of right (S depth))).

(** [split_apart], with the levels left below [depth]: [TREE_DEPTH - depth]. *)
Fixpoint split_apart (n : nat) (ekey evalue key value_hash : hash) : option tree :=
  match n with
  | O => None
  | S n =>
      let depth := (TREE_DEPTH - S n)%nat in
      if eqb (bit ekey depth) (bit key depth) then
        child ← split_apart n ekey evalue key value_hash;
        Some (if bit ekey depth then new_split Empty child depth else new_split child Empty depth)
      else
        let kept := new_leaf ekey evalue (S depth) in
        let fresh := new_leaf key value_hash (S depth) in
        Some (if bit ekey depth then new_split fresh kept depth else new_split kept fresh depth)
  end.

(** The new node, whether a key was added and whether anything changed. *)
Fixpoint node_insert (node : tree) (depth : nat) (key value_hash : hash)
    : option (tree * bool * bool) :=
  match node with
  | Empty => Some (new_leaf key value_hash depth, true, true)
  | Leaf k v h d =>
      if k =? key then
        if v =? value_hash then Some (Leaf k v h d, false, false)
        else Some (new_leaf key value_hash depth, false, true)
      else
        t ← split_apart (TREE_DEPTH - depth) k v key value_hash;
        Some (t, true, true)
  | Split l r h =>
      if (TREE_DEPTH <=? depth)%nat then None
      else if bit key depth then
        '(r', added, mutated) ← node_insert r (S depth) key value_hash;
        Some (if mutated : bool then new_split l r' depth else Split l r h, added, mutated)
      else
        '(l', added, mutated) ← node_insert l (S depth) key value_hash;
        Some (if mutated : bool then new_split l' r depth else Split l r h, added, mutated)
  end.

Definition collapse (left right : tree) (depth : nat) : tree :=
  match left, right with
  | Empty, Empty => Empty
  | Leaf k v _ _, Empty | Empty, Leaf k v _ _ => new_leaf k v depth
  | _, _ => new_split left right depth
  end.

Fixpoint node_remove (node : tree) (depth : nat) (key : hash) : option (tree * bool) :=
  match node with
  | Empty => Some (Empty, false)
  | Leaf k v h d => if k =? key then Some (Empty, true) else Some (Leaf k v h d, false)
  | Split l r h =>
      if (TREE_DEPTH <=? depth)%nat then None
      else if bit key depth then
        '(r', removed) ← node_remove r (S depth) key;
        Some (if removed : bool then collapse l r' depth else Split l r h, removed)
      else
        '(l', removed) ← node_remove l (S depth) key;
        Some (if removed : bool then collapse l' r depth else Split l r h, removed)
  end.

(** [partition_point] of a slice on which the predicate holds on a prefix. *)
Fixpoint partition_point {A} (p : A → bool) (l : list A) : nat :=
  match l with
  | [] => O
  | x :: l => if p x then S (partition_point p l) else O
  end.

(** The subtree of the leaves [leaves], sorted by key, at depth [TREE_DEPTH - n]. *)
Fixpoint build_subtree (n : nat) (leaves : list (hash * hash)) : option tree :=
  match leaves with
  | [] => Some Empty
  | [(k, v)] => Some (new_leaf k v (TREE_DEPTH - n))
  | _ =>
      match n with
      | O => None
      | S n =>
          let depth := (TREE_DEPTH - S n)%nat in
          let split := partition_point (λ x : hash * hash, negb (bit x.1 depth)) leaves in
          left ← build_subtree n (take split leaves);
          right ← build_subtree n (drop split leaves);
          Some (new_split left right depth)
      end
  end.

(** ** The tree *)

Record Smt := mkSmt { root_node : tree; len : nat }.

Definition new : Smt := mkSmt Empty 0.

(** A [BTreeMap] is its entries in key order. *)
Definition sorted_entries (m : gmap hash hash) : list (hash * hash) :=
  sort_by fst (map_to_list m).
Definition from_leaf_map (leaves : gmap hash hash) : option Smt :=
  let flat := sorted_entries leaves in
  root ← build_subtree TREE_DEPTH flat;
  Some (mkSmt root (length flat)).

Definition insert (s : Smt) (key value_hash : hash) : option Smt :=
  '(root, added, _) ← node_insert (root_node s) 0 key value_hash;
  Some (mkSmt root (if added : bool then S (len s) else len s)).

(** [len -= 1] would panic at 0. *)
Definition remove (s : Smt) (key : hash) : option Smt :=
  '(root, removed) ← node_remove (root_node s) 0 key;
  if removed : bool then
    match len s with O => None | S n => Some (mkSmt root n) end
  else Some (mkSmt root (len s)).

Fixpoint get_from (node : tree) (d : nat) (key : hash) : option (option hash) :=
  match node with
  | Empty => Some None
  | Leaf k v _ _ => Some (if k =? key then Some v else None)
  | Split l r _ =>
      if (TREE_DEPTH <=? d)%nat then None
      else get_from (if bit key d then r else l) (S d) key
  end.
Definition get (s : Smt) (key : hash) : option (option hash) := get_from (root_node s) 0 key.

Definition root (s : Smt) : hash := hash_of (root_node s) 0.

(** ** Proofs *)

(** The [n] last entries of [empty]; [empty[d + 1], .., empty[TREE_DEPTH]]. *)
Fixpoint last_empties (n : nat) : list hash :=
  match n with
  | O => []
  | S n => let es := last_empties n in
           match es with e :: _ => node_hash e e | [] => empty_leaf end :: es
  end.
Definition empties (d : nat) : list hash := last_empties (TREE_DEPTH - d).

Fixpoint prove_from (node : tree) (d : nat) (key : hash) : option (list hash) :=
  match node with
  | Empty => None
  | Leaf k _ _ _ => if k =? key then Some (empties d) else None
  | Split l r _ =>
      if (TREE_DEPTH <=? d)%nat then None
      else if bit key d then rest ← prove_from r (S d) key; Some (hash_of l (S d) :: rest)
      else rest ← prove_from l (S d) key; Some (hash_of r (S d) :: rest)
  end.
Definition prove (s : Smt) (key : hash) : option (list hash) := prove_from (root_node s) 0 key.

(** The loops from the bottom level to the root. *)
Fixpoint climb (key : hash) (d : nat) (h : hash) (siblings : list hash) : hash :=
  match siblings with
  | [] => h
  | sib :: siblings => fold_up key d (climb key (S d) h siblings) sib
  end.

Definition verify_inclusion (root key value_hash : hash) (siblings : list hash) : bool :=
  if negb (length siblings =? TREE_DEPTH)%nat then false
  else climb key 0 (leaf_hash key value_hash) siblings =? root.

(** The levels below a leaf of another key: shared bits, the leaf's own subtree where
    they part, and nothing below. *)
Fixpoint part_from (n : nat) (k v key : hash) : option (list hash) :=
  match n with
  | O => None
  | S n =>
      let dd := (TREE_DEPTH - S n)%nat in
      if eqb (bit key dd) (bit k dd) then
        rest ← part_from n k v key; Some (empty_at (S dd) :: rest)
      else Some (singleton k v (S dd) :: empties (S dd))
  end.

Fixpoint prove_absence_from (node : tree) (d : nat) (key : hash) : option (list hash) :=
  match node with
  | Empty => Some (empties d)
  | Leaf k v _ _ => if k =? key then None else part_from (TREE_DEPTH - d) k v key
  | Split l r _ =>
      if (TREE_DEPTH <=? d)%nat then None
      else if bit key d then rest ← prove_absence_from r (S d) key; Some (hash_of l (S d) :: rest)
      else rest ← prove_absence_from l (S d) key; Some (hash_of r (S d) :: rest)
  end.
Definition prove_absence (s : Smt) (key : hash) : option (list hash) :=
  prove_absence_from (root_node s) 0 key.

Definition verify_absence (root key : hash) (siblings : list hash) : bool :=
  if negb (length siblings =? TREE_DEPTH)%nat then false
  else climb key 0 empty_leaf siblings =? root.

(** ** What the tree stands for *)

(** The entries whose key has bit [b] at depth [d]. *)
Definition side (d : nat) (b : bool) (m : gmap hash hash) : gmap hash hash :=
  filter (λ x, bit x.1 d = b) m.

(** The root of a map, from its definition: a full binary tree of the given height. *)
Fixpoint ref_root (n : nat) (m : gmap hash hash) : hash :=
  if decide (m = ∅) then empty_height n
  else
    match n with
    | O => match map_to_list m with (k, v) :: _ => leaf_hash k v | [] => empty_leaf end
    | S n => let d := (TREE_DEPTH - S n)%nat in
             node_hash (ref_root n (side d false m)) (ref_root n (side d true m))
    end.

(** The tree at depth [d] that stands for [m]: one leaf per single entry, as high as
    possible, splits only where two entries are below, hashes as they should be. *)
Inductive canonical : nat → tree → gmap hash hash → Prop :=
| canonical_empty d : canonical d Empty ∅
| canonical_leaf d k v : canonical d (new_leaf k v d) {[k := v]}
| canonical_split d l r m :
    (d < TREE_DEPTH)%nat → (2 ≤ size m)%nat →
    canonical (S d) l (side d false m) → canonical (S d) r (side d true m) →
    canonical d (new_split l r d) m.
End hashed.

(** Keys of [m] and [key] share their first [d] bits. *)
Definition agrees (d : nat) (key : hash) (m : gmap hash hash) : Prop :=
  ∀ k v i, m !! k = Some v → (i < d)%nat → bit k i = bit key i.

Definition keys_ok (m : gmap hash hash) : Prop := map_Forall (λ k _, is_hash k) m.

(** ** Bits *)

Lemma bits_determine k1 k2 :
  is_hash k1 → is_hash k2 → (∀ i, (i < TREE_DEPTH)%nat → bit k1 i = bit k2 i) → k1 = k2.
Proof.
  intros H1 H2 Hb. apply Z.bits_inj'. intros j Hj. destruct (Z.lt_ge_cases j 256) as [Hlt|Hge].
  - specialize (Hb (Z.to_nat (255 - j))). unfold bit, TREE_DEPTH in Hb.
    rewrite Z2Nat.id in Hb by lia. replace (255 - (255 - j)) with j in Hb by lia. apply Hb. lia.
  - change (256 ^ 32) with (2 ^ 256) in *. unfold is_hash in *. change (256 ^ 32) with (2 ^ 256) in *.
    rewrite <- (Z.mod_small k1 (2 ^ 256)), <- (Z.mod_small k2 (2 ^ 256)) by done.
    by rewrite !Z.mod_pow2_bits_high by lia.
Qed.

(** ** Sides *)

Lemma lookup_side d b m k v : side d b m !! k = Some v ↔ m !! k = Some v ∧ bit k d = b.
Proof. unfold side. by rewrite map_lookup_filter_Some. Qed.

Lemma lookup_side_same d m k : side d (bit k d) m !! k = m !! k.
Proof. apply option_eq. intros v. rewrite lookup_side. naive_solver. Qed.

Lemma side_empty d b : side d b ∅ = ∅.
Proof. apply map_filter_empty. Qed.

Lemma side_insert d b m k v :
  side d b (<[k := v]> m) = if eqb (bit k d) b then <[k := v]> (side d b m) else side d b m.
Proof.
  apply map_eq. intros k'. apply option_eq. intros v'. rewrite lookup_side.
  destruct (eqb (bit k d) b) eqn:E.
  - apply eqb_prop in E. rewrite !lookup_insert_Some, lookup_side. naive_solver.
  - apply eqb_false_iff in E. rewrite lookup_insert_Some, lookup_side. naive_solver.
Qed.

Lemma side_delete d b m k : side d b (delete k m) = delete k (side d b m).
Proof. apply map_filter_delete. Qed.

Lemma side_delete_out d b m k : bit k d ≠ b → side d b (delete k m) = side d b m.
Proof.
  intros Hb. rewrite side_delete. apply delete_id. apply eq_None_not_Some. intros [v Hv].
  apply lookup_side in Hv. naive_solver.
Qed.

Lemma side_union d m : side d false m ∪ side d true m = m ∧ side d false m ##ₘ side d true m.
Proof.
  assert (side d false m ##ₘ side d true m) as Hd.
  { apply map_disjoint_spec. intros k v1 v2 [_ E1]%lookup_side [_ E2]%lookup_side. congruence. }
  split; [|done]. apply map_eq. intros k. apply option_eq. intros v.
  rewrite lookup_union_Some, !lookup_side by done. destruct (bit k d); naive_solver.
Qed.

Lemma size_sides d m : size m = (size (side d false m) + size (side d true m))%nat.
Proof.
  destruct (side_union d m) as [Hu Hd]. rewrite <- Hu at 1. by apply map_size_disj_union.
Qed.

Lemma side_singleton d b k v :
  side d b {[k := v]} = if eqb (bit k d) b then {[k := v]} else ∅.
Proof.
  rewrite <- insert_empty, side_insert, side_empty. by destruct (eqb _ _).
Qed.

Section laws.
Context `{Sha3}.
Implicit Types (m : gmap hash hash) (t : tree).

(** ** The canonical tree *)

Lemma canonical_inv d t m :
  canonical d t m →
  (t = Empty ∧ m = ∅) ∨ (∃ k v, t = new_leaf k v d ∧ m = {[k := v]}) ∨
  (∃ l r, t = new_split l r d ∧ (d < TREE_DEPTH)%nat ∧ (2 ≤ size m)%nat ∧
     canonical (S d) l (side d false m) ∧ canonical (S d) r (side d true m)).
Proof. destruct 1; naive_solver. Qed.

(** A map has one canonical tree. *)
Lemma canonical_unique d t1 t2 m : canonical d t1 m → canonical d t2 m → t1 = t2.
Proof.
  intros H1. revert t2. induction H1 as [d|d k v|d l r m Hd Hs Hl IHl Hr IHr]; intros t2 H2;
    apply canonical_inv in H2 as [[-> Hm]|[(k' & v' & -> & Hm)|(l' & r' & -> & ? & Hs' & Hl' & Hr')]].
  - done.
  - symmetry in Hm. by apply map_non_empty_singleton in Hm.
  - rewrite map_size_empty in Hs'. lia.
  - by apply map_non_empty_singleton in Hm.
  - assert (({[k := v]} : gmap hash hash) !! k' = Some v') as E by (rewrite Hm; apply lookup_singleton_eq).
    apply lookup_singleton_Some in E as [-> ->]. done.
  - rewrite map_size_singleton in Hs'. lia.
  - subst m. rewrite map_size_empty in Hs. lia.
  - subst m. rewrite map_size_singleton in Hs. lia.
  - by rewrite (IHl _ Hl'), (IHr _ Hr').
Qed.

Lemma ref_root_empty n : ref_root n ∅ = empty_height n.
Proof. destruct n; cbn [ref_root]; by rewrite decide_True. Qed.

Lemma ref_root_node n m :
  ref_root (S n) m =
  node_hash (ref_root n (side (TREE_DEPTH - S n) false m)) (ref_root n (side (TREE_DEPTH - S n) true m)).
Proof.
  cbn [ref_root]. case_decide as E; [|done]. subst m. rewrite !side_empty, !ref_root_empty. done.
Qed.

Lemma empty_at_height n : (n < TREE_DEPTH)%nat → empty_at (S (TREE_DEPTH - S n)) = empty_height n.
Proof. intros. unfold empty_at. f_equal. lia. Qed.

Lemma singleton_fold_S key v n :
  singleton_fold key v (S n) = fold_up key (TREE_DEPTH - S n) (singleton_fold key v n) (empty_height n).
Proof.
  unfold singleton_fold. cbn [singleton_with].
  assert ((singleton_with key v n).2 = empty_height n) as <-.
  { induction n as [|n IH]; [done|]. cbn [singleton_with empty_height]. rewrite <- IH.
    by destruct (singleton_with key v n). }
  by destruct (singleton_with key v n).
Qed.

Lemma ref_root_singleton n k v :
  (n ≤ TREE_DEPTH)%nat → ref_root n {[k := v]} = singleton_fold k v n.
Proof.
  induction n as [|n IH]; intros Hn.
  - cbn [ref_root]. rewrite decide_False by apply map_non_empty_singleton.
    by rewrite map_to_list_singleton.
  - rewrite ref_root_node, !side_singleton, singleton_fold_S.
    unfold fold_up. destruct (bit k (TREE_DEPTH - S n)); cbn [eqb]; rewrite IH, ref_root_empty by lia; done.
Qed.

(** The stored hashes are the reference root's. *)
Lemma canonical_hash d t m :
  canonical d t m → (d ≤ TREE_DEPTH)%nat → hash_of t d = ref_root (TREE_DEPTH - d) m.
Proof.
  induction 1 as [d|d k v|d l r m Hd Hs Hl IHl Hr IHr]; intros Hle; cbn [hash_of].
  - by rewrite ref_root_empty.
  - cbn [new_leaf hash_of]. by rewrite ref_root_singleton by lia.
  - cbn [new_split hash_of]. replace (TREE_DEPTH - d)%nat with (S (TREE_DEPTH - S d)) by lia.
    rewrite ref_root_node. replace (TREE_DEPTH - S (TREE_DEPTH - S d))%nat with d by lia.
    by rewrite <- IHl, <- IHr by lia.
Qed.

(** ** Insertion *)

Lemma agrees_side d key m b :
  agrees d key m → bit key d = b → agrees (S d) key (side d b m).
Proof.
  intros Ha Hb k v i Hk Hi. apply lookup_side in Hk as [Hk Hkb].
  destruct (decide (i = d)) as [->|]; [congruence|]. apply (Ha k v); [done|lia].
Qed.

Lemma keys_ok_side d b m : keys_ok m → keys_ok (side d b m).
Proof. intros Hk k v [Hv _]%lookup_side. by apply (Hk k v). Qed.

(** A key among those of one leaf. *)
Lemma split_apart_canonical n ek ev k v :
  (n ≤ TREE_DEPTH)%nat → is_hash ek → is_hash k → ek ≠ k →
  (∀ i, (i < TREE_DEPTH - n)%nat → bit ek i = bit k i) →
  ∃ t, split_apart n ek ev k v = Some t ∧ canonical (TREE_DEPTH - n) t (<[k := v]> {[ek := ev]}).
Proof.
  intros Hn He Hk Hne. induction n as [|n IH]; intros Hb.
  - exfalso. apply Hne. apply bits_determine; [done|done|]. intros i Hi. apply Hb. lia.
  - cbn [split_apart]. set (d := (TREE_DEPTH - S n)%nat) in *.
    assert (TREE_DEPTH - n = S d)%nat as Hsd by (unfold d; lia). rewrite Hsd in IH.
    assert (d < TREE_DEPTH)%nat as Hd by (unfold d; lia).
    assert (size (<[k := v]> ({[ek := ev]} : gmap hash hash)) = 2%nat) as Hsz.
    { rewrite map_size_insert_None by (by apply lookup_singleton_ne). by rewrite map_size_singleton. }
    destruct (eqb (bit ek d) (bit k d)) eqn:E.
    + apply eqb_prop in E. destruct IH as (t & -> & Ht); [lia| |].
      { intros i Hi. destruct (decide (i = d)) as [->|]; [done|]. apply Hb. lia. }
      cbn [mbind option_bind]. eexists. split; [done|].
      destruct (bit ek d) eqn:Eb; apply canonical_split; try done; rewrite ?Hsz; try lia;
        rewrite side_insert, side_singleton, Eb, <- E; cbn [eqb]; done || constructor.
    + apply eqb_false_iff in E. eexists. split; [done|].
      destruct (bit ek d) eqn:Eb; apply canonical_split; try done; rewrite ?Hsz; try lia;
        rewrite side_insert, side_singleton, Eb; destruct (bit k d) eqn:Ek; try done; cbn [eqb];
        try (rewrite insert_empty); constructor.
Qed.

Lemma node_insert_canonical d t m key v :
  canonical d t m → (d ≤ TREE_DEPTH)%nat → keys_ok m → is_hash key → agrees d key m →
  ∃ t' added mutated, node_insert t d key v = Some (t', added, mutated) ∧
    canonical d t' (<[key := v]> m) ∧ added = bool_decide (m !! key = None) ∧
    (mutated = false → t' = t).
Proof.
  intros Hc. revert key v. induction Hc as [d|d k w|d l r m Hd Hs Hl IHl Hr IHr]; intros key v Hle Hok Hk Ha.
  - cbn [node_insert]. do 3 eexists. split; [done|]. rewrite insert_empty. split; [constructor|].
    by rewrite bool_decide_eq_true_2.
  - cbn [new_leaf node_insert]. destruct (Z.eqb_spec k key) as [->|Hne].
    + rewrite lookup_singleton_eq, insert_singleton_eq, bool_decide_eq_false_2 by done.
      destruct (Z.eqb_spec w v) as [->|]; do 3 eexists; (split; [done|]); (split; [constructor|]); done.
    + destruct (split_apart_canonical (TREE_DEPTH - d) k w key v) as (t & -> & Ht).
      { lia. } { apply (Hok k w). apply lookup_singleton_eq. } { done. } { done. }
      { intros i Hi. apply (Ha k w); [apply lookup_singleton_eq|lia]. }
      cbn [mbind option_bind]. do 3 eexists. split; [done|].
      replace (TREE_DEPTH - (TREE_DEPTH - d))%nat with d in Ht by lia. split; [done|].
      rewrite lookup_singleton_ne by done. by rewrite bool_decide_eq_true_2.
  - cbn [new_split node_insert]. rewrite (proj2 (Nat.leb_gt _ _)) by done.
    assert (2 ≤ size (<[key := v]> m))%nat as Hs'.
    { rewrite map_size_insert. destruct (m !! key); cbn; lia. }
    pose proof (lookup_side_same d m key) as Hsame.
    destruct (bit key d) eqn:Eb.
    + destruct (IHr key v) as (t' & a & mu & -> & Ht & -> & Hm); [lia|by apply keys_ok_side|done|
        by apply agrees_side|]. cbn [mbind option_bind]. rewrite Hsame. do 3 eexists. split; [done|].
      destruct mu; [|rewrite (Hm eq_refl) in Ht]; (split; [|done]);
        apply canonical_split; try done; rewrite side_insert, Eb; done.
    + destruct (IHl key v) as (t' & a & mu & -> & Ht & -> & Hm); [lia|by apply keys_ok_side|done|
        by apply agrees_side|]. cbn [mbind option_bind]. rewrite Hsame. do 3 eexists. split; [done|].
      destruct mu; [|rewrite (Hm eq_refl) in Ht]; (split; [|done]);
        apply canonical_split; try done; rewrite side_insert, Eb; done.
Qed.

(** ** Removal *)

Lemma collapse_canonical d l r m :
  (d < TREE_DEPTH)%nat → canonical (S d) l (side d false m) → canonical (S d) r (side d true m) →
  canonical d (collapse l r d) m.
Proof.
  intros Hd Hl Hr. destruct (side_union d m) as [Hu _]. pose proof (size_sides d m) as Hs.
  pose proof (canonical_split d l r m Hd) as Hsplit.
  apply canonical_inv in Hl as Hl'. apply canonical_inv in Hr as Hr'.
  destruct Hl' as [[-> El]|[(k & v & -> & El)|(l1 & l2 & -> & _ & Sl & _)]],
           Hr' as [[-> Er]|[(k' & v' & -> & Er)|(r1 & r2 & -> & _ & Sr & _)]];
    rewrite ?El, ?Er, ?map_size_empty, ?map_size_singleton in Hs, Hu; cbn [collapse new_leaf new_split];
    try (apply Hsplit; [lia|done|done]).
  - rewrite <- Hu, (left_id_L ∅ (∪)). constructor.
  - rewrite <- Hu, (left_id_L ∅ (∪)). apply canonical_leaf.
  - rewrite <- Hu, (right_id_L ∅ (∪)). apply canonical_leaf.
  - rewrite !map_size_singleton in Hs. apply Hsplit; [lia|done|done].
Qed.

Lemma node_remove_canonical d t m key :
  canonical d t m → (d ≤ TREE_DEPTH)%nat →
  ∃ t', node_remove t d key = Some (t', bool_decide (is_Some (m !! key))) ∧
    canonical d t' (delete key m).
Proof.
  intros Hc. revert key. induction Hc as [d|d k w|d l r m Hd Hs Hl IHl Hr IHr]; intros key Hle.
  - cbn [node_remove]. eexists. rewrite delete_empty, lookup_empty. split; [done|constructor].
  - cbn [new_leaf node_remove]. destruct (Z.eqb_spec k key) as [->|Hne].
    + rewrite lookup_singleton_eq, delete_singleton_eq. eexists. split; [done|constructor].
    + rewrite lookup_singleton_ne, delete_singleton_ne by done. eexists. split; [done|constructor].
  - cbn [new_split node_remove]. rewrite (proj2 (Nat.leb_gt _ _)) by done.
    pose proof (lookup_side_same d m key) as Hsame.
    destruct (bit key d) eqn:Eb.
    + destruct (IHr key) as (t' & -> & Ht); [lia|]. cbn [mbind option_bind]. rewrite Hsame.
      eexists. split; [done|]. case_bool_decide as E.
      * apply collapse_canonical; [done| |by rewrite side_delete].
        by rewrite side_delete_out by congruence.
      * rewrite delete_id by (by apply eq_None_not_Some). by apply canonical_split.
    + destruct (IHl key) as (t' & -> & Ht); [lia|]. cbn [mbind option_bind]. rewrite Hsame.
      eexists. split; [done|]. case_bool_decide as E.
      * apply collapse_canonical; [done|by rewrite side_delete|].
        by rewrite side_delete_out by congruence.
      * rewrite delete_id by (by apply eq_None_not_Some). by apply canonical_split.
Qed.

Lemma get_from_canonical d t m key :
  canonical d t m → (d ≤ TREE_DEPTH)%nat → get_from t d key = Some (m !! key).
Proof.
  intros Hc. induction Hc as [d|d k w|d l r m Hd Hs Hl IHl Hr IHr]; intros Hle.
  - cbn [get_from]. by rewrite lookup_empty.
  - cbn [new_leaf get_from]. f_equal. destruct (Z.eqb_spec k key) as [->|];
      [by rewrite lookup_singleton_eq|by rewrite lookup_singleton_ne].
  - cbn [new_split get_from]. rewrite (proj2 (Nat.leb_gt _ _)) by done.
    rewrite <- (lookup_side_same d m key). destruct (bit key d); auto with lia.
Qed.

(** ** Building from a map *)

(** Below a common prefix of [d] bits, the keys with bit [d] clear come first. *)
Lemma bit_monotone d k1 k2 :
  (d < TREE_DEPTH)%nat → is_hash k1 → is_hash k2 → k1 < k2 →
  (∀ i, (i < d)%nat → bit k1 i = bit k2 i) → bit k1 d = true → bit k2 d = true.
Proof.
  intros Hd H1 H2 Hlt Hb Hbit. set (s := 255 - Z.of_nat d). assert (0 ≤ s) as Hs by (unfold s, TREE_DEPTH in *; lia).
  assert (∀ k, Z.shiftr k s = 2 * Z.shiftr k (s + 1) + Z.b2z (bit k d)) as Hsplit.
  { intros k. unfold bit. fold s. rewrite Z.testbit_spec' by done. rewrite !Z.shiftr_div_pow2 by lia.
    rewrite Z.pow_add_r, <- Z.div_div by lia. change (2 ^ 1) with 2.
    pose proof (Z.div_mod (k / 2 ^ s) 2). lia. }
  assert (Z.shiftr k1 (s + 1) = Z.shiftr k2 (s + 1)) as Heq.
  { apply Z.bits_inj'. intros j Hj. rewrite !Z.shiftr_spec by done.
    destruct (Z.lt_ge_cases (j + (s + 1)) 256).
    - specialize (Hb (Z.to_nat (255 - (j + (s + 1))))). unfold bit in Hb. rewrite Z2Nat.id in Hb by lia.
      replace (255 - (255 - (j + (s + 1)))) with (j + (s + 1)) in Hb by lia. apply Hb. unfold s in *. lia.
    - unfold is_hash in *. change (256 ^ 32) with (2 ^ 256) in *.
      rewrite <- (Z.mod_small k1 (2 ^ 256)), <- (Z.mod_small k2 (2 ^ 256)) by done.
      by rewrite !Z.mod_pow2_bits_high by lia. }
  assert (Z.shiftr k1 s ≤ Z.shiftr k2 s) as Hle.
  { rewrite !Z.shiftr_div_pow2 by lia. apply Z.div_le_mono; lia. }
  rewrite !Hsplit, Heq, Hbit in Hle. destruct (bit k2 d); [done|]. cbn in Hle. lia.
Qed.

(** A list on which [p] holds on a prefix is cut by [partition_point] into the elements
    with [p] and those without. *)
Lemma partition_point_spec {A} (p : A → bool) (l : list A) :
  (∀ i j x y, (i < j)%nat → l !! i = Some x → l !! j = Some y → p x = false → p y = false) →
  Forall (λ x, p x = true) (take (partition_point p l) l) ∧
  Forall (λ x, p x = false) (drop (partition_point p l) l).
Proof.
  induction l as [|a l IH]; intros Hp; [done|]. cbn [partition_point]. destruct (p a) eqn:Ea.
  - destruct IH as [H1 H2].
    { intros i j x y Hij Hx Hy. apply (Hp (S i) (S j) x y); [lia|done|done]. }
    split; [by constructor|done].
  - split; [constructor|]. constructor; [done|]. apply Forall_lookup. intros j y Hy.
    apply (Hp 0%nat (S j) a y); [lia|done|done|done].
Qed.

Definition entries (l : list (hash * hash)) (m : gmap hash hash) : Prop :=
  ∀ k v, (k, v) ∈ l ↔ m !! k = Some v.

Lemma entries_size l m : entries l m → NoDup l.*1 → length l = size m.
Proof.
  intros He Hnd. rewrite <- length_map_to_list. apply Permutation_length, NoDup_Permutation.
  - by apply NoDup_fmap_1 in Hnd.
  - apply NoDup_map_to_list.
  - intros [k v]. by rewrite elem_of_map_to_list.
Qed.

Lemma entries_part d b l1 l2 m :
  entries (l1 ++ l2) m → Forall (λ x, bit x.1 d = b) l1 → Forall (λ x, bit x.1 d = negb b) l2 →
  entries l1 (side d b m) ∧ entries l2 (side d (negb b) m).
Proof.
  intros He H1 H2. rewrite Forall_forall in H1, H2. unfold entries in *. split; intros k v; rewrite lookup_side, <- He, elem_of_app.
  - split.
    + intros Hl. split; [by left|]. by apply (H1 (k, v)).
    + intros [[?|Hl] Hb]; [done|]. apply H2 in Hl. cbn in Hl. destruct b; cbn in *; congruence.
  - split.
    + intros Hl. split; [by right|]. by apply (H2 (k, v)).
    + intros [[Hl|?] Hb]; [|done]. apply H1 in Hl. cbn in Hl. destruct b; cbn in *; congruence.
Qed.

Definition common (d : nat) (m : gmap hash hash) : Prop :=
  ∀ k1 v1 k2 v2 i, m !! k1 = Some v1 → m !! k2 = Some v2 → (i < d)%nat → bit k1 i = bit k2 i.

Lemma common_side d b m : common d m → common (S d) (side d b m).
Proof.
  intros Hc k1 v1 k2 v2 i [H1 E1]%lookup_side [H2 E2]%lookup_side Hi.
  destruct (decide (i = d)) as [->|]; [congruence|]. apply (Hc k1 v1 k2 v2); [done|done|lia].
Qed.

Lemma sorted_lookup_lt l i j (x y : hash * hash) :
  StronglySorted Z.lt l.*1 → (i < j)%nat → l !! i = Some x → l !! j = Some y → x.1 < y.1.
Proof.
  intros Hs. revert i j. induction l as [|a l IH]; intros i j Hij Hx Hy; [done|].
  cbn in Hs. apply StronglySorted_cons in Hs as [Ha Hs]. destruct i, j; try lia.
  - injection Hx as ->. cbn in Hy. rewrite Forall_fmap, Forall_lookup in Ha. by apply (Ha j).
  - apply (IH Hs i j); [lia|done|done].
Qed.

Lemma entries_nil m : entries [] m → m = ∅.
Proof.
  intros He. apply map_empty. intros i. apply eq_None_not_Some. intros [x Hx]. apply He in Hx. set_solver.
Qed.

Lemma entries_one k v m : entries [(k, v)] m → m = {[k := v]}.
Proof.
  intros He. apply map_eq. intros i. apply option_eq. intros x. unfold entries in He.
  rewrite <- He, lookup_singleton_Some, list_elem_of_singleton. naive_solver.
Qed.

Lemma build_canonical n l m :
  (n ≤ TREE_DEPTH)%nat → entries l m → StronglySorted Z.lt l.*1 → keys_ok m →
  common (TREE_DEPTH - n) m →
  ∃ t, build_subtree n l = Some t ∧ canonical (TREE_DEPTH - n) t m.
Proof.
  revert l m. induction n as [|n IH]; intros l m Hn He Hs Hok Hcom;
    (destruct l as [|[k v] l'];
      [apply entries_nil in He as ->; eexists; split; [reflexivity|constructor]|]);
    (destruct l' as [|[k' v'] l'];
      [apply entries_one in He as ->; eexists; split; [reflexivity|constructor]|]);
    assert (k < k') as Hlt by (cbn in Hs; apply StronglySorted_cons in Hs as [Hf _];
                               rewrite Forall_cons in Hf; tauto);
    assert (m !! k = Some v ∧ m !! k' = Some v') as [Hk Hk'] by (split; apply He; set_solver).
  - exfalso. assert (k = k') as E; [|lia]. apply bits_determine; [by apply (Hok k v)|by apply (Hok k' v')|].
    intros i Hi. by apply (Hcom k v k' v').
  - set (l := (k, v) :: (k', v') :: l') in *. set (d := (TREE_DEPTH - S n)%nat) in *.
    assert (TREE_DEPTH - n = S d)%nat as Hsd by (unfold d; lia). rewrite Hsd in IH.
    set (c := partition_point (λ x : hash * hash, negb (bit x.1 d)) l).
    assert (build_subtree (S n) l = left ← build_subtree n (take c l); right ← build_subtree n (drop c l);
      Some (new_split left right d)) as -> by done.
    destruct (partition_point_spec (λ x : hash * hash, negb (bit x.1 d)) l) as [Hc1 Hc2].
    { intros i j [a av] [b bv] Hij Ha Hb. pose proof (sorted_lookup_lt _ _ _ _ _ Hs Hij Ha Hb) as Hab.
      apply list_elem_of_lookup_2, He in Ha, Hb. cbn in *. rewrite !negb_false_iff.
      apply bit_monotone; [unfold d, TREE_DEPTH in *; lia|by apply (Hok a av)|by apply (Hok b bv)|done|].
      intros i' Hi'. by apply (Hcom a av b bv). }
    fold c in Hc1, Hc2. rewrite <- (take_drop c l) in He, Hs.
    apply (entries_part d false) in He as [He1 He2];
      [|by apply (Forall_impl _ _ _ Hc1); intros x ?; apply negb_true_iff
       |by apply (Forall_impl _ _ _ Hc2); intros x ?; apply negb_false_iff].
    rewrite fmap_app in Hs. apply StronglySorted_app in Hs as (_ & Hs1 & Hs2). cbn [negb] in He2.
    destruct (IH _ _ ltac:(lia) He1 Hs1) as (t1 & -> & Ht1); [by apply keys_ok_side|by apply common_side|].
    destruct (IH _ _ ltac:(lia) He2 Hs2) as (t2 & -> & Ht2); [by apply keys_ok_side|by apply common_side|].
    eexists. split; [done|]. apply canonical_split; [unfold d; lia| |done|done].
    assert (size ({[k; k']} : gset hash) ≤ size (dom m))%nat as Hsz.
    { apply subseteq_size. intros x [->%elem_of_singleton| ->%elem_of_singleton]%elem_of_union;
        apply elem_of_dom; eauto. }
    rewrite size_dom, size_union, !size_singleton in Hsz; [lia|set_solver by lia].
Qed.

Lemma sorted_entries_spec m : entries (sorted_entries m) m ∧ StronglySorted Z.lt (sorted_entries m).*1.
Proof.
  split.
  - intros k v. unfold sorted_entries. rewrite sort_by_perm. apply elem_of_map_to_list.
  - apply le_sorted_lt; [apply (sort_by_sorted fst)|]. unfold sorted_entries. rewrite sort_by_perm.
    apply NoDup_fst_map_to_list.
Qed.

Lemma from_leaf_map_canonical m :
  keys_ok m → ∃ t, from_leaf_map m = Some (mkSmt t (size m)) ∧ canonical 0 t m.
Proof.
  intros Hok. destruct (sorted_entries_spec m) as [He Hs]. unfold from_leaf_map.
  destruct (build_canonical TREE_DEPTH _ m (le_n _) He Hs Hok) as (t & -> & Ht).
  { intros ????? _ _ Hi. lia. }
  exists t. split; [|done]. cbn [mbind option_bind]. by rewrite (entries_size _ m) by (done || by apply lt_sorted_NoDup).
Qed.

(** ** Operations in sequence *)

Inductive op := OpInsert (key value_hash : hash) | OpRemove (key : hash).

Definition apply_op (s : Smt) (o : op) : option Smt :=
  match o with OpInsert k v => insert s k v | OpRemove k => remove s k end.
Definition apply_ops (s : Smt) (os : list op) : option Smt := foldl (λ s o, s ≫= λ s, apply_op s o) (Some s) os.

(** The map the operations stand for. *)
Definition map_op (m : gmap hash hash) (o : op) : gmap hash hash :=
  match o with OpInsert k v => <[k := v]> m | OpRemove k => delete k m end.
Definition op_ok (o : op) : Prop := match o with OpInsert k _ => is_hash k | OpRemove _ => True end.

Definition tree_of (s : Smt) (m : gmap hash hash) : Prop :=
  canonical 0 (root_node s) m ∧ len s = size m ∧ keys_ok m.

Lemma apply_op_tree s m o : tree_of s m → op_ok o → ∃ s', apply_op s o = Some s' ∧ tree_of s' (map_op m o).
Proof.
  intros (Hc & Hl & Hok) Ho. destruct o as [k v|k]; cbn [apply_op map_op].
  - unfold insert. destruct (node_insert_canonical 0 _ m k v Hc) as (t & a & mu & -> & Ht & -> & _);
      [lia|done|done|intros ??? _ Hi; lia|]. cbn [mbind option_bind]. eexists. split; [done|].
    split; [done|]. split.
    + cbn [len]. rewrite map_size_insert, Hl. case_bool_decide as E; [by rewrite E|]. by destruct (m !! k).
    + by apply map_Forall_insert_2.
  - unfold remove. destruct (node_remove_canonical 0 _ m k Hc) as (t & -> & Ht); [lia|].
    cbn [mbind option_bind]. assert (keys_ok (delete k m)) by (by apply map_Forall_delete).
    case_bool_decide as E.
    + destruct E as [v Hv]. rewrite Hl. destruct (size m) as [|n] eqn:Es.
      { apply map_size_empty_inv in Es as ->. by rewrite lookup_empty in Hv. }
      eexists. split; [done|]. split; [done|]. split; [|done].
      rewrite map_size_delete, Hv, Es. done.
    + eexists. split; [done|]. split; [done|]. split; [|done].
      by rewrite map_size_delete, (proj2 (eq_None_not_Some _) E).
Qed.

Lemma apply_ops_tree os s m :
  tree_of s m → Forall op_ok os → ∃ s', apply_ops s os = Some s' ∧ tree_of s' (foldl map_op m os).
Proof.
  intros Ht Ho. revert s m Ht. induction Ho as [|o os Ho Hos IH]; intros s m Ht; [by exists s|].
  destruct (apply_op_tree s m o Ht Ho) as (s1 & E & Ht1). destruct (IH _ _ Ht1) as (s' & E' & Ht').
  exists s'. split; [|done]. unfold apply_ops in *. cbn [foldl mbind option_bind]. by rewrite E.
Qed.

(** C33: The tree is a function of what it holds.  After any sequence of insertions and
    removals the code has not panicked; the tree, node for node and hash for hash, is
    the one built in one pass from the resulting map, whatever the order and history of
    the operations; its root is the reference root of that map, a full binary tree of
    height 256 hashed from the leaves; its length is the number of entries, and [get]
    is the map's lookup. *)
Theorem tree_is_canonical os m :
  Forall op_ok os → m = foldl map_op ∅ os →
  ∃ s, apply_ops new os = Some s ∧ from_leaf_map m = Some s ∧
    root s = ref_root TREE_DEPTH m ∧ len s = size m ∧ ∀ k, get s k = Some (m !! k).
Proof.
  intros Ho ->. destruct (apply_ops_tree os new ∅) as (s & E & Hc & Hl & Hok);
    [by split; [constructor|]|done|].
  exists s. split; [done|]. destruct (from_leaf_map_canonical _ Hok) as (t & -> & Ht).
  split; [|split; [|split; [done|]]].
  - rewrite (canonical_unique _ _ _ _ Ht Hc), <- Hl. by destruct s.
  - unfold root. rewrite (canonical_hash _ _ _ Hc) by lia. done.
  - intros k. apply (get_from_canonical 0 _ _ k Hc). lia.
Qed.

(** ** Proofs of inclusion and of absence *)

Lemma length_empties d : length (empties d) = (TREE_DEPTH - d)%nat.
Proof. unfold empties. induction (TREE_DEPTH - d)%nat; cbn; auto. Qed.

Lemma empties_cons d : (d < TREE_DEPTH)%nat → empties d = empty_at (S d) :: empties (S d).
Proof.
  intros. unfold empties, empty_at. replace (TREE_DEPTH - d)%nat with (S (TREE_DEPTH - S d)) by lia.
  cbn [last_empties]. f_equal. induction (TREE_DEPTH - S d)%nat as [|n IH]; [done|].
  cbn [last_empties empty_height]. by rewrite IH.
Qed.

Lemma climb_singleton key v d n :
  (TREE_DEPTH - d = n)%nat → climb key d (leaf_hash key v) (empties d) = singleton_fold key v n.
Proof.
  revert d. induction n as [|n IH]; intros d Hd.
  - unfold empties. by rewrite Hd.
  - rewrite empties_cons by lia. cbn [climb]. rewrite (IH (S d)), singleton_fold_S by lia.
    replace (TREE_DEPTH - S n)%nat with d by lia. do 2 f_equal. unfold empty_at. f_equal. lia.
Qed.

Lemma climb_empty key d n :
  (TREE_DEPTH - d = n)%nat → climb key d empty_leaf (empties d) = empty_height n.
Proof.
  revert d. induction n as [|n IH]; intros d Hd.
  - unfold empties. by rewrite Hd.
  - rewrite empties_cons by lia. cbn [climb empty_height]. rewrite (IH (S d)) by lia.
    unfold fold_up, empty_at. replace (TREE_DEPTH - S d)%nat with n by lia. by destruct (bit key d).
Qed.

Lemma part_from_spec n k v key :
  (n ≤ TREE_DEPTH)%nat → is_hash k → is_hash key → k ≠ key →
  (∀ i, (i < TREE_DEPTH - n)%nat → bit k i = bit key i) →
  ∃ sibs, part_from n k v key = Some sibs ∧ length sibs = n ∧
    climb key (TREE_DEPTH - n) empty_leaf sibs = singleton_fold k v n.
Proof.
  intros Hn Hk Hkey Hne. induction n as [|n IH]; intros Hb.
  - exfalso. apply Hne, bits_determine; [done|done|]. intros i Hi. apply Hb. lia.
  - cbn [part_from]. set (d := (TREE_DEPTH - S n)%nat) in *.
    assert (TREE_DEPTH - n = S d)%nat as Hsd by (unfold d; lia).
    destruct (eqb (bit key d) (bit k d)) eqn:E.
    + apply eqb_prop in E. destruct IH as (sibs & -> & Hl & Hc); [lia| |].
      { intros i Hi. destruct (decide (i = d)) as [->|]; [done|]. apply Hb. lia. }
      eexists. split; [done|]. split; [cbn; by rewrite Hl|]. rewrite Hsd in Hc.
      rewrite singleton_fold_S. cbn [climb]. fold d. unfold fold_up. rewrite Hc, E.
      by assert (empty_at (S d) = empty_height n) as -> by (apply empty_at_height; lia).
    + apply eqb_false_iff in E. eexists. split; [done|].
      split; [cbn [length]; rewrite length_empties; unfold d; lia|].
      rewrite singleton_fold_S. cbn [climb]. fold d. rewrite (climb_empty key (S d) n) by lia.
      unfold fold_up, singleton. replace (TREE_DEPTH - S d)%nat with n by lia.
      destruct (bit key d), (bit k d); done.
Qed.

Lemma prove_from_spec d t m key :
  canonical d t m → (d ≤ TREE_DEPTH)%nat →
  match m !! key with
  | Some v => ∃ sibs, prove_from t d key = Some sibs ∧ length sibs = (TREE_DEPTH - d)%nat ∧
      climb key d (leaf_hash key v) sibs = hash_of t d
  | None => prove_from t d key = None
  end.
Proof.
  induction 1 as [d|d k w|d l r m Hd Hs Hl IHl Hr IHr]; intros Hle.
  - by rewrite lookup_empty.
  - cbn [new_leaf prove_from hash_of]. destruct (Z.eqb_spec k key) as [->|Hne].
    + rewrite lookup_singleton_eq. eexists. split; [done|]. split; [apply length_empties|].
      by apply climb_singleton.
    + by rewrite lookup_singleton_ne.
  - cbn [new_split prove_from hash_of]. rewrite (proj2 (Nat.leb_gt _ _)) by done.
    rewrite <- (lookup_side_same d m key). destruct (bit key d) eqn:Eb.
    + specialize (IHr ltac:(lia)). destruct (side d true m !! key).
      * destruct IHr as (sibs & -> & Hlen & Hc). eexists. split; [done|]. cbn [length climb].
        split; [lia|]. unfold fold_up. by rewrite Hc, Eb.
      * by rewrite IHr.
    + specialize (IHl ltac:(lia)). destruct (side d false m !! key).
      * destruct IHl as (sibs & -> & Hlen & Hc). eexists. split; [done|]. cbn [length climb].
        split; [lia|]. unfold fold_up. by rewrite Hc, Eb.
      * by rewrite IHl.
Qed.

Lemma prove_absence_from_spec d t m key :
  canonical d t m → (d ≤ TREE_DEPTH)%nat → keys_ok m → is_hash key → agrees d key m →
  match m !! key with
  | Some _ => prove_absence_from t d key = None
  | None => ∃ sibs, prove_absence_from t d key = Some sibs ∧ length sibs = (TREE_DEPTH - d)%nat ∧
      climb key d empty_leaf sibs = hash_of t d
  end.
Proof.
  induction 1 as [d|d k w|d l r m Hd Hs Hl IHl Hr IHr]; intros Hle Hok Hkey Ha.
  - rewrite lookup_empty. cbn [prove_absence_from hash_of]. eexists. split; [done|].
    split; [apply length_empties|]. by apply climb_empty.
  - cbn [new_leaf prove_absence_from hash_of]. destruct (Z.eqb_spec k key) as [->|Hne].
    + by rewrite lookup_singleton_eq.
    + rewrite lookup_singleton_ne by done.
      destruct (part_from_spec (TREE_DEPTH - d) k w key) as (sibs & -> & Hlen & Hc);
        [lia|apply (Hok k w), lookup_singleton_eq|done|done| |].
      { intros i Hi. apply (Ha k w); [apply lookup_singleton_eq|lia]. }
      eexists. split; [done|]. split; [done|].
      by replace (TREE_DEPTH - (TREE_DEPTH - d))%nat with d in Hc by lia.
  - cbn [new_split prove_absence_from hash_of]. rewrite (proj2 (Nat.leb_gt _ _)) by done.
    rewrite <- (lookup_side_same d m key). destruct (bit key d) eqn:Eb.
    + specialize (IHr ltac:(lia) (keys_ok_side _ _ _ Hok) Hkey (agrees_side _ _ _ _ Ha Eb)).
      destruct (side d true m !! key); [by rewrite IHr|].
      destruct IHr as (sibs & -> & Hlen & Hc). eexists. split; [done|]. cbn [length climb].
      split; [lia|]. unfold fold_up. by rewrite Hc, Eb.
    + specialize (IHl ltac:(lia) (keys_ok_side _ _ _ Hok) Hkey (agrees_side _ _ _ _ Ha Eb)).
      destruct (side d false m !! key); [by rewrite IHl|].
      destruct IHl as (sibs & -> & Hlen & Hc). eexists. split; [done|]. cbn [length climb].
      split; [lia|]. unfold fold_up. by rewrite Hc, Eb.
Qed.

(** C34: Every key can be proved one way and only one.  For the tree of any sequence of
    operations and any key: if the map holds a value for it, an inclusion proof is
    produced and accepted against the root and no absence proof is; if it holds none,
    an absence proof is produced and accepted and no inclusion proof is. *)
Theorem proofs_complete os s m key :
  Forall op_ok os → m = foldl map_op ∅ os → apply_ops new os = Some s → is_hash key →
  match m !! key with
  | Some v => prove_absence s key = None ∧
      ∃ p, prove s key = Some p ∧ verify_inclusion (root s) key v p = true
  | None => prove s key = None ∧
      ∃ p, prove_absence s key = Some p ∧ verify_absence (root s) key p = true
  end.
Proof.
  intros Ho -> Es Hkey. destruct (apply_ops_tree os new ∅) as (s' & E & Hc & _ & Hok);
    [by split; [constructor|]|done|]. rewrite Es in E. injection E as <-.
  pose proof (prove_from_spec 0 _ _ key Hc ltac:(lia)) as H1.
  pose proof (prove_absence_from_spec 0 _ _ key Hc ltac:(lia) Hok Hkey) as H2.
  specialize (H2 ltac:(intros ??? _ Hi; lia)). unfold prove, prove_absence, verify_inclusion, verify_absence, root.
  destruct (foldl map_op ∅ os !! key) as [v|].
  - split; [done|]. destruct H1 as (p & -> & Hl & Hcl). exists p. split; [done|].
    rewrite Hl, Hcl. cbn [negb]. rewrite Nat.eqb_refl. apply Z.eqb_refl.
  - split; [done|]. destruct H2 as (p & -> & Hl & Hcl). exists p. split; [done|].
    rewrite Hl, Hcl. cbn [negb]. rewrite Nat.eqb_refl. apply Z.eqb_refl.
Qed.

(** ** Soundness of the proofs *)

Definition node_input (l r : hash) : list Z := DS_STATE ++ concat [[MARK_NODE]; hash_bytes l; hash_bytes r].
Definition leaf_input (key v : hash) : list Z := DS_STATE ++ concat [[MARK_LEAF]; hash_bytes key; hash_bytes v].
Definition empty_input : list Z := DS_STATE ++ concat [[MARK_EMPTY]].

(** The climb with the byte strings it hashes. *)
Fixpoint climb_trace (key : hash) (d : nat) (h : hash) (siblings : list hash) : hash * list (list Z) :=
  match siblings with
  | [] => (h, [])
  | sib :: siblings =>
      let '(below, inputs) := climb_trace key (S d) h siblings in
      let input := if bit key d then node_input sib below else node_input below sib in
      (sha3_256 input, input :: inputs)
  end.
Definition climb_inputs (key : hash) (d : nat) (h : hash) (siblings : list hash) : list (list Z) :=
  (climb_trace key d h siblings).2.

Lemma climb_trace_fst key d h sibs : (climb_trace key d h sibs).1 = climb key d h sibs.
Proof.
  revert d. induction sibs as [|a sibs IH]; intros d; [done|]. cbn [climb_trace climb]. rewrite <- IH.
  destruct (climb_trace key (S d) h sibs). cbn [fst]. unfold fold_up. by destruct (bit key d).
Qed.

Lemma climb_inputs_cons key d h sib sibs :
  climb_inputs key d h (sib :: sibs) =
  (if bit key d then node_input sib (climb key (S d) h sibs) else node_input (climb key (S d) h sibs) sib)
    :: climb_inputs key (S d) h sibs.
Proof.
  unfold climb_inputs. cbn [climb_trace]. rewrite <- climb_trace_fst.
  by destruct (climb_trace key (S d) h sibs).
Qed.

(** The siblings and the bottom of the path of [key] in the reference tree. *)
Fixpoint path_siblings (key : hash) (n : nat) (m : gmap hash hash) : list hash :=
  match n with
  | O => []
  | S n => let d := (TREE_DEPTH - S n)%nat in
           ref_root n (side d (negb (bit key d)) m) :: path_siblings key n (side d (bit key d) m)
  end.
Fixpoint bottom (key : hash) (n : nat) (m : gmap hash hash) : gmap hash hash :=
  match n with
  | O => m
  | S n => let d := (TREE_DEPTH - S n)%nat in bottom key n (side d (bit key d) m)
  end.

(** What the reference tree hashes on the path of [key]. *)
Definition path_inputs (key : hash) (m : gmap hash hash) : list (list Z) :=
  match m !! key with Some v => leaf_input key v | None => empty_input end
    :: climb_inputs key 0 (match m !! key with Some v => leaf_hash key v | None => empty_leaf end)
         (path_siblings key TREE_DEPTH m).

Definition no_collision (inputs : list (list Z)) : Prop :=
  ∀ a b, a ∈ inputs → b ∈ inputs → sha3_256 a = sha3_256 b → a = b.

Lemma bottom_lookup key n m k v :
  (n ≤ TREE_DEPTH)%nat →
  bottom key n m !! k = Some v ↔
  m !! k = Some v ∧ ∀ i, (TREE_DEPTH - n ≤ i < TREE_DEPTH)%nat → bit k i = bit key i.
Proof.
  revert m. induction n as [|n IH]; intros m Hn; cbn [bottom].
  - split; [|naive_solver]. intros. split; [done|]. lia.
  - rewrite IH, lookup_side by lia. split.
    + intros [[Hm Hb] Hi]. split; [done|]. intros i Hr.
      destruct (decide (i = TREE_DEPTH - S n)%nat) as [->|]; [done|]. apply Hi. lia.
    + intros [Hm Hi]. split; [split; [done|]; apply Hi; lia|]. intros i Hr. apply Hi. lia.
Qed.

Lemma bottom_all key m :
  keys_ok m → is_hash key →
  bottom key TREE_DEPTH m = match m !! key with Some v => {[key := v]} | None => ∅ end.
Proof.
  intros Hok Hkey. apply map_eq. intros k. apply option_eq. intros v. rewrite bottom_lookup by lia.
  assert (∀ v, m !! k = Some v → (∀ i, (TREE_DEPTH - TREE_DEPTH ≤ i < TREE_DEPTH)%nat → bit k i = bit key i) → k = key) as Hk.
  { intros w Hw Hi. apply bits_determine; [by apply (Hok k w)|done|]. intros i Hlt. apply Hi. lia. }
  destruct (m !! key) as [w|] eqn:E.
  - rewrite lookup_singleton_Some. split.
    + intros [Hm Hi]. rewrite (Hk _ Hm Hi) in *. naive_solver.
    + intros [<- <-]. done.
  - rewrite lookup_empty. split; [|done]. intros [Hm Hi]. rewrite (Hk _ Hm Hi) in Hm. congruence.
Qed.

Lemma ref_root_climb key n m :
  (n ≤ TREE_DEPTH)%nat →
  ref_root n m = climb key (TREE_DEPTH - n) (ref_root 0 (bottom key n m)) (path_siblings key n m).
Proof.
  revert m. induction n as [|n IH]; intros m Hn; [done|].
  rewrite ref_root_node. cbn [bottom path_siblings climb]. set (d := (TREE_DEPTH - S n)%nat) in *.
  replace (S d) with (TREE_DEPTH - n)%nat by (unfold d; lia). unfold fold_up.
  rewrite <- IH by lia. by destruct (bit key d).
Qed.

Lemma length_path_siblings key n m : length (path_siblings key n m) = n.
Proof. revert m. induction n; intros; cbn; auto. Qed.

Section sound.
Context (sha3_range : ∀ l, is_hash (sha3_256 l)).

Lemma climb_range key d h sibs : is_hash h → is_hash (climb key d h sibs).
Proof. intros. destruct sibs; cbn [climb]; [done|]. unfold fold_up. destruct (bit key d); apply sha3_range. Qed.

Lemma ref_root_range n m : is_hash (ref_root n m).
Proof.
  destruct n; cbn [ref_root]; case_decide; [apply sha3_range| |apply sha3_range|apply sha3_range].
  destruct (map_to_list m) as [|[]]; apply sha3_range.
Qed.

Lemma path_siblings_range key n m : Forall is_hash (path_siblings key n m).
Proof. revert m. induction n; intros m; cbn; constructor; [apply ref_root_range|done]. Qed.

Lemma node_preimage_inj l r l' r' :
  is_hash l → is_hash r → is_hash l' → is_hash r' → node_input l r = node_input l' r' → l = l' ∧ r = r'.
Proof.
  intros Hl Hr Hl' Hr' E. unfold node_input in E. apply (inj (app DS_STATE)) in E. cbn [concat] in E.
  rewrite !app_nil_r in E. apply (inj (app [MARK_NODE])) in E. apply app_inj_len in E as [E1 E2]; [|by rewrite !length_hash_bytes].
  split; by apply hash_bytes_inj.
Qed.

Lemma leaf_empty_inputs key v : leaf_input key v ≠ empty_input.
Proof.
  intros E. apply (f_equal length) in E. unfold leaf_input, empty_input in E. cbn [concat] in E.
  rewrite !length_app, !length_hash_bytes in E. cbn [length] in E. lia.
Qed.

(** Two paths with the same root have the same bottom. *)
Lemma climb_inj key d h1 h2 s1 s2 :
  is_hash h1 → is_hash h2 → Forall is_hash s1 → Forall is_hash s2 → length s1 = length s2 →
  no_collision (climb_inputs key d h1 s1 ++ climb_inputs key d h2 s2) →
  climb key d h1 s1 = climb key d h2 s2 → h1 = h2.
Proof.
  intros Hh1 Hh2 HF1. revert d s2. induction HF1 as [|a s1 Ha HF1 IH]; intros d s2 HF2 Hl Hnc E;
    destruct s2 as [|b s2]; try done. apply Forall_cons in HF2 as [Hb HF2].
  rewrite !climb_inputs_cons in Hnc. cbn [climb] in *. pose proof (climb_range key (S d) h1 s1 Hh1) as Hr1.
  pose proof (climb_range key (S d) h2 s2 Hh2) as Hr2.
  apply (IH (S d) s2); [done|by injection Hl| |].
  - intros x y Hx Hy. apply Hnc; rewrite elem_of_app in *; destruct Hx, Hy; rewrite ?elem_of_cons; tauto.
  - unfold fold_up in E. destruct (bit key d).
    + apply (node_preimage_inj a _ b _); [done..|]. apply Hnc; [left|set_solver|done].
    + apply (node_preimage_inj _ a _ b); [done..|]. apply Hnc; [left|set_solver|done].
Qed.

Lemma path_bottom_inj key m h sibs bot :
  keys_ok m → is_hash key → is_hash h → Forall is_hash sibs → length sibs = TREE_DEPTH →
  no_collision (bot :: climb_inputs key 0 h sibs ++ path_inputs key m) →
  climb key 0 h sibs = ref_root TREE_DEPTH m →
  h = match m !! key with Some v => leaf_hash key v | None => empty_leaf end.
Proof.
  intros Hok Hkey Hh HF Hl Hnc E. rewrite (ref_root_climb key TREE_DEPTH m) in E by lia.
  rewrite bottom_all, Nat.sub_diag in E by done.
  assert (ref_root 0 (match m !! key with Some v => {[key := v]} | None => ∅ end)
    = match m !! key with Some v => leaf_hash key v | None => empty_leaf end) as Eb.
  { destruct (m !! key); [by rewrite ref_root_singleton by lia|by rewrite ref_root_empty]. }
  rewrite Eb in E. apply climb_inj in E; [done|done| |done|apply path_siblings_range|by rewrite length_path_siblings|].
  - destruct (m !! key); apply sha3_range.
  - intros x y Hx Hy. apply Hnc; rewrite elem_of_cons, elem_of_app; unfold path_inputs; rewrite elem_of_cons;
      rewrite elem_of_app in *; tauto.
Qed.

End sound.

(** C35: A proof cannot lie.  If SHA3 does not collide on the inputs hashed by the
    verifier and by the tree on the path of the key, then an accepted inclusion proof
    means that the map holds that value for the key, and an accepted absence proof that
    it holds none, whoever made the proof. *)
Theorem proofs_sound (sha3_range : ∀ l, is_hash (sha3_256 l)) os s m key v p :
  Forall op_ok os → m = foldl map_op ∅ os → apply_ops new os = Some s →
  is_hash key → is_hash v → map_Forall (λ _ w, is_hash w) m → Forall is_hash p →
  no_collision (leaf_input key v :: climb_inputs key 0 (leaf_hash key v) p ++ path_inputs key m) →
  no_collision (empty_input :: climb_inputs key 0 empty_leaf p ++ path_inputs key m) →
  (verify_inclusion (root s) key v p = true → m !! key = Some v) ∧
  (verify_absence (root s) key p = true → m !! key = None).
Proof.
  intros Ho -> Es Hkey Hv Hvals Hp Hnc1 Hnc2. destruct (apply_ops_tree os new ∅) as (s' & E & Hc & _ & Hok);
    [by split; [constructor|]|done|]. rewrite Es in E. injection E as <-.
  assert (root s = ref_root TREE_DEPTH (foldl map_op ∅ os)) as Hroot
    by (unfold root; by rewrite (canonical_hash _ _ _ Hc) by lia).
  set (m := foldl map_op ∅ os) in *. clearbody m. unfold verify_inclusion, verify_absence. rewrite Hroot.
  destruct (Nat.eqb_spec (length p) TREE_DEPTH) as [Hl|]; cbn [negb]; [|done]. rewrite !Z.eqb_eq. split; intros E.
  - apply (path_bottom_inj sha3_range key m _ p _ Hok Hkey (sha3_range _) Hp Hl Hnc1) in E.
    unfold path_inputs in Hnc1. destruct (m !! key) as [w|] eqn:Em.
    + apply Hnc1 in E; [|left|right; apply elem_of_app; right; left].
      unfold leaf_input in E. apply (inj (app DS_STATE)) in E. cbn [concat] in E. rewrite !app_nil_r in E.
      apply (inj (app [MARK_LEAF])) in E. apply app_inj_len in E as [_ E]; [|done].
      apply hash_bytes_inj in E; [by subst|done|by apply (Hvals key w)].
    + apply Hnc1 in E; [|left|right; apply elem_of_app; right; left].
      by destruct (leaf_empty_inputs key v).
  - apply (path_bottom_inj sha3_range key m _ p _ Hok Hkey (sha3_range _) Hp Hl Hnc2) in E.
    unfold path_inputs in Hnc2. destruct (m !! key) as [w|] eqn:Em; [|done].
    apply Hnc2 in E; [|left|right; apply elem_of_app; right; left].
    by destruct (leaf_empty_inputs key w).
Qed.

(** ** The memo *)

Definition memo_ok (m : SingletonMemo) : Prop :=
  map_Forall (λ k h, h = singleton k.1.1 k.1.2 k.2) (hot m) ∧
  map_Forall (λ k h, h = singleton k.1.1 k.1.2 k.2) (cold m).

(** Whatever was looked up before, and whenever a generation is dropped, the memoised
    fold is the fold. *)
Lemma memo_transparent (m : SingletonMemo) key v d :
  memo_ok m →
  (singleton_subtree_root m key v d).1 = singleton key v d ∧ memo_ok (singleton_subtree_root m key v d).2.
Proof.
  intros [Hh Hc]. unfold singleton_subtree_root, memo_get. destruct (hot m !! _) as [h|] eqn:E1.
  { cbn. split; [apply (Hh _ _ E1)|done]. }
  destruct (cold m !! _) as [h|] eqn:E2.
  { cbn. pose proof (Hc _ _ E2) as Hh2. split; [exact Hh2|]. split; [|done]. by apply map_Forall_insert_2. }
  cbn. split; [done|]. unfold memo_put.
  assert (map_Forall (λ k h, h = singleton k.1.1 k.1.2 k.2)
            (<[(key, v, d) := singleton key v d]> (hot m))) by (by apply map_Forall_insert_2).
  case_match; by split.
Qed.

End laws.

(** [bit] reads the bytes from the most significant bit of the first. *)
Lemma bit_of_bytes key d :
  (d < TREE_DEPTH)%nat →
  bit key d = Z.testbit (default 0 (hash_bytes key !! (d / 8)%nat)) (7 - Z.of_nat (d mod 8)%nat).
Proof.
  intros Hd. assert (∀ n z (i : nat), (i < n)%nat → le_bytes n z !! i = Some (z / 256 ^ Z.of_nat i mod 256)) as Hle.
  { induction n as [|n IH]; intros z i Hi; [lia|]. destruct i as [|i].
    - change (Some (z mod 256) = Some (z / 1 mod 256)). by rewrite Z.div_1_r.
    - change (le_bytes (S n) z !! S i) with (le_bytes n (z / 256) !! i). rewrite IH by lia. do 2 f_equal. rewrite Z.div_div by lia. f_equal.
      rewrite Nat2Z.inj_succ, Z.pow_succ_r by lia. done. }
  assert (d / 8 < 32)%nat as Hq by (apply Nat.Div0.div_lt_upper_bound; unfold TREE_DEPTH in Hd; lia).
  pose proof (Nat.div_mod d 8 ltac:(lia)) as Hdm. pose proof (Nat.mod_upper_bound d 8 ltac:(lia)) as Hm.
  unfold hash_bytes. rewrite reverse_lookup by (rewrite length_le_bytes; lia).
  rewrite length_le_bytes, Hle by lia. cbn [default from_option id].
  match goal with |- _ = Z.testbit (?x mod 256) ?i => change (x mod 256) with (x mod 2 ^ 8) end.
  rewrite Z.mod_pow2_bits_low by lia. change 256 with (2 ^ 8). rewrite <- Z.pow_mul_r by lia. rewrite Z.div_pow2_bits by lia. unfold bit. f_equal. lia.
Qed.

(** ** Witnesses *)

(** The shape of the tree does not depend on the hash: a constant will do. *)
Definition ex_const_sha : Sha3 := λ _, 0.
Definition ex_ops : list op :=
  [OpInsert (2 ^ 252) 1; OpInsert (2 ^ 255) 2; OpRemove (2 ^ 252); OpInsert (2 ^ 253) 3; OpRemove 9].
Definition ex_map : gmap hash hash := {[2 ^ 255 := 2; 2 ^ 253 := 3]}.
Definition ex_smt : Smt := mkSmt (Split (Leaf (2 ^ 253) 3 0 1) (Leaf (2 ^ 255) 2 0 1) 0) 2.

Lemma ex_ops_ok : Forall op_ok ex_ops.
Proof. repeat constructor; unfold is_hash; lia. Qed.

Lemma ex_smt_ops : @apply_ops ex_const_sha new ex_ops = Some ex_smt.
Proof. vm_compute. reflexivity. Qed.

(** The tree left by the operations is the one built from the map they leave. *)
Example tree_is_canonical_witness :
  @from_leaf_map ex_const_sha ex_map = Some ex_smt ∧ get ex_smt (2 ^ 253) = Some (Some 3).
Proof.
  assert (foldl map_op ∅ ex_ops = ex_map) as Em by reflexivity.
  destruct (@tree_is_canonical ex_const_sha ex_ops ex_map ex_ops_ok (eq_sym Em)) as (s & Es & Ef & _ & _ & Hg).
  rewrite ex_smt_ops in Es. injection Es as <-. split; [exact Ef|]. rewrite Hg. reflexivity.
Defined.

(** One key is in the tree, another is not any more. *)
Example proofs_complete_witness :
  let _ := ex_const_sha in
  (∃ p, prove ex_smt (2 ^ 253) = Some p ∧ verify_inclusion (root ex_smt) (2 ^ 253) 3 p = true) ∧
  (∃ p, prove_absence ex_smt (2 ^ 252) = Some p ∧ verify_absence (root ex_smt) (2 ^ 252) p = true).
Proof.
  intros S. assert (foldl map_op ∅ ex_ops = ex_map) as Em by reflexivity. split.
  - apply (@proofs_complete S ex_ops ex_smt ex_map (2 ^ 253) ex_ops_ok (eq_sym Em) ex_smt_ops).
    unfold is_hash. lia.
  - apply (@proofs_complete S ex_ops ex_smt ex_map (2 ^ 252) ex_ops_ok (eq_sym Em) ex_smt_ops).
    unfold is_hash. lia.
Defined.

(** A hash that counts levels: an empty subtree of height [n] hashes to [n], one with a
    leaf to [1000 + n]. *)
Definition ex_level_sha : Sha3 := λ l,
  match drop 16 l with
  | mark :: rest =>
      if mark =? MARK_NODE then
        let a := from_hash_bytes (take 32 rest) in
        let b := from_hash_bytes (drop 32 rest) in
        (Z.max a b + 1) `mod` 2 ^ 256
      else if mark =? MARK_LEAF then 1000 else 0
  | [] => 0
  end.

Section levels.
Local Existing Instance ex_level_sha.

Lemma ex_level_range l : is_hash (sha3_256 l).
Proof.
  unfold sha3_256, ex_level_sha, is_hash. change (256 ^ 32) with (2 ^ 256).
  destruct (drop 16 l) as [|mark rest]; [lia|]. case_match; [apply Z.mod_pos_bound; lia|case_match; lia].
Qed.

Lemma ex_level_node a b :
  0 ≤ a < 2000 → 0 ≤ b < 2000 → sha3_256 (node_input a b) = Z.max a b + 1.
Proof.
  intros Ha Hb. transitivity ((Z.max (from_hash_bytes (take 32 (hash_bytes a ++ hash_bytes b ++ [])))
    (from_hash_bytes (drop 32 (hash_bytes a ++ hash_bytes b ++ []))) + 1) `mod` 2 ^ 256); [reflexivity|].
  rewrite app_nil_r, take_app_le, drop_app_ge by (rewrite length_hash_bytes; lia).
  rewrite length_hash_bytes, take_ge by (rewrite length_hash_bytes; lia). rewrite drop_0.
  rewrite !from_hash_bytes_hash_bytes by (unfold is_hash; lia). apply Z.mod_small. lia.
Qed.

Lemma ex_empty_height (n : nat) : (n < 1000)%nat → empty_height n = Z.of_nat n.
Proof.
  induction n as [|n IH]; intros Hn; [reflexivity|]. cbn [empty_height]. rewrite IH by lia.
  transitivity (sha3_256 (node_input (Z.of_nat n) (Z.of_nat n))); [reflexivity|].
  rewrite ex_level_node by lia. lia.
Qed.

(** The inputs over a bottom that hashes to [c]. *)
Definition ex_inputs (c : Z) (n : nat) : list (list Z) :=
  (λ i, node_input (c + Z.of_nat i) (Z.of_nat i)) <$> reverse (seq 0 n).

Lemma ex_climb c (n : nat) :
  0 ≤ c ≤ 1000 → (n ≤ TREE_DEPTH)%nat →
  climb 0 (TREE_DEPTH - n) c (last_empties n) = c + Z.of_nat n ∧
  climb_inputs 0 (TREE_DEPTH - n) c (last_empties n) = ex_inputs c n.
Proof.
  intros Hc. induction n as [|n IH]; intros Hn; [split; [cbn; lia|done]|].
  destruct IH as [IH1 IH2]; [lia|]. pose proof (empties_cons (TREE_DEPTH - S n) ltac:(lia)) as He.
  unfold empties in He. replace (TREE_DEPTH - (TREE_DEPTH - S n))%nat with (S n) in He by lia.
  replace (TREE_DEPTH - S (TREE_DEPTH - S n))%nat with n in He by lia.
  rewrite He, empty_at_height, ex_empty_height by (unfold TREE_DEPTH in *; lia).
  rewrite climb_inputs_cons. cbn [climb]. unfold fold_up.
  replace (S (TREE_DEPTH - S n)) with (TREE_DEPTH - n)%nat by lia. rewrite IH1, IH2.
  assert (∀ d, bit 0 d = false) as -> by (intros d; apply Z.testbit_0_l). split.
  - transitivity (sha3_256 (node_input (c + Z.of_nat n) (Z.of_nat n))); [reflexivity|].
    rewrite ex_level_node by (unfold TREE_DEPTH in *; lia). lia.
  - unfold ex_inputs. rewrite seq_S, reverse_snoc. done.
Qed.

Lemma ex_path_siblings n m :
  (n ≤ TREE_DEPTH)%nat → m = ∅ ∨ m = {[0 := 3]} → path_siblings 0 n m = last_empties n.
Proof.
  revert m. induction n as [|n IH]; intros m Hn Hm; [done|]. cbn [path_siblings].
  assert (∀ d, bit 0 d = false) as Hbit by (intros d; apply Z.testbit_0_l). rewrite !Hbit. cbn [negb].
  assert (side (TREE_DEPTH - S n) true m = ∅ ∧ side (TREE_DEPTH - S n) false m = m) as [-> ->].
  { destruct Hm as [-> | ->]; [by rewrite !side_empty|]. by rewrite !side_singleton, Hbit. }
  rewrite ref_root_empty, IH by (done || lia).
  pose proof (empties_cons (TREE_DEPTH - S n) ltac:(lia)) as He. unfold empties in He.
  replace (TREE_DEPTH - (TREE_DEPTH - S n))%nat with (S n) in He by lia.
  replace (TREE_DEPTH - S (TREE_DEPTH - S n))%nat with n in He by lia.
  by rewrite He, empty_at_height by lia.
Qed.

(** Inputs over an empty bottom and over a leaf, all different. *)
Lemma ex_no_collision c l :
  c = 0 ∨ c = 1000 →
  (∀ a, a ∈ l → (∃ i, a = node_input (c + Z.of_nat i) (Z.of_nat i) ∧ (i < TREE_DEPTH)%nat) ∨
     (∃ i, a = node_input (1000 + Z.of_nat i) (Z.of_nat i) ∧ (i < TREE_DEPTH)%nat) ∨
     a = leaf_input 0 3 ∨ a = empty_input) → no_collision l.
Proof.
  intros Hc Hl. unfold TREE_DEPTH in Hl.
  assert (sha3_256 (leaf_input 0 3) = 1000 ∧ sha3_256 empty_input = 0) as [E1 E2] by (split; reflexivity).
  assert (∀ a, a ∈ l → ∃ h, sha3_256 a = h ∧
    ((h = 0 ∧ a = empty_input) ∨ (h = 1000 ∧ a = leaf_input 0 3) ∨
     (∃ i, h = 0 + Z.of_nat i + 1 ∧ (i < 256)%nat ∧ a = node_input (0 + Z.of_nat i) (Z.of_nat i)) ∨
     (∃ i, h = 1000 + Z.of_nat i + 1 ∧ (i < 256)%nat ∧ a = node_input (1000 + Z.of_nat i) (Z.of_nat i)))) as Hh.
  { intros a Ha. destruct (Hl a Ha) as [(i & -> & Hi)|[(i & -> & Hi)|[-> | ->]]].
    - rewrite ex_level_node by lia. eexists. split; [done|].
      destruct Hc as [-> | ->]; right; right; [left|right]; exists i; (split; [lia|done]).
    - rewrite ex_level_node by lia. eexists. split; [done|]. right; right; right. exists i. split; [lia|done].
    - exists 1000. split; [done|]. right; left. done.
    - exists 0. split; [done|]. left. done. }
  intros a b Ha Hb E. destruct (Hh a Ha) as (h & Eh & Ha'). destruct (Hh b Hb) as (h' & Eh' & Hb').
  rewrite Eh, Eh' in E. subst h'. clear Eh Eh' Hl Hh.
  destruct Ha' as [[-> ->]|[[-> ->]|[(i & -> & Hi & ->)|(i & -> & Hi & ->)]]],
           Hb' as [[E ->]|[[E ->]|[(j & E & Hj & ->)|(j & E & Hj & ->)]]]; try done; try lia;
    by assert (i = j) as -> by lia.
Qed.

Lemma ex_inputs_elem c n a :
  a ∈ ex_inputs c n → ∃ i, a = node_input (c + Z.of_nat i) (Z.of_nat i) ∧ (i < n)%nat.
Proof.
  unfold ex_inputs. intros (i & -> & Hi)%list_elem_of_fmap. exists i. split; [done|].
  rewrite elem_of_reverse, elem_of_seq in Hi. lia.
Qed.

Lemma ex_path_inputs : path_inputs 0 {[0 := 3]} = leaf_input 0 3 :: ex_inputs 1000 TREE_DEPTH.
Proof.
  unfold path_inputs. rewrite lookup_singleton_eq, ex_path_siblings by (auto with lia).
  change (match Some 3 with Some v => leaf_hash 0 v | None => empty_leaf end) with 1000. apply (f_equal (cons _)).
  rewrite <- (proj2 (ex_climb 1000 TREE_DEPTH ltac:(lia) ltac:(lia))). by rewrite Nat.sub_diag.
Qed.

Lemma ex_inputs_at c : 0 ≤ c ≤ 1000 → climb_inputs 0 0 c (empties 0) = ex_inputs c TREE_DEPTH.
Proof.
  intros Hc. unfold empties. rewrite <- (proj2 (ex_climb c TREE_DEPTH Hc ltac:(lia))).
  by rewrite Nat.sub_diag, Nat.sub_0_r.
Qed.

Lemma ex_empties_range n : Forall is_hash (last_empties n).
Proof.
  induction n as [|n IH]; [constructor|]. cbn [last_empties]. constructor; [|done].
  destruct (last_empties n); apply ex_level_range.
Qed.

Lemma ex_one_op : @apply_ops ex_level_sha new [OpInsert 0 3] = Some (mkSmt (new_leaf 0 3 0) 1).
Proof. reflexivity. Qed.

Lemma ex_accepted : verify_inclusion (root (mkSmt (new_leaf 0 3 0) 1)) 0 3 (empties 0) = true.
Proof.
  unfold verify_inclusion. rewrite length_empties, Nat.sub_0_r, Nat.eqb_refl. cbn [negb]. apply Z.eqb_eq.
  rewrite (climb_singleton 0 3 0 TREE_DEPTH) by lia. unfold root, new_leaf, singleton. cbn [root_node hash_of].
  by rewrite Nat.sub_0_r.
Qed.

(** The tree of one entry and a proof made of empty siblings. *)
Example proofs_sound_witness :
  verify_inclusion (root (mkSmt (new_leaf 0 3 0) 1)) 0 3 (empties 0) = true ∧
  ({[0 := 3]} : gmap hash hash) !! 0 = Some 3.
Proof.
  split; [exact ex_accepted|]. set (s := mkSmt (new_leaf 0 3 0) 1).
  assert (leaf_hash 0 3 = 1000) as El by reflexivity. assert (empty_leaf = 0) as Ee by reflexivity.
  apply (@proofs_sound ex_level_sha ex_level_range [OpInsert 0 3] s {[0 := 3]} 0 3 (empties 0)).
  - repeat constructor; unfold is_hash; lia.
  - reflexivity.
  - exact ex_one_op.
  - unfold is_hash. lia.
  - unfold is_hash. lia.
  - apply map_Forall_singleton. unfold is_hash. lia.
  - apply ex_empties_range.
  - rewrite ex_path_inputs, El, ex_inputs_at by lia. apply (ex_no_collision 1000); [by right|].
    intros a. rewrite !elem_of_cons, elem_of_app, elem_of_cons.
    intros [->|[Ha|[->|Ha]]]; [tauto| |tauto|]; left; by apply ex_inputs_elem.
  - rewrite ex_path_inputs, Ee, ex_inputs_at by lia. apply (ex_no_collision 0); [by left|].
    intros a. rewrite !elem_of_cons, elem_of_app, elem_of_cons.
    intros [->|[Ha|[->|Ha]]]; [tauto|left; by apply ex_inputs_elem|tauto|right; left; by apply ex_inputs_elem].
  - exact ex_accepted.
Defined.

End levels.

End Smt.
