(* ===== verification/Utxo.v ===== *)
(** * The eUTXO set

    [EutxoSet] of [crates/bloch-pos-committee/src/transition.rs] keeps four views of the
    unspent outputs in step: the entries by outpoint, an index of outpoints by script, the
    Merkle tree of their leaves ([state_root.rs]) and the running total.  The theorems
    say that the three derived views are always those a rebuild from the entries gives,
    so that the copies cannot drift apart.  A result of [None] is a panic. *)

From S2P Require Import Prelude Bytes Smt.
Local Open Scope Z_scope.

Module Utxo.
Import Bytes.

(** [state_root::EutxoEntry] *)
Record EutxoEntry := mkEntry { e_txid : hash; e_vout : Z; e_value : Z; e_script_hash : hash }.

Global Instance EutxoEntry_eq_dec : EqDecision EutxoEntry.
Proof. solve_decision. Defined.

Definition Outpoint : Type := hash * Z.
Definition outpoint (e : EutxoEntry) : Outpoint := (e_txid e, e_vout e).

Definition TAG_EUTXO : Z := 0x01.
Definition outpoint_bytes (o : Outpoint) : list Z := hash_bytes o.1 ++ le_bytes 4 o.2.
Definition entry_key (e : EutxoEntry) : list Z := outpoint_bytes (outpoint e).
Definition serialize (e : EutxoEntry) : list Z :=
  hash_bytes (e_txid e) ++ le_bytes 4 (e_vout e) ++ le_bytes 8 (e_value e) ++ hash_bytes (e_script_hash e).

(** [EutxoMaps] and [EutxoSet] *)
Record EutxoMaps := mkMaps {
  by_outpoint : gmap Outpoint EutxoEntry;
  by_script : gmap hash (gset Outpoint)
}.
Record EutxoSet := mkSet { maps : EutxoMaps; tree : Smt.Smt; total_sat : Z }.

Definition entries (s : EutxoSet) : gmap Outpoint EutxoEntry := by_outpoint (maps s).

(** [by_script.entry(script).or_default().insert(outpoint)] *)
Definition index_add (idx : gmap hash (gset Outpoint)) (script : hash) (o : Outpoint)
    : gmap hash (gset Outpoint) :=
  <[script := {[o]} ∪ default ∅ (idx !! script)]> idx.

(** Dropping an outpoint, and its script with the last one. *)
Definition index_drop (idx : gmap hash (gset Outpoint)) (script : hash) (o : Outpoint)
    : gmap hash (gset Outpoint) :=
  match idx !! script with
  | Some set =>
      let set' := set ∖ {[o]} in
      if bool_decide (set' = ∅) then delete script idx else <[script := set']> idx
  | None => idx
  end.

Definition get (s : EutxoSet) (o : Outpoint) : option EutxoEntry := entries s !! o.
Definition contains_key (s : EutxoSet) (o : Outpoint) : bool := bool_decide (is_Some (entries s !! o)).

(** [script_entries]: through the index, then through the entries. *)
Definition script_entries (s : EutxoSet) (script : hash) : list EutxoEntry :=
  omap (λ o, entries s !! o) (elements (default ∅ (by_script (maps s) !! script))).
Definition script_len (s : EutxoSet) (script : hash) : nat :=
  match by_script (maps s) !! script with Some set => size set | None => 0 end.
(** [CommittedState::balance_sat] *)
Definition balance_sat (s : EutxoSet) (script : hash) : Z := sumZ (e_value <$> script_entries s script).

Definition entries_total (m : gmap Outpoint EutxoEntry) : Z := map_sum (λ _ e, e_value e) m.

Section hashed.
Context `{Sha3}.

(** [state_root::eutxo_leaf] *)
Definition leaf_key (o : Outpoint) : hash := Smt.derive_key TAG_EUTXO (outpoint_bytes o).
Definition eutxo_leaf (e : EutxoEntry) : hash * hash :=
  (leaf_key (outpoint e), Smt.hash_value (serialize e)).

(** [EutxoSet::default()] *)
Definition empty_set : EutxoSet := mkSet (mkMaps ∅ ∅) Smt.new 0.

Definition insert (s : EutxoSet) (entry : EutxoEntry) : option EutxoSet :=
  let '(key, value_hash) := eutxo_leaf entry in
  t ← Smt.insert (tree s) key value_hash;
  let o := outpoint entry in
  let replaced := entries s !! o in
  let idx := match replaced with
             | Some old => if e_script_hash old =? e_script_hash entry then by_script (maps s)
                           else index_drop (by_script (maps s)) (e_script_hash old) o
             | None => by_script (maps s)
             end in
  total ← match replaced with Some old => sub_w (total_sat s) (e_value old) | None => Some (total_sat s) end;
  total ← add_w u128_MAX total (e_value entry);
  Some (mkSet (mkMaps (<[o := entry]> (entries s)) (index_add idx (e_script_hash entry) o)) t total).

Definition remove (s : EutxoSet) (o : Outpoint) : option EutxoSet :=
  match entries s !! o with
  | None => Some s
  | Some entry =>
      t ← Smt.remove (tree s) (eutxo_leaf entry).1;
      total ← sub_w (total_sat s) (e_value entry);
      Some (mkSet (mkMaps (delete o (entries s)) (index_drop (by_script (maps s)) (e_script_hash entry) o))
              t total)
  end.

(** [FromIterator]: a later entry of the same outpoint replaces an earlier one.  The maps
    are walked in an order that no result depends on. *)
Definition collect (l : list EutxoEntry) : gmap Outpoint EutxoEntry :=
  foldl (λ m e, <[outpoint e := e]> m) ∅ l.
Definition leaves (m : gmap Outpoint EutxoEntry) : gmap hash hash :=
  list_to_map ((λ oe, eutxo_leaf oe.2) <$> map_to_list m).
Definition script_index (m : gmap Outpoint EutxoEntry) : gmap hash (gset Outpoint) :=
  foldr (λ oe acc, index_add acc (e_script_hash oe.2) (outpoint oe.2)) ∅ (map_to_list m).
Definition from_entries (m : gmap Outpoint EutxoEntry) : option EutxoSet :=
  t ← Smt.from_leaf_map (leaves m);
  if entries_total m <=? u128_MAX then Some (mkSet (mkMaps m (script_index m)) t (entries_total m))
  else None.
Definition from_iter (l : list EutxoEntry) : option EutxoSet := from_entries (collect l).

(** Spending a list of outpoints and creating a list of entries, one after another. *)
Definition remove_all (s : EutxoSet) (os : list Outpoint) : option EutxoSet :=
  foldl (λ s o, s ≫= λ s, remove s o) (Some s) os.
Definition insert_all (s : EutxoSet) (es : list EutxoEntry) : option EutxoSet :=
  foldl (λ s e, s ≫= λ s, insert s e) (Some s) es.
End hashed.

(** ** What an update does to the map and to the total, without the invariant *)

Definition value_at (s : EutxoSet) (o : Outpoint) : Z :=
  match get s o with Some e => e_value e | None => 0 end.

Section updates.
Context `{Sha3}.

Lemma insert_Some s e s' :
  insert s e = Some s' →
  entries s' = <[outpoint e := e]> (entries s) ∧
  total_sat s' = total_sat s - value_at s (outpoint e) + e_value e.
Proof.
  unfold insert. destruct (eutxo_leaf e) as [key vh]. intros E.
  apply bind_Some in E as (t & _ & E). unfold value_at, get.
  destruct (entries s !! outpoint e) as [old|]; cbn [mbind option_bind] in E.
  - apply bind_Some in E as (t1 & [_ ->]%sub_w_Some & E).
    apply bind_Some in E as (t2 & [_ ->]%add_w_Some & [= <-]). done.
  - apply bind_Some in E as (t2 & [_ ->]%add_w_Some & [= <-]). split; [done|]. cbn. lia.
Qed.

Lemma remove_Some s o s' :
  remove s o = Some s' →
  entries s' = delete o (entries s) ∧ total_sat s' = total_sat s - value_at s o.
Proof.
  unfold remove, value_at, get. destruct (entries s !! o) as [e|] eqn:Eo.
  - intros E. apply bind_Some in E as (t & _ & E).
    apply bind_Some in E as (t1 & [_ ->]%sub_w_Some & [= <-]). done.
  - intros [= <-]. rewrite delete_id by done. split; [done|lia].
Qed.

Lemma foldl_None {A} (f : EutxoSet → A → option EutxoSet) (l : list A) :
  foldl (λ s x, s ≫= λ s, f s x) None l = None.
Proof. by induction l. Qed.

Lemma remove_all_Some s os s' :
  remove_all s os = Some s' → NoDup os →
  (∀ o, entries s' !! o = if decide (o ∈ os) then None else entries s !! o) ∧
  total_sat s' = total_sat s - sumZ (value_at s <$> os).
Proof.
  unfold remove_all. revert s. induction os as [|o os IH]; intros s E Hnd; cbn [foldl] in E.
  { injection E as ->. cbn. split; [|lia]. intros o. by rewrite decide_False by set_solver. }
  apply NoDup_cons in Hnd as [Ho Hnd]. cbn [mbind option_bind] in E.
  destruct (remove s o) as [s1|] eqn:E1; [|by rewrite foldl_None in E].
  apply remove_Some in E1 as [Ee Et]. destruct (IH s1 E Hnd) as [He2 Ht2]. split.
  - intros o'. rewrite He2, Ee. destruct (decide (o' = o)) as [->|Hne].
    + rewrite lookup_delete_eq, (decide_True (P := o ∈ o :: os)) by set_solver. by case_decide.
    + rewrite lookup_delete_ne by done. apply decide_ext. set_solver.
  - rewrite Ht2, Et. csimpl. rewrite (sumZ_fmap_ext (value_at s1) (value_at s)); [lia|].
    intros o' Ho'. unfold value_at, get. rewrite Ee, lookup_delete_ne; set_solver.
Qed.

Lemma insert_all_Some s es s' :
  insert_all s es = Some s' → NoDup (outpoint <$> es) → (∀ e, e ∈ es → entries s !! outpoint e = None) →
  (∀ e, e ∈ es → entries s' !! outpoint e = Some e) ∧
  (∀ o, o ∉ outpoint <$> es → entries s' !! o = entries s !! o) ∧
  total_sat s' = total_sat s + sumZ (e_value <$> es).
Proof.
  unfold insert_all. revert s. induction es as [|e es IH]; intros s E Hnd Hnew; cbn [foldl] in E.
  { injection E as ->. cbn. split; [set_solver|]. split; [done|lia]. }
  csimpl in Hnd. apply NoDup_cons in Hnd as [Ho Hnd]. cbn [mbind option_bind] in E.
  destruct (insert s e) as [s1|] eqn:E1; [|by rewrite foldl_None in E].
  apply insert_Some in E1 as [Ee Et].
  assert (value_at s (outpoint e) = 0) as Ev.
  { unfold value_at, get. rewrite Hnew; [done|set_solver]. }
  destruct (IH s1 E Hnd) as (Hin & Hout & Ht).
  { intros e' He'. rewrite Ee, lookup_insert_ne; [apply Hnew; set_solver|].
    intros Eq. apply Ho. rewrite Eq. by apply list_elem_of_fmap_2. }
  split; [|split].
  - intros e' [->|He']%elem_of_cons; [|by apply Hin]. rewrite Hout, Ee by done. apply lookup_insert_eq.
  - intros o Ho'. csimpl in Ho'. rewrite Hout, Ee by set_solver. apply lookup_insert_ne. set_solver.
  - csimpl. lia.
Qed.
End updates.

(** ** The invariant *)

Definition keyed (m : gmap Outpoint EutxoEntry) : Prop := ∀ o e, m !! o = Some e → outpoint e = o.

(** The index lists, under each script, the outpoints of its entries, and no empty set. *)
Definition index_ok (idx : gmap hash (gset Outpoint)) (m : gmap Outpoint EutxoEntry) : Prop :=
  (∀ sh o, o ∈ default ∅ (idx !! sh) ↔ ∃ e, m !! o = Some e ∧ e_script_hash e = sh) ∧
  ∀ sh, idx !! sh ≠ Some ∅.

(** No two outpoints of [X] share a tree key: what the collision resistance of SHA3 gives. *)
Class DistinctKeys `{Sha3} (X : gset Outpoint) : Prop := {
  key_is_hash o : o ∈ X → is_hash (leaf_key o);
  key_inj o o' : o ∈ X → o' ∈ X → leaf_key o = leaf_key o' → o = o'
}.

Record set_wf `{Sha3} (X : gset Outpoint) (s : EutxoSet) : Prop := {
  wf_dom : dom (entries s) ⊆ X;
  wf_keyed : keyed (entries s);
  wf_values : map_Forall (λ _ e, 0 ≤ e_value e) (entries s);
  wf_index : index_ok (by_script (maps s)) (entries s);
  wf_tree : Smt.tree_of (tree s) (leaves (entries s));
  wf_total : total_sat s = entries_total (entries s);
  wf_bound : total_sat s ≤ u128_MAX
}.

Section index.
Implicit Types (idx : gmap hash (gset Outpoint)) (m : gmap Outpoint EutxoEntry).

Lemma index_ok_unique idx idx' m : index_ok idx m → index_ok idx' m → idx = idx'.
Proof.
  intros [H1 N1] [H2 N2]. apply map_eq. intros sh.
  assert (default ∅ (idx !! sh) = default ∅ (idx' !! sh)) as E.
  { apply set_eq. intros o. by rewrite H1, H2. }
  specialize (N1 sh). specialize (N2 sh).
  destruct (idx !! sh) as [x|], (idx' !! sh) as [y|]; cbn in E; congruence.
Qed.

Lemma default_index_add idx sh o sh' :
  default ∅ (index_add idx sh o !! sh') =
  if decide (sh' = sh) then {[o]} ∪ default ∅ (idx !! sh) else default ∅ (idx !! sh').
Proof.
  unfold index_add. case_decide; subst; [by rewrite lookup_insert_eq|by rewrite lookup_insert_ne].
Qed.

Lemma default_index_drop idx sh o sh' :
  default ∅ (index_drop idx sh o !! sh') =
  if decide (sh' = sh) then default ∅ (idx !! sh) ∖ {[o]} else default ∅ (idx !! sh').
Proof.
  unfold index_drop. destruct (idx !! sh) as [set|] eqn:E.
  - case_bool_decide as Hs; case_decide; subst.
    + rewrite lookup_delete_eq. cbn. set_solver.
    + by rewrite lookup_delete_ne.
    + by rewrite lookup_insert_eq.
    + by rewrite lookup_insert_ne.
  - case_decide; subst; [|done]. rewrite E. set_solver.
Qed.

Lemma index_add_no_empty idx sh o : (∀ x, idx !! x ≠ Some ∅) → ∀ x, index_add idx sh o !! x ≠ Some ∅.
Proof.
  intros Hn x. unfold index_add. destruct (decide (x = sh)) as [->|].
  - rewrite lookup_insert_eq. intros [= E]. set_solver.
  - by rewrite lookup_insert_ne.
Qed.

Lemma index_drop_no_empty idx sh o : (∀ x, idx !! x ≠ Some ∅) → ∀ x, index_drop idx sh o !! x ≠ Some ∅.
Proof.
  intros Hn x. unfold index_drop. destruct (idx !! sh) as [set|]; [|done]. case_bool_decide as Hs.
  - destruct (decide (x = sh)) as [->|]; [by rewrite lookup_delete_eq|by rewrite lookup_delete_ne].
  - destruct (decide (x = sh)) as [->|]; [rewrite lookup_insert_eq; congruence|by rewrite lookup_insert_ne].
Qed.

Lemma index_drop_ok idx m o e :
  index_ok idx m → m !! o = Some e → index_ok (index_drop idx (e_script_hash e) o) (delete o m).
Proof.
  intros [Hi Hn] Ho. split; [|by apply index_drop_no_empty]. intros sh o'.
  rewrite default_index_drop. case_decide as E.
  - rewrite elem_of_difference, Hi, elem_of_singleton. subst sh. setoid_rewrite lookup_delete_Some. naive_solver.
  - rewrite Hi. setoid_rewrite lookup_delete_Some. naive_solver.
Qed.

Lemma index_add_ok idx m e :
  index_ok idx m → m !! outpoint e = None →
  index_ok (index_add idx (e_script_hash e) (outpoint e)) (<[outpoint e := e]> m).
Proof.
  intros [Hi Hn] Ho. split; [|by apply index_add_no_empty]. intros sh o'.
  rewrite default_index_add. setoid_rewrite lookup_insert_Some. case_decide as E.
  - rewrite elem_of_union, Hi, elem_of_singleton. subst sh. naive_solver.
  - rewrite Hi. naive_solver.
Qed.

(** Replacing an entry under the same script changes nothing in the index. *)
Lemma index_keep_ok idx m o old e :
  index_ok idx m → m !! o = Some old → e_script_hash old = e_script_hash e → outpoint e = o →
  index_ok (index_add idx (e_script_hash e) o) (<[o := e]> m).
Proof.
  intros [Hi Hn] Ho Es Eo. split; [|by apply index_add_no_empty]. intros sh o'.
  rewrite default_index_add. setoid_rewrite lookup_insert_Some. case_decide as E.
  - rewrite elem_of_union, Hi, elem_of_singleton. subst sh. split; [|naive_solver].
    intros [->|(e' & He' & E')]; [naive_solver|]. destruct (decide (o = o')) as [->|]; naive_solver.
  - rewrite Hi. split; [|naive_solver]. intros (e' & He' & E').
    destruct (decide (o = o')) as [->|]; [congruence|naive_solver].
Qed.

Lemma script_index_ok m : keyed m → index_ok (script_index m) m.
Proof.
  intros Hk. unfold script_index. split.
  - intros sh o.
    assert (∀ l, o ∈ default ∅ (foldr (λ (oe : Outpoint * EutxoEntry) acc,
              index_add acc (e_script_hash oe.2) (outpoint oe.2)) ∅ l !! sh) ↔
            ∃ oe, oe ∈ l ∧ outpoint oe.2 = o ∧ e_script_hash oe.2 = sh) as Hl.
    { induction l as [|oe l IH]; cbn [foldr]; [rewrite lookup_empty; set_solver|].
      rewrite default_index_add. setoid_rewrite elem_of_cons. case_decide as E.
      - rewrite elem_of_union, elem_of_singleton, <- E, IH. naive_solver.
      - rewrite IH. naive_solver. }
    rewrite Hl. split.
    + intros ([o' e] & Ho%elem_of_map_to_list & E & Es). cbn in *. pose proof (Hk _ _ Ho) as Eo.
      exists e. by subst.
    + intros (e & Ho & Es). exists (o, e). rewrite elem_of_map_to_list. auto.
  - induction (map_to_list m) as [|oe l IH]; cbn [foldr]; [by intros sh; rewrite lookup_empty|].
    by apply index_add_no_empty.
Qed.
End index.

Section laws.
Context `{Sha3} (X : gset Outpoint) {HX : DistinctKeys X}.
Implicit Types (m : gmap Outpoint EutxoEntry) (s : EutxoSet).

Lemma lookup_leaves m k v :
  keyed m → dom m ⊆ X →
  leaves m !! k = Some v ↔ ∃ o e, m !! o = Some e ∧ leaf_key o = k ∧ Smt.hash_value (serialize e) = v.
Proof.
  intros Hk HX'. unfold leaves. rewrite <- elem_of_list_to_map.
  - rewrite list_elem_of_fmap. split.
    + intros ([o e] & E & Ho%elem_of_map_to_list). unfold eutxo_leaf in E. cbn in E.
      rewrite (Hk _ _ Ho) in E. injection E as -> ->. eauto.
    + intros (o & e & Ho & <- & <-). exists (o, e). rewrite elem_of_map_to_list. split; [|done].
      unfold eutxo_leaf. cbn. by rewrite (Hk _ _ Ho).
  - rewrite <- list_fmap_compose. apply NoDup_fmap_2_strong.
    + intros [o1 e1] [o2 e2] H1%elem_of_map_to_list H2%elem_of_map_to_list E. cbn in E.
      rewrite (Hk _ _ H1), (Hk _ _ H2) in E. apply key_inj in E; [congruence|..];
        apply HX', elem_of_dom; eauto.
    + apply NoDup_map_to_list.
Qed.

Lemma keys_ok_leaves m : keyed m → dom m ⊆ X → Smt.keys_ok (leaves m).
Proof.
  intros Hk HX' k v (o & e & Ho & <- & _)%lookup_leaves; [|done|done].
  apply key_is_hash, HX', elem_of_dom. eauto.
Qed.

Lemma keyed_insert m e : keyed m → keyed (<[outpoint e := e]> m).
Proof. intros Hk o e' [[? ?]|[? ?]]%lookup_insert_Some; naive_solver. Qed.

Lemma keyed_delete m o : keyed m → keyed (delete o m).
Proof. intros Hk o' e' [_ ?]%lookup_delete_Some. naive_solver. Qed.

Lemma leaves_insert m e :
  keyed m → dom m ⊆ X → outpoint e ∈ X →
  leaves (<[outpoint e := e]> m) = <[(eutxo_leaf e).1 := (eutxo_leaf e).2]> (leaves m).
Proof.
  intros Hk HX' He. apply map_eq. intros k. apply option_eq. intros v. cbn [eutxo_leaf fst snd].
  rewrite lookup_leaves, lookup_insert_Some, lookup_leaves; [|done|done|by apply keyed_insert|set_solver].
  setoid_rewrite lookup_insert_Some. split.
  - intros (o & e' & [[<- ->]|[Hne Ho]] & <- & <-); [by left|]. right.
    split; [|eauto]. intros E. apply Hne, key_inj; [done| |done]. apply HX', elem_of_dom. eauto.
  - intros [[<- <-]|[Hne (o & e' & Ho & <- & <-)]].
    + exists (outpoint e), e. by split; [left|].
    + exists o, e'. split; [|done]. right. split; [congruence|done].
Qed.

Lemma leaves_delete m o e :
  keyed m → dom m ⊆ X → m !! o = Some e → leaves (delete o m) = delete (eutxo_leaf e).1 (leaves m).
Proof.
  intros Hk HX' Ho. apply map_eq. intros k. apply option_eq. intros v. cbn [eutxo_leaf fst].
  rewrite (Hk _ _ Ho), lookup_leaves, lookup_delete_Some, lookup_leaves;
    [|done|done|by apply keyed_delete|rewrite dom_delete; set_solver].
  setoid_rewrite lookup_delete_Some. split.
  - intros (o' & e' & [Hne Ho'] & <- & <-). split; [|eauto]. intros E. apply Hne, key_inj; [..|done];
      apply HX', elem_of_dom; eauto.
  - intros [Hne (o' & e' & Ho' & <- & <-)]. exists o', e'. split; [|done]. split; [congruence|done].
Qed.

Lemma entries_total_nonneg m : map_Forall (λ _ e, 0 ≤ e_value e) m → 0 ≤ entries_total m.
Proof. intros Hv. apply map_sum_nonneg. by apply Hv. Qed.

Lemma entries_total_insert m o e :
  entries_total (<[o := e]> m) =
  entries_total m + e_value e - match m !! o with Some old => e_value old | None => 0 end.
Proof.
  unfold entries_total. destruct (m !! o) as [old|] eqn:E.
  - rewrite (map_sum_delete _ m o old E), <- insert_delete_eq, map_sum_insert by apply lookup_delete_eq. lia.
  - rewrite map_sum_insert by done. lia.
Qed.

Lemma entries_total_delete m o e :
  m !! o = Some e → entries_total (delete o m) = entries_total m - e_value e.
Proof. intros E. unfold entries_total. rewrite (map_sum_delete _ m o e E). lia. Qed.

Lemma entries_total_elem m o e :
  map_Forall (λ _ e, 0 ≤ e_value e) m → m !! o = Some e → e_value e ≤ entries_total m.
Proof. intros Hv Ho. apply (map_sum_elem (λ _ e, e_value e) m o e); [apply Hv|done]. Qed.

(** ** The operations keep the views in step *)

Lemma insert_index_ok s e :
  keyed (entries s) → index_ok (by_script (maps s)) (entries s) →
  index_ok
    (index_add
      match entries s !! outpoint e with
      | Some old => if e_script_hash old =? e_script_hash e then by_script (maps s)
                    else index_drop (by_script (maps s)) (e_script_hash old) (outpoint e)
      | None => by_script (maps s)
      end (e_script_hash e) (outpoint e))
    (<[outpoint e := e]> (entries s)).
Proof.
  intros Hk Hi. destruct (entries s !! outpoint e) as [old|] eqn:Eo; [|by apply index_add_ok].
  destruct (Z.eqb_spec (e_script_hash old) (e_script_hash e)) as [Es|Es].
  - by apply (index_keep_ok _ _ _ old).
  - rewrite <- insert_delete_eq. apply index_add_ok; [|apply lookup_delete_eq]. by apply index_drop_ok.
Qed.

Lemma insert_wf s e :
  set_wf X s → outpoint e ∈ X → 0 ≤ e_value e →
  entries_total (<[outpoint e := e]> (entries s)) ≤ u128_MAX →
  ∃ s', insert s e = Some s' ∧ entries s' = <[outpoint e := e]> (entries s) ∧ set_wf X s'.
Proof.
  intros [Hd Hk Hv Hi Ht Hs Hb] He Hpos Hle. unfold insert. destruct (eutxo_leaf e) as [key vh] eqn:El.
  destruct (Smt.apply_op_tree (tree s) _ (Smt.OpInsert key vh) Ht) as (t & Et & Ht').
  { cbn. assert (key = leaf_key (outpoint e)) as -> by (unfold eutxo_leaf in El; congruence). by apply key_is_hash. }
  cbn [Smt.apply_op Smt.map_op] in Et, Ht'. rewrite Et. cbn [mbind option_bind].
  pose proof (insert_index_ok s e Hk Hi) as Hidx.
  pose proof (leaves_insert (entries s) e Hk Hd He) as Hl. rewrite El in Hl. cbn [fst snd] in Hl.
  rewrite entries_total_insert in Hle.
  assert (∃ total, match entries s !! outpoint e with
                   | Some old => sub_w (total_sat s) (e_value old) | None => Some (total_sat s) end = Some total
          ∧ total + e_value e = entries_total (<[outpoint e := e]> (entries s))) as (total & -> & Htot).
  { rewrite entries_total_insert. destruct (entries s !! outpoint e) as [old|] eqn:Eo.
    - pose proof (entries_total_elem _ _ _ Hv Eo). rewrite sub_w_ok by lia. eexists. split; [done|lia].
    - eexists. split; [done|lia]. }
  cbn [mbind option_bind]. rewrite add_w_ok by (rewrite entries_total_insert in Htot; lia).
  cbn [mbind option_bind]. eexists. split; [done|]. split; [done|].
  split; unfold entries; cbn [maps by_outpoint by_script tree total_sat]; fold (entries s).
  - rewrite dom_insert. set_solver.
  - by apply keyed_insert.
  - by apply map_Forall_insert_2.
  - done.
  - by rewrite Hl.
  - done.
  - rewrite Htot, entries_total_insert. lia.
Qed.

Lemma remove_wf s o :
  set_wf X s → ∃ s', remove s o = Some s' ∧ entries s' = delete o (entries s) ∧ set_wf X s'.
Proof.
  intros Hwf. pose proof Hwf as [Hd Hk Hv Hi Ht Hs Hb]. unfold remove.
  destruct (entries s !! o) as [e|] eqn:Eo.
  2:{ exists s. by rewrite delete_id. }
  destruct (Smt.apply_op_tree (tree s) _ (Smt.OpRemove (eutxo_leaf e).1) Ht I) as (t & Et & Ht').
  cbn [Smt.apply_op Smt.map_op] in Et, Ht'. rewrite Et. cbn [mbind option_bind].
  pose proof (entries_total_elem _ _ _ Hv Eo). assert (0 ≤ e_value e) by (by apply (Hv o)).
  rewrite sub_w_ok by lia. cbn [mbind option_bind]. eexists. split; [done|]. split; [done|].
  split; unfold entries; cbn [maps by_outpoint by_script tree total_sat]; fold (entries s).
  - rewrite dom_delete. set_solver.
  - by apply keyed_delete.
  - by apply map_Forall_delete.
  - by apply index_drop_ok.
  - by rewrite (leaves_delete _ _ e).
  - rewrite (entries_total_delete _ _ e) by done. lia.
  - lia.
Qed.

Lemma from_entries_wf m :
  dom m ⊆ X → keyed m → map_Forall (λ _ e, 0 ≤ e_value e) m → entries_total m ≤ u128_MAX →
  ∃ s, from_entries m = Some s ∧ entries s = m ∧ set_wf X s.
Proof.
  intros Hd Hk Hv Hb. unfold from_entries.
  destruct (Smt.from_leaf_map_canonical (leaves m)) as (t & -> & Ht); [by apply keys_ok_leaves|].
  cbn [mbind option_bind]. rewrite (proj2 (Z.leb_le _ _) Hb). eexists. split; [done|]. split; [done|].
  split; try done; cbn [maps by_script]. { by apply script_index_ok. }
  split; [done|]. split; [done|]. by apply keys_ok_leaves.
Qed.

(** The derived views are functions of the entries. *)
Lemma set_wf_unique s s' : set_wf X s → set_wf X s' → entries s = entries s' → s = s'.
Proof.
  intros [_ _ _ Hi (Hc & Hl & _) Ht _] [_ _ _ Hi' (Hc' & Hl' & _) Ht' _] E.
  destruct s as [[m idx] [n k] t], s' as [[m' idx'] [n' k'] t']. unfold entries in *.
  cbn [maps by_outpoint by_script tree total_sat Smt.root_node Smt.len] in *. subst m'.
  f_equal; [f_equal; by eapply index_ok_unique| |congruence].
  f_equal; [by eapply Smt.canonical_unique|congruence].
Qed.

Lemma rebuild s : set_wf X s → from_entries (entries s) = Some s.
Proof.
  intros Hwf. destruct (from_entries_wf (entries s)) as (s' & E & Ee & Hwf').
  - apply Hwf. - apply Hwf. - apply Hwf. - rewrite <- (wf_total X s Hwf). apply Hwf.
  - rewrite E. f_equal. by apply set_wf_unique.
Qed.

(** ** Spending and creating lists of outputs *)

Lemma remove_all_wf s os :
  set_wf X s →
  ∃ s', remove_all s os = Some s' ∧ set_wf X s' ∧
    ∀ o, entries s' !! o = if decide (o ∈ os) then None else entries s !! o.
Proof.
  unfold remove_all. revert s. induction os as [|o os IH]; intros s Hwf; cbn [foldl].
  { exists s. split; [done|]. split; [done|]. intros o. by rewrite decide_False by set_solver. }
  destruct (remove_wf s o Hwf) as (s1 & E1 & Ee & Hwf1). cbn [mbind option_bind]. rewrite E1.
  destruct (IH s1 Hwf1) as (s2 & E2 & Hwf2 & He2). exists s2. split; [done|]. split; [done|].
  intros o'. rewrite He2, Ee. destruct (decide (o' = o)) as [->|Hne].
  - rewrite lookup_delete_eq, (decide_True (P := o ∈ o :: os)) by set_solver. by case_decide.
  - rewrite lookup_delete_ne by done. apply decide_ext. set_solver.
Qed.

(** The outputs at the given outpoints; all of them, when none is missing. *)
Definition spent (s : EutxoSet) (os : list Outpoint) : list EutxoEntry := omap (get s) os.

Lemma remove_all_total s s' os :
  set_wf X s → NoDup os → remove_all s os = Some s' →
  total_sat s' = total_sat s - sumZ (e_value <$> spent s os).
Proof.
  unfold remove_all. revert s. induction os as [|o os IH]; intros s Hwf Hnd E; cbn [foldl] in E.
  { injection E as ->. cbn. lia. }
  apply NoDup_cons in Hnd as [Ho Hnd]. cbn [mbind option_bind] in E.
  destruct (remove_wf s o Hwf) as (s1 & E1 & Ee & Hwf1). rewrite E1 in E.
  rewrite (IH s1 Hwf1 Hnd E), (wf_total X s1 Hwf1), (wf_total X s Hwf), Ee.
  assert (spent s1 os = spent s os) as ->.
  { clear -Ho Ee. unfold spent, get. induction os as [|o' os IH]; [done|]. cbn.
    rewrite Ee, lookup_delete_ne, <- Ee, IH by set_solver. done. }
  unfold spent. cbn. fold (spent s os). unfold get at 1. destruct (entries s !! o) as [e|] eqn:Eo; cbn.
  - rewrite (entries_total_delete _ _ e) by done. lia.
  - rewrite delete_id by done. lia.
Qed.

Lemma insert_all_wf s es :
  set_wf X s → Forall (λ e, outpoint e ∈ X ∧ 0 ≤ e_value e) es →
  NoDup (outpoint <$> es) → (∀ e, e ∈ es → entries s !! outpoint e = None) →
  total_sat s + sumZ (e_value <$> es) ≤ u128_MAX →
  ∃ s', insert_all s es = Some s' ∧ set_wf X s' ∧
    total_sat s' = total_sat s + sumZ (e_value <$> es) ∧
    (∀ e, e ∈ es → entries s' !! outpoint e = Some e) ∧
    (∀ o, o ∉ outpoint <$> es → entries s' !! o = entries s !! o).
Proof.
  unfold insert_all. revert s. induction es as [|e es IH]; intros s Hwf Hes Hnd Hnew Hb; cbn [foldl].
  { exists s. cbn. split; [done|]. split; [done|]. split; [lia|]. set_solver. }
  apply Forall_cons in Hes as [[HeX Hv] Hes]. csimpl in Hnd. apply NoDup_cons in Hnd as [Ho Hnd].
  csimpl in Hb. assert (0 ≤ sumZ (e_value <$> es)).
  { apply sumZ_fmap_nonneg. rewrite Forall_forall in Hes. naive_solver. }
  assert (entries s !! outpoint e = None) as En by (apply Hnew; set_solver).
  assert (entries_total (<[outpoint e := e]> (entries s)) = total_sat s + e_value e) as Et.
  { rewrite entries_total_insert, En, (wf_total X s Hwf). lia. }
  destruct (insert_wf s e Hwf HeX Hv) as (s1 & E1 & Ee & Hwf1); [lia|]. cbn [mbind option_bind]. rewrite E1.
  assert (total_sat s1 = total_sat s + e_value e) as Et1 by (by rewrite (wf_total X s1 Hwf1), Ee).
  destruct (IH s1 Hwf1 Hes Hnd) as (s2 & E2 & Hwf2 & Ht2 & Hin & Hout); [|lia|].
  { intros e' He'. rewrite Ee, lookup_insert_ne; [apply Hnew; set_solver|]. intros Eq. apply Ho. rewrite Eq.
    by apply list_elem_of_fmap_2. }
  exists s2. split; [done|]. split; [done|]. split; [csimpl; lia|]. split.
  - intros e' [->|He']%elem_of_cons; [|by apply Hin]. rewrite Hout, Ee by done. apply lookup_insert_eq.
  - intros o Ho'. csimpl in Ho'. rewrite Hout, Ee by set_solver. apply lookup_insert_ne. set_solver.
Qed.

(** ** The index by script *)

Definition of_script (s : EutxoSet) (script : hash) : gmap Outpoint EutxoEntry :=
  filter (λ oe, e_script_hash oe.2 = script) (entries s).

Lemma script_set s script :
  set_wf X s → default ∅ (by_script (maps s) !! script) = dom (of_script s script).
Proof.
  intros Hwf. apply set_eq. intros o. rewrite (proj1 (wf_index X s Hwf)), elem_of_dom.
  unfold of_script, is_Some. setoid_rewrite map_lookup_filter_Some. naive_solver.
Qed.

Lemma script_entries_spec s script :
  set_wf X s → script_entries s script ≡ₚ (map_to_list (of_script s script)).*2.
Proof.
  intros Hwf. unfold script_entries. rewrite script_set by done.
  assert (∀ l : list (Outpoint * EutxoEntry), (∀ oe, oe ∈ l → entries s !! oe.1 = Some oe.2) →
    omap (λ o, entries s !! o) l.*1 = l.*2) as Hl.
  { induction l as [|[o e] l IH]; intros Hl; [done|]. csimpl.
    pose proof (Hl (o, e) ltac:(set_solver)) as E. cbn in E. rewrite E. f_equal. apply IH. set_solver. }
  rewrite <- Hl; [|intros [o e] Ho%elem_of_map_to_list; by apply map_lookup_filter_Some in Ho as [? _]].
  apply omap_Permutation. rewrite <- (list_to_set_elements_L (dom _)).
  apply NoDup_Permutation; [apply NoDup_elements|apply NoDup_fst_map_to_list|].
  intros o. rewrite list_to_set_elements_L, elem_of_elements, elem_of_dom. split.
  - intros [e He]. apply list_elem_of_fmap. exists (o, e). by rewrite elem_of_map_to_list.
  - intros ([o' e] & -> & He%elem_of_map_to_list)%list_elem_of_fmap. eauto.
Qed.

Lemma balance_spec s script :
  set_wf X s →
  balance_sat s script = entries_total (of_script s script) ∧
  script_len s script = size (of_script s script).
Proof.
  intros Hwf. split.
  - unfold balance_sat. rewrite script_entries_spec by done. unfold entries_total, map_sum.
    rewrite <- list_fmap_compose. f_equal. apply list_fmap_ext. by intros ? [??] _.
  - unfold script_len. rewrite <- size_dom, <- script_set by done.
    destruct (by_script (maps s) !! script); [done|]. cbn. by rewrite size_empty.
Qed.

(** ** Sequences of changes *)

Inductive change := Create (e : EutxoEntry) | Spend (o : Outpoint).

Definition apply_change (s : EutxoSet) (c : change) : option EutxoSet :=
  match c with Create e => insert s e | Spend o => remove s o end.
Definition apply_changes (s : EutxoSet) (cs : list change) : option EutxoSet :=
  foldl (λ r c, r ≫= λ s, apply_change s c) (Some s) cs.

(** The finite map of unspent outputs, the specification of the set. *)
Definition map_change (m : gmap Outpoint EutxoEntry) (c : change) : gmap Outpoint EutxoEntry :=
  match c with Create e => <[outpoint e := e]> m | Spend o => delete o m end.
Definition change_ok (c : change) : Prop :=
  match c with Create e => outpoint e ∈ X ∧ 0 ≤ e_value e | Spend _ => True end.
Definition created (c : change) : Z := match c with Create e => e_value e | Spend _ => 0 end.

Lemma apply_changes_wf s cs :
  set_wf X s → Forall change_ok cs → total_sat s + sumZ (created <$> cs) ≤ u128_MAX →
  ∃ s', apply_changes s cs = Some s' ∧ entries s' = foldl map_change (entries s) cs ∧ set_wf X s'.
Proof.
  unfold apply_changes. revert s. induction cs as [|c cs IH]; intros s Hwf Hok Hb; cbn [foldl].
  { by exists s. }
  apply Forall_cons in Hok as [Hc Hok]. csimpl in Hb.
  assert (0 ≤ sumZ (created <$> cs)).
  { apply sumZ_fmap_nonneg. rewrite Forall_forall in Hok. intros [e|o] Hin; [|done]. by apply Hok in Hin as [??]. }
  assert (∃ s1, apply_change s c = Some s1 ∧ entries s1 = map_change (entries s) c ∧ set_wf X s1
          ∧ total_sat s1 ≤ total_sat s + created c) as (s1 & E1 & Ee & Hwf1 & Ht).
  { destruct c as [e|o]; cbn [apply_change map_change change_ok created] in *.
    - destruct Hc as [He Hv].
      assert (entries_total (<[outpoint e := e]> (entries s)) ≤ total_sat s + e_value e) as Hle.
      { rewrite entries_total_insert, (wf_total X s Hwf). destruct (_ !! _) as [old|] eqn:E; [|lia].
        pose proof (wf_values X s Hwf _ _ E). cbn in *. lia. }
      destruct (insert_wf s e Hwf He Hv) as (s1 & ? & Ee & Hwf1); [lia|]. exists s1.
      by rewrite (wf_total X s1 Hwf1), Ee.
    - destruct (remove_wf s o Hwf) as (s1 & ? & Ee & Hwf1). exists s1. split_and!; try done.
      rewrite (wf_total X s1 Hwf1), Ee, (wf_total X s Hwf). destruct (entries s !! o) as [e|] eqn:E.
      + rewrite (entries_total_delete _ _ e) by done. pose proof (wf_values X s Hwf _ _ E). cbn in *. lia.
      + rewrite delete_id by done. lia. }
  cbn [mbind option_bind]. rewrite E1, <- Ee. apply IH; [done|done|lia].
Qed.

Lemma keyed_collect l : keyed (collect l) ∧ dom (collect l) = list_to_set (outpoint <$> l).
Proof.
  unfold collect. induction l as [|e l [IHk IHd]] using rev_ind; [split; [by intros ??|set_solver]|].
  rewrite foldl_app. cbn. split; [by apply keyed_insert|].
  rewrite dom_insert_L, IHd, fmap_app, list_to_set_app_L. set_solver.
Qed.

(** The genesis list has one entry per outpoint. *)
Lemma collect_total l : NoDup (outpoint <$> l) → entries_total (collect l) = sumZ (e_value <$> l).
Proof.
  induction l as [|e l IH] using rev_ind; intros Hnd; [apply map_sum_empty|].
  rewrite fmap_app in Hnd. apply NoDup_app in Hnd as (Hnd & Hx & _).
  unfold collect. rewrite foldl_app. cbn. fold (collect l). rewrite entries_total_insert, IH by done.
  rewrite fmap_app, sumZ_app. cbn. destruct (collect l !! outpoint e) as [old|] eqn:E; [|lia].
  exfalso. apply (Hx (outpoint e)); [|set_solver].
  assert (outpoint e ∈ dom (collect l)) as Hin by (apply elem_of_dom; eauto).
  by rewrite (proj2 (keyed_collect l)), elem_of_list_to_set in Hin.
Qed.

Lemma collect_values l : Forall (λ e, 0 ≤ e_value e) l → map_Forall (λ _ e, 0 ≤ e_value e) (collect l).
Proof.
  induction l as [|e l IH] using rev_ind; intros Hl; [apply map_Forall_empty|].
  apply Forall_app in Hl as [Hl [He _]%Forall_cons]. unfold collect. rewrite foldl_app. cbn.
  apply map_Forall_insert_2; [done|by apply IH].
Qed.

(** C36: From the opening balances, any sequence of created and spent outputs leaves the set
    equal to the one rebuilt from its entries alone: the entries are those of the finite
    map the changes describe, and the script index, the Merkle tree with its stored
    hashes and the running total agree with them.  Balances and counts read through the
    index are those of the entries.  Nothing panics while the sum of all values ever
    created fits [u128], and outpoints have distinct tree keys. *)
Theorem eutxo_views_never_drift (opening : list EutxoEntry) (cs : list change) :
  NoDup (outpoint <$> opening) →
  Forall (λ e, outpoint e ∈ X ∧ 0 ≤ e_value e) opening → Forall change_ok cs →
  sumZ (e_value <$> opening) + sumZ (created <$> cs) ≤ u128_MAX →
  ∃ s, (s0 ← from_iter opening; apply_changes s0 cs) = Some s ∧
    entries s = foldl map_change (collect opening) cs ∧
    from_entries (entries s) = Some s ∧
    ∀ script, balance_sat s script = entries_total (of_script s script) ∧
              script_len s script = size (of_script s script).
Proof.
  intros Hnd Hop Hcs Hb. rewrite Forall_forall in Hop.
  assert (0 ≤ sumZ (created <$> cs)).
  { apply sumZ_fmap_nonneg. rewrite Forall_forall in Hcs. intros [e|o] Hin; [|done]. by apply Hcs in Hin as [??]. }
  destruct (keyed_collect opening) as [Hk Hd].
  destruct (from_entries_wf (collect opening)) as (s0 & E0 & Ee0 & Hwf0).
  - rewrite Hd. intros o Ho. apply elem_of_list_to_set in Ho.
    apply list_elem_of_fmap in Ho as (e & -> & He). by apply Hop.
  - done.
  - apply collect_values, Forall_forall. intros e He. by apply Hop.
  - rewrite collect_total by done. lia.
  - destruct (apply_changes_wf s0 cs Hwf0 Hcs) as (s & E & Ee & Hwf).
    { rewrite (wf_total X s0 Hwf0), Ee0, collect_total by done. lia. }
    exists s. unfold from_iter. rewrite E0. cbn [mbind option_bind]. rewrite E, Ee, Ee0.
    split; [done|]. split; [done|]. split; [rewrite <- Ee0, <- Ee; by apply rebuild|].
    intros script. by apply balance_spec.
Qed.
End laws.

(** A hash that keeps the last bytes of what it hashes: distinct on distinct outpoints. *)
Definition ex_sha : Sha3 := λ l, from_le_bytes (drop 49 l) mod 256 ^ 32.
Definition ex_X : gset Outpoint := {[(1, 0); (1, 1); (2, 0)]}.

Lemma ex_keys : @DistinctKeys ex_sha ex_X.
Proof.
  split.
  - intros o _. apply Z.mod_pos_bound. lia.
  - intros o o'. unfold ex_X. rewrite !elem_of_union, !elem_of_singleton.
    intros [[-> | ->] | ->] [[-> | ->] | ->]; vm_compute; congruence.
Qed.

Definition ex_opening : list EutxoEntry := [mkEntry 1 0 500 7; mkEntry 1 1 300 7].
Definition ex_changes : list change := [Spend (1, 0); Create (mkEntry 2 0 480 9)].

Lemma eutxo_views_never_drift_witness :
  ∃ s, (s0 ← @from_iter ex_sha ex_opening; @apply_changes ex_sha s0 ex_changes) = Some s ∧
    entries s = foldl map_change (collect ex_opening) ex_changes ∧
    @from_entries ex_sha (entries s) = Some s ∧
    ∀ script, balance_sat s script = entries_total (of_script s script) ∧
              script_len s script = size (of_script s script).
Proof.
  apply (@eutxo_views_never_drift ex_sha ex_X ex_keys).
  - apply (bool_decide_unpack _). vm_compute. exact I.
  - repeat constructor; cbn; try lia; apply (bool_decide_unpack _); vm_compute; exact I.
  - repeat constructor; cbn; try lia; apply (bool_decide_unpack _); vm_compute; exact I.
  - vm_compute. congruence.
Defined.

End Utxo.
