(* ===== verification/Withdrawal.v ===== *)
(** * Withdrawals from the second layer

    The module [withdrawal] of [crates/bloch-pos-committee/src/l2_settlement.rs]: the
    depth-32 Merkle tree of withdrawal leaves with its proofs, the claim bitmap that
    refuses a second claim of an index, the release window that bounds what leaves the
    escrow, and the search for a matured record. *)

From Stdlib Require Import String.
From S2P Require Import Prelude Bytes Params.
Local Open Scope Z_scope.

Module Withdrawal.
Import Bytes Params.

Definition LEAF_DOMAIN : list Z := string_bytes "BLOCH:L2:WITHDRAW:1".
Definition TREE_DEPTH : nat := 32.
Definition RETENTION_BLOCKS : Z := 1024.
Definition WITHDRAW_DELAY_BLOCKS : Z := 32.
Definition LARGE_CLAIM_SAT : Z := 10000000000.
Definition LARGE_WITHDRAW_DELAY_BLOCKS : Z := 128.
Definition RELEASE_WINDOW_BLOCKS : Z := 32.
Definition RELEASE_WINDOW_BPS : Z := 1000.
Definition RELEASE_FLOOR_SAT : Z := 1000000000.
Definition MAX_RETENTION_BLOCKS : Z := 20160.

Record Limits := mkLimits {
  delay_blocks : Z;
  large_claim_sat : Z;
  large_delay_blocks : Z;
  retention_blocks : Z;
  release_window_blocks : Z;
  release_window_bps : Z;
  release_floor_sat : Z
}.

Global Instance Limits_eq_dec : EqDecision Limits.
Proof. solve_decision. Defined.

Definition DEVELOPMENT : Limits := {|
  delay_blocks := WITHDRAW_DELAY_BLOCKS;
  large_claim_sat := LARGE_CLAIM_SAT;
  large_delay_blocks := LARGE_WITHDRAW_DELAY_BLOCKS;
  retention_blocks := RETENTION_BLOCKS;
  release_window_blocks := RELEASE_WINDOW_BLOCKS;
  release_window_bps := RELEASE_WINDOW_BPS;
  release_floor_sat := RELEASE_FLOOR_SAT
|}.

Definition valid (l : Limits) : bool :=
  (1 <=? delay_blocks l)
  && (delay_blocks l <=? large_delay_blocks l)
  && (large_delay_blocks l <=? retention_blocks l)
  && (retention_blocks l <=? MAX_RETENTION_BLOCKS)
  && (0 <? large_claim_sat l)
  && (1 <=? release_window_blocks l)
  && (1 <=? release_window_bps l)
  && (release_window_bps l <=? 10000)
  && (0 <? release_floor_sat l).

Definition delay_for (l : Limits) (sats : Z) : Z :=
  if large_claim_sat l <=? sats then large_delay_blocks l else delay_blocks l.

(** [retention_blocks as usize + 2] *)
Definition max_records (l : Limits) : Z := retention_blocks l + 2.

(** ** The tree *)

Section hashed.
Context `{Keccak}.

Definition leaf (chain_id nonce : Z) (l1_recipient : hash) (sats : Z) : hash :=
  keccak_256 (LEAF_DOMAIN ++ be_bytes 8 chain_id ++ be_bytes 8 nonce ++ hash_bytes l1_recipient
                ++ be_bytes 8 sats).

Definition node (left right : hash) : hash := keccak_256 (hash_bytes left ++ hash_bytes right).

Fixpoint zero_hash (h : nat) : hash :=
  match h with
  | O => 0
  | S h => let z := zero_hash h in node z z
  end.
Definition empty_root : hash := zero_hash TREE_DEPTH.

(** [level.chunks(2).map(|pair| node(&pair[0], pair.get(1).unwrap_or(z)))] *)
Fixpoint pair_up (z : hash) (level : list hash) : list hash :=
  match level with
  | [] => []
  | [a] => [node a z]
  | a :: b :: level => node a b :: pair_up z level
  end.

(** The loop over the [n] levels from height [h]; [level[0]] of an empty vector panics. *)
Fixpoint root_loop (n h : nat) (level : list hash) : option hash :=
  match n with
  | O => head level
  | S n =>
      match level with
      | [] => Some empty_root
      | _ => root_loop n (S h) (pair_up (zero_hash h) level)
      end
  end.
Definition root (leaves : list hash) : option hash := root_loop TREE_DEPTH 0 leaves.

(** [at ^ 1] *)
Definition sibling (i : nat) : nat := if Nat.even i then S i else pred i.

Fixpoint proof_loop (n h : nat) (level : list hash) (i : nat) : list hash :=
  match n with
  | O => []
  | S n => default (zero_hash h) (level !! sibling i)
           :: proof_loop n (S h) (pair_up (zero_hash h) level) (i / 2)
  end.
Definition proof (leaves : list hash) (index : Z) : option (list hash) :=
  if Z.of_nat (length leaves) <=? index then None
  else Some (proof_loop TREE_DEPTH 0 leaves (Z.to_nat index)).

Fixpoint fold_proof (index : Z) (acc : hash) (siblings : list hash) : hash :=
  match siblings with
  | [] => acc
  | s :: siblings =>
      fold_proof (Z.shiftr index 1) (if Z.odd index then node s acc else node acc s) siblings
  end.
(** [siblings] is an array of [TREE_DEPTH]. *)
Definition root_from_proof (l : hash) (index : Z) (siblings : list hash) : option hash :=
  if negb (Z.shiftr index (Z.of_nat TREE_DEPTH) =? 0) then None
  else Some (fold_proof index l siblings).
End hashed.

(** ** Records and maturity *)

Record Record_ := mkRecord { l2_number : Z; rec_root : hash; count : Z; rec_height : Z }.

Definition record_finalized (record_height tip_height tip_slot finalized_epoch : Z) : bool :=
  if tip_height <? record_height then false
  else
    let slot_bound := saturating_sub tip_slot (tip_height - record_height) in
    slot_bound <? saturating_mul u64_MAX finalized_epoch SLOTS_PER_EPOCH.

Inductive ClaimRefusal :=
| NotActive | Chain | Proof_ | NotMatured | Index | Claimed | Escrow | RateLimited.

(** [iter().rev().find(p)] *)
Definition rfind {A} (p : A → bool) (l : list A) : option A := list_find p (reverse l) ≫= λ x, Some x.2.

Section claims.
Context `{Keccak}.

Definition matured_proof (limits : Limits) (records : list Record_) (at_height chain_id index : Z)
    (l1_recipient : hash) (sats : Z) (siblings : list hash) : result ClaimRefusal Record_ :=
  let lf := leaf chain_id index l1_recipient sats in
  r ← ok_or (root_from_proof lf index siblings) Proof_;
  record ← ok_or (rfind (λ x, rec_root x =? r) records) Proof_;
  if at_height <? saturating_add u64_MAX (rec_height record) (delay_for limits sats) then Err NotMatured
  else if count record <=? index then Err Index
  else Ok record.
End claims.

Definition matured (limits : Limits) (records : list Record_) (at_height sats : Z) : option Record_ :=
  rfind (λ r, saturating_add u64_MAX (rec_height r) (delay_for limits sats) <=? at_height) records.

(** ** The release window *)

Record ReleaseWindow := mkWindow { window : Z; released : Z; cap : Z }.

(** [ReleaseWindow::at]; the divisor is positive in the limits of every state: those of
    [DEVELOPMENT] or ones that [valid] accepted. *)
Definition window_at (w : ReleaseWindow) (limits : Limits) (at_height escrow_sat : Z) : ReleaseWindow :=
  let n := at_height / release_window_blocks limits in
  if (n =? window w) && negb (released w =? 0) then w
  else
    let share := saturating_mul u128_MAX escrow_sat (release_window_bps limits) / 10000 in
    mkWindow n 0 (Z.max share (release_floor_sat limits)).

Definition admits (w : ReleaseWindow) (sats : Z) (exempt : bool) : bool :=
  (saturating_add u128_MAX (released w) sats <=? cap w) || (exempt && (released w =? 0)).

Definition remaining (w : ReleaseWindow) : Z := saturating_sub (cap w) (released w).

(** ** The claim bitmap

    A word of 32 bytes is the number they write in little-endian order, so that bit
    [i % 8] of byte [i / 8] is its bit [i]. *)

Record ClaimBitmap := mkBitmap { floor : Z; words : gmap Z Z; claims : Z }.

Definition full_word : Z := 2 ^ 256 - 1.

Definition contains (b : ClaimBitmap) (index : Z) : bool :=
  let word := index / 256 in
  if word <? floor b then true
  else match words b !! word with Some w => Z.testbit w (index mod 256) | None => false end.

(** The [while] loop: each turn drops one word. *)
Fixpoint compact (fuel : nat) (f : Z) (ws : gmap Z Z) : Z * gmap Z Z :=
  match fuel with
  | O => (f, ws)
  | S fuel =>
      match ws !! f with
      | Some w => if w =? full_word then compact fuel (f + 1) (delete f ws) else (f, ws)
      | None => (f, ws)
      end
  end.

(** Whether the index was new, and the bitmap after; [claims += 1] panics at [u64::MAX]. *)
Definition bitmap_insert (b : ClaimBitmap) (index : Z) : option (bool * ClaimBitmap) :=
  if contains b index then Some (false, b)
  else
    let word := index / 256 in
    let w := default 0 (words b !! word) in
    let ws := <[word := Z.lor w (Z.shiftl 1 (index mod 256))]> (words b) in
    n ← add_w u64_MAX (claims b) 1;
    let '(f, ws) := compact (S (size ws)) (floor b) ws in
    Some (true, mkBitmap f ws n).

Definition empty_bitmap : ClaimBitmap := mkBitmap 0 ∅ 0.

(** ** Proofs of the tree *)

Section tree_laws.
Context `{Keccak}.
Implicit Types (level leaves siblings : list hash) (i h n : nat).

(** The node at place [i] of a level of height [h]: absent nodes are empty subtrees. *)
Definition at_level (h : nat) (level : list hash) (i : nat) : hash := default (zero_hash h) (level !! i).

Lemma pair_up_at h level i :
  at_level (S h) (pair_up (zero_hash h) level) i =
  node (at_level h level (2 * i)) (at_level h level (2 * i + 1)).
Proof.
  unfold at_level. revert level. induction i as [|i IH]; intros [|a [|b level]]; cbn [pair_up]; try done.
  replace (2 * S i)%nat with (S (S (2 * i))) by lia.
  replace (S (S (2 * i)) + 1)%nat with (S (S (2 * i + 1))) by lia. exact (IH level).
Qed.

Fixpoint levels_up (n h : nat) (level : list hash) : list hash :=
  match n with O => level | S n => levels_up n (S h) (pair_up (zero_hash h) level) end.

Lemma levels_up_nil n h : levels_up n h [] = [].
Proof. revert h. induction n as [|n IH]; intros h; [done|]. apply IH. Qed.

Lemma pair_up_nil z level : pair_up z level = [] → level = [].
Proof. by destruct level as [|a [|b level]]. Qed.

Lemma root_loop_spec n h level :
  (n + h = TREE_DEPTH)%nat → (0 < n)%nat → root_loop n h level = Some (at_level TREE_DEPTH (levels_up n h level) 0).
Proof.
  revert h level. induction n as [|n IH]; intros h level E Hn; [lia|]. cbn [root_loop levels_up].
  destruct level as [|a level'] eqn:El.
  { cbn [pair_up]. rewrite levels_up_nil. unfold at_level, empty_root.
    rewrite lookup_nil. cbn [default from_option]. reflexivity. }
  rewrite <- El in *. destruct n as [|n].
  - cbn [root_loop levels_up]. unfold at_level.
    destruct (pair_up (zero_hash h) level) as [|x l] eqn:Ep; [|done].
    apply pair_up_nil in Ep. congruence.
  - apply IH; lia.
Qed.

(** The climb from place [i] with the siblings of the levels gives the node at the top. *)
Lemma fold_proof_complete n h level i :
  fold_proof (Z.of_nat i) (at_level h level i) (proof_loop n h level i) =
  at_level (n + h) (levels_up n h level) (i / 2 ^ n).
Proof.
  revert h level i. induction n as [|n IH]; intros h level i; cbn [fold_proof proof_loop levels_up].
  { by rewrite Nat.div_1_r. }
  fold (at_level h level (sibling i)).
  assert (Z.shiftr (Z.of_nat i) 1 = Z.of_nat (i / 2)) as ->.
  { rewrite Z.shiftr_div_pow2, Nat2Z.inj_div by lia. done. }
  assert ((if Z.odd (Z.of_nat i) then node (at_level h level (sibling i)) (at_level h level i)
           else node (at_level h level i) (at_level h level (sibling i))) =
          at_level (S h) (pair_up (zero_hash h) level) (i / 2)) as ->.
  { rewrite pair_up_at. unfold sibling. destruct (Nat.even i) eqn:Ev.
    - apply Nat.even_spec in Ev as [k Ek]. subst i. rewrite Nat2Z.inj_mul, Z.odd_mul. cbn [andb Z.odd Z.of_nat].
      replace (2 * k / 2)%nat with k by (apply (Nat.div_unique _ _ _ 0); lia).
      f_equal; f_equal; lia.
    - rewrite <- Nat.negb_odd in Ev. apply negb_false_iff, Nat.odd_spec in Ev as [k Ek]. subst i.
      rewrite Nat2Z.inj_add, Nat2Z.inj_mul, Z.odd_add, Z.odd_mul. cbn [andb xorb Z.odd Z.of_nat Pos.of_succ_nat Pos.succ].
      replace ((2 * k + 1) / 2)%nat with k
        by (apply (Nat.div_unique _ _ _ 1); lia).
      f_equal; f_equal; lia. }
  rewrite IH. f_equal; [lia|]. by rewrite Nat.Div0.div_div, <- Nat.pow_succ_r'.
Qed.

Lemma length_proof_loop n h level i : length (proof_loop n h level i) = n.
Proof. revert h level i. induction n; intros; cbn; auto. Qed.

(** The climb with the siblings of the levels reaches the top of the tree. *)
Lemma fold_proof_top n level index l :
  0 ≤ index < 2 ^ Z.of_nat n → level !! Z.to_nat index = Some l →
  fold_proof index l (proof_loop n 0 level (Z.to_nat index)) = at_level n (levels_up n 0 level) 0.
Proof.
  intros Hi Hl. pose proof (fold_proof_complete n 0 level (Z.to_nat index)) as Hf.
  unfold at_level at 1 in Hf. rewrite Hl, Z2Nat.id in Hf by lia. cbn [default from_option id] in Hf.
  rewrite Hf, Nat.add_0_r. f_equal. apply Nat.div_small.
  apply Nat2Z.inj_lt. rewrite Nat2Z.inj_pow, Z2Nat.id by lia. apply Hi.
Qed.

(** A withdrawal proof computed from the leaves verifies: for every leaf of a tree of at
    most [2^32], the siblings [proof] lists fold back to the root of the whole tree. *)
Theorem withdrawal_proofs_verify leaves index l :
  0 ≤ index < 2 ^ Z.of_nat TREE_DEPTH → leaves !! Z.to_nat index = Some l →
  ∃ siblings r, proof leaves index = Some siblings ∧ length siblings = TREE_DEPTH ∧
    root leaves = Some r ∧ root_from_proof l index siblings = Some r.
Proof.
  intros Hi Hl. pose proof (lookup_lt_Some _ _ _ Hl) as Hlt. unfold proof, root, root_from_proof.
  rewrite (proj2 (Z.leb_gt _ _)) by lia.
  rewrite (root_loop_spec TREE_DEPTH 0) by (apply Nat.add_0_r || apply Nat.lt_0_succ).
  do 2 eexists. split; [reflexivity|]. split; [apply length_proof_loop|]. split; [reflexivity|].
  rewrite Z.shiftr_div_pow2, (Z.div_small index) by (lia || apply Hi). cbn [negb Z.eqb].
  by rewrite fold_proof_top.
Qed.

(** ** Soundness *)

Definition node_input (l r : hash) : list Z := hash_bytes l ++ hash_bytes r.

(** What the climb hashes, and what the tree hashes above place [i]. *)
Fixpoint climb_inputs (index : Z) (acc : hash) (siblings : list hash) : list (list Z) :=
  match siblings with
  | [] => []
  | s :: siblings =>
      let p := if Z.odd index then node_input s acc else node_input acc s in
      p :: climb_inputs (Z.shiftr index 1) (keccak_256 p) siblings
  end.
Fixpoint tree_inputs (n h : nat) (level : list hash) (i : nat) : list (list Z) :=
  match n with
  | O => []
  | S n => node_input (at_level h level (2 * (i / 2))) (at_level h level (2 * (i / 2) + 1))
           :: tree_inputs n (S h) (pair_up (zero_hash h) level) (i / 2)
  end.

(** No two different inputs, one of each list, with one digest. *)
Definition no_collision (xs ys : list (list Z)) : Prop :=
  ∀ x y, x ∈ xs → y ∈ ys → keccak_256 x = keccak_256 y → x = y.

Context (Hrange : ∀ x, is_hash (keccak_256 x)).

Lemma node_input_inj' a b c d :
  is_hash a → is_hash b → is_hash c → is_hash d → node_input a b = node_input c d → a = c ∧ b = d.
Proof.
  intros Ha Hb Hc Hd [E1 E2]%app_inj_1; [|by rewrite !length_hash_bytes].
  split; by apply hash_bytes_inj.
Qed.

Lemma zero_hash_range h : is_hash (zero_hash h).
Proof. destruct h; [unfold is_hash; cbn [zero_hash]; lia|apply Hrange]. Qed.

Lemma pair_up_range z level : Forall is_hash (pair_up z level).
Proof.
  revert level. fix IH 1. intros [|a [|b level]]; cbn [pair_up].
  - constructor.
  - constructor; [apply Hrange|constructor].
  - constructor; [apply Hrange|apply IH].
Qed.

Lemma at_level_range h level i : Forall is_hash level → is_hash (at_level h level i).
Proof.
  intros Hl. unfold at_level. destruct (level !! i) as [x|] eqn:E; cbn; [|apply zero_hash_range].
  by eapply Forall_lookup_1.
Qed.

Lemma half_parity i :
  i = if Z.odd (Z.of_nat i) then (2 * (i / 2) + 1)%nat else (2 * (i / 2))%nat.
Proof.
  destruct (Nat.Even_or_Odd i) as [[k ->]|[k ->]].
  - replace (2 * k / 2)%nat with k by (apply (Nat.div_unique _ _ _ 0); lia).
    by rewrite Nat2Z.inj_mul, Z.odd_mul.
  - replace ((2 * k + 1) / 2)%nat with k by (apply (Nat.div_unique _ _ _ 1); lia).
    by rewrite Nat2Z.inj_add, Nat2Z.inj_mul, Z.odd_add, Z.odd_mul.
Qed.

Lemma fold_proof_sound n h level i acc siblings :
  length siblings = n → is_hash acc → Forall is_hash siblings → Forall is_hash level →
  no_collision (climb_inputs (Z.of_nat i) acc siblings) (tree_inputs n h level i) →
  fold_proof (Z.of_nat i) acc siblings = at_level (n + h) (levels_up n h level) (i / 2 ^ n) →
  acc = at_level h level i.
Proof.
  revert h level i acc siblings. induction n as [|n IH]; intros h level i acc [|s siblings] Hlen Ha Hs Hl Hnc E;
    try done; cbn [fold_proof levels_up] in E.
  { by rewrite Nat.div_1_r in E. }
  apply Forall_cons in Hs as [Hs0 Hs]. cbn [climb_inputs tree_inputs] in Hnc.
  assert (Z.shiftr (Z.of_nat i) 1 = Z.of_nat (i / 2)) as Ei.
  { rewrite Z.shiftr_div_pow2, Nat2Z.inj_div by lia. done. }
  rewrite Ei in E, Hnc. set (p := if Z.odd (Z.of_nat i) then node_input s acc else node_input acc s) in *.
  assert ((if Z.odd (Z.of_nat i) then node s acc else node acc s) = keccak_256 p) as Ep
    by (unfold p; by destruct (Z.odd _)).
  rewrite Ep in E. rewrite (Nat.pow_succ_r' 2 n), <- Nat.Div0.div_div in E.
  replace (S n + h)%nat with (n + S h)%nat in E by lia.
  apply IH in E; [|by injection Hlen|apply Hrange|done|apply pair_up_range|].
  2:{ intros x y Hx Hy. apply Hnc; by right. }
  rewrite pair_up_at in E. apply (Hnc p) in E; [|by left|by left].
  assert (∀ j, is_hash (at_level h level j)) as Hat by (intros; by apply at_level_range).
  rewrite (half_parity i) at 1. unfold p in E.
  destruct (Z.odd (Z.of_nat i)); apply node_input_inj' in E as [??]; auto.
Qed.

(** ** What a claim proves *)

Definition leaf_input (chain_id nonce : Z) (r : hash) (sats : Z) : list Z :=
  LEAF_DOMAIN ++ be_bytes 8 chain_id ++ be_bytes 8 nonce ++ hash_bytes r ++ be_bytes 8 sats.

(** The leaves of the withdrawals made so far: recipient and amount, in order. *)
Definition leaves_of (chain_id : Z) (ws : list (hash * Z)) : list hash :=
  imap (λ i w, leaf chain_id (Z.of_nat i) w.1 w.2) ws.

Lemma leaf_input_inj c (i : Z) r s r' s' :
  is_hash r → is_hash r' → 0 ≤ s ≤ u64_MAX → 0 ≤ s' ≤ u64_MAX →
  leaf_input c i r s = leaf_input c i r' s' → r = r' ∧ s = s'.
Proof.
  intros Hr Hr' Hs Hs' E. unfold leaf_input in E.
  do 3 apply (inj (app _)) in E. apply app_inj_1 in E as [E1 E2]; [|by rewrite !length_hash_bytes].
  split; [by apply hash_bytes_inj|]. apply (be_bytes_inj 8) in E2; [done|..]; unfold u64_MAX in *; lia.
Qed.

Lemma rfind_Some {A} (p : A → bool) l x : rfind p l = Some x → x ∈ l ∧ p x = true.
Proof.
  unfold rfind. intros E. destruct (list_find p (reverse l)) as [[i y]|] eqn:Hf; [|done].
  injection E as ->. apply list_find_Some in Hf as (Hl & Hp & _).
  apply list_elem_of_lookup_2 in Hl. rewrite elem_of_reverse in Hl. split; [done|by apply Is_true_eq_true].
Qed.

(** C37: A claim that passes [matured_proof] is for a withdrawal that the second layer
    committed: where the record the claim matched holds the root of the withdrawals [ws],
    as many as its count, entry [index] of [ws] is exactly the claimed recipient and
    amount, and the record is as old as the delay for that amount.  Inputs hashed by the
    climb and by the tree do not collide. *)
Theorem matured_claim_is_committed limits records at_height chain_id index recipient sats siblings record ws :
  matured_proof limits records at_height chain_id index recipient sats siblings = Ok record →
  root (leaves_of chain_id ws) = Some (rec_root record) → count record = Z.of_nat (length ws) →
  0 ≤ index → is_hash recipient → 0 ≤ sats ≤ u64_MAX →
  length siblings = TREE_DEPTH → Forall is_hash siblings →
  Forall (λ w, is_hash w.1 ∧ 0 ≤ w.2 ≤ u64_MAX) ws →
  no_collision (climb_inputs index (leaf chain_id index recipient sats) siblings)
    (tree_inputs TREE_DEPTH 0 (leaves_of chain_id ws) (Z.to_nat index)) →
  (∀ w, w ∈ ws → no_collision [leaf_input chain_id index recipient sats]
                              [leaf_input chain_id index w.1 w.2]) →
  ws !! Z.to_nat index = Some (recipient, sats) ∧ record ∈ records ∧
  saturating_add u64_MAX (rec_height record) (delay_for limits sats) ≤ at_height.
Proof.
  unfold matured_proof. intros Hm Hroot Hcount Hi Hr Hs Hlen Hsib Hws Hnc Hleaf.
  apply result_bind_Ok in Hm as (r & Er%ok_or_Ok & Hm). apply result_bind_Ok in Hm as (rc & Erc%ok_or_Ok & Hm).
  apply rfind_Some in Erc as [Hin Eroot]. boolp. repeat case_match; simplify_eq. boolp.
  unfold root_from_proof in Er. destruct (negb _) eqn:Ez; [done|]. apply (inj Some) in Er. boolp.
  assert (Z.to_nat index < length ws)%nat as Hlt by lia.
  destruct (lookup_lt_is_Some_2 ws _ Hlt) as [[r' s'] Hw].
  assert (leaves_of chain_id ws !! Z.to_nat index = Some (leaf chain_id index r' s')) as Hl.
  { unfold leaves_of. rewrite list_lookup_imap, Hw. cbn. by rewrite Z2Nat.id by lia. }
  unfold root in Hroot. rewrite (root_loop_spec TREE_DEPTH 0) in Hroot by (apply Nat.add_0_r || apply Nat.lt_0_succ).
  apply (inj Some) in Hroot.
  assert (leaf chain_id index recipient sats = leaf chain_id index r' s') as E.
  { remember (Z.to_nat index) as i eqn:Ei. assert (index = Z.of_nat i) as -> by lia.
    apply (fold_proof_sound TREE_DEPTH 0 (leaves_of chain_id ws)) in Hnc; [|done|apply Hrange|done| |].
    - rewrite Hnc. unfold at_level. by rewrite Hl.
    - apply Forall_lookup. unfold leaves_of. intros j x.
      rewrite list_lookup_imap, fmap_Some. intros (w & _ & ->). apply Hrange.
    - rewrite Er, Nat.add_0_r, <- Hroot. f_equal. symmetry. apply Nat.div_small.
      apply Nat2Z.inj_lt. rewrite Nat2Z.inj_pow.
      rewrite Z.shiftr_div_pow2 in Ez by lia. apply Z.div_small_iff in Ez; [|lia].
      change (Z.of_nat 2) with 2. lia. }
  rewrite Forall_lookup in Hws. destruct (Hws _ _ Hw) as [Hr' Hs']. cbn [fst snd] in Hr', Hs'.
  apply (Hleaf (r', s')) in E; [|by eapply list_elem_of_lookup_2|by left|by left].
  apply leaf_input_inj in E as [-> ->]; auto.
Qed.
End tree_laws.

(** ** The bitmap is a set of indices *)

Definition popcount (w : Z) : Z := sumZ ((λ i, Z.b2z (Z.testbit w (Z.of_nat i))) <$> seq 0 256).

Record bitmap_wf (b : ClaimBitmap) : Prop := {
  bw_floor : 0 ≤ floor b;
  bw_words : map_Forall (λ k w, floor b ≤ k ∧ 0 ≤ w ≤ full_word) (words b);
  bw_compact : words b !! floor b ≠ Some full_word;
  bw_claims : claims b = 256 * floor b + map_sum (λ _, popcount) (words b)
}.

Lemma sum_indicator (i : nat) l :
  NoDup l → i ∈ l → sumZ ((λ j, if decide (j = i) then 1 else 0) <$> l) = 1.
Proof.
  induction l as [|a l IH]; intros Hnd Hin; [set_solver|]. apply NoDup_cons in Hnd as [Ha Hnd]. csimpl.
  apply elem_of_cons in Hin as [<-|Hin].
  - rewrite decide_True by done. rewrite sumZ_fmap_const0; [done|]. intros x Hx. rewrite decide_False; set_solver.
  - rewrite decide_False by set_solver. rewrite IH by done. done.
Qed.

Lemma set_bit w i j :
  0 ≤ i → 0 ≤ j → Z.testbit (Z.lor w (Z.shiftl 1 i)) j = Z.testbit w j || (j =? i).
Proof.
  intros Hi Hj. rewrite Z.lor_spec, Z.shiftl_spec by done. f_equal.
  destruct (Z.eqb_spec j i) as [->|Hne]; [by rewrite Z.sub_diag|].
  destruct (Z.lt_ge_cases j i); [by apply Z.testbit_neg_r; lia|].
  apply Z.bits_above_log2; cbn; lia.
Qed.

Lemma popcount_set_bit w i :
  0 ≤ i < 256 → Z.testbit w i = false → popcount (Z.lor w (Z.shiftl 1 i)) = popcount w + 1.
Proof.
  intros Hi Hw.
  assert (sumZ ((λ j, if decide (j = Z.to_nat i) then 1 else 0) <$> seq 0 256) = 1) as Hs.
  { apply sum_indicator; [apply NoDup_seq|apply elem_of_seq; lia]. }
  transitivity (popcount w + sumZ ((λ j, if decide (j = Z.to_nat i) then 1 else 0) <$> seq 0 256)); [|lia].
  unfold popcount. rewrite <- sumZ_fmap_add. apply sumZ_fmap_ext. intros j Hj%elem_of_seq. rewrite set_bit by lia.
  case_decide as E.
  - subst j. rewrite Z2Nat.id, Hw, Z.eqb_refl by lia. done.
  - rewrite (proj2 (Z.eqb_neq _ _)), orb_false_r by lia. lia.
Qed.

Lemma full_word_bit j : 0 ≤ j < 256 → Z.testbit full_word j = true.
Proof. intros. change full_word with (Z.ones 256). apply Z.ones_spec_low. lia. Qed.

Lemma popcount_full : popcount full_word = 256.
Proof. vm_compute. reflexivity. Qed.

Lemma set_bit_range w i : 0 ≤ i < 256 → 0 ≤ w ≤ full_word → 0 ≤ Z.lor w (Z.shiftl 1 i) ≤ full_word.
Proof.
  intros Hi Hw. rewrite Z.shiftl_1_l. assert (0 ≤ 2 ^ i) by (apply Z.pow_nonneg; lia).
  split; [apply Z.lor_nonneg; lia|]. unfold full_word in *. cut (Z.lor w (2 ^ i) < 2 ^ 256); [lia|].
  apply Z.log2_lt_cancel. rewrite Z.log2_pow2 by lia.
  destruct (decide (w = 0)) as [->|].
  - rewrite Z.lor_0_l, Z.log2_pow2; lia.
  - rewrite Z.log2_lor, Z.log2_pow2 by lia. apply Z.max_lub_lt; [|lia]. apply Z.log2_lt_pow2; lia.
Qed.

(** The compaction keeps the set and the count. *)
Lemma compact_spec fuel f ws :
  (size ws < fuel)%nat → 0 ≤ f → map_Forall (λ k w, f ≤ k ∧ 0 ≤ w ≤ full_word) ws →
  let '(f', ws') := compact fuel f ws in
  0 ≤ f' ∧ map_Forall (λ k w, f' ≤ k ∧ 0 ≤ w ≤ full_word) ws' ∧ ws' !! f' ≠ Some full_word ∧
  256 * f' + map_sum (λ _, popcount) ws' = 256 * f + map_sum (λ _, popcount) ws ∧
  ∀ n j, contains (mkBitmap f' ws' n) j = contains (mkBitmap f ws n) j.
Proof.
  revert f ws. induction fuel as [|fuel IH]; intros f ws Hsz Hf Hws; [lia|]. cbn [compact].
  destruct (ws !! f) as [w|] eqn:Ef; [|split_and!; try done; congruence].
  destruct (Z.eqb_spec w full_word) as [->|Hne]; [|split_and!; try done; congruence].
  specialize (IH (f + 1) (delete f ws)). destruct (compact fuel (f + 1) (delete f ws)) as [f' ws'].
  destruct IH as (H1 & H2 & H3 & H4 & H5).
  - assert (size ws ≠ 0)%nat by (apply map_size_non_empty_iff; intros ->; done).
    rewrite map_size_delete_Some; [lia|eauto].
  - lia.
  - intros k w [Hk Hw]%lookup_delete_Some. apply Hws in Hw. lia.
  - split_and!; try done.
    + rewrite (map_sum_delete _ ws f full_word Ef), popcount_full. lia.
    + intros n j. rewrite H5. unfold contains. cbn [floor words].
      destruct (Z.ltb_spec (j / 256) f), (Z.ltb_spec (j / 256) (f + 1)); try done; try lia.
      * assert (j / 256 = f) as -> by lia. rewrite Ef. symmetry. apply full_word_bit. apply Z.mod_pos_bound. lia.
      * rewrite lookup_delete_ne by lia. done.
Qed.

(** The claim bitmap is a set of indices: [insert] reports whether the index was new,
    afterwards exactly that index has joined the set, and the count of claims grows by
    one with each new index.  Compaction of full words changes neither.  A second insert
    of the same index is therefore refused. *)
Theorem claim_bitmap_is_a_set b index :
  bitmap_wf b → 0 ≤ index → claims b < u64_MAX →
  ∃ b', bitmap_insert b index = Some (negb (contains b index), b') ∧ bitmap_wf b' ∧
    (∀ j, contains b' j = (j =? index) || contains b j) ∧
    claims b' = claims b + Z.b2z (negb (contains b index)).
Proof.
  intros Hwf Hi Hc. pose proof Hwf as [Hf Hw Hcp Hcl]. unfold bitmap_insert.
  destruct (contains b index) eqn:Ec.
  { exists b. split; [done|]. split; [done|]. split; [|cbn; lia]. intros j.
    destruct (Z.eqb_spec j index) as [->|]; done. }
  unfold contains in Ec. destruct (Z.ltb_spec (index / 256) (floor b)) as [|Hfl]; [done|].
  set (word := index / 256) in *. set (w := default 0 (words b !! word)).
  assert (0 ≤ index mod 256 < 256) as Hm by (apply Z.mod_pos_bound; lia).
  assert (Z.testbit w (index mod 256) = false ∧ 0 ≤ w ≤ full_word) as [Hbit Hwr].
  { unfold w. destruct (words b !! word) as [x|] eqn:E; cbn.
    - apply Hw in E. split; [done|lia].
    - split; [apply Z.testbit_0_l|by vm_compute]. }
  rewrite add_w_ok by lia. cbn [mbind option_bind].
  set (ws := <[word := _]> (words b)).
  assert (map_sum (λ _, popcount) ws = map_sum (λ _, popcount) (words b) + 1) as Hsum.
  { unfold ws. destruct (words b !! word) as [x|] eqn:E; subst w; cbn [default from_option id] in *.
    - rewrite <- insert_delete_eq, map_sum_insert, (map_sum_delete _ (words b) word x E) by apply lookup_delete_eq.
      rewrite popcount_set_bit by done. lia.
    - rewrite map_sum_insert, popcount_set_bit by done. change (popcount 0) with 0. lia. }
  pose proof (compact_spec (S (size ws)) (floor b) ws (le_n _) Hf) as Hcs.
  destruct (compact (S (size ws)) (floor b) ws) as [f' ws']. destruct Hcs as (H1 & H2 & H3 & H4 & H5).
  { apply map_Forall_insert_2; [|done]. split; [done|]. by apply set_bit_range. }
  eexists. split; [done|]. split; [|split; [|done]].
  - split; cbn [floor words claims]; try done. lia.
  - intros j. rewrite H5. unfold contains. cbn [floor words]. unfold ws.
    destruct (Z.ltb_spec (j / 256) (floor b)).
    { by destruct (Z.eqb_spec j index). }
    destruct (Z.eq_dec (j / 256) word) as [Ej|Hne].
    + pose proof (Z.mod_pos_bound j 256). rewrite Ej, lookup_insert_eq, set_bit by lia.
      assert ((j mod 256 =? index mod 256) = (j =? index)) as ->.
      { pose proof (Z.div_mod j 256). pose proof (Z.div_mod index 256). unfold word in *.
        destruct (Z.eqb_spec j index), (Z.eqb_spec (j mod 256) (index mod 256)); congruence || lia. }
      unfold w. rewrite orb_comm. f_equal. destruct (words b !! word); [done|]. cbn. apply Z.testbit_0_l.
    + rewrite lookup_insert_ne by done. rewrite (proj2 (Z.eqb_neq j index)); [done|]. by intros ->.
Qed.

(** Indices below [2 ^ 32] leave at most [2 ^ 32] claims. *)
Lemma popcount_range w : 0 ≤ popcount w ≤ 256.
Proof.
  unfold popcount. split.
  - apply sumZ_fmap_nonneg. intros. destruct (Z.testbit _ _); cbn; lia.
  - transitivity (1 * Z.of_nat (length (seq 0 256))); [|by rewrite length_seq].
    apply sumZ_fmap_bound. intros. destruct (Z.testbit _ _); cbn; lia.
Qed.

Lemma words_size (ws : gmap Z Z) a b :
  a ≤ b → map_Forall (λ k _, a ≤ k < b) ws → Z.of_nat (size ws) ≤ b - a.
Proof.
  intros Hab Hws. rewrite <- size_dom.
  assert (dom ws ⊆ (list_to_set (seqZ a (b - a)) : gset Z)) as Hsub.
  { intros k [w Hw]%elem_of_dom. apply Hws in Hw. apply elem_of_list_to_set, elem_of_seqZ. lia. }
  apply subseteq_size in Hsub. rewrite size_list_to_set, length_seqZ in Hsub by apply NoDup_seqZ. lia.
Qed.

Lemma claims_bound b m :
  bitmap_wf b → floor b ≤ m → map_Forall (λ k _, k < m) (words b) → claims b ≤ 256 * m.
Proof.
  intros [Hf Hw _ Hc] Hm Hk. rewrite Hc.
  assert (map_sum (λ _, popcount) (words b) ≤ 256 * Z.of_nat (size (words b))) as Hs.
  { unfold map_sum. rewrite <- length_map_to_list. apply sumZ_fmap_bound. intros [k w] _. apply popcount_range. }
  assert (Z.of_nat (size (words b)) ≤ m - floor b); [|lia].
  apply words_size; [done|]. intros k w E. split; [by apply (Hw k w)|by apply (Hk k w)].
Qed.

(** An index below [256 * m] keeps the bitmap below word [m]. *)
Lemma bitmap_insert_bounded b index fresh b' m :
  bitmap_insert b index = Some (fresh, b') → 0 ≤ index < 256 * m →
  floor b ≤ m → map_Forall (λ k _, k < m) (words b) →
  floor b' ≤ m ∧ map_Forall (λ k _, k < m) (words b').
Proof.
  unfold bitmap_insert. intros E Hi Hf Hw. destruct (contains b index); [by simplify_eq|].
  apply bind_Some in E as (c & _ & E). revert E. set (ws := <[_ := _]> _).
  assert (map_Forall (λ k _, k < m) ws) as Hws.
  { apply map_Forall_insert_2; [|done]. apply Z.div_lt_upper_bound; lia. }
  clearbody ws. generalize (S (size ws)) as fuel. intros fuel.
  assert (∀ fuel f ws, f ≤ m → map_Forall (λ k _, k < m) ws →
    (compact fuel f ws).1 ≤ m ∧ map_Forall (λ k _, k < m) (compact fuel f ws).2) as Hc.
  { clear. induction fuel as [|fuel IH]; intros f ws Hf Hws; [done|]. cbn [compact].
    destruct (ws !! f) as [w|] eqn:E; [|done]. case_match; [|done]. apply IH.
    - apply Hws in E. lia.
    - by apply map_Forall_delete. }
  specialize (Hc fuel (floor b) ws Hf Hws). destruct (compact fuel (floor b) ws) as [f ws']. naive_solver.
Qed.

(** ** A claim *)

Definition ex_keccak : Keccak := λ l, from_le_bytes l mod (2 ^ 61 - 1).
Definition ex_ws : list (hash * Z) := [(11, 700); (12, 900)].
Definition ex_siblings : list hash := default [] (@proof ex_keccak (@leaves_of ex_keccak 5 ex_ws) 1).
Definition ex_record : Record_ := mkRecord 1 (default 0 (@root ex_keccak (@leaves_of ex_keccak 5 ex_ws))) 2 10.

Lemma ex_keccak_range : ∀ x, is_hash (@keccak_256 ex_keccak x).
Proof.
  intros x. unfold keccak_256, ex_keccak, is_hash.
  pose proof (Z.mod_pos_bound (from_le_bytes x) (2 ^ 61 - 1) ltac:(lia)). lia.
Qed.

Lemma no_collision_check `{Keccak} xs ys :
  Forall (λ x, Forall (λ y, keccak_256 x ≠ keccak_256 y ∨ x = y) ys) xs → no_collision xs ys.
Proof. unfold no_collision. rewrite Forall_forall. setoid_rewrite Forall_forall. naive_solver. Qed.

Lemma matured_claim_is_committed_witness :
  @matured_proof ex_keccak DEVELOPMENT [ex_record] 50 5 1 12 900 ex_siblings = Ok ex_record ∧
  ex_ws !! 1%nat = Some (12, 900) ∧ ex_record ∈ [ex_record] ∧
  saturating_add u64_MAX (rec_height ex_record) (delay_for DEVELOPMENT 900) ≤ 50.
Proof.
  assert (@matured_proof ex_keccak DEVELOPMENT [ex_record] 50 5 1 12 900 ex_siblings = Ok ex_record) as E
    by (vm_compute; reflexivity).
  split; [exact E|].
  apply (@matured_claim_is_committed ex_keccak ex_keccak_range DEVELOPMENT [ex_record] 50 5 1 12 900
           ex_siblings ex_record ex_ws E).
  - vm_compute. reflexivity.
  - reflexivity.
  - lia.
  - unfold is_hash. lia.
  - unfold u64_MAX. lia.
  - vm_compute. reflexivity.
  - apply (bool_decide_unpack _). vm_compute. exact I.
  - repeat constructor; cbn; unfold is_hash, u64_MAX; lia.
  - apply no_collision_check, (bool_decide_unpack _). vm_compute. exact I.
  - intros w [-> | [-> | []%elem_of_nil]%elem_of_cons]%elem_of_cons;
      apply no_collision_check, (bool_decide_unpack _); vm_compute; exact I.
Defined.
End Withdrawal.
