(* ===== verification/Settlement.v ===== *)
(** * The settlement state of the second layer

    Models [State] of [crates/bloch-pos-committee/src/l2_settlement.rs]: the inbox of
    deposits and its cursor, the escrow, settlement of a proven statement, data
    availability records, withdrawal roots and the release of withdrawals.  The proof
    verifier is the one of the signature trait.  Values fixed when the program is built
    ([cfg!] features and an environment variable) are fields of [Build].  Its committed bytes
    are in StateRoot.v. *)

From Stdlib Require Import String.
From S2P Require Import Prelude Bytes Params Signatures Codec Tx Withdrawal.
Local Open Scope Z_scope.

Module Settlement.
Import Bytes Params Signatures Tx Withdrawal.

Definition STATEMENT_TAG : list Z := string_bytes "BLOCH:EVM:SETTLEMENT:2".
Definition STATEMENT_V3_TAG : list Z := string_bytes "BLOCH:EVM:SETTLEMENT:3".
Definition S_ : nat := 22.
Definition V3_DEPOSITS_HASH : nat := 568.
Definition V3_TRANSACTIONS_ROOT : nat := 600.
Definition V3_RECEIPTS_ROOT : nat := 632.
Definition V3_USER_TX_COUNT : nat := 664.
Definition V3_WITHDRAWAL_ROOT : nat := 672.
Definition V3_WITHDRAWAL_COUNT : nat := 704.
Definition V3_DA_COMMITMENT : nat := 712.

Inductive StatementVersion := V2 | V3.
Definition version_of (statement : list Z) : option StatementVersion :=
  if (length statement =? STATEMENT_BYTES)%nat && bool_decide (STATEMENT_TAG `prefix_of` statement)
  then Some V2
  else if (length statement =? STATEMENT_V3_BYTES)%nat && bool_decide (STATEMENT_V3_TAG `prefix_of` statement)
  then Some V3
  else None.

(** [h] and [n] read inside a statement whose length [version_of] has checked. *)
Definition h (bytes : list Z) (offset : nat) : hash := from_hash_bytes (slice offset (offset + 32) bytes).
Definition n (bytes : list Z) (offset : nat) : Z := from_be_bytes (slice offset (offset + 8) bytes).

(** ** Data availability *)

Definition DA_MAX_PER_BLOCK : nat := 4.
Definition DA_RETENTION_BLOCKS : Z := 1024.
Definition DA_WINDOW : Z := 64.
Definition DA_MAX_RECORDS : Z := 4 * (1024 + 1).
Definition DA_COMMITMENT_DOMAIN : list Z := string_bytes "BLOCH:L2:DA:1".

(** The loop of [batch_count] over the entries of a payload: [None] is its [None]. *)
Fixpoint batch_loop (count : nat) (payload : list Z) (at_ : Z) : option Z :=
  match count with
  | O => Some at_
  | S count =>
      if Z.of_nat (length payload) <? at_ + 4 then None
      else
        let len := from_be_bytes (slice (Z.to_nat at_) (Z.to_nat (at_ + 4)) payload) in
        if len =? 0 then None
        else
          let at_ := at_ + 4 + len in
          if Z.of_nat (length payload) <? at_ then None else batch_loop count payload at_
  end.
Definition batch_count (payload : list Z) : option Z :=
  if (DA_MAX_PAYLOAD_BYTES <? Z.of_nat (length payload)) || (Z.of_nat (length payload) <? 4)
  then None
  else
    let count := from_be_bytes (take 4 payload) in
    (** An entry takes at least five bytes, so that the loop stops before the payload's length. *)
    at_ ← batch_loop (Z.to_nat (Z.min count (Z.of_nat (length payload)))) payload 4;
    if (0 <? count) && (at_ =? Z.of_nat (length payload)) then Some count else None.

Record DaRecord := mkDa { da_number : Z; da_commitment : hash; da_height : Z }.
Inductive DaRefusal := DaNotActive | DaChain | DaNumber | DaDuplicate | DaFull.

(** ** The inbox *)

Definition MAX_INBOX_PER_SETTLEMENT : Z := 64.
Definition L2_BODY_TAG : list Z := string_bytes "BLOCH:EVM:BODY:2".

(** [recipient] is an array of 20 bytes. *)
Record InboxRecord := mkInbox {
  in_height : Z; in_tx_index : Z; in_txid : hash; in_vout : Z; in_sats : Z; in_recipient : list Z
}.

Definition inbox_bytes (r : InboxRecord) : list Z :=
  le_bytes 8 (in_height r) ++ le_bytes 4 (in_tx_index r) ++ hash_bytes (in_txid r)
    ++ le_bytes 4 (in_vout r) ++ le_bytes 8 (in_sats r) ++ in_recipient r.

(** Big-endian bytes without the leading zeros. *)
Fixpoint strip_zeros (l : list Z) : list Z :=
  match l with
  | [] => []
  | b :: l' => if b =? 0 then strip_zeros l' else l
  end.

Definition rlp_length (offset : Z) (len : nat) : list Z :=
  if (len <? 56)%nat then [offset + Z.of_nat len]
  else
    let be := strip_zeros (be_bytes 8 (Z.of_nat len)) in
    (offset + 55 + Z.of_nat (length be)) :: be.
Definition rlp_bytes (bytes : list Z) : list Z :=
  match bytes with
  | [b] => if b <? 0x80 then [b] else rlp_length 0x80 1 ++ bytes
  | _ => rlp_length 0x80 (length bytes) ++ bytes
  end.
Definition rlp_uint (value : Z) : list Z := rlp_bytes (strip_zeros (be_bytes 8 value)).
Definition rlp_list (payload : list Z) : list Z := rlp_length 0xc0 (length payload) ++ payload.

Section hashed.
Context `{Sha3} `{Keccak}.

Definition hash_parts (parts : list (list Z)) : hash := sha3_256 (concat parts).
Definition empty_inbox_root : hash := hash_parts [string_bytes "BLOCH:NATIVE:L2:EMPTY-INBOX:1"].
Definition inbox_root_step (root : hash) (r : InboxRecord) : hash :=
  hash_parts [string_bytes "BLOCH:NATIVE:L2:INBOX:1"; hash_bytes root; inbox_bytes r].

Definition deposit_fields (r : InboxRecord) : list Z :=
  rlp_list (rlp_bytes (in_recipient r) ++ rlp_uint (in_height r) ++ rlp_uint (in_tx_index r)
              ++ rlp_bytes (hash_bytes (in_txid r)) ++ rlp_uint (in_vout r) ++ rlp_uint (in_sats r)).
Definition expected_body_commitment (records : list InboxRecord) : hash :=
  let deposits := concat (deposit_fields <$> records) in
  keccak_256 (rlp_list (rlp_bytes L2_BODY_TAG ++ rlp_list deposits ++ rlp_list [])).

Definition deposits_hash (records : list InboxRecord) : hash :=
  keccak_256 (concat ((λ r, in_recipient r ++ be_bytes 8 (in_height r) ++ be_bytes 4 (in_tx_index r)
                         ++ hash_bytes (in_txid r) ++ be_bytes 4 (in_vout r) ++ be_bytes 8 (in_sats r)) <$> records)).

Definition commitment (tx : SettlementTx) : hash :=
  hash_parts [string_bytes "BLOCH:EXPERIMENTAL:NATIVE-SETTLEMENT-COMMITMENT:1";
              string_bytes "BLOCH:EXPERIMENTAL:NATIVE-SETTLEMENT-TX:1";
              hash_bytes (proof_policy tx); statement tx; Tx.proof tx].

Definition da_commit (chain_id l2_block_number : Z) (payload : list Z) : hash :=
  keccak_256 (DA_COMMITMENT_DOMAIN ++ be_bytes 8 chain_id ++ be_bytes 8 l2_block_number ++ payload).

Definition attestor_set_hash (threshold : Z) (keys : list (list Z)) : hash :=
  sha3_256 (string_bytes "BLOCH:L2:ATTESTOR-SET:1" ++ [threshold; Z.of_nat (length keys) mod 256] ++ concat keys).
Definition attestation_digest (network_domain : hash) (chain_id : Z) (root : hash) : hash :=
  sha3_256 (string_bytes "BLOCH:L2:WITHDRAW-ATTEST:1" ++ hash_bytes network_domain ++ be_bytes 8 chain_id
              ++ hash_bytes root).
End hashed.

(** ** Policy, profile and activation *)

Record Build := mkBuild {
  devnet_l2_deposits : bool;
  devnet_l2_user_txs : bool;
  FINALIZED_CLAIMS_FROM_HEIGHT : Z
}.
Existing Class Build.

(** [identities] is an array of seven hashes. *)
Record Policy := mkPolicy {
  identities : list hash;
  policy_proof : hash;
  chain_id : Z;
  initial_l2_parent : hash;
  initial_l2_state : hash;
  attestor_set : hash
}.

Definition policy_valid (p : Policy) : bool :=
  negb (chain_id p =? 0) && negb (bool_decide (0 ∈ identities p)) && negb (policy_proof p =? 0)
  && negb (initial_l2_parent p =? 0) && negb (initial_l2_state p =? 0).
Definition identity (p : Policy) (i : nat) : hash := default 0 (identities p !! i).

Record Profile := mkProfile {
  deposits : bool;
  user_transactions : bool;
  finalized_claims_from_height : Z;
  limits : Limits;
  is_activated : bool
}.

Definition development {B : Build} : Profile :=
  mkProfile (devnet_l2_deposits B) (devnet_l2_user_txs B) (FINALIZED_CLAIMS_FROM_HEIGHT B) DEVELOPMENT false.
Definition profile_activated (l : Limits) : Profile := mkProfile true true 0 l true.

Record Activation := mkActivation { a_policy : Policy; a_asynchronous : bool; a_limits : Limits }.

Definition MAINNET_CHAIN_ID : Z := 700770.
Definition BLCH : Z := 100000000.
Definition MAINNET_ASYNCHRONOUS : bool := true.
Definition ATTESTOR_THRESHOLD : Z := 3.
Definition ATTESTOR_COUNT : nat := 5.
Definition MAINNET_LIMITS : Limits := {|
  delay_blocks := 64;
  large_claim_sat := 100 * BLCH;
  large_delay_blocks := 2880;
  retention_blocks := 2880;
  release_window_blocks := 2880;
  release_window_bps := 1000;
  release_floor_sat := 10 * BLCH
|}.

Definition activation_valid (a : Activation) : bool :=
  let mainnet_shape :=
    negb (chain_id (a_policy a) =? MAINNET_CHAIN_ID)
    || (eqb (a_asynchronous a) MAINNET_ASYNCHRONOUS && negb (attestor_set (a_policy a) =? 0)
        && bool_decide (a_limits a = MAINNET_LIMITS)) in
  policy_valid (a_policy a) && valid (a_limits a) && mainnet_shape.

(** [activation_for], the activation built into the program being an argument. *)
Definition activation_for (built : option Activation) (network : option hash) : option Activation :=
  network ← network; a ← built;
  if identity (a_policy a) 0 =? network then Some a else None.

(** ** The state *)

Record Source := mkSource {
  src_block : hash; src_slot : Z; src_height : Z; src_commitment : hash; src_inbox_root : hash;
  src_inbox_count : Z
}.

(** [source_anchor]: block, slot, height, count and root of the inbox. *)
Record State := mkState {
  policy : Policy;
  native_height : Z;
  head : option (hash * list Z);
  asynchronous : bool;
  source_anchor : option (hash * Z * Z * Z * hash);
  inbox : list InboxRecord;
  inbox_root : hash;
  consumed : Z;
  escrow_sat : Z;
  da : list DaRecord;
  withdrawals : list Record_;
  claimed : ClaimBitmap;
  released_sat : Z;
  release_window : ReleaseWindow;
  profile : Profile;
  checkpoint_roots : gmap Z hash
}.
Global Instance State_eta : Eta State := λ s,
  mkState (policy s) (native_height s) (head s) (asynchronous s) (source_anchor s) (inbox s)
    (inbox_root s) (consumed s) (escrow_sat s) (da s) (withdrawals s) (claimed s) (released_sat s)
    (release_window s) (profile s) (checkpoint_roots s).

Inductive Reject :=
| RPolicy | RSource | RSuccessor | RProof | RHeight | RNotActive | RLimit | RDeposits | RReserved
| RWithdrawals | RUserTransactions | RDataUnavailable.

Section state.
Context `{Sha3} `{Keccak}.
Implicit Types s : State.

Definition genesis {B : Build} (p : Policy) : result Reject State :=
  if negb (policy_valid p) then Err RPolicy
  else Ok (mkState p 0 None false None [] empty_inbox_root 0 0 [] [] empty_bitmap 0 (mkWindow 0 0 0)
             development ∅).
Definition genesis_async {B : Build} (p : Policy) : result Reject State :=
  s ← genesis p; Ok (s <| asynchronous := true |>).
Definition activated {B : Build} (a : Activation) : result Reject State :=
  if negb (activation_valid a) then Err RPolicy
  else
    s ← genesis (a_policy a);
    Ok (s <| asynchronous := a_asynchronous a |> <| profile := profile_activated (a_limits a) |>).

Definition deposits_enabled s : bool := deposits (profile s) && asynchronous s.

Definition prepare_source s (parent : hash) (parent_slot : Z) : State :=
  if asynchronous s && bool_decide (source_anchor s = None) && (0 <? native_height s) then
    s <| source_anchor := Some (parent, parent_slot, native_height s, Z.of_nat (length (inbox s)), inbox_root s) |>
  else s.

Definition append_deposit s (record : InboxRecord) : result Reject State :=
  if negb (asynchronous s) || (u32_MAX <=? Z.of_nat (length (inbox s))) then Err RNotActive
  else
    escrow ← ok_or (checked_add u128_MAX (escrow_sat s) (in_sats record)) RLimit;
    Ok (s <| escrow_sat := escrow |> <| inbox_root := inbox_root_step (inbox_root s) record |>
          <| inbox := inbox s ++ [record] |>).

(** [iter().rev().take_while(..).count()] *)
Fixpoint take_while {A} (p : A → bool) (l : list A) : list A :=
  match l with
  | [] => []
  | x :: l => if p x then x :: take_while p l else []
  end.
Definition deposits_at_height s (height : Z) : Z :=
  Z.of_nat (length (take_while (λ r, in_height r =? height) (reverse (inbox s)))).

Definition source_at s (block : hash) (slot height inbox_count : Z) (root : hash) : Source :=
  let previous := match head s with Some (_, st) => h st (S_ + 448) | None => 0 end in
  let commitment := hash_parts [
    string_bytes "BLOCH:NATIVE:L2:EMPTY-SOURCE:1"; hash_bytes (identity (policy s) 0);
    hash_bytes (identity (policy s) 1); hash_bytes (identity (policy s) 2); hash_bytes previous;
    hash_bytes block; le_bytes 8 slot; le_bytes 8 height; hash_bytes root] in
  mkSource block slot height commitment root inbox_count.
Definition frozen_source s : option Source :=
  match source_anchor s with
  | Some (block, slot, height, count, root) => Some (source_at s block slot height count root)
  | None => None
  end.
Definition source s (block : hash) (slot : Z) : Source :=
  match frozen_source s with
  | Some x => x
  | None => source_at s block slot (native_height s) (Z.of_nat (length (inbox s))) (inbox_root s)
  end.

(** [&self.inbox[a..b]]: panics when the range is not inside the vector. *)
Definition inbox_range s (a b : Z) : option (list InboxRecord) :=
  if (a <=? b) && (b <=? Z.of_nat (length (inbox s)))
  then Some (take (Z.to_nat (b - a)) (drop (Z.to_nat a) (inbox s))) else None.
Definition pending_for s (src : Source) : option (list InboxRecord) :=
  let end_ := Z.min (src_inbox_count src) (saturating_add u64_MAX (consumed s) MAX_INBOX_PER_SETTLEMENT) in
  inbox_range s (consumed s) end_.

Definition matured_withdrawals s : option Record_ :=
  matured (limits (profile s)) (withdrawals s) (saturating_add u64_MAX (native_height s) 1) 0.
Definition attestation_required s (sats : Z) : bool :=
  negb (attestor_set (policy s) =? 0) && (large_claim_sat (limits (profile s)) <=? sats).
Definition current_window s : ReleaseWindow :=
  window_at (release_window s) (limits (profile s)) (saturating_add u64_MAX (native_height s) 1) (escrow_sat s).
Definition window_exempt s (attested : bool) : bool := attested || (attestor_set (policy s) =? 0).

Definition record_checkpoint_root s (epoch : Z) (root : hash) (finalized_epoch : Z) : State :=
  s <| checkpoint_roots :=
    filter (λ er, er.1 = finalized_epoch ∨ epoch ≤ saturating_add u64_MAX er.1 2)
      (<[epoch := root]> (checkpoint_roots s)) |>.

Definition deposited_sat s : Z := sumZ (in_sats <$> inbox s).
Definition escrow_conserved s : bool := bool_decide (checked_sub (deposited_sat s) (released_sat s) = Some (escrow_sat s)).

Definition check_claim s (chain index : Z) (l1_recipient : hash) (sats : Z) (siblings : list hash)
    (attested : bool) : result ClaimRefusal Record_ :=
  if negb (user_transactions (profile s)) || negb (asynchronous s) then Err NotActive
  else if negb (chain =? chain_id (policy s)) then Err Chain
  else
    at_ ← ok_or (checked_add u64_MAX (native_height s) 1) NotActive;
    record ← matured_proof (limits (profile s)) (withdrawals s) at_ chain index l1_recipient sats siblings;
    if contains (claimed s) index then Err Claimed
    else if escrow_sat s <? sats then Err Escrow
    else if negb (admits (current_window s) sats (window_exempt s attested)) then Err RateLimited
    else Ok record.

Definition release_withdrawal s (chain index : Z) (l1_recipient : hash) (sats : Z) (siblings : list hash)
    (attested : bool) : outcome ClaimRefusal State :=
  of_result (check_claim s chain index l1_recipient sats siblings attested) ≫= λ _,
  released' ← or_rej (checked_add u128_MAX (released_sat s) sats) Escrow;
  let w := current_window s in
  let w := mkWindow (window w) (saturating_add u128_MAX (released w) sats) (cap w) in
  '(_, claimed') ← must (bitmap_insert (claimed s) index);
  escrow ← must (sub_w (escrow_sat s) sats);
  mret (s <| claimed := claimed' |> <| escrow_sat := escrow |> <| released_sat := released' |>
          <| release_window := w |>).

(** [withdrawal::tree_after] and [withdrawal::check_successor] *)
Definition tree_after (statement : option (list Z)) : hash * Z :=
  match statement with
  | Some st =>
      match version_of st with
      | Some V3 => (h st (S_ + V3_WITHDRAWAL_ROOT), n st (S_ + V3_WITHDRAWAL_COUNT))
      | _ => (empty_root, 0)
      end
  | None => (empty_root, 0)
  end.
Definition check_successor (hd : option (list Z)) (statement : list Z) : result Reject (option (hash * Z)) :=
  match version_of statement with
  | Some V3 =>
      let '(root, count) := tree_after (Some statement) in
      let '(head_root, head_count) := tree_after hd in
      if (count <? head_count) || negb (eqb (count =? head_count) (root =? head_root)) then Err RWithdrawals
      else Ok (if head_count <? count then Some (root, count) else None)
  | _ => Err RPolicy
  end.
Definition withdrawal_head s : hash * Z := tree_after (snd <$> head s).
Definition settled_number s : Z := match head s with Some (_, st) => n st (S_ + 264) | None => 0 end.

Definition record_data_availability s (chain l2_number : Z) (c : hash) : result DaRefusal State :=
  if negb (user_transactions (profile s)) then Err DaNotActive
  else if negb (chain =? chain_id (policy s)) then Err DaChain
  else
    let settled := settled_number s in
    if (l2_number <=? settled) || (saturating_add u64_MAX settled DA_WINDOW <? l2_number) then Err DaNumber
    else if existsb (λ r, (da_number r =? l2_number) && (da_commitment r =? c)) (da s) then Err DaDuplicate
    else if DA_MAX_RECORDS <=? Z.of_nat (length (da s)) then Err DaFull
    else
      height ← ok_or (checked_add u64_MAX (native_height s) 1) DaFull;
      Ok (s <| da := da s ++ [mkDa l2_number c height] |>).

Definition advance_height s : result Reject State :=
  height ← ok_or (checked_add u64_MAX (native_height s) 1) RHeight;
  let da' := filter (λ r, height < saturating_add u64_MAX (da_height r) DA_RETENTION_BLOCKS) (da s) in
  let retention := retention_blocks (limits (profile s)) in
  let old := length (take_while (λ r, saturating_add u64_MAX (rec_height r) retention <=? height) (withdrawals s)) in
  let withdrawals' := if (1 <? old)%nat then drop (old - 1) (withdrawals s) else withdrawals s in
  Ok (s <| native_height := height |> <| da := da' |> <| withdrawals := withdrawals' |>).

(** The body of [apply] on a version-3 statement: the new withdrawal record, if any. *)
Definition check_v3 s (st : list Z) (slice : list InboxRecord) (number : Z) : result Reject (option Record_) :=
  let users := n st (S_ + V3_USER_TX_COUNT) in
  if negb (users =? 0) && negb (user_transactions (profile s)) then Err RUserTransactions
  else if negb (h st (S_ + V3_DEPOSITS_HASH) =? deposits_hash slice) then Err RDeposits
  else
    let c := h st (S_ + V3_DA_COMMITMENT) in
    if (h st (S_ + V3_TRANSACTIONS_ROOT) =? 0) || (h st (S_ + V3_RECEIPTS_ROOT) =? 0)
       || ((users =? 0) && negb (c =? 0)) then Err RReserved
    else
      succ ← check_successor (snd <$> head s) st;
      rec ← match succ with
            | Some (root, count) =>
                height ← ok_or (checked_add u64_MAX (native_height s) 1) RHeight;
                Ok (Some (mkRecord number root count height))
            | None => Ok None
            end;
      if negb (users =? 0)
         && negb (existsb (λ r, (da_number r =? number) && (da_commitment r =? c)
                                && (da_height r <=? native_height s)) (da s))
      then Err RDataUnavailable else Ok rec.

(** The statement that follows the head: digest, number, parent and state root. *)
Definition expected_link s : result Reject (hash * Z * hash * hash) :=
  match head s with
  | None => Ok (0, 1, initial_l2_parent (policy s), initial_l2_state (policy s))
  | Some (digest, old) =>
      number ← ok_or (checked_add u64_MAX (n old (S_ + 264)) 1) RSuccessor;
      Ok (digest, number, h old (S_ + 336), h old (S_ + 368))
  end.

Definition apply s (tx : SettlementTx) (parent : hash) (slot : Z) (async : bool) (verifier : SignatureVerifier)
    : outcome Reject State :=
  if negb (eqb async (asynchronous s)) || (async && bool_decide (source_anchor s = None)) then Rej RNotActive
  else
    let st := statement tx in
    version ← or_rej (version_of st) RPolicy;
    if negb (proof_policy tx =? policy_proof (policy s))
       || existsb (λ i, negb (h st (S_ + i * 32) =? identity (policy s) i)) (seq 0 7)
       || negb (n st (S_ + 256) =? chain_id (policy s)) then Rej RPolicy
    else
      let src := source s parent slot in
      if (src_height src =? 0) || (src_slot src <? src_height src)
         || negb (h st (S_ + 400) =? src_block src) || negb (n st (S_ + 432) =? src_slot src)
         || negb (n st (S_ + 440) =? src_height src) || negb (h st (S_ + 448) =? src_commitment src)
         || negb (h st (S_ + 480) =? src_inbox_root src) then Rej RSource
      else
        let end_ := Z.min (src_inbox_count src) (saturating_add u64_MAX (consumed s) MAX_INBOX_PER_SETTLEMENT) in
        if negb (n st (S_ + 512) =? src_inbox_count src) || negb (n st (S_ + 520) =? consumed s)
           || negb (n st (S_ + 528) =? end_) then Rej RSource
        else
          '(previous, number, l2_parent, l2_root) ← of_result (expected_link s);
          if negb (h st (S_ + 224) =? previous) || negb (n st (S_ + 264) =? number)
             || negb (h st (S_ + 272) =? l2_parent) || negb (h st (S_ + 304) =? l2_root)
             || (h st (S_ + 336) =? 0) || (h st (S_ + 368) =? 0) || (h st (S_ + 536) =? 0) then Rej RSuccessor
          else
            slice ← must (inbox_range s (consumed s) end_);
            new_withdrawals ← match version with
                              | V2 => if deposits (profile s)
                                         && negb (h st (S_ + 536) =? expected_body_commitment slice)
                                      then Rej RDeposits else Ret None
                              | V3 => of_result (check_v3 s st slice number)
                              end;
            if negb (verify_l2_settlement verifier (policy_proof (policy s)) (identity (policy s) 6) st (Tx.proof tx))
            then Rej RProof
            else
              ws ← match new_withdrawals with
                   | Some record =>
                       if max_records (limits (profile s)) <=? Z.of_nat (length (withdrawals s)) then Rej RLimit
                       else Ret (withdrawals s ++ [record])
                   | None => Ret (withdrawals s)
                   end;
              mret (s <| withdrawals := ws |> <| head := Some (commitment tx, st) |> <| source_anchor := None |>
                      <| consumed := end_ |> <| da := filter (λ r, number < da_number r) (da s) |>).

(** ** Histories *)

(** What a step did, as far as the accounts are concerned. *)
Inductive event :=
| EvOther
| EvDeposit (r : InboxRecord)
| EvRelease (index sats : Z)
| EvSettle (slice : list InboxRecord).

(** The operations of [State] that the transition calls, with arguments in range. *)
Inductive l2_step : State → event → State → Prop :=
| step_prepare s parent slot : l2_step s EvOther (prepare_source s parent slot)
| step_deposit s r s' : append_deposit s r = Ok s' → 0 ≤ in_sats r → l2_step s (EvDeposit r) s'
| step_release s chain index recipient sats siblings attested s' :
    release_withdrawal s chain index recipient sats siblings attested = Ret s' →
    0 ≤ index → 0 ≤ sats → l2_step s (EvRelease index sats) s'
| step_settle s tx parent slot async verifier s' slice :
    apply s tx parent slot async verifier = Ret s' →
    inbox_range s (consumed s) (consumed s') = Some slice → l2_step s (EvSettle slice) s'
| step_da s chain number c s' : record_data_availability s chain number c = Ok s' → l2_step s EvOther s'
| step_advance s s' : advance_height s = Ok s' → l2_step s EvOther s'
| step_checkpoint s epoch root finalized : l2_step s EvOther (record_checkpoint_root s epoch root finalized).

Inductive l2_run (s0 : State) : list event → State → Prop :=
| run_nil : l2_run s0 [] s0
| run_snoc evs s e s' : l2_run s0 evs s → l2_step s e s' → l2_run s0 (evs ++ [e]) s'.

Definition ev_deposits (evs : list event) : list InboxRecord :=
  omap (λ e, match e with EvDeposit r => Some r | _ => None end) evs.
Definition ev_releases (evs : list event) : list (Z * Z) :=
  omap (λ e, match e with EvRelease i x => Some (i, x) | _ => None end) evs.
Definition ev_settled (evs : list event) : list InboxRecord :=
  concat (omap (λ e, match e with EvSettle l => Some l | _ => None end) evs).

(** ** The invariant *)

Definition anchor_ok s : Prop :=
  match source_anchor s with
  | Some (_, _, _, count, _) => consumed s ≤ count ≤ Z.of_nat (length (inbox s))
  | None => True
  end.

(** Claimed indices are places of a tree of depth 32. *)
Definition bitmap_bounded (b : ClaimBitmap) : Prop :=
  floor b ≤ 2 ^ 24 ∧ map_Forall (λ k _, k < 2 ^ 24) (words b).

Record l2_wf s : Prop := {
  lw_escrow : escrow_sat s = deposited_sat s - released_sat s;
  lw_escrow_pos : 0 ≤ escrow_sat s;
  lw_released : 0 ≤ released_sat s;
  lw_consumed : 0 ≤ consumed s ≤ Z.of_nat (length (inbox s));
  lw_inbox : Z.of_nat (length (inbox s)) ≤ u32_MAX;
  lw_anchor : anchor_ok s;
  lw_root : inbox_root s = foldl inbox_root_step empty_inbox_root (inbox s);
  lw_bitmap : bitmap_wf (claimed s);
  lw_bounded : bitmap_bounded (claimed s);
  lw_height : 0 ≤ native_height s
}.

Lemma inbox_range_Some s a b l :
  inbox_range s a b = Some l →
  a ≤ b ≤ Z.of_nat (length (inbox s)) ∧ l = take (Z.to_nat (b - a)) (drop (Z.to_nat a) (inbox s)).
Proof. unfold inbox_range. case_match; [|done]. boolp. naive_solver lia. Qed.

(** An accepted claim names a place of the tree that was not claimed, within the escrow. *)
Lemma check_claim_Ok s chain index recipient sats siblings attested record :
  check_claim s chain index recipient sats siblings attested = Ok record → 0 ≤ index →
  index < 2 ^ 32 ∧ contains (claimed s) index = false ∧ sats ≤ escrow_sat s ∧
  admits (current_window s) sats (window_exempt s attested) = true.
Proof.
  unfold check_claim. intros E Hi. repeat (case_match; [done|]).
  apply result_bind_Ok in E as (at_ & _ & E). apply result_bind_Ok in E as (r & Er & E).
  repeat (case_match; [done|]). boolp. split_and!; [|done|done|done].
  unfold matured_proof in Er. apply result_bind_Ok in Er as (x & Ex%ok_or_Ok & _).
  unfold root_from_proof in Ex. destruct (negb _) eqn:Ez; [done|]. boolp.
  rewrite Z.shiftr_div_pow2 in Ez by lia. apply Z.div_small_iff in Ez; [|done].
  change (2 ^ Z.of_nat Withdrawal.TREE_DEPTH) with (2 ^ 32) in Ez. lia.
Qed.

Lemma release_Ret s chain index recipient sats siblings attested s' :
  release_withdrawal s chain index recipient sats siblings attested = Ret s' → 0 ≤ index → l2_wf s →
  ∃ b, contains (claimed s) index = false ∧ index < 2 ^ 32 ∧ sats ≤ escrow_sat s ∧
    bitmap_insert (claimed s) index = Some (true, b) ∧ bitmap_wf b ∧
    (∀ j, contains b j = (j =? index) || contains (claimed s) j) ∧
    s' = s <| claimed := b |> <| escrow_sat := escrow_sat s - sats |> <| released_sat := released_sat s + sats |>
           <| release_window := mkWindow (window (current_window s))
                (saturating_add u128_MAX (released (current_window s)) sats) (cap (current_window s)) |>.
Proof.
  unfold release_withdrawal. intros E Hi Hwf. apply outcome_bind_Ret in E as (r & Er%of_result_Ret & E).
  apply check_claim_Ok in Er as (Hlt & Hc & Hs & _); [|done].
  apply outcome_bind_Ret in E as (x & Ex%or_rej_Ret%checked_add_Some & E).
  apply outcome_bind_Ret in E as ([fresh b] & Eb%must_Ret & E).
  apply outcome_bind_Ret in E as (y & Ey%must_Ret%checked_sub_Some & E).
  destruct (claim_bitmap_is_a_set (claimed s) index) as (b' & Eb' & Hb & Hj & _);
    [apply Hwf|done| |].
  { destruct (lw_bounded s Hwf) as [Hf Hw].
    pose proof (claims_bound (claimed s) (2 ^ 24) (lw_bitmap s Hwf) Hf Hw). unfold u64_MAX. lia. }
  rewrite Eb, Hc in Eb'. cbn [negb] in Eb'. injection Eb' as -> ->.
  exists b'. destruct Ex as [_ ->], Ey as [_ ->]. by injection E as <-.
Qed.

(** What a settlement does to the accounts: the cursor moves over the range it consumed. *)
Lemma apply_Ret s tx parent slot async verifier s' :
  apply s tx parent slot async verifier = Ret s' →
  let end_ := Z.min (src_inbox_count (source s parent slot))
                (saturating_add u64_MAX (consumed s) MAX_INBOX_PER_SETTLEMENT) in
  consumed s' = end_ ∧ is_Some (inbox_range s (consumed s) end_) ∧ inbox s' = inbox s ∧
  inbox_root s' = inbox_root s ∧ escrow_sat s' = escrow_sat s ∧ released_sat s' = released_sat s ∧
  claimed s' = claimed s ∧ source_anchor s' = None ∧ native_height s' = native_height s.
Proof.
  unfold apply. intros E. case_match; [done|].
  apply outcome_bind_Ret in E as (version & _ & E). repeat (case_match; [done|]).
  apply outcome_bind_Ret in E as ([[[previous number] l2_parent] l2_root] & _ & E). case_match; [done|].
  apply outcome_bind_Ret in E as (slice & Es%must_Ret & E).
  apply outcome_bind_Ret in E as (nw & _ & E). case_match; [done|].
  apply outcome_bind_Ret in E as (ws & _ & E). injection E as <-. cbn. rewrite Es. split_and!; eauto.
Qed.

Lemma source_count s parent slot :
  l2_wf s → consumed s ≤ src_inbox_count (source s parent slot) ≤ Z.of_nat (length (inbox s)).
Proof.
  intros Hwf. pose proof (lw_anchor s Hwf) as Ha. pose proof (lw_consumed s Hwf).
  unfold source, frozen_source, anchor_ok in *.
  destruct (source_anchor s) as [[[[[block x] height] count] root]|]; cbn; lia.
Qed.

(** What each operation does to the escrow, in any state. *)
Lemma append_deposit_escrow s r s' : append_deposit s r = Ok s' → escrow_sat s' = escrow_sat s + in_sats r.
Proof.
  unfold append_deposit. intros E. case_match; [done|].
  by apply result_bind_Ok in E as (x & [_ ->]%ok_or_Ok%checked_add_Some & [= <-]).
Qed.

Lemma release_escrow s chain index recipient sats siblings attested s' :
  release_withdrawal s chain index recipient sats siblings attested = Ret s' →
  escrow_sat s' = escrow_sat s - sats.
Proof.
  unfold release_withdrawal. intros E. outcome_inv E. injection E as <-.
  rename select (sub_w _ _ = _) into Hs. by apply sub_w_Some in Hs as [_ ->].
Qed.

Lemma data_availability_escrow s chain number c s' :
  record_data_availability s chain number c = Ok s' → escrow_sat s' = escrow_sat s.
Proof.
  unfold record_data_availability. intros E. repeat (case_match; [done|]).
  by apply result_bind_Ok in E as (x & _ & [= <-]).
Qed.

Lemma advance_height_escrow s s' : advance_height s = Ok s' → escrow_sat s' = escrow_sat s.
Proof. unfold advance_height. intros E. by apply result_bind_Ok in E as (x & _ & [= <-]). Qed.

Lemma prepare_source_escrow s parent slot : escrow_sat (prepare_source s parent slot) = escrow_sat s.
Proof. unfold prepare_source. by case_match. Qed.

Lemma l2_step_wf s e s' : l2_wf s → l2_step s e s' → l2_wf s'.
Proof.
  intros Hwf Hst. pose proof Hwf as [He Hep Hr Hc Hin Ha Hroot Hb Hbb Hh].
  destruct Hst as [s parent slot|s r s' E Hsat|s chain index recipient sats siblings attested s' E Hi Hs
    |s tx parent slot async verifier s' slice E El|s chain number c s' E|s s' E|s epoch root fin].
  - unfold prepare_source. case_match; [|done]. split; try done. cbn. lia.
  - unfold append_deposit in E. case_match; [done|]. boolp.
    apply result_bind_Ok in E as (x & [Hx ->]%ok_or_Ok%checked_add_Some & E). injection E as <-.
    split; cbn; try done; unfold deposited_sat, anchor_ok in *; cbn; rewrite ?length_app, ?fmap_app, ?sumZ_app; cbn.
    + lia. + lia. + lia. + lia.
    + destruct (source_anchor s) as [[[[[??]?]count]?]|]; cbn; [lia|done].
    + rewrite foldl_app. cbn. by rewrite Hroot.
  - apply release_Ret in E as (b & Hnc & Hlt & Hle & Eb & Hbw & _ & ->); [|done|done].
    split; cbn; try done; unfold deposited_sat, anchor_ok in *; cbn; try lia; try done.
    destruct Hbb as [Hf Hw]. by apply (bitmap_insert_bounded (claimed s) index true b (2 ^ 24)).
  - pose proof (source_count s parent slot Hwf) as Hsc.
    apply apply_Ret in E as (Ec & _ & Ein & Er & Ee & Erel & Ecl & Eanc & Eh).
    split; unfold deposited_sat, anchor_ok; rewrite ?Ec, ?Ein, ?Er, ?Ee, ?Erel, ?Ecl, ?Eanc, ?Eh; try done.
    unfold saturating_add, MAX_INBOX_PER_SETTLEMENT, u64_MAX, u32_MAX in *. lia.
  - unfold record_data_availability in E. repeat (case_match; [done|]).
    apply result_bind_Ok in E as (x & _ & E). injection E as <-. by split.
  - unfold advance_height in E. apply result_bind_Ok in E as (x & [Hx ->]%ok_or_Ok%checked_add_Some & E).
    injection E as <-. split; cbn; try done. lia.
  - by split.
Qed.

Lemma genesis_wf {B : Build} p s : genesis p = Ok s → l2_wf s ∧ inbox s = [] ∧ consumed s = 0 ∧ claimed s = empty_bitmap ∧ released_sat s = 0.
Proof.
  unfold genesis. case_match; [done|]. intros [= <-]. split; [|done].
  split; cbn; unfold u32_MAX, deposited_sat, bitmap_bounded; cbn; try lia; try done.
Qed.

(** A state before its first operation. *)
Definition fresh_state s : Prop :=
  l2_wf s ∧ inbox s = [] ∧ consumed s = 0 ∧ claimed s = empty_bitmap ∧ released_sat s = 0.

Lemma activated_fresh {B : Build} a s : activated a = Ok s → fresh_state s.
Proof.
  unfold activated. case_match; [done|]. intros (s1 & Hg%genesis_wf & [= <-])%result_bind_Ok.
  destruct Hg as ([] & ? & ? & ? & ?). split; [|done]. by split.
Qed.

(** The part of the state the accounts read, which other steps leave alone. *)
Lemma l2_step_other s s' :
  l2_step s EvOther s' →
  inbox s' = inbox s ∧ consumed s' = consumed s ∧ claimed s' = claimed s ∧ released_sat s' = released_sat s.
Proof.
  inversion 1 as [? parent slot| | | |? chain number c ? E|? ? E|]; subst; try done.
  - unfold prepare_source. by case_match.
  - unfold record_data_availability in E. repeat (case_match; [done|]).
    apply result_bind_Ok in E as (x & _ & E). by injection E as <-.
  - unfold advance_height in E. apply result_bind_Ok in E as (x & _ & E). by injection E as <-.
Qed.

Lemma take_drop_take {A} (a b : nat) (l : list A) : (a ≤ b)%nat → take a l ++ take (b - a) (drop a l) = take b l.
Proof. intros. rewrite take_take_drop. f_equal. lia. Qed.

Lemma l2_run_facts s0 evs s :
  fresh_state s0 → l2_run s0 evs s →
  l2_wf s ∧ inbox s = ev_deposits evs ∧ released_sat s = sumZ (ev_releases evs).*2 ∧
  ev_settled evs = take (Z.to_nat (consumed s)) (inbox s) ∧
  (∀ j, contains (claimed s) j = true ↔ j < 0 ∨ j ∈ (ev_releases evs).*1) ∧
  NoDup (ev_releases evs).*1 ∧ Forall (λ j, 0 ≤ j) (ev_releases evs).*1.
Proof.
  intros (Hwf & Hin & Hco & Hcl & Hre) Hrun. induction Hrun as [|evs s e s' Hrun IH Hst].
  { split; [done|]. rewrite Hin, Hco, Hcl, Hre. split_and!; try done; try constructor.
    - unfold contains, empty_bitmap. cbn. rewrite lookup_empty.
      destruct (Z.ltb_spec (j / 256) 0) as [Hlt|]; [|done]. intros _. left.
      destruct (Z.lt_ge_cases j 0); [done|]. assert (0 ≤ j / 256) by (apply Z.div_pos; lia). lia.
    - intros [Hj|[]%elem_of_nil]. unfold contains. cbn.
      rewrite (proj2 (Z.ltb_lt _ _)); [done|]. apply Z.div_lt_upper_bound; lia. }
  destruct IH as (Hw & Hi & Hr & Hs & Hc & Hnd & Hpos).
  pose proof (l2_step_wf s e s' Hw Hst) as Hw'. split; [done|].
  unfold ev_deposits, ev_releases, ev_settled in *. rewrite !omap_app, !fmap_app, concat_app, sumZ_app.
  destruct e as [|r|index sats|slice]; cbn -[take]; rewrite ?app_nil_r, ?Z.add_0_r.
  - apply l2_step_other in Hst as (E1 & E2 & E3 & E4). by rewrite E1, E2, E3, E4.
  - inversion Hst as [|? ? ? E Hsat| | | | |]; subst. unfold append_deposit in E. case_match; [done|].
    apply result_bind_Ok in E as (x & _ & E). injection E as <-. cbn -[take].
    rewrite Hi. split_and!; try done. rewrite Hs, <- Hi, take_app_le; [done|].
    pose proof (lw_consumed s Hw). lia.
  - inversion Hst as [| |? ? ? ? ? ? ? ? E Hix Hsx| | | |]; subst.
    apply release_Ret in E as (b & Hnc & _ & _ & _ & _ & Hb & ->); [|done|done]. cbn -[take].
    split_and!; try done.
    + by rewrite Hr.
    + intros j. rewrite Hb, orb_true_iff, Hc, Z.eqb_eq, elem_of_app, list_elem_of_singleton. naive_solver.
    + apply NoDup_app. split; [done|]. split; [|apply NoDup_singleton].
      intros j Hj ->%list_elem_of_singleton. rewrite (proj2 (Hc index)) in Hnc; [done|by right].
    + apply Forall_app. split; [done|]. by constructor.
  - inversion Hst as [| | |? ? ? ? ? ? ? ? E El| | |]; subst.
    pose proof (source_count s parent slot Hw) as Hsc.
    apply apply_Ret in E as (Ec & _ & Ein & _ & _ & Erel & Ecl & _). rewrite Ein, Erel, Ecl.
    split_and!; try done. rewrite Hs. apply inbox_range_Some in El as [Hle ->].
    pose proof (lw_consumed s Hw). rewrite Z2Nat.inj_sub by lia. apply take_drop_take. lia.
Qed.

(** C38: The escrow of the second layer is accounted for at every point of every history of
    the settlement state from its activation: it is what was deposited less what was released and never
    negative, no withdrawal index is released twice, and the deposits handed to
    settlements are, in order and without gaps or repetitions, those made. *)
Theorem escrow_accounting {B : Build} a s0 evs s :
  activated a = Ok s0 → l2_run s0 evs s →
  escrow_sat s = sumZ (in_sats <$> ev_deposits evs) - sumZ (ev_releases evs).*2 ∧ 0 ≤ escrow_sat s ∧
  NoDup (ev_releases evs).*1 ∧
  ev_settled evs = take (Z.to_nat (consumed s)) (ev_deposits evs) ∧ escrow_conserved s = true.
Proof.
  intros Ha Hrun. apply activated_fresh in Ha.
  destruct (l2_run_facts s0 evs s Ha Hrun) as (Hw & Hi & Hr & Hs & _ & Hnd & _).
  pose proof (lw_escrow s Hw) as He. pose proof (lw_escrow_pos s Hw) as Hp. pose proof (lw_released s Hw).
  unfold deposited_sat in He. rewrite <- Hi, <- Hr. split; [done|]. split; [done|]. split; [done|]. split; [done|].
  unfold escrow_conserved. apply bool_decide_eq_true_2. apply checked_sub_Some. unfold deposited_sat. lia.
Qed.

(** No operation panics in a reachable state: the inbox range is always inside the
    vector, the bitmap does not overflow and the escrow covers a release. *)
Theorem l2_never_panics s :
  l2_wf s →
  (∀ chain index recipient sats siblings attested, 0 ≤ index →
     release_withdrawal s chain index recipient sats siblings attested ≠ Panic) ∧
  (∀ tx parent slot async verifier, apply s tx parent slot async verifier ≠ Panic).
Proof.
  intros Hwf. split.
  - intros chain index recipient sats siblings attested Hi E. unfold release_withdrawal in E.
    destruct (check_claim _ _ _ _ _ _ _) as [r|] eqn:Ec; [|done]. cbn in E.
    apply check_claim_Ok in Ec as (Hlt & Hc & Hs & _); [|done].
    destruct (checked_add _ _ _) as [x|]; [|done]. cbn in E.
    destruct (claim_bitmap_is_a_set (claimed s) index) as (b' & Eb & _); [apply Hwf|done| |].
    { destruct (lw_bounded s Hwf) as [Hf Hw].
      pose proof (claims_bound (claimed s) (2 ^ 24) (lw_bitmap s Hwf) Hf Hw). unfold u64_MAX. lia. }
    rewrite Eb in E. cbn in E. by rewrite sub_w_ok in E.
  - intros tx parent slot async verifier E. unfold apply in E. case_match; [done|].
    destruct (version_of (statement tx)) as [version|]; [|done]. cbn [or_rej mbind outcome_bind] in E.
    repeat (case_match; [done|]).
    destruct (expected_link s) as [[[[previous number] l2_parent] l2_root]|]; [|done].
    cbn [of_result mbind outcome_bind] in E. case_match; [done|].
    pose proof (source_count s parent slot Hwf) as Hsc. pose proof (lw_consumed s Hwf).
    pose proof (lw_inbox s Hwf).
    unfold inbox_range in E. rewrite (proj2 (andb_true_iff _ _)) in E.
    2:{ split; apply Z.leb_le; unfold saturating_add, MAX_INBOX_PER_SETTLEMENT, u64_MAX, u32_MAX in *; lia. }
    cbn [must mbind outcome_bind] in E.
    destruct version; [|destruct (check_v3 _ _ _ _)]; repeat (case_match; try done); cbn in E;
      repeat (case_match; try done).
Qed.
End state.

(** ** A history *)

Definition ex_sha : Sha3 := λ l, from_le_bytes l mod (2 ^ 61 - 1).
Definition ex_build : Build := mkBuild false false 0.
Definition ex_activation : Activation :=
  mkActivation (mkPolicy [1; 2; 3; 4; 5; 6; 7] 8 9 10 11 12) true DEVELOPMENT.
Definition ex_deposit : InboxRecord := mkInbox 1 0 77 1 5000 (replicate 20 1).
Definition ex_state : State :=
  match @activated ex_sha ex_build ex_activation with Ok s => s | Err _ => mkState (a_policy ex_activation) 0 None
    false None [] 0 0 0 [] [] empty_bitmap 0 (mkWindow 0 0 0) (@development ex_build) ∅ end.
Definition ex_after : State := match @append_deposit ex_sha ex_state ex_deposit with Ok s => s | Err _ => ex_state end.

Lemma escrow_accounting_witness :
  escrow_sat ex_after = 5000 - 0 ∧ 0 ≤ escrow_sat ex_after ∧ NoDup (ev_releases [EvDeposit ex_deposit]).*1 ∧
  ev_settled [EvDeposit ex_deposit] = take (Z.to_nat (consumed ex_after)) (ev_deposits [EvDeposit ex_deposit]) ∧
  escrow_conserved ex_after = true.
Proof.
  apply (@escrow_accounting ex_sha ex_keccak ex_build ex_activation ex_state [EvDeposit ex_deposit] ex_after).
  - vm_compute. reflexivity.
  - apply (run_snoc ex_state [] ex_state (EvDeposit ex_deposit)); [constructor|].
    apply step_deposit; [vm_compute; reflexivity|cbn; lia].
Defined.
End Settlement.
