(* ===== verification/State.v ===== *)
(** * The committed state

    Models [CommittedState] of [crates/bloch-pos-committee/src/transition.rs]: the record
    every node agrees on, its genesis, the duty and consensus rosters derived from it, the
    seed of an epoch, the key registry it offers to signature checks, and the accounting of
    the supply ([accounted_supply_sat], [supply_conserved]).

    The record has the fields of the source under the source's names.  Its maps are
    [BTreeMap]s, walked in key order with [items]. *)

From S2P Require Import Prelude Bytes Params Types Finality Committees Signatures Kes Delegation Slashing.
From S2P Require Import Staking Tokenomics FeeMarket Cohort Tx Smt Utxo Settlement.
Local Open Scope Z_scope.

Module State.
Import Bytes Params.

(** ** Data *)

(** [interfaces::ValidatorRecord]. *)
Record ValidatorRecord := mkRecord {
  vr_index : Z;
  vr_pubkey : list Z;
  staked_sat : Z;
  vr_randao_commitment : hash;
  withdrawal_credentials : list Z;
  activation_epoch : Z;
  exit_epoch : Z;
  withdrawable_epoch : Z;
  slashed : bool;
  commission_bps : Z;
}.
Global Instance ValidatorRecord_eta : Eta ValidatorRecord := λ r,
  mkRecord (vr_index r) (vr_pubkey r) (staked_sat r) (vr_randao_commitment r) (withdrawal_credentials r)
    (activation_epoch r) (exit_epoch r) (withdrawable_epoch r) (slashed r) (commission_bps r).

(** [state_root::EvmCommitment]. *)
Record EvmCommitment := mkEvm {
  account_root : hash; receipts_root : hash; evm_gas_used : Z; base_fee_per_gas : Z }.

Record GenesisValidator := mkGenesisValidator {
  gv_index : Z; gv_pubkey : list Z; gv_staked_sat : Z; gv_randao_commitment : hash;
  gv_withdrawal_credentials : list Z; gv_commission_bps : Z }.

Record CommittedState := mkState {
  admission_network_domain : option hash;
  slot : Z;
  epoch : Z;
  head : hash;
  validators : gmap Z ValidatorRecord;
  reveals_used : gmap Z Z;
  randao_mix : hash;
  boundary_mixes : gmap Z hash;
  genesis_mix : hash;
  genesis_cohort : list Z;
  genesis_principal_sat : gmap Z Z;
  written_off_sat : Z;
  funded_validators : gset Z;
  stake_low_water : gmap Z Z;
  randao_generations : gmap Z Z;
  finality_engine : Finality.FinalityState;
  previous_justified : Types.Checkpoint;
  pending_votes : gmap (Z * hash) Types.AttestationData;
  latest_messages : gmap Z (Z * hash);
  fc_equivocators : gset Z;
  fc_recent_votes : gmap Z (gmap Z hash);
  current_participation : gmap Z bool;
  previous_participation : gmap Z bool;
  deposit_history : list Staking.QueuedDeposit;
  pubkey_index : gmap hash Z;
  delegations : list Delegation.Delegation;
  funded_delegation_owners : gmap Z hash;
  funded_delegation_lifecycle : gmap Z (Z * bool);
  pending_fee_rewards : gmap Z Z;
  slashing : Slashing.SlashingState;
  delegator_slash_losses : gmap Z Z;
  delegator_fee_rewards : gmap Z Z;
  validator_fee_rewards : gmap Z Z;
  delegator_issuance_rewards : gmap Z Z;
  current_proposed : gmap Z bool;
  base_fee_millisat_per_gas : Z;
  block_gas_used : Z;
  block_tx_bytes : Z;
  taint_root : hash;
  coherence_accumulator_root : hash;
  coherence_nullifier_root : hash;
  evm : EvmCommitment;
  l2_settlement : option Settlement.State;
  pq_rescue_commits : gmap hash Z;
  kes : gmap Z Kes.KesEntry;
  kes_enforced_from : option Z;
  issued_sat : Z;
  eutxos : Utxo.EutxoSet;
}.
Global Instance CommittedState_eta : Eta CommittedState := λ s,
  mkState (admission_network_domain s) (slot s) (epoch s) (head s) (validators s) (reveals_used s)
    (randao_mix s) (boundary_mixes s) (genesis_mix s) (genesis_cohort s) (genesis_principal_sat s)
    (written_off_sat s) (funded_validators s) (stake_low_water s) (randao_generations s)
    (finality_engine s) (previous_justified s) (pending_votes s) (latest_messages s) (fc_equivocators s)
    (fc_recent_votes s) (current_participation s) (previous_participation s) (deposit_history s)
    (pubkey_index s) (delegations s) (funded_delegation_owners s) (funded_delegation_lifecycle s)
    (pending_fee_rewards s) (slashing s) (delegator_slash_losses s) (delegator_fee_rewards s)
    (validator_fee_rewards s) (delegator_issuance_rewards s) (current_proposed s)
    (base_fee_millisat_per_gas s) (block_gas_used s) (block_tx_bytes s) (taint_root s)
    (coherence_accumulator_root s) (coherence_nullifier_root s) (evm s) (l2_settlement s)
    (pq_rescue_commits s) (kes s) (kes_enforced_from s) (issued_sat s) (eutxos s).
Implicit Types (s : CommittedState).

Record FinalityView := mkView {
  fv_previous_justified : Types.Checkpoint; fv_justified : Types.Checkpoint; fv_finalized : Types.Checkpoint }.

(** ** Reading the state *)

(** [KeyLookup for CommittedState], and for the [RegistryView] of the same fields. *)
Definition registry_view (vs : gmap Z ValidatorRecord) (ks : gmap Z Kes.KesEntry) (domain : option hash)
    (enforced_from : option Z) : Signatures.KeyLookup := {|
  Signatures.pubkey := λ v, vr_pubkey <$> vs !! v;
  Signatures.kes_public := λ v period, (λ e, Kes.in_force e period) <$> ks !! v;
  Signatures.kes_network_domain := Some (default 0 domain);
  Signatures.kes_enforced_from := Some enforced_from;
|}.
Definition key_lookup s : Signatures.KeyLookup :=
  registry_view (validators s) (kes s) (admission_network_domain s) (kes_enforced_from s).

Definition own_checkpoint_root s (ep : Z) : option hash := Finality.own_checkpoints (finality_engine s) !! ep.

Definition names_own_checkpoints s (d : Types.AttestationData) : bool :=
  bool_decide (own_checkpoint_root s (Types.target_epoch d) = Some (Types.target_root d)) &&
  match own_checkpoint_root s (Types.source_epoch d) with
  | None => true
  | Some root => root =? Types.source_root d
  end.

Definition finality_view s : FinalityView :=
  mkView (previous_justified s) (Finality.current_justified (finality_engine s))
    (Finality.finalized (finality_engine s)).

Section rules.
Context {R : Rules}.

Definition seed_for_epoch s (ep : Z) : hash :=
  let lookahead :=
    if epoch_gate_active ep (ANCESTRY_SEED_ACTIVATION_EPOCH R) then Committees.MIN_SEED_LOOKAHEAD_EPOCHS
    else 0 in
  match checked_sub ep (1 + lookahead) with
  | None => genesis_mix s
  | Some src => default (genesis_mix s) (boundary_mixes s !! src)
  end.

(** ** The rosters *)

Definition sat_u64 (x : Z) : Z := if u64_MAX <? x then u64_MAX else x.

Definition MAX_FUNDED_DELEGATION_PER_VALIDATOR_SAT : Z := 500000000 * Delegation.SAT_PER_BLOCH.

(** [delegated.binary_search_by_key(idx, ...)]: the registry lists its validators by
    strictly increasing index. *)
Definition delegated_stake (delegated : list Types.Validator) (idx : Z) : Z :=
  match list_find (λ v, Types.index v = idx) delegated with
  | Some (_, v) => Types.effective_stake v
  | None => 0
  end.

Definition on_duty (ep : Z) (r : ValidatorRecord) : bool :=
  (activation_epoch r <=? ep) && (ep <? exit_epoch r).

Definition duty_entry (ep : Z) (delegated : list Types.Validator) (ir : Z * ValidatorRecord)
    : option Types.Validator :=
  if on_duty ep ir.2 then
    Some (Types.mkValidator ir.1
            (saturating_add u64_MAX (sat_u64 (staked_sat ir.2)) (delegated_stake delegated ir.1)))
  else None.

Definition cap_stake (cap : Z) (v : Types.Validator) : Types.Validator :=
  Types.mkValidator (Types.index v)
    (if cap <? Types.effective_stake v then sat_u64 cap else Types.effective_stake v).

Definition duty_roster_at s (ep : Z) : option (list Types.Validator) :=
  reg ← Delegation.resolve (delegations s) ep;
  delegated ← if funded_delegation_active ep
              then Some (Delegation.validators_with_absolute_cap reg MAX_FUNDED_DELEGATION_PER_VALIDATOR_SAT)
              else Delegation.validators reg;
  let roster := omap (duty_entry ep delegated) (items (validators s)) in
  let roster :=
    if fee_stake_decouple_active ep then
      cap_stake (Delegation.combined_cap_sat (Types.effective_stake <$> roster)) <$> roster
    else roster in
  Cohort.apply_cohort_cap roster (genesis_cohort s) ep.

Definition duty_roster s : option (list Types.Validator) := duty_roster_at s (epoch s).

Definition with_leak_applied (roster : list Types.Validator) (leaked_of : Z → Z) : list Types.Validator :=
  (λ v, Types.mkValidator (Types.index v)
          (saturating_sub (Types.effective_stake v) (leaked_of (Types.index v)))) <$> roster.

Definition consensus_roster_at s (ep : Z) : option (list Types.Validator) :=
  roster ← duty_roster_at s ep;
  if ep <? LEAKED_ROSTER_ACTIVATION_EPOCH R then Some roster
  else
    let leaked := with_leak_applied roster (Finality.leaked_of (finality_engine s)) in
    if duty_roster_recovery_active ep && negb (existsb (λ v, 0 <? Types.effective_stake v) leaked)
    then Some roster else Some leaked.

(** [StateReader]. *)
Definition active_validators s : option (list Types.Validator) := consensus_roster_at s (epoch s).
Definition total_active_stake_sat s : option Z := Types.total_stake <$> duty_roster s.
Definition randao_mix_at s (ep : Z) : option hash := boundary_mixes s !! ep.

Definition next_base_fee_at {G : Gates} s (ep : Z) : option Z :=
  FeeMarket.next_base_fee (base_fee_millisat_per_gas s)
    (FeeMarket.mkUsage (block_gas_used s) (block_tx_bytes s)) ep.
Definition next_base_fee {G : Gates} s : option Z := next_base_fee_at s (epoch s).
End rules.

(** ** The supply *)

Definition map_total (m : gmap Z Z) : Z := map_sum (λ _ x, x) m.

Definition is_withdrawn s (position : nat) : bool :=
  match funded_delegation_lifecycle s !! (Z.of_nat position `mod` 2 ^ 32) with
  | Some (_, withdrawn) => withdrawn
  | None => false
  end.

Definition staked_total s : Z := map_sum (λ _ r, staked_sat r) (validators s).
Definition delegated_total s : Z :=
  sumZ (imap (λ i d, if is_withdrawn s i then 0 else Delegation.amount_sat d) (delegations s)).
Definition escrow_total s : Z := match l2_settlement s with Some l2 => Settlement.escrow_sat l2 | None => 0 end.

(** Every term is non-negative, so the chain of additions overflows exactly when the
    total does. *)
Definition held s : Z :=
  Utxo.total_sat (eutxos s) + staked_total s + delegated_total s + map_total (pending_fee_rewards s)
  + map_total (delegator_fee_rewards s) + map_total (validator_fee_rewards s)
  + map_total (delegator_issuance_rewards s) + escrow_total s.
Definition burned s : Z := map_total (delegator_slash_losses s).

Definition accounted_supply_sat s : option Z :=
  h ← try_from u128_MAX (held s);
  b ← try_from u128_MAX (burned s);
  Some (saturating_sub h b).

Definition supply_conserved (pre post : CommittedState) (unfunded_bonded : Z) : option bool :=
  let minted := saturating_sub (issued_sat post) (issued_sat pre) in
  a ← accounted_supply_sat pre;
  let allowed := saturating_add u128_MAX (saturating_add u128_MAX a minted) unfunded_bonded in
  b ← accounted_supply_sat post;
  Some (b <=? allowed).

(** ** Balance sheets *)

(** What the ledger holds less what it has burned, before saturation. *)
Definition net s : Z := held s - burned s.

Lemma map_total_insert (m : gmap Z Z) k x : map_total (<[k := x]> m) = map_total m - get0 m k + x.
Proof.
  unfold map_total. rewrite map_sum_insert_any. unfold at_key, get0. by destruct (m !! k).
Qed.

Lemma map_total_delete (m : gmap Z Z) k : map_total (delete k m) = map_total m - get0 m k.
Proof.
  unfold map_total. rewrite map_sum_delete_any. unfold at_key, get0. by destruct (m !! k).
Qed.

Definition staked_at s (i : Z) : Z := match validators s !! i with Some r => staked_sat r | None => 0 end.

Lemma staked_insert (vs : gmap Z ValidatorRecord) i r :
  map_sum (λ _ r, staked_sat r) (<[i := r]> vs)
  = map_sum (λ _ r, staked_sat r) vs - match vs !! i with Some r0 => staked_sat r0 | None => 0 end + staked_sat r.
Proof. apply map_sum_insert_any. Qed.

Lemma accounted_supply_net s a :
  accounted_supply_sat s = Some a → a = Z.max 0 (net s) ∧ held s ≤ u128_MAX ∧ burned s ≤ u128_MAX.
Proof.
  unfold accounted_supply_sat. intros E. apply bind_Some in E as (h & [? ->]%try_from_Some & E).
  apply bind_Some in E as (b & [? ->]%try_from_Some & [= <-]). done.
Qed.

(** Slashed validators are ejected: their records are marked by the evidence that ejects
    them, and by nothing else. *)
Definition slashed_ejected s : Prop :=
  map_Forall (λ v rec, slashed rec = true → v ∈ Slashing.ejected (slashing s)) (validators s).

(** A record written over one that was as much slashed, or a new one that is not. *)
Lemma slashed_ejected_insert s s' i rec :
  validators s' = <[i := rec]> (validators s) → slashing s' = slashing s →
  (slashed rec = false ∨ ∃ old, validators s !! i = Some old ∧ slashed rec = slashed old) →
  slashed_ejected s → slashed_ejected s'.
Proof.
  unfold slashed_ejected. intros -> -> Hrec Hs. apply map_Forall_insert_2; [|done].
  destruct Hrec as [->|(old & Hold & ->)]; [done|]. by apply (Hs i).
Qed.

(** What no transaction touches: the chain position, finality, the fork choice, the
    rosters' frozen parts and the issuance. *)
Record frame s s' : Prop := {
  fr_slot : slot s' = slot s;
  fr_epoch : epoch s' = epoch s;
  fr_head : head s' = head s;
  fr_domain : admission_network_domain s' = admission_network_domain s;
  fr_mix : randao_mix s' = randao_mix s;
  fr_boundary : boundary_mixes s' = boundary_mixes s;
  fr_genesis_mix : genesis_mix s' = genesis_mix s;
  fr_cohort : genesis_cohort s' = genesis_cohort s;
  fr_principal : genesis_principal_sat s' = genesis_principal_sat s;
  fr_finality : finality_engine s' = finality_engine s;
  fr_pending_votes : pending_votes s' = pending_votes s;
  fr_latest : latest_messages s' = latest_messages s;
  fr_equivocators : fc_equivocators s' = fc_equivocators s;
  fr_recent : fc_recent_votes s' = fc_recent_votes s;
  fr_participation : current_participation s' = current_participation s;
  fr_validator_fees : validator_fee_rewards s' = validator_fee_rewards s;
  fr_issued : issued_sat s' = issued_sat s;
  fr_ejected : slashed_ejected s → slashed_ejected s';
}.

(** The frame of an update that writes one record: a new one that is not slashed, or one as
    much slashed as the record it replaces. *)
Ltac frame_record :=
  constructor; first [reflexivity|eapply slashed_ejected_insert; [reflexivity|reflexivity|first [by left|right; eexists; by split]]].

Lemma frame_trans s1 s2 s3 : frame s1 s2 → frame s2 s3 → frame s1 s3.
Proof. intros [] []. constructor; solve [congruence|auto]. Qed.

(** The amounts of the state are unsigned. *)
Definition nonneg (m : gmap Z Z) : Prop := map_Forall (λ _ x, 0 ≤ x) m.
Definition record_wf (r : ValidatorRecord) : Prop := 0 ≤ staked_sat r ∧ 0 ≤ commission_bps r.
Record amounts_wf s : Prop := {
  aw_records : map_Forall (λ _, record_wf) (validators s);
  aw_principal : nonneg (genesis_principal_sat s);
  aw_low : nonneg (stake_low_water s);
  aw_history : Forall (λ d, 0 ≤ Staking.q_amount_sat d) (deposit_history s);
  aw_delegations : Forall (λ d, 0 ≤ Delegation.amount_sat d) (delegations s);
  aw_window : nonneg (Slashing.window (slashing s));
  aw_pending : nonneg (pending_fee_rewards s);
  aw_losses : nonneg (delegator_slash_losses s);
  aw_delegator_fees : nonneg (delegator_fee_rewards s);
  aw_validator_fees : nonneg (validator_fee_rewards s);
  aw_issuance : nonneg (delegator_issuance_rewards s);
}.

Lemma nonneg_get0 m k : nonneg m → 0 ≤ get0 m k.
Proof. intros Hm. unfold get0. destruct (m !! k) eqn:E; [by apply (Hm k)|done]. Qed.

Lemma nonneg_insert m k x : nonneg m → 0 ≤ x → nonneg (<[k := x]> m).
Proof. intros. by apply map_Forall_insert_2. Qed.

Lemma nonneg_delete m k : nonneg m → nonneg (delete k m).
Proof. apply map_Forall_delete. Qed.

Lemma aw_staked s i r : amounts_wf s → validators s !! i = Some r → 0 ≤ staked_sat r.
Proof. intros Hwf Hr. apply (aw_records s Hwf i r Hr). Qed.

Lemma record_insert_wf s i r :
  map_Forall (λ _, record_wf) (validators s) → record_wf r → map_Forall (λ _, record_wf) (<[i := r]> (validators s)).
Proof. intros. by apply map_Forall_insert_2. Qed.

Lemma map_total_nonneg m : nonneg m → 0 ≤ map_total m.
Proof. intros Hm. apply map_sum_nonneg. intros k x Hx. by apply (Hm k). Qed.

(** The conservation check passes when the books grow by no more than what was issued and
    bonded. *)
Lemma supply_conserved_net pre post bonded :
  amounts_wf post → 0 ≤ bonded →
  net post ≤ net pre + Z.max 0 (issued_sat post - issued_sat pre) + bonded →
  supply_conserved pre post bonded ≠ Some false.
Proof.
  intros Hwf Hb Hn. pose proof (map_total_nonneg _ (aw_losses post Hwf)) as Hl. unfold supply_conserved.
  destruct (accounted_supply_sat pre) as [a|] eqn:Ea; [|done].
  destruct (accounted_supply_sat post) as [b|] eqn:Eb; [|done]. cbn.
  apply accounted_supply_net in Ea as (-> & ? & ?), Eb as (-> & ? & ?).
  intros [= Hlt]. apply Z.leb_gt in Hlt. unfold saturating_add, saturating_sub, net, burned in *. lia.
Qed.

(** A bonded total at its ceiling allows any supply that fits. *)
Lemma supply_conserved_saturated pre post bonded :
  amounts_wf post → u128_MAX ≤ bonded → supply_conserved pre post bonded ≠ Some false.
Proof.
  intros Hwf Hb. pose proof (map_total_nonneg _ (aw_losses post Hwf)) as Hl. unfold supply_conserved.
  destruct (accounted_supply_sat pre) as [a|] eqn:Ea; [|done].
  destruct (accounted_supply_sat post) as [b|] eqn:Eb; [|done]. cbn.
  apply accounted_supply_net in Ea as (-> & ? & ?), Eb as (-> & ? & ?).
  intros [= Hlt]. apply Z.leb_gt in Hlt. unfold saturating_add, saturating_sub, net, burned, u128_MAX in *. lia.
Qed.

(** Opens the balance sheet of a state given as updates of another. *)
Ltac sheet :=
  unfold net, held, burned, staked_total, delegated_total, escrow_total, is_withdrawn;
  cbn -[map_sum sumZ imap map_total].
Tactic Notation "sheet" "in" hyp(H) :=
  unfold net, held, burned, staked_total, delegated_total, escrow_total, is_withdrawn in H;
  cbn -[map_sum sumZ imap map_total] in H.

Lemma delegated_total_ext s s' :
  Delegation.amount_sat <$> delegations s' = Delegation.amount_sat <$> delegations s →
  (∀ i, is_withdrawn s' i = is_withdrawn s i) → delegated_total s' = delegated_total s.
Proof.
  intros Ha Hw. unfold delegated_total. f_equal.
  transitivity (imap (λ i a, if is_withdrawn s' i then 0 else a) (Delegation.amount_sat <$> delegations s')).
  { by rewrite imap_fmap. }
  rewrite Ha, imap_fmap. apply imap_ext. intros i d _. cbn. by rewrite Hw.
Qed.

Lemma delegated_total_snoc s s' d :
  delegations s' = delegations s ++ [d] → funded_delegation_lifecycle s' = funded_delegation_lifecycle s →
  0 ≤ Delegation.amount_sat d → delegated_total s' ≤ delegated_total s + Delegation.amount_sat d.
Proof.
  intros Hd Hl Ha. unfold delegated_total, is_withdrawn. rewrite Hd, Hl, imap_app, sumZ_app. cbn.
  set (b := match _ with Some _ => _ | None => _ end). destruct b; lia.
Qed.

(** Marking a position as withdrawn takes its amount off the books. *)
Lemma delegated_total_withdraw s s' position d x :
  0 ≤ position ≤ u32_MAX → delegations s !! Z.to_nat position = Some d →
  funded_delegation_lifecycle s !! position = Some (x, false) →
  Forall (λ d, 0 ≤ Delegation.amount_sat d) (delegations s) →
  delegations s' = delegations s →
  funded_delegation_lifecycle s' = <[position := (x, true)]> (funded_delegation_lifecycle s) →
  delegated_total s' ≤ delegated_total s - Delegation.amount_sat d.
Proof.
  intros Hp Hd Hl Hnn Eqd Eql. unfold delegated_total. rewrite Eqd.
  set (w' := is_withdrawn s'). set (w := is_withdrawn s).
  assert (∀ i, w i = true → w' i = true) as Hww.
  { intros i. subst w w'. unfold is_withdrawn. rewrite Eql.
    destruct (decide (position = Z.of_nat i `mod` 2 ^ 32)) as [<-|Hne];
      [by rewrite lookup_insert_eq|by rewrite lookup_insert_ne]. }
  assert (w (Z.to_nat position) = false ∧ w' (Z.to_nat position) = true) as [Hw Hw'].
  { subst w w'. unfold is_withdrawn, u32_MAX in *. rewrite Z2Nat.id, Z.mod_small by lia.
    by rewrite Eql, lookup_insert_eq, Hl. }
  clear Eqd Eql Hl. clearbody w w'. revert Hd Hw Hw' Hww. clear Hp.
  generalize (Z.to_nat position). revert w w'. induction Hnn as [|d0 ds Hd0 Hnn IH]; intros w w' i Hi Hw Hw' Hww; [done|].
  destruct i as [|i]; cbn in Hi |- *.
  - injection Hi as ->. rewrite Hw, Hw'.
    assert (sumZ (imap ((λ i d, if w' i then 0 else Delegation.amount_sat d) ∘ S) ds)
            ≤ sumZ (imap ((λ i d, if w i then 0 else Delegation.amount_sat d) ∘ S) ds)); [|lia].
    clear -Hnn Hww. revert w w' Hww. induction Hnn as [|d1 ds Hd1 Hnn IH]; intros w w' Hww; [done|]. cbn.
    specialize (IH (w ∘ S) (w' ∘ S) (λ i, Hww (S i))). specialize (Hww 1%nat).
    assert ((if w' 1%nat then 0 else Delegation.amount_sat d1) ≤ (if w 1%nat then 0 else Delegation.amount_sat d1)).
    { destruct (w 1%nat); [by rewrite Hww|]. destruct (w' 1%nat); lia. }
    apply Z.add_le_mono; [done|]. exact IH.
  - specialize (IH (w ∘ S) (w' ∘ S) i Hi Hw Hw' (λ j, Hww (S j))).
    assert ((if w' 0%nat then 0 else Delegation.amount_sat d0) ≤ (if w 0%nat then 0 else Delegation.amount_sat d0)).
    { specialize (Hww 0%nat). destruct (w 0%nat); [by rewrite Hww|]. destruct (w' 0%nat); lia. }
    change (imap ((λ i d, if w' i then 0 else Delegation.amount_sat d) ∘ S) ds) with
      (imap (λ i d, if (w' ∘ S) i then 0 else Delegation.amount_sat d) ds).
    change (imap ((λ i d, if w i then 0 else Delegation.amount_sat d) ∘ S) ds) with
      (imap (λ i d, if (w ∘ S) i then 0 else Delegation.amount_sat d) ds). lia.
Qed.

(** ** Genesis *)

Section genesis.
Context `{Sha3} {R : Rules}.

Definition genesis_record (v : GenesisValidator) : ValidatorRecord :=
  mkRecord (gv_index v) (gv_pubkey v) (gv_staked_sat v) (gv_randao_commitment v)
    (gv_withdrawal_credentials v) 0 u64_MAX u64_MAX false (gv_commission_bps v).

(** [sort_unstable] and [dedup] on a [Vec<u32>]. *)
Definition sorted_cohort (cohort : list Z) : list Z := ascending (list_to_set cohort).

Definition genesis_state (genesis_block genesis_mix : hash) (vs : list GenesisValidator) (cohort : list Z)
    (taint accumulator nullifier : hash) (evm : EvmCommitment) (opening : Utxo.EutxoSet) : CommittedState := {|
  admission_network_domain := None; slot := 0; epoch := 0; head := genesis_block;
  validators := insert_all gv_index genesis_record ∅ vs;
  reveals_used := insert_all gv_index (λ _, 0) ∅ vs;
  randao_mix := genesis_mix; boundary_mixes := ∅; State.genesis_mix := genesis_mix;
  genesis_cohort := sorted_cohort cohort;
  genesis_principal_sat := insert_all gv_index gv_staked_sat ∅ vs;
  written_off_sat := 0; funded_validators := ∅; stake_low_water := ∅; randao_generations := ∅;
  finality_engine := Finality.new (Types.mkCheckpoint 0 genesis_block);
  previous_justified := Types.mkCheckpoint 0 genesis_block;
  pending_votes := ∅; latest_messages := ∅; fc_equivocators := ∅; fc_recent_votes := ∅;
  current_participation := ∅; previous_participation := ∅; deposit_history := [];
  pubkey_index := insert_all (λ v, sha3_256 (gv_pubkey v)) gv_index ∅ vs;
  delegations := []; funded_delegation_owners := ∅; funded_delegation_lifecycle := ∅;
  pending_fee_rewards := ∅; slashing := Slashing.new; delegator_slash_losses := ∅;
  delegator_fee_rewards := ∅; validator_fee_rewards := ∅; delegator_issuance_rewards := ∅;
  current_proposed := ∅; base_fee_millisat_per_gas := FeeMarket.MIN_BASE_FEE_MILLISAT_PER_GAS;
  block_gas_used := 0; block_tx_bytes := 0; taint_root := taint;
  coherence_accumulator_root := accumulator; coherence_nullifier_root := nullifier;
  State.evm := evm; l2_settlement := None; pq_rescue_commits := ∅; kes := ∅; kes_enforced_from := None;
  issued_sat := Tokenomics.GENESIS_ISSUED_SAT; eutxos := opening;
|}.

Definition GENESIS_UNFUNDED_BONDED_CEILING_SAT : Z := 1600000 * Delegation.SAT_PER_BLOCH.

(** [None]: the assertion on the opening supply, or an overflow. *)
Definition genesis (genesis_block genesis_mix : hash) (vs : list GenesisValidator) (cohort : list Z)
    (taint accumulator nullifier : hash) (evm : EvmCommitment) (opening_balances : list Utxo.EutxoEntry)
    : option CommittedState :=
  opening ← Utxo.from_iter opening_balances;
  let st := genesis_state genesis_block genesis_mix vs cohort taint accumulator nullifier evm opening in
  roster ← duty_roster_at st 0;
  let st := st <| current_participation := insert_all Types.index (λ _, false) ∅ roster |> in
  accounted ← accounted_supply_sat st;
  let ceiling := saturating_add u128_MAX (issued_sat st) GENESIS_UNFUNDED_BONDED_CEILING_SAT in
  if accounted <=? ceiling then Some st else None.

Definition genesis_with_network_domain (domain genesis_block genesis_mix : hash) (vs : list GenesisValidator)
    (cohort : list Z) (taint accumulator nullifier : hash) (evm : EvmCommitment)
    (opening_balances : list Utxo.EutxoEntry) : option CommittedState :=
  (λ st, st <| admission_network_domain := Some domain |>) <$>
    genesis genesis_block genesis_mix vs cohort taint accumulator nullifier evm opening_balances.

Definition configure_l2_genesis {B : Settlement.Build} s (policy : Settlement.Policy)
    : result Settlement.Reject CommittedState :=
  if negb (slot s =? 0) || negb (epoch s =? 0) || bool_decide (is_Some (l2_settlement s))
     || negb (bool_decide (admission_network_domain s = Some (Settlement.identity policy 0)))
     || negb (head s =? Settlement.identity policy 1)
  then Err Settlement.RPolicy
  else l2 ← Settlement.genesis policy; Ok (s <| l2_settlement := Some l2 |>).

Definition configure_l2_genesis_async {B : Settlement.Build} s (policy : Settlement.Policy)
    : result Settlement.Reject CommittedState :=
  s ← configure_l2_genesis s policy;
  l2 ← Settlement.genesis_async policy;
  Ok (s <| l2_settlement := Some l2 |>).
End genesis.
End State.
