(* ===== verification/Transfer.v ===== *)
(** * Transfers

    Models the spending rules of [crates/bloch-pos-committee/src/transition.rs]
    ([apply_transfer], [apply_transfer_v2] with [plan_transfer_v2_with_context] and
    [ValidatedTransferV2::commit], [check_transfer_outputs], [spend_witness_verifies],
    [owns]) and the freeze of lattice keys of [transition/pq_migration.rs].

    A transaction returns the new state and its charge, is rejected, or panics.  A
    rejection leaves the block invalid, so the state at that point is not observed.  The
    context argument of the second form is only given by the DEX rehearsal build and is
    not modelled. *)

From S2P Require Import Prelude Bytes Params Signatures FeeMarket Codec Tx Smt Utxo State.
Local Open Scope Z_scope.

Module Transfer.
Import Bytes Params Signatures FeeMarket Codec Tx State.

Inductive TransferReject :=
| NoInputs | UnderdeclaredSize | OverdeclaredSize | TipAboveCeiling | TxGasCeilingExceeded
| DuplicateInput | UnknownInput | ScriptMismatch | BadSignature | MissingNetworkBinding
| ValueNotConserved | OutputExists | FormatNotActive | BadKeyIndex | DuplicateWitnessKey
| WitnessKeyUnused | WitnessTableNotCanonical | DustOutput | TooManyOutputs.

(** ** Keys and scripts *)

(** The last twelve bytes of a carried script are zero and the first twenty are those of
    the key hash. *)
Definition owns (key_hash script_hash : hash) : bool :=
  (key_hash =? script_hash)
  || ((script_hash `mod` 256 ^ 12 =? 0) && (key_hash / 256 ^ 12 =? script_hash / 256 ^ 12)).

Definition SLH_SUITE_PUBKEY_BYTES : Z := 4 + 32 + 1793.
Definition is_hash_based_key (pubkey : list Z) : bool :=
  bool_decide (key_suite pubkey = Some Signatures.SUITE_SLHDSA128S_FALCON1024)
  && (Z.of_nat (length pubkey) =? SLH_SUITE_PUBKEY_BYTES).

(** [check_lattice_spend_freeze], on the witness keys of the transfer. *)
Definition lattice_spend_frozen {R : Rules} (epoch : Z) (keys : list (list Z)) : bool :=
  lattice_emergency_active epoch && existsb (λ k, negb (is_hash_based_key k)) keys.

(** ** Checks shared by the two forms *)

Definition spend_witness_verifies {G : Gates} (v : SignatureVerifier) (epoch : Z) (pubkey : list Z)
    (root : hash) (signature : list Z) : bool :=
  if hf3_slh_suite_active epoch then verify_spend_at_epoch v pubkey root signature epoch
  else verify_with_key v pubkey root signature.

Definition check_transfer_outputs {R : Rules} (epoch : Z) (outputs : list TransferOutput)
    : outcome TransferReject unit :=
  if negb (dust_rule_active epoch) then Ret tt
  else
    require (length outputs <=? MAX_TRANSFER_OUTPUTS)%nat TooManyOutputs;;
    require (negb (existsb (λ o, out_value o <? MIN_TRANSFER_OUTPUT_SAT) outputs)) DustOutput.

(** [outputs.iter().map(|o| o.value as u128).sum()]; [None]: overflow. *)
Definition created_value (outputs : list TransferOutput) : option Z :=
  foldl (λ acc o, a ← acc; add_w u128_MAX a (out_value o)) (Some 0) outputs.

Definition output_exists (set : Utxo.EutxoSet) (id : hash) (outputs : list TransferOutput) : bool :=
  existsb (λ vout, Utxo.contains_key set (id, Z.of_nat vout))
    (seq 0 (Z.to_nat (Z.of_nat (length outputs) `mod` 2 ^ 32))).

Definition output_entries (id : hash) (outputs : list TransferOutput) : list Utxo.EutxoEntry :=
  imap (λ vout o, Utxo.mkEntry id (Z.of_nat vout `mod` 2 ^ 32) (out_value o) (out_script_hash o)) outputs.

(** Removing the inputs, then inserting the outputs. *)
Definition commit (set : Utxo.EutxoSet) `{Sha3} (inputs : list Utxo.Outpoint)
    (created : list Utxo.EutxoEntry) : option Utxo.EutxoSet :=
  set ← Utxo.remove_all set inputs; Utxo.insert_all set created.

(** [staking_tx_charge]: a metered transaction pays with block space only. *)
Definition staking_tx_charge {R : Rules} (epoch n_hybrid_sigs : Z) (canonical_len : nat) : TxCharge :=
  if negb (staking_tx_metering_active epoch) && negb (withdrawal_active epoch) then mkCharge 0 0 0 0
  else
    let tx_bytes := Z.of_nat canonical_len in
    mkCharge (intrinsic_gas (Eutxo n_hybrid_sigs) tx_bytes) tx_bytes 0 0.

Section apply.
Context `{Sha3} {G : Gates} {R : Rules}.
Implicit Types s : CommittedState.

(** ** The first form: a key and a signature per input *)

Definition input_outpoint (i : TransferInput) : Utxo.Outpoint := (ti_txid i, ti_vout i).

Fixpoint spend_inputs (set : Utxo.EutxoSet) (inputs : list TransferInput) (seen : gset Utxo.Outpoint)
    (spent : Z) : outcome TransferReject Z :=
  match inputs with
  | [] => Ret spent
  | i :: inputs =>
      let key := input_outpoint i in
      require (negb (bool_decide (key ∈ seen))) DuplicateInput;;
      entry ← or_rej (Utxo.get set key) UnknownInput;
      require (owns (sha3_256 (ti_pubkey i)) (Utxo.e_script_hash entry)) ScriptMismatch;;
      spent ← must (add_w u128_MAX spent (Utxo.e_value entry));
      spend_inputs set inputs ({[key]} ∪ seen) spent
  end.

Definition apply_transfer s (t : TransferTx) (base_fee : Z) (verifier : SignatureVerifier)
    : outcome TransferReject (CommittedState * TxCharge) :=
  let tx := Transfer t in
  require (negb (bool_decide (t_inputs t = []))) NoInputs;;
  let encoded_len := Z.of_nat (length (canonical_bytes tx)) in
  require (encoded_len <=? t_tx_bytes t) UnderdeclaredSize;;
  check_transfer_outputs (epoch s) (t_outputs t);;
  require (negb (tx_bytes_bound_active (epoch s)
                 && (saturating_add u64_MAX encoded_len TX_BYTES_DECLARE_SLACK <? t_tx_bytes t)))
    OverdeclaredSize;;
  let class := eutxo_class_for_keys (epoch s) (ti_pubkey <$> t_inputs t) in
  require (t_tip t <=? MAX_TIP_MILLISAT_PER_GAS) TipAboveCeiling;;
  require (intrinsic_gas class (t_tx_bytes t) <=? MAX_TX_GAS) TxGasCeilingExceeded;;
  spent ← spend_inputs (eutxos s) (t_inputs t) ∅ 0;
  let c := charge class (t_tx_bytes t) base_fee (t_tip t) in
  created ← must (created_value (t_outputs t));
  fee ← must (add_w u128_MAX (base_fee_sat c) (priority_fee_sat c));
  total ← must (add_w u128_MAX created fee);
  require (spent =? total) ValueNotConserved;;
  let id := txid tx in
  require (negb (output_exists (eutxos s) id (t_outputs t))) OutputExists;;
  root ← or_rej (checked_signing_root_for_network tx (epoch s) (admission_network_domain s))
           MissingNetworkBinding;
  require (forallb (λ i, spend_witness_verifies verifier (epoch s) (ti_pubkey i) root (ti_signature i))
             (t_inputs t)) BadSignature;;
  set ← must (commit (eutxos s) (input_outpoint <$> t_inputs t) (output_entries id (t_outputs t)));
  Ret (s <| eutxos := set |>, c).

(** ** The second form: a table of witness keys *)

(** [<[u8]>::cmp]. *)
Fixpoint bytes_cmp (a b : list Z) : comparison :=
  match a, b with
  | [], [] => Eq
  | [], _ => Lt
  | _, [] => Gt
  | x :: a, y :: b => match x ?= y with Eq => bytes_cmp a b | c => c end
  end.

Fixpoint check_key_table (keys : list WitnessKey) : outcome TransferReject unit :=
  match keys with
  | k :: (k' :: _) as keys' =>
      match bytes_cmp (wk_pubkey k) (wk_pubkey k') with
      | Eq => Rej DuplicateWitnessKey
      | Gt => Rej WitnessTableNotCanonical
      | Lt => check_key_table keys'
      end
  | _ => Ret tt
  end.

Definition input_v2_outpoint (i : TransferInputV2) : Utxo.Outpoint := (ti2_txid i, ti2_vout i).

Fixpoint spend_inputs_v2 (set : Utxo.EutxoSet) (key_hashes : list hash) (inputs : list TransferInputV2)
    (seen : gset Utxo.Outpoint) (key_used : list bool) (spent : Z) : outcome TransferReject (list bool * Z) :=
  match inputs with
  | [] => Ret (key_used, spent)
  | i :: inputs =>
      let key := input_v2_outpoint i in
      require (negb (bool_decide (key ∈ seen))) DuplicateInput;;
      entry ← or_rej (Utxo.get set key) UnknownInput;
      key_hash ← or_rej (key_hashes !! Z.to_nat (key_index i)) BadKeyIndex;
      require (owns key_hash (Utxo.e_script_hash entry)) ScriptMismatch;;
      spent ← must (add_w u128_MAX spent (Utxo.e_value entry));
      spend_inputs_v2 set key_hashes inputs ({[key]} ∪ seen) (<[Z.to_nat (key_index i) := true]> key_used) spent
  end.

Definition apply_transfer_v2 s (t : TransferV2Tx) (base_fee : Z) (verifier : SignatureVerifier)
    : outcome TransferReject (CommittedState * TxCharge) :=
  let tx := TransferV2 t in
  require (negb (bool_decide (t2_inputs t = []))) NoInputs;;
  let encoded_len := Z.of_nat (length (canonical_bytes tx)) in
  require (encoded_len <=? t2_tx_bytes t) UnderdeclaredSize;;
  check_transfer_outputs (epoch s) (t2_outputs t);;
  require (negb (tx_bytes_bound_active (epoch s)
                 && (saturating_add u64_MAX encoded_len TX_BYTES_DECLARE_SLACK <? t2_tx_bytes t)))
    OverdeclaredSize;;
  let class := eutxo_class_for_keys (epoch s) (wk_pubkey <$> t2_keys t) in
  require (t2_tip t <=? MAX_TIP_MILLISAT_PER_GAS) TipAboveCeiling;;
  require (intrinsic_gas class (t2_tx_bytes t) <=? MAX_TX_GAS) TxGasCeilingExceeded;;
  check_key_table (t2_keys t);;
  let key_hashes := (λ k, sha3_256 (wk_pubkey k)) <$> t2_keys t in
  '(key_used, spent) ← spend_inputs_v2 (eutxos s) key_hashes (t2_inputs t) ∅
                         (replicate (length (t2_keys t)) false) 0;
  require (forallb id key_used) WitnessKeyUnused;;
  let c := charge class (t2_tx_bytes t) base_fee (t2_tip t) in
  created ← must (created_value (t2_outputs t));
  fee ← must (add_w u128_MAX (base_fee_sat c) (priority_fee_sat c));
  total ← must (add_w u128_MAX created fee);
  require (spent =? total) ValueNotConserved;;
  let id := txid tx in
  require (negb (output_exists (eutxos s) id (t2_outputs t))) OutputExists;;
  root ← or_rej (checked_signing_root_for_network tx (epoch s) (admission_network_domain s))
           MissingNetworkBinding;
  require (forallb (λ k, spend_witness_verifies verifier (epoch s) (wk_pubkey k) root (wk_signature k))
             (t2_keys t)) BadSignature;;
  set ← must (commit (eutxos s) (input_v2_outpoint <$> t2_inputs t) (output_entries id (t2_outputs t)));
  Ret (s <| eutxos := set |>, c).
End apply.

(** ** What a spend does *)

(** The inputs leave the set, the outputs enter it, nothing else of the state changes, and
    the value that leaves the set is the fee. *)
Record spends `{Sha3} (s s' : CommittedState) (c : TxCharge) (ins : list Utxo.Outpoint)
    (outs : list Utxo.EutxoEntry) : Prop := {
  sp_same : s' = s <| eutxos := eutxos s' |>;
  sp_nodup : NoDup ins;
  sp_known : ∀ o, o ∈ ins → is_Some (Utxo.get (eutxos s) o);
  sp_fresh : ∀ e, e ∈ outs → Utxo.get (eutxos s) (Utxo.outpoint e) = None;
  sp_spent : ∀ o, o ∈ ins → Utxo.get (eutxos s') o = None;
  sp_created : ∀ e, e ∈ outs → Utxo.get (eutxos s') (Utxo.outpoint e) = Some e;
  sp_others : ∀ o, o ∉ ins → o ∉ Utxo.outpoint <$> outs → Utxo.get (eutxos s') o = Utxo.get (eutxos s) o;
  sp_value : sumZ (Utxo.value_at (eutxos s) <$> ins)
             = sumZ (Utxo.e_value <$> outs) + base_fee_sat c + priority_fee_sat c;
  sp_total : Utxo.total_sat (eutxos s') + base_fee_sat c + priority_fee_sat c = Utxo.total_sat (eutxos s);
}.

Section effects.
Context `{Sha3} {G : Gates} {R : Rules}.
Implicit Types s : CommittedState.

(** The fees of a charge. *)
Definition fees_of (c : TxCharge) : Z := base_fee_sat c + priority_fee_sat c.

Lemma fees_staking ep n len : fees_of (staking_tx_charge ep n len) = 0.
Proof. unfold fees_of, staking_tx_charge. by case_match. Qed.

Lemma spends_net s s' c ins outs : spends s s' c ins outs → frame s s' ∧ net s' = net s - fees_of c.
Proof.
  intros Hs. pose proof (sp_total s s' c ins outs Hs) as Ht. rewrite (sp_same s s' c ins outs Hs).
  split; [by constructor|]. unfold fees_of. sheet. lia.
Qed.

Lemma contains_key_false set o : Utxo.contains_key set o = false ↔ Utxo.get set o = None.
Proof.
  unfold Utxo.contains_key, Utxo.get. rewrite bool_decide_eq_false. by rewrite eq_None_not_Some.
Qed.

Lemma commit_Some set set' ins outs :
  commit set ins outs = Some set' → NoDup ins → NoDup (Utxo.outpoint <$> outs) →
  (∀ o, o ∈ ins → is_Some (Utxo.get set o)) → (∀ e, e ∈ outs → Utxo.get set (Utxo.outpoint e) = None) →
  (∀ o, o ∈ ins → Utxo.get set' o = None) ∧
  (∀ e, e ∈ outs → Utxo.get set' (Utxo.outpoint e) = Some e) ∧
  (∀ o, o ∉ ins → o ∉ Utxo.outpoint <$> outs → Utxo.get set' o = Utxo.get set o) ∧
  Utxo.total_sat set' = Utxo.total_sat set - sumZ (Utxo.value_at set <$> ins) + sumZ (Utxo.e_value <$> outs).
Proof.
  unfold commit. intros E Hins Houts Hin Hout. apply bind_Some in E as (set1 & E1 & E2).
  apply Utxo.remove_all_Some in E1 as [He1 Ht1]; [|done].
  apply Utxo.insert_all_Some in E2 as (Hi & Ho & Ht2); [|done|].
  2:{ intros e He. rewrite He1. case_decide; [done|]. by apply Hout. }
  unfold Utxo.get in *. split; [|split; [|split]].
  - intros o Ho'. rewrite Ho; [by rewrite He1, decide_True|].
    intros (e & -> & He)%list_elem_of_fmap. apply Hout in He. destruct (Hin _ Ho'). congruence.
  - done.
  - intros o Ho1 Ho2. by rewrite Ho, He1, decide_False.
  - lia.
Qed.

Lemma created_value_Some outputs acc v :
  foldl (λ acc o, a ← acc; add_w u128_MAX a (out_value o)) (Some acc) outputs = Some v →
  v = acc + sumZ (out_value <$> outputs).
Proof.
  revert acc. induction outputs as [|o os IH]; intros acc E; cbn [foldl] in E; [injection E as <-; cbn; lia|].
  cbn [mbind option_bind] in E. destruct (add_w u128_MAX acc (out_value o)) as [a|] eqn:Ea.
  - apply add_w_Some in Ea as [_ ->]. apply IH in E. csimpl. lia.
  - exfalso. revert E. clear. induction os; naive_solver.
Qed.

Lemma output_entries_value id outputs :
  sumZ (Utxo.e_value <$> output_entries id outputs) = sumZ (out_value <$> outputs).
Proof.
  unfold output_entries. rewrite fmap_imap. f_equal. apply list_eq. intros i.
  rewrite list_lookup_imap, list_lookup_fmap. by destruct (outputs !! i).
Qed.

Lemma output_entries_lookup id outputs i e :
  Z.of_nat (length outputs) < 2 ^ 32 → output_entries id outputs !! i = Some e →
  ∃ o, outputs !! i = Some o ∧ e = Utxo.mkEntry id (Z.of_nat i) (out_value o) (out_script_hash o).
Proof.
  intros Hl He. unfold output_entries in He. rewrite list_lookup_imap in He.
  apply fmap_Some in He as (o & Ho & ->). exists o. split; [done|].
  apply lookup_lt_Some in Ho. rewrite Z.mod_small by lia. done.
Qed.

Lemma output_entries_fresh set id outputs :
  Z.of_nat (length outputs) < 2 ^ 32 → output_exists set id outputs = false →
  NoDup (Utxo.outpoint <$> output_entries id outputs) ∧
  ∀ e, e ∈ output_entries id outputs → Utxo.get set (Utxo.outpoint e) = None.
Proof.
  intros Hl Hex. split.
  - apply NoDup_alt. intros i j x. rewrite !list_lookup_fmap.
    intros (e & He & ->)%fmap_Some (e' & He' & Eq)%fmap_Some.
    apply output_entries_lookup in He as (o & Ho & ->); [|done].
    apply output_entries_lookup in He' as (o' & Ho' & ->); [|done].
    injection Eq as Eq. lia.
  - intros e [i He]%list_elem_of_lookup. apply output_entries_lookup in He as (o & Ho & ->); [|done].
    unfold output_exists in Hex. rewrite Z.mod_small, Nat2Z.id in Hex by lia.
    apply contains_key_false. apply not_true_iff_false. intros Hc. apply not_true_iff_false in Hex.
    apply Hex, existsb_exists. exists i. split; [|done].
    apply in_seq. apply lookup_lt_Some in Ho. lia.
Qed.

Lemma owned_entry (set : Utxo.EutxoSet) o e : Utxo.get set o = Some e → Utxo.value_at set o = Utxo.e_value e.
Proof. unfold Utxo.value_at. by intros ->. Qed.

Lemma not_seen (o k : Utxo.Outpoint) (seen : gset Utxo.Outpoint) : o ∉ {[k]} ∪ seen → o ≠ k ∧ o ∉ seen.
Proof. set_solver. Qed.

Lemma spend_inputs_Ret set inputs seen spent v :
  spend_inputs set inputs seen spent = Ret v →
  NoDup (input_outpoint <$> inputs) ∧ (∀ i, i ∈ inputs → input_outpoint i ∉ seen) ∧
  v = spent + sumZ (Utxo.value_at set <$> (input_outpoint <$> inputs)) ∧
  (∀ i, i ∈ inputs → ∃ e, Utxo.get set (input_outpoint i) = Some e ∧
     owns (sha3_256 (ti_pubkey i)) (Utxo.e_script_hash e) = true).
Proof.
  revert seen spent. induction inputs as [|i inputs IH]; intros seen spent E.
  { injection E as <-. csimpl. split; [constructor|]. split; [set_solver|]. split; [lia|set_solver]. }
  cbn [spend_inputs] in E. outcome_inv E. boolp. apply add_w_Some in Hx2 as [_ ->].
  destruct (IH _ _ E) as (Hnd & Hseen & -> & Hown). csimpl. split; [|split; [|split]].
  - constructor; [|done]. intros (j & Ej & Hj)%list_elem_of_fmap. apply Hseen, not_seen in Hj as [Hj _]. congruence.
  - intros j [->|Hj]%elem_of_cons; [done|]. by apply Hseen, not_seen in Hj as [_ Hj].
  - rewrite (owned_entry _ _ _ Hx0). lia.
  - intros j [->|Hj]%elem_of_cons; [eauto|]. by apply Hown.
Qed.

Lemma spend_inputs_v2_Ret set hashes inputs seen used spent used' v :
  spend_inputs_v2 set hashes inputs seen used spent = Ret (used', v) →
  NoDup (input_v2_outpoint <$> inputs) ∧ (∀ i, i ∈ inputs → input_v2_outpoint i ∉ seen) ∧
  v = spent + sumZ (Utxo.value_at set <$> (input_v2_outpoint <$> inputs)) ∧
  (∀ i, i ∈ inputs → ∃ e h, Utxo.get set (input_v2_outpoint i) = Some e ∧
     hashes !! Z.to_nat (key_index i) = Some h ∧ owns h (Utxo.e_script_hash e) = true).
Proof.
  revert seen used spent. induction inputs as [|i inputs IH]; intros seen used spent E.
  { injection E as <- <-. csimpl. split; [constructor|]. split; [set_solver|]. split; [lia|set_solver]. }
  cbn [spend_inputs_v2] in E. outcome_inv E. boolp. apply add_w_Some in Hx3 as [_ ->].
  destruct (IH _ _ _ E) as (Hnd & Hseen & -> & Hown). csimpl. split; [|split; [|split]].
  - constructor; [|done]. intros (j & Ej & Hj)%list_elem_of_fmap. apply Hseen, not_seen in Hj as [Hj _]. congruence.
  - intros j [->|Hj]%elem_of_cons; [done|]. by apply Hseen, not_seen in Hj as [_ Hj].
  - rewrite (owned_entry _ _ _ Hx0). lia.
  - intros j [->|Hj]%elem_of_cons; [eauto|]. by apply Hown.
Qed.

(** A transfer that fits the gas ceiling has fewer than 2^32 outputs. *)
Lemma count_suites_nonneg keys a b :
  0 ≤ a → 0 ≤ b → 0 ≤ (count_suites keys a b).1 ∧ 0 ≤ (count_suites keys a b).2.
Proof.
  revert a b. induction keys as [|k keys IH]; intros a b Ha Hb; [done|]. cbn.
  destruct (verify_suite_of k); apply IH; unfold saturating_add, u32_MAX; lia.
Qed.

Lemma keys_gas_nonneg ep keys : 0 ≤ verify_gas (eutxo_class_for_keys ep keys).
Proof.
  unfold eutxo_class_for_keys, eutxo_class_for_keys_with.
  pose proof (count_suites_nonneg keys 0 0 ltac:(lia) ltac:(lia)) as [Ha Hb].
  destruct (count_suites keys 0 0) as [a b]. cbn in Ha, Hb.
  assert (0 ≤ SLHDSA_FALCON_VERIFY_GAS) by done. assert (0 ≤ HYBRID_VERIFY_GAS) by done.
  case_match; unfold verify_gas, saturating_add, saturating_mul, u64_MAX, u32_MAX; nia.
Qed.

Lemma gas_bounds_size class bytes :
  0 ≤ verify_gas class → intrinsic_gas class bytes ≤ MAX_TX_GAS → bytes < 2 ^ 23.
Proof.
  intros Hv. unfold intrinsic_gas, MAX_TX_GAS, BLOCK_GAS_LIMIT, saturating_add, saturating_mul, TX_FLAT_GAS,
    GAS_PER_BYTE, u64_MAX. lia.
Qed.

Lemma length_put_vec {A} (enc : A → list Z) l :
  (∀ x, x ∈ l → (1 ≤ length (enc x))%nat) → (length l ≤ length (put_vec enc l))%nat.
Proof.
  intros Hl. unfold put_vec. rewrite length_app.
  assert (length l ≤ length (l ≫= enc))%nat; [|lia].
  induction l as [|x l IH]; [done|]. rewrite bind_cons, length_app. cbn.
  pose proof (Hl x ltac:(set_solver)). pose proof (IH ltac:(set_solver)). lia.
Qed.

Lemma length_enc_output o : (1 ≤ length (enc_output o))%nat.
Proof. unfold enc_output. rewrite length_app, length_le_bytes. lia. Qed.

Lemma transfer_outputs_bound t :
  Z.of_nat (length (canonical_bytes (Transfer t))) ≤ t_tx_bytes t → t_tx_bytes t < 2 ^ 23 →
  Z.of_nat (length (t_outputs t)) < 2 ^ 32.
Proof.
  intros Hl Hb. cbn [canonical_bytes length] in Hl. unfold enc_transfer in Hl. rewrite !length_app in Hl.
  pose proof (length_put_vec enc_output (t_outputs t) (λ o _, length_enc_output o)). lia.
Qed.

Lemma transfer_v2_outputs_bound t :
  Z.of_nat (length (canonical_bytes (TransferV2 t))) ≤ t2_tx_bytes t → t2_tx_bytes t < 2 ^ 23 →
  Z.of_nat (length (t2_outputs t)) < 2 ^ 32.
Proof.
  intros Hl Hb. cbn [canonical_bytes length] in Hl. unfold enc_transfer_v2 in Hl. rewrite !length_app in Hl.
  pose proof (length_put_vec enc_output (t2_outputs t) (λ o _, length_enc_output o)). lia.
Qed.

(** The common end of the two forms. *)
Lemma commit_spends s set ins id outputs c created fee total :
  commit (eutxos s) ins (output_entries id outputs) = Some set →
  NoDup ins → (∀ o, o ∈ ins → is_Some (Utxo.get (eutxos s) o)) →
  Z.of_nat (length outputs) < 2 ^ 32 → output_exists (eutxos s) id outputs = false →
  created_value outputs = Some created → add_w u128_MAX (base_fee_sat c) (priority_fee_sat c) = Some fee →
  add_w u128_MAX created fee = Some total → sumZ (Utxo.value_at (eutxos s) <$> ins) = total →
  spends s (s <| eutxos := set |>) c ins (output_entries id outputs).
Proof.
  intros E Hnd Hin Hl Hex Hc [_ ->]%add_w_Some [_ ->]%add_w_Some Hv.
  apply created_value_Some in Hc. destruct (output_entries_fresh (eutxos s) id outputs Hl Hex) as [Hnd' Hfr].
  destruct (commit_Some _ _ _ _ E Hnd Hnd' Hin Hfr) as (H1 & H2 & H3 & H4).
  rewrite output_entries_value in H4.
  constructor; try done; cbn [eutxos setter]; rewrite ?output_entries_value; lia.
Qed.

Lemma apply_transfer_Ret s t base verifier s' c :
  apply_transfer s t base verifier = Ret (s', c) →
  spends s s' c (input_outpoint <$> t_inputs t) (output_entries (txid (Transfer t)) (t_outputs t)) ∧
  c = charge (eutxo_class_for_keys (epoch s) (ti_pubkey <$> t_inputs t)) (t_tx_bytes t) base (t_tip t) ∧
  ∃ root, checked_signing_root_for_network (Transfer t) (epoch s) (admission_network_domain s) = Some root ∧
  ∀ i, i ∈ t_inputs t → ∃ e, Utxo.get (eutxos s) (input_outpoint i) = Some e ∧
    owns (sha3_256 (ti_pubkey i)) (Utxo.e_script_hash e) = true ∧
    spend_witness_verifies verifier (epoch s) (ti_pubkey i) root (ti_signature i) = true.
Proof.
  unfold apply_transfer. intros E. outcome_inv E. injection E as <- <-. boolp. subst.
  rename select (spend_inputs _ _ _ _ = _) into Hsp. rename select (intrinsic_gas _ _ ≤ _) into Hgas.
  rename select (forallb _ _ = true) into Hsig.
  apply spend_inputs_Ret in Hsp as (Hnd & _ & Hv & Hown). rewrite Z.add_0_l in Hv.
  apply gas_bounds_size in Hgas; [|apply keys_gas_nonneg]. split; [|split; [done|]].
  - eapply commit_spends; try done.
    + intros o (i & -> & Hi)%list_elem_of_fmap. destruct (Hown i Hi) as (e & ? & _). eauto.
    + by apply transfer_outputs_bound.
  - eexists. split; [done|]. intros i Hi. destruct (Hown i Hi) as (e & He & Ho). exists e.
    rewrite forallb_forall in Hsig. split; [done|]. split; [done|]. apply Hsig. by apply list_elem_of_In.
Qed.

Lemma apply_transfer_v2_Ret s t base verifier s' c :
  apply_transfer_v2 s t base verifier = Ret (s', c) →
  spends s s' c (input_v2_outpoint <$> t2_inputs t) (output_entries (txid (TransferV2 t)) (t2_outputs t)) ∧
  c = charge (eutxo_class_for_keys (epoch s) (wk_pubkey <$> t2_keys t)) (t2_tx_bytes t) base (t2_tip t) ∧
  ∃ root, checked_signing_root_for_network (TransferV2 t) (epoch s) (admission_network_domain s) = Some root ∧
  ∀ i, i ∈ t2_inputs t → ∃ e k, Utxo.get (eutxos s) (input_v2_outpoint i) = Some e ∧
    t2_keys t !! Z.to_nat (key_index i) = Some k ∧
    owns (sha3_256 (wk_pubkey k)) (Utxo.e_script_hash e) = true ∧
    spend_witness_verifies verifier (epoch s) (wk_pubkey k) root (wk_signature k) = true.
Proof.
  unfold apply_transfer_v2. intros E. outcome_inv E. injection E as <- <-. boolp. subst.
  rename select (spend_inputs_v2 _ _ _ _ _ _ = _) into Hsp. rename select (intrinsic_gas _ _ ≤ _) into Hgas.
  rename select (forallb (λ k, spend_witness_verifies _ _ _ _ _) _ = true) into Hsig.
  apply spend_inputs_v2_Ret in Hsp as (Hnd & _ & Hv & Hown). rewrite Z.add_0_l in Hv.
  apply gas_bounds_size in Hgas; [|apply keys_gas_nonneg]. split; [|split; [done|]].
  - eapply commit_spends; try done.
    + intros o (i & -> & Hi)%list_elem_of_fmap. destruct (Hown i Hi) as (e & h & ? & _). eauto.
    + by apply transfer_v2_outputs_bound.
  - eexists. split; [done|]. intros i Hi. destruct (Hown i Hi) as (e & h & He & Hk & Ho).
    rewrite list_lookup_fmap in Hk. apply fmap_Some in Hk as (k & Hk & ->). exists e, k.
    rewrite forallb_forall in Hsig. repeat (split; [done|]). apply Hsig. apply list_elem_of_In.
    by eapply list_elem_of_lookup_2.
Qed.

(** C9: An accepted transfer of either form moves value and nothing else. Its inputs are
    pairwise different outputs of the set, each spent by a key that hashes to its script
    and whose signature verifies on the root of this transfer, bound to this network when
    the rule is active. The inputs leave the set, the outputs enter it under the
    transaction id where nothing was before, every other output and every other field of
    the state is unchanged, and the value spent is the value created plus the fee, to the
    satoshi. *)
Theorem transfers_conserve_value s base verifier s' c :
  (∀ t, apply_transfer s t base verifier = Ret (s', c) →
     spends s s' c (input_outpoint <$> t_inputs t) (output_entries (txid (Transfer t)) (t_outputs t)) ∧
     ∃ root, checked_signing_root_for_network (Transfer t) (epoch s) (admission_network_domain s) = Some root ∧
     ∀ i, i ∈ t_inputs t → ∃ e, Utxo.get (eutxos s) (input_outpoint i) = Some e ∧
       owns (sha3_256 (ti_pubkey i)) (Utxo.e_script_hash e) = true ∧
       spend_witness_verifies verifier (epoch s) (ti_pubkey i) root (ti_signature i) = true) ∧
  (∀ t, apply_transfer_v2 s t base verifier = Ret (s', c) →
     spends s s' c (input_v2_outpoint <$> t2_inputs t)
       (output_entries (txid (TransferV2 t)) (t2_outputs t)) ∧
     ∃ root, checked_signing_root_for_network (TransferV2 t) (epoch s) (admission_network_domain s) = Some root ∧
     ∀ i, i ∈ t2_inputs t → ∃ e k, Utxo.get (eutxos s) (input_v2_outpoint i) = Some e ∧
       t2_keys t !! Z.to_nat (key_index i) = Some k ∧
       owns (sha3_256 (wk_pubkey k)) (Utxo.e_script_hash e) = true ∧
       spend_witness_verifies verifier (epoch s) (wk_pubkey k) root (wk_signature k) = true).
Proof.
  split.
  - intros t E. by apply apply_transfer_Ret in E as (? & _ & ?).
  - intros t E. by apply apply_transfer_v2_Ret in E as (? & _ & ?).
Qed.
End effects.

(** ** A transfer *)

Definition ex_sha : Sha3 := λ _, 7.
Definition ex_verifier : SignatureVerifier := default_verifier (λ _ _ _, true) (λ _ _ _ _, false).
Definition ex_output : Utxo.EutxoEntry := Utxo.mkEntry 1 0 5000 7.
Definition ex_set : Utxo.EutxoSet :=
  default (Utxo.mkSet (Utxo.mkMaps ∅ ∅) Smt.Smt.new 0) (@Utxo.from_iter ex_sha [ex_output]).
Definition ex_state : CommittedState :=
  @genesis_state ex_sha 9 9 [] [] 0 0 0 (mkEvm 0 0 0 0) ex_set.
Definition ex_transfer : TransferTx := mkTransfer [mkInput 1 0 [1; 2] [3]] [mkOutput 4190 8] 200 0.
Definition ex_post : CommittedState :=
  match @apply_transfer ex_sha mainnet mainnet_rules ex_state ex_transfer 10 ex_verifier with
  | Ret (s, _) => s
  | _ => ex_state
  end.

Lemma transfers_conserve_value_witness :
  @spends ex_sha ex_state ex_post (mkCharge 80948 200 810 0) [(1, 0)] [Utxo.mkEntry 7 0 4190 8].
Proof.
  refine (proj1 (proj1 (@transfers_conserve_value ex_sha mainnet mainnet_rules ex_state 10 ex_verifier ex_post
                          (mkCharge 80948 200 810 0)) ex_transfer _)).
  vm_compute. reflexivity.
Defined.
End Transfer.
