(* ===== verification/Funded.v ===== *)
(** * Funded deposits and delegations

    Models [crates/bloch-pos-committee/src/transition/funded.rs] and
    [transition/funded_delegation.rs]: admitting a validator or a delegation that is paid
    for with unspent outputs, undelegating, withdrawing a delegation and changing a
    commission. *)

From S2P Require Import Prelude Bytes Params Types Signatures Delegation Staking Tokenomics Rewards FeeMarket.
From S2P Require Import Tx Utxo State Transfer.
Local Open Scope Z_scope.

Module Funded.
Import Bytes Params Signatures FeeMarket Tx State Transfer.

Definition HYBRID_HEADER : list Z := [0xb1; 0x0c; 1; 0].
Definition MAX_VALIDATOR_REGISTRY_ENTRIES : nat := 4096.

Inductive FundedDepositReject :=
| FdNotActive | FdNetwork | FdExpired | FdShape | FdSignature | FdStake | FdAlreadyRegistered
| FdRegistryCapacity | FdMissingInput | FdOwnership | FdFeeCap | FdConservation | FdOutputCollision
| FdRegistryFull | FdArithmetic.

Inductive FundedDelegationReject :=
| FlNotActive | FlNetwork | FlExpired | FlEpoch | FlShape | FlSignature | FlValidator | FlPosition
| FlOwnership | FlStake | FlDelegationLimit | FlMissingInput | FlFeeCap | FlConservation
| FlOutputCollision | FlAlreadyDeactivating | FlNotInactive | FlWithdrawalDelay | FlAlreadyWithdrawn
| FlCommission | FlCommissionIncreaseWithDelegations | FlArithmetic.

(** ** Shapes *)

Definition starts_with (header l : list Z) : bool := bool_decide (take (length header) l = header).
Definition zlength {A} (l : list A) : Z := Z.of_nat (length l).

Definition key_has_shape (key : list Z) : bool :=
  (zlength key =? ADMISSION_PQ_KEY_BYTES) && starts_with HYBRID_HEADER key.
Definition signature_has_shape (signature : list Z) : bool :=
  (3313 <? zlength signature) && (zlength signature <=? ADMISSION_PQ_SIGNATURE_MAX)
  && starts_with HYBRID_HEADER signature.

(** The derived order of [FundingInput]. *)
Definition funding_ltb (a b : FundingInput) : bool :=
  (fi_txid a <? fi_txid b) || ((fi_txid a =? fi_txid b) && (fi_vout a <? fi_vout b)).
Definition inputs_sorted (inputs : list FundingInput) : bool := windows_all funding_ltb inputs.

Definition base_fee_in_range (f : Z) : bool :=
  (MIN_BASE_FEE_MILLISAT_PER_GAS <=? f) && (f <=? MAX_BASE_FEE_MILLISAT_PER_GAS).

Definition funding_outpoint (i : FundingInput) : Utxo.Outpoint := (fi_txid i, fi_vout i).

(** The loop over funding inputs, with the rejections and the ownership test of the
    transaction that runs it. *)
Fixpoint fund_inputs {E} (missing ownership arithmetic : E) (owned : hash → bool) (set : Utxo.EutxoSet)
    (inputs : list FundingInput) (spent : Z) : outcome E Z :=
  match inputs with
  | [] => Ret spent
  | i :: inputs =>
      utxo ← or_rej (Utxo.get set (funding_outpoint i)) missing;
      require (owned (Utxo.e_script_hash utxo)) ownership;;
      spent ← or_rej (checked_add u128_MAX spent (Utxo.e_value utxo)) arithmetic;
      fund_inputs missing ownership arithmetic owned set inputs spent
  end.

(** [self.validators.keys().next_back()]. *)
Definition last_key {V} (m : gmap Z V) : option Z := last (ascending (dom m)).

(** ** Funded deposits *)

Definition FD_CLASS : TxClass := Eutxo 2.

Definition fd_reserved_tx_bytes (tx : FundedDeposit) : Z :=
  saturating_add u64_MAX (saturating_add u64_MAX (zlength (fd_intent tx)) 8)
    (saturating_mul u64_MAX ADMISSION_PQ_SIGNATURE_MAX 2).

Definition fd_validate_shape (tx : FundedDeposit) : bool :=
  key_has_shape (fd_funding_pubkey tx) && key_has_shape (fd_validator_pubkey tx)
  && negb (bool_decide (fd_inputs tx = [])) && (zlength (fd_inputs tx) <=? MAX_FUNDING_INPUTS)
  && inputs_sorted (fd_inputs tx) && (fd_commission_bps tx <=? Rewards.MAX_COMMISSION_BPS)
  && (Staking.MIN_DEPOSIT_SAT <=? fd_amount_sat tx) && (fd_amount_sat tx <=? Tokenomics.TOTAL_SUPPLY_SAT)
  && negb (fd_randao_commitment tx =? 0) && negb (fd_withdrawal_credentials tx =? 0)
  && (MIN_TRANSFER_OUTPUT_SAT <=? out_value (fd_change tx)) && base_fee_in_range (fd_max_base_fee tx)
  && (fd_tip tx <=? MAX_TIP_MILLISAT_PER_GAS) && (fd_tx_bytes tx =? fd_reserved_tx_bytes tx)
  && (intrinsic_gas FD_CLASS (fd_tx_bytes tx) <=? MAX_TX_GAS)
  && (zlength (fd_funding_signature tx) <=? ADMISSION_PQ_SIGNATURE_MAX)
  && (zlength (fd_proof_of_possession tx) <=? ADMISSION_PQ_SIGNATURE_MAX).

Definition fd_charge (tx : FundedDeposit) (base_fee : Z) : TxCharge :=
  charge FD_CLASS (fd_tx_bytes tx) base_fee (fd_tip tx).

Definition fd_required_funding_sat (tx : FundedDeposit) : option Z :=
  let c := fd_charge tx (fd_max_base_fee tx) in
  x ← checked_add u128_MAX (fd_amount_sat tx) (out_value (fd_change tx));
  x ← checked_add u128_MAX x (base_fee_sat c);
  checked_add u128_MAX x (priority_fee_sat c).

Section apply.
Context `{Sha3} {G : Gates} {R : Rules}.
Implicit Types s : CommittedState.

Definition fd_verify_authorizations (tx : FundedDeposit) (v : SignatureVerifier)
    : outcome FundedDepositReject unit :=
  require (fd_validate_shape tx) FdShape;;
  let signature_ok sig := (3313 <? zlength sig) && starts_with HYBRID_HEADER sig in
  require (signature_ok (fd_funding_signature tx) && signature_ok (fd_proof_of_possession tx)
           && verify_with_key v (fd_funding_pubkey tx) (funding_root tx) (fd_funding_signature tx)
           && verify_with_key v (fd_validator_pubkey tx) (possession_root tx) (fd_proof_of_possession tx))
    FdSignature.

(** The charge, the validator's index, the hash of its key, the transaction id and the
    value of the change. *)
Definition validate_funded_deposit s (tx : FundedDeposit) (total_active base_fee : Z) (v : SignatureVerifier)
    : outcome FundedDepositReject (TxCharge * Z * hash * hash * Z) :=
  require (funded_validator_admission_active (epoch s)) FdNotActive;;
  require (negb (activation_queue_v2_active (epoch s)
                 && (MAX_VALIDATOR_REGISTRY_ENTRIES <=? size (validators s))%nat)) FdRegistryCapacity;;
  require (fd_validate_shape tx) FdShape;;
  require (bool_decide (admission_network_domain s = Some (fd_network_domain tx))) FdNetwork;;
  require (epoch s <=? fd_valid_until_epoch tx) FdExpired;;
  cap ← or_rej (checked_mul u128_MAX total_active Delegation.MAX_VALIDATOR_STAKE_BPS) FdArithmetic;
  cap ← or_rej (checked_div cap 10000) FdArithmetic;
  let cap := Z.max cap Staking.MIN_DEPOSIT_SAT in
  require (is_ok (Staking.deposit_shape Signatures.SUITE_MLDSA65_FALCON1024
                    (Z.to_nat Signatures.HYBRID_PK_BYTES) (fd_amount_sat tx) cap)) FdStake;;
  let key_hash := sha3_256 (fd_validator_pubkey tx) in
  require (negb (bool_decide (is_Some (pubkey_index s !! key_hash)))) FdAlreadyRegistered;;
  index ← or_rej (match last_key (validators s) with Some k => checked_add u32_MAX k 1 | None => Some 0 end)
            FdRegistryFull;
  require (base_fee <=? fd_max_base_fee tx) FdFeeCap;;
  let owner := sha3_256 (fd_funding_pubkey tx) in
  spent ← fund_inputs FdMissingInput FdOwnership FdArithmetic (λ script, script =? owner) (eutxos s)
            (fd_inputs tx) 0;
  require (bool_decide (Some spent = fd_required_funding_sat tx)) FdConservation;;
  let c := fd_charge tx base_fee in
  refund ← or_rej (checked_sub (base_fee_sat (fd_charge tx (fd_max_base_fee tx))) (base_fee_sat c)) FdArithmetic;
  change ← or_rej (checked_add u128_MAX (out_value (fd_change tx)) refund) FdArithmetic;
  value ← or_rej (try_from u64_MAX change) FdArithmetic;
  let id := txid (TxFundedDeposit tx) in
  require (negb (Utxo.contains_key (eutxos s) (id, 0))) FdOutputCollision;;
  fd_verify_authorizations tx v;;
  Ret (c, index, key_hash, id, value).

Definition apply_funded_deposit s (tx : FundedDeposit) (total_active base_fee : Z) (v : SignatureVerifier)
    : outcome FundedDepositReject (CommittedState * TxCharge) :=
  '(c, index, key_hash, id, value) ← validate_funded_deposit s tx total_active base_fee v;
  set ← must (commit (eutxos s) (funding_outpoint <$> fd_inputs tx)
                [Utxo.mkEntry id 0 value (out_script_hash (fd_change tx))]);
  let rec := mkRecord index (fd_validator_pubkey tx) (fd_amount_sat tx) (fd_randao_commitment tx)
               (hash_bytes (fd_withdrawal_credentials tx)) u64_MAX u64_MAX u64_MAX false (fd_commission_bps tx) in
  Ret (s <| eutxos := set |>
         <| validators := <[index := rec]> (validators s) |>
         <| pubkey_index := <[key_hash := index]> (pubkey_index s) |>
         <| funded_validators := {[index]} ∪ funded_validators s |>
         <| reveals_used := <[index := 0]> (reveals_used s) |>
         <| deposit_history :=
              deposit_history s ++ [Staking.mkQueued key_hash (epoch s) (fd_amount_sat tx)] |>, c).

(** ** Funded delegations *)

Definition DELEGATE_CLASS : TxClass := Eutxo 2.

Definition fe_reserved_tx_bytes (tx : FundedDelegate) : Z :=
  saturating_add u64_MAX (saturating_add u64_MAX (zlength (fe_intent tx)) 4) ADMISSION_PQ_SIGNATURE_MAX.

Definition fe_charge (tx : FundedDelegate) (base_fee : Z) : TxCharge :=
  charge DELEGATE_CLASS (fe_tx_bytes tx) base_fee (fe_tip tx).

Definition fe_required_funding_sat (tx : FundedDelegate) : option Z :=
  let c := fe_charge tx (fe_max_base_fee tx) in
  x ← checked_add u128_MAX (fe_amount_sat tx) (out_value (fe_change tx));
  x ← checked_add u128_MAX x (base_fee_sat c);
  checked_add u128_MAX x (priority_fee_sat c).

Definition fe_validate_shape (tx : FundedDelegate) : bool :=
  key_has_shape (fe_funding_pubkey tx)
  && negb (bool_decide (fe_inputs tx = [])) && (zlength (fe_inputs tx) <=? MAX_FUNDING_INPUTS)
  && inputs_sorted (fe_inputs tx) && negb (fe_validator_pubkey_hash tx =? 0)
  && (Delegation.MIN_DELEGATION_SAT <=? fe_amount_sat tx) && (fe_amount_sat tx <=? Tokenomics.TOTAL_SUPPLY_SAT)
  && (MIN_TRANSFER_OUTPUT_SAT <=? out_value (fe_change tx)) && base_fee_in_range (fe_max_base_fee tx)
  && (fe_tip tx <=? MAX_TIP_MILLISAT_PER_GAS) && (fe_tx_bytes tx =? fe_reserved_tx_bytes tx)
  && (intrinsic_gas DELEGATE_CLASS (fe_tx_bytes tx) <=? MAX_TX_GAS)
  && (zlength (fe_funding_signature tx) <=? ADMISSION_PQ_SIGNATURE_MAX).

(** [verify_authorization] of the three signed transactions: the shape again, then the
    signature. *)
Definition verify_authorization (shape : bool) (pubkey : list Z) (root : hash) (signature : list Z)
    (v : SignatureVerifier) : outcome FundedDelegationReject unit :=
  require shape FlShape;;
  require (signature_has_shape signature && verify_with_key v pubkey root signature) FlSignature.

(** The principal reserved at a validator: every position not yet withdrawn. *)
Definition reserved_sat s (validator : Z) : option Z :=
  foldl (λ acc x, a ← acc; checked_add u128_MAX a x) (Some 0)
    (omap (λ id, if (Delegation.validator id.2 =? validator) && negb (is_withdrawn s id.1)
                 then Some (Delegation.amount_sat id.2) else None)
       (imap pair (delegations s))).

Definition next_delegator_id s : option Z :=
  match (Delegation.delegator <$> delegations s) ++ ascending (dom (funded_delegation_owners s)) with
  | [] => Some 0
  | d :: ds => checked_add u32_MAX (foldl Z.max d ds) 1
  end.

Definition apply_funded_delegate s (tx : FundedDelegate) (base_fee : Z) (v : SignatureVerifier)
    : outcome FundedDelegationReject (CommittedState * TxCharge) :=
  require (funded_delegation_active (epoch s)) FlNotActive;;
  require (fe_validate_shape tx) FlShape;;
  require (bool_decide (admission_network_domain s = Some (fe_network_domain tx))) FlNetwork;;
  require (epoch s <=? fe_valid_until_epoch tx) FlExpired;;
  validator ← or_rej (pubkey_index s !! fe_validator_pubkey_hash tx) FlValidator;
  record ← or_rej (validators s !! validator) FlValidator;
  require (negb (slashed record) && (exit_epoch record =? u64_MAX) && (activation_epoch record <=? epoch s))
    FlValidator;;
  reserved ← or_rej (reserved_sat s validator) FlArithmetic;
  reserved ← or_rej (checked_add u128_MAX reserved (fe_amount_sat tx)) FlArithmetic;
  require (reserved <=? MAX_FUNDED_DELEGATION_PER_VALIDATOR_SAT) FlDelegationLimit;;
  require (base_fee <=? fe_max_base_fee tx) FlFeeCap;;
  let owner := sha3_256 (fe_funding_pubkey tx) in
  spent ← fund_inputs FlMissingInput FlOwnership FlArithmetic (λ script, script =? owner) (eutxos s)
            (fe_inputs tx) 0;
  require (bool_decide (Some spent = fe_required_funding_sat tx)) FlConservation;;
  let c := fe_charge tx base_fee in
  refund ← or_rej (checked_sub (base_fee_sat (fe_charge tx (fe_max_base_fee tx))) (base_fee_sat c)) FlArithmetic;
  change ← or_rej (checked_add u128_MAX (out_value (fe_change tx)) refund) FlArithmetic;
  change ← or_rej (try_from u64_MAX change) FlArithmetic;
  let id := txid (TxFundedDelegate tx) in
  require (negb (Utxo.contains_key (eutxos s) (id, 0))) FlOutputCollision;;
  delegator_id ← or_rej (next_delegator_id s) FlArithmetic;
  requested_epoch ← or_rej (checked_add u64_MAX (epoch s) 1) FlArithmetic;
  position ← or_rej (try_from u32_MAX (zlength (delegations s))) FlArithmetic;
  verify_authorization (fe_validate_shape tx) (fe_funding_pubkey tx) (fe_signing_root tx)
    (fe_funding_signature tx) v;;
  set ← must (commit (eutxos s) (funding_outpoint <$> fe_inputs tx)
                [Utxo.mkEntry id 0 change (out_script_hash (fe_change tx))]);
  Ret (s <| eutxos := set |>
         <| delegations := delegations s ++
              [Delegation.mkDelegation delegator_id validator (fe_amount_sat tx) requested_epoch None true] |>
         <| funded_delegation_owners := <[delegator_id := owner]> (funded_delegation_owners s) |>, c).

(** ** Commission updates *)

Definition cu_validate_shape (tx : ValidatorCommissionUpdate) : bool :=
  (cu_commission_bps tx <=? Rewards.MAX_COMMISSION_BPS)
  && (zlength (cu_signature tx) <=? ADMISSION_PQ_SIGNATURE_MAX).

(** [iter().any(..)] on positions that hold stake, pending or active, with the validator. *)
Fixpoint any_live (registry : Delegation.Registry) (validator : Z) (ds : list Delegation.Delegation)
    : option bool :=
  match ds with
  | [] => Some false
  | d :: ds =>
      if negb (Delegation.validator d =? validator) then any_live registry validator ds
      else
        st ← Delegation.state_of registry d;
        if negb (bool_decide (st = Delegation.Inactive)) || negb (Delegation.activated_sat registry d =? 0)
        then Some true else any_live registry validator ds
  end.

Definition apply_validator_commission_update s (tx : ValidatorCommissionUpdate) (v : SignatureVerifier)
    : outcome FundedDelegationReject (CommittedState * TxCharge) :=
  require (funded_delegation_active (epoch s)) FlNotActive;;
  require (cu_validate_shape tx) FlShape;;
  require (bool_decide (admission_network_domain s = Some (cu_network_domain tx))) FlNetwork;;
  require (cu_epoch tx =? epoch s) FlEpoch;;
  record ← or_rej (validators s !! cu_validator tx) FlValidator;
  require (negb (slashed record) && (exit_epoch record =? u64_MAX)) FlValidator;;
  require (negb (cu_commission_bps tx =? commission_bps record)) FlCommission;;
  (if commission_bps record <? cu_commission_bps tx then
     registry ← must (Delegation.resolve (delegations s) (epoch s));
     live ← must (any_live registry (cu_validator tx) (delegations s));
     require (negb live) FlCommissionIncreaseWithDelegations
   else Ret tt);;
  require (signature_has_shape (cu_signature tx)
           && verify_with_key v (vr_pubkey record) (cu_signing_root tx) (cu_signature tx)) FlSignature;;
  Ret (s <| validators :=
              <[cu_validator tx := record <| commission_bps := cu_commission_bps tx |>]> (validators s) |>,
       staking_tx_charge (epoch s) 1 (length (cu_bytes tx))).

(** ** Undelegating and withdrawing *)

Definition fu_validate_shape (tx : FundedUndelegate) : bool :=
  key_has_shape (fu_funding_pubkey tx) && (zlength (fu_signature tx) <=? ADMISSION_PQ_SIGNATURE_MAX).
Definition fw_validate_shape (tx : FundedDelegationWithdraw) : bool :=
  key_has_shape (fw_funding_pubkey tx) && negb (fw_destination tx =? 0)
  && base_fee_in_range (fw_max_base_fee tx) && (zlength (fw_signature tx) <=? ADMISSION_PQ_SIGNATURE_MAX).

Definition funded_owner_matches s (delegator_id : Z) (funding_pubkey : list Z) : bool :=
  bool_decide (funded_delegation_owners s !! delegator_id = Some (sha3_256 funding_pubkey)).

Definition apply_funded_undelegate s (tx : FundedUndelegate) (v : SignatureVerifier)
    : outcome FundedDelegationReject (CommittedState * TxCharge) :=
  require (funded_delegation_active (epoch s)) FlNotActive;;
  require (fu_validate_shape tx) FlShape;;
  require (bool_decide (admission_network_domain s = Some (fu_network_domain tx))) FlNetwork;;
  require (fu_epoch tx =? epoch s) FlEpoch;;
  require (funded_owner_matches s (fu_delegator_id tx) (fu_funding_pubkey tx)) FlOwnership;;
  let position := Z.to_nat (fu_position tx) in
  d ← or_rej (delegations s !! position) FlPosition;
  require (Delegation.delegator d =? fu_delegator_id tx) FlPosition;;
  require (bool_decide (Delegation.deactivate_epoch d = None)) FlAlreadyDeactivating;;
  require (negb (match funded_delegation_lifecycle s !! fu_position tx with
                 | Some (_, withdrawn) => withdrawn | None => false end)) FlAlreadyWithdrawn;;
  deactivate ← or_rej (checked_add u64_MAX (epoch s) 1) FlArithmetic;
  verify_authorization (fu_validate_shape tx) (fu_funding_pubkey tx) (fu_signing_root tx) (fu_signature tx) v;;
  Ret (s <| delegations := <[position := d <| Delegation.deactivate_epoch := Some deactivate |>]> (delegations s) |>
         <| funded_delegation_lifecycle :=
              <[fu_position tx := (u64_MAX, false)]> (funded_delegation_lifecycle s) |>,
       staking_tx_charge (epoch s) 1 (length (fu_bytes tx))).

Definition fw_charge (tx : FundedDelegationWithdraw) (base_fee : Z) : TxCharge :=
  charge (Eutxo 1) (zlength (fw_bytes tx)) base_fee 0.

Definition apply_funded_delegation_withdrawal s (tx : FundedDelegationWithdraw) (base_fee : Z)
    (v : SignatureVerifier) : outcome FundedDelegationReject (CommittedState * TxCharge) :=
  require (funded_delegation_active (epoch s)) FlNotActive;;
  require (fw_validate_shape tx) FlShape;;
  require (bool_decide (admission_network_domain s = Some (fw_network_domain tx))) FlNetwork;;
  require (fw_epoch tx =? epoch s) FlEpoch;;
  require (base_fee <=? fw_max_base_fee tx) FlFeeCap;;
  require (funded_owner_matches s (fw_delegator_id tx) (fw_funding_pubkey tx)) FlOwnership;;
  d ← or_rej (delegations s !! Z.to_nat (fw_position tx)) FlPosition;
  require (Delegation.delegator d =? fw_delegator_id tx) FlPosition;;
  '(inactive_since, withdrawn) ← or_rej (funded_delegation_lifecycle s !! fw_position tx) FlNotInactive;
  require (negb withdrawn) FlAlreadyWithdrawn;;
  require (negb (inactive_since =? u64_MAX)) FlNotInactive;;
  withdrawable ← or_rej (checked_add u64_MAX inactive_since Staking.WITHDRAWAL_DELAY_EPOCHS) FlArithmetic;
  registry ← must (Delegation.resolve (delegations s) (epoch s));
  require (withdrawable <=? epoch s) FlWithdrawalDelay;;
  st ← must (Delegation.state_of registry d);
  require (bool_decide (st = Delegation.Inactive) && (Delegation.activated_sat registry d =? 0)) FlWithdrawalDelay;;
  let loss := get0 (delegator_slash_losses s) (fw_delegator_id tx) in
  let fees := get0 (delegator_fee_rewards s) (fw_delegator_id tx) in
  let issuance := get0 (delegator_issuance_rewards s) (fw_delegator_id tx) in
  let c := fw_charge tx base_fee in
  x ← or_rej (checked_sub (Delegation.amount_sat d) loss) FlArithmetic;
  x ← or_rej (checked_add u128_MAX x fees) FlArithmetic;
  x ← or_rej (checked_add u128_MAX x issuance) FlArithmetic;
  x ← or_rej (checked_sub x (base_fee_sat c)) FlArithmetic;
  payout ← or_rej (try_from u64_MAX x) FlArithmetic;
  require (MIN_TRANSFER_OUTPUT_SAT <=? payout) FlStake;;
  let id := txid (TxFundedDelegationWithdraw tx) in
  require (negb (Utxo.contains_key (eutxos s) (id, 0))) FlOutputCollision;;
  verify_authorization (fw_validate_shape tx) (fw_funding_pubkey tx) (fw_signing_root tx) (fw_signature tx) v;;
  set ← must (Utxo.insert (eutxos s) (Utxo.mkEntry id 0 payout (fw_destination tx)));
  Ret (s <| eutxos := set |>
         <| funded_delegation_lifecycle :=
              <[fw_position tx := (inactive_since, true)]> (funded_delegation_lifecycle s) |>
         <| delegator_slash_losses := delete (fw_delegator_id tx) (delegator_slash_losses s) |>
         <| delegator_fee_rewards := delete (fw_delegator_id tx) (delegator_fee_rewards s) |>
         <| delegator_issuance_rewards := delete (fw_delegator_id tx) (delegator_issuance_rewards s) |>, c).
End apply.

(** ** What the handlers do *)

Section effects.
Context `{Sha3} {G : Gates} {R : Rules}.
Implicit Types s : CommittedState.

Lemma fund_inputs_Ret {E} (m o a : E) owned set inputs spent v :
  fund_inputs m o a owned set inputs spent = Ret v →
  v = spent + sumZ (Utxo.value_at set <$> (funding_outpoint <$> inputs)) ∧
  (∀ i, i ∈ inputs → ∃ e, Utxo.get set (funding_outpoint i) = Some e ∧ owned (Utxo.e_script_hash e) = true).
Proof.
  revert spent. induction inputs as [|i inputs IH]; intros spent Eq.
  { injection Eq as <-. csimpl. split; [lia|set_solver]. }
  cbn [fund_inputs] in Eq. outcome_inv Eq. rename select (checked_add _ _ _ = _) into Ha.
  apply checked_add_Some in Ha as [_ ->]. destruct (IH _ Eq) as [-> Hown]. csimpl.
  rename select (Utxo.get _ _ = _) into He. rewrite (owned_entry _ _ _ He). split; [lia|].
  intros j [->|Hj]%elem_of_cons; [eauto|]. by apply Hown.
Qed.

Lemma inputs_sorted_NoDup inputs : inputs_sorted inputs = true → NoDup (funding_outpoint <$> inputs).
Proof.
  intros Hs. apply (NoDup_fmap_2_strong funding_outpoint).
  - intros [] [] _ _ [= -> ->]. done.
  - unfold inputs_sorted in Hs. apply windows_all_sorted in Hs.
    + eapply StronglySorted_NoDup; [|exact Hs]. intros i Hi. unfold funding_ltb in Hi. boolp.
      destruct Hi as [Hi|Hi]; boolp; lia.
    + unfold funding_ltb. intros x y z Hxy Hyz. apply orb_true_iff in Hxy, Hyz. apply orb_true_iff.
      rewrite !andb_true_iff, !Z.ltb_lt, !Z.eqb_eq in *. lia.
Qed.

Lemma fresh_index {V} (m : gmap Z V) index :
  match last_key m with Some k => checked_add u32_MAX k 1 | None => Some 0 end = Some index →
  m !! index = None.
Proof.
  unfold last_key. intros Hi. apply eq_None_not_Some. intros Hs%elem_of_dom.
  destruct (last (ascending (dom m))) as [k|] eqn:El.
  - apply checked_add_Some in Hi as [_ ->]. pose proof (ascending_last _ _ El _ Hs). lia.
  - apply last_None in El. apply elem_of_ascending in Hs. rewrite El in Hs. by apply not_elem_of_nil in Hs.
Qed.

(** Spending sorted funding inputs and creating fresh outputs. *)
Lemma fund_commit {E} (m o a : E) owned set inputs v outs set' :
  fund_inputs m o a owned set inputs 0 = Ret v → inputs_sorted inputs = true →
  commit set (funding_outpoint <$> inputs) outs = Some set' →
  NoDup (Utxo.outpoint <$> outs) → (∀ e, e ∈ outs → Utxo.get set (Utxo.outpoint e) = None) →
  Utxo.total_sat set' = Utxo.total_sat set - v + sumZ (Utxo.e_value <$> outs).
Proof.
  intros [-> Hown]%fund_inputs_Ret Hs Ec Hnd Hfr.
  apply commit_Some in Ec as (_ & _ & _ & ->); [lia|by apply inputs_sorted_NoDup|done| |done].
  intros x (i & -> & Hi)%list_elem_of_fmap. destruct (Hown i Hi) as (e & ? & _). eauto.
Qed.

Lemma fund_commit_one {E} (m o a : E) owned set inputs v id vout value script set' :
  fund_inputs m o a owned set inputs 0 = Ret v → inputs_sorted inputs = true →
  commit set (funding_outpoint <$> inputs) [Utxo.mkEntry id vout value script] = Some set' →
  Utxo.contains_key set (id, vout) = false →
  Utxo.total_sat set' = Utxo.total_sat set - v + value.
Proof.
  intros Hf Hs Ec Hc%contains_key_false.
  rewrite (fund_commit m o a owned set inputs v _ set' Hf Hs Ec); [cbn; lia|apply NoDup_singleton|].
  intros e ->%list_elem_of_singleton. done.
Qed.

Lemma fd_shape_sorted tx : fd_validate_shape tx = true → inputs_sorted (fd_inputs tx) = true ∧ 0 ≤ fd_amount_sat tx.
Proof. unfold fd_validate_shape. intros Hs. boolp. unfold Staking.MIN_DEPOSIT_SAT, Delegation.SAT_PER_BLOCH in *. split; [done|lia]. Qed.

Lemma fe_shape_sorted tx : fe_validate_shape tx = true → inputs_sorted (fe_inputs tx) = true ∧ 0 ≤ fe_amount_sat tx.
Proof.
  unfold fe_validate_shape. intros Hs. boolp.
  unfold Delegation.MIN_DELEGATION_SAT, Delegation.SAT_PER_BLOCH in *. split; [done|lia].
Qed.

Lemma fd_required tx v :
  Some v = fd_required_funding_sat tx →
  v = fd_amount_sat tx + out_value (fd_change tx) + fees_of (fd_charge tx (fd_max_base_fee tx)).
Proof.
  unfold fd_required_funding_sat. intros E%symmetry. apply bind_Some in E as (a & Ha & E).
  apply bind_Some in E as (b & Hb & E). checked_inv. unfold fees_of. lia.
Qed.

Lemma fe_required tx v :
  Some v = fe_required_funding_sat tx →
  v = fe_amount_sat tx + out_value (fe_change tx) + fees_of (fe_charge tx (fe_max_base_fee tx)).
Proof.
  unfold fe_required_funding_sat. intros E%symmetry. apply bind_Some in E as (a & Ha & E).
  apply bind_Some in E as (b & Hb & E). checked_inv. unfold fees_of. lia.
Qed.

Lemma fd_priority tx a b : priority_fee_sat (fd_charge tx a) = priority_fee_sat (fd_charge tx b).
Proof. done. Qed.
Lemma fe_priority tx a b : priority_fee_sat (fe_charge tx a) = priority_fee_sat (fe_charge tx b).
Proof. done. Qed.

Lemma apply_funded_deposit_net s tx total base v s' c :
  apply_funded_deposit s tx total base v = Ret (s', c) → frame s s' ∧ net s' = net s - fees_of c.
Proof.
  unfold apply_funded_deposit, validate_funded_deposit. intros E. outcome_inv E. injection E as <- <-.
  outcome_inv Hx. injection Hx as <- <- <- <- <-. split; [frame_record|].
  rename select (fund_inputs _ _ _ _ _ _ _ = _) into Hf. rename select (commit _ _ _ = _) into Hc.
  rename select (fd_validate_shape _ = true) into Hs. apply fd_shape_sorted in Hs as [Hs _].
  rename select (_ = Some x2) into Hi. apply fresh_index in Hi. boolp.
  rename select (Some _ = _) into Hr. apply fd_required in Hr.
  pose proof (fd_priority tx (fd_max_base_fee tx) base) as Hp.
  generalize dependent (fd_charge tx (fd_max_base_fee tx)). generalize dependent (fd_charge tx base).
  intros cb cm Hsub Hr Hp. checked_inv.
  eapply fund_commit_one in Hc; [|done..]. sheet. rewrite staked_insert, Hi, Hc. cbn.
  unfold fees_of in *. lia.
Qed.

Lemma apply_funded_delegate_net s tx base v s' c :
  apply_funded_delegate s tx base v = Ret (s', c) → frame s s' ∧ net s' ≤ net s - fees_of c.
Proof.
  unfold apply_funded_delegate. intros E. outcome_inv E. injection E as <- <-. split; [by constructor|].
  rename select (fund_inputs _ _ _ _ _ _ _ = _) into Hf. rename select (commit _ _ _ = _) into Hc.
  rename select (fe_validate_shape _ = true) into Hs. apply fe_shape_sorted in Hs as [Hs Ha].
  boolp. rename select (Some _ = _) into Hr. apply fe_required in Hr.
  pose proof (fe_priority tx (fe_max_base_fee tx) base) as Hp.
  generalize dependent (fe_charge tx (fe_max_base_fee tx)). generalize dependent (fe_charge tx base).
  intros cb cm Hsub Hr Hp. checked_inv.
  eapply fund_commit_one in Hc; [|done..].
  match goal with |- net ?s' ≤ _ => pose proof (delegated_total_snoc s s' _ eq_refl eq_refl Ha) as Hd end.
  sheet in Hd. sheet. rewrite Hc. unfold fees_of in *. lia.
Qed.

Lemma apply_validator_commission_update_net s tx v s' c :
  apply_validator_commission_update s tx v = Ret (s', c) → frame s s' ∧ net s' = net s ∧ fees_of c = 0.
Proof.
  unfold apply_validator_commission_update. intros E. outcome_inv E. injection E as <- <-.
  rename select (validators s !! _ = _) into Hr. split; [frame_record|]. split.
  - sheet. rewrite staked_insert, Hr. cbn. lia.
  - apply fees_staking.
Qed.

Lemma apply_funded_undelegate_net s tx v s' c :
  apply_funded_undelegate s tx v = Ret (s', c) → frame s s' ∧ net s' = net s ∧ fees_of c = 0.
Proof.
  unfold apply_funded_undelegate. intros E. outcome_inv E. injection E as <- <-. boolp.
  rename select (delegations s !! _ = _) into Hd. split; [by constructor|]. split; [|apply fees_staking].
  match goal with |- net ?s' = _ => assert (delegated_total s' = delegated_total s) as Ht end.
  - apply delegated_total_ext; cbn.
    + rewrite list_fmap_insert. apply list_insert_id. by rewrite list_lookup_fmap, Hd.
    + intros i. unfold is_withdrawn. cbn.
      destruct (decide (fu_position tx = Z.of_nat i `mod` 2 ^ 32)) as [<-|Hne].
      * rewrite lookup_insert_eq. rename select (_ = false) into Hw. by rewrite <- Hw at 1.
      * by rewrite lookup_insert_ne.
  - sheet in Ht. sheet. lia.
Qed.

Lemma apply_funded_delegation_withdrawal_net s tx base v s' c :
  apply_funded_delegation_withdrawal s tx base v = Ret (s', c) →
  0 ≤ fw_position tx ≤ u32_MAX → Forall (λ d, 0 ≤ Delegation.amount_sat d) (delegations s) →
  frame s s' ∧ net s' ≤ net s - fees_of c.
Proof.
  unfold apply_funded_delegation_withdrawal. intros E Hp Hnn. outcome_inv E. injection E as <- <-.
  split; [by constructor|]. boolp. checked_inv. subst.
  rename select (delegations s !! _ = _) into Hd. rename select (funded_delegation_lifecycle s !! _ = _) into Hl.
  match goal with |- net ?s' ≤ _ =>
    pose proof (delegated_total_withdraw s s' _ _ _ Hp Hd Hl Hnn eq_refl eq_refl) as Ht end.
  rename select (Utxo.insert _ _ = _) into Hi. apply Utxo.insert_Some in Hi as [_ Hi].
  rename select (Utxo.contains_key _ _ = false) into Hc. apply contains_key_false in Hc.
  unfold Utxo.value_at in Hi. unfold Utxo.outpoint in Hi. cbn [Utxo.e_txid Utxo.e_vout Utxo.e_value] in Hi.
  rewrite Hc in Hi. assert (priority_fee_sat (fw_charge tx base) = 0) as Hpr.
  { unfold fw_charge, charge. cbn. unfold part_sat, saturating_mul. rewrite Z.mul_0_r. done. }
  generalize dependent (fw_charge tx base). intros cc **.
  sheet in Ht. sheet. rewrite !map_total_delete, Hi. unfold fees_of. lia.
Qed.
End effects.
End Funded.
