(* ===== verification/L2Tx.v ===== *)
(** * Transactions of the second layer

    Models [crates/bloch-pos-committee/src/transition/l2_deposit.rs], [l2_da.rs] and
    [l2_claim.rs]: moving value into the escrow of the second layer, publishing its batches
    and releasing a proven withdrawal from the escrow. *)

From S2P Require Import Prelude Bytes Params Types Signatures FeeMarket Tx Utxo Withdrawal Settlement State.
From S2P Require Import Transfer Funded.
Local Open Scope Z_scope.

Module L2Tx.
Import Bytes Params Signatures FeeMarket Tx State Transfer Funded.

Definition MIN_L2_DEPOSIT_SAT : Z := 1000000.
Definition MAX_L2_DEPOSIT_SAT : Z := 100000000000 * 100000000.
Definition ESCROW_VOUT : Z := 1.
Definition RELEASE_VOUT : Z := 0.
Definition CHANGE_VOUT : Z := 1.

Inductive L2DepositReject :=
| LdNotActive | LdNetwork | LdShape | LdAmount | LdMissingInput | LdOwnership | LdUnderdeclaredSize
| LdTipAboveCeiling | LdGasCeiling | LdConservation | LdOutputCollision | LdSignature | LdInbox
| LdArithmetic.

Inductive L2DataAvailabilityReject :=
| LaNotActive | LaNetwork | LaShape | LaPayload | LaMissingInput | LaOwnership | LaUnderdeclaredSize
| LaTipAboveCeiling | LaGasCeiling | LaConservation | LaOutputCollision | LaSignature | LaChain
| LaNumber | LaDuplicate | LaFull | LaArithmetic.

Inductive L2WithdrawClaimReject :=
| LcNotActive | LcNetwork | LcShape | LcAmount | LcReleaseOutput | LcMissingInput | LcOwnership
| LcUnderdeclaredSize | LcTipAboveCeiling | LcGasCeiling | LcConservation | LcOutputCollision
| LcSignature | LcChain | LcProof | LcNotMatured | LcIndex | LcAlreadyClaimed | LcEscrow | LcRateLimited
| LcNotFinalized | LcAttestationRequired | LcAttestation | LcArithmetic.

(** [inputs.len() as u32]. *)
Definition inputs_class (inputs : list FundingInput) : TxClass := Eutxo (zlength inputs `mod` 2 ^ 32).

Definition funding_shape (funding_pubkey signature : list Z) (inputs : list FundingInput) (max_inputs : Z)
    : bool :=
  (zlength funding_pubkey =? ADMISSION_PQ_KEY_BYTES) && negb (bool_decide (signature = []))
  && (zlength signature <=? ADMISSION_PQ_SIGNATURE_MAX) && negb (bool_decide (inputs = []))
  && (zlength inputs <=? max_inputs) && inputs_sorted inputs.

(** [checked_add] of a list of terms. *)
Definition checked_total (first : Z) (rest : list Z) : option Z :=
  foldl (λ acc x, a ← acc; checked_add u128_MAX a x) (Some first) rest.

(** The change, when there is any. *)
Definition change_entry (id : hash) (vout : Z) (change : TransferOutput) : list Utxo.EutxoEntry :=
  if 0 <? out_value change then [Utxo.mkEntry id vout (out_value change) (out_script_hash change)] else [].

Section apply.
Context `{Sha3} `{Keccak} {G : Gates} {R : Rules}.
Implicit Types s : CommittedState.

(** ** Deposits *)

Definition ld_validate_shape (tx : L2Deposit) : outcome L2DepositReject unit :=
  require (funding_shape (ld_funding_pubkey tx) (ld_signature tx) (ld_inputs tx) MAX_DEPOSIT_INPUTS
           && negb (bool_decide (ld_recipient tx = replicate 20 0))) LdShape;;
  require ((MIN_L2_DEPOSIT_SAT <=? ld_amount_sat tx) && (ld_amount_sat tx <=? MAX_L2_DEPOSIT_SAT)) LdAmount;;
  require (zlength (ld_bytes tx) <=? ld_tx_bytes tx) LdUnderdeclaredSize.

Definition apply_l2_deposit s (tx : L2Deposit) (base_fee : Z) (v : SignatureVerifier)
    : outcome L2DepositReject (CommittedState * TxCharge) :=
  require (match l2_settlement s with Some l2 => Settlement.deposits_enabled l2 | None => false end) LdNotActive;;
  ld_validate_shape tx;;
  require (bool_decide (admission_network_domain s = Some (ld_network_domain tx))) LdNetwork;;
  require (ld_tip tx <=? MAX_TIP_MILLISAT_PER_GAS) LdTipAboveCeiling;;
  let class := inputs_class (ld_inputs tx) in
  require (intrinsic_gas class (ld_tx_bytes tx) <=? MAX_TX_GAS) LdGasCeiling;;
  let owner := sha3_256 (ld_funding_pubkey tx) in
  spent ← fund_inputs LdMissingInput LdOwnership LdArithmetic (owns owner) (eutxos s) (ld_inputs tx) 0;
  let c := charge class (ld_tx_bytes tx) base_fee (ld_tip tx) in
  required ← or_rej (checked_total (ld_amount_sat tx)
                       [out_value (ld_change tx); base_fee_sat c; priority_fee_sat c]) LdArithmetic;
  require (spent =? required) LdConservation;;
  let id := txid (TxL2Deposit tx) in
  require (negb (Utxo.contains_key (eutxos s) (id, 0))) LdOutputCollision;;
  require (verify_with_key v (ld_funding_pubkey tx) (ld_intent_root tx) (ld_signature tx)) LdSignature;;
  l2 ← or_rej (l2_settlement s) LdNotActive;
  height ← or_rej (checked_add u64_MAX (Settlement.native_height l2) 1) LdArithmetic;
  let record := Settlement.mkInbox height (Settlement.deposits_at_height l2 height) id ESCROW_VOUT
                  (ld_amount_sat tx) (ld_recipient tx) in
  l2 ← rej_as (λ _, LdInbox) (of_result (Settlement.append_deposit l2 record));
  set ← must (commit (eutxos s) (funding_outpoint <$> ld_inputs tx) (change_entry id 0 (ld_change tx)));
  Ret (s <| l2_settlement := Some l2 |> <| eutxos := set |>, c).

(** ** Data availability *)

Definition la_validate_shape (tx : L2DataAvailability) : outcome L2DataAvailabilityReject unit :=
  require (funding_shape (la_funding_pubkey tx) (la_signature tx) (la_inputs tx) DA_MAX_INPUTS) LaShape;;
  require (bool_decide (is_Some (Settlement.batch_count (la_payload tx)))) LaPayload;;
  require (zlength (la_bytes tx) <=? la_tx_bytes tx) LaUnderdeclaredSize.

Definition da_reject (e : Settlement.DaRefusal) : L2DataAvailabilityReject :=
  match e with
  | Settlement.DaNotActive => LaNotActive
  | Settlement.DaChain => LaChain
  | Settlement.DaNumber => LaNumber
  | Settlement.DaDuplicate => LaDuplicate
  | Settlement.DaFull => LaFull
  end.

Definition user_transactions s : bool :=
  match l2_settlement s with Some l2 => Settlement.user_transactions (Settlement.profile l2) | None => false end.

Definition apply_l2_data_availability s (tx : L2DataAvailability) (base_fee : Z) (v : SignatureVerifier)
    : outcome L2DataAvailabilityReject (CommittedState * TxCharge) :=
  require (user_transactions s) LaNotActive;;
  la_validate_shape tx;;
  require (bool_decide (admission_network_domain s = Some (la_network_domain tx))) LaNetwork;;
  require (la_tip tx <=? MAX_TIP_MILLISAT_PER_GAS) LaTipAboveCeiling;;
  let class := inputs_class (la_inputs tx) in
  require (intrinsic_gas class (la_tx_bytes tx) <=? MAX_TX_GAS) LaGasCeiling;;
  let owner := sha3_256 (la_funding_pubkey tx) in
  spent ← fund_inputs LaMissingInput LaOwnership LaArithmetic (owns owner) (eutxos s) (la_inputs tx) 0;
  let c := charge class (la_tx_bytes tx) base_fee (la_tip tx) in
  required ← or_rej (checked_total (out_value (la_change tx)) [base_fee_sat c; priority_fee_sat c]) LaArithmetic;
  require (spent =? required) LaConservation;;
  let id := txid (TxL2DataAvailability tx) in
  require (negb (Utxo.contains_key (eutxos s) (id, 0))) LaOutputCollision;;
  require (verify_with_key v (la_funding_pubkey tx) (la_intent_root tx) (la_signature tx)) LaSignature;;
  l2 ← or_rej (l2_settlement s) LaNotActive;
  l2 ← rej_as da_reject (of_result (Settlement.record_data_availability l2 (la_chain_id tx) (la_block_number tx)
                           (Settlement.da_commit (la_chain_id tx) (la_block_number tx) (la_payload tx))));
  set ← must (commit (eutxos s) (funding_outpoint <$> la_inputs tx) (change_entry id 0 (la_change tx)));
  Ret (s <| l2_settlement := Some l2 |> <| eutxos := set |>, c).

(** ** Withdrawal claims *)

Definition distinct_keys (keys : list (list Z)) : bool := bool_decide (NoDup keys).

Definition ca_validate_shape (a : ClaimAttestation) : bool :=
  let n := zlength (ca_keys a) in
  let k := ca_threshold a in
  (1 <=? k) && (k <=? n) && (n <=? MAX_ATTESTORS)
  && forallb (λ key, zlength key =? ADMISSION_PQ_KEY_BYTES) (ca_keys a) && distinct_keys (ca_keys a)
  && (k <=? zlength (ca_signatures a)) && (zlength (ca_signatures a) <=? n)
  && windows_all (λ x y, x.1 <? y.1) (ca_signatures a)
  && forallb (λ x, (x.1 <? n) && negb (bool_decide (x.2 = [])) && (zlength x.2 <=? ADMISSION_PQ_SIGNATURE_MAX))
       (ca_signatures a).

(** The indices are below the number of keys once the shape is checked. *)
Definition ca_verify (a : ClaimAttestation) (domain : hash) (chain_id : Z) (root : hash)
    (v : SignatureVerifier) : bool :=
  let digest := Settlement.attestation_digest domain chain_id root in
  ca_validate_shape a
  && forallb (λ x, verify_with_key v (default [] (ca_keys a !! Z.to_nat x.1)) digest x.2) (ca_signatures a).

Definition lc_validate_shape (tx : L2WithdrawClaim) : outcome L2WithdrawClaimReject unit :=
  require (funding_shape (lc_funding_pubkey tx) (lc_signature tx) (lc_inputs tx) MAX_CLAIM_INPUTS
           && (Z.shiftr (lc_index tx) 32 =? 0)
           && match lc_attestation tx with Some a => ca_validate_shape a | None => true end) LcShape;;
  require (MIN_L2_DEPOSIT_SAT <=? lc_sats tx) LcAmount;;
  require ((out_value (lc_release tx) =? lc_sats tx)
           && (out_script_hash (lc_release tx) =? lc_l1_recipient tx)) LcReleaseOutput;;
  require (zlength (lc_bytes tx) <=? lc_tx_bytes tx) LcUnderdeclaredSize.

Definition proven_root (tx : L2WithdrawClaim) : option hash :=
  Withdrawal.root_from_proof
    (Withdrawal.leaf (lc_chain_id tx) (lc_index tx) (lc_l1_recipient tx) (lc_sats tx)) (lc_index tx)
    (lc_siblings tx).

Definition verify_attestation (tx : L2WithdrawClaim) (v : SignatureVerifier) : bool :=
  match lc_attestation tx, proven_root tx with
  | None, _ => true
  | Some a, Some root => ca_verify a (lc_network_domain tx) (lc_chain_id tx) root v
  | Some _, None => false
  end.

Definition claim_reject (e : Withdrawal.ClaimRefusal) : L2WithdrawClaimReject :=
  match e with
  | Withdrawal.NotActive => LcNotActive
  | Withdrawal.Chain => LcChain
  | Withdrawal.Proof_ => LcProof
  | Withdrawal.NotMatured => LcNotMatured
  | Withdrawal.Index => LcIndex
  | Withdrawal.Claimed => LcAlreadyClaimed
  | Withdrawal.Escrow => LcEscrow
  | Withdrawal.RateLimited => LcRateLimited
  end.

Definition l2_record_finalized_for_claim s (record_height : Z) : bool :=
  match l2_settlement s with
  | None => false
  | Some l2 =>
      let fin := fv_finalized (finality_view s) in
      Withdrawal.record_finalized record_height (Settlement.native_height l2) (slot s) (Types.epoch fin)
      && (negb (native_claim_finality_active (epoch s))
          || bool_decide (Settlement.checkpoint_roots l2 !! Types.epoch fin = Some (Types.root fin)))
  end.

Definition check_l2_withdraw_claim s (tx : L2WithdrawClaim) (base_fee : Z)
    : outcome L2WithdrawClaimReject TxCharge :=
  require (user_transactions s) LcNotActive;;
  lc_validate_shape tx;;
  require (bool_decide (admission_network_domain s = Some (lc_network_domain tx))) LcNetwork;;
  require (lc_tip tx <=? MAX_TIP_MILLISAT_PER_GAS) LcTipAboveCeiling;;
  let class := inputs_class (lc_inputs tx) in
  require (intrinsic_gas class (lc_tx_bytes tx) <=? MAX_TX_GAS) LcGasCeiling;;
  l2 ← or_rej (l2_settlement s) LcNotActive;
  let attestor_set := Settlement.attestor_set (Settlement.policy l2) in
  match lc_attestation tx with
  | None => require (negb (Settlement.attestation_required l2 (lc_sats tx))) LcAttestationRequired
  | Some a =>
      require (negb (attestor_set =? 0)
               && (Settlement.attestor_set_hash (ca_threshold a) (ca_keys a) =? attestor_set)) LcAttestation
  end;;
  let attested := bool_decide (is_Some (lc_attestation tx)) in
  record ← rej_as claim_reject (of_result (Settlement.check_claim l2 (lc_chain_id tx) (lc_index tx)
             (lc_l1_recipient tx) (lc_sats tx) (lc_siblings tx) attested));
  require (negb ((Settlement.finalized_claims_from_height (Settlement.profile l2)
                  <=? saturating_add u64_MAX (Settlement.native_height l2) 1)
                 && negb (l2_record_finalized_for_claim s (Withdrawal.rec_height record)))) LcNotFinalized;;
  let owner := sha3_256 (lc_funding_pubkey tx) in
  spent ← fund_inputs LcMissingInput LcOwnership LcArithmetic (owns owner) (eutxos s) (lc_inputs tx) 0;
  let c := charge class (lc_tx_bytes tx) base_fee (lc_tip tx) in
  required ← or_rej (checked_total (out_value (lc_change tx)) [base_fee_sat c; priority_fee_sat c]) LcArithmetic;
  require (spent =? required) LcConservation;;
  let id := txid (TxL2WithdrawClaim tx) in
  require (negb (Utxo.contains_key (eutxos s) (id, RELEASE_VOUT)
                 || Utxo.contains_key (eutxos s) (id, CHANGE_VOUT))) LcOutputCollision;;
  Ret c.

Definition apply_l2_withdraw_claim s (tx : L2WithdrawClaim) (base_fee : Z) (v : SignatureVerifier)
    : outcome L2WithdrawClaimReject (CommittedState * TxCharge) :=
  c ← check_l2_withdraw_claim s tx base_fee;
  let id := txid (TxL2WithdrawClaim tx) in
  require (verify_with_key v (lc_funding_pubkey tx) (lc_intent_root tx) (lc_signature tx)) LcSignature;;
  require (verify_attestation tx v) LcAttestation;;
  l2 ← or_rej (l2_settlement s) LcNotActive;
  l2 ← rej_as claim_reject (Settlement.release_withdrawal l2 (lc_chain_id tx) (lc_index tx)
         (lc_l1_recipient tx) (lc_sats tx) (lc_siblings tx) (bool_decide (is_Some (lc_attestation tx))));
  set ← must (commit (eutxos s) (funding_outpoint <$> lc_inputs tx)
                (Utxo.mkEntry id RELEASE_VOUT (lc_sats tx) (lc_l1_recipient tx)
                 :: change_entry id CHANGE_VOUT (lc_change tx)));
  Ret (s <| l2_settlement := Some l2 |> <| eutxos := set |>, c).
End apply.

(** ** What the handlers do *)

Section effects.
Context `{Sha3} `{Keccak} {G : Gates} {R : Rules}.
Implicit Types s : CommittedState.

Lemma change_entry_sum id vout change :
  0 ≤ out_value change → sumZ (Utxo.e_value <$> change_entry id vout change) = out_value change.
Proof. intros Hv. unfold change_entry. case_match; boolp; cbn; lia. Qed.

Lemma elem_of_change_entry id vout change e :
  e ∈ change_entry id vout change → Utxo.outpoint e = (id, vout).
Proof. unfold change_entry. case_match; [intros ->%list_elem_of_singleton|intros ?%not_elem_of_nil]; done. Qed.

Lemma NoDup_change_entry id vout change : NoDup (Utxo.outpoint <$> change_entry id vout change).
Proof. unfold change_entry. case_match; [apply NoDup_singleton|constructor]. Qed.

Lemma funding_shape_sorted pk sg inputs max : funding_shape pk sg inputs max = true → inputs_sorted inputs = true.
Proof. unfold funding_shape. intros. by boolp. Qed.

Lemma checked_total_Some first rest v : checked_total first rest = Some v → v = first + sumZ rest.
Proof.
  unfold checked_total. revert first. induction rest as [|x rest IH]; intros first E; cbn [foldl] in E.
  { injection E as <-. cbn. lia. }
  cbn [mbind option_bind] in E. destruct (checked_add u128_MAX first x) as [y|] eqn:Ey.
  - apply checked_add_Some in Ey as [_ ->]. apply IH in E. cbn. lia.
  - exfalso. revert E. clear. induction rest; naive_solver.
Qed.

Lemma apply_l2_deposit_net s tx base v s' c :
  apply_l2_deposit s tx base v = Ret (s', c) → 0 ≤ out_value (ld_change tx) →
  frame s s' ∧ net s' = net s - fees_of c.
Proof.
  unfold apply_l2_deposit, ld_validate_shape. intros E Hv. outcome_inv E. injection E as <- <-.
  split; [by constructor|]. outcome_inv Hx0. boolp.
  rename select (fund_inputs _ _ _ _ _ _ _ = _) into Hf. rename select (commit _ _ _ = _) into Hc.
  rename select (funding_shape _ _ _ _ = true) into Hs. apply funding_shape_sorted in Hs.
  rename select (checked_total _ _ = _) into Hr. apply checked_total_Some in Hr.
  rename select (l2_settlement s = _) into Hl. rename select (Settlement.append_deposit _ _ = _) into Ha.
  apply Settlement.append_deposit_escrow in Ha. cbn in Ha.
  rename select (Utxo.contains_key _ _ = false) into Hk. apply contains_key_false in Hk.
  eapply fund_commit in Hc; [|done|done|apply NoDup_change_entry|].
  2:{ intros e He%elem_of_change_entry. by rewrite He. }
  rewrite change_entry_sum in Hc by done. clear Hf Hx0.
  generalize dependent (charge (inputs_class (ld_inputs tx)) (ld_tx_bytes tx) base (ld_tip tx)).
  intros cc Hr. cbn in Hr. sheet. rewrite Hl, Ha, Hc. unfold fees_of. lia.
Qed.

Lemma apply_l2_data_availability_net s tx base v s' c :
  apply_l2_data_availability s tx base v = Ret (s', c) → 0 ≤ out_value (la_change tx) →
  frame s s' ∧ net s' = net s - fees_of c.
Proof.
  unfold apply_l2_data_availability, la_validate_shape. intros E Hv. outcome_inv E. injection E as <- <-.
  split; [by constructor|]. outcome_inv Hx0. boolp.
  rename select (fund_inputs _ _ _ _ _ _ _ = _) into Hf. rename select (commit _ _ _ = _) into Hc.
  rename select (funding_shape _ _ _ _ = true) into Hs. apply funding_shape_sorted in Hs.
  rename select (checked_total _ _ = _) into Hr. apply checked_total_Some in Hr.
  rename select (l2_settlement s = _) into Hl.
  rename select (Settlement.record_data_availability _ _ _ _ = _) into Ha.
  apply Settlement.data_availability_escrow in Ha.
  rename select (Utxo.contains_key _ _ = false) into Hk. apply contains_key_false in Hk.
  eapply fund_commit in Hc; [|done|done|apply NoDup_change_entry|].
  2:{ intros e He%elem_of_change_entry. by rewrite He. }
  rewrite change_entry_sum in Hc by done. clear Hf Hx0.
  generalize dependent (charge (inputs_class (la_inputs tx)) (la_tx_bytes tx) base (la_tip tx)).
  intros cc Hr. cbn in Hr. sheet. rewrite Hl, Ha, Hc. unfold fees_of. lia.
Qed.

Lemma apply_l2_withdraw_claim_net s tx base v s' c :
  apply_l2_withdraw_claim s tx base v = Ret (s', c) → 0 ≤ out_value (lc_change tx) →
  frame s s' ∧ net s' = net s - fees_of c.
Proof.
  unfold apply_l2_withdraw_claim, check_l2_withdraw_claim. intros E Hv. outcome_inv E. injection E as <- <-.
  split; [by constructor|]. outcome_inv Hx. injection Hx as <-.
  rename select (lc_validate_shape _ = _) into Hsh. unfold lc_validate_shape in Hsh. outcome_inv Hsh. boolp.
  rename select (fund_inputs _ _ _ _ _ _ _ = _) into Hf. rename select (commit _ _ _ = _) into Hc.
  rename select (funding_shape _ _ _ _ = true) into Hs. apply funding_shape_sorted in Hs.
  rename select (checked_total _ _ = _) into Hr. apply checked_total_Some in Hr.
  rename select (Settlement.release_withdrawal _ _ _ _ _ _ _ = _) into Ha.
  apply Settlement.release_escrow in Ha.
  eapply fund_commit in Hc; [|done|done|..].
  2:{ csimpl. constructor; [|apply NoDup_change_entry].
      intros (e & Eq & He%elem_of_change_entry)%list_elem_of_fmap. rewrite <- Eq in He. done. }
  2:{ intros e [->|He%elem_of_change_entry]%elem_of_cons; [|rewrite He]; by apply contains_key_false. }
  csimpl in Hc. rewrite change_entry_sum in Hc by done.
  generalize dependent (charge (inputs_class (lc_inputs tx)) (lc_tx_bytes tx) base (lc_tip tx)).
  intros cc Hr. cbn in Hr. sheet. rewrite Ha, Hc. unfold fees_of.
  match type of Ha with _ = Settlement.escrow_sat ?l - _ => rename select (l2_settlement s = Some l) into Hl end.
  rewrite Hl. lia.
Qed.
End effects.
End L2Tx.
