(* ===== verification/Pq.v ===== *)
(** * Post-quantum migration

    Models [crates/bloch-pos-committee/src/transition/pq_migration.rs]: rotating a
    validator's withdrawal credential to a hash-based key, and the commit-and-reveal rescue
    of outputs held by lattice keys. *)

From Stdlib Require Import String.
From S2P Require Import Prelude Bytes Params Types Finality Signatures FeeMarket Tx Utxo State Transfer Funded.
Local Open Scope Z_scope.

Module Pq.
Import Bytes Params Signatures FeeMarket Tx State Transfer Funded.

Inductive PqMigrationReject :=
| PqNotActive | PqNetwork | PqEpoch | PqShape | PqSize | PqValidator | PqCredential | PqNotHashBased
| PqUnchanged | PqSignature | PqNewKeySignature | PqLatticeSpendFrozen | PqNotLatticeKey
| PqCommitmentExists | PqCommitmentUnknown | PqCommitmentImmature | PqCommitmentNotFinal
| PqCommitmentExpired | PqMissingInput | PqDuplicateInput | PqOwnership | PqIncompleteSweep
| PqConservation | PqOutputCollision.

Definition PUBKEY_MAX : Z := ADMISSION_PQ_KEY_BYTES.
Definition SIGNATURE_MAX : Z := SLH_SUITE_SIGNATURE_MAX.

Section apply.
Context `{Sha3} {G : Gates} {R : Rules}.
Implicit Types s : CommittedState.

Definition native_script (pubkey : list Z) : hash := sha3_256 pubkey.
(** The first twenty bytes, the rest zero. *)
Definition carried_script (pubkey : list Z) : hash := native_script pubkey / 256 ^ 12 * 256 ^ 12.

Definition rescue_spend_commitment (pubkey : list Z) (destination : hash) (tip : Z) : hash :=
  sha3_256 (string_bytes "BLOCH:PQ-RESCUE:SPEND-COMMIT:V1" ++ le_bytes 4 (zlength pubkey `mod` 2 ^ 32) ++ pubkey
            ++ hash_bytes destination ++ le_bytes 16 tip).
Definition rescue_credential_commitment (validator : Z) (current_pubkey : list Z) (new_credential : hash) : hash :=
  sha3_256 (string_bytes "BLOCH:PQ-RESCUE:CREDENTIAL-COMMIT:V1" ++ le_bytes 4 validator
            ++ le_bytes 4 (zlength current_pubkey `mod` 2 ^ 32) ++ current_pubkey ++ hash_bytes new_credential).
Definition rv_commitment (tx : RescueReveal) : hash :=
  rescue_spend_commitment (rv_pubkey tx) (rv_destination tx) (rv_tip tx).

Definition matured_commitment s (commitment : hash) : outcome PqMigrationReject unit :=
  at_ ← or_rej (pq_rescue_commits s !! commitment) PqCommitmentUnknown;
  require (epoch s <=? saturating_add u64_MAX at_ RESCUE_COMMIT_TTL_EPOCHS) PqCommitmentExpired;;
  require (saturating_add u64_MAX at_ RESCUE_COMMIT_MIN_DELAY_EPOCHS <=? epoch s) PqCommitmentImmature;;
  require (at_ <? Types.epoch (Finality.finalized (finality_engine s))) PqCommitmentNotFinal.

Definition prune_pq_rescue_commits s (ep : Z) : CommittedState :=
  s <| pq_rescue_commits :=
         filter (λ ca, ep ≤ saturating_add u64_MAX ca.2 RESCUE_COMMIT_TTL_EPOCHS) (pq_rescue_commits s) |>.

(** ** Rotating a credential *)

(** [<[u8; 32]>::try_from(slice)]. *)
Definition credential_hash (credentials : list Z) : option hash :=
  if zlength credentials =? 32 then Some (from_hash_bytes credentials) else None.

Definition rotation_charge (ep : Z) (tx : WithdrawalCredentialRotation) : TxCharge :=
  let slh := zlength (filter (λ k, is_hash_based_key k = true) [wr_authorizing_pubkey tx; wr_new_pubkey tx]) in
  let c := staking_tx_charge ep (2 - slh) (length (wr_bytes tx)) in
  if negb (charge_gas c =? 0) then
    mkCharge (saturating_add u64_MAX (charge_gas c) (saturating_mul u64_MAX SLHDSA_FALCON_VERIFY_GAS slh))
      (charge_tx_bytes c) (base_fee_sat c) (priority_fee_sat c)
  else c.

Definition apply_withdrawal_credential_rotation s (tx : WithdrawalCredentialRotation) (v : SignatureVerifier)
    : outcome PqMigrationReject (CommittedState * TxCharge) :=
  require (hf3_pq_migration_active (epoch s)) PqNotActive;;
  require (bool_decide (admission_network_domain s = Some (wr_network_domain tx))) PqNetwork;;
  require (wr_epoch tx =? epoch s) PqEpoch;;
  require (negb (bool_decide (wr_authorizing_pubkey tx = []))
           && (zlength (wr_authorizing_pubkey tx) <=? PUBKEY_MAX)
           && (zlength (wr_authorizing_signature tx) <=? SIGNATURE_MAX)
           && (zlength (wr_new_key_signature tx) <=? SIGNATURE_MAX)) PqShape;;
  record ← or_rej (validators s !! wr_validator tx) PqValidator;
  require (negb (staked_sat record =? 0)) PqValidator;;
  current ← or_rej (credential_hash (withdrawal_credentials record)) PqCredential;
  require (owns (native_script (wr_authorizing_pubkey tx)) current) PqCredential;;
  require (is_hash_based_key (wr_new_pubkey tx)) PqNotHashBased;;
  let new_credential := native_script (wr_new_pubkey tx) in
  require (negb (new_credential =? current)) PqUnchanged;;
  let rescue := lattice_emergency_active (epoch s) && negb (is_hash_based_key (wr_authorizing_pubkey tx)) in
  let commitment := rescue_credential_commitment (wr_validator tx) (wr_authorizing_pubkey tx) new_credential in
  (if rescue then matured_commitment s commitment else Ret tt);;
  let root := wr_signing_root tx in
  require (verify_spend_at_epoch v (wr_authorizing_pubkey tx) root (wr_authorizing_signature tx) (epoch s))
    PqSignature;;
  require (verify_spend_at_epoch v (wr_new_pubkey tx) root (wr_new_key_signature tx) (epoch s))
    PqNewKeySignature;;
  let commits := if rescue then delete commitment (pq_rescue_commits s) else pq_rescue_commits s in
  Ret (s <| pq_rescue_commits := commits |>
         <| validators := <[wr_validator tx := record <| withdrawal_credentials := hash_bytes new_credential |>]>
                            (validators s) |>,
       rotation_charge (epoch s) tx).

(** ** Commit and reveal *)

Definition apply_rescue_commit s (tx : RescueCommit) : outcome PqMigrationReject (CommittedState * TxCharge) :=
  require (lattice_emergency_active (epoch s)) PqNotActive;;
  require (bool_decide (admission_network_domain s = Some (rc_network_domain tx))) PqNetwork;;
  require (negb (bool_decide (is_Some (pq_rescue_commits s !! rc_commitment tx)))) PqCommitmentExists;;
  Ret (s <| pq_rescue_commits := <[rc_commitment tx := epoch s]> (pq_rescue_commits s) |>,
       mkCharge (BLOCK_GAS_LIMIT / RESCUE_COMMITS_PER_BLOCK) (zlength (rc_bytes tx)) 0 0).

(** The loop of the reveal: strictly increasing outpoints, all under one of the scripts. *)
Fixpoint rescue_inputs (set : Utxo.EutxoSet) (native carried : hash) (prev : option FundingInput)
    (inputs : list FundingInput) (spent : Z) : outcome PqMigrationReject Z :=
  match inputs with
  | [] => Ret spent
  | i :: inputs =>
      require (match prev with Some p => funding_ltb p i | None => true end) PqDuplicateInput;;
      entry ← or_rej (Utxo.get set (funding_outpoint i)) PqMissingInput;
      require ((Utxo.e_script_hash entry =? native) || (Utxo.e_script_hash entry =? carried)) PqOwnership;;
      spent ← must (add_w u128_MAX spent (Utxo.e_value entry));
      rescue_inputs set native carried (Some i) inputs spent
  end.

Definition apply_rescue_reveal s (tx : RescueReveal) (base_fee : Z) (v : SignatureVerifier)
    : outcome PqMigrationReject (CommittedState * TxCharge) :=
  require (lattice_emergency_active (epoch s)) PqNotActive;;
  require (bool_decide (admission_network_domain s = Some (rv_network_domain tx))) PqNetwork;;
  require (negb (bool_decide (rv_pubkey tx = [])) && (zlength (rv_pubkey tx) <=? PUBKEY_MAX)
           && negb (bool_decide (rv_inputs tx = []))) PqShape;;
  require (negb (is_hash_based_key (rv_pubkey tx))) PqNotLatticeKey;;
  require (rv_tx_bytes tx =? zlength (rv_bytes tx)) PqSize;;
  require (rv_tip tx <=? MAX_TIP_MILLISAT_PER_GAS) PqShape;;
  let class := Eutxo 1 in
  require (intrinsic_gas class (rv_tx_bytes tx) <=? MAX_TX_GAS) PqShape;;
  let native := native_script (rv_pubkey tx) in
  let carried := carried_script (rv_pubkey tx) in
  spent ← rescue_inputs (eutxos s) native carried None (rv_inputs tx) 0;
  let owned := (Utxo.script_len (eutxos s) native
                + if negb (carried =? native)%Z then Utxo.script_len (eutxos s) carried else 0)%nat in
  require (owned =? length (rv_inputs tx))%nat PqIncompleteSweep;;
  matured_commitment s (rv_commitment tx);;
  let c := charge class (rv_tx_bytes tx) base_fee (rv_tip tx) in
  fee ← must (add_w u128_MAX (base_fee_sat c) (priority_fee_sat c));
  value ← or_rej (checked_sub spent fee) PqConservation;
  value ← or_rej (try_from u64_MAX value) PqConservation;
  require (MIN_TRANSFER_OUTPUT_SAT <=? value) PqConservation;;
  let id := txid (TxRescueReveal tx) in
  require (negb (Utxo.contains_key (eutxos s) (id, 0))) PqOutputCollision;;
  require (verify_with_key v (rv_pubkey tx) (rv_signing_root tx) (rv_signature tx)) PqSignature;;
  set ← must (commit (eutxos s) (funding_outpoint <$> rv_inputs tx) [Utxo.mkEntry id 0 value (rv_destination tx)]);
  Ret (s <| eutxos := set |>
         <| pq_rescue_commits := delete (rv_commitment tx) (pq_rescue_commits s) |>, c).
End apply.

(** ** What the handlers do *)

Section effects.
Context `{Sha3} {G : Gates} {R : Rules}.
Implicit Types s : CommittedState.

Lemma apply_withdrawal_credential_rotation_net s tx v s' c :
  apply_withdrawal_credential_rotation s tx v = Ret (s', c) → frame s s' ∧ net s' = net s ∧ fees_of c = 0.
Proof.
  unfold apply_withdrawal_credential_rotation. intros E. outcome_inv E. injection E as <- <-.
  rename select (validators s !! _ = _) into Hr. split; [frame_record|]. split.
  - sheet. rewrite staked_insert, Hr. cbn. lia.
  - unfold rotation_charge. case_goal as Eg; [|apply fees_staking]. apply (fees_staking (epoch s)).
Qed.

Lemma apply_rescue_commit_net s tx s' c :
  apply_rescue_commit s tx = Ret (s', c) → frame s s' ∧ net s' = net s ∧ fees_of c = 0.
Proof. unfold apply_rescue_commit. intros E. outcome_inv E. injection E as <- <-. split; [by constructor|done]. Qed.

Lemma rescue_inputs_Ret set native carried prev inputs spent v :
  rescue_inputs set native carried prev inputs spent = Ret v →
  windows_all funding_ltb (match prev with Some p => p :: inputs | None => inputs end) = true ∧
  v = spent + sumZ (Utxo.value_at set <$> (funding_outpoint <$> inputs)) ∧
  (∀ i, i ∈ inputs → is_Some (Utxo.get set (funding_outpoint i))).
Proof.
  revert prev spent. induction inputs as [|i inputs IH]; intros prev spent E.
  { injection E as <-. split; [by destruct prev|]. csimpl. split; [lia|set_solver]. }
  cbn [rescue_inputs] in E. outcome_inv E. checked_inv. destruct (IH _ _ E) as (Hw & -> & Hi).
  rename select (Utxo.get _ _ = _) into He. split; [|split].
  - destruct prev as [p|]; [|done]. cbn. by apply andb_true_iff.
  - csimpl. rewrite (owned_entry _ _ _ He). lia.
  - intros j [->|Hj]%elem_of_cons; [eauto|]. by apply Hi.
Qed.

Lemma apply_rescue_reveal_net s tx base v s' c :
  apply_rescue_reveal s tx base v = Ret (s', c) → frame s s' ∧ net s' = net s - fees_of c.
Proof.
  unfold apply_rescue_reveal. intros E. outcome_inv E. injection E as <- <-. split; [by constructor|].
  rename select (rescue_inputs _ _ _ _ _ _ = _) into Hf. apply rescue_inputs_Ret in Hf as (Hw & -> & Hin).
  rename select (commit _ _ _ = _) into Hc.
  rename select (negb (Utxo.contains_key _ _) = true) into Hk. apply negb_true_iff, contains_key_false in Hk.
  apply commit_Some in Hc as (_ & _ & _ & Hc).
  - generalize dependent (charge (Eutxo 1) (rv_tx_bytes tx) base (rv_tip tx)). intros cc **. checked_inv.
    cbn in Hc. sheet. rewrite Hc. unfold fees_of. lia.
  - by apply inputs_sorted_NoDup.
  - apply NoDup_singleton.
  - intros o (i & -> & Hi)%list_elem_of_fmap. by apply Hin.
  - intros e ->%list_elem_of_singleton. done.
Qed.
End effects.
End Pq.
