(* ===== verification/Lifecycle.v ===== *)
(** * Staking transactions and slashing evidence

    Models the staking handlers of [crates/bloch-pos-committee/src/transition.rs]
    (deposits, exits, forward-secure key registration and rotation, RANDAO recommitment,
    delegation, slashing evidence) and [transition/lifecycle.rs] (activation of finalized
    deposits, unbacked principal, withdrawal). *)

From S2P Require Import Prelude Bytes Params Types Finality Signatures Kes Header Delegation Slashing Staking.
From S2P Require Import FeeMarket Beacon Tx Utxo Settlement State Transfer Funded L2Tx Pq.
Local Open Scope Z_scope.

Module Lifecycle.
Import Bytes Params Signatures FeeMarket Tx State Transfer Funded.

Inductive TxReject :=
| RejL2Settlement (e : Settlement.Reject)
| RejFundedDeposit (e : FundedDepositReject)
| RejFundedDelegation (e : FundedDelegationReject)
| RejL2Deposit (e : L2Tx.L2DepositReject)
| RejL2DataAvailability (e : L2Tx.L2DataAvailabilityReject)
| RejL2WithdrawClaim (e : L2Tx.L2WithdrawClaimReject)
| RejPqMigration (e : Pq.PqMigrationReject)
| RejTransfer (e : TransferReject)
| StakingRule
| StakingNotActive
| MisroutedEvidence
| EvidenceNotActive.

Definition MAX_EXITS_PER_EPOCH : nat := 4.
Definition GROWTH_WINDOW_EPOCHS : Z := 24.

(** The eligible deposits are sorted by epoch, priority, key hash and index. *)
Definition activation_key : Type := Z * hash * hash * Z.
Definition activation_leb (a b : activation_key) : bool :=
  let '(e, p, h, i) := a in
  let '(e', p', h', i') := b in
  (e <? e') || ((e =? e') && ((p <? p') || ((p =? p') && ((h <? h') || ((h =? h') && (i <=? i')))))).
Definition activation_le (a b : activation_key) : Prop := activation_leb a b = true.
Global Instance activation_le_dec : RelDecision activation_le.
Proof. unfold activation_le. intros a b. apply _. Defined.

Section apply.
Context `{Sha3} {G : Gates} {R : Rules}.
Implicit Types s : CommittedState.

Definition set_record s (index : Z) (r : ValidatorRecord) : CommittedState :=
  s <| validators := <[index := r]> (validators s) |>.

(** ** Deposits and delegations that are not funded *)

Definition apply_deposit s (tx : WireDeposit) (total_active_sat : Z) (v : SignatureVerifier)
    : outcome TxReject (CommittedState * TxCharge) :=
  require (unfunded_bonding_active (epoch s)) StakingNotActive;;
  require (negb (activation_queue_v2_active (epoch s)
                 && (MAX_VALIDATOR_REGISTRY_ENTRIES <=? size (validators s))%nat)) StakingRule;;
  let pubkey_hash := sha3_256 (d_pubkey tx) in
  require (negb (bool_decide (is_Some (pubkey_index s !! pubkey_hash)))) StakingRule;;
  x ← must (mul_w u128_MAX total_active_sat Delegation.MAX_VALIDATOR_STAKE_BPS);
  let cap := Z.max (x / 10000) Staking.MIN_DEPOSIT_SAT in
  require (is_ok (Staking.validate_wire_deposit (d_pubkey tx) (d_amount_sat tx) (d_randao_commitment tx)
                    (d_withdrawal_credentials tx) (d_commission_bps tx) (d_proof_of_possession tx) cap v))
    StakingRule;;
  index ← must (match last_key (validators s) with Some k => add_w u32_MAX k 1 | None => Some 0 end);
  let rec := mkRecord index (d_pubkey tx) (d_amount_sat tx) (d_randao_commitment tx)
               (d_withdrawal_credentials tx) u64_MAX u64_MAX u64_MAX false (d_commission_bps tx) in
  Ret (s <| validators := <[index := rec]> (validators s) |>
         <| reveals_used := <[index := 0]> (reveals_used s) |>
         <| pubkey_index := <[pubkey_hash := index]> (pubkey_index s) |>
         <| deposit_history :=
              deposit_history s ++ [Staking.mkQueued pubkey_hash (epoch s) (d_amount_sat tx)] |>,
       staking_tx_charge (epoch s) 1 (length (canonical_bytes (Deposit tx)))).

Definition apply_delegate s (tx : DelegateTx) : outcome TxReject (CommittedState * TxCharge) :=
  require (unfunded_bonding_active (epoch s)) StakingNotActive;;
  rec ← or_rej (validators s !! dg_validator tx) StakingRule;
  require (negb (slashed rec) && (exit_epoch rec =? u64_MAX)) StakingRule;;
  require (Delegation.MIN_DELEGATION_SAT <=? dg_amount_sat tx) StakingRule;;
  require (dg_eligible tx) StakingRule;;
  requested ← must (add_w u64_MAX (epoch s) 1);
  Ret (s <| delegations := delegations s ++
              [Delegation.mkDelegation (dg_delegator tx) (dg_validator tx) (dg_amount_sat tx) requested None true] |>,
       staking_tx_charge (epoch s) 0 (length (canonical_bytes (Delegate tx)))).

(** ** Exits *)

Definition exiting s (rec : ValidatorRecord) : ValidatorRecord :=
  let x := saturating_add u64_MAX (epoch s) Staking.EXIT_DELAY_EPOCHS in
  rec <| exit_epoch := x |>
      <| withdrawable_epoch := saturating_add u64_MAX x Staking.WITHDRAWAL_DELAY_EPOCHS |>.

Definition apply_exit s (validator : Z) : outcome TxReject (CommittedState * TxCharge) :=
  require (negb (exit_auth_active (epoch s) || funded_validator_admission_active (epoch s))) StakingNotActive;;
  rec ← or_rej (validators s !! validator) StakingRule;
  require (negb (slashed rec) && (activation_epoch rec <=? epoch s) && (exit_epoch rec =? u64_MAX)) StakingRule;;
  Ret (set_record s validator (exiting s rec),
       staking_tx_charge (epoch s) 0 (length (canonical_bytes (Exit validator)))).

Definition voluntary_exits_this_epoch s : nat :=
  let marker := saturating_add u64_MAX (epoch s) Staking.EXIT_DELAY_EPOCHS in
  size (filter (λ ir, exit_epoch ir.2 ≠ u64_MAX ∧ exit_epoch ir.2 = marker) (validators s)).

Definition queued_funded_cancellation s (index : Z) (rec : ValidatorRecord) (pubkey_hash : hash) : bool :=
  funded_validator_cancellation_active (epoch s) && bool_decide (index ∈ funded_validators s)
  && (activation_epoch rec =? u64_MAX)
  && existsb (λ d, (Staking.pubkey_hash d =? pubkey_hash)
                   && match checked_add u64_MAX (Staking.deposit_epoch d) Staking.ACTIVATION_DELAY_EPOCHS with
                      | Some eligible => eligible <=? epoch s
                      | None => false
                      end) (deposit_history s).

Definition apply_exit_v2 s (tx : ExitV2) (v : SignatureVerifier) : outcome TxReject (CommittedState * TxCharge) :=
  require (exit_auth_active (epoch s)) StakingNotActive;;
  require (xv_epoch tx =? epoch s) StakingRule;;
  index ← or_rej (pubkey_index s !! xv_pubkey_hash tx) StakingRule;
  rec ← or_rej (validators s !! index) StakingRule;
  require (negb (slashed rec)
           && ((activation_epoch rec <=? epoch s) || queued_funded_cancellation s index rec (xv_pubkey_hash tx))
           && (exit_epoch rec =? u64_MAX)) StakingRule;;
  require (voluntary_exits_this_epoch s <? MAX_EXITS_PER_EPOCH)%nat StakingRule;;
  let root := Staking.exit_signing_root (Staking.mkExit (xv_pubkey_hash tx) (xv_epoch tx) []) in
  require (verify_with_key v (vr_pubkey rec) root (xv_signature tx)) StakingRule;;
  Ret (set_record s index (exiting s rec),
       staking_tx_charge (epoch s) 1 (length (canonical_bytes (TxExitV2 tx)))).

(** ** Forward-secure keys *)

Definition depth_ok (depth : Z) : bool :=
  (Z.max KES_MIN_REGISTERED_DEPTH Kes.MIN_DEPTH <=? depth) && (depth <=? Kes.MAX_DEPTH).
Definition enforcing s : bool :=
  match State.kes_enforced_from s with Some from => from <=? epoch s | None => false end.

Definition kes_rescue_open s (validator : Z) : bool :=
  match kes s !! validator with
  | None => false
  | Some entry =>
      let p := default 0 (kes_period (epoch s)) in
      enforcing s && (Kes.end_period (Kes.in_force entry p) <=? p)
      && bool_decide (Kes.pending_at entry p = None)
  end.

Definition check_kes_register s (tx : KesRegister) (v : SignatureVerifier) : outcome TxReject KesPublic :=
  require (depth_ok (kr_depth tx)) StakingRule;;
  rec ← or_rej (validators s !! kr_validator tx) StakingRule;
  require (negb (slashed rec) && (epoch s <? exit_epoch rec)) StakingRule;;
  let period := kes_period (epoch s) in
  start_period ←
    match kes s !! kr_validator tx with
    | Some entry =>
        require (kes_rescue_open s (kr_validator tx)) StakingRule;;
        require (negb ((kes_root (Kes.in_force entry (default 0 period)) =? kr_root tx)
                       || match Kes.next entry with Some n => kes_root n =? kr_root tx | None => false end
                       || existsb (λ r, kes_root (Kes.public r) =? kr_root tx) (Kes.retired entry))) StakingRule;;
        Ret (saturating_add u64_MAX (default 0 period) KES_RESCUE_DELAY_PERIODS)
    | None =>
        match enforcing s, period with
        | true, Some p => Ret (saturating_add u64_MAX p 1)
        | _, _ => Ret 0
        end
    end;
  let public := mkKesPublic (kr_depth tx) (kr_root tx) start_period in
  let domain := default 0 (admission_network_domain s) in
  let message := Kes.register_signing_root domain (kr_validator tx) public in
  require (verify_with_key v (vr_pubkey rec) message (kr_signature tx)) StakingRule;;
  Ret public.

Definition apply_kes_register s (tx : KesRegister) (v : SignatureVerifier)
    : outcome TxReject (CommittedState * TxCharge) :=
  require (kes_registration_open (epoch s)) StakingNotActive;;
  public ← check_kes_register s tx v;
  let entry := match kes s !! kr_validator tx with
               | Some old => Kes.replaced_by old public (default 0 (kes_period (epoch s)))
               | None => Kes.entry_of public
               end in
  Ret (s <| kes := <[kr_validator tx := entry]> (kes s) |>,
       staking_tx_charge (epoch s) 1 (length (canonical_bytes (TxKesRegister tx)))).

Definition check_kes_rotate s (tx : KesRotate) (v : SignatureVerifier) : outcome TxReject Kes.KesEntry :=
  require (bool_decide (kes_period (epoch s) = Some (ko_period tx)) && depth_ok (ko_depth tx)) StakingRule;;
  entry ← or_rej (kes s !! ko_validator tx) StakingRule;
  rec ← or_rej (validators s !! ko_validator tx) StakingRule;
  require (negb (slashed rec) && (epoch s <? exit_epoch rec)) StakingRule;;
  let settled := Kes.settled entry (ko_period tx) in
  require (bool_decide (Kes.pending_at settled (ko_period tx) = None)) StakingRule;;
  let current := Kes.in_force settled (ko_period tx) in
  let next := mkKesPublic (ko_depth tx) (ko_root tx) (saturating_add u64_MAX (ko_period tx) 1) in
  require (negb (Kes.same_tree next current
                 || existsb (λ r, Kes.same_tree (Kes.public r) next) (Kes.retired settled))) StakingRule;;
  let domain := default 0 (admission_network_domain s) in
  let message := Kes.rotate_signing_root domain (ko_validator tx) (ko_period tx) (ko_depth tx) (ko_root tx) in
  require (bool_decide (Kes.verify_validator_in (key_lookup s) v (ko_validator tx) (Some (ko_period tx))
                          message (ko_signature tx) = Some true)) StakingRule;;
  Ret (Kes.mkEntry (Kes.current settled) (Some next) (Kes.retired settled)).

Definition apply_kes_rotate s (tx : KesRotate) (v : SignatureVerifier)
    : outcome TxReject (CommittedState * TxCharge) :=
  require (kes_registration_open (epoch s)) StakingNotActive;;
  entry ← check_kes_rotate s tx v;
  Ret (s <| kes := <[ko_validator tx := entry]> (kes s) |>,
       staking_tx_charge (epoch s) 1 (length (canonical_bytes (TxKesRotate tx)))).

(** The share of the roster's stake whose registered key covers the epoch's period. *)
Definition kes_registered_stake_bps s (ep : Z) : option Z :=
  let period := default 0 (kes_period ep) in
  roster ← consensus_roster_at s ep;
  let total := Types.total_stake roster in
  if total =? 0 then Some 0
  else
    let covered := Types.total_stake (filter (λ v,
      match kes s !! Types.index v with
      | Some entry => bool_decide (is_Some (Kes.leaf_index (Kes.in_force entry period) period))
      | None => false
      end = true) roster) in
    x ← mul_w u128_MAX covered 10000;
    Some ((x / total) `mod` 2 ^ 64).

(** ** Recommitting the RANDAO chain *)

Definition apply_randao_recommit s (tx : RandaoRecommit) (v : SignatureVerifier)
    : outcome TxReject (CommittedState * TxCharge) :=
  require (randao_recommit_active (epoch s)) StakingNotActive;;
  require (rr_epoch tx =? epoch s) StakingRule;;
  rec ← or_rej (validators s !! rr_validator tx) StakingRule;
  require (negb (slashed rec) && (epoch s <? exit_epoch rec)) StakingRule;;
  require (RANDAO_CHAIN_LENGTH <=? get0 (reveals_used s) (rr_validator tx)) StakingRule;;
  let root := Beacon.recommit_signing_root (rr_validator tx) (rr_epoch tx) (rr_new_commitment tx) in
  require (verify_with_key v (vr_pubkey rec) root (rr_signature tx)) StakingRule;;
  generation ← or_rej (checked_add u32_MAX (get0 (randao_generations s) (rr_validator tx)) 1) StakingRule;
  Ret (set_record s (rr_validator tx) (rec <| vr_randao_commitment := rr_new_commitment tx |>)
         <| reveals_used := <[rr_validator tx := 0]> (reveals_used s) |>
         <| randao_generations := <[rr_validator tx := generation]> (randao_generations s) |>,
       staking_tx_charge (epoch s) 1 (length (canonical_bytes (TxRandaoRecommit tx)))).

(** ** Activating finalized deposits *)

Definition eligible_deposit s (next_epoch finalized : Z) (d : Staking.QueuedDeposit) : option activation_key :=
  index ← pubkey_index s !! Staking.pubkey_hash d;
  rec ← validators s !! index;
  if bool_decide (index ∈ funded_validators s) && (activation_epoch rec =? u64_MAX)
     && (exit_epoch rec =? u64_MAX) && negb (slashed rec) && (Staking.deposit_epoch d <? finalized)
     && match checked_add u64_MAX (Staking.deposit_epoch d) Staking.ACTIVATION_DELAY_EPOCHS with
        | Some e => e <=? next_epoch
        | None => false
        end
  then
    let priority := Staking.activation_queue_priority (activation_queue_v2_active next_epoch)
                      (seed_for_epoch s next_epoch) (Staking.pubkey_hash d) in
    Some (Staking.deposit_epoch d, priority, Staking.pubkey_hash d, index)
  else None.

Definition activation_used s (next_epoch : Z) : Z :=
  let window_start := saturating_sub next_epoch (GROWTH_WINDOW_EPOCHS - 1) in
  foldl (saturating_add u128_MAX) 0
    (omap (λ i, r ← validators s !! i;
                if (window_start <=? activation_epoch r) && (activation_epoch r <? next_epoch)
                then Some (staked_sat r) else None) (ascending (funded_validators s))).

Definition activate s (next_epoch index : Z) : CommittedState :=
  match validators s !! index with
  | Some rec => set_record s index (rec <| activation_epoch := next_epoch |>)
  | None => s
  end.

Definition activate_finalized_deposits s (next_epoch : Z) : option CommittedState :=
  let finalized := Types.epoch (Finality.finalized (finality_engine s)) in
  let eligible := take Staking.MAX_ACTIVATIONS_PER_EPOCH
                    (merge_sort activation_le (omap (eligible_deposit s next_epoch finalized) (deposit_history s))) in
  eligible ←
    (if hf2_growth_cap_active next_epoch && negb (bool_decide (eligible = [])) then
       roster ← duty_roster_at s (saturating_sub next_epoch 1);
       let stakes := (λ k : activation_key, match validators s !! k.2 with Some r => staked_sat r | None => 0 end)
                       <$> eligible in
       let n := Staking.growth_admissions (activation_used s next_epoch)
                  (Staking.growth_budget_sat (Types.total_stake roster)) stakes in
       Some (take n eligible)
     else Some eligible);
  Some (foldl (λ s k, activate s next_epoch k.2) s eligible).

(** ** Withdrawal of a validator's stake *)

Definition unbacked_principal_sat s (index : Z) : Z :=
  match validators s !! index with
  | None => 0
  | Some rec =>
      if bool_decide (index ∈ funded_validators s) then 0
      else
        let principal :=
          match genesis_principal_sat s !! index with
          | Some p => p
          | None =>
              match list_find (λ d, Staking.pubkey_hash d = sha3_256 (vr_pubkey rec)) (deposit_history s) with
              | Some (_, d) => Staking.q_amount_sat d
              | None => u128_MAX
              end
          end in
        Z.min principal (default (staked_sat rec) (stake_low_water s !! index))
  end.

Definition withdrawable_sat s (index : Z) : Z :=
  match validators s !! index with
  | Some r => saturating_sub (staked_sat r) (unbacked_principal_sat s index)
  | None => 0
  end.

Definition is_write_off_indeterminate s (index : Z) : bool :=
  match validators s !! index with
  | Some r => negb (bool_decide (index ∈ funded_validators s)) && slashed r
              && bool_decide (stake_low_water s !! index = None)
  | None => false
  end.

(** The stake before, the new total written off and the output to create. *)
Definition withdrawal_plan s (index : Z) : outcome TxReject (Z * Z * option Utxo.EutxoEntry) :=
  require (withdrawal_active (epoch s) && negb (is_write_off_indeterminate s index)) StakingNotActive;;
  rec ← or_rej (validators s !! index) StakingRule;
  require (negb (exit_epoch rec =? u64_MAX) && negb (withdrawable_epoch rec =? u64_MAX)
           && (withdrawable_epoch rec <=? epoch s) && negb (staked_sat rec =? 0)) StakingRule;;
  script_hash ← or_rej (Pq.credential_hash (withdrawal_credentials rec)) StakingRule;
  let unbacked := Z.min (unbacked_principal_sat s index) (staked_sat rec) in
  payout ← or_rej (checked_sub (staked_sat rec) unbacked) StakingRule;
  value ← or_rej (try_from u64_MAX payout) StakingRule;
  written_off ← or_rej (checked_add u128_MAX (written_off_sat s) unbacked) StakingRule;
  require (bool_decide (checked_add u128_MAX payout unbacked = Some (staked_sat rec))) StakingRule;;
  let id := txid (Withdraw index) in
  require (negb (Utxo.contains_key (eutxos s) (id, 0))) StakingRule;;
  let output := if 0 <? value then Some (Utxo.mkEntry id 0 value script_hash) else None in
  Ret (staked_sat rec, written_off, output).

Definition apply_withdrawal s (index : Z) : outcome TxReject (CommittedState * TxCharge) :=
  '(_, written_off, output) ← withdrawal_plan s index;
  rec ← or_rej (validators s !! index) StakingRule;
  let s := set_record s index (rec <| staked_sat := 0 |>) <| written_off_sat := written_off |> in
  set ← must (match output with Some o => Utxo.insert (eutxos s) o | None => Some (eutxos s) end);
  let tx_bytes := zlength (canonical_bytes (Withdraw index)) in
  Ret (s <| eutxos := set |>, mkCharge (intrinsic_gas (Eutxo 0) tx_bytes) tx_bytes 0 0).

(** ** Slashing evidence *)

Definition offender_of (ev : Slashing.AnyEvidence) : Z :=
  match ev with
  | Slashing.AttestationOffence first _ => Types.att_validator first
  | Slashing.ProposerEquivocationEvidence first _ => Header.proposer_index (Slashing.env_header first)
  end.

(** The stake each delegation exposes: what is active, nothing once inactive. *)
Definition exposure_of (registry : Delegation.Registry) (d : Delegation.Delegation)
    : option Delegation.Delegation :=
  st ← Delegation.state_of registry d;
  let view := d <| Delegation.amount_sat := Delegation.activated_sat registry d |> in
  Some (if bool_decide (st = Delegation.Inactive) then view <| Delegation.eligible := false |> else view).

Definition effective_of (roster : list Types.Validator) (v : Z) : Z :=
  match list_find (λ x, Types.index x = v) roster with Some (_, x) => Types.effective_stake x | None => 0 end.

Definition process_evidence s (ev : Slashing.AnyEvidence) (own_bond : Z) (exposure : list Delegation.Delegation)
    (total_active effective including_proposer : Z) (v : SignatureVerifier)
    : option (result Slashing.EvidenceError (Slashing.SlashingState * Slashing.SlashingOutcome)) :=
  match ev with
  | Slashing.AttestationOffence first second =>
      Slashing.process_with_effective_exposure (slashing s) (Slashing.mkEvidence first second) (epoch s) own_bond
        exposure total_active effective including_proposer v (key_lookup s)
  | Slashing.ProposerEquivocationEvidence first second =>
      Slashing.process_proposer_with_effective_exposure (slashing s) first second (epoch s) own_bond exposure
        total_active effective including_proposer v (key_lookup s)
  end.

(** The record of a slashed validator. *)
Definition slashed_record (ep loss : Z) (rec : ValidatorRecord) : ValidatorRecord :=
  let effective_exit := saturating_add u64_MAX ep 1 in
  let delay := if slashing_economics_v2_active ep
               then saturating_add u64_MAX Staking.EXIT_DELAY_EPOCHS Staking.WITHDRAWAL_DELAY_EPOCHS
               else Staking.WITHDRAWAL_DELAY_EPOCHS in
  let lock := saturating_add u64_MAX ep delay in
  rec <| slashed := true |>
      <| staked_sat := saturating_sub (staked_sat rec) loss |>
      <| exit_epoch := if effective_exit <? exit_epoch rec then effective_exit else exit_epoch rec |>
      <| withdrawable_epoch := if withdrawable_epoch rec =? u64_MAX then lock
                               else Z.max (withdrawable_epoch rec) lock |>.

(** [*m.entry(k).or_insert(0) += x]; [None]: overflow. *)
Definition credit (m : gmap Z Z) (k x : Z) : option (gmap Z Z) :=
  y ← add_w u128_MAX (get0 m k) x; Some (<[k := y]> m).

Fixpoint charge_losses (losses : gmap Z Z) (dl : list (Delegation.Delegation * Z)) : option (gmap Z Z) :=
  match dl with
  | [] => Some losses
  | (d, loss) :: dl =>
      losses ← if 0 <? loss then credit losses (Delegation.delegator d) loss else Some losses;
      charge_losses losses dl
  end.

Definition apply_slashing_evidence s (ev : Slashing.AnyEvidence) (including_proposer : Z)
    (roster : list Types.Validator) (v : SignatureVerifier) : outcome unit CommittedState :=
  let offender := offender_of ev in
  rec ← or_rej (validators s !! offender) tt;
  let own_bond := staked_sat rec in
  let total_active := Types.total_stake roster in
  let effective := effective_of roster offender in
  require (negb (is_write_off_indeterminate s offender)) tt;;
  let unbacked_before := Z.min (unbacked_principal_sat s offender) own_bond in
  registry ← must (Delegation.resolve (delegations s) (epoch s));
  exposure ← must (mapM (exposure_of registry) (delegations s));
  res ← must (process_evidence s ev own_bond exposure total_active effective including_proposer v);
  '(slashing', out) ← rej_as (λ _, tt) (of_result res);
  let rec' := slashed_record (epoch s) (Slashing.operator_loss_sat out) rec in
  let old_floor := default (staked_sat rec') (stake_low_water s !! offender) in
  let low_water := <[offender := Z.min old_floor (staked_sat rec')]> (stake_low_water s) in
  losses ← must (charge_losses (delegator_slash_losses s)
                   (zip (delegations s) (Slashing.delegation_losses_sat out)));
  let backed_loss := saturating_sub (Slashing.operator_loss_sat out) unbacked_before in
  let reward := if withdrawal_active (epoch s) then Z.min (Slashing.whistleblower_reward_sat out) backed_loss
                else Slashing.whistleblower_reward_sat out in
  pending ← must (if 0 <? reward then credit (pending_fee_rewards s) including_proposer reward
                  else Some (pending_fee_rewards s));
  Ret (set_record s offender rec' <| slashing := slashing' |> <| stake_low_water := low_water |>
         <| delegator_slash_losses := losses |> <| pending_fee_rewards := pending |>).
End apply.
(** ** What the staking transactions do to the balance sheet *)

Section effects.
Context `{Sha3} {G : Gates} {R : Rules}.
Implicit Types s : CommittedState.

Lemma set_record_net s i rec rec' :
  validators s !! i = Some rec → net (set_record s i rec') = net s - staked_sat rec + staked_sat rec'.
Proof. intros Hr. sheet. rewrite staked_insert, Hr. cbn. lia. Qed.

Lemma set_record_wf s i rec : amounts_wf s → record_wf rec → amounts_wf (set_record s i rec).
Proof. intros Hwf Hr. destruct Hwf. constructor; cbn; try done. by apply record_insert_wf. Qed.

Lemma fresh_index_w {V} (m : gmap Z V) index :
  match last_key m with Some k => add_w u32_MAX k 1 | None => Some 0 end = Some index → m !! index = None.
Proof. intros Hi. apply fresh_index. destruct (last_key m); [|done]. checked_inv. apply checked_add_Some. lia. Qed.

(** An unfunded deposit brings its amount onto the books from outside. *)
Lemma apply_deposit_net s tx total v s' c :
  apply_deposit s tx total v = Ret (s', c) →
  frame s s' ∧ net s' = net s + d_amount_sat tx ∧ fees_of c = 0.
Proof.
  unfold apply_deposit. intros E. outcome_inv E. injection E as <- <-. split; [frame_record|].
  rename select (_ = Some x0) into Hi. apply fresh_index_w in Hi. split; [|apply fees_staking].
  sheet. rewrite staked_insert, Hi. cbn. lia.
Qed.

Lemma apply_deposit_wf s tx total v s' c :
  apply_deposit s tx total v = Ret (s', c) → amounts_wf s → 0 ≤ d_amount_sat tx → 0 ≤ d_commission_bps tx →
  amounts_wf s'.
Proof.
  unfold apply_deposit. intros E Hwf Ha Hc. outcome_inv E. injection E as <- <-.
  destruct Hwf. constructor; cbn; try done; [by apply record_insert_wf|].
  apply Forall_app_2; [done|]. by constructor.
Qed.

Lemma apply_delegate_net s tx s' c :
  apply_delegate s tx = Ret (s', c) → frame s s' ∧ net s' ≤ net s + dg_amount_sat tx ∧ fees_of c = 0.
Proof.
  unfold apply_delegate. intros E. outcome_inv E. injection E as <- <-. boolp. split; [by constructor|].
  split; [|apply fees_staking].
  match goal with |- net ?s' ≤ _ => pose proof (delegated_total_snoc s s' _ eq_refl eq_refl) as Ht end.
  cbn [Delegation.amount_sat] in Ht. unfold Delegation.MIN_DELEGATION_SAT, Delegation.SAT_PER_BLOCH in *.
  specialize (Ht ltac:(lia)). sheet in Ht. sheet. lia.
Qed.

Lemma apply_delegate_wf s tx s' c : apply_delegate s tx = Ret (s', c) → amounts_wf s → amounts_wf s'.
Proof.
  unfold apply_delegate. intros E Hwf. outcome_inv E. injection E as <- <-. boolp.
  destruct Hwf. constructor; cbn; try done. apply Forall_app_2; [done|]. constructor; [|done]. cbn.
  unfold Delegation.MIN_DELEGATION_SAT, Delegation.SAT_PER_BLOCH in *. lia.
Qed.

(** Replacing a record by one with the same stake. *)
Lemma set_record_same s i rec rec' :
  validators s !! i = Some rec → staked_sat rec' = staked_sat rec → commission_bps rec' = commission_bps rec →
  slashed rec' = slashed rec →
  frame s (set_record s i rec') ∧ net (set_record s i rec') = net s ∧
  (amounts_wf s → amounts_wf (set_record s i rec')).
Proof.
  intros Hr Hs Hc Hsl. split; [frame_record|]. split; [rewrite (set_record_net _ _ _ _ Hr); lia|].
  intros Hwf. apply set_record_wf; [done|]. unfold record_wf. rewrite Hs, Hc.
  exact (aw_records s Hwf i rec Hr).
Qed.

Lemma apply_exit_net s i s' c :
  apply_exit s i = Ret (s', c) → frame s s' ∧ net s' = net s ∧ fees_of c = 0 ∧ (amounts_wf s → amounts_wf s').
Proof.
  unfold apply_exit. intros E. outcome_inv E. injection E as <- <-.
  rename select (validators s !! _ = _) into Hr. destruct (set_record_same s i _ (exiting s x) Hr eq_refl eq_refl eq_refl) as (? & ? & ?).
  split_and!; try done. apply fees_staking.
Qed.

Lemma apply_exit_v2_net s tx v s' c :
  apply_exit_v2 s tx v = Ret (s', c) →
  frame s s' ∧ net s' = net s ∧ fees_of c = 0 ∧ (amounts_wf s → amounts_wf s').
Proof.
  unfold apply_exit_v2. intros E. outcome_inv E. injection E as <- <-.
  rename select (validators s !! _ = _) into Hr. destruct (set_record_same s _ _ (exiting s x0) Hr eq_refl eq_refl eq_refl) as (? & ? & ?).
  split_and!; try done. apply fees_staking.
Qed.

Lemma apply_kes_register_net s tx v s' c :
  apply_kes_register s tx v = Ret (s', c) →
  frame s s' ∧ net s' = net s ∧ fees_of c = 0 ∧ (amounts_wf s → amounts_wf s').
Proof.
  unfold apply_kes_register. intros E. outcome_inv E. injection E as <- <-. split; [by constructor|].
  split; [done|]. split; [apply fees_staking|]. intros []. by constructor.
Qed.

Lemma apply_kes_rotate_net s tx v s' c :
  apply_kes_rotate s tx v = Ret (s', c) →
  frame s s' ∧ net s' = net s ∧ fees_of c = 0 ∧ (amounts_wf s → amounts_wf s').
Proof.
  unfold apply_kes_rotate. intros E. outcome_inv E. injection E as <- <-. split; [by constructor|].
  split; [done|]. split; [apply fees_staking|]. intros []. by constructor.
Qed.

Lemma apply_randao_recommit_net s tx v s' c :
  apply_randao_recommit s tx v = Ret (s', c) →
  frame s s' ∧ net s' = net s ∧ fees_of c = 0 ∧ (amounts_wf s → amounts_wf s').
Proof.
  unfold apply_randao_recommit. intros E. outcome_inv E. injection E as <- <-.
  rename select (validators s !! _ = _) into Hr.
  split; [frame_record|]. split; [sheet; rewrite staked_insert, Hr; cbn; lia|]. split; [apply fees_staking|].
  intros Hwf. pose proof (aw_records s Hwf _ _ Hr). destruct Hwf. constructor; cbn; try done.
  by apply record_insert_wf.
Qed.

(** ** Withdrawals *)

Lemma unbacked_principal_nonneg s i : amounts_wf s → 0 ≤ unbacked_principal_sat s i.
Proof.
  intros Hwf. unfold unbacked_principal_sat. destruct (validators s !! i) as [rec|] eqn:Hr; [|done].
  case_goal; [done|]. apply Z.min_glb.
  - destruct (genesis_principal_sat s !! i) as [p|] eqn:Hp; [exact (aw_principal s Hwf i p Hp)|].
    destruct (list_find _ _) as [[j d]|] eqn:Hf; [|done].
    apply list_find_Some in Hf as (Hd & _). exact (Forall_lookup_1 _ _ _ _ (aw_history s Hwf) Hd).
  - destruct (stake_low_water s !! i) as [p|] eqn:Hp; cbn; [exact (aw_low s Hwf i p Hp)|].
    exact (aw_staked s i rec Hwf Hr).
Qed.

Lemma withdrawal_plan_Ret s i stake written_off output :
  withdrawal_plan s i = Ret (stake, written_off, output) → amounts_wf s →
  (∃ rec, validators s !! i = Some rec ∧ stake = staked_sat rec ∧ 0 ≤ stake) ∧
  match output with
  | Some o => Utxo.get (eutxos s) (Utxo.outpoint o) = None ∧ 0 ≤ Utxo.e_value o ≤ stake
  | None => True
  end.
Proof.
  unfold withdrawal_plan. intros E Hwf. pose proof (unbacked_principal_nonneg s i Hwf) as Hu.
  outcome_inv E. injection E as <- <- <-. rename select (validators s !! i = Some _) into Hr.
  pose proof (aw_staked s _ _ Hwf Hr) as Hs. cbn in Hs. split; [eauto|].
  rename select (negb (Utxo.contains_key _ _) = true) into Hk. apply negb_true_iff, contains_key_false in Hk.
  checked_inv. case_goal as Ev; [|done]. boolp. split; [done|]. cbn. lia.
Qed.

(** A withdrawal pays out at most the stake it takes off the books. *)
Lemma apply_withdrawal_net s i s' c :
  apply_withdrawal s i = Ret (s', c) → amounts_wf s →
  frame s s' ∧ net s' ≤ net s ∧ fees_of c = 0 ∧ amounts_wf s'.
Proof.
  unfold apply_withdrawal. intros E Hwf. outcome_inv E. injection E as <- <-.
  rename select (withdrawal_plan _ _ = _) into Hp. apply withdrawal_plan_Ret in Hp as [(rec & Hr & -> & Hs) Ho]; [|done].
  simplify_eq. split; [frame_record|]. split; [|split; [done|]].
  2: { pose proof (aw_records s Hwf _ _ Hr) as [_ Hc]. destruct Hwf. constructor; cbn; try done. by apply record_insert_wf. }
  sheet. rewrite staked_insert, Hr. cbn. rename select (match _ with Some o => _ | None => _ end = Some _) into Hi.
  match type of Hi with _ = Some ?set =>
    assert (Utxo.total_sat set ≤ Utxo.total_sat (eutxos s) + staked_sat rec); [|lia] end.
  case_match; simplify_eq/=; [|lia]. destruct Ho as [Hk Hv].
  apply Utxo.insert_Some in Hi as [_ ->]. cbn [eutxos] in *. unfold Utxo.value_at. cbn -[Utxo.get]. rewrite Hk. cbn. lia.
Qed.

(** ** Slashing evidence *)

Lemma activate_finalized_net s next s' :
  activate_finalized_deposits s next = Some s' → net s' = net s ∧ (amounts_wf s → amounts_wf s').
Proof.
  unfold activate_finalized_deposits. intros (ks & _ & [= <-])%bind_Some. revert s.
  induction ks as [|k ks IH]; intros s; cbn; [done|]. destruct (IH (activate s next k.2)) as [Hn Hw].
  unfold activate in *. destruct (validators s !! k.2) as [rec|] eqn:Hr; [|done].
  match type of Hn with _ = net (set_record _ _ ?r) =>
    destruct (set_record_same s k.2 rec r Hr eq_refl eq_refl eq_refl) as (_ & Hn2 & Hw2) end.
  rewrite Hn, Hn2. auto.
Qed.

Lemma credit_Some m k x m' :
  credit m k x = Some m' → map_total m' = map_total m + x ∧ (nonneg m → 0 ≤ x → nonneg m').
Proof.
  unfold credit. intros (y & Hy & [= <-])%bind_Some. checked_inv. split; [rewrite map_total_insert; lia|].
  intros Hm Hx. apply nonneg_insert; [done|]. pose proof (nonneg_get0 m k Hm). lia.
Qed.

Lemma charge_losses_Some m dl m' :
  charge_losses m dl = Some m' → map_total m ≤ map_total m' ∧ (nonneg m → nonneg m').
Proof.
  revert m. induction dl as [|[d loss] dl IH]; intros m; cbn; [by intros [= <-]|].
  intros (m1 & H1 & (? & ?)%IH)%bind_Some. destruct (Z.ltb_spec 0 loss); [|by simplify_eq].
  apply credit_Some in H1 as [? Hn]. split; [lia|]. intros. auto with lia.
Qed.

Lemma exposure_nonneg s registry exposure :
  Delegation.resolve (delegations s) (epoch s) = Some registry →
  mapM (exposure_of registry) (delegations s) = Some exposure →
  Forall (λ d, 0 ≤ Delegation.amount_sat d) exposure.
Proof.
  intros Hr Hm. apply mapM_Some in Hm. apply Forall_forall. intros d (i & Hi)%list_elem_of_lookup.
  destruct (Forall2_lookup_r _ _ _ _ _ Hm Hi) as (d0 & _ & Hd).
  unfold exposure_of in Hd. apply bind_Some in Hd as (st & _ & [= <-]).
  case_goal; cbn; by eapply Delegation.activated_nonneg.
Qed.

Definition roster_wf (roster : list Types.Validator) : Prop := Forall (λ v, 0 ≤ Types.effective_stake v) roster.

Lemma effective_nonneg roster v : roster_wf roster → 0 ≤ effective_of roster v.
Proof.
  intros Hw. unfold effective_of. destruct (list_find _ _) as [[i x]|] eqn:E; [|done].
  apply list_find_Some in E as (E & _). exact (Forall_lookup_1 _ _ _ _ Hw E).
Qed.

Lemma process_evidence_signs s ev bond exposure total eff p v st' out :
  process_evidence s ev bond exposure total eff p v = Some (Ok (st', out)) →
  nonneg (Slashing.window (slashing s)) → 0 ≤ bond → Forall (λ d, 0 ≤ Delegation.amount_sat d) exposure →
  0 ≤ total → 0 ≤ eff →
  0 ≤ Slashing.operator_loss_sat out ≤ bond ∧
  0 ≤ Slashing.WHISTLEBLOWER_QUOTIENT * Slashing.whistleblower_reward_sat out ≤ Slashing.operator_loss_sat out ∧
  nonneg (Slashing.window st').
Proof.
  intros E ?????. assert (∃ id off, Slashing.commit_offense (slashing s) id (offender_of ev) off (epoch s) bond exposure
                                  total eff p = Some (st', out)) as (id & off & Hc).
  { revert E. unfold process_evidence, Slashing.process_with_effective_exposure,
      Slashing.process_proposer_with_effective_exposure. destruct ev; cbn [offender_of Slashing.ev_first];
    repeat (case_goal; try done); intros (o & Hc & [= ->])%bind_Some; eauto. }
  apply Slashing.commit_offense_signs in Hc as (? & ? & ? & ?); done.
Qed.

Lemma credit_positive m k x m' bound :
  (if 0 <? x then credit m k x else Some m) = Some m' → x ≤ bound → 0 ≤ bound → nonneg m →
  map_total m' ≤ map_total m + bound ∧ nonneg m'.
Proof.
  destruct (Z.ltb_spec 0 x); [|intros [= <-] **; split; [lia|done]].
  intros [-> Hn]%credit_Some ? ? Hm. split; [lia|]. auto with lia.
Qed.

Lemma total_stake_nonneg roster : roster_wf roster → 0 ≤ Types.total_stake roster.
Proof. intros Hw. apply sumZ_nonneg. by apply Forall_fmap. Qed.

Lemma process_evidence_ejects s ev bond exposure total eff p v st' out :
  process_evidence s ev bond exposure total eff p v = Some (Ok (st', out)) →
  Slashing.ejected st' = {[offender_of ev]} ∪ Slashing.ejected (slashing s).
Proof.
  destruct ev; [intros E%Slashing.process_proposer_Ok|intros E%Slashing.process_Ok]; apply E.
Qed.

(** Accepted evidence only ever takes value off the books: the operator loses at least
    32 times what the reporter is credited, and delegators' losses are burned. *)
Lemma apply_slashing_evidence_net s ev p roster v s' :
  apply_slashing_evidence s ev p roster v = Ret s' → amounts_wf s → roster_wf roster →
  frame s s' ∧ net s' ≤ net s ∧ amounts_wf s'.
Proof.
  unfold apply_slashing_evidence. intros E Hwf Hro. outcome_inv E. injection E as <-.
  rename select (validators s !! _ = Some _) into Hr. pose proof (aw_staked s _ _ Hwf Hr) as Hs. cbn in Hs.
  rename select (process_evidence _ _ _ _ _ _ _ _ = _) into Hp. rename select (_ = Ok _) into Ho. subst.
  rename select (charge_losses _ _ = _) into Hl. apply charge_losses_Some in Hl as [Hl Hlw].
  rename select (mapM _ _ = _) into Hm. rename select (Delegation.resolve _ _ = _) into Hres.
  pose proof (process_evidence_ejects _ _ _ _ _ _ _ _ _ _ Hp) as Hej.
  apply process_evidence_signs in Hp as (Hop & Hrw & Hwin);
    [|apply Hwf|done|by eapply exposure_nonneg|by apply total_stake_nonneg|by apply effective_nonneg].
  unfold Slashing.WHISTLEBLOWER_QUOTIENT in Hrw.
  rename select ((if 0 <? _ then _ else _) = Some _) into Hc.
  apply (credit_positive _ _ _ _ (Slashing.operator_loss_sat b)) in Hc as [Hpm Hpn];
    [|case_goal; lia|lia|apply Hwf].
  split; [|split].
  { constructor; try reflexivity. unfold slashed_ejected. cbn. rewrite Hej. intros Hse.
    apply map_Forall_insert_2; [set_solver|]. intros v' r Hv' Hs'. specialize (Hse v' r Hv' Hs'). set_solver. }
  - sheet. rewrite staked_insert, Hr. cbn. unfold saturating_sub. lia.
  - pose proof (aw_records s Hwf _ _ Hr) as [_ Hcm]. destruct Hwf. constructor; cbn; try done.
    + apply record_insert_wf; [done|]. split; cbn; [unfold saturating_sub; lia|done].
    + apply nonneg_insert; [done|]. apply Z.min_glb; [|cbn; unfold saturating_sub; lia].
      destruct (stake_low_water s !! _) eqn:El; [by eapply aw_low0|]. cbn. unfold saturating_sub. lia.
    + auto.
Qed.
End effects.
End Lifecycle.
