(* ===== verification/Apply.v ===== *)
(** * Dispatching transactions

    Models [apply_transaction] of [crates/bloch-pos-committee/src/transition.rs] and
    [validate_lifecycle_transaction] of [transition/lifecycle.rs]: every kind of
    transaction is handed to its handler, behind the signature policy of the epoch.

    The theorems are about all kinds at once.  An accepted transaction leaves the chain
    position, finality, the fork choice and the issuance alone, never adds value to the
    balance sheet beyond an unfunded deposit's or delegation's amount, pays its fees out
    of it, and keeps every recorded amount non-negative. *)

From S2P Require Import Prelude Bytes Params Types Finality Signatures Header Delegation Slashing Staking.
From S2P Require Import Codec FeeMarket Tx Utxo Settlement State Transfer Funded L2Tx Pq Lifecycle.
Local Open Scope Z_scope.

Module Apply.
Import Bytes Params Signatures FeeMarket Tx State Transfer Funded L2Tx Pq Lifecycle.

Section apply.
Context `{Sha3} `{Keccak} {G : Gates} {R : Rules}.
Implicit Types s : CommittedState.

Definition pre_activation_offence_refusal_active (ep : Z) : bool :=
  epoch_gate_active ep (SLASHING_EVIDENCE_ACTIVATION_EPOCH G).

(** A settlement takes a whole block's gas and pays no fee. *)
Definition settlement_charge (tx : SettlementTx) : TxCharge :=
  mkCharge BLOCK_GAS_LIMIT (1 + 32 + zlength (statement tx) + Z.of_nat PROOF_BYTES) 0 0.

Definition apply_settlement s (tx : SettlementTx) (async : bool) (v : SignatureVerifier)
    : outcome TxReject (CommittedState * TxCharge) :=
  l2 ← or_rej (l2_settlement s) (RejL2Settlement Settlement.RNotActive);
  l2 ← rej_as RejL2Settlement (Settlement.apply l2 tx (head s) (slot s) async v);
  Ret (s <| l2_settlement := Some l2 |>, settlement_charge tx).

Definition apply_transaction s (tx : PosTransaction) (total_active_sat base_fee : Z)
    (verifier : SignatureVerifier) : outcome TxReject (CommittedState * TxCharge) :=
  let v := PolicyVerifier verifier (transaction_policy (epoch s)) in
  match tx with
  | L2Settlement t => apply_settlement s t false v
  | L2SettlementAsync t => apply_settlement s t true v
  | Withdraw validator => apply_withdrawal s validator
  | TxFundedDeposit t => rej_as RejFundedDeposit (apply_funded_deposit s t total_active_sat base_fee v)
  | TxFundedDelegate t => rej_as RejFundedDelegation (apply_funded_delegate s t base_fee v)
  | TxFundedUndelegate t => rej_as RejFundedDelegation (apply_funded_undelegate s t v)
  | TxFundedDelegationWithdraw t =>
      rej_as RejFundedDelegation (apply_funded_delegation_withdrawal s t base_fee v)
  | TxValidatorCommissionUpdate t => rej_as RejFundedDelegation (apply_validator_commission_update s t v)
  | TxL2Deposit t => rej_as RejL2Deposit (apply_l2_deposit s t base_fee v)
  | TxL2DataAvailability t => rej_as RejL2DataAvailability (apply_l2_data_availability s t base_fee v)
  | TxL2WithdrawClaim t => rej_as RejL2WithdrawClaim (apply_l2_withdraw_claim s t base_fee v)
  | TxWithdrawalCredentialRotation t => rej_as RejPqMigration (apply_withdrawal_credential_rotation s t v)
  | TxRescueCommit t => rej_as RejPqMigration (apply_rescue_commit s t)
  | TxRescueReveal t => rej_as RejPqMigration (apply_rescue_reveal s t base_fee v)
  | Tx.Transfer t =>
      require (negb (lattice_spend_frozen (epoch s) (ti_pubkey <$> t_inputs t)))
        (RejPqMigration PqLatticeSpendFrozen);;
      rej_as RejTransfer (apply_transfer s t base_fee v)
  | TransferV2 t =>
      require (negb (epoch s <? TRANSFER_WITNESS_DEDUP_ACTIVATION_EPOCH R)) (RejTransfer FormatNotActive);;
      require (negb (lattice_spend_frozen (epoch s) (wk_pubkey <$> t2_keys t)))
        (RejPqMigration PqLatticeSpendFrozen);;
      rej_as RejTransfer (apply_transfer_v2 s t base_fee v)
  | Deposit t => apply_deposit s t total_active_sat v
  | Exit validator => apply_exit s validator
  | TxExitV2 t => apply_exit_v2 s t v
  | TxKesRegister t => apply_kes_register s t v
  | TxKesRotate t => apply_kes_rotate s t v
  | TxRandaoRecommit t => apply_randao_recommit s t v
  | Delegate t => apply_delegate s t
  | TxSlashingEvidence _ => Rej MisroutedEvidence
  end.

(** The mempool's check, on a copy of the state. *)
Definition validate_lifecycle_transaction s (tx : PosTransaction) (total_active_sat base_fee : Z)
    (verifier : SignatureVerifier) : outcome TxReject unit :=
  match tx with
  | TxFundedDeposit t =>
      rej_as RejFundedDeposit (validate_funded_deposit s t total_active_sat base_fee verifier);; Ret tt
  | Withdraw validator => withdrawal_plan s validator;; Ret tt
  | TxSlashingEvidence ev =>
      require (slashing_evidence_active (epoch s)) EvidenceNotActive;;
      require (negb (pre_activation_offence_refusal_active (epoch s) && Slashing.offence_predates_activation ev))
        EvidenceNotActive;;
      roster ← must (consensus_roster_at s (epoch s));
      rej_as (λ _, StakingRule) (apply_slashing_evidence s ev 0 roster verifier);; Ret tt
  | TxKesRegister t =>
      require (kes_registration_open (epoch s)) StakingNotActive;;
      check_kes_register s t verifier;; Ret tt
  | TxKesRotate t =>
      require (kes_registration_open (epoch s)) StakingNotActive;;
      check_kes_rotate s t verifier;; Ret tt
  | TxFundedDelegate _ | TxFundedUndelegate _ | TxFundedDelegationWithdraw _ | TxValidatorCommissionUpdate _
  | TxWithdrawalCredentialRotation _ | TxRescueCommit _ | TxRescueReveal _ | TxExitV2 _ | TxRandaoRecommit _ =>
      apply_transaction s tx total_active_sat base_fee verifier;; Ret tt
  | _ => Ret tt
  end.
End apply.

(** ** Recorded amounts stay non-negative *)

Section effects.
Context `{Sha3} `{Keccak} {G : Gates} {R : Rules}.
Implicit Types s : CommittedState.

Lemma settlement_apply_escrow l2 tx parent sl async v l2' :
  Settlement.apply l2 tx parent sl async v = Ret l2' → Settlement.escrow_sat l2' = Settlement.escrow_sat l2.
Proof.
  unfold Settlement.apply. case_goal; [done|]. intros E. outcome_inv E.
  repeat (case_match; [done|]; outcome_inv E). by injection E as <-.
Qed.

Lemma apply_settlement_net s tx async v s' c :
  apply_settlement s tx async v = Ret (s', c) →
  frame s s' ∧ net s' = net s ∧ fees_of c = 0 ∧ (amounts_wf s → amounts_wf s').
Proof.
  unfold apply_settlement. intros E. outcome_inv E. injection E as <- <-.
  rename select (Settlement.apply _ _ _ _ _ _ = _) into Ha. apply settlement_apply_escrow in Ha.
  rename select (l2_settlement s = _) into Hl. split; [by constructor|]. split; [|split; [done|intros []; by constructor]].
  sheet. rewrite Hl. lia.
Qed.

Lemma spends_wf s s' c ins outs : spends s s' c ins outs → amounts_wf s → amounts_wf s'.
Proof. intros Hs []. rewrite (sp_same s s' c ins outs Hs). by constructor. Qed.

Lemma apply_funded_deposit_wf s tx total base v s' c :
  apply_funded_deposit s tx total base v = Ret (s', c) → 0 ≤ fd_amount_sat tx → 0 ≤ fd_commission_bps tx →
  amounts_wf s → amounts_wf s'.
Proof.
  unfold apply_funded_deposit. intros E Ha Hc []. outcome_inv E. injection E as <- <-.
  constructor; cbn; try done; [by apply record_insert_wf|]. apply Forall_app_2; [done|]. by constructor.
Qed.

Lemma apply_funded_delegate_wf s tx base v s' c :
  apply_funded_delegate s tx base v = Ret (s', c) → amounts_wf s → amounts_wf s'.
Proof.
  unfold apply_funded_delegate. intros E []. outcome_inv E. injection E as <- <-.
  rename select (fe_validate_shape _ = true) into Hs. apply fe_shape_sorted in Hs as [_ Ha].
  constructor; cbn; try done. apply Forall_app_2; [done|]. by constructor.
Qed.

Lemma apply_validator_commission_update_wf s tx v s' c :
  apply_validator_commission_update s tx v = Ret (s', c) → 0 ≤ cu_commission_bps tx → amounts_wf s → amounts_wf s'.
Proof.
  unfold apply_validator_commission_update. intros E Hc Hwf. outcome_inv E. injection E as <- <-.
  rename select (validators s !! _ = _) into Hr. pose proof (aw_records s Hwf _ _ Hr) as [? _]. destruct Hwf.
  constructor; cbn; try done. by apply record_insert_wf.
Qed.

Lemma apply_funded_undelegate_wf s tx v s' c :
  apply_funded_undelegate s tx v = Ret (s', c) → amounts_wf s → amounts_wf s'.
Proof.
  unfold apply_funded_undelegate. intros E Hwf. outcome_inv E. injection E as <- <-.
  rename select (delegations s !! _ = _) into Hd. pose proof (Forall_lookup_1 _ _ _ _ (aw_delegations s Hwf) Hd).
  destruct Hwf. constructor; cbn; try done. by apply Forall_insert.
Qed.

Lemma apply_funded_delegation_withdrawal_wf s tx base v s' c :
  apply_funded_delegation_withdrawal s tx base v = Ret (s', c) → amounts_wf s → amounts_wf s'.
Proof.
  unfold apply_funded_delegation_withdrawal. intros E []. outcome_inv E. injection E as <- <-.
  constructor; cbn; try done; by apply nonneg_delete.
Qed.

Lemma apply_l2_deposit_wf s tx base v s' c :
  apply_l2_deposit s tx base v = Ret (s', c) → amounts_wf s → amounts_wf s'.
Proof. unfold apply_l2_deposit. intros E []. outcome_inv E. injection E as <- <-. by constructor. Qed.
Lemma apply_l2_data_availability_wf s tx base v s' c :
  apply_l2_data_availability s tx base v = Ret (s', c) → amounts_wf s → amounts_wf s'.
Proof. unfold apply_l2_data_availability. intros E []. outcome_inv E. injection E as <- <-. by constructor. Qed.
Lemma apply_l2_withdraw_claim_wf s tx base v s' c :
  apply_l2_withdraw_claim s tx base v = Ret (s', c) → amounts_wf s → amounts_wf s'.
Proof. unfold apply_l2_withdraw_claim. intros E []. outcome_inv E. injection E as <- <-. by constructor. Qed.
Lemma apply_rescue_commit_wf s tx s' c :
  apply_rescue_commit s tx = Ret (s', c) → amounts_wf s → amounts_wf s'.
Proof. unfold apply_rescue_commit. intros E []. outcome_inv E. injection E as <- <-. by constructor. Qed.
Lemma apply_rescue_reveal_wf s tx base v s' c :
  apply_rescue_reveal s tx base v = Ret (s', c) → amounts_wf s → amounts_wf s'.
Proof. unfold apply_rescue_reveal. intros E []. outcome_inv E. injection E as <- <-. by constructor. Qed.

Lemma apply_withdrawal_credential_rotation_wf s tx v s' c :
  apply_withdrawal_credential_rotation s tx v = Ret (s', c) → amounts_wf s → amounts_wf s'.
Proof.
  unfold apply_withdrawal_credential_rotation. intros E Hwf. outcome_inv E. injection E as <- <-.
  rename select (validators s !! _ = _) into Hr. pose proof (aw_records s Hwf _ _ Hr). destruct Hwf.
  constructor; cbn; try done. by apply record_insert_wf.
Qed.

(** ** Every transaction *)

(** The stake an unfunded deposit or delegation brings in from outside the ledger. *)
Definition bonded_sat (tx : PosTransaction) : Z :=
  match tx with
  | Deposit t => d_amount_sat t
  | Delegate t => dg_amount_sat t
  | _ => 0
  end.

(** Closes the case of one handler from what it does to the balance sheet and to the
    recorded amounts. *)
Ltac effect net wf :=
  match goal with E : _ = Ret (_, _) |- _ =>
    let Hw := fresh "Hw" in pose proof E as Hw; apply wf in Hw; [|done..]; apply net in E; [|done..];
    destruct_and?; split_and!; [done|lia|done]
  end.
Ltac effect_same net :=
  match goal with E : _ = Ret (_, _) |- _ => apply net in E; [|done..]; destruct_and?; split_and!; [done|lia|auto] end.

Lemma apply_transaction_effect s tx total base v s' c :
  apply_transaction s tx total base v = Ret (s', c) → amounts_wf s → tx_wf tx →
  frame s s' ∧ net s' + fees_of c ≤ net s + bonded_sat tx ∧ amounts_wf s'.
Proof.
  intros E Hwf Htx. unfold apply_transaction in E.
  set (w := PolicyVerifier v (transaction_policy (epoch s))) in E. clearbody w.
  pose proof (aw_delegations s Hwf).
  destruct tx; cbn [bonded_sat tx_wf] in *; try (apply rej_as_Ret in E).
  - effect_same apply_settlement_net.
  - effect_same apply_settlement_net.
  - destruct Htx as (_ & _ & _ & _ & _ & [Ha _] & _ & _ & [Hc _] & _). effect apply_funded_deposit_net apply_funded_deposit_wf.
  - effect apply_funded_delegate_net apply_funded_delegate_wf.
  - effect apply_funded_undelegate_net apply_funded_undelegate_wf.
  - destruct Htx as (_ & _ & _ & [Hp1 Hp2] & _). assert (0 ≤ fw_position tx ≤ u32_MAX) by (unfold u32_MAX; lia).
    effect apply_funded_delegation_withdrawal_net apply_funded_delegation_withdrawal_wf.
  - destruct Htx as (_ & _ & _ & [Hc _] & _). effect apply_validator_commission_update_net apply_validator_commission_update_wf.
  - destruct Htx as (_ & _ & _ & _ & _ & [[Hv _] _] & _). effect apply_l2_deposit_net apply_l2_deposit_wf.
  - destruct Htx as (_ & _ & _ & _ & _ & _ & [[Hv _] _] & _).
    effect apply_l2_data_availability_net apply_l2_data_availability_wf.
  - destruct Htx as (_ & _ & _ & _ & _ & _ & _ & _ & _ & [[Hv _] _] & _).
    effect apply_l2_withdraw_claim_net apply_l2_withdraw_claim_wf.
  - effect apply_withdrawal_credential_rotation_net apply_withdrawal_credential_rotation_wf.
  - effect apply_rescue_commit_net apply_rescue_commit_wf.
  - effect apply_rescue_reveal_net apply_rescue_reveal_wf.
  - outcome_inv E. apply rej_as_Ret, apply_transfer_Ret in E as (Hs & _). pose proof (spends_wf _ _ _ _ _ Hs Hwf).
    apply spends_net in Hs as [? ?]. split_and!; [done|lia|done].
  - outcome_inv E. apply rej_as_Ret, apply_transfer_v2_Ret in E as (Hs & _). pose proof (spends_wf _ _ _ _ _ Hs Hwf).
    apply spends_net in Hs as [? ?]. split_and!; [done|lia|done].
  - destruct Htx as (_ & [Ha _] & _ & _ & [Hc _] & _). effect apply_deposit_net apply_deposit_wf.
  - effect_same apply_exit_net.
  - effect_same apply_withdrawal_net.
  - effect_same apply_exit_v2_net.
  - effect_same apply_randao_recommit_net.
  - effect_same apply_kes_register_net.
  - effect_same apply_kes_rotate_net.
  - effect apply_delegate_net apply_delegate_wf.
  - done.
Qed.

(** ** Fees are not negative *)

Definition class_wf (class : TxClass) : Prop :=
  match class with
  | Eutxo n => 0 ≤ n
  | EutxoSuites hybrid slh => 0 ≤ hybrid ∧ 0 ≤ slh
  | _ => True
  end.

Lemma count_suites_wf keys hybrid slh :
  0 ≤ hybrid → 0 ≤ slh → 0 ≤ (count_suites keys hybrid slh).1 ∧ 0 ≤ (count_suites keys hybrid slh).2.
Proof.
  revert hybrid slh. induction keys as [|k keys IH]; intros; cbn; [done|].
  destruct (verify_suite_of k); apply IH; unfold saturating_add, u32_MAX; lia.
Qed.

Lemma class_for_keys_wf ep keys : class_wf (eutxo_class_for_keys ep keys).
Proof.
  unfold eutxo_class_for_keys, eutxo_class_for_keys_with.
  pose proof (count_suites_wf keys 0 0 ltac:(lia) ltac:(lia)) as Hc. destruct (count_suites keys 0 0) as [h sl]. cbn in Hc.
  case_goal; cbn; [unfold saturating_add, u32_MAX; lia|lia].
Qed.

Definition fees_wf (c : TxCharge) : Prop := 0 ≤ base_fee_sat c ∧ 0 ≤ priority_fee_sat c.

Lemma part_sat_nonneg gas price : 0 ≤ gas → 0 ≤ price → 0 ≤ part_sat gas price.
Proof.
  intros Hg Hp. unfold part_sat, ceil_div.
  assert (0 ≤ saturating_mul u128_MAX gas price / MILLISAT_PER_SAT).
  { apply Z.div_pos; [unfold saturating_mul, u128_MAX; nia|done]. }
  case_goal; lia.
Qed.

Lemma charge_nonneg class bytes base tip :
  class_wf class → 0 ≤ bytes → 0 ≤ base → 0 ≤ tip → fees_wf (charge class bytes base tip).
Proof.
  intros Hc Hb Hp Ht.
  assert (0 ≤ verify_gas class).
  { destruct class; cbn in *; unfold saturating_add, saturating_mul, u64_MAX; try done.
    - assert (0 ≤ HYBRID_VERIFY_GAS) by done. nia.
    - assert (0 ≤ HYBRID_VERIFY_GAS) by done. assert (0 ≤ SLHDSA_FALCON_VERIFY_GAS) by done. nia. }
  assert (0 ≤ intrinsic_gas class bytes).
  { unfold intrinsic_gas, saturating_add, saturating_mul, u64_MAX, TX_FLAT_GAS, GAS_PER_BYTE. lia. }
  split; by apply part_sat_nonneg.
Qed.

Lemma zlength_nonneg {A} (l : list A) : 0 ≤ zlength l.
Proof. unfold zlength. lia. Qed.
Lemma inputs_class_wf inputs : class_wf (inputs_class inputs).
Proof. apply Z.mod_pos_bound. done. Qed.

Lemma staking_fees ep n len : fees_of (staking_tx_charge ep n len) = 0 ∧ fees_wf (staking_tx_charge ep n len).
Proof. unfold staking_tx_charge, fees_wf. by case_goal. Qed.

Lemma apply_transaction_fees s tx total base v s' c :
  apply_transaction s tx total base v = Ret (s', c) → tx_wf tx → 0 ≤ base → fees_wf c.
Proof.
  intros E Htx Hb. unfold apply_transaction in E.
  set (w := PolicyVerifier v (transaction_policy (epoch s))) in E. clearbody w.
  destruct tx; cbn [tx_wf] in *; try (apply rej_as_Ret in E).
  all: try (unfold apply_settlement, apply_funded_deposit, apply_funded_delegate, apply_funded_undelegate,
    apply_funded_delegation_withdrawal, apply_validator_commission_update, apply_l2_deposit,
    apply_l2_data_availability, apply_withdrawal_credential_rotation, apply_rescue_commit, apply_rescue_reveal,
    apply_deposit, apply_exit, apply_withdrawal, apply_exit_v2, apply_randao_recommit, apply_kes_register,
    apply_kes_rotate, apply_delegate in E; outcome_inv E; injection E as <- <-).
  all: try apply staking_fees.
  all: try done.
  - rename select (validate_funded_deposit _ _ _ _ _ = _) into E. unfold validate_funded_deposit in E.
    outcome_inv E. injection E as <- _ _ _ _. apply charge_nonneg; [done|apply Htx|done|first [done|apply Htx]].
  - apply charge_nonneg; [done|apply Htx|done|first [done|apply Htx]].
  - apply charge_nonneg; [done|apply zlength_nonneg|done|done].
  - apply charge_nonneg; [apply inputs_class_wf|apply Htx|done|first [done|apply Htx]].
  - apply charge_nonneg; [apply inputs_class_wf|apply Htx|done|first [done|apply Htx]].
  - unfold apply_l2_withdraw_claim, check_l2_withdraw_claim in E. outcome_inv E. injection E as _ <-.
    outcome_inv Hx. injection Hx as <-. apply charge_nonneg; [apply inputs_class_wf|apply Htx|done|first [done|apply Htx]].
  - unfold rotation_charge. case_goal; apply staking_fees.
  - apply charge_nonneg; [done|apply Htx|done|first [done|apply Htx]].
  - outcome_inv E. apply rej_as_Ret, apply_transfer_Ret in E as (_ & -> & _).
    apply charge_nonneg; [apply class_for_keys_wf|apply Htx|done|first [done|apply Htx]].
  - outcome_inv E. apply rej_as_Ret, apply_transfer_v2_Ret in E as (_ & -> & _).
    apply charge_nonneg; [apply class_for_keys_wf|apply Htx|done|first [done|apply Htx]].
Qed.

(** C8: a transaction cannot create value, rewrite history or leave an amount below
    zero.  Whatever the kind, an accepted (decodable) transaction leaves the slot, the epoch, the head,
    the randomness, the finality engine, the fork choice and the issuance counter as they
    were; what the ledger holds less what it burned falls by at least the fees charged,
    except for the amount of an unfunded deposit or delegation; and every stake, commission, principal,
    delegation, reward and loss on record is still non-negative; and slashed validators that
    were all ejected still are. *)
Theorem transaction_effects s tx total base v s' c :
  apply_transaction s tx total base v = Ret (s', c) → amounts_wf s → tx_wf tx →
  frame s s' ∧ net s' + fees_of c ≤ net s + bonded_sat tx ∧ amounts_wf s'.
Proof. apply apply_transaction_effect. Qed.

(** ** The mempool's verdict *)

(** The kinds the mempool judges by the handler's own checks, and those it replays on a
    copy of the state. *)
Definition checked_directly (tx : PosTransaction) : bool :=
  match tx with
  | TxFundedDeposit _ | Withdraw _ | TxKesRegister _ | TxKesRotate _ => true
  | _ => false
  end.
Definition replayed (tx : PosTransaction) : bool :=
  match tx with
  | TxFundedDelegate _ | TxFundedUndelegate _ | TxFundedDelegationWithdraw _ | TxValidatorCommissionUpdate _
  | TxWithdrawalCredentialRotation _ | TxRescueCommit _ | TxRescueReveal _ | TxExitV2 _ | TxRandaoRecommit _ => true
  | _ => false
  end.

Lemma then_Rej {E T U} (r : outcome E T) (f : T → outcome E U) (e : E) :
  (∀ t, r = Ret t → f t ≠ Rej e) → (r ≫= λ _, Ret tt) = Rej e ↔ (r ≫= f) = Rej e.
Proof. intros Hf. destruct r as [t| |]; cbn; naive_solver. Qed.

Lemma rej_as_bind {E E' T U} (f : E → E') (r : outcome E T) (k : T → outcome E U) :
  rej_as f (r ≫= k) = (rej_as f r ≫= λ t, rej_as f (k t)).
Proof. by destruct r. Qed.

(** The mempool refuses exactly what a block would.  For the kinds of transactions the
    mempool judges, the check refuses with an error if and only if applying the transaction
    refuses with that error, the verifier being the one behind the epoch's signature policy
    where the check does not replay the whole application. *)
Theorem relay_verdict s tx total base v e :
  let gated := PolicyVerifier v (transaction_policy (epoch s)) in
  (checked_directly tx = true →
     validate_lifecycle_transaction s tx total base gated = Rej e ↔ apply_transaction s tx total base v = Rej e) ∧
  (replayed tx = true →
     validate_lifecycle_transaction s tx total base v = Rej e ↔ apply_transaction s tx total base v = Rej e).
Proof.
  intros w. split.
  2: { destruct tx; try done; intros _; cbn [validate_lifecycle_transaction];
       destruct (apply_transaction _ _ _ _ _); naive_solver. }
  destruct tx; try done; intros _; cbn [validate_lifecycle_transaction]; unfold apply_transaction; fold w.
  - unfold apply_funded_deposit. rewrite rej_as_bind. apply then_Rej.
    intros [[[[? ?] ?] ?] ?] _. cbn. by destruct (commit _ _ _).
  - unfold apply_withdrawal. apply then_Rej. intros [[? ?] output] Hp. unfold withdrawal_plan in Hp. outcome_inv Hp.
    rename select (validators s !! _ = _) into Hr. rewrite Hr. cbn -[Utxo.insert].
    by match goal with |- context [must ?o] => destruct o end.
  - unfold apply_kes_register. destruct (kes_registration_open _); [|cbn; naive_solver]. apply (then_Rej (check_kes_register s tx w)); intros; done.
  - unfold apply_kes_rotate. destruct (kes_registration_open _); [|cbn; naive_solver]. apply (then_Rej (check_kes_rotate s tx w)); intros; done.
Qed.
End effects.

(** ** Examples *)

Definition ex_keccak : Keccak := λ _, 5.
Definition ex_exit : ExitV2 := mkExitV2 7 0 [].

Lemma transaction_effects_witness : frame ex_state ex_post ∧ net ex_post + 810 ≤ net ex_state ∧ amounts_wf ex_post.
Proof.
  destruct (@transaction_effects ex_sha ex_keccak mainnet mainnet_rules ex_state (Tx.Transfer ex_transfer) 0 10
    ex_verifier ex_post (mkCharge 80948 200 810 0)) as (Hf & Hn & Hw).
  - vm_compute. reflexivity.
  - by constructor.
  - cbn. split_and!; try done; repeat constructor; done.
  - cbn in Hn. split_and!; [done| |done]. unfold fees_of in Hn. cbn [base_fee_sat priority_fee_sat] in Hn. lia.
Defined.

Lemma relay_verdict_witness :
  @validate_lifecycle_transaction ex_sha ex_keccak mainnet mainnet_rules ex_state (TxExitV2 ex_exit) 0 10 ex_verifier
  = Rej StakingNotActive.
Proof.
  apply (proj2 (@relay_verdict ex_sha ex_keccak mainnet mainnet_rules ex_state (TxExitV2 ex_exit) 0 10 ex_verifier
    StakingNotActive)); [reflexivity|]. vm_compute. reflexivity.
Defined.
End Apply.
