(* ===== verification/Epoch.v ===== *)
(** * Closing an epoch

    Models [CommittedState::close_epoch] of [crates/bloch-pos-committee/src/transition.rs]:
    the finality of the epoch's votes, the issuance paid to the validators that attested,
    the producers' fees, the randomness recorded for later seeds, the activations of the
    next epoch, forward-secure key enforcement, the activation of the settlement layer,
    the delegations that became withdrawable and the committees of the next epoch.
    [None] is a panic (an overflow, or the invariant on the committees).

    The theorems: closing an epoch credits no more than it counts as issued and issues no
    more than the headroom under the supply cap, fees only move, and no recorded amount becomes
    negative. *)

From S2P Require Import Prelude Bytes Params Types Finality Sample Schedule Committees Signatures Kes Header.
From S2P Require Import Delegation Slashing Staking Tokenomics Rewards FeeMarket Cohort Beacon Tx Utxo Settlement State.
From S2P Require Import Transfer Funded L2Tx Pq Lifecycle.
Local Open Scope Z_scope.

Module Epoch.
Import Bytes Params Signatures State Lifecycle.

Definition RANDAO_BOUNDARIES_RETAINED : Z := 2.

(** The pending votes in the order of the map's keys: validator, then signing root. *)
Definition vote_key_leb (a b : Z * hash * Types.AttestationData) : bool :=
  let '(v, r, _) := a in
  let '(v', r', _) := b in
  (v <? v') || ((v =? v') && (r <=? r')).
Definition vote_key_le (a b : Z * hash * Types.AttestationData) : Prop := vote_key_leb a b = true.
Global Instance vote_key_le_dec : RelDecision vote_key_le.
Proof. unfold vote_key_le. intros a b. apply _. Defined.

Definition votes_in_order (m : gmap (Z * hash) Types.AttestationData) : list (Z * hash * Types.AttestationData) :=
  merge_sort vote_key_le (map_to_list m).

(** [first..first + SLOTS_PER_EPOCH]. *)
Definition epoch_slots (first : Z) : list Z := (λ i, first + Z.of_nat i) <$> seq 0 (Z.to_nat SLOTS_PER_EPOCH).

(** [for x in l { acc = f(acc, x)? }] *)
Definition try_fold {A X} (f : A → X → option A) : A → list X → option A :=
  fix go a l := match l with [] => Some a | x :: l => a ← f a x; go a l end.

(** ** Who earned the epoch's credit *)

(** [valid_credit]: the first vote of each validator counts when it names the closing epoch
    and the justified checkpoint; a second distinct vote forfeits. *)
Fixpoint scan_credit (closing source : Z) (votes : list (Z * hash * Types.AttestationData))
    (seen_root : gmap Z hash) (equivocated : gset Z) (credit : gmap Z bool) : gset Z * gmap Z bool :=
  match votes with
  | [] => (equivocated, credit)
  | (v, root, d) :: votes =>
      match seen_root !! v with
      | Some prior =>
          scan_credit closing source votes seen_root
            (if negb (prior =? root) then {[v]} ∪ equivocated else equivocated) credit
      | None =>
          let ok := (Types.target_epoch d =? closing) && (Types.source_epoch d =? source) in
          scan_credit closing source votes (<[v := root]> seen_root) equivocated (<[v := ok]> credit)
      end
  end.

Definition valid_credit (closing source : Z) (votes : list (Z * hash * Types.AttestationData)) : gmap Z bool :=
  let '(equivocated, credit) := scan_credit closing source votes ∅ ∅ ∅ in
  set_fold (λ v m, <[v := false]> m) credit equivocated.

Section epoch.
Context {HS : Sha3} {HK : Keccak} {HX : Xof} (fuel : nat) {G : Gates} {R : Rules} {B : Settlement.Build}.
(** The settlement activation built into the program. *)
Context (built : option Settlement.Activation).
Implicit Types s : CommittedState.

Definition own_chain_credit s (closing : Z) : option (gset Z) :=
  if own_target_votes_active closing then
    let votes := filter (λ x, Types.target_epoch x.2 = closing) (votes_in_order (pending_votes s)) in
    let own : gset Z := list_to_set ((λ x, x.1.1) <$> filter (λ x, names_own_checkpoints s x.2 = true) votes) in
    let foreign : gset Z := list_to_set ((λ x, x.1.1) <$> filter (λ x, names_own_checkpoints s x.2 = false) votes) in
    Some (own ∖ foreign)
  else None.

(** ** Finality *)

Definition tally_votes s (closing : Z) (roster : list Types.Validator) : option CommittedState :=
  if closing <? 1 then Some s
  else
    let votes := (λ x, (x.1.1, x.2)) <$> votes_in_order (pending_votes s) in
    let s := s <| previous_justified := Finality.current_justified (finality_engine s) |> in
    partition_set ← consensus_roster_at s closing;
    committees ← Committees.epoch_committees_uncached fuel (seed_for_epoch s closing) closing partition_set;
    let epoch_votes := Finality.mkEpochVotes closing roster
                         (filter (λ vd, Committees.in_own_slot committees vd = true) votes) in
    Some (match Finality.process_epoch (finality_engine s) epoch_votes with
          | Ok (engine, _) => s <| finality_engine := engine |>
          | Err _ => s
          end).

(** ** Issuance *)

Definition epoch_issuance s (closing : Z) : option Z :=
  first ← mul_w u64_MAX closing SLOTS_PER_EPOCH;
  _ ← add_w u64_MAX first SLOTS_PER_EPOCH;
  issuance ← Delegation.sum_w 0 (Tokenomics.validator_reward_decay_sat <$> epoch_slots first);
  let headroom := saturating_sub Tokenomics.TOTAL_SUPPLY_SAT (issued_sat s) in
  Some (if headroom <? issuance then headroom else issuance).

Definition scheduled_to_propose s (closing first : Z) (roster : list Types.Validator) : option (gset Z) :=
  try_fold (λ acc sl, p ← Schedule.proposer fuel (seed_for_epoch s closing) sl roster;
                      Some match p with Some v => {[v]} ∪ acc | None => acc end)
    ∅ (epoch_slots first).

(** What the loop over the roster reads. *)
Record Issuance := mkIssuance {
  i_rewards_v2 : bool; i_funded : bool; i_credit : gmap Z bool; i_own : option (gset Z);
  i_registry : option Delegation.Registry; i_scheduled : gset Z; i_amount : Z; i_total : Z;
}.

Definition add_stake s (index amount : Z) : option CommittedState :=
  match validators s !! index with
  | Some rec =>
      x ← add_w u128_MAX (staked_sat rec) amount;
      Some (set_record s index (rec <| staked_sat := x |>))
  | None => Some s
  end.

(** Adds to the stake and to the issued total, when the validator is registered. *)
Definition issue_stake s (index amount : Z) : option CommittedState :=
  match validators s !! index with
  | Some _ =>
      s ← add_stake s index amount;
      y ← add_w u128_MAX (issued_sat s) amount;
      Some (s <| issued_sat := y |>)
  | None => Some s
  end.

Definition attested (i : Issuance) s (index : Z) : bool :=
  let base := if i_rewards_v2 i then default false (i_credit i !! index)
              else default false (current_participation s !! index) in
  base && match i_own i with Some own => bool_decide (index ∈ own) | None => true end.

(** The stake account the validator is paid on. *)
Definition issuance_account (i : Issuance) s (v : Types.Validator) : option Rewards.StakeAccount :=
  let index := Types.index v in
  let '(delegated, commission, extra_credit, extra_max) :=
    match i_registry i with
    | Some registry =>
        let scheduled := i_rewards_v2 i && bool_decide (index ∈ i_scheduled i) in
        let produced := i_rewards_v2 i && default false (current_proposed s !! index) in
        (Delegation.stake_of registry index,
         match validators s !! index with Some r => commission_bps r | None => 0 end,
         Z.b2z (scheduled && produced), Z.b2z scheduled)
    | None => (0, 0, 0, 0)
    end in
  '(self_stake, delegated) ←
    (if i_funded i then
       let effective := Types.effective_stake v in
       let own := match validators s !! index with Some r => staked_sat r | None => 0 end in
       let delegated := Z.min delegated MAX_FUNDED_DELEGATION_PER_VALIDATOR_SAT in
       total ← add_w u128_MAX own delegated;
       weight ← (if total =? 0 then Some 0 else x ← mul_w u128_MAX effective delegated; Some (x / total));
       self ← sub_w effective weight;
       Some (self, weight)
     else Some (Types.effective_stake v, delegated));
  Some (Rewards.mkAccount self_stake delegated commission (Z.b2z (attested i s index) + extra_credit) (1 + extra_max)).

(** The activated stake of each delegator of a validator. *)
Definition stakes_by_account (registry : Delegation.Registry) (index : Z) (ds : list Delegation.Delegation)
    : option (list (Z * Z)) :=
  items <$> try_fold (λ m d,
    let activated := Delegation.activated_sat registry d in
    if (Delegation.validator d =? index) && (0 <? activated)
    then credit m (Delegation.delegator d) activated else Some m) ∅ ds.

Definition pay_shares (m : gmap Z Z) (shares : list (Z * Z)) : option (gmap Z Z) :=
  try_fold (λ m dr, if 0 <? dr.2 then credit m dr.1 dr.2 else Some m) m shares.

Definition pay_delegators s (registry : Delegation.Registry) (index amount : Z) : option CommittedState :=
  stakes ← stakes_by_account registry index (delegations s);
  '(shares, dust) ← Rewards.split_delegator_fees stakes amount;
  s ← try_fold (λ s dr, if 0 <? dr.2 then
                          m ← credit (delegator_issuance_rewards s) dr.1 dr.2;
                          y ← add_w u128_MAX (issued_sat s) dr.2;
                          Some (s <| delegator_issuance_rewards := m |> <| issued_sat := y |>)
                        else Some s) s shares;
  if 0 <? dust then issue_stake s index dust else Some s.

Definition reward_validator (i : Issuance) s (v : Types.Validator) : option CommittedState :=
  account ← issuance_account i s v;
  payout ← Rewards.distribute account (i_amount i) (i_total i);
  s ← (if 0 <? Rewards.operator payout then issue_stake s (Types.index v) (Rewards.operator payout) else Some s);
  match i_registry i with
  | Some registry =>
      if 0 <? Rewards.delegators payout
      then pay_delegators s registry (Types.index v) (Rewards.delegators payout) else Some s
  | None => Some s
  end.

Definition issue_rewards s (closing : Z) (roster : list Types.Validator) : option CommittedState :=
  amount ← epoch_issuance s closing;
  let rewards_v2 := rewards_v2_active closing in
  let funded := funded_delegation_active closing in
  let own := own_chain_credit s closing in
  let credit := if rewards_v2
                then valid_credit closing (Types.epoch (previous_justified s)) (votes_in_order (pending_votes s))
                else ∅ in
  issuance_roster ← (if rewards_v2 then consensus_roster_at s closing else Some roster);
  registry ← (if rewards_v2 || funded then Some <$> Delegation.resolve (delegations s) closing else Some None);
  scheduled ← (if rewards_v2 then scheduled_to_propose s closing (closing * SLOTS_PER_EPOCH) issuance_roster
               else Some ∅);
  let total := Types.total_stake issuance_roster in
  let i := mkIssuance rewards_v2 funded credit own registry scheduled amount total in
  if 0 <? total then try_fold (reward_validator i) s issuance_roster else Some s.

(** ** Producers' fees *)

Definition pay_fees (pre : CommittedState) (closing : Z) (registry : Delegation.Registry) s (entry : Z * Z)
    : option CommittedState :=
  let '(index, amount) := entry in
  match validators s !! index with
  | None => Some s
  | Some rec =>
      let self_stake := match validators pre !! index with Some r => staked_sat r | None => staked_sat rec end in
      let account := Rewards.mkAccount self_stake (Delegation.stake_of registry index) (commission_bps rec) 1 1 in
      payout ← Rewards.distribute_producer_fees account amount;
      stakes ← stakes_by_account registry index (delegations s);
      '(shares, dust) ← Rewards.split_delegator_fees stakes (Rewards.delegators payout);
      m ← pay_shares (delegator_fee_rewards s) shares;
      let s := s <| delegator_fee_rewards := m |> in
      operator_credit ← add_w u128_MAX (Rewards.operator payout) dust;
      if fee_stake_decouple_active closing then
        if 0 <? operator_credit then
          m ← credit (validator_fee_rewards s) index operator_credit;
          Some (s <| validator_fee_rewards := m |>)
        else Some s
      else add_stake s index operator_credit
  end.

Definition settle_fees (pre : CommittedState) s (closing : Z) : option CommittedState :=
  registry ← Delegation.resolve (delegations s) closing;
  let fees := items (pending_fee_rewards s) in
  try_fold (pay_fees pre closing registry) (s <| pending_fee_rewards := ∅ |>) fees.

(** ** Into the next epoch *)

Definition record_mix s (closing : Z) : CommittedState :=
  let keep_from := saturating_sub closing (RANDAO_BOUNDARIES_RETAINED - 1) in
  s <| boundary_mixes := filter (λ em, keep_from ≤ em.1) (<[closing := randao_mix s]> (boundary_mixes s)) |>.

(** The queue's activations, for validators that are not funded. *)
Definition activate_queued s (next_epoch : Z) : CommittedState :=
  foldl (λ s ka,
    if ka.2 =? next_epoch then
      match pubkey_index s !! ka.1 with
      | Some index => if bool_decide (index ∈ funded_validators s) then s else activate s next_epoch index
      | None => s
      end
    else s) s (Staking.resolve_activations (deposit_history s) next_epoch).

Definition bind_kes s (next_epoch : Z) : option CommittedState :=
  if bool_decide (kes_enforced_from s = None) && bool_decide (is_Some (kes_period next_epoch)) then
    bps ← kes_registered_stake_bps s next_epoch;
    Some (if KES_MIN_REGISTERED_STAKE_BPS <=? bps
          then s <| kes_enforced_from := Some (saturating_add u64_MAX next_epoch KES_BIND_DELAY_EPOCHS) |> else s)
  else Some s.

Definition activate_settlement s (next_epoch : Z) : CommittedState :=
  if bool_decide (l2_settlement s = None) && l2_settlement_active next_epoch then
    match Settlement.activation_for built (admission_network_domain s) with
    | Some activation =>
        match Settlement.activated activation with
        | Ok l2 => s <| l2_settlement := Some l2 |>
        | Err _ => s
        end
    | None => s
    end
  else s.

Definition record_checkpoints s (next_epoch : Z) : CommittedState :=
  let s :=
    if native_claim_finality_active next_epoch then
      match l2_settlement s with
      | Some l2 =>
          s <| l2_settlement := Some (Settlement.record_checkpoint_root l2 next_epoch (head s)
                                        (Types.epoch (Finality.finalized (finality_engine s)))) |>
      | None => s
      end
    else s in
  if own_target_votes_active next_epoch
  then s <| finality_engine := Finality.record_own_checkpoint (finality_engine s) next_epoch (head s) |> else s.

(** The positions whose cool-down is over and whose stake is gone. *)
Definition newly_inactive s (registry : Delegation.Registry) (next_epoch : Z) : list Z :=
  omap (λ pd : nat * Delegation.Delegation,
    position ← try_from u32_MAX (Z.of_nat pd.1);
    '(inactive_since, withdrawn) ← funded_delegation_lifecycle s !! position;
    deactivation ← Delegation.deactivate_epoch pd.2;
    cooldown_end ← checked_add u64_MAX deactivation Delegation.COOLDOWN_EPOCHS;
    if (inactive_since =? u64_MAX) && negb withdrawn
       && bool_decide (is_Some (funded_delegation_owners s !! Delegation.delegator pd.2))
       && (cooldown_end <=? next_epoch) && (Delegation.activated_sat registry pd.2 =? 0)
    then Some position else None) (imap pair (delegations s)).

Definition mark_inactive s (next_epoch : Z) : option CommittedState :=
  if funded_delegation_active next_epoch then
    registry ← Delegation.resolve (delegations s) next_epoch;
    Some (s <| funded_delegation_lifecycle :=
            foldl (λ m position, <[position := (next_epoch, false)]> m) (funded_delegation_lifecycle s)
              (newly_inactive s registry next_epoch) |>)
  else Some s.

(** The records of the new epoch, and the invariant that its partition seats every
    validator of the roster once. *)
Definition open_epoch s (next_epoch : Z) : option CommittedState :=
  let s := s <| pending_votes := ∅ |> in
  roster_next ← consensus_roster_at s next_epoch;
  let s := s <| previous_participation := current_participation s |>
             <| current_participation := insert_all Types.index (λ _, false) ∅ roster_next |>
             <| current_proposed := ∅ |> in
  partition ← Committees.epoch_committees_uncached fuel (seed_for_epoch s next_epoch) next_epoch roster_next;
  if bool_decide (sort (concat partition) = sort (Types.index <$> roster_next))
  then Some s else None.

Definition close_epoch (pre : CommittedState) : option CommittedState :=
  let closing := epoch pre in
  roster ← duty_roster_at pre closing;
  s ← tally_votes pre closing roster;
  s ← issue_rewards s closing roster;
  s ← settle_fees pre s closing;
  let s := record_mix s closing in
  next_epoch ← add_w u64_MAX closing 1;
  let s := activate_queued s next_epoch in
  s ← activate_finalized_deposits s next_epoch;
  let s := Pq.prune_pq_rescue_commits (s <| epoch := next_epoch |>) next_epoch in
  s ← bind_kes s next_epoch;
  let s := record_checkpoints (activate_settlement s next_epoch) next_epoch in
  s ← mark_inactive s next_epoch;
  open_epoch s next_epoch.
End epoch.

(** ** What closing an epoch does to the balance sheet *)

Section effects.
Context {HS : Sha3} {HK : Keccak} {HX : Xof} (fuel : nat) {G : Gates} {R : Rules} {B : Settlement.Build}.
Context (built : option Settlement.Activation).
Implicit Types s : CommittedState.

Lemma try_fold_inv {A X} (f : A → X → option A) (P : A → Prop) a l a' :
  (∀ a x a', x ∈ l → f a x = Some a' → P a → P a') → try_fold f a l = Some a' → P a → P a'.
Proof.
  revert a. induction l as [|x l IH]; intros a Hf E Ha; cbn in E; [by injection E as <-|].
  apply bind_Some in E as (a1 & H1 & E). apply (IH a1); [|done|].
  - intros a0 y a2 Hy. apply Hf. by right.
  - apply (Hf a x); [by left|done..].
Qed.

(** What no part of the closing of an epoch touches. *)
Record keeps s s' : Prop := {
  ke_slot : slot s' = slot s;
  ke_head : head s' = head s;
  ke_eutxos : eutxos s' = eutxos s;
  ke_delegations : delegations s' = delegations s;
  ke_history : deposit_history s' = deposit_history s;
  ke_domain : admission_network_domain s' = admission_network_domain s;
  ke_latest : latest_messages s' = latest_messages s;
  ke_equivocators : fc_equivocators s' = fc_equivocators s;
  ke_ejected : slashed_ejected s → slashed_ejected s';
}.

Lemma keeps_trans s1 s2 s3 : keeps s1 s2 → keeps s2 s3 → keeps s1 s3.
Proof. intros [] []. constructor; solve [congruence|auto]. Qed.

(** New stake on the books, all of it counted as issued, at most [k]. *)
Record mints (k : Z) s s' : Prop := {
  mi_net : net s' - net s = issued_sat s' - issued_sat s;
  mi_issued : issued_sat s ≤ issued_sat s' ≤ issued_sat s + k;
  mi_wf : amounts_wf s → amounts_wf s';
  mi_epoch : epoch s' = epoch s;
  mi_keeps : keeps s s';
}.

Lemma mints_refl k s : 0 ≤ k → mints k s s.
Proof. intros. by split; [lia|lia|..]. Qed.

Lemma mints_trans k1 k2 s1 s2 s3 : mints k1 s1 s2 → mints k2 s2 s3 → mints (k1 + k2) s1 s3.
Proof. intros [] []. split; [lia|lia|auto|congruence|by eapply keeps_trans]. Qed.

Lemma mints_weaken k k' s s' : mints k s s' → k ≤ k' → mints k' s s'.
Proof. intros [] ?. by split; [lia|lia|..]. Qed.

Lemma add_stake_Some s i x s' :
  add_stake s i x = Some s' → 0 ≤ x →
  net s' = net s + (if bool_decide (is_Some (validators s !! i)) then x else 0) ∧ issued_sat s' = issued_sat s ∧
  (amounts_wf s → amounts_wf s') ∧ epoch s' = epoch s ∧ keeps s s'.
Proof.
  unfold add_stake. destruct (validators s !! i) as [rec|] eqn:Hr; intros E Hx.
  - apply bind_Some in E as (y & ? & [= <-]). checked_inv. rewrite (set_record_net _ _ _ _ Hr). cbn.
    split; [lia|]. split; [done|]. split; [|split; [done|frame_record]]. intros Hwf.
    pose proof (aw_records s Hwf i rec Hr) as [? ?]. apply set_record_wf; [done|]. split; cbn; [lia|done].
  - injection E as <-. cbn. split_and!; [lia|done..].
Qed.

Lemma issue_stake_mints s i x s' : issue_stake s i x = Some s' → 0 ≤ x → mints x s s'.
Proof.
  unfold issue_stake. destruct (validators s !! i) as [rec|] eqn:Hr; intros E Hx.
  - apply bind_Some in E as (s1 & H1 & E). apply add_stake_Some in H1 as (Hn & Hi & Hw & He & Hk); [|done].
    rewrite bool_decide_eq_true_2 in Hn by (by rewrite Hr).
    apply bind_Some in E as (y & ? & [= <-]). checked_inv. split.
    + cbn. sheet in Hn. sheet. lia.
    + cbn. lia.
    + intros []%Hw. by constructor.
    + done.
    + destruct Hk. by constructor.
  - injection E as <-. by apply mints_refl.
Qed.

Lemma stakes_by_account_nonneg registry i ds stakes :
  stakes_by_account registry i ds = Some stakes → Forall (Z.le 0) (stakes.*2).
Proof.
  unfold stakes_by_account. intros (m & Hm & ->)%fmap_Some.
  assert (nonneg m) as Hn.
  { eapply (try_fold_inv _ nonneg); [|exact Hm|apply map_Forall_empty]. cbn. intros m0 d m1 _ Hf Hn.
    destruct (_ && _) eqn:E; [|by simplify_eq]. boolp. apply credit_Some in Hf as [_ Hf]. apply Hf; [done|lia]. }
  apply Forall_forall. intros x ([k y] & -> & Hx)%list_elem_of_fmap. apply elem_of_items in Hx. by eapply Hn.
Qed.

Lemma pay_delegators_mints s registry i amount s' :
  pay_delegators s registry i amount = Some s' → 0 ≤ amount → mints amount s s'.
Proof.
  unfold pay_delegators. intros (stakes & Hst & E)%bind_Some Ha. apply stakes_by_account_nonneg in Hst.
  apply bind_Some in E as ([shares dust] & Hsp & E). apply Rewards.split_delegator_fees_Some in Hsp as [Hsum Hn].
  destruct (Hn Ha Hst) as [Hsh Hd]. apply bind_Some in E as (s1 & H1 & E).
  assert (mints (sumZ (shares.*2)) s s1) as Hm1.
  { clear Hsum Hn E. revert s H1. induction shares as [|[d r] shares IH]; intros s H1; cbn in H1.
    { injection H1 as <-. by apply mints_refl. }
    apply bind_Some in H1 as (s2 & H2 & H1). csimpl in *. apply Forall_cons in Hsh as [Hr Hsh].
    apply IH in H1; [|done]. eapply mints_trans; [|exact H1]. cbn in H2.
    case_match; [|injection H2 as <-; by apply mints_refl].
    apply bind_Some in H2 as (m & Hc & H2). apply bind_Some in H2 as (y & ? & [= <-]). checked_inv.
    apply credit_Some in Hc as [Hc Hcn]. split; cbn; [sheet; lia|lia| |done|done].
    intros []. constructor; cbn; try done. auto. }
  case_match; [|injection E as <-; eapply mints_weaken; [done|lia]].
  apply issue_stake_mints in E; [|done]. eapply mints_weaken; [by eapply mints_trans|lia].
Qed.

(** ** Issuance *)

(** The gates that give the stake account its total: delegated stake is split off the
    effective stake, or not counted at all. *)
Definition weighs_effective (i : Issuance) : Prop := i_funded i = true ∨ i_registry i = None.

Definition registry_ok (i : Issuance) : Prop := ∀ reg v, i_registry i = Some reg → 0 ≤ Delegation.stake_of reg v.

Lemma b2z_bounds b : 0 ≤ Z.b2z b ≤ 1.
Proof. by destruct b. Qed.

Lemma issuance_account_wf i s v a :
  issuance_account i s v = Some a → amounts_wf s → registry_ok i → 0 ≤ Types.effective_stake v →
  Rewards.account_wf a ∧
  (weighs_effective i → Rewards.self_stake a + Rewards.delegated_stake a = Types.effective_stake v).
Proof.
  unfold issuance_account, weighs_effective. intros E Hwf Hreg Hv.
  set (own := match validators s !! Types.index v with Some r => staked_sat r | None => 0 end) in E.
  set (cm := match validators s !! Types.index v with Some r => commission_bps r | None => 0 end) in E.
  assert (0 ≤ own ∧ 0 ≤ cm) as [Hown Hcm].
  { subst own cm. destruct (validators s !! _) as [r|] eqn:Hr; [apply (aw_records s Hwf _ _ Hr)|done]. }
  match type of E with (let '_ := ?q in _) = _ => set (quad := q) in E end.
  assert (0 ≤ quad.1.1.1 ∧ 0 ≤ quad.1.1.2 ∧ 0 ≤ quad.1.2 ∧ 0 ≤ quad.2 ∧ (i_registry i = None → quad.1.1.1 = 0)) as Hq.
  { subst quad. destruct (i_registry i) as [reg|] eqn:Hr; cbn; [|done].
    split_and!; [by apply Hreg|done|apply b2z_bounds..|done]. }
  clearbody quad own cm. destruct quad as [[[del c] ec] em]. cbn in Hq. destruct Hq as (Hd & Hc & Hec & Hem & Hnone).
  apply bind_Some in E as ([self' del'] & Hsd & [= <-]).
  assert (0 ≤ self' ∧ 0 ≤ del' ∧ (i_funded i = true ∨ i_registry i = None → self' + del' = Types.effective_stake v))
    as (Hs' & Hd' & Hsum).
  { destruct (i_funded i).
    - apply bind_Some in Hsd as (total & Ht & Hsd). apply bind_Some in Hsd as (w & Hw & Hsd).
      apply bind_Some in Hsd as (self & Hself & [= <- <-]). checked_inv. split_and!; [lia| |lia].
      destruct (Z.eqb_spec (own + Z.min del MAX_FUNDED_DELEGATION_PER_VALIDATOR_SAT) 0) as [|Hne];
        [by simplify_eq|]. apply bind_Some in Hw as (x & ? & [= <-]). checked_inv.
      assert (0 ≤ MAX_FUNDED_DELEGATION_PER_VALIDATOR_SAT) by done. apply Z.div_pos; nia.
    - injection Hsd as <- <-. split_and!; [done..|]. intros [|Hr]; [done|]. rewrite (Hnone Hr). lia. }
  split; [|exact Hsum]. constructor; cbn; try done; [|lia]. pose proof (b2z_bounds (attested i s (Types.index v))). lia.
Qed.

Lemma reward_validator_mints i s v s' :
  reward_validator i s v = Some s' → amounts_wf s → registry_ok i → 0 ≤ Types.effective_stake v →
  0 ≤ i_amount i → 0 < i_total i →
  ∃ k, mints k s s' ∧ (weighs_effective i → k ≤ i_amount i * Types.effective_stake v / i_total i).
Proof.
  unfold reward_validator. intros (a & Ha & E)%bind_Some Hwf Hreg Hv Hi Ht.
  apply issuance_account_wf in Ha as [Haw Hsum]; [|done..].
  apply bind_Some in E as (p & Hp & E). apply Rewards.distribute_Some in Hp as (Ho & Hd & Hb); [|done..].
  apply bind_Some in E as (s1 & H1 & E). exists (Rewards.operator p + Rewards.delegators p). split.
  - apply (mints_trans _ _ s s1).
    + destruct (0 <? _) in H1; [by apply issue_stake_mints in H1|injection H1 as <-; by apply mints_refl].
    + destruct (i_registry i) as [reg|]; [|injection E as <-; by apply mints_refl].
      destruct (0 <? _) in E; [by apply pay_delegators_mints in E|injection E as <-; by apply mints_refl].
  - intros Hw. by rewrite <- (Hsum Hw).
Qed.

Lemma reward_loop_mints i roster s s' :
  try_fold (reward_validator i) s roster = Some s' → amounts_wf s → registry_ok i → roster_wf roster →
  0 ≤ i_amount i → 0 < i_total i →
  ∃ k, mints k s s' ∧ (weighs_effective i → i_total i * k ≤ i_amount i * Types.total_stake roster).
Proof.
  intros E Hwf Hreg Hro Hi Ht. revert s Hwf E. induction Hro as [|v roster Hv Hro IH]; intros s Hwf E; cbn in E.
  { injection E as <-. exists 0. split; [by apply mints_refl|]. unfold Types.total_stake. cbn. lia. }
  apply bind_Some in E as (s1 & H1 & E).
  destruct (reward_validator_mints i s v s1 H1 Hwf Hreg Hv Hi Ht) as (k1 & Hm1 & Hk1).
  destruct (IH s1 (mi_wf _ _ _ Hm1 Hwf) E) as (k2 & Hm2 & Hk2). exists (k1 + k2).
  split; [by eapply mints_trans|]. intros Hw. specialize (Hk1 Hw). specialize (Hk2 Hw).
  unfold Types.total_stake in *. csimpl.
  pose proof (Z.mul_div_le (i_amount i * Types.effective_stake v) (i_total i) Ht). nia.
Qed.

(** ** Rosters have no negative stake *)

Lemma cohort_cap_wf vs cohort ep vs' :
  Cohort.apply_cohort_cap vs cohort ep = Some vs' → roster_wf vs → roster_wf vs'.
Proof.
  unfold Cohort.apply_cohort_cap. intros E Hw. destruct (_ =? 0); [by simplify_eq|].
  destruct (Cohort.cap_status _ _ _); try by simplify_eq. destruct (_ <=? _); [by simplify_eq|].
  apply mapM_Some in E. apply Forall_forall. intros v (j & Hj)%list_elem_of_lookup.
  destruct (Forall2_lookup_r _ _ _ _ _ E Hj) as (v0 & Hv0 & Hs). unfold Cohort.scale in Hs.
  destruct (Cohort.in_cohort _ _).
  - apply bind_Some in Hs as (x & _ & [= <-]). cbn. by apply Z.mod_pos_bound.
  - injection Hs as <-. by apply (Forall_lookup_1 _ _ _ _ Hw Hv0).
Qed.

Lemma saturating_sum_nonneg l : Forall (Z.le 0) l → 0 ≤ Delegation.saturating_sum l.
Proof.
  intros Hl. unfold Delegation.saturating_sum. assert (∀ acc, 0 ≤ acc → 0 ≤ foldl (saturating_add u128_MAX) acc l) as Hf; [|by apply Hf].
  induction Hl as [|x l Hx _ IH]; intros acc Ha; cbn; [done|]. apply IH. unfold saturating_add, u128_MAX. lia.
Qed.

Lemma combined_cap_nonneg roster :
  roster_wf roster → 0 ≤ Delegation.combined_cap_sat (Types.effective_stake <$> roster).
Proof.
  intros Hw. unfold Delegation.combined_cap_sat. destruct (Z.eqb_spec (Z.of_nat (length (filter (λ x, 0 < x)
    (Types.effective_stake <$> roster)))) 0) as [|Hn]; [done|].
  set (l := Types.effective_stake <$> roster) in *. assert (0 ≤ Delegation.saturating_sum l) as Ht
    by (apply saturating_sum_nonneg; by apply Forall_fmap).
  assert (0 ≤ Delegation.div_or_zero (Delegation.saturating_sum l) (Z.of_nat (length (filter (λ x, 0 < x) l)))).
  { unfold Delegation.div_or_zero. destruct (checked_div _ _) eqn:E; [|done]. checked_inv. cbn. apply Z.div_pos; lia. }
  case_goal; boolp; lia.
Qed.

Lemma duty_roster_wf s ep roster : duty_roster_at s ep = Some roster → amounts_wf s → roster_wf roster.
Proof.
  unfold duty_roster_at. intros (reg & Hr & E)%bind_Some Hwf. apply Delegation.resolve_stakes in Hr.
  apply bind_Some in E as (del & Hd & E). apply cohort_cap_wf in E; [done|]. clear E roster.
  assert (roster_wf del) as Hdw.
  { destruct (funded_delegation_active ep).
    - injection Hd as <-. apply Forall_fmap. eapply Forall_impl; [exact Hr|]. intros [v st] Hs. cbn in *.
      unfold MAX_FUNDED_DELEGATION_PER_VALIDATOR_SAT, Delegation.SAT_PER_BLOCH, u64_MAX. lia.
    - unfold Delegation.validators in Hd. apply bind_Some in Hd as (cap & _ & [= <-]). apply Forall_fmap.
      eapply Forall_impl; [exact Hr|]. intros [v st] Hs. cbn in *. unfold u64_MAX.
      repeat case_goal; boolp; lia. }
  set (base := omap _ _).
  assert (roster_wf base) as Hb.
  { apply Forall_forall. intros v ([i r] & Hir & Hv)%list_elem_of_omap. apply elem_of_items in Hir.
    pose proof (aw_staked s i r Hwf Hir) as Hst. unfold duty_entry in Hv. destruct (on_duty ep _); [|done].
    injection Hv as <-. cbn. assert (0 ≤ delegated_stake del i).
    { unfold delegated_stake. destruct (list_find _ _) as [[j x]|] eqn:E; [|done].
      apply list_find_Some in E as (E & _). exact (Forall_lookup_1 _ _ _ _ Hdw E). }
    unfold saturating_add, sat_u64. destruct (_ <? _); unfold u64_MAX; lia. }
  case_goal; [|done]. apply Forall_fmap. eapply Forall_impl; [exact Hb|]. intros v Hv. cbn.
  pose proof (combined_cap_nonneg base Hb). unfold sat_u64. repeat case_goal; boolp; done || lia.
Qed.

Lemma consensus_roster_wf s ep roster : consensus_roster_at s ep = Some roster → amounts_wf s → roster_wf roster.
Proof.
  unfold consensus_roster_at. intros (base & Hb & E)%bind_Some Hwf. apply duty_roster_wf in Hb; [|done].
  assert (∀ f, roster_wf (with_leak_applied base f)).
  { intros f. apply Forall_fmap, Forall_true. intros v. cbn. unfold saturating_sub. lia. }
  destruct (ep <? _); [by simplify_eq|]. destruct (_ && _); by simplify_eq.
Qed.

(** ** Every step of the closing *)

(** A step that issues nothing and adds nothing to the books. *)
Record settles s s' : Prop := {
  se_net : net s' ≤ net s;
  se_issued : issued_sat s' = issued_sat s;
  se_wf : amounts_wf s → amounts_wf s';
  se_keeps : keeps s s';
}.

Lemma settles_refl s : settles s s.
Proof. by split. Qed.

Lemma settles_trans s1 s2 s3 : settles s1 s2 → settles s2 s3 → settles s1 s3.
Proof. intros [] []. split; [lia|congruence|auto|by eapply keeps_trans]. Qed.

Lemma set_record_settles s i rec rec' :
  validators s !! i = Some rec → staked_sat rec' = staked_sat rec → commission_bps rec' = commission_bps rec →
  slashed rec' = slashed rec → settles s (set_record s i rec').
Proof.
  intros Hr Hs Hc Hsl. destruct (set_record_same s i rec rec' Hr Hs Hc Hsl) as (_ & Hn & Hw).
  split; [lia|done|done|frame_record].
Qed.

Lemma activate_settles s next i : settles s (activate s next i).
Proof.
  unfold activate. destruct (validators s !! i) as [rec|] eqn:Hr; [|apply settles_refl]. by eapply set_record_settles.
Qed.

Lemma activate_finalized_settles s next s' : activate_finalized_deposits s next = Some s' → settles s s'.
Proof.
  unfold activate_finalized_deposits. intros (ks & _ & [= <-])%bind_Some. revert s.
  induction ks as [|k ks IH]; intros s; cbn; [apply settles_refl|].
  eapply settles_trans; [apply activate_settles|apply IH].
Qed.

Lemma activate_queued_settles s next : settles s (activate_queued s next).
Proof.
  unfold activate_queued. generalize (Staking.resolve_activations (deposit_history s) next). intros l. revert s.
  induction l as [|[k a] l IH]; intros s; cbn; [apply settles_refl|]. eapply settles_trans; [|apply IH].
  destruct (a =? next); [|apply settles_refl]. destruct (pubkey_index s !! k); [|apply settles_refl].
  case_goal; [apply settles_refl|apply activate_settles].
Qed.

Lemma tally_votes_settles s closing roster s' :
  tally_votes fuel s closing roster = Some s' → settles s s'.
Proof.
  unfold tally_votes. destruct (_ <? 1); [intros [= <-]; apply settles_refl|].
  intros (ps & _ & (cs & _ & [= <-])%bind_Some)%bind_Some.
  destruct (Finality.process_epoch _ _) as [[]|]; (split; [done|done| |done]; intros []; by constructor).
Qed.

Lemma pay_shares_Some m shares m' :
  pay_shares m shares = Some m' → Forall (Z.le 0) (shares.*2) →
  map_total m' = map_total m + sumZ (shares.*2) ∧ (nonneg m → nonneg m').
Proof.
  unfold pay_shares. revert m. induction shares as [|[d r] l IH]; intros m E Hs; cbn in E.
  { injection E as <-. cbn. split; [lia|done]. }
  apply bind_Some in E as (m1 & H1 & E). csimpl in *. apply Forall_cons in Hs as [Hr Hs].
  destruct (IH m1 E Hs) as [-> Hn]. destruct (Z.ltb_spec 0 r).
  - apply credit_Some in H1 as [-> Hn1]. split; [lia|auto].
  - injection H1 as <-. split; [lia|done].
Qed.

Lemma pay_fees_settles pre closing registry s i x s' :
  pay_fees pre closing registry s (i, x) = Some s' → amounts_wf pre → amounts_wf s →
  (∀ v, 0 ≤ Delegation.stake_of registry v) → 0 ≤ x →
  net s' ≤ net s + x ∧ issued_sat s' = issued_sat s ∧ amounts_wf s' ∧ keeps s s'.
Proof.
  unfold pay_fees. intros E Hpre Hwf Hreg Hx.
  destruct (validators s !! i) as [rec|] eqn:Hr; [|injection E as <-; split_and!; [lia|done..]].
  apply bind_Some in E as (p & Hp & E). apply Rewards.distribute_producer_fees_Some in Hp as [Hsum Hn].
  destruct Hn as [Ho Hd]; [done| |apply Hreg|apply (aw_records s Hwf i rec Hr)|].
  { cbn. destruct (validators pre !! i) as [r|] eqn:Hpr; [by apply (aw_staked pre i)|by apply (aw_staked s i)]. }
  apply bind_Some in E as (stakes & Hst & E). apply stakes_by_account_nonneg in Hst.
  apply bind_Some in E as ([shares dust] & Hsp & E). apply Rewards.split_delegator_fees_Some in Hsp as [Hs2 Hn].
  destruct (Hn Hd Hst) as [Hsh Hdu]. apply bind_Some in E as (m & Hm & E). apply pay_shares_Some in Hm as [Hmt Hmn]; [|done].
  apply bind_Some in E as (oc & ? & E). checked_inv.
  set (s1 := s <| delegator_fee_rewards := m |>) in E.
  assert (net s1 = net s + sumZ (shares.*2)) as Hn1 by (subst s1; sheet; lia).
  assert (amounts_wf s1) as Hw1 by (destruct Hwf; constructor; cbn; auto).
  assert (keeps s s1) as Hk1 by done. assert (issued_sat s1 = issued_sat s) as Hi1 by done. clearbody s1.
  destruct (fee_stake_decouple_active closing).
  - destruct (Z.ltb_spec 0 (Rewards.operator p + dust)); [|injection E as <-; split_and!; [lia|done..]].
    apply bind_Some in E as (m2 & Hm2 & [= <-]). apply credit_Some in Hm2 as [Hm2 Hn2]. split_and!.
    + sheet in Hn1. sheet. lia.
    + done.
    + destruct Hw1. constructor; cbn; try done. apply Hn2; [done|lia].
    + eapply keeps_trans; [done|]. done.
  - apply add_stake_Some in E as (Hn3 & Hi3 & Hw3 & _ & Hk3); [|lia]. split_and!; [case_bool_decide; lia|congruence|auto|].
    by eapply keeps_trans.
Qed.

Lemma pay_fees_loop pre closing registry l s s' :
  try_fold (pay_fees pre closing registry) s l = Some s' → amounts_wf pre → amounts_wf s →
  (∀ v, 0 ≤ Delegation.stake_of registry v) → Forall (λ kx, 0 ≤ kx.2) l →
  net s' ≤ net s + sumZ (l.*2) ∧ issued_sat s' = issued_sat s ∧ amounts_wf s' ∧ keeps s s'.
Proof.
  intros E Hpre Hwf Hreg Hl. revert s E Hwf. induction Hl as [|[k x] l Hx _ IH]; intros s E Hwf; cbn in E.
  { injection E as <-. cbn. split_and!; [lia|done..]. }
  apply bind_Some in E as (s1 & H1 & E). apply pay_fees_settles in H1 as (Hn1 & Hi1 & Hw1 & Hk1); [|done..].
  destruct (IH s1 E Hw1) as (Hn & Hi & Hw & Hk). csimpl in *. split_and!; [lia|congruence|done|by eapply keeps_trans].
Qed.

Lemma map_total_items (m : gmap Z Z) : map_total m = sumZ ((items m).*2).
Proof.
  unfold map_total, map_sum. rewrite (items_perm m). f_equal.
Qed.

Lemma settle_fees_settles pre s closing s' :
  settle_fees pre s closing = Some s' → amounts_wf pre → amounts_wf s → settles s s'.
Proof.
  unfold settle_fees. intros (reg & Hr & E)%bind_Some Hpre Hwf. apply pay_fees_loop in E as (Hn & Hi & Hw & Hk).
  - rewrite <- map_total_items in Hn. split; [|done|done|destruct Hk; by constructor]. sheet in Hn. sheet.
    change (map_total ∅) with 0 in Hn. lia.
  - done.
  - destruct Hwf. by constructor.
  - intros. by eapply Delegation.stake_of_nonneg.
  - apply Forall_forall. intros [k x] Hx%elem_of_items. by eapply (aw_pending s Hwf).
Qed.

Lemma epoch_issuance_bounds s closing amount :
  epoch_issuance s closing = Some amount → 0 ≤ closing →
  0 ≤ amount ∧ amount ≤ Z.max 0 (Tokenomics.TOTAL_SUPPLY_SAT - issued_sat s).
Proof.
  unfold epoch_issuance. intros (first & Hf & E)%bind_Some Hc. apply bind_Some in E as (_ & _ & E).
  apply bind_Some in E as (x & Hx & [= <-]). checked_inv.
  assert (0 ≤ x).
  { eapply Slashing.sum_w_nonneg; [exact Hx|done|]. apply Forall_fmap, Forall_forall.
    intros sl (i & -> & _)%list_elem_of_fmap. cbn. apply Tokenomics.rewards_nonneg. }
  unfold saturating_sub. case_goal; boolp; lia.
Qed.

Lemma issue_rewards_mints s closing roster s' :
  issue_rewards fuel s closing roster = Some s' → amounts_wf s → roster_wf roster → 0 ≤ closing →
  (rewards_v2_active closing = true → funded_delegation_active closing = true) →
  mints (Z.max 0 (Tokenomics.TOTAL_SUPPLY_SAT - issued_sat s)) s s'.
Proof.
  unfold issue_rewards. intros (amount & Ha & E)%bind_Some Hwf Hro Hc Hg.
  apply epoch_issuance_bounds in Ha as [Ha0 Ha]; [|done].
  apply bind_Some in E as (ir & Hir & E). apply bind_Some in E as (reg & Hreg & E).
  apply bind_Some in E as (sch & _ & E).
  assert (roster_wf ir) as Hirw.
  { destruct (rewards_v2_active closing); [by eapply consensus_roster_wf|by simplify_eq]. }
  destruct (Z.ltb_spec 0 (Types.total_stake ir)); [|injection E as <-; apply mints_refl; lia].
  apply reward_loop_mints in E as (k & Hm & Hk); [|done| |done..].
  - eapply mints_weaken; [exact Hm|]. cbn in Hk. etrans; [|exact Ha].
    cut (Types.total_stake ir * k ≤ amount * Types.total_stake ir); [nia|]. apply Hk.
    unfold weighs_effective. cbn. destruct (funded_delegation_active closing); [by left|]. right.
    destruct (rewards_v2_active closing); [by specialize (Hg eq_refl)|]. by simplify_eq/=.
  - intros r v Hr. cbn in Hr. subst reg. destruct (_ || _); [|done].
    apply fmap_Some in Hreg as (r' & Hr' & [= ->]). by eapply Delegation.stake_of_nonneg.
Qed.

Lemma mark_inactive_settles s next s' :
  mark_inactive s next = Some s' → settles s s' ∧ epoch s' = epoch s.
Proof.
  unfold mark_inactive. destruct (funded_delegation_active next); [|intros [= <-]; split; [apply settles_refl|done]].
  intros (reg & _ & [= <-])%bind_Some. split; [|done]. split; [|done|intros []; by constructor|done].
  set (l := newly_inactive s reg next).
  assert (∀ p, p ∈ l → ∃ x, funded_delegation_lifecycle s !! p = Some (x, false)) as Hl.
  { intros p ([i d] & _ & Hp)%list_elem_of_omap. apply bind_Some in Hp as (q & Hq & Hp).
    apply bind_Some in Hp as ([x w] & Hx & Hp). apply bind_Some in Hp as (? & _ & Hp). apply bind_Some in Hp as (? & _ & Hp).
    destruct (_ && _) eqn:E; [|done]. injection Hp as <-. boolp. destruct w; [done|]. eauto. }
  match goal with |- net ?s' ≤ _ => assert (delegated_total s' = delegated_total s) as Ht end.
  { apply delegated_total_ext; [done|]. intros i. unfold is_withdrawn. cbn. clearbody l.
    generalize (Z.of_nat i `mod` 2 ^ 32). intros q.
    assert (∀ m : gmap Z (Z * bool), (∀ p, p ∈ l → ∃ x, m !! p = Some (x, false)) →
      match foldl (λ m position, <[position := (next, false)]> m) m l !! q with Some (_, w) => w | None => false end
      = match m !! q with Some (_, w) => w | None => false end) as Hm; [|by apply Hm].
    clear Hl. induction l as [|p l IH]; intros m Hl; cbn; [done|]. rewrite IH.
    - destruct (decide (p = q)) as [->|]; [|by rewrite lookup_insert_ne]. rewrite lookup_insert_eq.
      destruct (Hl q) as (x & ->); [by left|done].
    - intros p' Hp'. destruct (decide (p = p')) as [->|]; [rewrite lookup_insert_eq; eauto|].
      rewrite lookup_insert_ne by done. apply Hl. by right. }
  sheet in Ht. sheet. lia.
Qed.

Lemma activate_settlement_settles s next :
  settles s (activate_settlement built s next) ∧ epoch (activate_settlement built s next) = epoch s.
Proof.
  unfold activate_settlement. destruct (_ && _) eqn:E; [|split; [apply settles_refl|done]].
  destruct (Settlement.activation_for _ _) as [a|]; [|split; [apply settles_refl|done]].
  destruct (Settlement.activated a) as [l2|] eqn:Ha; [|split; [apply settles_refl|done]]. split; [|done].
  boolp. assert (Settlement.escrow_sat l2 = 0) as He.
  { unfold Settlement.activated, Settlement.genesis in Ha. destruct (negb _); [done|].
    apply result_bind_Ok in Ha as (g & Hg & [= <-]). destruct (negb _); [done|]. by injection Hg as <-. }
  split; [|done|intros []; by constructor|done]. rename select (l2_settlement s = None) into Hl.
  sheet. rewrite Hl, He. lia.
Qed.

Lemma record_checkpoints_settles s next :
  settles s (record_checkpoints s next) ∧ epoch (record_checkpoints s next) = epoch s.
Proof.
  unfold record_checkpoints.
  set (s1 := if native_claim_finality_active next then _ else s).
  assert (settles s s1 ∧ epoch s1 = epoch s) as [Hs He].
  { subst s1. case_goal; [|split; [apply settles_refl|done]].
    destruct (l2_settlement s) as [l2|] eqn:Hl; [|split; [apply settles_refl|done]].
    split; [|done]. split; [|done|intros []; by constructor|done]. sheet. rewrite Hl. cbn. lia. }
  clearbody s1. case_goal; [|done]. split; [|done]. eapply settles_trans; [done|].
  split; [done|done|intros []; by constructor|done].
Qed.

Lemma open_epoch_settles s next s' :
  open_epoch fuel s next = Some s' → settles s s' ∧ epoch s' = epoch s.
Proof.
  unfold open_epoch. intros (ros & _ & E)%bind_Some. apply bind_Some in E as (cs & _ & E).
  case_bool_decide; [|done]. injection E as <-. split; [|done]. split; [done|done|intros []; by constructor|done].
Qed.

Lemma bind_kes_settles s next s' : bind_kes s next = Some s' → settles s s' ∧ epoch s' = epoch s.
Proof.
  unfold bind_kes. destruct (_ && _); [|intros [= <-]; split; [apply settles_refl|done]].
  intros (bps & _ & [= <-])%bind_Some. case_goal; [|split; [apply settles_refl|done]].
  split; [|done]. split; [done|done|intros []; by constructor|done].
Qed.

(** Issuance and the balance sheet across the closing of an epoch. *)
Record closes s s' : Prop := {
  cl_epoch : epoch s' = epoch s + 1;
  cl_keeps : keeps s s';
  cl_net : net s' - net s ≤ issued_sat s' - issued_sat s;
  cl_issued : issued_sat s ≤ issued_sat s' ≤ Z.max (issued_sat s) Tokenomics.TOTAL_SUPPLY_SAT;
  cl_wf : amounts_wf s';
}.

Lemma close_epoch_epoch pre s' : close_epoch fuel built pre = Some s' → epoch s' = epoch pre + 1.
Proof.
  unfold close_epoch. intros (ros & _ & E)%bind_Some.
  apply bind_Some in E as (s1 & _ & E). apply bind_Some in E as (s2 & _ & E).
  apply bind_Some in E as (s3 & _ & E). apply bind_Some in E as (next & Hnext & E). checked_inv.
  apply bind_Some in E as (s5 & _ & E). apply bind_Some in E as (s7 & [_ He7]%bind_kes_settles & E).
  apply bind_Some in E as (s10 & [_ He10]%mark_inactive_settles & [_ He11]%open_epoch_settles).
  rewrite He11, He10. rewrite (proj2 (record_checkpoints_settles _ _)), (proj2 (activate_settlement_settles _ _)).
  by rewrite He7.
Qed.

Lemma close_epoch_closes pre s' :
  close_epoch fuel built pre = Some s' → amounts_wf pre → 0 ≤ epoch pre →
  (rewards_v2_active (epoch pre) = true → funded_delegation_active (epoch pre) = true) →
  closes pre s'.
Proof.
  unfold close_epoch. intros (ros & Hro & E)%bind_Some Hwf He Hg. apply duty_roster_wf in Hro; [|done].
  apply bind_Some in E as (s1 & H1 & E). apply tally_votes_settles in H1. pose proof (se_wf _ _ H1 Hwf) as Hw1.
  apply bind_Some in E as (s2 & H2 & E). apply issue_rewards_mints in H2; [|done..]. pose proof (mi_wf _ _ _ H2 Hw1) as Hw2.
  apply bind_Some in E as (s3 & H3 & E). apply settle_fees_settles in H3; [|done..].
  apply bind_Some in E as (next & Hnext & E). checked_inv.
  assert (settles s3 (record_mix s3 (epoch pre))) as H4 by (split; [done|done|intros []; by constructor|done]).
  apply bind_Some in E as (s5 & H5 & E). apply activate_finalized_settles in H5.
  pose proof (activate_queued_settles (record_mix s3 (epoch pre)) (epoch pre + 1)) as H45.
  set (s6 := Pq.prune_pq_rescue_commits (s5 <| epoch := epoch pre + 1 |>) (epoch pre + 1)) in E.
  assert (settles s5 s6) as H6 by (split; [done|done|intros []; by constructor|done]).
  assert (epoch s6 = epoch pre + 1) as He6 by done. clearbody s6.
  apply bind_Some in E as (s7 & [H7 He7]%bind_kes_settles & E).
  destruct (activate_settlement_settles s7 (epoch pre + 1)) as [H8 He8].
  destruct (record_checkpoints_settles (activate_settlement built s7 (epoch pre + 1)) (epoch pre + 1)) as [H9 He9].
  apply bind_Some in E as (s10 & [H10 He10]%mark_inactive_settles & [H11 He11]%open_epoch_settles).
  assert (settles s2 s') as Hrest by (repeat (eapply settles_trans; [eassumption|]); apply settles_refl).
  destruct H1 as [Hn1 Hi1 _ Hk1], H2 as [Hn2 Hi2 _ _ Hk2], Hrest as [Hn3 Hi3 Hw3 Hk3]. split.
  - congruence.
  - eauto using keeps_trans.
  - lia.
  - lia.
  - auto.
Qed.

(** C7: closing an epoch mints no more than it counts as issued.  Whatever the roster, the
    votes, the delegations and the fees, a closed epoch is the next one on the same head and
    the same outputs; what the ledger holds grows by at most what the issuance counter grows
    by; the counter never falls and never passes the supply cap (nor what it already was);
    and no stake, reward or loss on record becomes negative.  The gate on delegated issuance
    must be active once the second reward rule is. *)
Theorem epoch_issuance_accounted pre s' :
  close_epoch fuel built pre = Some s' → amounts_wf pre → 0 ≤ epoch pre →
  (rewards_v2_active (epoch pre) = true → funded_delegation_active (epoch pre) = true) →
  epoch s' = epoch pre + 1 ∧ head s' = head pre ∧ eutxos s' = eutxos pre ∧
  net s' - net pre ≤ issued_sat s' - issued_sat pre ∧
  issued_sat pre ≤ issued_sat s' ≤ Z.max (issued_sat pre) Tokenomics.TOTAL_SUPPLY_SAT ∧
  amounts_wf s' ∧ supply_conserved pre s' 0 ≠ Some false.
Proof.
  intros E Hwf He Hg. destruct (close_epoch_closes pre s' E Hwf He Hg) as [? [] Hn Hi ?].
  split_and!; [done..|lia|lia|lia|done|]. apply supply_conserved_net; [done|lia|lia].
Qed.

(** ** The committees of the new epoch *)

Definition indices (roster : list Types.Validator) : list Z := Types.index <$> roster.

Lemma duty_roster_indices s ep roster :
  duty_roster_at s ep = Some roster → NoDup (indices roster) ∧ (length roster ≤ size (validators s))%nat.
Proof.
  unfold duty_roster_at. intros (reg & _ & E)%bind_Some. apply bind_Some in E as (del & _ & E).
  set (base := omap (duty_entry ep del) (items (validators s))) in E.
  assert (indices base `sublist_of` (items (validators s)).*1) as Hsub.
  { clear E. subst base. induction (items (validators s)) as [|[i r] l IH]; [done|]. cbn [omap list_omap]. unfold duty_entry at 1. cbn [fst snd].
    destruct (on_duty ep r); cbn [indices fmap list_fmap]; [by apply sublist_skip|by apply sublist_cons]. }
  assert (indices roster = indices base) as Hi.
  { set (mid := if fee_stake_decouple_active ep then _ else base) in E.
    transitivity (indices mid).
    - clearbody mid. unfold Cohort.apply_cohort_cap in E. destruct (_ =? 0); [by simplify_eq|].
      destruct (Cohort.cap_status _ _ _); [by simplify_eq| |by simplify_eq]. destruct (_ <=? _); [by simplify_eq|].
      apply mapM_Some in E. unfold indices. symmetry. induction E as [|v v' l l' Hv _ IH]; csimpl; [done|]. f_equal; [|done].
      unfold Cohort.scale in Hv. destruct (Cohort.in_cohort _ _); [|by simplify_eq].
      by apply bind_Some in Hv as (x & _ & [= <-]).
    - subst mid. case_goal; [|done]. unfold indices. rewrite <- list_fmap_compose. by apply list_fmap_ext. }
  assert (NoDup (items (validators s)).*1 ∧ length (items (validators s)) = size (validators s)) as [Hnd Hlen].
  { split; [rewrite keys_items; apply NoDup_ascending|]. rewrite (items_perm (validators s)).
    by rewrite length_map_to_list. }
  split; [rewrite Hi; by eapply sublist_NoDup|]. rewrite <- Hlen. apply sublist_length in Hsub.
  rewrite <- Hi in Hsub. unfold indices in Hsub. by rewrite !length_fmap in Hsub.
Qed.

Lemma consensus_roster_indices s ep roster :
  consensus_roster_at s ep = Some roster → NoDup (indices roster) ∧ (length roster ≤ size (validators s))%nat.
Proof.
  unfold consensus_roster_at. intros (base & Hb & E)%bind_Some. apply duty_roster_indices in Hb as [Hnd Hlen].
  assert (∀ f, indices (with_leak_applied base f) = indices base) as Hl.
  { intros f. unfold indices, with_leak_applied. rewrite <- list_fmap_compose. by apply list_fmap_ext. }
  destruct (ep <? _); [by simplify_eq|]. destruct (_ && _); [by simplify_eq|]. injection E as <-.
  rewrite Hl. split; [done|]. unfold with_leak_applied. by rewrite length_fmap.
Qed.

Lemma sort_ext (l k : list Z) : NoDup l → NoDup k → (∀ x, x ∈ l ↔ x ∈ k) → sort l = sort k.
Proof.
  intros Hl Hk Hx. apply lt_sorted_ext; [by apply sort_lt..|]. intros x. by rewrite !sort_perm.
Qed.

(** The invariant on the committees never stops the chain.  When the extendable output
    function is live, opening an epoch whose roster can be computed always returns: the
    shuffle ends, and its committees seat every validator of the roster exactly once, so the
    consistency check that would abort the node never fires. *)
Theorem partition_invariant_never_fires `{!Sample.XofLive fuel} s next roster :
  consensus_roster_at s next = Some roster → Z.of_nat (size (validators s)) ≤ 2 ^ 32 →
  ∃ s', open_epoch fuel s next = Some s' ∧ dom (current_participation s') = list_to_set (indices roster) ∧
        previous_participation s' = current_participation s ∧ pending_votes s' = ∅.
Proof.
  intros Hr Hsz. destruct (consensus_roster_indices _ _ _ Hr) as [Hnd Hlen]. unfold open_epoch.
  change (consensus_roster_at (s <| pending_votes := ∅ |>) next) with (consensus_roster_at s next). rewrite Hr.
  cbn [mbind option_bind].
  match goal with |- context [Committees.epoch_committees_uncached fuel ?mix next roster] =>
    destruct (Committees.partition_spec fuel mix next roster) as (cs & -> & _ & Hnc & Hin & _); [lia|] end.
  cbn [mbind option_bind]. rewrite bool_decide_eq_true_2 by (by apply sort_ext).
  eexists. split; [done|]. split; [|done]. cbn. rewrite dom_insert_all. set_solver.
Qed.
End effects.

(** ** An epoch of one validator *)

Definition ex_sha : Sha3 := λ _, 7.
Definition ex_xof : Xof := λ _ _, 3.
Definition ex_build : Settlement.Build := Settlement.mkBuild false false 0.

Lemma ex_live : @Sample.XofLive ex_xof 1.
Proof. intros input pos. exists 0%nat. split; [lia|]. done. Qed.

(** A validator that attested, with fees of its last block pending. *)
Definition ex_genesis : CommittedState :=
  @genesis_state ex_sha 9 9 [mkGenesisValidator 0 [1] (25000 * Delegation.SAT_PER_BLOCH) 0 [] 500] [] 0 0 0
    (mkEvm 0 0 0 0) (Utxo.mkSet (Utxo.mkMaps ∅ ∅) Smt.Smt.new 0).
Definition ex_pre : CommittedState :=
  ex_genesis <| current_participation := {[ 0 := true ]} |> <| pending_fee_rewards := {[ 0 := 700 ]} |>.
Definition ex_next : CommittedState :=
  default ex_pre (@close_epoch ex_sha ex_xof 1 mainnet mainnet_rules ex_build None ex_pre).

Lemma ex_pre_wf : amounts_wf ex_pre.
Proof.
  assert (∀ {V} (P : V → Prop) k x, P x → map_Forall (λ _, P) (<[k := x]> (∅ : gmap Z V))) as Hone.
  { intros V P k x Hx. apply map_Forall_insert_2; [done|apply map_Forall_empty]. }
  constructor; try done; cbn; apply Hone; done.
Qed.

Lemma epoch_issuance_accounted_witness :
  epoch ex_next = 1 ∧ net ex_next - net ex_pre ≤ 13231885900128 ∧ amounts_wf ex_next.
Proof.
  destruct (@epoch_issuance_accounted ex_sha ex_xof 1 mainnet mainnet_rules ex_build None ex_pre ex_next)
    as (He & _ & _ & Hn & _ & Hw & _).
  - vm_compute. reflexivity.
  - apply ex_pre_wf.
  - done.
  - done.
  - split; [done|]. split; [|done].
    replace (issued_sat ex_next - issued_sat ex_pre) with 13231885900128 in Hn by (vm_compute; reflexivity). done.
Defined.

Lemma partition_invariant_never_fires_witness :
  ∃ s', @open_epoch ex_xof 1 mainnet_rules ex_pre 1 = Some s' ∧ dom (current_participation s') = {[ 0 ]}.
Proof.
  destruct (@partition_invariant_never_fires ex_xof 1 mainnet_rules ex_live ex_pre 1
    [Types.mkValidator 0 (25000 * Delegation.SAT_PER_BLOCH)]) as (s' & Hs & Hd & _).
  - vm_compute. reflexivity.
  - vm_compute. discriminate.
  - exists s'. split; [done|]. rewrite Hd. cbn. set_solver.
Defined.
End Epoch.
