(* ===== verification/Body.v ===== *)
(** * The commitments of a block's body

    Models [crates/bloch-pos-committee/src/derive.rs]: the Merkle roots over the
    transactions and over the attestations that the header commits to, and the binding of
    the two coherence roots.

    The theorems: the Merkle loop ends after logarithmically many passes, and a root names
    one list of transactions, or of attestations, only. *)

From S2P Require Import Prelude Bytes Params Types Attestation Smt.
Local Open Scope Z_scope.

Module Body.
Import Bytes Params Types Smt.

Definition MARK_LEAF : Z := 0.
Definition MARK_NODE : Z := 1.
Definition MARK_EMPTY : Z := 2.
Definition KIND_TX : Z := 1.
Definition KIND_ATTESTATION : Z := 2.

Section body.
Context {HS : Sha3}.

Definition coherence_binding (accumulator_root nullifier_root : hash) : hash :=
  sha3_256 (DS_COHERENCE ++ hash_bytes accumulator_root ++ hash_bytes nullifier_root).

Definition body_input (parts : list (list Z)) : list Z := DS_BODY ++ concat parts.
Definition body_sha3 (parts : list (list Z)) : hash := sha3_256 (body_input parts).

(** One pass of the loop: pairs are hashed, an odd last element moves up. *)
Fixpoint pair_level (kind : Z) (level : list hash) : list hash :=
  match level with
  | a :: b :: level =>
      body_sha3 [[MARK_NODE]; [kind]; hash_bytes a; hash_bytes b] :: pair_level kind level
  | _ => level
  end.

(** [while level.len() > 1]; [None] is "still running after [fuel] passes". *)
Fixpoint merkle_loop (fuel : nat) (kind : Z) (level : list hash) : option hash :=
  match level with
  | [] => None
  | [h] => Some h
  | _ => match fuel with O => None | S fuel => merkle_loop fuel kind (pair_level kind level) end
  end.

Definition merkle_root (kind : Z) (level : list hash) : option hash :=
  match level with
  | [] => Some (body_sha3 [[MARK_EMPTY]; [kind]])
  | _ => merkle_loop (length level) kind level
  end.

Definition tx_leaf (tx : list Z) : hash :=
  body_sha3 [[MARK_LEAF]; [KIND_TX]; le_bytes 8 (Z.of_nat (length tx)); tx].
Definition body_root (transactions : list (list Z)) : option hash :=
  merkle_root KIND_TX (tx_leaf <$> transactions).

Definition attestation_leaf_bytes (att : Attestation) : list Z :=
  let d := att_data att in
  le_bytes 8 (slot d) ++ hash_bytes (Types.head d) ++ le_bytes 8 (source_epoch d) ++ hash_bytes (source_root d)
  ++ le_bytes 8 (target_epoch d) ++ hash_bytes (target_root d) ++ le_bytes 4 (att_validator att)
  ++ le_bytes 4 (Z.of_nat (length (att_signature att))) ++ att_signature att.
Definition attestation_leaf (att : Attestation) : hash :=
  body_sha3 [[MARK_LEAF]; [KIND_ATTESTATION]; attestation_leaf_bytes att].
Definition attestation_root (attestations : list Attestation) : option hash :=
  merkle_root KIND_ATTESTATION (attestation_leaf <$> attestations).

(** ** The loop ends *)

Lemma pair_level_length kind level : length (pair_level kind level) = Nat.div2 (S (length level)).
Proof.
  induction level as [level IH] using (induction_ltof1 _ (@length hash)).
  destruct level as [|a [|b level]]; [done|done|]. cbn [pair_level length]. rewrite IH; [done|]. unfold ltof. cbn. lia.
Qed.

Lemma merkle_loop_Some fuel kind level :
  level ≠ [] → (length level ≤ 2 ^ fuel)%nat → is_Some (merkle_loop fuel kind level).
Proof.
  revert level. induction fuel as [|fuel IH]; intros level Hne Hlen.
  - destruct level as [|a [|b level]]; [done|by eexists|cbn in Hlen; lia].
  - destruct level as [|a [|b level]]; [done|by eexists|]. cbn [merkle_loop]. apply IH; [done|].
    rewrite pair_level_length. rewrite Nat.pow_succ_r' in Hlen. rewrite Nat.div2_div.
    apply Nat.lt_succ_r, Nat.Div0.div_lt_upper_bound. lia.
Qed.

(** The Merkle root is always computed.  However many leaves there are, the loop that
    halves the level ends, and it does so after at most the rounded-up binary logarithm of
    the number of leaves passes. *)
Theorem merkle_loop_terminates kind level :
  is_Some (merkle_root kind level) ∧
  (level ≠ [] → merkle_loop (Nat.log2_up (length level)) kind level = merkle_root kind level).
Proof.
  assert (∀ n k lv r, merkle_loop n kind lv = Some r → (n ≤ k)%nat → merkle_loop k kind lv = Some r) as Hmono.
  { induction n as [|n IH]; intros k lv r E Hk; destruct lv as [|a [|b lv]]; try done; [by destruct k..|].
    destruct k as [|k]; [lia|]. cbn [merkle_loop] in *. apply IH; [done|lia]. }
  destruct level as [|a level]; [by split; [eexists|]|]. cbn [merkle_root].
  assert (Nat.log2_up (length (a :: level)) ≤ length (a :: level))%nat as Hle by (apply Nat.log2_up_le_lin; lia).
  destruct (merkle_loop_Some (Nat.log2_up (length (a :: level))) kind (a :: level)) as [r Hr]; [done| |].
  { destruct level; [done|]. apply Nat.log2_up_spec. cbn. lia. }
  rewrite Hr, (Hmono _ _ _ _ Hr Hle). by split; [eexists|].
Qed.

(** ** A root names one list *)

(** The tree under a hash: its leaves are the payloads of the leaf hashes. *)
Inductive btree :=
| BLeaf (payload : list Z)
| BNode (l r : btree).

Definition leaf_parts (kind : Z) (payload : list Z) : list (list Z) := [[MARK_LEAF]; [kind]; payload].
Definition node_parts (kind : Z) (l r : hash) : list (list Z) := [[MARK_NODE]; [kind]; hash_bytes l; hash_bytes r].

Fixpoint thash (kind : Z) (t : btree) : hash :=
  match t with
  | BLeaf p => body_sha3 (leaf_parts kind p)
  | BNode l r => body_sha3 (node_parts kind (thash kind l) (thash kind r))
  end.

Definition troot (kind : Z) (t : btree) : list Z :=
  match t with
  | BLeaf p => body_input (leaf_parts kind p)
  | BNode l r => body_input (node_parts kind (thash kind l) (thash kind r))
  end.

Fixpoint tinputs (kind : Z) (t : btree) : list (list Z) :=
  troot kind t :: match t with BLeaf _ => [] | BNode l r => tinputs kind l ++ tinputs kind r end.

Fixpoint flatten (t : btree) : list (list Z) :=
  match t with BLeaf p => [p] | BNode l r => flatten l ++ flatten r end.

Fixpoint pair_trees (ts : list btree) : list btree :=
  match ts with
  | a :: b :: ts => BNode a b :: pair_trees ts
  | _ => ts
  end.

Fixpoint tree_loop (fuel : nat) (ts : list btree) : option btree :=
  match ts with
  | [] => None
  | [t] => Some t
  | _ => match fuel with O => None | S fuel => tree_loop fuel (pair_trees ts) end
  end.

Lemma list_ind2 {A} (P : list A → Prop) :
  P [] → (∀ a, P [a]) → (∀ a b l, P l → P (a :: b :: l)) → ∀ l, P l.
Proof.
  intros H0 H1 H2. cut (∀ l, P l ∧ ∀ a, P (a :: l)); [intros H l; apply H|].
  induction l as [|b l [IH1 IH2]]; [done|]. split; [done|]. intros a. auto.
Qed.

Lemma pair_trees_hash kind ts : pair_level kind (thash kind <$> ts) = thash kind <$> pair_trees ts.
Proof. induction ts as [| |a b ts IH] using list_ind2; [done..|]. cbn [pair_level pair_trees fmap list_fmap]. by f_equal. Qed.

Lemma pair_trees_flatten ts : pair_trees ts ≫= flatten = ts ≫= flatten.
Proof.
  induction ts as [| |a b ts IH] using list_ind2; [done..|]. cbn [pair_trees]. csimpl. rewrite IH.
  by rewrite <- (assoc_L (++)).
Qed.

Lemma tree_loop_hash fuel kind ts : merkle_loop fuel kind (thash kind <$> ts) = thash kind <$> tree_loop fuel ts.
Proof.
  revert ts. induction fuel as [|fuel IH]; intros [|a [|b ts]]; try done. cbn [tree_loop]. rewrite <- IH, <- pair_trees_hash.
  done.
Qed.

Lemma tree_loop_flatten fuel ts t : tree_loop fuel ts = Some t → flatten t = ts ≫= flatten.
Proof.
  revert ts. induction fuel as [|fuel IH]; intros [|a [|b ts]] E; try done.
  - injection E as <-. cbn. by rewrite app_nil_r.
  - injection E as <-. cbn. by rewrite app_nil_r.
  - cbn [tree_loop] in E. rewrite (IH _ E). apply pair_trees_flatten.
Qed.

Lemma thash_troot kind t : thash kind t = sha3_256 (troot kind t).
Proof. by destruct t. Qed.

Lemma troot_inputs kind t : troot kind t ∈ tinputs kind t.
Proof. destruct t; left. Qed.

Lemma no_collision_sub (l k : list (list Z)) : no_collision k → l ⊆ k → no_collision l.
Proof. intros Hk Hl a b Ha Hb. apply Hk; by apply Hl. Qed.

Lemma body_input_inj p q : body_input p = body_input q → concat p = concat q.
Proof. unfold body_input. by intros E%(inj (app DS_BODY)). Qed.

Lemma thash_inj (sha3_range : ∀ l, is_hash (sha3_256 l)) kind t1 t2 :
  thash kind t1 = thash kind t2 → no_collision (tinputs kind t1 ++ tinputs kind t2) → t1 = t2.
Proof.
  revert t2. induction t1 as [p|l IHl r IHr]; intros t2 E Hnc.
  - rewrite !thash_troot in E. apply Hnc in E; [|by apply elem_of_app; left; apply troot_inputs|
      by apply elem_of_app; right; apply troot_inputs].
    destruct t2 as [q|l2 r2]; apply body_input_inj in E; [|done]. cbn in E. rewrite !app_nil_r in E. congruence.
  - pose proof E as E'. rewrite !thash_troot in E'. apply Hnc in E'; [|by apply elem_of_app; left; apply troot_inputs|
      by apply elem_of_app; right; apply troot_inputs].
    destruct t2 as [q|l2 r2]; apply body_input_inj in E'; [done|]. cbn [troot node_parts concat] in E'.
    apply (inj (app [MARK_NODE])) in E'. apply (inj (app [kind])) in E'.
    apply app_inj_len in E' as [El Er]; [|by rewrite !length_hash_bytes].
    apply app_inj_len in Er as [Er _]; [|by rewrite !length_hash_bytes].
    assert (∀ t, is_hash (thash kind t)) as Hh by (intros; rewrite thash_troot; apply sha3_range).
    apply hash_bytes_inj in El, Er; [|done..]. f_equal.
    + apply IHl; [done|]. eapply no_collision_sub; [exact Hnc|]. cbn [tinputs]. set_solver.
    + apply IHr; [done|]. eapply no_collision_sub; [exact Hnc|]. cbn [tinputs]. set_solver.
Qed.

(** What the root of a list of payloads hashes. *)
Definition root_inputs (kind : Z) (payloads : list (list Z)) : list (list Z) :=
  match payloads with
  | [] => [body_input [[MARK_EMPTY]; [kind]]]
  | _ => from_option (tinputs kind) [] (tree_loop (length payloads) (BLeaf <$> payloads))
  end.

Lemma root_tree kind payloads :
  payloads ≠ [] →
  ∃ t, merkle_root kind ((λ p, body_sha3 (leaf_parts kind p)) <$> payloads) = Some (thash kind t) ∧
    root_inputs kind payloads = tinputs kind t ∧ flatten t = payloads.
Proof.
  intros Hne. set (lv := (λ p, body_sha3 (leaf_parts kind p)) <$> payloads).
  assert (lv = thash kind <$> (BLeaf <$> payloads)) as Hlv by (subst lv; by rewrite <- list_fmap_compose).
  assert (merkle_root kind lv = thash kind <$> tree_loop (length payloads) (BLeaf <$> payloads)) as Hr.
  { rewrite <- tree_loop_hash, <- Hlv. subst lv. destruct payloads; [done|]. cbn [fmap list_fmap merkle_root].
    by rewrite <- (length_fmap (λ p, body_sha3 (leaf_parts kind p)) (l :: payloads)). }
  assert (is_Some (merkle_root kind lv)) as [h Hh].
  { subst lv. destruct payloads as [|p ps]; [done|]. cbn [fmap list_fmap merkle_root]. apply merkle_loop_Some; [done|].
    apply Nat.lt_le_incl, Nat.pow_gt_lin_r. lia. }
  rewrite Hr in Hh |- *. apply fmap_Some in Hh as (t & Ht & ->). rewrite Ht. exists t. split; [done|]. split.
  - unfold root_inputs. rewrite Ht. by destruct payloads.
  - rewrite (tree_loop_flatten _ _ _ Ht). clear. induction payloads as [|p ps IH]; csimpl; [done|]. by rewrite IH.
Qed.

Lemma merkle_root_inj (sha3_range : ∀ l, is_hash (sha3_256 l)) kind ps1 ps2 :
  merkle_root kind ((λ p, body_sha3 (leaf_parts kind p)) <$> ps1)
  = merkle_root kind ((λ p, body_sha3 (leaf_parts kind p)) <$> ps2) →
  no_collision (root_inputs kind ps1 ++ root_inputs kind ps2) → ps1 = ps2.
Proof.
  assert (∀ ps, ps ≠ [] → merkle_root kind [] = merkle_root kind ((λ p, body_sha3 (leaf_parts kind p)) <$> ps) →
    ¬ no_collision (root_inputs kind [] ++ root_inputs kind ps)) as Hempty.
  { intros ps Hne E Hnc. destruct (root_tree kind ps Hne) as (t & Ht & Hi & _). rewrite Ht in E. injection E as E.
    rewrite thash_troot in E. apply Hnc in E; [|by left|].
    - destruct t; by apply body_input_inj in E.
    - right. rewrite Hi. apply troot_inputs. }
  intros E Hnc. destruct ps1 as [|p1 ps1], ps2 as [|p2 ps2]; [done| | |].
  - by destruct (Hempty (p2 :: ps2)).
  - destruct (Hempty (p1 :: ps1)); [done|done|]. eapply no_collision_sub; [exact Hnc|]. set_solver.
  - destruct (root_tree kind (p1 :: ps1)) as (t1 & H1 & Hi1 & <-); [done|].
    destruct (root_tree kind (p2 :: ps2)) as (t2 & H2 & Hi2 & <-); [done|].
    rewrite H1, H2 in E. injection E as E. f_equal. apply (thash_inj sha3_range kind); [done|].
    by rewrite <- Hi1, <- Hi2.
Qed.

Definition tx_payload (tx : list Z) : list Z := le_bytes 8 (Z.of_nat (length tx)) ++ tx.
Definition att_wf (att : Attestation) : Prop :=
  Attestation.data_wf (att_data att) ∧ 0 ≤ att_validator att ≤ u32_MAX.

Lemma cons_inv {A} (x y : A) l k : x :: l = y :: k → x = y ∧ l = k.
Proof. by intros [= -> ->]. Qed.

Lemma attestation_leaf_bytes_inj a b :
  att_wf a → att_wf b → attestation_leaf_bytes a = attestation_leaf_bytes b → a = b.
Proof.
  intros [(? & ? & ? & ? & ? & ?) ?] [(? & ? & ? & ? & ? & ?) ?] E. unfold attestation_leaf_bytes in E.
  do 8 (apply app_inj_len in E as [?E E]; [|by rewrite ?length_le_bytes, ?length_hash_bytes]).
  destruct a as [[] v1 s1], b as [[] v2 s2]. unfold u64_MAX, u32_MAX in *. simpl in *.
  f_equal; [f_equal| |done]; first [by apply hash_bytes_inj | apply (le_bytes_inj 8); done || lia
                                   | apply (le_bytes_inj 4); done || lia].
Qed.

Lemma body_root_payloads txs : body_root txs = merkle_root KIND_TX ((λ p, body_sha3 (leaf_parts KIND_TX p)) <$> (tx_payload <$> txs)).
Proof.
  unfold body_root. f_equal. rewrite <- list_fmap_compose. apply list_fmap_ext. intros _ tx _. unfold tx_leaf, tx_payload.
  unfold body_sha3, body_input, leaf_parts. cbn. by rewrite !app_nil_r.
Qed.

(** C39: the header commits to one body.  Two lists of transactions with the same body root
    are the same list, and two lists of well-formed attestations with the same attestation
    root are the same list, in content, number and order, unless SHA3 collides on what the
    two roots hash. *)
Theorem roots_name_one_body (txs1 txs2 : list (list Z)) (atts1 atts2 : list Attestation) :
  (∀ l, is_hash (sha3_256 l)) →
  (no_collision (root_inputs KIND_TX (tx_payload <$> txs1) ++ root_inputs KIND_TX (tx_payload <$> txs2)) →
   body_root txs1 = body_root txs2 → txs1 = txs2) ∧
  (no_collision (root_inputs KIND_ATTESTATION (attestation_leaf_bytes <$> atts1)
                 ++ root_inputs KIND_ATTESTATION (attestation_leaf_bytes <$> atts2)) →
   Forall att_wf atts1 → Forall att_wf atts2 →
   attestation_root atts1 = attestation_root atts2 → atts1 = atts2).
Proof.
  intros Hr. split.
  - intros Hnc E. rewrite !body_root_payloads in E. apply merkle_root_inj in E; [|done..].
    assert (Inj (=) (=) tx_payload); [|by apply (inj (fmap tx_payload)) in E].
    intros a b Eab. by apply app_inj_len in Eab as [_ ->]; [|rewrite !length_le_bytes].
  - intros Hnc H1 H2 E. unfold attestation_root in E.
    assert (∀ l, attestation_leaf <$> l
      = (λ p, body_sha3 (leaf_parts KIND_ATTESTATION p)) <$> (attestation_leaf_bytes <$> l)) as Hl
      by (intros; by rewrite <- list_fmap_compose).
    rewrite !Hl in E. apply merkle_root_inj in E; [|done..]. clear -H1 H2 E. revert atts2 H2 E.
    induction H1 as [|a l1 Ha _ IH]; intros [|b l2] H2 E; try done. apply Forall_cons in H2 as [Hb H2].
    apply cons_inv in E as [Eab E]. f_equal; [by apply attestation_leaf_bytes_inj|by apply IH].
Qed.
End body.

(** ** Two bodies *)

Definition ex_sha : Sha3 := λ l, foldl (λ a x, a * 257 + x + 1) 0 l `mod` 256 ^ 32.

Lemma ex_sha_range : ∀ l, is_hash (@sha3_256 ex_sha l).
Proof. intros l. apply Z.mod_pos_bound. lia. Qed.

Lemma no_collision_decided {HS : Sha3} (l : list (list Z)) :
  bool_decide (Forall (λ a, Forall (λ b, sha3_256 a = sha3_256 b → a = b) l) l) = true → no_collision l.
Proof.
  intros Hd%bool_decide_eq_true a b Ha Hb. rewrite Forall_forall in Hd. specialize (Hd a Ha).
  rewrite Forall_forall in Hd. by apply Hd.
Qed.

(** Swapping two transactions changes the root. *)
Lemma roots_name_one_body_witness : @body_root ex_sha [[1; 2]; [3]] ≠ @body_root ex_sha [[3]; [1; 2]].
Proof.
  intros E. assert ([[1; 2]; [3]] = [[3]; [1; 2]]); [|done].
  refine (proj1 (@roots_name_one_body ex_sha [[1; 2]; [3]] [[3]; [1; 2]] [] [] _) _ E).
  - apply ex_sha_range.
  - apply no_collision_decided. vm_compute. reflexivity.
Defined.
End Body.
