(* ===== verification/Block.v ===== *)
(** * Applying a block

    Models the rest of [crates/bloch-pos-committee/src/transition.rs]: the fork-choice
    votes a block carries ([accumulate_forkchoice]) and [compute_post_state], which checks a
    block against the state it extends, closes the epochs it skips, includes its
    attestations, applies its transactions under the gas and byte limits, credits its
    producer and checks the supply.

    The theorems compose all the components: the loop over skipped epochs ends, the two
    supply guards never fire, an accepted block moves the chain strictly forward, and every
    recorded amount stays non-negative. *)

From S2P Require Import Prelude Bytes Params Types ForkChoice Finality Sample Schedule Committees Signatures Kes.
From S2P Require Import Header Attestation Delegation Slashing Staking Tokenomics Rewards FeeMarket Beacon Tx Utxo.
From S2P Require Import Settlement State Transfer Funded L2Tx Pq Lifecycle Apply Epoch Body.
Local Open Scope Z_scope.

Module Block.
Import Bytes Params Signatures FeeMarket Tx State Transfer Lifecycle Apply Epoch.

Inductive ProposalReject :=
| NotScheduledProposer | PropBadSignature | UnknownProposer | BadRandaoReveal | WrongVersion.

Inductive TransitionError :=
| Proposal (e : ProposalReject)
| ErrAttestation (i : Z)
| ErrTransaction (i : Z)
| StateRootMismatch
| NonMonotonicSlot
| FinalityRegression
| WrongParent
| BodyRootMismatch
| AttestationRootMismatch
| CoherenceRootMismatch
| SupplyCapExceeded
| EpochAdvanceTooLarge
| SupplyNotConserved
| TooManyTransactions
| BlockGasLimitExceeded
| BlockByteLimitExceeded
| ErrTransfer (i : Z) (e : TransferReject)
| TooManyAttestations
| DuplicateAttestation (i : Z).

(** ** The fork choice's votes *)

Section forkchoice.
Context {R : Rules}.
Implicit Types s : CommittedState.

(** Records a vote of the horizon; [true] when it conflicts with one already there. *)
Definition record_recent_vote_conflicts s (validator : Z) (msg : ForkChoice.LatestMessage) : CommittedState * bool :=
  let votes := default ∅ (fc_recent_votes s !! validator) in
  match votes !! ForkChoice.lm_slot msg with
  | Some prev => (s, negb (prev =? ForkChoice.lm_root msg))
  | None =>
      (s <| fc_recent_votes :=
              <[validator := <[ForkChoice.lm_slot msg := ForkChoice.lm_root msg]> votes]> (fc_recent_votes s) |>,
       false)
  end.

Definition recent_vote_floor (block_slot : Z) : Z :=
  saturating_sub block_slot (saturating_sub FORKCHOICE_EQUIVOCATION_HORIZON_SLOTS 1).

Definition prune_recent_votes s (block_slot : Z) : CommittedState :=
  let floor := recent_vote_floor block_slot in
  s <| fc_recent_votes :=
         omap (λ votes : gmap Z hash, let kept := filter (λ sr, floor ≤ sr.1) votes in
                                      if decide (kept = ∅) then None else Some kept) (fc_recent_votes s) |>.

Definition mark_equivocator (horizon : bool) s (v : Z) : CommittedState :=
  let s := s <| fc_equivocators := {[v]} ∪ fc_equivocators s |>
             <| latest_messages := delete v (latest_messages s) |> in
  if horizon then s <| fc_recent_votes := delete v (fc_recent_votes s) |> else s.

Definition fold_vote (horizon : bool) (acc : CommittedState * ForkChoice.Store) (att : Types.Attestation)
    : CommittedState * ForkChoice.Store :=
  let '(s, store) := acc in
  let v := Types.att_validator att in
  if bool_decide (v ∈ fc_equivocators s) then (s, store)
  else
    let msg := ForkChoice.mkLM (Types.slot (Types.att_data att)) (Types.head (Types.att_data att)) in
    let '(s, conflict) := if horizon then record_recent_vote_conflicts s v msg else (s, false) in
    if conflict then (mark_equivocator true s v, store)
    else
      let '(store, moved) := ForkChoice.observe store v msg in
      (if moved then s <| latest_messages :=
                         <[v := (ForkChoice.lm_slot msg, ForkChoice.lm_root msg)]> (latest_messages s) |> else s,
       store).

(** The store the votes are judged in: the roster's stakes and the recorded messages. *)
Definition committed_store s (roster : list Types.Validator) : ForkChoice.Store :=
  let store := foldl (λ st v, ForkChoice.set_stake st (Types.index v) (Types.effective_stake v)) ForkChoice.new roster in
  foldl (λ st vm, (ForkChoice.observe st vm.1 (ForkChoice.mkLM vm.2.1 vm.2.2)).1) store (items (latest_messages s)).

Definition accumulate_forkchoice s (roster : list Types.Validator) (atts : list Types.Attestation) (block_slot : Z)
    : CommittedState :=
  let horizon := forkchoice_equivocation_horizon_active (epoch s) in
  let '(s, store) := foldl (fold_vote horizon) (s, committed_store s roster) atts in
  let s := foldl (mark_equivocator horizon) s (ascending (ForkChoice.equivocators store)) in
  if horizon then prune_recent_votes s block_slot else s.
End forkchoice.

Section block.
Context {HS : Sha3} {HK : Keccak} {HX : Xof} {HH : Shake32} (fuel : nat) {G : Gates} {R : Rules} {B : Settlement.Build}.
Context (built : option Settlement.Activation).
Implicit Types s : CommittedState.

Definition coherence_root s : hash := Body.coherence_binding (coherence_accumulator_root s) (coherence_nullifier_root s).

(** ** Skipped epochs *)

(** [while st.epoch < block_epoch]; [Rej tt] is "still running after [steps] epochs". *)
Fixpoint advance_epochs (steps : nat) s (block_epoch : Z) : outcome unit CommittedState :=
  if epoch s <? block_epoch then
    match steps with
    | O => Rej tt
    | S steps => s ← must (close_epoch fuel built s); advance_epochs steps s block_epoch
    end
  else Ret s.

(** ** Attestations *)

Definition exact_vote : Type := Z * hash * list Z.

(** The loop over the attestations, from position [i]. *)
Fixpoint include_attestations (i : Z) s (partition : list (list Z)) (header_slot : Z) (verifier : SignatureVerifier)
    (dedup_active : bool) (seen : gset (Z * hash)) (validated_exact : gset exact_vote)
    (atts : list Types.Attestation) : outcome TransitionError CommittedState :=
  match atts with
  | [] => Ret s
  | att :: atts =>
      let d := Types.att_data att in
      let v := Types.att_validator att in
      require (epoch_of (Types.slot d) =? epoch s) (ErrAttestation i);;
      let root := Attestation.signing_root d in
      require (negb (dedup_active && bool_decide ((v, root) ∈ seen))) (DuplicateAttestation i);;
      let seen := {[(v, root)]} ∪ seen in
      if bool_decide ((v, root, Types.att_signature att) ∈ validated_exact) then
        include_attestations (i + 1) s partition header_slot verifier dedup_active seen validated_exact atts
      else
        let committee := default [] (partition !! Z.to_nat (Types.slot d `mod` SLOTS_PER_EPOCH)) in
        let att_verifier := PolicyVerifier_consensus verifier (epoch_of (Types.slot d)) in
        require (is_ok (Attestation.validate att committee header_slot att_verifier (key_lookup s)))
          (ErrAttestation i);;
        include_attestations (i + 1)
          (s <| current_participation := <[v := true]> (current_participation s) |>
             <| pending_votes := <[(v, root) := d]> (pending_votes s) |>)
          partition header_slot verifier dedup_active seen
          ({[(v, root, Types.att_signature att)]} ∪ validated_exact) atts
  end.

(** ** Transactions *)

Definition count_tx (p : PosTransaction → bool) (txs : list PosTransaction) : Z := Z.of_nat (length (filter (λ tx, p tx = true) txs)).
Definition is_settlement (tx : PosTransaction) : bool :=
  match tx with L2Settlement _ | L2SettlementAsync _ => true | _ => false end.
Definition is_data_availability (tx : PosTransaction) : bool :=
  match tx with TxL2DataAvailability _ => true | _ => false end.
Definition is_rescue_commit (tx : PosTransaction) : bool :=
  match tx with TxRescueCommit _ => true | _ => false end.

(** What a transaction declares before anything is applied: its bytes and its class. *)
Definition declared (ep : Z) (tx : PosTransaction) : option (Z * TxClass) :=
  match tx with
  | Tx.Transfer t => Some (t_tx_bytes t, eutxo_class_for_keys ep (ti_pubkey <$> t_inputs t))
  | TransferV2 t => Some (t2_tx_bytes t, eutxo_class_for_keys ep (wk_pubkey <$> t2_keys t))
  | TxFundedDeposit t => Some (fd_tx_bytes t, Eutxo 2)
  | _ => None
  end.

(** The bytes and the gas the block needs at least. *)
Definition minimum_demand (ep : Z) (txs : list PosTransaction) : Z * Z :=
  foldl (λ '(bytes, gas) bc, (saturating_add u64_MAX bytes bc.1,
                              saturating_add u64_MAX gas (intrinsic_gas bc.2 bc.1)))
    (0, 0) (omap (declared ep) txs).

Definition apply_one s (tx : PosTransaction) (block_epoch proposer : Z) (roster : list Types.Validator)
    (total_active base_fee : Z) (verifier : SignatureVerifier) : outcome TxReject (CommittedState * TxCharge) :=
  match tx with
  | TxSlashingEvidence ev =>
      require (slashing_evidence_active block_epoch) EvidenceNotActive;;
      require (negb (pre_activation_offence_refusal_active block_epoch && Slashing.offence_predates_activation ev))
        EvidenceNotActive;;
      s ← rej_as (λ _, StakingRule) (apply_slashing_evidence s ev proposer roster verifier);
      Ret (s, staking_tx_charge (epoch s) 2 (length (canonical_bytes tx)))
  | _ => apply_transaction s tx total_active base_fee verifier
  end.

Definition tx_error (i : Z) (e : TxReject) : TransitionError :=
  match e with RejTransfer why => ErrTransfer i why | _ => ErrTransaction i end.

Record Totals := mkTotals {
  base_fees : Z; priority_fees : Z; block_gas : Z; block_bytes : Z; unfunded_bonded : Z;
}.
Definition no_totals : Totals := mkTotals 0 0 0 0 0.

Definition account (t : Totals) (tx : PosTransaction) (c : TxCharge) (max_bytes : Z)
    : outcome TransitionError Totals :=
  require (saturating_add u64_MAX (block_gas t) (charge_gas c) <=? BLOCK_GAS_LIMIT) BlockGasLimitExceeded;;
  require (saturating_add u64_MAX (block_bytes t) (charge_tx_bytes c) <=? max_bytes) BlockByteLimitExceeded;;
  b ← must (add_w u128_MAX (base_fees t) (base_fee_sat c));
  p ← must (add_w u128_MAX (priority_fees t) (priority_fee_sat c));
  Ret (mkTotals b p (saturating_add u64_MAX (block_gas t) (charge_gas c))
         (saturating_add u64_MAX (block_bytes t) (charge_tx_bytes c))
         (match tx with
          | Deposit _ | Delegate _ => saturating_add u128_MAX (unfunded_bonded t) (bonded_sat tx)
          | _ => unfunded_bonded t
          end)).

Fixpoint apply_transactions (i : Z) s (t : Totals) (block_epoch proposer : Z) (roster : list Types.Validator)
    (total_active base_fee max_bytes : Z) (verifier : SignatureVerifier) (txs : list PosTransaction)
    : outcome TransitionError (CommittedState * Totals) :=
  match txs with
  | [] => Ret (s, t)
  | tx :: txs =>
      '(s, c) ← rej_as (tx_error i) (apply_one s tx block_epoch proposer roster total_active base_fee verifier);
      t ← account t tx c max_bytes;
      apply_transactions (i + 1) s t block_epoch proposer roster total_active base_fee max_bytes verifier txs
  end.

(** ** The block *)

(** Version, parent, slot and the header's commitments to the body. *)
Definition check_header (pre : CommittedState) (header : Header.BlockHeaderV4) (atts : list Types.Attestation)
    (txs : list PosTransaction) : outcome TransitionError unit :=
  let block_epoch := epoch_of (Header.slot header) in
  require (slot pre <? Header.slot header) NonMonotonicSlot;;
  require (epoch pre <=? block_epoch) NonMonotonicSlot;;
  require (Header.parent header =? head pre) WrongParent;;
  require (Header.version header =? Header.VERSION_G4) (Proposal WrongVersion);;
  require (negb (staking_tx_metering_active block_epoch && (MAX_TRANSACTIONS_PER_BLOCK <? length txs)%nat))
    TooManyTransactions;;
  body ← must (Body.body_root (canonical_bytes <$> txs));
  require (Header.body_root header =? body) BodyRootMismatch;;
  attestation ← must (Body.attestation_root atts);
  require (Header.attestation_root header =? attestation) AttestationRootMismatch;;
  require (Header.coherence_root header =? coherence_root pre) CoherenceRootMismatch;;
  require (saturating_sub block_epoch (epoch pre) <=? MAX_EPOCH_ADVANCE) EpochAdvanceTooLarge.

(** The proposer's reveal, recorded and mixed in. *)
Definition reveal_randao s (header : Header.BlockHeaderV4) (rec : ValidatorRecord) : outcome TransitionError CommittedState :=
  let p := Header.proposer_index header in
  let reveal := Beacon.mkReveal (vr_randao_commitment rec) (get0 (reveals_used s) p) in
  '(next, mix) ← rej_as (λ _, Proposal BadRandaoReveal)
                   (of_result (Beacon.process_reveal reveal (randao_mix s) (Header.randao_reveal header)));
  require (Header.randao_mix header =? mix) (Proposal BadRandaoReveal);;
  Ret (set_record s p (rec <| vr_randao_commitment := Beacon.commitment next |>)
         <| reveals_used := <[p := Beacon.reveals_used next]> (reveals_used s) |>
         <| randao_mix := mix |>).

(** The header against the opened state: the schedule, the reveal, finality and the proposer's
    signature.  The state with the reveal recorded. *)
Definition check_proposal s (envelope : Slashing.ProposalEnvelope) (roster : list Types.Validator) (seed : hash)
    (verifier : SignatureVerifier) : outcome TransitionError CommittedState :=
  let header := Slashing.env_header envelope in
  let p := Header.proposer_index header in
  let block_epoch := epoch_of (Header.slot header) in
  scheduled ← must (Schedule.proposer fuel seed (Header.slot header) roster);
  require (bool_decide (scheduled = Some p)) (Proposal NotScheduledProposer);;
  rec ← or_rej (validators s !! p) (Proposal NotScheduledProposer);
  s ← reveal_randao s header rec;
  let fin := finality_view s in
  require ((Header.justified_root header =? Types.root (fv_justified fin))
           && (Header.finalized_root header =? Types.root (fv_finalized fin))) FinalityRegression;;
  verified ← or_rej (Kes.verify_validator (key_lookup s) (PolicyVerifier_consensus verifier block_epoch) p
                       (epoch_of (Header.slot header)) (Header.proposal_signing_root header)
                       (Slashing.proposer_sig envelope)) (Proposal UnknownProposer);
  require verified (Proposal PropBadSignature);;
  Ret (if rewards_v2_active (epoch s) then s <| current_proposed := <[p := true]> (current_proposed s) |> else s).

Definition prepare_settlement (pre : CommittedState) s : CommittedState :=
  match l2_settlement s with
  | Some l2 => s <| l2_settlement := Some (Settlement.prepare_source l2 (head pre) (slot pre)) |>
  | None => s
  end.

(** The limits on the transactions as a whole, before any is applied. *)
Definition check_limits s (block_epoch : Z) (txs : list PosTransaction) : outcome TransitionError unit :=
  require (count_tx is_settlement txs <=? 1) BlockGasLimitExceeded;;
  require (count_tx is_data_availability txs <=? Z.of_nat Settlement.DA_MAX_PER_BLOCK) BlockGasLimitExceeded;;
  require (negb (lattice_emergency_active block_epoch
                 && (RESCUE_COMMITS_MAX_PER_BLOCK <? count_tx is_rescue_commit txs))) BlockGasLimitExceeded;;
  let '(minimum_bytes, minimum_gas) := minimum_demand (epoch s) txs in
  require (minimum_gas <=? BLOCK_GAS_LIMIT) BlockGasLimitExceeded;;
  require (minimum_bytes <=? max_block_tx_bytes block_epoch) BlockByteLimitExceeded.

(** The producer's share of the fees, credited until the epoch closes. *)
Definition credit_producer s (t : Totals) (block_epoch block_slot p : Z) : option CommittedState :=
  split ← Rewards.split_fees_at (base_fees t) (priority_fees t) block_slot;
  let producer_credit :=
    if fee_stake_decouple_active block_epoch then Z.min (Rewards.to_producer split) Rewards.MAX_BLOCK_FEE_TO_PRODUCER_SAT
    else Rewards.to_producer split in
  if 0 <? producer_credit then
    sum ← add_w u128_MAX (get0 (pending_fee_rewards s) p) producer_credit;
    Some (s <| pending_fee_rewards := <[p := sum]> (pending_fee_rewards s) |>)
  else Some s.

Definition advance_settlement s : outcome TransitionError CommittedState :=
  match l2_settlement s with
  | Some l2 =>
      l2 ← rej_as (λ _, StateRootMismatch) (of_result (Settlement.advance_height l2));
      Ret (s <| l2_settlement := Some l2 |>)
  | None => Ret s
  end.

(** Applies the transactions to the opened state, credits the producer and checks the supply. *)
Definition apply_body (pre : CommittedState) s (header : Header.BlockHeaderV4) (roster : list Types.Validator)
    (verifier : SignatureVerifier) (txs : list PosTransaction) : outcome TransitionError CommittedState :=
  let block_epoch := epoch_of (Header.slot header) in
  base_fee ← must (next_base_fee_at pre block_epoch);
  let s := prepare_settlement pre s in
  _ ← check_limits s block_epoch txs;
  '(s, t) ← apply_transactions 0 s no_totals block_epoch (Header.proposer_index header) roster
              (Types.total_stake roster) base_fee (max_block_tx_bytes block_epoch) verifier txs;
  require (block_gas t <=? BLOCK_GAS_LIMIT) BlockGasLimitExceeded;;
  require (block_bytes t <=? max_block_tx_bytes block_epoch) BlockByteLimitExceeded;;
  s ← must (credit_producer s t block_epoch (Header.slot header) (Header.proposer_index header));
  let s := s <| base_fee_millisat_per_gas := base_fee |> <| block_gas_used := block_gas t |>
             <| block_tx_bytes := block_bytes t |> in
  conserved ← must (supply_conserved pre s (unfunded_bonded t));
  require conserved SupplyNotConserved;;
  advance_settlement s.

(** The state with the block's attestations included. *)
Definition open_block s (envelope : Slashing.ProposalEnvelope) (roster : list Types.Validator)
    (verifier : SignatureVerifier) (atts : list Types.Attestation) : outcome TransitionError CommittedState :=
  let header_slot := Header.slot (Slashing.env_header envelope) in
  let seed := seed_for_epoch s (epoch s) in
  s ← check_proposal s envelope roster seed verifier;
  require (length atts <=? MAX_ATTESTATIONS_PER_BLOCK)%nat TooManyAttestations;;
  partition ← must (Committees.epoch_committees_uncached fuel seed (epoch s) roster);
  s ← include_attestations 0 s partition header_slot verifier (attestation_dedup_active (epoch s)) ∅ ∅ atts;
  Ret (accumulate_forkchoice s roster atts header_slot).

(** [compute_post_state]: the state after the block. *)
Definition compute_post_state (pre : CommittedState) (envelope : Slashing.ProposalEnvelope)
    (verifier : SignatureVerifier) (atts : list Types.Attestation) (txs : list PosTransaction)
    : outcome TransitionError CommittedState :=
  let header := Slashing.env_header envelope in
  _ ← check_header pre header atts txs;
  s ← rej_as (λ _, EpochAdvanceTooLarge) (advance_epochs (Z.to_nat MAX_EPOCH_ADVANCE) pre (epoch_of (Header.slot header)));
  require (issued_sat s <=? Tokenomics.TOTAL_SUPPLY_SAT) SupplyCapExceeded;;
  roster ← must (consensus_roster_at s (epoch s));
  s ← open_block s envelope roster verifier atts;
  s ← apply_body pre s header roster verifier txs;
  Ret (s <| State.slot := Header.slot header |> <| State.head := Header.block_id header |>).

(** [process_epoch]: one boundary alone.  The debug assertion is part of the model. *)
Definition process_epoch (pre : CommittedState) : outcome TransitionError CommittedState :=
  post ← must (close_epoch fuel built pre);
  conserved ← must (E := TransitionError) (supply_conserved pre post 0);
  if (conserved : bool) then Ret post else Panic.
End block.

(** ** What a block does to the books *)

Section effects.
Context {HS : Sha3} {HK : Keccak} {HX : Xof} {HH : Shake32} (fuel : nat) {G : Gates} {R : Rules} {B : Settlement.Build}.
Context (built : option Settlement.Activation).
Implicit Types s pre : CommittedState.

(** The second reward rule is never active before delegated issuance is. *)
Definition gates_ordered : Prop := ∀ ep, rewards_v2_active ep = true → funded_delegation_active ep = true.

Lemma advance_epochs_terminates steps s block_epoch :
  block_epoch - epoch s ≤ Z.of_nat steps →
  advance_epochs fuel built steps s block_epoch ≠ Rej tt ∧
  ∀ s', advance_epochs fuel built steps s block_epoch = Ret s' → epoch s' = Z.max (epoch s) block_epoch.
Proof.
  revert s. induction steps as [|steps IH]; intros s Hs; cbn; destruct (epoch s <? block_epoch) eqn:E; boolp.
  - lia.
  - split; [done|]. intros s' [= <-]. lia.
  - destruct (close_epoch fuel built s) as [s1|] eqn:Hc; [|done]. cbn. apply close_epoch_epoch in Hc.
    destruct (IH s1) as [H1 H2]; [lia|]. split; [done|]. intros s' ->%H2. lia.
  - split; [done|]. intros s' [= <-]. lia.
Qed.

(** The balance sheet over any number of closed epochs. *)
Record advances s s' : Prop := {
  ad_keeps : keeps s s';
  ad_net : net s' - net s ≤ issued_sat s' - issued_sat s;
  ad_issued : issued_sat s ≤ issued_sat s' ≤ Z.max (issued_sat s) Tokenomics.TOTAL_SUPPLY_SAT;
  ad_wf : amounts_wf s';
}.

Lemma advance_epochs_advances steps s block_epoch s' :
  advance_epochs fuel built steps s block_epoch = Ret s' → gates_ordered → amounts_wf s → 0 ≤ epoch s →
  advances s s'.
Proof.
  intros E Hg. revert s E. induction steps as [|steps IH]; intros s; cbn; destruct (epoch s <? block_epoch); intros E Hwf He.
  - done.
  - injection E as <-. by split; [|lia|lia|].
  - outcome_inv E. rename select (close_epoch _ _ _ = _) into Hc. apply close_epoch_closes in Hc as [H1 H2 H3 H4 H5]; [|auto..].
    apply IH in E as []; [|done|lia]. split; [by eapply keeps_trans|lia|lia|done].
  - injection E as <-. by split; [|lia|lia|].
Qed.

(** ** Attestations and the fork choice change no amount *)

Record records s s' : Prop := {
  re_net : net s' ≤ net s;
  re_issued : issued_sat s' = issued_sat s;
  re_wf : amounts_wf s → amounts_wf s';
  re_epoch : epoch s' = epoch s;
  re_ejected : slashed_ejected s → slashed_ejected s';
}.

Lemma records_refl s : records s s.
Proof. by split. Qed.
Lemma records_trans s1 s2 s3 : records s1 s2 → records s2 s3 → records s1 s3.
Proof. intros [] []. split; [lia|congruence|auto|congruence|auto]. Qed.
Lemma settles_records s s' : settles s s' → epoch s' = epoch s → records s s'.
Proof. intros [? ? ? []]. by split. Qed.
(** Closes the case of an update that touches no amount. *)
Ltac records_only := split; [done|done|intros []; by constructor|done|done].

Lemma include_attestations_records i s partition sl v dedup seen exact_seen atts s' :
  include_attestations i s partition sl v dedup seen exact_seen atts = Ret s' → records s s'.
Proof.
  revert i s seen exact_seen. induction atts as [|att atts IH]; intros i s seen exact_seen; cbn; intros E.
  - injection E as <-. apply records_refl.
  - outcome_inv E. case_bool_decide; [by apply IH in E|]. outcome_inv E. apply IH in E. eapply records_trans; [|exact E].
    records_only.
Qed.

Lemma mark_equivocator_records horizon s v : records s (mark_equivocator horizon s v).
Proof. unfold mark_equivocator. case_goal; records_only. Qed.

Lemma fold_vote_records horizon s store att : records s (fold_vote horizon (s, store) att).1.
Proof.
  unfold fold_vote. case_bool_decide; [apply records_refl|].
  set (v := Types.att_validator att). set (msg := ForkChoice.mkLM _ _).
  destruct (if horizon then _ else _) as [s1 conflict] eqn:E1.
  assert (records s s1) as H1.
  { destruct horizon; [|injection E1 as <- _; apply records_refl]. unfold record_recent_vote_conflicts in E1.
    destruct (_ !! _); injection E1 as <- _; [apply records_refl|].
    records_only. }
  eapply records_trans; [done|]. destruct conflict; [apply mark_equivocator_records|].
  destruct (ForkChoice.observe store v msg) as [store' moved]. cbn. destruct moved; [|apply records_refl].
  records_only.
Qed.

Lemma foldl_records {X} (f : CommittedState → X → CommittedState) s l :
  (∀ s x, records s (f s x)) → records s (foldl f s l).
Proof.
  intros Hf. revert s. induction l as [|x l IH]; intros s; cbn; [apply records_refl|].
  eapply records_trans; [apply Hf|apply IH].
Qed.

Lemma foldl_vote_records horizon s store atts : records s (foldl (fold_vote horizon) (s, store) atts).1.
Proof.
  revert s store. induction atts as [|att atts IH]; intros s store; cbn [foldl]; [apply records_refl|].
  pose proof (fold_vote_records horizon s store att) as H1. destruct (fold_vote horizon _ att) as [s1 store1].
  eapply records_trans; [exact H1|apply IH].
Qed.

Lemma accumulate_forkchoice_records s roster atts sl : records s (accumulate_forkchoice s roster atts sl).
Proof.
  unfold accumulate_forkchoice. set (store := committed_store s roster). clearbody store.
  destruct (foldl _ _ atts) as [s1 store1] eqn:E.
  assert (records s s1) as H1.
  { pose proof (foldl_vote_records (forkchoice_equivocation_horizon_active (epoch s)) s store atts) as H1. by rewrite E in H1. }
  eapply records_trans; [exact H1|].
  set (l := ascending _). set (horizon := forkchoice_equivocation_horizon_active _).
  eapply (records_trans _ (foldl (mark_equivocator horizon) s1 l));
    [apply foldl_records; intros; apply mark_equivocator_records|].
  case_goal; [|apply records_refl]. records_only.
Qed.

(** ** The proposal *)

Lemma reveal_randao_records s header rec s' :
  validators s !! Header.proposer_index header = Some rec → reveal_randao s header rec = Ret s' → records s s'.
Proof.
  intros Hr E. unfold reveal_randao in E. outcome_inv E. injection E as <-.
  rename select Beacon.RevealState into next.
  eapply records_trans; [apply settles_records; [by apply (set_record_settles s _ _ (rec <| vr_randao_commitment := Beacon.commitment next |>) Hr)|done]|].
  records_only.
Qed.

Lemma check_proposal_records s envelope roster seed v s' :
  check_proposal fuel s envelope roster seed v = Ret s' → records s s'.
Proof.
  unfold check_proposal. intros E. outcome_inv E. injection E as <-.
  rename select (reveal_randao _ _ _ = _) into H1. rename select (validators s !! _ = _) into Hr.
  apply reveal_randao_records in H1; [|done]. eapply records_trans; [done|].
  case_goal; [|apply records_refl]. records_only.
Qed.

Lemma open_block_records s envelope roster v atts s' :
  open_block fuel s envelope roster v atts = Ret s' → records s s'.
Proof.
  unfold open_block. intros E. outcome_inv E. injection E as <-.
  rename select (check_proposal _ _ _ _ _ _ = _) into H1. rename select (include_attestations _ _ _ _ _ _ _ _ _ = _) into H2.
  apply check_proposal_records in H1. apply include_attestations_records in H2.
  eauto using records_trans, accumulate_forkchoice_records.
Qed.

Lemma prepare_settlement_records pre s : records s (prepare_settlement pre s).
Proof.
  unfold prepare_settlement. destruct (l2_settlement s) as [l2|] eqn:Hl; [|apply records_refl].
  split; [|done|intros []; by constructor|done|done]. sheet.
  rewrite Hl, Settlement.prepare_source_escrow. lia.
Qed.

Lemma advance_settlement_records s s' : advance_settlement s = Ret s' → records s s'.
Proof.
  unfold advance_settlement. destruct (l2_settlement s) as [l2|] eqn:Hl; intros E; [|injection E as <-; apply records_refl].
  outcome_inv E. injection E as <-. rename select (Settlement.advance_height _ = _) into Ha.
  apply Settlement.advance_height_escrow in Ha.
  split; [|done|intros []; by constructor|done|done]. sheet. rewrite Hl, Ha. lia.
Qed.

(** ** Transactions *)

Lemma apply_one_effect s tx block_epoch p roster total base v s' c :
  apply_one s tx block_epoch p roster total base v = Ret (s', c) →
  amounts_wf s → roster_wf roster → tx_wf tx → 0 ≤ base →
  frame s s' ∧ net s' + fees_of c ≤ net s + bonded_sat tx ∧ amounts_wf s' ∧ fees_wf c.
Proof.
  intros E Hwf Hro Htx Hb. destruct tx; cbn [apply_one] in E.
  all: try (pose proof (apply_transaction_fees _ _ _ _ _ _ _ E Htx Hb);
    apply apply_transaction_effect in E as (? & ? & ?); [|done..]; by split_and!).
  outcome_inv E. injection E as <- <-. rename select (apply_slashing_evidence _ _ _ _ _ = _) into Ha.
  apply apply_slashing_evidence_net in Ha as (? & ? & ?); [|done..]. rewrite (proj1 (staking_fees _ _ _)). cbn.
  split_and!; [done|lia|done|apply staking_fees].
Qed.

(** The totals against the books: nothing was created beyond the [k] that was bonded, and
    the bonded total is exact or at its ceiling. *)
Record tallies s0 (k : Z) s (t : Totals) : Prop := {
  ta_frame : frame s0 s;
  ta_net : net s + (base_fees t + priority_fees t) ≤ net s0 + k;
  ta_bonded : unfunded_bonded t = Z.min k u128_MAX;
  ta_bonds : 0 ≤ k;
  ta_wf : amounts_wf s;
  ta_base : 0 ≤ base_fees t;
  ta_priority : 0 ≤ priority_fees t;
}.

Lemma bonded_nonneg tx : tx_wf tx → 0 ≤ bonded_sat tx.
Proof. destruct tx; cbn; try done; [unfold deposit_wf|unfold delegate_wf]; unfold Codec.Codec.is_int; naive_solver. Qed.

Lemma account_tallies s0 k s s' t tx c max_bytes t' :
  account t tx c max_bytes = Ret t' → tallies s0 k s t → frame s s' → tx_wf tx →
  net s' + fees_of c ≤ net s + bonded_sat tx → amounts_wf s' → fees_wf c → tallies s0 (k + bonded_sat tx) s' t'.
Proof.
  intros E [Hf Hn Hu Hk Hw Hb Hp] Hf' Htx Hn' Hw' [Hc Hc']. pose proof (bonded_nonneg tx Htx). unfold account in E. outcome_inv E.
  injection E as <-. checked_inv. unfold fees_of in *.
  split; cbn; [by eapply frame_trans|lia| |lia|done|lia|lia].
  unfold saturating_add. destruct tx; cbn in *; lia.
Qed.

Definition total_bonded (txs : list PosTransaction) : Z := sumZ (bonded_sat <$> txs).

Lemma apply_transactions_tallies s0 k i s t block_epoch p roster total base max_bytes v txs s' t' :
  apply_transactions i s t block_epoch p roster total base max_bytes v txs = Ret (s', t') →
  tallies s0 k s t → roster_wf roster → Forall tx_wf txs → 0 ≤ base → tallies s0 (k + total_bonded txs) s' t'.
Proof.
  intros E Ht Hro Htx Hb. revert i k s t E Ht. induction Htx as [|tx txs Hx Htx IH]; intros i k s t; cbn; intros E Ht.
  - injection E as <- <-. unfold total_bonded. cbn. by rewrite Z.add_0_r.
  - outcome_inv E. rename select (apply_one _ _ _ _ _ _ _ _ = _) into H1. rename select (account _ _ _ _ = _) into H2.
    apply apply_one_effect in H1 as (? & ? & ? & ?); [|by try apply Ht..].
    unfold total_bonded. cbn. rewrite Z.add_assoc. eapply IH; [exact E|]. by eapply account_tallies.
Qed.

Lemma credit_producer_Some s t block_epoch sl p s' :
  credit_producer s t block_epoch sl p = Some s' → 0 ≤ base_fees t → 0 ≤ priority_fees t →
  net s' ≤ net s + (base_fees t + priority_fees t) ∧ frame s s' ∧ (amounts_wf s → amounts_wf s').
Proof.
  unfold credit_producer. intros (split_ & Hs & E)%bind_Some Hb Hp. apply Rewards.split_fees_at_Some in Hs; [|done].
  set (credit := if fee_stake_decouple_active block_epoch then _ else _) in E.
  assert (credit ≤ base_fees t + priority_fees t) as Hc by (subst credit; case_goal; lia). clearbody credit.
  destruct (0 <? credit) eqn:E0; boolp.
  - apply bind_Some in E as (sum & ? & [= <-]). checked_inv. split_and!.
    + sheet. rewrite map_total_insert. lia.
    + by constructor.
    + intros Hwf. pose proof (nonneg_get0 _ p (aw_pending s Hwf)). destruct Hwf. constructor; cbn; try done.
      apply nonneg_insert; [done|lia].
  - injection E as <-. split_and!; [lia|by constructor|done].
Qed.

Lemma next_base_fee_nonneg pre ep base : next_base_fee_at pre ep = Some base → 0 ≤ base.
Proof.
  assert (∀ x, 0 ≤ clamp_base_fee x) as Hc.
  { intros x. pose proof (clamp_bounds x) as [? _]. assert (0 ≤ MIN_BASE_FEE_MILLISAT_PER_GAS) by done. lia. }
  unfold next_base_fee_at, FeeMarket.next_base_fee. intros ([used target] & _ & E)%bind_Some.
  destruct (used =? target); [by injection E as <-|].
  destruct (target <? used); repeat (apply bind_Some in E as (? & _ & E)); injection E as <-; apply Hc.
Qed.

(** The books after the transactions and the producer's credit, before the supply check. *)
Lemma body_books pre s0 s1 k s t s2 base gas bytes block_epoch sl p :
  advances pre s0 → records s0 s1 → tallies s1 k s t → credit_producer s t block_epoch sl p = Some s2 →
  let post := s2 <| base_fee_millisat_per_gas := base |> <| block_gas_used := gas |> <| block_tx_bytes := bytes |> in
  frame s1 post ∧ amounts_wf post ∧ net post ≤ net pre + (issued_sat post - issued_sat pre) + k ∧
  supply_conserved pre post (unfunded_bonded t) ≠ Some false.
Proof.
  intros [Hk Ha Hi _] [Hn1 Hi1 _ _ _] [Hf Hn Hu Hk' Hw Hb Hp] Hc post.
  apply credit_producer_Some in Hc as (Hc & Hf2 & Hw2); [|done..].
  assert (frame s1 post) as Hf1.
  { pose proof (frame_trans _ _ _ Hf Hf2) as []. by constructor. }
  assert (amounts_wf post) as Hwp by (destruct (Hw2 Hw); by constructor).
  assert (net post = net s2) as Hnp by done.
  pose proof (fr_issued _ _ Hf1) as Eqi. clearbody post. split_and!; [done|done|lia|].
  destruct (decide (u128_MAX ≤ unfunded_bonded t)); [by apply supply_conserved_saturated|].
  assert (0 ≤ u128_MAX) by done. apply supply_conserved_net; [done|lia|lia].
Qed.

Lemma no_tallies s : amounts_wf s → tallies s 0 s no_totals.
Proof. intros. by split; [|cbn; lia|..]. Qed.

(** An opened block: the books of the epochs it closed, the attestations recorded. *)
Record opened pre s0 s1 (roster : list Types.Validator) (txs : list PosTransaction) : Prop := {
  op_advances : advances pre s0;
  op_records : records s0 s1;
  op_roster : roster_wf roster;
  op_txs : Forall tx_wf txs;
}.

Lemma opened_prepared pre s0 s1 roster txs :
  opened pre s0 s1 roster txs → opened pre s0 (prepare_settlement pre s1) roster txs.
Proof. intros []. split; [done|eapply records_trans; [done|apply prepare_settlement_records]|done|done]. Qed.

Lemma prepared_fields pre s :
  latest_messages (prepare_settlement pre s) = latest_messages s ∧
  fc_equivocators (prepare_settlement pre s) = fc_equivocators s ∧ epoch (prepare_settlement pre s) = epoch s.
Proof. unfold prepare_settlement. by case_goal. Qed.

Lemma advanced_fields s s' :
  advance_settlement s = Ret s' →
  latest_messages s' = latest_messages s ∧ fc_equivocators s' = fc_equivocators s.
Proof.
  unfold advance_settlement. destruct (l2_settlement s); intros E; [|by injection E as <-]. outcome_inv E. by injection E as <-.
Qed.

(** What an accepted body leaves: the epoch and the fork choice of the opened block, and
    books that balance. *)
Lemma apply_body_Ret pre s0 s1 header roster v txs s' :
  apply_body pre s1 header roster v txs = Ret s' → opened pre s0 s1 roster txs →
  epoch s' = epoch s0 ∧ amounts_wf s' ∧ issued_sat s' = issued_sat s0 ∧
  latest_messages s' = latest_messages s1 ∧ fc_equivocators s' = fc_equivocators s1 ∧
  net s' ≤ net pre + (issued_sat s' - issued_sat pre) + total_bonded txs ∧
  (slashed_ejected s1 → slashed_ejected s').
Proof.
  unfold apply_body. intros E Hop. pose proof (re_ejected _ _ (prepare_settlement_records pre s1)) as Hej. destruct (prepared_fields pre s1) as (Hl & He & Hep).
  apply opened_prepared in Hop as [Had Hre Hro Htx]. set (sp := prepare_settlement pre s1) in *. clearbody sp.
  outcome_inv E. rename select (next_base_fee_at _ _ = _) into Hb. apply next_base_fee_nonneg in Hb.
  rename select (apply_transactions _ _ _ _ _ _ _ _ _ _ _ = _) into Ht.
  rename select (credit_producer _ _ _ _ _ = _) into Hc.
  eapply (apply_transactions_tallies sp 0) in Ht; [|apply no_tallies, (re_wf _ _ Hre), Had|done..].
  eapply body_books in Hc as (Hf & Hw & Hn & _); [|exact Had|exact Hre|exact Ht].
  destruct (advanced_fields _ _ E) as [-> ->]. apply advance_settlement_records in E as [Hn2 Hi2 Hw2 He2 Hj2].
  rewrite He2, (fr_epoch _ _ Hf), (fr_latest _ _ Hf), (fr_equivocators _ _ Hf).
  pose proof (fr_issued _ _ Hf). destruct Hre as [_ Hi1 _ He1 _].
  split_and!; [done|by apply Hw2|lia|done|done|lia|]. intros Hs. by apply Hj2, (fr_ejected _ _ Hf), Hej.
Qed.

(** ** The supply guards *)

(** Every error [r] can give satisfies [P]. *)
Definition rejects {E T} (P : E → Prop) (r : outcome E T) : Prop := ∀ e, r = Rej e → P e.

Lemma rejects_bind {E T U} (P : E → Prop) (r : outcome E T) (f : T → outcome E U) :
  rejects P r → (∀ x, r = Ret x → rejects P (f x)) → rejects P (r ≫= f).
Proof. unfold rejects. destruct r; cbn; naive_solver. Qed.
Lemma rejects_require {E} (P : E → Prop) b e : P e → rejects P (require b e).
Proof. intros He e'. destruct b; cbn; naive_solver. Qed.
Lemma rejects_must {E T} (P : E → Prop) (o : option T) : rejects P (must o).
Proof. intros e. by destruct o. Qed.
Lemma rejects_or_rej {E T} (P : E → Prop) (o : option T) e : P e → rejects P (or_rej o e).
Proof. intros He e'. destruct o; cbn; naive_solver. Qed.
Lemma rejects_as {E F T} (P : E → Prop) (f : F → E) (r : outcome F T) : (∀ e, P (f e)) → rejects P (rej_as f r).
Proof. intros He e'. destruct r; cbn; naive_solver. Qed.
Lemma rejects_Ret {E T} (P : E → Prop) (x : T) : rejects P (Ret x).
Proof. by intros e. Qed.

Definition not_supply (e : TransitionError) : Prop := e ≠ SupplyNotConserved ∧ e ≠ SupplyCapExceeded.
Ltac rejects_one :=
  first [apply rejects_must | apply rejects_Ret
        | first [apply rejects_require | apply rejects_or_rej | apply rejects_as; intros ?]; split; discriminate].
Ltac rejects_all := repeat (apply rejects_bind; [rejects_one|intros ? ?]).

Lemma check_header_rejects pre header atts txs : rejects not_supply (check_header pre header atts txs).
Proof. unfold check_header. cbv zeta. rejects_all. rejects_one. Qed.

Lemma include_attestations_rejects i s partition sl v dedup seen exact_seen atts :
  rejects not_supply (include_attestations i s partition sl v dedup seen exact_seen atts).
Proof.
  revert i s seen exact_seen. induction atts as [|att atts IH]; intros i s seen exact_seen; cbn [include_attestations];
    [apply rejects_Ret|]. cbv zeta. rejects_all. case_goal; [apply IH|]. rejects_all. apply IH.
Qed.

Lemma open_block_rejects s envelope roster v atts : rejects not_supply (open_block fuel s envelope roster v atts).
Proof.
  unfold open_block. cbv zeta. apply rejects_bind; [|intros s1 _].
  { unfold check_proposal, reveal_randao. cbv zeta. rejects_all. apply rejects_bind; [|intros ? _; rejects_all; apply rejects_Ret].
    rejects_all. case_match. rejects_all. apply rejects_Ret. }
  rejects_all. apply rejects_bind; [apply include_attestations_rejects|intros; apply rejects_Ret].
Qed.

Lemma apply_transactions_rejects i s t block_epoch p roster total base max_bytes v txs :
  rejects not_supply (apply_transactions i s t block_epoch p roster total base max_bytes v txs).
Proof.
  revert i s t. induction txs as [|tx txs IH]; intros i s t; cbn [apply_transactions]; [apply rejects_Ret|].
  apply rejects_bind; [apply rejects_as; intros []; split; discriminate|intros [s1 c] _].
  apply rejects_bind; [|intros; apply IH]. unfold account. rejects_all. apply rejects_Ret.
Qed.

Lemma apply_body_rejects pre s0 s1 header roster v txs :
  opened pre s0 s1 roster txs → rejects not_supply (apply_body pre s1 header roster v txs).
Proof.
  unfold apply_body. intros [Had Hre Hro Htx]%opened_prepared. set (sp := prepare_settlement pre s1) in *. clearbody sp.
  cbv zeta. apply rejects_bind; [apply rejects_must|intros base Hb%must_Ret%next_base_fee_nonneg].
  apply rejects_bind; [|intros _ _].
  { unfold check_limits. rejects_all. destruct (minimum_demand _ _). rejects_all. rejects_one. }
  apply rejects_bind; [apply apply_transactions_rejects|intros [s t] Ht]. rejects_all.
  eapply (apply_transactions_tallies sp 0) in Ht; [|apply no_tallies, (re_wf _ _ Hre), Had|done..].
  rename select (must (credit_producer _ _ _ _ _) = _) into Hc. apply must_Ret in Hc.
  eapply body_books in Hc as (_ & _ & _ & Hs); [|exact Had|exact Hre|exact Ht].
  rename select (must (supply_conserved _ _ _) = _) into Hv. apply must_Ret in Hv. rewrite Hv in Hs.
  match goal with |- rejects _ (require ?b _ ≫= _) => destruct b; [|done] end. cbn.
  unfold advance_settlement. case_goal; [rejects_all|]; apply rejects_Ret.
Qed.

Lemma consensus_roster_opened pre s0 s1 roster txs :
  advances pre s0 → records s0 s1 → consensus_roster_at s0 (epoch s0) = Some roster → Forall tx_wf txs →
  opened pre s0 s1 roster txs.
Proof. intros Had Hre Hro Htx. split; [done|done| |done]. eapply consensus_roster_wf; [exact Hro|apply Had]. Qed.

(** ** Votes of the fork choice *)

(** No validator caught equivocating has a vote that counts. *)
Definition votes_wf s : Prop := ∀ v, v ∈ fc_equivocators s → latest_messages s !! v = None.
Definition recorded s (v sl : Z) (root : hash) : Prop :=
  v ∈ fc_equivocators s ∨ ∃ votes, fc_recent_votes s !! v = Some votes ∧ votes !! sl = Some root.

Record votes s s' : Prop := {
  vo_wf : votes_wf s → votes_wf s';
  vo_mono : fc_equivocators s ⊆ fc_equivocators s';
}.
Lemma votes_refl s : votes s s.
Proof. by split. Qed.
Lemma votes_trans s1 s2 s3 : votes s1 s2 → votes s2 s3 → votes s1 s3.
Proof. intros [] []. split; [auto|set_solver]. Qed.

Lemma mark_equivocator_votes horizon s v :
  votes s (mark_equivocator horizon s v) ∧ v ∈ fc_equivocators (mark_equivocator horizon s v).
Proof.
  unfold mark_equivocator.
  set (s1 := s <| fc_equivocators := _ |> <| latest_messages := _ |>).
  assert (votes s s1 ∧ v ∈ fc_equivocators s1) as [[Hw Hm] Hin].
  { subst s1. split; [split|]; cbn; [|set_solver..]. intros Hw u Hu. apply lookup_delete_None. cbn in Hu.
    apply elem_of_union in Hu as [->%elem_of_singleton|Hu]; [by left|right; by apply Hw]. }
  clearbody s1. by case_goal.
Qed.

Lemma mark_all_votes horizon s l : votes s (foldl (mark_equivocator horizon) s l).
Proof.
  revert s. induction l as [|v l IH]; intros s; cbn [foldl]; [apply votes_refl|].
  eapply votes_trans; [apply mark_equivocator_votes|apply IH].
Qed.

Lemma record_recent_Some s v msg s1 conflict :
  record_recent_vote_conflicts s v msg = (s1, conflict) →
  fc_equivocators s1 = fc_equivocators s ∧ latest_messages s1 = latest_messages s ∧
  (∀ u sl root, recorded s u sl root → recorded s1 u sl root) ∧
  (conflict = false → recorded s1 v (ForkChoice.lm_slot msg) (ForkChoice.lm_root msg)).
Proof.
  unfold record_recent_vote_conflicts. destruct (default ∅ _ !! _) as [prev|] eqn:Hp; intros [= <- <-].
  - split_and!; [done..|]. intros E. boolp. subst prev. right.
    destruct (fc_recent_votes s !! v) as [m|] eqn:Hm; cbn in Hp; [|by rewrite lookup_empty in Hp]. by exists m.
  - split_and!; [done..| |].
    + intros u sl root [?|(m & Hm & Hr)]; [by left|]. right. cbn. destruct (decide (v = u)) as [->|].
      * rewrite lookup_insert_eq. eexists. split; [done|]. rewrite Hm in Hp |- *. cbn in Hp |- *.
        rewrite lookup_insert_ne; [done|]. intros <-. by rewrite Hr in Hp.
      * rewrite lookup_insert_ne by done. by exists m.
    + intros _. right. cbn. rewrite lookup_insert_eq. eexists. split; [done|]. apply lookup_insert_eq.
Qed.

Lemma fold_vote_votes horizon s store att s' store' :
  fold_vote horizon (s, store) att = (s', store') →
  votes s s' ∧
  (horizon = true →
   recorded s' (Types.att_validator att) (Types.slot (Types.att_data att)) (Types.head (Types.att_data att)) ∧
   ∀ u sl root, recorded s u sl root → recorded s' u sl root).
Proof.
  unfold fold_vote. set (v := Types.att_validator att). set (msg := ForkChoice.mkLM _ _).
  case_bool_decide as Hv; [intros [= <- <-]; split; [apply votes_refl|]; intros _; split; [by left|done]|].
  destruct (if horizon then _ else _) as [s1 conflict] eqn:E1.
  assert (fc_equivocators s1 = fc_equivocators s ∧ latest_messages s1 = latest_messages s ∧
    (horizon = true → (∀ u sl root, recorded s u sl root → recorded s1 u sl root) ∧
      (conflict = false → recorded s1 v (ForkChoice.lm_slot msg) (ForkChoice.lm_root msg)))) as (He & Hl & Hr).
  { destruct horizon; [apply record_recent_Some in E1; naive_solver|]. by injection E1 as <- <-. }
  assert (votes s s1) as H1 by (split; [unfold votes_wf; by rewrite He, Hl|by rewrite He]).
  destruct conflict.
  - intros [= <- <-]. destruct (mark_equivocator_votes true s1 v) as [Hm Hin]. split; [by eapply votes_trans|].
    intros Hh. split; [by left|]. intros u sl root [Hu|(m & Hm' & Hsl)]%(proj1 (Hr Hh)); [left; by apply (vo_mono _ _ Hm)|].
    destruct (decide (v = u)) as [<-|]; [by left|]. right. exists m. cbn. by rewrite lookup_delete_ne.
  - destruct (ForkChoice.observe store v msg) as [store2 moved]. intros [= <- <-].
    assert (votes s1 (if moved then s1 <| latest_messages :=
      <[v := (ForkChoice.lm_slot msg, ForkChoice.lm_root msg)]> (latest_messages s1) |> else s1)) as H2.
    { destruct moved; [|apply votes_refl]. split; [|done]. intros Hw u Hu. cbn in *.
      rewrite lookup_insert_ne by (intros <-; by rewrite He in Hu). by apply Hw. }
    split; [by eapply votes_trans|]. intros [Hr1 Hr2]%Hr. by destruct moved; split; auto.
Qed.

Lemma fold_votes_votes horizon atts s store s' store' :
  foldl (fold_vote horizon) (s, store) atts = (s', store') →
  votes s s' ∧
  (horizon = true → (∀ u sl root, recorded s u sl root → recorded s' u sl root) ∧
     Forall (λ att, recorded s' (Types.att_validator att) (Types.slot (Types.att_data att)) (Types.head (Types.att_data att))) atts).
Proof.
  revert s store. induction atts as [|att atts IH]; intros s store; cbn [foldl].
  - intros [= <- <-]. split; [apply votes_refl|]. by split.
  - destruct (fold_vote horizon (s, store) att) as [s1 store1] eqn:E1. intros [H2 Hr2]%IH.
    apply fold_vote_votes in E1 as [H1 Hr1]. split; [by eapply votes_trans|].
    intros Hh. destruct (Hr1 Hh) as [Ha Hb], (Hr2 Hh) as [Hc Hd]. split; [auto|]. constructor; auto.
Qed.

Lemma accumulate_forkchoice_votes s roster atts sl :
  votes s (accumulate_forkchoice s roster atts sl) ∧
  (forkchoice_equivocation_horizon_active (epoch s) = true → ∀ a b, a ∈ atts → b ∈ atts →
     Types.att_validator a = Types.att_validator b → Types.slot (Types.att_data a) = Types.slot (Types.att_data b) →
     Types.head (Types.att_data a) ≠ Types.head (Types.att_data b) →
     Types.att_validator a ∈ fc_equivocators (accumulate_forkchoice s roster atts sl)).
Proof.
  unfold accumulate_forkchoice. set (horizon := forkchoice_equivocation_horizon_active _).
  destruct (foldl _ _ atts) as [s1 store1] eqn:E1. apply fold_votes_votes in E1 as [H1 Hr].
  set (s2 := foldl _ s1 _). assert (votes s1 s2) as H2 by apply mark_all_votes. clearbody s2.
  set (s3 := if horizon then _ else s2). assert (votes s2 s3) as H3 by (subst s3; by case_goal).
  clearbody s3. split; [by do 2 (eapply votes_trans; [done|])|].
  intros [_ Hall]%Hr a b Ha Hb Hv Hs Hne. rewrite Forall_forall in Hall.
  apply (vo_mono _ _ H3), (vo_mono _ _ H2). pose proof (Hall a Ha) as [?|(m & Hm & Hma)]; [done|].
  pose proof (Hall b Hb) as [?|(m' & Hm' & Hmb)]; [congruence|]. congruence.
Qed.

Lemma same_votes s s' :
  latest_messages s' = latest_messages s → fc_equivocators s' = fc_equivocators s → votes s s'.
Proof. intros Hl He. split; [unfold votes_wf; by rewrite Hl, He|by rewrite He]. Qed.

Lemma include_attestations_votes i s partition sl v dedup seen exact_seen atts s' :
  include_attestations i s partition sl v dedup seen exact_seen atts = Ret s' → votes s s'.
Proof.
  revert i s seen exact_seen. induction atts as [|att atts IH]; intros i s seen exact_seen; cbn; intros E.
  - injection E as <-. apply votes_refl.
  - outcome_inv E. case_bool_decide; [by apply IH in E|]. outcome_inv E. apply IH in E. eapply votes_trans; [|exact E].
    by apply same_votes.
Qed.

Lemma reveal_randao_votes s header rec s' : reveal_randao s header rec = Ret s' → votes s s'.
Proof. unfold reveal_randao. intros E. outcome_inv E. injection E as <-. by apply same_votes. Qed.

Lemma check_proposal_votes s envelope roster seed v s' :
  check_proposal fuel s envelope roster seed v = Ret s' → votes s s'.
Proof.
  unfold check_proposal. intros E. outcome_inv E. injection E as <-.
  rename select (reveal_randao _ _ _ = _) into H1. apply reveal_randao_votes in H1.
  eapply votes_trans; [exact H1|]. apply same_votes; by case_goal.
Qed.

Lemma open_block_votes s envelope roster v atts s' :
  open_block fuel s envelope roster v atts = Ret s' →
  votes s s' ∧
  (forkchoice_equivocation_horizon_active (epoch s) = true → ∀ a b, a ∈ atts → b ∈ atts →
     Types.att_validator a = Types.att_validator b → Types.slot (Types.att_data a) = Types.slot (Types.att_data b) →
     Types.head (Types.att_data a) ≠ Types.head (Types.att_data b) → Types.att_validator a ∈ fc_equivocators s').
Proof.
  unfold open_block. intros E. outcome_inv E. injection E as <-.
  rename select (check_proposal _ _ _ _ _ _ = _) into H1. rename select (include_attestations _ _ _ _ _ _ _ _ _ = _) into H2.
  pose proof (re_epoch _ _ (check_proposal_records _ _ _ _ _ _ H1)) as He1.
  pose proof (re_epoch _ _ (include_attestations_records _ _ _ _ _ _ _ _ _ _ H2)) as He2.
  apply include_attestations_votes in H2.
  match goal with |- votes _ (accumulate_forkchoice ?x ?r ?a ?n) ∧ _ =>
    destruct (accumulate_forkchoice_votes x r a n) as [H3 Hd] end.
  rewrite He2, He1 in Hd. split; [|done]. eapply votes_trans; [by eapply check_proposal_votes|by eapply votes_trans].
Qed.

(** ** Blocks *)

Lemma check_header_Ret pre header atts txs u :
  check_header pre header atts txs = Ret u →
  slot pre < Header.slot header ∧ epoch pre ≤ epoch_of (Header.slot header) ≤ epoch pre + MAX_EPOCH_ADVANCE ∧
  Header.parent header = head pre ∧
  Body.body_root (canonical_bytes <$> txs) = Some (Header.body_root header) ∧
  Body.attestation_root atts = Some (Header.attestation_root header).
Proof.
  unfold check_header. cbv zeta. intros E. apply outcome_bind_Ret in E as ([] & H1%require_Ret & E).
  outcome_inv E. apply require_Ret in E. boolp. unfold saturating_sub in *. split_and!; [lia..|congruence|congruence|congruence].
Qed.

(** What an accepted block does to the state it extends. *)
Record extends_by pre (envelope : Slashing.ProposalEnvelope) (txs : list PosTransaction) s' : Prop := {
  ex_parent : Header.parent (Slashing.env_header envelope) = head pre;
  ex_head : head s' = Header.block_id (Slashing.env_header envelope);
  ex_slot : slot pre < slot s';
  ex_epoch : epoch s' = epoch_of (slot s');
  ex_advance : epoch pre ≤ epoch s' ≤ epoch pre + MAX_EPOCH_ADVANCE;
  ex_issued : issued_sat pre ≤ issued_sat s' ≤ Tokenomics.TOTAL_SUPPLY_SAT;
  ex_net : net s' ≤ net pre + (issued_sat s' - issued_sat pre) + total_bonded txs;
  ex_amounts : amounts_wf s';
  ex_votes : votes pre s';
  ex_ejected : slashed_ejected pre → slashed_ejected s';
}.

Lemma compute_post_state_Ret pre envelope v atts txs s' :
  compute_post_state fuel built pre envelope v atts txs = Ret s' →
  gates_ordered → amounts_wf pre → 0 ≤ epoch pre → Forall tx_wf txs →
  extends_by pre envelope txs s'.
Proof.
  unfold compute_post_state. cbv zeta. intros E Hg Hwf He Htx. outcome_inv E. injection E as <-.
  rename select (check_header _ _ _ _ = _) into Hh. apply check_header_Ret in Hh as (Hsl & Hep & Hp & _).
  rename select (advance_epochs _ _ _ _ _ = _) into Ha.
  pose proof (advance_epochs_advances _ _ _ _ Ha Hg Hwf He) as Had.
  apply advance_epochs_terminates in Ha; [|unfold MAX_EPOCH_ADVANCE in *; lia].
  rename select (consensus_roster_at _ _ = _) into Hro. rename select (open_block _ _ _ _ _ _ = _) into Ho.
  pose proof (open_block_records _ _ _ _ _ _ Ho) as Hre. apply open_block_votes in Ho as [Hv _].
  rename select (apply_body _ _ _ _ _ _ = _) into Hb. rename select ((_ <=? _) = true) into Hcap. boolp.
  eapply apply_body_Ret in Hb as (Eb & Wb & Ib & Lb & Qb & Nb & Jb); [|by eapply consensus_roster_opened].
  destruct Had as [Hk Hn [Hi _] _].
  split; cbn; [done|done|lia|lia|lia|lia|done|by destruct Wb; constructor| |].
  2: { intros Hs. by apply Jb, (re_ejected _ _ Hre), (ke_ejected _ _ Hk). }
  eapply votes_trans; [apply same_votes; apply Hk|]. eapply votes_trans; [exact Hv|]. by apply same_votes.
Qed.

(** ** Theorems *)

Lemma advance_epochs_more steps more s block_epoch :
  advance_epochs fuel built steps s block_epoch ≠ Rej tt →
  advance_epochs fuel built (steps + more) s block_epoch = advance_epochs fuel built steps s block_epoch.
Proof.
  revert s. induction steps as [|steps IH]; intros s; cbn.
  - destruct (epoch s <? block_epoch) eqn:E; [done|]. intros _. destruct more; cbn; by rewrite E.
  - destruct (epoch s <? block_epoch); [|done]. destruct (close_epoch fuel built s); cbn; [apply IH|done].
Qed.

(** C10: the loop that closes skipped epochs ends.  For a block no more than
    [MAX_EPOCH_ADVANCE] epochs ahead, that many passes always suffice (the loop is never
    still running), more passes change nothing, and the state it returns is in the block's
    epoch, or in its own when that is later. *)
Theorem epoch_loop_terminates s block_epoch :
  block_epoch ≤ epoch s + MAX_EPOCH_ADVANCE →
  let steps := Z.to_nat MAX_EPOCH_ADVANCE in
  advance_epochs fuel built steps s block_epoch ≠ Rej tt ∧
  (∀ more, advance_epochs fuel built (steps + more) s block_epoch = advance_epochs fuel built steps s block_epoch) ∧
  ∀ s', advance_epochs fuel built steps s block_epoch = Ret s' → epoch s' = Z.max (epoch s) block_epoch.
Proof.
  intros Hb steps. destruct (advance_epochs_terminates steps s block_epoch) as [H1 H2]; [subst steps; lia|].
  split_and!; [done| |done]. intros more. by apply advance_epochs_more.
Qed.

(** C3: the two supply guards of a block never fire.  Whatever the header, the
    attestations and the (decodable) transactions, a block on top of a state with no
    negative amount, and with the issuance counter within the cap, is refused neither with
    [SupplyNotConserved] nor with [SupplyCapExceeded]: the books already balance by the time
    the guards look at them.  The schedule is one that satisfies [gates_ordered]. *)
Theorem supply_guards_never_fire pre envelope v atts txs :
  gates_ordered → amounts_wf pre → 0 ≤ epoch pre → Forall tx_wf txs →
  issued_sat pre ≤ Tokenomics.TOTAL_SUPPLY_SAT →
  compute_post_state fuel built pre envelope v atts txs ≠ Rej SupplyNotConserved ∧
  compute_post_state fuel built pre envelope v atts txs ≠ Rej SupplyCapExceeded.
Proof.
  intros Hg Hwf He Htx Hi.
  assert (rejects not_supply (compute_post_state fuel built pre envelope v atts txs)) as Hr.
  { unfold compute_post_state. cbv zeta. apply rejects_bind; [apply check_header_rejects|intros _ _].
    apply rejects_bind; [rejects_one|intros s Ha%rej_as_Ret]. pose proof (advance_epochs_advances _ _ _ _ Ha Hg Hwf He) as Had.
    rewrite (proj2 (Z.leb_le (issued_sat s) _)) by (pose proof (ad_issued _ _ Had); lia). cbn [require mbind outcome_bind].
    apply rejects_bind; [apply rejects_must|intros roster Hro%must_Ret].
    apply rejects_bind; [apply open_block_rejects|intros s1 Ho%open_block_records].
    apply rejects_bind; [by eapply apply_body_rejects, consensus_roster_opened|intros s2 _]. apply rejects_Ret. }
  split; intros E; by apply Hr in E as [].
Qed.

(** C2: what an accepted block does.  It extends the head it names and becomes the
    head; its slot is strictly later and its epoch is that slot's, at most
    [MAX_EPOCH_ADVANCE] on; the issuance counter never falls and stays within the cap; what
    the ledger holds grows by no more than what was issued and what its unfunded deposits
    and delegations bond, so no path through the transactions, the fees, the rewards and
    the slashing of a block mints; no amount becomes negative; no validator caught
    equivocating is forgotten or votes again; and if all slashed validators were ejected,
    they still are.  (The
    transactions are decodable ones and the schedule does not activate the second reward
    rule before funded delegations: [gates_ordered].) *)
Theorem accepted_block pre envelope v atts txs s' :
  compute_post_state fuel built pre envelope v atts txs = Ret s' →
  gates_ordered → amounts_wf pre → 0 ≤ epoch pre → Forall tx_wf txs →
  extends_by pre envelope txs s'.
Proof. apply compute_post_state_Ret. Qed.

(** C4: a validator that votes twice for one slot loses its vote.  When a block is
    accepted with two attestations of one validator that name different heads for the same
    slot, and the equivocation horizon is active, the validator is on the list of
    equivocators of the new state and has no latest message there. *)
Theorem equivocation_detected pre envelope v atts txs s' a b :
  compute_post_state fuel built pre envelope v atts txs = Ret s' →
  gates_ordered → amounts_wf pre → 0 ≤ epoch pre → Forall tx_wf txs → votes_wf pre →
  forkchoice_equivocation_horizon_active (epoch s') = true → a ∈ atts → b ∈ atts →
  Types.att_validator a = Types.att_validator b → Types.slot (Types.att_data a) = Types.slot (Types.att_data b) →
  Types.head (Types.att_data a) ≠ Types.head (Types.att_data b) →
  Types.att_validator a ∈ fc_equivocators s' ∧ latest_messages s' !! Types.att_validator a = None.
Proof.
  intros E Hg Hwf He Htx Hv Hh Ha Hb Hab Hs Hne.
  pose proof (compute_post_state_Ret _ _ _ _ _ _ E Hg Hwf He Htx) as Hx.
  cut (Types.att_validator a ∈ fc_equivocators s').
  { intros Hin. split; [done|]. by apply (vo_wf _ _ (ex_votes _ _ _ _ Hx) Hv). }
  clear Hx Hv. unfold compute_post_state in E. cbv zeta in E. outcome_inv E. injection E as <-.
  rename select (advance_epochs _ _ _ _ _ = _) into Hadv.
  pose proof (advance_epochs_advances _ _ _ _ Hadv Hg Hwf He) as Had.
  rename select (consensus_roster_at _ _ = _) into Hro. rename select (open_block _ _ _ _ _ _ = _) into Ho.
  pose proof (open_block_records _ _ _ _ _ _ Ho) as Hre. apply open_block_votes in Ho as [_ Hd].
  rename select (apply_body _ _ _ _ _ _ = _) into Hbody.
  eapply apply_body_Ret in Hbody as (Eb & _ & _ & _ & Qb & _ & _); [|by eapply consensus_roster_opened].
  cbn in Hh |- *. rewrite Qb. rewrite Eb in Hh. by eapply Hd.
Qed.

(** ** Chains *)

(** The states blocks reach from [g], with what their unfunded deposits and delegations
    bonded on the way. *)
Inductive chain (g : CommittedState) : Z → CommittedState → Prop :=
| chain_genesis : chain g 0 g
| chain_block k s envelope v atts txs s' :
    chain g k s → Forall tx_wf txs → compute_post_state fuel built s envelope v atts txs = Ret s' →
    chain g (k + total_bonded txs) s'.

Record state_wf s : Prop := {
  sw_amounts : amounts_wf s;
  sw_votes : votes_wf s;
  sw_issued : issued_sat s ≤ Tokenomics.TOTAL_SUPPLY_SAT;
  sw_slot : 0 ≤ slot s;
  sw_epoch : epoch s = epoch_of (slot s);
  sw_ejected : slashed_ejected s;
}.

Lemma state_wf_epoch s : state_wf s → 0 ≤ epoch s.
Proof. intros []. rewrite sw_epoch0. by apply Z.div_pos. Qed.

Lemma chain_step_wf g k s : chain g k s → gates_ordered → state_wf g →
  state_wf s ∧ slot g ≤ slot s ∧ net s ≤ net g + (issued_sat s - issued_sat g) + k.
Proof.
  intros Hc Hg Hwf. induction Hc as [|k s envelope v atts txs s' Hc (IHw & IHs & IHn) Htx E]; [by split_and!; [|lia|lia]|].
  apply compute_post_state_Ret in E as []; [|done|apply IHw|by apply state_wf_epoch|done].
  split_and!; [|lia|lia]. split; [done|by apply ex_votes0, IHw|lia|destruct IHw; lia|done|by apply ex_ejected0, IHw].
Qed.

Definition genesis_validator_wf (v : GenesisValidator) : Prop := 0 ≤ gv_staked_sat v ∧ 0 ≤ gv_commission_bps v.

Lemma insert_all_Forall {A V} (key : A → Z) (val : A → V) (P : V → Prop) l (m : gmap Z V) :
  Forall (λ x, P (val x)) l → map_Forall (λ _, P) m → map_Forall (λ _, P) (insert_all key val m l).
Proof.
  intros Hl. revert m. induction Hl as [|x l Hx Hl IH]; intros m Hm; cbn; [done|]. apply IH.
  by apply map_Forall_insert_2.
Qed.

Lemma genesis_state_wf block mix vs cohort taint acc nul evm opening g :
  genesis block mix vs cohort taint acc nul evm opening = Some g → Forall genesis_validator_wf vs →
  state_wf g ∧ net g ≤ issued_sat g + GENESIS_UNFUNDED_BONDED_CEILING_SAT.
Proof.
  unfold genesis. intros (set_ & _ & E)%bind_Some Hvs. apply bind_Some in E as (roster & _ & E).
  apply bind_Some in E as (a & Ha & E). apply accounted_supply_net in Ha as (-> & _).
  destruct (_ <=? _) eqn:Hle; [|done]. injection E as <-. boolp.
  split; [|unfold saturating_add in Hle; cbn [issued_sat] in *; lia]. split; [|done..|].
  2: { apply map_Forall_lookup_2. intros v r Hr Hs. exfalso. revert v r Hr Hs. cbn.
    apply (insert_all_Forall _ _ (λ r, slashed r = true → False)); [by apply Forall_true|apply map_Forall_empty]. }
  constructor; cbn; try done.
  - apply insert_all_Forall; [done|apply map_Forall_empty].
  - apply insert_all_Forall; [|apply map_Forall_empty]. eapply Forall_impl; [done|]. by intros x [].
Qed.

(** C1: every state of the chain is well formed.  From a genesis that was accepted
    (with non-negative stakes and commissions) every sequence of accepted blocks leads to a
    state whose amounts are all non-negative, whose epoch is that of its slot, whose
    equivocators have no vote, whose slashed validators are all ejected, and whose issuance
    counter is within the cap; and the ledger never holds more than the total supply, the
    genesis ceiling on unfunded bonds, and what later unfunded deposits and delegations
    bonded.  The transactions of the blocks are decodable ones, and the schedule does not
    activate the second reward rule before funded delegations ([gates_ordered]; the
    source's does not). *)
Theorem chain_well_formed block mix vs cohort taint acc nul evm opening g k s :
  genesis block mix vs cohort taint acc nul evm opening = Some g → Forall genesis_validator_wf vs →
  gates_ordered → chain g k s →
  state_wf s ∧ net s ≤ Tokenomics.TOTAL_SUPPLY_SAT + GENESIS_UNFUNDED_BONDED_CEILING_SAT + k.
Proof.
  intros Hgen Hvs Hg Hc. apply genesis_state_wf in Hgen as [Hw Hn]; [|done].
  apply chain_step_wf in Hc as (Hs & _ & Hk); [|done..]. split; [done|]. destruct Hs. lia.
Qed.
End effects.

(** ** A chain of one validator *)

Definition ex_keccak : Keccak := λ _, 5.
Definition ex_shake : Shake32 := λ _, 0.
(** The default schedule with the equivocation horizon active from the start. *)
Definition ex_rules : Rules :=
  mkRules 1400 800 u64_MAX u64_MAX 2884 u64_MAX u64_MAX 2884 u64_MAX u64_MAX u64_MAX 0 u64_MAX 2884 u64_MAX 2884 4669
    u64_MAX u64_MAX u64_MAX u64_MAX 5850 u64_MAX u64_MAX u64_MAX.

Definition ex_validators : list GenesisValidator :=
  [mkGenesisValidator 0 [1] (25000 * Delegation.SAT_PER_BLOCH) 0 [] 500].
Definition ex_start : CommittedState :=
  default ex_genesis (@genesis ex_sha ex_rules 9 9 ex_validators [] 0 0 0 (mkEvm 0 0 0 0) []).

(** A block of the next epoch with two conflicting votes of its only validator. *)
Definition ex_vote (head : hash) : Types.Attestation :=
  Types.mkAttestation (Types.mkAttData 32 head 0 9 1 9) 0 [head].
Definition ex_envelope : Slashing.ProposalEnvelope :=
  Slashing.mkEnvelope (Header.mkHeader Header.VERSION_G4 9 0 7 33 0 5 7 9 9 7 7) [].
Definition ex_result : outcome TransitionError CommittedState :=
  @compute_post_state ex_sha ex_keccak ex_xof ex_shake 1 mainnet ex_rules ex_build None ex_start ex_envelope ex_verifier
    [ex_vote 1; ex_vote 2] [].
Definition ex_end : CommittedState := match ex_result with Ret s => s | _ => ex_start end.

Lemma ex_gates : @gates_ordered ex_rules.
Proof. intros ep H. done. Qed.

Lemma ex_validators_wf : Forall genesis_validator_wf ex_validators.
Proof. by repeat constructor. Qed.

Lemma ex_start_genesis :
  @genesis ex_sha ex_rules 9 9 ex_validators [] 0 0 0 (mkEvm 0 0 0 0) [] = Some ex_start.
Proof. vm_compute. reflexivity. Qed.

Lemma ex_start_wf : state_wf ex_start.
Proof. eapply genesis_state_wf; [apply ex_start_genesis|apply ex_validators_wf]. Qed.

Lemma ex_result_Ret :
  @compute_post_state ex_sha ex_keccak ex_xof ex_shake 1 mainnet ex_rules ex_build None ex_start ex_envelope ex_verifier
    [ex_vote 1; ex_vote 2] [] = Ret ex_end.
Proof. vm_compute. reflexivity. Qed.

Lemma epoch_loop_terminates_witness :
  @advance_epochs ex_sha ex_xof 1 mainnet ex_rules ex_build None (Z.to_nat MAX_EPOCH_ADVANCE) ex_start 2 ≠ Rej tt.
Proof.
  destruct (@epoch_loop_terminates ex_sha ex_xof 1 mainnet ex_rules ex_build None ex_start 2) as [H _]; [|exact H].
  vm_compute. discriminate.
Defined.

Lemma supply_guards_never_fire_witness : ex_result ≠ Rej SupplyNotConserved ∧ ex_result ≠ Rej SupplyCapExceeded.
Proof.
  apply (@supply_guards_never_fire ex_sha ex_keccak ex_xof ex_shake 1 mainnet ex_rules ex_build None ex_start ex_envelope
    ex_verifier [ex_vote 1; ex_vote 2] []).
  - apply ex_gates.
  - apply ex_start_wf.
  - vm_compute. discriminate.
  - constructor.
  - vm_compute. discriminate.
Defined.

Lemma accepted_block_witness : @extends_by ex_sha ex_start ex_envelope [] ex_end.
Proof.
  apply (@accepted_block ex_sha ex_keccak ex_xof ex_shake 1 mainnet ex_rules ex_build None ex_start ex_envelope
    ex_verifier [ex_vote 1; ex_vote 2] [] ex_end).
  - exact ex_result_Ret.
  - apply ex_gates.
  - apply ex_start_wf.
  - vm_compute. discriminate.
  - constructor.
Defined.

Lemma equivocation_detected_witness : 0 ∈ fc_equivocators ex_end ∧ latest_messages ex_end !! 0 = None.
Proof.
  apply (@equivocation_detected ex_sha ex_keccak ex_xof ex_shake 1 mainnet ex_rules ex_build None ex_start ex_envelope
    ex_verifier [ex_vote 1; ex_vote 2] [] ex_end (ex_vote 1) (ex_vote 2)).
  - exact ex_result_Ret.
  - apply ex_gates.
  - apply ex_start_wf.
  - vm_compute. discriminate.
  - constructor.
  - apply ex_start_wf.
  - vm_compute. reflexivity.
  - by left.
  - by right; left.
  - reflexivity.
  - reflexivity.
  - discriminate.
Defined.

Lemma chain_well_formed_witness :
  state_wf ex_end ∧ net ex_end ≤ Tokenomics.TOTAL_SUPPLY_SAT + GENESIS_UNFUNDED_BONDED_CEILING_SAT.
Proof.
  destruct (@chain_well_formed ex_sha ex_keccak ex_xof ex_shake 1 mainnet ex_rules ex_build None
    9 9 ex_validators [] 0 0 0 (mkEvm 0 0 0 0) [] ex_start 0 ex_end) as [Hw Hn].
  - apply ex_start_genesis.
  - apply ex_validators_wf.
  - apply ex_gates.
  - apply (chain_block _ _ _ 0 ex_start ex_envelope ex_verifier [ex_vote 1; ex_vote 2] []);
      [apply chain_genesis|constructor|exact ex_result_Ret].
  - split; [exact Hw|]. by rewrite Z.add_0_r in Hn.
Defined.
End Block.
