(* ===== verification/Admission.v ===== *)
(** * Admitting evidence before it is applied

    Models [crates/bloch-pos-committee/src/transition/evidence_admission.rs]: the checks a
    node makes on slashing evidence it is handed, without a copy of the state and without a
    signature, and the verification of the two signatures that follows.

    The theorem compares the two steps with the block's own verdict ([apply_one], which
    calls [apply_slashing_evidence] behind two epoch gates): short of a panic and with the
    gates open, evidence passes both exactly when the block accepts it, a refusal for the
    bytes alone is the same on every state, and evidence that was applied is refused from
    then on, in either order of its messages. *)

From S2P Require Import Prelude Bytes Params Types Signatures Kes Header Attestation Delegation Slashing Staking Tx State.
From S2P Require Import Transfer Lifecycle Apply Epoch Block.
Local Open Scope Z_scope.

Module Admission.
Import Bytes Params Signatures State Lifecycle.
Implicit Types s : CommittedState.

Inductive EvidencePrecheckError :=
| ContextFree (e : Slashing.EvidenceError)
| Context (e : Slashing.EvidenceError).

(** Message epoch, signing root, signature. *)
Definition SignedMessage : Type := Z * hash * list Z.

Record EvidencePrecheck := mkPrecheck {
  pre_offender : Z;
  pre_id : hash;
  pre_signed : list SignedMessage;
  key_binding_final : bool;
}.

Section admission.
Context `{Sha3} {G : Gates} {R : Rules}.

Definition evidence_structure (evidence : Slashing.AnyEvidence)
    : result Slashing.EvidenceError (Z * hash * list SignedMessage) :=
  match evidence with
  | Slashing.AttestationOffence first second =>
      let pair := Slashing.mkEvidence first second in
      match Slashing.offense pair with
      | Err e => Err e
      | Ok _ => Ok (Types.att_validator first, Slashing.evidence_id pair,
                    [Slashing.attestation_message first; Slashing.attestation_message second])
      end
  | Slashing.ProposerEquivocationEvidence first second =>
      let a := Slashing.env_header first in
      let b := Slashing.env_header second in
      if negb (Header.proposer_index a =? Header.proposer_index b) then Err Slashing.DifferentValidators
      else if negb (Header.slot a =? Header.slot b) || (Header.block_id a =? Header.block_id b) then
        Err Slashing.NotConflicting
      else
        let validator := Header.proposer_index a in
        Ok (validator, Slashing.proposer_evidence_id validator a b,
            [Slashing.proposal_message first; Slashing.proposal_message second])
  end.

Definition precheck_slashing_evidence s (evidence : Slashing.AnyEvidence) : result EvidencePrecheckError EvidencePrecheck :=
  match evidence_structure evidence with
  | Err e => Err (ContextFree e)
  | Ok (offender, id, signed) =>
      match validators s !! offender with
      | None => Err (Context Slashing.EvidenceUnknownValidator)
      | Some rec =>
          if Slashing.is_applied (slashing s) id then Err (Context Slashing.AlreadyApplied)
          else if slashed rec || Slashing.is_ejected (slashing s) offender then Err (Context Slashing.AlreadySlashed)
          else if is_write_off_indeterminate s offender then Err (Context Slashing.AlreadySlashed)
          else Ok (mkPrecheck offender id signed
                     ((activation_epoch rec =? 0) && bool_decide (kes s !! offender = None)))
      end
  end.

(** The loop over the messages; [None]: no key. *)
Fixpoint verify_signed s (verifier : SignatureVerifier) (offender : Z) (messages : list SignedMessage) : option bool :=
  match messages with
  | [] => Some true
  | (epoch, root, sg) :: messages =>
      ok ← Slashing.verify_offender_signature (key_lookup s) verifier offender epoch root sg;
      if (ok : bool) then verify_signed s verifier offender messages else Some false
  end.

Definition verify_precheck_signatures s (pre : EvidencePrecheck) (verifier : SignatureVerifier) : option bool :=
  verify_signed s verifier (pre_offender pre) (pre_signed pre).

(** ** The transition's verdict through the same steps *)

Definition swapped (ev : Slashing.AnyEvidence) : Slashing.AnyEvidence :=
  match ev with
  | Slashing.AttestationOffence a b => Slashing.AttestationOffence b a
  | Slashing.ProposerEquivocationEvidence a b => Slashing.ProposerEquivocationEvidence b a
  end.

Lemma verify_signed_true s v o ms :
  verify_signed s v o ms = Some true ↔ Slashing.check_signatures (key_lookup s) v o ms = Ok tt.
Proof.
  induction ms as [|[[e r] sg] ms IH]; [done|]. cbn. by destruct (Slashing.verify_offender_signature _ _ _ _ _ _) as [[]|].
Qed.

Lemma structure_offender ev o id ms : evidence_structure ev = Ok (o, id, ms) → o = offender_of ev.
Proof. destruct ev; cbn; repeat case_goal; congruence. Qed.

(** [process_evidence] is the structure, the two sets and the signatures, then the penalty. *)
Lemma process_evidence_steps s ev bond exposure total eff p v :
  process_evidence s ev bond exposure total eff p v =
  match evidence_structure ev with
  | Err e => Some (Err e)
  | Ok (o, id, ms) =>
      if Slashing.is_applied (slashing s) id then Some (Err Slashing.AlreadyApplied)
      else if Slashing.is_ejected (slashing s) o then Some (Err Slashing.AlreadySlashed)
      else match Slashing.check_signatures (key_lookup s) v o ms with
           | Err e => Some (Err e)
           | Ok _ => match ev with
                     | Slashing.AttestationOffence a b =>
                         match Slashing.offense (Slashing.mkEvidence a b) with
                         | Ok off => out ← Slashing.commit_offense (slashing s) id o off (epoch s) bond exposure total eff p;
                                     Some (Ok out)
                         | Err e => Some (Err e)
                         end
                     | _ => out ← Slashing.commit_offense (slashing s) id o Slashing.ProposerEquivocation (epoch s) bond
                                    exposure total eff p;
                            Some (Ok out)
                     end
           end
  end.
Proof.
  destruct ev as [a b|a b]; unfold process_evidence, evidence_structure.
  - unfold Slashing.process_proposer_with_effective_exposure. do 2 (case_goal; [done|]). done.
  - unfold Slashing.process_with_effective_exposure. by destruct (Slashing.offense _).
Qed.

(** What evidence has passed when it is processed, and the two sets after it. *)
Lemma process_evidence_Ok s ev bond exposure total eff p v st out :
  process_evidence s ev bond exposure total eff p v = Some (Ok (st, out)) →
  ∃ id ms, evidence_structure ev = Ok (offender_of ev, id, ms) ∧
    Slashing.is_applied (slashing s) id = false ∧ Slashing.is_ejected (slashing s) (offender_of ev) = false ∧
    Slashing.check_signatures (key_lookup s) v (offender_of ev) ms = Ok tt ∧
    Slashing.applied st = {[id]} ∪ Slashing.applied (slashing s) ∧
    Slashing.ejected st = {[offender_of ev]} ∪ Slashing.ejected (slashing s).
Proof.
  rewrite process_evidence_steps. destruct (evidence_structure ev) as [[[o id] ms]|] eqn:Es; [|done].
  rewrite (structure_offender _ _ _ _ Es). intros Hp.
  destruct (Slashing.is_applied _ _) eqn:Ea; [done|]. destruct (Slashing.is_ejected _ _) eqn:Ej; [done|].
  destruct (Slashing.check_signatures _ _ _ _) as [[]|] eqn:Ec; [|done]. exists id, ms. split_and!; try done.
  all: destruct ev; [|destruct (Slashing.offense _); [|done]]; apply bind_Some in Hp as ([] & Hc & [= <- <-]);
    by apply Slashing.commit_offense_sets in Hc as [? ?].
Qed.

(** Evidence that passes every check is processed, or the penalty overflows. *)
Lemma process_evidence_passes s ev bond exposure total eff p v id ms :
  evidence_structure ev = Ok (offender_of ev, id, ms) →
  Slashing.is_applied (slashing s) id = false → Slashing.is_ejected (slashing s) (offender_of ev) = false →
  Slashing.check_signatures (key_lookup s) v (offender_of ev) ms = Ok tt →
  process_evidence s ev bond exposure total eff p v = None ∨
  ∃ out, process_evidence s ev bond exposure total eff p v = Some (Ok out).
Proof.
  intros Es Ea Ej Ec. rewrite process_evidence_steps, Es, Ea, Ej, Ec. destruct ev as [a b|a b].
  - destruct (Slashing.commit_offense _ _ _ _ _ _ _ _ _ _); [right|left]; cbn; eauto.
  - cbn in Es. destruct (Slashing.offense _) as [off|]; [|done].
    destruct (Slashing.commit_offense _ _ _ _ _ _ _ _ _ _); [right|left]; cbn; eauto.
Qed.

(** What an accepted transaction has passed, and what it changes. *)
Lemma evidence_accepted s ev p roster v s' :
  apply_slashing_evidence s ev p roster v = Ret s' →
  ∃ id ms rec loss, evidence_structure ev = Ok (offender_of ev, id, ms) ∧ validators s !! offender_of ev = Some rec ∧
    is_write_off_indeterminate s (offender_of ev) = false ∧ Slashing.is_applied (slashing s) id = false ∧
    Slashing.is_ejected (slashing s) (offender_of ev) = false ∧
    Slashing.check_signatures (key_lookup s) v (offender_of ev) ms = Ok tt ∧
    validators s' = <[offender_of ev := slashed_record (epoch s) loss rec]> (validators s) ∧
    Slashing.applied (slashing s') = {[id]} ∪ Slashing.applied (slashing s) ∧
    Slashing.ejected (slashing s') = {[offender_of ev]} ∪ Slashing.ejected (slashing s).
Proof.
  unfold apply_slashing_evidence. intros E. outcome_inv E. injection E as <-. boolp.
  rename select (process_evidence _ _ _ _ _ _ _ _ = _) into Hp. rename select (_ = Ok _) into Ho. subst.
  apply process_evidence_Ok in Hp as (id & ms & ? & ? & ? & ? & ? & ?). eexists id, ms, _, _. by split_and!.
Qed.

(** Evidence that passes every check is accepted, or an amount overflows. *)
Lemma evidence_passes s ev p roster v id ms rec :
  evidence_structure ev = Ok (offender_of ev, id, ms) → validators s !! offender_of ev = Some rec →
  is_write_off_indeterminate s (offender_of ev) = false → Slashing.is_applied (slashing s) id = false →
  Slashing.is_ejected (slashing s) (offender_of ev) = false →
  Slashing.check_signatures (key_lookup s) v (offender_of ev) ms = Ok tt →
  apply_slashing_evidence s ev p roster v = Panic ∨ ∃ s', apply_slashing_evidence s ev p roster v = Ret s'.
Proof.
  intros Es Er Ei Ea Ej Ec. unfold apply_slashing_evidence. rewrite Er, Ei. cbn [or_rej negb mbind outcome_bind].
  destruct (Delegation.resolve _ _) as [registry|]; [|by left]. cbn [must mbind outcome_bind].
  destruct (mapM _ _) as [exposure|]; [|by left]. cbn [must mbind outcome_bind].
  match goal with |- context [process_evidence s ev ?b ?e ?t ?f p v] =>
    destruct (process_evidence_passes s ev b e t f p v id ms Es Ea Ej Ec) as [->|[[st out] ->]] end; [by left|].
  cbn [must mbind outcome_bind rej_as of_result].
  destruct (charge_losses _ _) as [losses|]; [|by left]. cbn [must mbind outcome_bind].
  match goal with |- context [if 0 <? ?r then credit ?a ?b ?c else Some ?d] =>
    destruct (if 0 <? r then credit a b c else Some d) end; [|by left]. right. eexists. reflexivity.
Qed.

Lemma swapped_structure ev o id ms :
  evidence_structure ev = Ok (o, id, ms) → ∃ ms', evidence_structure (swapped ev) = Ok (o, id, ms').
Proof.
  destruct ev as [a b|a b]; cbn [swapped evidence_structure].
  - rewrite (Z.eqb_sym (Header.proposer_index (Slashing.env_header b))), (Z.eqb_sym (Header.slot (Slashing.env_header b))),
      (Z.eqb_sym (Header.block_id (Slashing.env_header b))). destruct (Header.proposer_index _ =? _) eqn:Ep; [|done].
    change (negb true) with false. destruct (negb _ || _); [done|]. intros [= <- <- _]. boolp. rewrite <- Ep. eexists.
    unfold Slashing.proposer_evidence_id. by rewrite Slashing.pair_id_comm.
  - pose proof (Slashing.offense_swap (Slashing.mkEvidence a b)) as Es.
    pose proof (Slashing.evidence_id_swap (Slashing.mkEvidence a b)) as Ei. cbn [Slashing.swap_pair Slashing.ev_first Slashing.ev_second] in *.
    unfold Slashing.swap_pair in Es, Ei. cbn [Slashing.ev_first Slashing.ev_second] in *. rewrite Es.
    destruct (Slashing.offense (Slashing.mkEvidence a b)) as [off|] eqn:Eo; [|discriminate]. intros [= <- <- _].
    rewrite (Ei eq_refl). eexists.
    assert (Types.att_validator b = Types.att_validator a) as ->; [|done].
    unfold Slashing.offense in Eo. cbn [Slashing.ev_first Slashing.ev_second] in Eo.
    destruct (Types.att_validator a =? Types.att_validator b) eqn:E; [|done]. boolp. congruence.
Qed.

Lemma precheck_applied s ev o id ms rec :
  evidence_structure ev = Ok (o, id, ms) → validators s !! o = Some rec → id ∈ Slashing.applied (slashing s) →
  precheck_slashing_evidence s ev = Err (Context Slashing.AlreadyApplied).
Proof.
  intros Es Er Hid. unfold precheck_slashing_evidence, Slashing.is_applied. by rewrite Es, Er, bool_decide_true.
Qed.

(** What passes admission, in terms of [apply_slashing_evidence]. *)
Lemma admitted_iff_accepted s ev p roster v :
  slashed_ejected s → apply_slashing_evidence s ev p roster v ≠ Panic →
  (∃ s', apply_slashing_evidence s ev p roster v = Ret s') ↔
  ∃ pre, precheck_slashing_evidence s ev = Ok pre ∧ verify_precheck_signatures s pre v = Some true.
Proof.
  intros Hse Hp. split.
  - intros [s' (id & ms & rec & loss & Es & Er & Ei & Ea & Ej & Ec & _)%evidence_accepted].
    unfold precheck_slashing_evidence. rewrite Es, Er, Ea, Ej, Ei.
    assert (slashed rec = false) as ->.
    { destruct (slashed rec) eqn:Esl; [|done]. apply (Hse _ _ Er) in Esl. unfold Slashing.is_ejected in Ej. by boolp. }
    eexists. split; [done|]. by apply verify_signed_true.
  - unfold precheck_slashing_evidence, verify_precheck_signatures. intros (pre & Hpre & Hv).
    destruct (evidence_structure ev) as [[[o id] ms]|] eqn:Es; [|done]. pose proof (structure_offender _ _ _ _ Es) as ->.
    destruct (validators s !! _) as [rec|] eqn:Er; [|done]. destruct (Slashing.is_applied _ _) eqn:Ea; [done|].
    destruct (slashed rec); [done|]. destruct (Slashing.is_ejected _ _) eqn:Ej; [done|].
    destruct (is_write_off_indeterminate _ _) eqn:Ei; [done|]. injection Hpre as <-. apply verify_signed_true in Hv.
    by destruct (evidence_passes s ev p roster v id ms rec).
Qed.

Lemma accepted_refused s ev p roster v s' :
  apply_slashing_evidence s ev p roster v = Ret s' →
  precheck_slashing_evidence s' ev = Err (Context Slashing.AlreadyApplied) ∧
  precheck_slashing_evidence s' (swapped ev) = Err (Context Slashing.AlreadyApplied).
Proof.
  intros (id & ms & rec & loss & Es & Er & _ & _ & _ & _ & Ev & Eap & _)%evidence_accepted. split.
  - eapply precheck_applied; [done|rewrite Ev; apply lookup_insert_eq|rewrite Eap; set_solver].
  - destruct (swapped_structure _ _ _ _ Es) as [ms' Es'].
    eapply precheck_applied; [done|rewrite Ev; apply lookup_insert_eq|rewrite Eap; set_solver].
Qed.
End admission.

Section block.
Context `{Sha3} `{Keccak} {G : Gates} {R : Rules}.

(** C40: admission agrees with the block path.  In a state whose slashed validators are all
    ejected (every state of the chain, by [Block.state_wf]), and unless an amount overflows,
    a block's transaction with this evidence is accepted if and only if evidence is active
    at the block's epoch, the refusal of offences before the activation does not apply, and
    the evidence passes the precheck with two good signatures.  So admission drops nothing a
    block may carry; the two epoch gates are the only checks of [apply_one] that it leaves
    out.  Once applied, the evidence is refused as applied, in either order of its messages;
    and what is refused for its bytes alone is refused so by every state. *)
Theorem admission_matches_transition s ev block_epoch p roster total base v :
  let verdict := Block.apply_one s (Tx.TxSlashingEvidence ev) block_epoch p roster total base v in
  slashed_ejected s → verdict ≠ Panic →
  ((∃ s' c, verdict = Ret (s', c)) ↔
   slashing_evidence_active block_epoch = true ∧
   Apply.pre_activation_offence_refusal_active block_epoch && Slashing.offence_predates_activation ev = false ∧
   ∃ pre, precheck_slashing_evidence s ev = Ok pre ∧ verify_precheck_signatures s pre v = Some true) ∧
  (∀ s' c, verdict = Ret (s', c) →
     precheck_slashing_evidence s' ev = Err (Context Slashing.AlreadyApplied) ∧
     precheck_slashing_evidence s' (swapped ev) = Err (Context Slashing.AlreadyApplied)) ∧
  (∀ e s', precheck_slashing_evidence s ev = Err (ContextFree e) → precheck_slashing_evidence s' ev = Err (ContextFree e)).
Proof.
  intros verdict Hse Hp. subst verdict. cbn [Block.apply_one] in *. split_and!.
  - destruct (slashing_evidence_active _); [|naive_solver]. destruct (_ && _); [naive_solver|].
    cbn [require negb mbind outcome_bind] in *. rewrite <- (admitted_iff_accepted s ev p roster v Hse).
    2: { intros E. by rewrite E in Hp. }
    destruct (apply_slashing_evidence _ _ _ _ _); cbn; naive_solver.
  - intros s' c E. outcome_inv E. injection E as <- _. by eapply accepted_refused.
  - intros e s'. unfold precheck_slashing_evidence. destruct (evidence_structure ev) as [[[o id] ms]|]; [|congruence].
    repeat case_match; congruence.
Qed.
End block.

(** ** A double vote on the sample chain *)

Definition ex_late_vote (head : hash) : Types.Attestation :=
  Types.mkAttestation (Types.mkAttData 96000 head 0 9 3000 9) 0 [head].
Definition ex_offence : Slashing.AnyEvidence := Slashing.AttestationOffence (ex_late_vote 1) (ex_late_vote 2).
Definition ex_roster : list Types.Validator := [Types.mkValidator 0 25000].
Definition ex_slashed : CommittedState := Eval vm_compute in
  match @apply_slashing_evidence Epoch.ex_sha mainnet Block.ex_rules Block.ex_start ex_offence 0 ex_roster Transfer.ex_verifier with
  | Ret s => s | _ => Block.ex_start end.

Lemma ex_slashed_Ret :
  @apply_slashing_evidence Epoch.ex_sha mainnet Block.ex_rules Block.ex_start ex_offence 0 ex_roster Transfer.ex_verifier
  = Ret ex_slashed.
Proof. vm_compute. reflexivity. Qed.

Lemma ex_block_Ret :
  @Block.apply_one Epoch.ex_sha Block.ex_keccak mainnet Block.ex_rules Block.ex_start (Tx.TxSlashingEvidence ex_offence) 3000 0
    ex_roster 25000 10 Transfer.ex_verifier
  = Ret (ex_slashed, @Transfer.staking_tx_charge Block.ex_rules (epoch ex_slashed) 2 (length (Tx.canonical_bytes (Tx.TxSlashingEvidence ex_offence)))).
Proof. unfold Block.apply_one. rewrite ex_slashed_Ret. reflexivity. Qed.

Lemma admission_matches_transition_witness :
  (∃ pre, @precheck_slashing_evidence Epoch.ex_sha Block.ex_start ex_offence = Ok pre ∧
     @verify_precheck_signatures Epoch.ex_sha mainnet Block.ex_start pre Transfer.ex_verifier = Some true) ∧
  @precheck_slashing_evidence Epoch.ex_sha ex_slashed ex_offence = Err (Context Slashing.AlreadyApplied).
Proof.
  destruct (@admission_matches_transition Epoch.ex_sha Block.ex_keccak mainnet Block.ex_rules Block.ex_start ex_offence 3000 0
    ex_roster 25000 10 Transfer.ex_verifier) as (H1 & H2 & _).
  - apply (Block.sw_ejected _ Block.ex_start_wf).
  - rewrite ex_block_Ret. discriminate.
  - split; [apply H1; eexists _, _; exact ex_block_Ret|]. apply (H2 _ _ ex_block_Ret).
Defined.
End Admission.
