(* ===== verification/StateRoot.v ===== *)
(** * The state root

    Models the commitment to the state: the leaf records and [build_state_tree_inner] of
    [crates/bloch-pos-committee/src/state_root.rs], [compute_tree] of [transition.rs], the
    committed bytes of [kes.rs] and [l2_settlement.rs], and [apply_block], which compares the
    root of the new state with the header's.

    A component of the state is a tag and its leaves; a leaf is an entry key and the
    serialized value.  The tree holds, under the hash of tag and key, the hash of the value,
    on top of the tree the set of outputs keeps.  Lists that the code sorts before it
    serializes them come from ordered maps and are in order already.

    The theorems: every leaf of the state a block leads to has an inclusion proof against the
    root in its header, and every other key an absence proof; the tree determines the
    committed fields, so that no two states (of values within their widths) that differ in
    one share it; the record of a validator is read back from its canonical bytes. *)

From Stdlib Require Import String.
From S2P Require Import Prelude Bytes Params Types Finality Signatures Kes Header Attestation Delegation Slashing.
From S2P Require Import Staking Codec Tx Smt Utxo Withdrawal Settlement State Transfer Beacon Epoch Body Block.
Local Open Scope Z_scope.

Module StateRoot.
Import Bytes Params Signatures Codec State.

(** An entry key and the serialized value. *)
Definition leaf : Type := list Z * list Z.

Definition TAG_VALIDATOR : Z := 0x02.
Definition TAG_PARTICIPATION_CURRENT : Z := 0x03.
Definition TAG_PARTICIPATION_PREVIOUS : Z := 0x04.
Definition TAG_RANDAO : Z := 0x05.
Definition TAG_TAINT_ROOT : Z := 0x06.
Definition TAG_COHERENCE_ACCUMULATOR : Z := 0x07.
Definition TAG_COHERENCE_NULLIFIERS : Z := 0x08.
Definition TAG_FINALITY : Z := 0x09.
Definition TAG_PENDING_VOTE : Z := 0x0A.
Definition TAG_FC_MESSAGE : Z := 0x0B.
Definition TAG_FC_EQUIVOCATOR : Z := 0x0C.
Definition TAG_DEPOSIT_QUEUE : Z := 0x0D.
Definition TAG_DELEGATION : Z := 0x0E.
Definition TAG_PENDING_FEE : Z := 0x0F.
Definition TAG_EVM_COMMITMENT : Z := 0x10.
Definition TAG_SLASH_APPLIED : Z := 0x11.
Definition TAG_SLASH_WINDOW : Z := 0x12.
Definition TAG_DELEGATOR_SLASH_LOSS : Z := 0x13.
Definition TAG_ISSUED_SUPPLY : Z := 0x14.
Definition TAG_BASE_FEE : Z := 0x15.
Definition TAG_DELEGATOR_FEE_REWARD : Z := 0x16.
Definition TAG_VALIDATOR_FEE_REWARD : Z := 0x17.
Definition TAG_DELEGATOR_ISSUANCE_REWARD : Z := 0x18.
Definition TAG_PROPOSED_CURRENT : Z := 0x19.
Definition TAG_FC_RECENT_VOTE : Z := 0x1A.
Definition TAG_WRITTEN_OFF : Z := 0x1B.
Definition TAG_STAKE_LOW_WATER : Z := 0x1C.
Definition TAG_RANDAO_GENERATION : Z := 0x1D.
Definition TAG_FUNDED_VALIDATOR : Z := 0x1E.
Definition TAG_FUNDED_DELEGATION_OWNER : Z := 0x1F.
Definition TAG_FUNDED_DELEGATION_LIFECYCLE : Z := 0x20.
Definition TAG_L2_SETTLEMENT : Z := 0x21.
Definition TAG_KES_ROOT : Z := 0x22.
Definition TAG_PQ_RESCUE_COMMIT : Z := 0x24.

Definition bool_byte (b : bool) : list Z := [Z.b2z b].

(** ** Validators *)

(** [state_root::ValidatorRecord]. *)
Record CommittedValidatorRecord := mkCommitted {
  cv_index : Z; cv_pubkey : list Z; cv_stake : Z; cv_activation_epoch : Z; cv_exit_epoch : Z; cv_slashed : bool;
  cv_randao_commitment : hash; cv_reveals_used : Z; cv_withdrawable_epoch : Z; cv_withdrawal_credentials : list Z;
  cv_commission_bps : Z }.

Definition validator_serialize (r : CommittedValidatorRecord) : list Z :=
  le_bytes 4 (cv_index r) ++ put (cv_pubkey r) ++ le_bytes 8 (cv_stake r) ++ le_bytes 8 (cv_activation_epoch r)
    ++ le_bytes 8 (cv_exit_epoch r) ++ bool_byte (cv_slashed r) ++ hash_bytes (cv_randao_commitment r)
    ++ le_bytes 4 (cv_reveals_used r) ++ le_bytes 8 (cv_withdrawable_epoch r) ++ put (cv_withdrawal_credentials r)
    ++ le_bytes 16 (cv_commission_bps r).

Definition validator_field : Reader (list Z) := r_bytes_if (λ n, n <=? 65536) Truncated.
Definition validator_bool : Reader bool :=
  b ← r_u8; if b =? 0 then mret false else if b =? 1 then mret true else fail (NotCanonical b).
Definition read_validator : Reader CommittedValidatorRecord :=
  index ← r_u32;
  pubkey ← validator_field;
  stake ← r_u64;
  activation_epoch ← r_u64;
  exit_epoch ← r_u64;
  slashed ← validator_bool;
  randao_commitment ← r_h32;
  reveals_used ← r_u32;
  withdrawable_epoch ← r_u64;
  withdrawal_credentials ← validator_field;
  commission_bps ← r_u128;
  mret (mkCommitted index pubkey stake activation_epoch exit_epoch slashed randao_commitment reveals_used
          withdrawable_epoch withdrawal_credentials commission_bps).

(** [from_canonical_bytes]; every failure is [None], so the reader's error is dropped. *)
Definition from_canonical_bytes (b : list Z) : option CommittedValidatorRecord :=
  match read_validator b with Ok (r, []) => Some r | _ => None end.

Definition committed_validator (s : CommittedState) (r : ValidatorRecord) : CommittedValidatorRecord := {|
  cv_index := vr_index r; cv_pubkey := vr_pubkey r; cv_stake := sat_u64 (staked_sat r);
  cv_activation_epoch := activation_epoch r; cv_exit_epoch := exit_epoch r; cv_slashed := slashed r;
  cv_randao_commitment := vr_randao_commitment r; cv_reveals_used := get0 (reveals_used s) (vr_index r);
  cv_withdrawable_epoch := withdrawable_epoch r; cv_withdrawal_credentials := withdrawal_credentials r;
  cv_commission_bps := commission_bps r |}.
Definition committed_validators (s : CommittedState) : list CommittedValidatorRecord :=
  committed_validator s <$> (items (validators s)).*2.
Definition validator_leaf (r : CommittedValidatorRecord) : leaf := (le_bytes 4 (cv_index r), validator_serialize r).

(** ** Records keyed by a number *)

(** The key repeated in front of the value. *)
Definition keyed_leaf {X} (n : nat) (enc : X → list Z) (e : Z * X) : leaf :=
  (le_bytes n e.1, le_bytes n e.1 ++ enc e.2).
(** The value alone. *)
Definition plain_leaf {X} (n : nat) (enc : X → list Z) (e : Z * X) : leaf := (le_bytes n e.1, enc e.2).

Definition participation_leaf : Z * bool → leaf := keyed_leaf 4 bool_byte.
Definition proposed_leaf : Z * bool → leaf := keyed_leaf 4 bool_byte.
Definition randao_leaf : Z * hash → leaf := keyed_leaf 8 hash_bytes.
Definition fc_message_leaf : Z * (Z * hash) → leaf := keyed_leaf 4 (λ m, le_bytes 8 m.1 ++ hash_bytes m.2).
Definition fc_equivocator_leaf (v : Z) : leaf := (le_bytes 4 v, le_bytes 4 v).
Definition owner_leaf : Z * hash → leaf := keyed_leaf 4 hash_bytes.
Definition lifecycle_leaf : Z * (Z * bool) → leaf := keyed_leaf 4 (λ x, le_bytes 8 x.1 ++ bool_byte x.2).
(** Pending fees, slashing losses, fee rewards and issuance rewards. *)
Definition amount_leaf : Z * Z → leaf := keyed_leaf 4 (le_bytes 16).
Definition slash_window_leaf : Z * Z → leaf := keyed_leaf 8 (le_bytes 16).
Definition applied_evidence_leaf (id : hash) : leaf := (hash_bytes id, hash_bytes id).

Definition recent_vote_leaf (e : Z * Z * hash) : leaf :=
  let '(v, sl, root) := e in
  (le_bytes 4 v ++ le_bytes 8 sl, le_bytes 4 v ++ le_bytes 8 sl ++ hash_bytes root).
Definition recent_votes (s : CommittedState) : list (Z * Z * hash) :=
  items (fc_recent_votes s) ≫= λ vm, (λ sr, (vm.1, sr.1, sr.2)) <$> items vm.2.

Definition vote_data_bytes (d : Types.AttestationData) : list Z :=
  le_bytes 8 (Types.slot d) ++ hash_bytes (Types.head d) ++ le_bytes 8 (Types.source_epoch d)
    ++ hash_bytes (Types.source_root d) ++ le_bytes 8 (Types.target_epoch d) ++ hash_bytes (Types.target_root d).
Definition pending_vote_leaf (e : Z * hash * Types.AttestationData) : leaf :=
  let '(v, root, d) := e in
  (le_bytes 4 v ++ hash_bytes root, le_bytes 4 v ++ hash_bytes root ++ vote_data_bytes d).

Definition deposit_leaf (d : Staking.QueuedDeposit) : leaf :=
  (hash_bytes (Staking.pubkey_hash d),
   hash_bytes (Staking.pubkey_hash d) ++ le_bytes 8 (Staking.deposit_epoch d) ++ le_bytes 16 (Staking.q_amount_sat d)).

Definition opt_epoch_bytes (o : option Z) : list Z := match o with None => [0] | Some e => 1 :: le_bytes 8 e end.
Definition delegation_bytes (d : Delegation.Delegation) : list Z :=
  le_bytes 4 (Delegation.delegator d) ++ le_bytes 4 (Delegation.validator d) ++ le_bytes 16 (Delegation.amount_sat d)
    ++ le_bytes 8 (Delegation.requested_epoch d) ++ opt_epoch_bytes (Delegation.deactivate_epoch d)
    ++ bool_byte (Delegation.eligible d).
Definition delegation_leaves (ds : list Delegation.Delegation) : list leaf :=
  imap (λ position d, keyed_leaf 8 delegation_bytes (Z.of_nat position, d)) ds.

(** ** Records of their own *)

Definition evm_serialize (e : EvmCommitment) : list Z :=
  hash_bytes (account_root e) ++ hash_bytes (receipts_root e) ++ le_bytes 8 (evm_gas_used e) ++ le_bytes 8 (base_fee_per_gas e).
Definition base_fee_serialize (s : CommittedState) : list Z :=
  le_bytes 16 (base_fee_millisat_per_gas s) ++ le_bytes 8 (block_gas_used s) ++ le_bytes 8 (block_tx_bytes s).

(** A [u64] count, then the elements. *)
Definition counted {A} (enc : A → list Z) (l : list A) : list Z := le_bytes 8 (Z.of_nat (length l)) ++ (l ≫= enc).

Definition checkpoint_bytes (c : Types.Checkpoint) : list Z := le_bytes 8 (Types.epoch c) ++ hash_bytes (Types.root c).
Definition checkpoint_pair (c : Z * hash) : list Z := le_bytes 8 c.1 ++ hash_bytes c.2.
(** A leak, a member with its stake, or a validator with the epoch it was last seen. *)
Definition pair_bytes (l : Z * Z) : list Z := le_bytes 4 l.1 ++ le_bytes 8 l.2.

Definition FINALITY_SET_EXTENSION_TAG : list Z := string_bytes "BLOCH-FFG-FSETv1".
Definition OWN_CHECKPOINTS_TAG : list Z := string_bytes "BLOCH:FINALITY:OWN-CHECKPOINTS:1".

Definition write_pairs (m : gmap Z Z) : list Z := counted pair_bytes (items m).
Definition finality_set_bytes (fs : Finality.FinalitySetState) : list Z :=
  FINALITY_SET_EXTENSION_TAG ++ le_bytes 8 (Finality.fs_epoch (Finality.current fs))
    ++ write_pairs (Finality.members (Finality.current fs))
    ++ match Finality.pending fs with
       | None => [0]
       | Some p => 1 :: le_bytes 8 (Finality.fs_epoch p) ++ write_pairs (Finality.members p)
       end
    ++ write_pairs (Finality.last_seen fs).
Definition own_checkpoints_bytes (m : gmap Z hash) : list Z :=
  if bool_decide (items m = []) then [] else OWN_CHECKPOINTS_TAG ++ counted checkpoint_pair (items m).
Definition finality_serialize (f : Finality.FinalityState) (previous : Types.Checkpoint) : list Z :=
  counted checkpoint_pair (items (Finality.justified f)) ++ checkpoint_bytes (Finality.current_justified f)
    ++ checkpoint_bytes previous ++ checkpoint_bytes (Finality.finalized f)
    ++ write_pairs (Finality.leaked f) ++ le_bytes 8 (Finality.next_epoch f)
    ++ match Finality.finality_set f with Some fs => finality_set_bytes fs | None => [] end
    ++ own_checkpoints_bytes (Finality.own_checkpoints f).

(** The running mix and the boundaries still needed. *)
Definition randao_window (history : gmap Z hash) (epoch : Z) (running : hash) : gmap Z hash :=
  let keep_from := saturating_sub epoch Epoch.RANDAO_BOUNDARIES_RETAINED in
  <[epoch := running]> (filter (λ em, keep_from ≤ em.1 < epoch) history).

(** ** Forward-secure keys *)

Definition ENFORCED_KEY : list Z := string_bytes "enforced".
Definition kes_leaves (s : CommittedState) : list leaf :=
  (plain_leaf 4 Kes.entry_bytes <$> items (kes s))
    ++ match kes_enforced_from s with Some e => [(ENFORCED_KEY, le_bytes 8 e)] | None => [] end.

(** ** The second layer *)

Definition limits_bytes (l : Withdrawal.Limits) : list Z :=
  [Withdrawal.delay_blocks l; Withdrawal.large_claim_sat l; Withdrawal.large_delay_blocks l;
   Withdrawal.retention_blocks l; Withdrawal.release_window_blocks l; Withdrawal.release_window_bps l;
   Withdrawal.release_floor_sat l] ≫= le_bytes 8.
Definition profile_bytes (p : Settlement.Profile) : list Z :=
  if Settlement.is_activated p then
    string_bytes "BLOCH:NATIVE:L2:ACTIVATED-PROFILE:1"
      ++ [Z.lor (Z.b2z (Settlement.deposits p)) (Z.shiftl (Z.b2z (Settlement.user_transactions p)) 1)]
      ++ le_bytes 8 (Settlement.finalized_claims_from_height p) ++ limits_bytes (Settlement.limits p)
  else [].
Definition policy_bytes (p : Settlement.Policy) : list Z :=
  (Settlement.identities p ≫= hash_bytes) ++ hash_bytes (Settlement.policy_proof p)
    ++ le_bytes 8 (Settlement.chain_id p) ++ hash_bytes (Settlement.initial_l2_parent p)
    ++ hash_bytes (Settlement.initial_l2_state p)
    ++ if Settlement.attestor_set p =? 0 then []
       else string_bytes "BLOCH:NATIVE:L2:ATTESTORS:1" ++ hash_bytes (Settlement.attestor_set p).
(** Bit [i] of a word is bit [i mod 8] of its byte [i / 8]. *)
Definition bitmap_bytes (b : Withdrawal.ClaimBitmap) : list Z :=
  le_bytes 8 (Withdrawal.claims b) ++ le_bytes 8 (Withdrawal.floor b)
    ++ counted (λ iw, le_bytes 8 iw.1 ++ le_bytes 32 iw.2) (items (Withdrawal.words b)).
Definition l2_record_bytes (r : Withdrawal.Record_) : list Z :=
  le_bytes 8 (Withdrawal.l2_number r) ++ hash_bytes (Withdrawal.rec_root r) ++ le_bytes 8 (Withdrawal.count r)
    ++ le_bytes 8 (Withdrawal.rec_height r).
Definition da_bytes (r : Settlement.DaRecord) : list Z :=
  le_bytes 8 (Settlement.da_number r) ++ hash_bytes (Settlement.da_commitment r) ++ le_bytes 8 (Settlement.da_height r).

(** A section that is written only when it has something to say. *)
Definition section (present : bool) (bytes : list Z) : list Z := if present then bytes else [].

Definition anchor_bytes (l2 : Settlement.State) : list Z :=
  match Settlement.source_anchor l2 with
  | None => [0]
  | Some (block, slot, height, _, _) => 1 :: hash_bytes block ++ le_bytes 8 slot ++ le_bytes 8 height
  end.
Definition head_bytes (l2 : Settlement.State) : list Z :=
  match Settlement.head l2 with None => [0] | Some (digest, statement) => 1 :: hash_bytes digest ++ statement end.
Definition inbox_section (l2 : Settlement.State) : list Z :=
  string_bytes "BLOCH:NATIVE:L2:INBOX-STATE:1" ++ le_bytes 8 (Z.of_nat (length (Settlement.inbox l2)))
    ++ hash_bytes (Settlement.inbox_root l2) ++ le_bytes 8 (Settlement.consumed l2) ++ le_bytes 16 (Settlement.escrow_sat l2)
    ++ match Settlement.source_anchor l2 with
       | Some (_, _, _, count, root) => le_bytes 8 count ++ hash_bytes root
       | None => []
       end.
Definition claim_section (l2 : Settlement.State) : list Z :=
  string_bytes "BLOCH:NATIVE:L2:CLAIM-STATE:1" ++ le_bytes 16 (Settlement.released_sat l2)
    ++ bitmap_bytes (Settlement.claimed l2) ++ le_bytes 8 (Withdrawal.window (Settlement.release_window l2))
    ++ le_bytes 16 (Withdrawal.released (Settlement.release_window l2)) ++ le_bytes 16 (Withdrawal.cap (Settlement.release_window l2)).

Definition l2_committed_bytes (l2 : Settlement.State) : list Z :=
  string_bytes (if Settlement.asynchronous l2 then "BLOCH:NATIVE:L2:STATE:2" else "BLOCH:NATIVE:L2:STATE:1")
    ++ policy_bytes (Settlement.policy l2) ++ profile_bytes (Settlement.profile l2)
    ++ le_bytes 8 (Settlement.native_height l2)
    ++ section (Settlement.asynchronous l2) (anchor_bytes l2)
    ++ head_bytes l2
    ++ section (negb (bool_decide (Settlement.inbox l2 = []))) (inbox_section l2)
    ++ section (negb (bool_decide (Settlement.withdrawals l2 = [])))
         (string_bytes "BLOCH:NATIVE:L2:WITHDRAWAL-STATE:1" ++ counted l2_record_bytes (Settlement.withdrawals l2))
    ++ section (negb (Withdrawal.claims (Settlement.claimed l2) =? 0)) (claim_section l2)
    ++ section (negb (bool_decide (Settlement.da l2 = [])))
         (string_bytes "BLOCH:NATIVE:L2:DA-STATE:1" ++ counted da_bytes (Settlement.da l2))
    ++ section (negb (bool_decide (Settlement.checkpoint_roots l2 = ∅)))
         (string_bytes "BLOCH:NATIVE:L2:CHECKPOINT-ROOTS:1" ++ counted checkpoint_pair (items (Settlement.checkpoint_roots l2))).

(** ** The tree *)

Definition single (present : bool) (bytes : list Z) : list leaf := if present then [([], bytes)] else [].

(** The components in the order of [build_state_tree_inner] and [compute_tree]. *)
Definition components (s : CommittedState) : list (Z * list leaf) := [
  (TAG_VALIDATOR, validator_leaf <$> committed_validators s);
  (TAG_PARTICIPATION_CURRENT, participation_leaf <$> items (current_participation s));
  (TAG_PARTICIPATION_PREVIOUS, participation_leaf <$> items (previous_participation s));
  (TAG_RANDAO, randao_leaf <$> items (randao_window (boundary_mixes s) (epoch s) (randao_mix s)));
  (TAG_FINALITY, single true (finality_serialize (finality_engine s) (previous_justified s)));
  (TAG_PENDING_VOTE, pending_vote_leaf <$> Epoch.votes_in_order (pending_votes s));
  (TAG_FC_MESSAGE, fc_message_leaf <$> items (latest_messages s));
  (TAG_FC_EQUIVOCATOR, fc_equivocator_leaf <$> ascending (fc_equivocators s));
  (TAG_FC_RECENT_VOTE, recent_vote_leaf <$> recent_votes s);
  (TAG_WRITTEN_OFF, single (negb (written_off_sat s =? 0)) (le_bytes 16 (written_off_sat s)));
  (TAG_FUNDED_VALIDATOR, (λ v, (le_bytes 4 v, [1])) <$> ascending (funded_validators s));
  (TAG_STAKE_LOW_WATER, plain_leaf 4 (le_bytes 16) <$> items (stake_low_water s));
  (TAG_RANDAO_GENERATION,
    plain_leaf 4 (le_bytes 4) <$> items (filter (λ vg : Z * Z, vg.2 ≠ 0) (randao_generations s)));
  (TAG_DEPOSIT_QUEUE, deposit_leaf <$> deposit_history s);
  (TAG_DELEGATION, delegation_leaves (delegations s));
  (TAG_FUNDED_DELEGATION_OWNER, owner_leaf <$> items (funded_delegation_owners s));
  (TAG_FUNDED_DELEGATION_LIFECYCLE, lifecycle_leaf <$> items (funded_delegation_lifecycle s));
  (TAG_PENDING_FEE, amount_leaf <$> items (pending_fee_rewards s));
  (TAG_TAINT_ROOT, single true (hash_bytes (taint_root s)));
  (TAG_COHERENCE_ACCUMULATOR, single true (hash_bytes (coherence_accumulator_root s)));
  (TAG_COHERENCE_NULLIFIERS, single true (hash_bytes (coherence_nullifier_root s)));
  (TAG_EVM_COMMITMENT, single true (evm_serialize (evm s)));
  (TAG_ISSUED_SUPPLY, single true (le_bytes 16 (issued_sat s)));
  (TAG_SLASH_APPLIED, applied_evidence_leaf <$> ascending (Slashing.applied (slashing s)));
  (TAG_SLASH_WINDOW, slash_window_leaf <$> items (Slashing.window (slashing s)));
  (TAG_DELEGATOR_SLASH_LOSS, amount_leaf <$> items (delegator_slash_losses s));
  (TAG_BASE_FEE, single true (base_fee_serialize s));
  (TAG_DELEGATOR_FEE_REWARD, amount_leaf <$> items (delegator_fee_rewards s));
  (TAG_VALIDATOR_FEE_REWARD, amount_leaf <$> items (validator_fee_rewards s));
  (TAG_DELEGATOR_ISSUANCE_REWARD, amount_leaf <$> items (delegator_issuance_rewards s));
  (TAG_PROPOSED_CURRENT, proposed_leaf <$> items (current_proposed s));
  (TAG_L2_SETTLEMENT, match l2_settlement s with Some l2 => [([], l2_committed_bytes l2)] | None => [] end);
  (TAG_KES_ROOT, kes_leaves s);
  (TAG_PQ_RESCUE_COMMIT, (λ ce, (hash_bytes ce.1, le_bytes 8 ce.2)) <$> items (pq_rescue_commits s))
].

(** Every leaf with its tag, in the order of insertion. *)
Definition tagged (s : CommittedState) : list (Z * leaf) := components s ≫= λ c, pair c.1 <$> c.2.

Section hashed.
Context {HS : Sha3}.

Definition leaf_at (l : Z * leaf) : hash := Smt.derive_key l.1 l.2.1.
Definition leaf_op (l : Z * leaf) : Smt.op := Smt.OpInsert (leaf_at l) (Smt.hash_value l.2.2).

Definition compute_tree (s : CommittedState) : option Smt.Smt :=
  Smt.apply_ops (Utxo.tree (eutxos s)) (leaf_op <$> tagged s).
Definition compute_root (s : CommittedState) : option hash := Smt.root <$> compute_tree s.

Context {HK : Keccak} {HX : Xof} {HH : Shake32} (fuel : nat) {G : Gates} {R : Rules} {B : Settlement.Build}.
Context (built : option Settlement.Activation).

Definition apply_block (pre : CommittedState) (envelope : Slashing.ProposalEnvelope) (verifier : SignatureVerifier)
    (atts : list Types.Attestation) (txs : list Tx.PosTransaction) : outcome Block.TransitionError CommittedState :=
  post ← Block.compute_post_state fuel built pre envelope verifier atts txs;
  root ← must (compute_root post);
  require (root =? Header.state_root (Slashing.env_header envelope)) Block.StateRootMismatch;;
  Ret post.
End hashed.

(** ** Encodings that mark their own end *)

Definition framed {A} (P : A → Prop) (enc : A → list Z) : Prop :=
  ∀ a b r1 r2, P a → P b → enc a ++ r1 = enc b ++ r2 → a = b ∧ r1 = r2.

Lemma framed_inj {A} (P : A → Prop) enc a b : framed P enc → P a → P b → enc a = enc b → a = b.
Proof. intros Hf Ha Hb E. apply (Hf a b [] []); [done..|]. by rewrite E. Qed.

Lemma codec_framed {A} (P : A → Prop) enc dec : codec P enc dec → framed P enc.
Proof.
  intros [H1 _] a b r1 r2 Ha Hb E. pose proof (H1 a r1 Ha) as Ea. rewrite E, (H1 b r2 Hb) in Ea. by injection Ea as -> ->.
Qed.

Lemma framed_pair {A B} (P : A → Prop) (Q : B → Prop) e1 e2 :
  framed P e1 → framed Q e2 → framed (λ x : A * B, P x.1 ∧ Q x.2) (λ x, e1 x.1 ++ e2 x.2).
Proof.
  intros H1 H2 [a b] [a' b'] r1 r2 [] [] E. cbn in *. rewrite <- !app_assoc in E.
  apply H1 in E as [-> E]; [|done..]. by apply H2 in E as [-> ->].
Qed.

(** A record is the tuple of its fields. *)
Lemma framed_via {A B} (f : A → B) (P : A → Prop) (Q : B → Prop) enc :
  framed Q enc → (∀ a, P a → Q (f a)) → (∀ a b, f a = f b → a = b) → framed P (λ a, enc (f a)).
Proof. intros He HP Hf a b r1 r2 Ha Hb E. apply He in E as [E ->]; [|auto..]. split; [by apply Hf|done]. Qed.

Lemma framed_int n : framed (is_int n) (le_bytes n).
Proof. eapply codec_framed, codec_int. Qed.
Lemma framed_hash : framed is_hash hash_bytes.
Proof. eapply codec_framed, codec_h32. Qed.
Lemma framed_bool : framed (λ _, True) bool_byte.
Proof. intros [] [] r1 r2 _ _ E; injection E; intros; naive_solver. Qed.

Lemma framed_elements {A} (P : A → Prop) enc (l1 l2 : list A) r1 r2 :
  framed P enc → Forall P l1 → Forall P l2 → length l1 = length l2 →
  (l1 ≫= enc) ++ r1 = (l2 ≫= enc) ++ r2 → l1 = l2 ∧ r1 = r2.
Proof.
  intros He Hl1. revert l2. induction Hl1 as [|x l1 Hx Hl1 IH]; intros [|y l2] Hl2 Hlen E; try done.
  apply Forall_cons in Hl2 as [Hy Hl2]. cbn in E. rewrite <- !app_assoc in E. apply He in E as [-> E]; [|done..].
  injection Hlen as Hlen. by apply IH in E as [-> ->].
Qed.

Lemma framed_counted {A} (P : A → Prop) enc :
  framed P enc → framed (λ l, Forall P l ∧ is_int 8 (Z.of_nat (length l))) (counted enc).
Proof.
  intros He l1 l2 r1 r2 [] [] E. unfold counted in E. rewrite <- !app_assoc in E.
  apply (framed_int 8) in E as [En E]; [|done..]. apply (framed_elements P) in E; [done|done|done|done|lia].
Qed.

(** A map written as its entries in order. *)
Lemma items_inj {X} (m1 m2 : gmap Z X) : items m1 = items m2 → m1 = m2.
Proof.
  intros E. apply map_eq. intros k. apply option_eq. intros x. by rewrite <- !elem_of_items, E.
Qed.

Lemma framed_items {X} (P : Z * X → Prop) enc :
  framed P enc →
  framed (λ m : gmap Z X, map_Forall (λ k x, P (k, x)) m ∧ is_int 8 (Z.of_nat (size m))) (λ m, counted enc (items m)).
Proof.
  intros He. apply (framed_via items _ _ _ (framed_counted P enc He)); [|apply items_inj].
  intros m [Hm Hs]. split.
  - apply Forall_forall. intros [k x] Hx%elem_of_items. by apply Hm.
  - by rewrite items_perm, length_map_to_list.
Qed.

Lemma framed_checkpoint : framed (λ c, is_int 8 (Types.epoch c) ∧ is_hash (Types.root c)) checkpoint_bytes.
Proof.
  apply (framed_via (λ c, (Types.epoch c, Types.root c)) _ _ _ (framed_pair _ _ _ _ (framed_int 8) framed_hash)); [done|].
  by intros [] [] [= -> ->].
Qed.
Lemma framed_checkpoint_pair : framed (λ c, is_int 8 c.1 ∧ is_hash c.2) checkpoint_pair.
Proof. apply (framed_pair _ _ _ _ (framed_int 8) framed_hash). Qed.
Lemma framed_pair_bytes : framed (λ c, is_int 4 c.1 ∧ is_int 8 c.2) pair_bytes.
Proof. apply (framed_pair _ _ _ _ (framed_int 4) (framed_int 8)). Qed.

(** ** Validators are read back *)

Definition committed_wf (r : CommittedValidatorRecord) : Prop :=
  is_int 4 (cv_index r) ∧ is_bytes (λ n, n <=? 65536) (cv_pubkey r) ∧ is_int 8 (cv_stake r) ∧
  is_int 8 (cv_activation_epoch r) ∧ is_int 8 (cv_exit_epoch r) ∧ True ∧ is_hash (cv_randao_commitment r) ∧
  is_int 4 (cv_reveals_used r) ∧ is_int 8 (cv_withdrawable_epoch r) ∧
  is_bytes (λ n, n <=? 65536) (cv_withdrawal_credentials r) ∧ is_int 16 (cv_commission_bps r).

Lemma codec_validator_field : codec (is_bytes (λ n, n <=? 65536)) put validator_field.
Proof. apply codec_bytes_if. Qed.
Lemma codec_validator_bool : codec (λ _, True) bool_byte validator_bool.
Proof.
  unfold validator_bool. destruct codec_u8 as [H1 H2]. unfold mbind, Reader_bind. split.
  - intros b rest _. destruct b.
    + change (bool_byte true ++ rest) with (le_bytes 1 1 ++ rest). by rewrite H1.
    + change (bool_byte false ++ rest) with (le_bytes 1 0 ++ rest). by rewrite H1.
  - intros bs b rest Hb. destruct (r_u8 bs) as [[x r]|] eqn:E; [|done]. apply H2 in E as [Hx ->]; [|done].
    destruct (Z.eqb_spec x 0) as [->|]; [by intros [= <- <-]|].
    destruct (Z.eqb_spec x 1) as [->|]; [by intros [= <- <-]|done].
Qed.
#[local] Hint Resolve codec_validator_field codec_validator_bool : codec.

Lemma codec_validator : codec committed_wf validator_serialize read_validator.
Proof.
  apply codec_start. codec_field cv_index. codec_field cv_pubkey. codec_field cv_stake. codec_field cv_activation_epoch.
  codec_field cv_exit_epoch.
  apply (codec_bind cv_slashed (λ _, True) _ _ bool_byte validator_bool); [apply codec_validator_bool|]. intros ? _.
  codec_field cv_randao_commitment. codec_field cv_reveals_used.
  codec_field cv_withdrawable_epoch. codec_field cv_withdrawal_credentials. Tx.codec_done.
Qed.

(** ** Finality is determined by its bytes *)

Definition u64_map (m : gmap Z Z) : Prop :=
  map_Forall (λ k x, is_int 4 k ∧ is_int 8 x) m ∧ is_int 8 (Z.of_nat (size m)).
Definition roots_map (m : gmap Z hash) : Prop :=
  map_Forall (λ k x, is_int 8 k ∧ is_hash x) m ∧ is_int 8 (Z.of_nat (size m)).
Definition checkpoint_wf (c : Types.Checkpoint) : Prop := is_int 8 (Types.epoch c) ∧ is_hash (Types.root c).
Definition members_wf (fs : Finality.FinalitySet) : Prop := is_int 8 (Finality.fs_epoch fs) ∧ u64_map (Finality.members fs).
Definition finality_set_wf (fs : Finality.FinalitySetState) : Prop :=
  members_wf (Finality.current fs) ∧ from_option members_wf True (Finality.pending fs) ∧ u64_map (Finality.last_seen fs).
Record finality_wf (f : Finality.FinalityState) : Prop := {
  fi_justified : roots_map (Finality.justified f);
  fi_current : checkpoint_wf (Finality.current_justified f);
  fi_finalized : checkpoint_wf (Finality.finalized f);
  fi_leaked : u64_map (Finality.leaked f);
  fi_next : is_int 8 (Finality.next_epoch f);
  fi_set : from_option finality_set_wf True (Finality.finality_set f);
  fi_own : roots_map (Finality.own_checkpoints f);
}.

Lemma framed_write_pairs : framed u64_map write_pairs.
Proof. apply (framed_items (λ c, is_int 4 c.1 ∧ is_int 8 c.2) pair_bytes), framed_pair_bytes. Qed.
Lemma framed_roots : framed roots_map (λ m, counted checkpoint_pair (items m)).
Proof. apply (framed_items (λ c, is_int 8 c.1 ∧ is_hash c.2) checkpoint_pair), framed_checkpoint_pair. Qed.

Lemma framed_members : framed members_wf (λ fs, le_bytes 8 (Finality.fs_epoch fs) ++ write_pairs (Finality.members fs)).
Proof.
  apply (framed_via (λ fs, (Finality.fs_epoch fs, Finality.members fs)) _ _ _
    (framed_pair _ _ _ _ (framed_int 8) framed_write_pairs)); [done|]. by intros [] [] [= -> ->].
Qed.

(** An option behind a byte that says whether it is there. *)
Lemma framed_option {A} (P : A → Prop) enc :
  framed P enc → framed (from_option P True) (λ o, match o with None => [0] | Some a => 1 :: enc a end).
Proof.
  intros He [a|] [b|] r1 r2 Ha Hb E; cbn in *; try done.
  - injection E as E. by apply He in E as [-> ->].
  - by injection E as ->.
Qed.

Lemma framed_finality_set : framed finality_set_wf finality_set_bytes.
Proof.
  assert (framed (λ x, members_wf x.1 ∧ from_option members_wf True x.2.1 ∧ u64_map x.2.2)
    (λ x, (le_bytes 8 (Finality.fs_epoch x.1) ++ write_pairs (Finality.members x.1)) ++
       match x.2.1 with
       | None => [0]
       | Some p => 1 :: le_bytes 8 (Finality.fs_epoch p) ++ write_pairs (Finality.members p)
       end ++ write_pairs x.2.2)) as Hf.
  { apply (framed_pair _ _ _ _ framed_members (framed_pair _ _ _ _ (framed_option _ _ framed_members) framed_write_pairs)). }
  intros a b r1 r2 Ha Hb E. unfold finality_set_bytes in E. rewrite <- !app_assoc in E. apply app_inv_head in E.
  specialize (Hf (Finality.current a, (Finality.pending a, Finality.last_seen a))
    (Finality.current b, (Finality.pending b, Finality.last_seen b)) r1 r2). cbn [fst snd] in Hf. rewrite <- !app_assoc in Hf.
  destruct Hf as [[= ? ? ?] ->]; [done|done|done|]. split; [|done]. destruct a, b. cbn in *. by subst.
Qed.

Lemma own_checkpoints_inj m1 m2 :
  roots_map m1 → roots_map m2 → own_checkpoints_bytes m1 = own_checkpoints_bytes m2 → m1 = m2.
Proof.
  intros H1 H2 E. unfold own_checkpoints_bytes in E.
  case_bool_decide as E1; case_bool_decide as E2; try done.
  - apply items_inj. congruence.
  - apply app_inv_head in E. by apply (framed_inj _ _ _ _ framed_roots).
Qed.

(** The optional sections at the end start with different tags. *)
Lemma finality_tail_inj f1 f2 m1 m2 :
  from_option finality_set_wf True f1 → from_option finality_set_wf True f2 → roots_map m1 → roots_map m2 →
  match f1 with Some fs => finality_set_bytes fs | None => [] end ++ own_checkpoints_bytes m1
  = match f2 with Some fs => finality_set_bytes fs | None => [] end ++ own_checkpoints_bytes m2 →
  f1 = f2 ∧ m1 = m2.
Proof.
  assert (∀ fs m r, finality_set_bytes fs ++ r ≠ own_checkpoints_bytes m) as Hne.
  { intros fs m r. unfold own_checkpoints_bytes. case_bool_decide; [done|]. intros E. by injection E. }
  intros Hf1 Hf2 Hm1 Hm2 E. destruct f1 as [f1|], f2 as [f2|]; cbn in *.
  - apply framed_finality_set in E as [-> E]; [|done..]. split; [done|]. by apply own_checkpoints_inj.
  - by apply Hne in E.
  - symmetry in E. by apply Hne in E.
  - split; [done|]. by apply own_checkpoints_inj.
Qed.

Lemma finality_inj f1 f2 p1 p2 :
  finality_wf f1 → finality_wf f2 → checkpoint_wf p1 → checkpoint_wf p2 →
  finality_serialize f1 p1 = finality_serialize f2 p2 → f1 = f2 ∧ p1 = p2.
Proof.
  intros [Ja Ca Fa La Na Sa Oa] [Jb Cb Fb Lb Nb Sb Ob] Pa Pb E. unfold finality_serialize in E.
  apply framed_roots in E as [? E]; [|done..]. apply framed_checkpoint in E as [? E]; [|done..].
  apply framed_checkpoint in E as [? E]; [|done..]. apply framed_checkpoint in E as [? E]; [|done..].
  apply framed_write_pairs in E as [? E]; [|done..]. apply (framed_int 8) in E as [? E]; [|done..].
  apply finality_tail_inj in E as [? ?]; [|done..]. split; [|done]. destruct f1, f2. cbn in *. by subst.
Qed.

(** ** Keys are determined by their bytes *)

Definition retired_bytes (r : Kes.RetiredKes) : list Z := Kes.public_bytes (Kes.public r) ++ le_bytes 8 (Kes.retired_end r).
Definition retired_section (rs : list Kes.RetiredKes) : list Z :=
  match rs with
  | [] => []
  | rs => [Kes.RETIRED_SECTION_TAG] ++ le_bytes 4 (Z.of_nat (length rs)) ++ (rs ≫= retired_bytes)
  end.
Definition kes_wf (k : KesPublic) : Prop := 0 ≤ depth k < Kes.RETIRED_SECTION_TAG ∧ is_hash (kes_root k) ∧ is_int 8 (start_period k).
Definition kes_entry_wf (e : Kes.KesEntry) : Prop :=
  kes_wf (Kes.current e) ∧ from_option kes_wf True (Kes.next e) ∧
  Forall (λ r, kes_wf (Kes.public r) ∧ is_int 8 (Kes.retired_end r)) (Kes.retired e) ∧
  is_int 4 (Z.of_nat (length (Kes.retired e))).

Lemma framed_byte : framed (λ _, True) (λ z : Z, [z]).
Proof. by intros a b r1 r2 _ _ [= -> ->]. Qed.
Lemma framed_kes : framed kes_wf Kes.public_bytes.
Proof.
  apply (framed_via (λ k, (depth k, (kes_root k, start_period k))) _ _ _
    (framed_pair _ _ _ _ framed_byte (framed_pair _ _ _ _ framed_hash (framed_int 8)))).
  - by intros k (Hd & Hr & Hs).
  - by intros [] [] [= -> -> ->].
Qed.
Lemma framed_retired : framed (λ r, kes_wf (Kes.public r) ∧ is_int 8 (Kes.retired_end r)) retired_bytes.
Proof.
  apply (framed_via (λ r, (Kes.public r, Kes.retired_end r)) _ _ _ (framed_pair _ _ _ _ framed_kes (framed_int 8))); [done|].
  by intros [] [] [= -> ->].
Qed.

Lemma retired_section_inj rs1 rs2 :
  Forall (λ r, kes_wf (Kes.public r) ∧ is_int 8 (Kes.retired_end r)) rs1 →
  Forall (λ r, kes_wf (Kes.public r) ∧ is_int 8 (Kes.retired_end r)) rs2 →
  is_int 4 (Z.of_nat (length rs1)) → is_int 4 (Z.of_nat (length rs2)) →
  retired_section rs1 = retired_section rs2 → rs1 = rs2.
Proof.
  intros H1 H2 L1 L2 E. destruct rs1 as [|r1 rs1], rs2 as [|r2 rs2]; try done. unfold retired_section in E.
  apply (f_equal tail) in E. cbn [tail] in E. apply (framed_int 4) in E as [En E]; [|done..].
  assert (length (r1 :: rs1) = length (r2 :: rs2)) as Hl by (apply Nat2Z.inj; done).
  apply (framed_elements _ _ _ _ [] [] framed_retired H1 H2 Hl). by rewrite !app_nil_r.
Qed.

Lemma entry_bytes_eq e :
  Kes.entry_bytes e = Kes.public_bytes (Kes.current e)
    ++ match Kes.next e with Some n => Kes.public_bytes n | None => [] end ++ retired_section (Kes.retired e).
Proof. by destruct e as [? ? []]. Qed.

Lemma kes_entry_inj e1 e2 : kes_entry_wf e1 → kes_entry_wf e2 → Kes.entry_bytes e1 = Kes.entry_bytes e2 → e1 = e2.
Proof.
  destruct e1 as [c1 n1 r1], e2 as [c2 n2 r2]. intros (C1 & N1 & R1 & L1) (C2 & N2 & R2 & L2) E.
  rewrite !entry_bytes_eq in E. cbn [Kes.current Kes.next Kes.retired] in *.
  apply framed_kes in E as [-> E]; [|done..].
  assert (∀ k rs rs', kes_wf k → Kes.public_bytes k ++ retired_section rs ≠ retired_section rs') as Hne.
  { intros k rs rs' [Hd _] E'. destruct rs' as [|r' rs'].
    - by destruct k.
    - unfold Kes.public_bytes, retired_section, Kes.RETIRED_SECTION_TAG in *. destruct k as [d kr st]. cbn in E', Hd.
      injection E' as E' _. lia. }
  destruct n1 as [k1|], n2 as [k2|]; cbn [from_option app] in *.
  - apply framed_kes in E as [-> E]; [|done..]. by apply retired_section_inj in E as ->.
  - by apply Hne in E.
  - symmetry in E. by apply Hne in E.
  - by apply retired_section_inj in E as ->.
Qed.

(** ** Components *)

Definition component_tags : list Z := [
  TAG_VALIDATOR; TAG_PARTICIPATION_CURRENT; TAG_PARTICIPATION_PREVIOUS; TAG_RANDAO; TAG_FINALITY;
  TAG_PENDING_VOTE; TAG_FC_MESSAGE; TAG_FC_EQUIVOCATOR; TAG_FC_RECENT_VOTE; TAG_WRITTEN_OFF;
  TAG_FUNDED_VALIDATOR; TAG_STAKE_LOW_WATER; TAG_RANDAO_GENERATION; TAG_DEPOSIT_QUEUE; TAG_DELEGATION;
  TAG_FUNDED_DELEGATION_OWNER; TAG_FUNDED_DELEGATION_LIFECYCLE; TAG_PENDING_FEE; TAG_TAINT_ROOT;
  TAG_COHERENCE_ACCUMULATOR; TAG_COHERENCE_NULLIFIERS; TAG_EVM_COMMITMENT; TAG_ISSUED_SUPPLY;
  TAG_SLASH_APPLIED; TAG_SLASH_WINDOW; TAG_DELEGATOR_SLASH_LOSS; TAG_BASE_FEE; TAG_DELEGATOR_FEE_REWARD;
  TAG_VALIDATOR_FEE_REWARD; TAG_DELEGATOR_ISSUANCE_REWARD; TAG_PROPOSED_CURRENT; TAG_L2_SETTLEMENT;
  TAG_KES_ROOT; TAG_PQ_RESCUE_COMMIT].

Lemma components_tags s : (components s).*1 = component_tags.
Proof. done. Qed.
Lemma component_tags_NoDup : NoDup component_tags.
Proof. apply (bool_decide_unpack _). vm_compute. done. Qed.

Lemma elem_of_tagged s t l : (t, l) ∈ tagged s ↔ ∃ g, (t, g) ∈ components s ∧ l ∈ g.
Proof.
  unfold tagged. rewrite list_elem_of_bind. split.
  - intros ([t' g] & Hl & Hc). apply list_elem_of_fmap in Hl as (l' & [= -> ->] & Hl). by exists g.
  - intros (g & Hc & Hl). exists (t, g). split; [|done]. apply list_elem_of_fmap. by exists l.
Qed.

Lemma component_unique s t g g' : (t, g) ∈ components s → (t, g') ∈ components s → g = g'.
Proof.
  intros (i & Hi)%list_elem_of_lookup (j & Hj)%list_elem_of_lookup.
  assert (i = j) as ->; [|congruence].
  apply (NoDup_lookup component_tags _ _ t component_tags_NoDup).
  - by rewrite <- (components_tags s), list_lookup_fmap, Hi.
  - by rewrite <- (components_tags s), list_lookup_fmap, Hj.
Qed.

Definition same_leaves s1 s2 : Prop := ∀ l, l ∈ tagged s1 ↔ l ∈ tagged s2.

Lemma same_leaves_sym s1 s2 : same_leaves s1 s2 → same_leaves s2 s1.
Proof. intros H l. by rewrite (H l). Qed.

(** The leaves of one component. *)
Lemma component_same s1 s2 (i : nat) t g1 g2 :
  same_leaves s1 s2 → components s1 !! i = Some (t, g1) → components s2 !! i = Some (t, g2) → ∀ l, l ∈ g1 ↔ l ∈ g2.
Proof.
  assert (∀ s1 s2 (i : nat) t g1 g2, same_leaves s1 s2 → components s1 !! i = Some (t, g1) →
    components s2 !! i = Some (t, g2) → ∀ l, l ∈ g1 → l ∈ g2) as H; [|naive_solver eauto using same_leaves_sym].
  intros x1 x2 j u h1 h2 Hs H1%list_elem_of_lookup_2 H2%list_elem_of_lookup_2 l Hl.
  assert ((u, l) ∈ tagged x2) as (g & Hg & Hin)%elem_of_tagged by (apply Hs, elem_of_tagged; eauto).
  by rewrite (component_unique _ _ _ _ H2 Hg).
Qed.

Lemma fmap_same_inj {A} (lf : A → leaf) (P : A → Prop) (l1 l2 : list A) :
  (∀ a b, P a → P b → lf a = lf b → a = b) → (∀ a, a ∈ l1 → P a) → (∀ a, a ∈ l2 → P a) →
  (∀ l, l ∈ lf <$> l1 ↔ l ∈ lf <$> l2) → ∀ a, a ∈ l1 ↔ a ∈ l2.
Proof.
  intros Hinj H1 H2 Hs a. split; intros Ha.
  - assert (lf a ∈ lf <$> l2) as (b & E & Hb)%list_elem_of_fmap by (apply Hs, list_elem_of_fmap; eauto).
    by rewrite (Hinj a b) by auto.
  - assert (lf a ∈ lf <$> l1) as (b & E & Hb)%list_elem_of_fmap by (apply Hs, list_elem_of_fmap; eauto).
    by rewrite (Hinj a b) by auto.
Qed.

Lemma items_same_inj {X} (lf : Z * X → leaf) (P : Z * X → Prop) (m1 m2 : gmap Z X) :
  (∀ a b, P a → P b → lf a = lf b → a = b) →
  map_Forall (λ k x, P (k, x)) m1 → map_Forall (λ k x, P (k, x)) m2 →
  (∀ l, l ∈ lf <$> items m1 ↔ l ∈ lf <$> items m2) → m1 = m2.
Proof.
  intros Hinj H1 H2 Hs. apply map_eq. intros k. apply option_eq. intros x. rewrite <- !elem_of_items.
  apply (fmap_same_inj lf P); [done| | |done]; intros [k' x'] Hx%elem_of_items; [by apply H1|by apply H2].
Qed.

Lemma ascending_same_inj (lf : Z → leaf) (P : Z → Prop) (X1 X2 : gset Z) :
  (∀ a b, P a → P b → lf a = lf b → a = b) → set_Forall P X1 → set_Forall P X2 →
  (∀ l, l ∈ lf <$> ascending X1 ↔ l ∈ lf <$> ascending X2) → X1 = X2.
Proof.
  intros Hinj H1 H2 Hs. apply set_eq. intros a. rewrite <- (elem_of_ascending X1), <- (elem_of_ascending X2).
  apply (fmap_same_inj lf P); [done| | |done]; intros b Hb%elem_of_ascending; auto.
Qed.

Lemma single_same_inj b1 b2 x1 x2 :
  (∀ l, l ∈ single b1 x1 ↔ l ∈ single b2 x2) → b1 = b2 ∧ (b1 = true → x1 = x2).
Proof.
  intros Hs. destruct b1, b2; cbn in Hs; [|specialize (Hs ([], x1))|specialize (Hs ([], x2))|done]; [|set_solver..].
  split; [done|]. intros _. specialize (Hs ([], x1)). set_solver.
Qed.

(** Leaves keyed by an integer. *)
Section keyed.
Context {X : Type} (n : nat) (enc : X → list Z) (Q : X → Prop).

Lemma keyed_leaf_inj a b :
  framed Q enc → is_int n a.1 ∧ Q a.2 → is_int n b.1 ∧ Q b.2 → keyed_leaf n enc a = keyed_leaf n enc b → a = b.
Proof.
  destruct a as [k x], b as [k' x']. intros Hf [Hk Hx] [Hk' Hx'] [= _ E]. cbn in *.
  apply (framed_int n) in E as [-> E]; [|done..]. by rewrite (framed_inj Q enc x x' Hf Hx Hx' E).
Qed.
Lemma plain_leaf_inj a b :
  (∀ x y, Q x → Q y → enc x = enc y → x = y) →
  is_int n a.1 ∧ Q a.2 → is_int n b.1 ∧ Q b.2 → plain_leaf n enc a = plain_leaf n enc b → a = b.
Proof.
  destruct a as [k x], b as [k' x']. intros Hf [Hk Hx] [Hk' Hx'] [= Ek E]. cbn in *.
  rewrite (framed_inj _ _ _ _ (framed_int n) Hk Hk' Ek). by rewrite (Hf x x' Hx Hx' E).
Qed.
End keyed.

Lemma framed_latest : framed (λ m : Z * hash, is_int 8 m.1 ∧ is_hash m.2) (λ m, le_bytes 8 m.1 ++ hash_bytes m.2).
Proof. apply (framed_pair _ _ _ _ (framed_int 8) framed_hash). Qed.
Lemma framed_lifecycle : framed (λ m : Z * bool, is_int 8 m.1 ∧ True) (λ m, le_bytes 8 m.1 ++ bool_byte m.2).
Proof. apply (framed_pair _ _ _ _ (framed_int 8) framed_bool). Qed.

Definition vote_wf (d : Types.AttestationData) : Prop :=
  is_int 8 (Types.slot d) ∧ is_hash (Types.head d) ∧ is_int 8 (Types.source_epoch d) ∧ is_hash (Types.source_root d) ∧
  is_int 8 (Types.target_epoch d) ∧ is_hash (Types.target_root d).
Lemma framed_vote : framed vote_wf vote_data_bytes.
Proof.
  apply (framed_via (λ d, (Types.slot d, (Types.head d, (Types.source_epoch d, (Types.source_root d,
    (Types.target_epoch d, Types.target_root d)))))) _ _ _
    (framed_pair _ _ _ _ (framed_int 8) (framed_pair _ _ _ _ framed_hash (framed_pair _ _ _ _ (framed_int 8)
      (framed_pair _ _ _ _ framed_hash (framed_pair _ _ _ _ (framed_int 8) framed_hash)))))); [done|].
  by intros [] [] [= -> -> -> -> -> ->].
Qed.

Definition delegation_wf (d : Delegation.Delegation) : Prop :=
  is_int 4 (Delegation.delegator d) ∧ is_int 4 (Delegation.validator d) ∧ is_int 16 (Delegation.amount_sat d) ∧
  is_int 8 (Delegation.requested_epoch d) ∧ from_option (is_int 8) True (Delegation.deactivate_epoch d).
Lemma framed_delegation : framed delegation_wf delegation_bytes.
Proof.
  apply (framed_via (λ d, (Delegation.delegator d, (Delegation.validator d, (Delegation.amount_sat d,
    (Delegation.requested_epoch d, (Delegation.deactivate_epoch d, Delegation.eligible d)))))) _ _ _
    (framed_pair _ _ _ _ (framed_int 4) (framed_pair _ _ _ _ (framed_int 4) (framed_pair _ _ _ _ (framed_int 16)
      (framed_pair _ _ _ _ (framed_int 8) (framed_pair _ _ _ _ (framed_option _ _ (framed_int 8)) framed_bool)))))).
  - intros d (? & ? & ? & ? & ?). cbn. tauto.
  - by intros [] [] [= -> -> -> -> -> ->].
Qed.

(** ** The leaves determine the state *)

Definition u32_keys {X} (Q : X → Prop) (m : gmap Z X) : Prop := map_Forall (λ k x, is_int 4 k ∧ Q x) m.
Definition any_value {X} (_ : X) : Prop := True.

(** Every committed field within its width, and the keys that the code keeps distinct. *)
Record fields_wf s : Prop := {
  fw_index : map_Forall (λ k r, vr_index r = k) (validators s);
  fw_validators : ∀ r, r ∈ committed_validators s → committed_wf r;
  fw_current : u32_keys any_value (current_participation s);
  fw_previous : u32_keys any_value (previous_participation s);
  fw_epoch : is_int 8 (epoch s);
  fw_mix : is_hash (randao_mix s);
  fw_boundaries : map_Forall (λ e m, is_int 8 e ∧ is_hash m) (boundary_mixes s);
  fw_finality : finality_wf (finality_engine s);
  fw_previous_justified : checkpoint_wf (previous_justified s);
  fw_votes : map_Forall (λ k d, is_int 4 k.1 ∧ is_hash k.2 ∧ vote_wf d) (pending_votes s);
  fw_latest : u32_keys (λ m, is_int 8 m.1 ∧ is_hash m.2) (latest_messages s);
  fw_equivocators : set_Forall (is_int 4) (fc_equivocators s);
  fw_recent : u32_keys (map_Forall (λ sl r, is_int 8 sl ∧ is_hash r)) (fc_recent_votes s);
  fw_written : is_int 16 (written_off_sat s);
  fw_funded : set_Forall (is_int 4) (funded_validators s);
  fw_low : u32_keys (is_int 16) (stake_low_water s);
  fw_generations : u32_keys (is_int 4) (randao_generations s);
  fw_deposits : Forall (λ d, is_hash (Staking.pubkey_hash d) ∧ is_int 8 (Staking.deposit_epoch d) ∧
                             is_int 16 (Staking.q_amount_sat d)) (deposit_history s);
  fw_deposit_keys : NoDup (Staking.pubkey_hash <$> deposit_history s);
  fw_delegations : Forall delegation_wf (delegations s);
  fw_positions : is_int 8 (Z.of_nat (length (delegations s)));
  fw_owners : u32_keys is_hash (funded_delegation_owners s);
  fw_lifecycle : u32_keys (λ x, is_int 8 x.1 ∧ True) (funded_delegation_lifecycle s);
  fw_pending : u32_keys (is_int 16) (pending_fee_rewards s);
  fw_roots : is_hash (taint_root s) ∧ is_hash (coherence_accumulator_root s) ∧ is_hash (coherence_nullifier_root s);
  fw_evm : is_hash (account_root (evm s)) ∧ is_hash (receipts_root (evm s)) ∧ is_int 8 (evm_gas_used (evm s)) ∧
           is_int 8 (base_fee_per_gas (evm s));
  fw_issued : is_int 16 (issued_sat s);
  fw_applied : set_Forall is_hash (Slashing.applied (slashing s));
  fw_window : map_Forall (λ e x, is_int 8 e ∧ is_int 16 x) (Slashing.window (slashing s));
  fw_losses : u32_keys (is_int 16) (delegator_slash_losses s);
  fw_base_fee : is_int 16 (base_fee_millisat_per_gas s) ∧ is_int 8 (block_gas_used s) ∧ is_int 8 (block_tx_bytes s);
  fw_delegator_fees : u32_keys (is_int 16) (delegator_fee_rewards s);
  fw_validator_fees : u32_keys (is_int 16) (validator_fee_rewards s);
  fw_issuance : u32_keys (is_int 16) (delegator_issuance_rewards s);
  fw_proposed : u32_keys any_value (current_proposed s);
  fw_kes : u32_keys kes_entry_wf (kes s);
  fw_enforced : from_option (is_int 8) True (kes_enforced_from s);
  fw_rescue : map_Forall (λ c e, is_hash c ∧ is_int 8 e) (pq_rescue_commits s);
}.

(** What two states with the same leaves have in common: everything but the position in the
    chain, the genesis data, the keys' index and closed boundaries no seed needs. *)
Record agrees s1 s2 : Prop := {
  ag_validators : ∀ r, r ∈ committed_validators s1 ↔ r ∈ committed_validators s2;
  ag_current : current_participation s1 = current_participation s2;
  ag_previous : previous_participation s1 = previous_participation s2;
  ag_window : randao_window (boundary_mixes s1) (epoch s1) (randao_mix s1)
              = randao_window (boundary_mixes s2) (epoch s2) (randao_mix s2);
  ag_finality : finality_engine s1 = finality_engine s2 ∧ previous_justified s1 = previous_justified s2;
  ag_votes : pending_votes s1 = pending_votes s2;
  ag_latest : latest_messages s1 = latest_messages s2;
  ag_equivocators : fc_equivocators s1 = fc_equivocators s2;
  ag_recent : ∀ v, v ∈ recent_votes s1 ↔ v ∈ recent_votes s2;
  ag_written : written_off_sat s1 = written_off_sat s2;
  ag_funded : funded_validators s1 = funded_validators s2;
  ag_low : stake_low_water s1 = stake_low_water s2;
  ag_generations : ∀ v, get0 (randao_generations s1) v = get0 (randao_generations s2) v;
  ag_deposits : ∀ d, d ∈ deposit_history s1 ↔ d ∈ deposit_history s2;
  ag_delegations : delegations s1 = delegations s2;
  ag_owners : funded_delegation_owners s1 = funded_delegation_owners s2;
  ag_lifecycle : funded_delegation_lifecycle s1 = funded_delegation_lifecycle s2;
  ag_pending : pending_fee_rewards s1 = pending_fee_rewards s2;
  ag_roots : taint_root s1 = taint_root s2 ∧ coherence_accumulator_root s1 = coherence_accumulator_root s2 ∧
             coherence_nullifier_root s1 = coherence_nullifier_root s2;
  ag_evm : evm s1 = evm s2;
  ag_issued : issued_sat s1 = issued_sat s2;
  ag_slashing : Slashing.applied (slashing s1) = Slashing.applied (slashing s2) ∧
                Slashing.window (slashing s1) = Slashing.window (slashing s2);
  ag_losses : delegator_slash_losses s1 = delegator_slash_losses s2;
  ag_base_fee : base_fee_millisat_per_gas s1 = base_fee_millisat_per_gas s2 ∧ block_gas_used s1 = block_gas_used s2 ∧
                block_tx_bytes s1 = block_tx_bytes s2;
  ag_delegator_fees : delegator_fee_rewards s1 = delegator_fee_rewards s2;
  ag_validator_fees : validator_fee_rewards s1 = validator_fee_rewards s2;
  ag_issuance : delegator_issuance_rewards s1 = delegator_issuance_rewards s2;
  ag_proposed : current_proposed s1 = current_proposed s2;
  ag_l2 : l2_committed_bytes <$> l2_settlement s1 = l2_committed_bytes <$> l2_settlement s2;
  ag_kes : kes s1 = kes s2 ∧ kes_enforced_from s1 = kes_enforced_from s2;
  ag_rescue : pq_rescue_commits s1 = pq_rescue_commits s2;
}.

(** The component at position [i], a map written with [lf]. *)
Ltac same_at i := match goal with H : same_leaves ?a ?b |- _ => eapply (component_same a b i _ _ _ H); reflexivity end.

Section determine.
Context (s1 s2 : CommittedState) (H1 : fields_wf s1) (H2 : fields_wf s2) (Hs : same_leaves s1 s2).

Lemma validators_same r : r ∈ committed_validators s1 ↔ r ∈ committed_validators s2.
Proof.
  apply (fmap_same_inj validator_leaf committed_wf); [|apply (fw_validators _ H1)|apply (fw_validators _ H2)|same_at 0%nat].
  intros a b Ha Hb E%(f_equal snd). eapply framed_inj; [apply (codec_framed _ _ _ codec_validator)|done..].
Qed.

Lemma bool_leaf_inj (a b : Z * bool) :
  is_int 4 a.1 ∧ any_value a.2 → is_int 4 b.1 ∧ any_value b.2 → participation_leaf a = participation_leaf b → a = b.
Proof. apply (keyed_leaf_inj 4 bool_byte any_value), framed_bool. Qed.
Lemma amount_leaf_inj (a b : Z * Z) :
  is_int 4 a.1 ∧ is_int 16 a.2 → is_int 4 b.1 ∧ is_int 16 b.2 → amount_leaf a = amount_leaf b → a = b.
Proof. apply (keyed_leaf_inj 4 (le_bytes 16) (is_int 16)), framed_int. Qed.

Lemma window_wf s : fields_wf s →
  map_Forall (λ e m, is_int 8 e ∧ is_hash m) (randao_window (boundary_mixes s) (epoch s) (randao_mix s)).
Proof.
  intros Hw. apply map_Forall_insert_2; [split; apply Hw|].
  intros e m [Hm _]%map_lookup_filter_Some. by apply (fw_boundaries _ Hw).
Qed.
Lemma window_same : randao_window (boundary_mixes s1) (epoch s1) (randao_mix s1)
  = randao_window (boundary_mixes s2) (epoch s2) (randao_mix s2).
Proof.
  apply (items_same_inj randao_leaf (λ a, is_int 8 a.1 ∧ is_hash a.2)); [|by apply window_wf..|same_at 3%nat].
  intros a b. apply (keyed_leaf_inj 8 hash_bytes is_hash), framed_hash.
Qed.

Lemma finality_same : finality_engine s1 = finality_engine s2 ∧ previous_justified s1 = previous_justified s2.
Proof.
  apply finality_inj; [by apply fw_finality|by apply fw_finality|by apply fw_previous_justified|by apply fw_previous_justified|].
  destruct (single_same_inj true true (finality_serialize (finality_engine s1) (previous_justified s1))
    (finality_serialize (finality_engine s2) (previous_justified s2))) as [_ E]; [same_at 4%nat|by apply E].
Qed.

Lemma pending_same : pending_votes s1 = pending_votes s2.
Proof.
  assert (∀ e, e ∈ Epoch.votes_in_order (pending_votes s1) ↔ e ∈ Epoch.votes_in_order (pending_votes s2)) as E.
  { apply (fmap_same_inj pending_vote_leaf (λ e, is_int 4 e.1.1 ∧ is_hash e.1.2 ∧ vote_wf e.2)); [| | |same_at 5%nat].
    - intros [[v r] d] [[v' r'] d'] (Hv & Hr & Hd) (Hv' & Hr' & Hd') E%(f_equal snd). cbn [fst snd pending_vote_leaf] in *.
      apply (framed_int 4) in E as [-> E]; [|done..]. apply framed_hash in E as [-> E]; [|done..].
      by rewrite (framed_inj _ _ _ _ framed_vote Hd Hd' E).
    - intros [[v r] d] Hx. unfold Epoch.votes_in_order in Hx. rewrite merge_sort_Permutation in Hx.
      apply elem_of_map_to_list in Hx. by apply (fw_votes _ H1) in Hx.
    - intros [[v r] d] Hx. unfold Epoch.votes_in_order in Hx. rewrite merge_sort_Permutation in Hx.
      apply elem_of_map_to_list in Hx. by apply (fw_votes _ H2) in Hx. }
  apply map_eq. intros k. apply option_eq. intros d. rewrite <- !elem_of_map_to_list.
  specialize (E (k, d)). unfold Epoch.votes_in_order in E. by rewrite !merge_sort_Permutation in E.
Qed.

Lemma elem_of_recent s v sl root :
  (v, sl, root) ∈ recent_votes s ↔ ∃ m, fc_recent_votes s !! v = Some m ∧ m !! sl = Some root.
Proof.
  unfold recent_votes. rewrite list_elem_of_bind. split.
  - intros ([v' m] & Hl & Hc%elem_of_items). apply list_elem_of_fmap in Hl as ([sl' r'] & [= -> -> ->] & Hl%elem_of_items).
    by exists m.
  - intros (m & Hm & Hr). exists (v, m). split; [|by apply elem_of_items]. apply list_elem_of_fmap.
    exists (sl, root). by rewrite elem_of_items.
Qed.

Definition recent_wf (e : Z * Z * hash) : Prop := is_int 4 e.1.1 ∧ is_int 8 e.1.2 ∧ is_hash e.2.
Lemma recent_votes_wf s e : fields_wf s → e ∈ recent_votes s → recent_wf e.
Proof.
  destruct e as [[v sl] root]. intros Hw (m & Hm & Hr)%elem_of_recent. apply (fw_recent _ Hw) in Hm as [Hv Hm].
  by apply Hm in Hr as [? ?].
Qed.
Lemma recent_leaf_inj a b : recent_wf a → recent_wf b → recent_vote_leaf a = recent_vote_leaf b → a = b.
Proof.
  destruct a as [[v sl] r], b as [[v' sl'] r']. intros (Hv & Hl & Hr) (Hv' & Hl' & Hr') E%(f_equal snd).
  cbn [fst snd recent_vote_leaf] in *. apply (framed_int 4) in E as [-> E]; [|done..].
  apply (framed_int 8) in E as [-> E]; [|done..]. by rewrite (framed_inj _ _ _ _ framed_hash Hr Hr' E).
Qed.
Lemma recent_same e : e ∈ recent_votes s1 ↔ e ∈ recent_votes s2.
Proof.
  apply (fmap_same_inj recent_vote_leaf recent_wf); [apply recent_leaf_inj| | |same_at 8%nat];
    intros x Hx; [by apply (recent_votes_wf s1)|by apply (recent_votes_wf s2)].
Qed.

Lemma written_same : written_off_sat s1 = written_off_sat s2.
Proof.
  destruct (single_same_inj (negb (written_off_sat s1 =? 0)) (negb (written_off_sat s2 =? 0))
    (le_bytes 16 (written_off_sat s1)) (le_bytes 16 (written_off_sat s2))) as [Hb Hx]; [same_at 9%nat|].
  destruct (Z.eqb_spec (written_off_sat s1) 0), (Z.eqb_spec (written_off_sat s2) 0); try done; [congruence|].
  eapply framed_inj; [apply (framed_int 16)|by apply fw_written..|by apply Hx].
Qed.

Lemma generations_same v : get0 (randao_generations s1) v = get0 (randao_generations s2) v.
Proof.
  set (f := filter (λ vg : Z * Z, vg.2 ≠ 0) : gmap Z Z → gmap Z Z).
  assert (∀ s, fields_wf s → map_Forall (λ k x, is_int 4 k ∧ is_int 4 x) (f (randao_generations s))) as Hf.
  { intros s Hw k x [Hx _]%map_lookup_filter_Some. by apply (fw_generations _ Hw). }
  assert (f (randao_generations s1) = f (randao_generations s2)) as E.
  { apply (items_same_inj (plain_leaf 4 (le_bytes 4)) (λ a, is_int 4 a.1 ∧ is_int 4 a.2)); [|by apply Hf..|same_at 12%nat].
    intros a b. apply (plain_leaf_inj 4 (le_bytes 4) (is_int 4)). intros x y. apply framed_inj, framed_int. }
  assert (∀ m : gmap Z Z, get0 m v = get0 (f m) v) as Hg; [|by rewrite (Hg (randao_generations s1)), E, <- Hg].
  intros m. unfold get0, f. destruct (m !! v) as [x|] eqn:Hx.
  - destruct (decide (x = 0)) as [->|].
    + rewrite map_lookup_filter_None_2; [done|]. right. intros y Hy. rewrite Hx in Hy. injection Hy as <-. by intros [].
    + by rewrite (map_lookup_filter_Some_2 _ _ v x).
  - by rewrite map_lookup_filter_None_2 by (by left).
Qed.

Definition deposit_wf (d : Staking.QueuedDeposit) : Prop :=
  is_hash (Staking.pubkey_hash d) ∧ is_int 8 (Staking.deposit_epoch d) ∧ is_int 16 (Staking.q_amount_sat d).
Lemma deposits_same d : d ∈ deposit_history s1 ↔ d ∈ deposit_history s2.
Proof.
  apply (fmap_same_inj deposit_leaf deposit_wf); [| | |same_at 13%nat].
  - intros [h e x] [h' e' x'] (Hh & He & Hx) (Hh' & He' & Hx') E%(f_equal snd).
    cbn [snd deposit_leaf Staking.pubkey_hash Staking.deposit_epoch Staking.q_amount_sat] in *.
    apply framed_hash in E as [-> E]; [|done..]. apply (framed_int 8) in E as [-> E]; [|done..].
    by rewrite (framed_inj _ _ _ _ (framed_int 16) Hx Hx' E).
  - apply Forall_forall, (fw_deposits _ H1).
  - apply Forall_forall, (fw_deposits _ H2).
Qed.

Lemma elem_of_delegation_leaves ds l :
  l ∈ delegation_leaves ds ↔ ∃ i d, ds !! i = Some d ∧ l = keyed_leaf 8 delegation_bytes (Z.of_nat i, d).
Proof.
  unfold delegation_leaves. rewrite elem_of_lookup_imap. naive_solver.
Qed.
Lemma delegations_incl sa sb (Ha : fields_wf sa) (Hb : fields_wf sb) (Hss : same_leaves sa sb) i d :
  delegations sa !! i = Some d → delegations sb !! i = Some d.
Proof.
  intros Hd. pose proof (lookup_lt_Some _ _ _ Hd) as Hlt.
  assert (keyed_leaf 8 delegation_bytes (Z.of_nat i, d) ∈ delegation_leaves (delegations sb))
    as (j & d' & Hd' & E)%elem_of_delegation_leaves.
  { refine (proj1 (component_same sa sb 14%nat TAG_DELEGATION _ _ Hss eq_refl eq_refl _) _).
    apply elem_of_delegation_leaves. eauto. }
  pose proof (lookup_lt_Some _ _ _ Hd') as Hlt'.
  apply (keyed_leaf_inj 8 delegation_bytes delegation_wf) in E as [= Ei ->]; [|apply framed_delegation|..].
  - by rewrite (Nat2Z.inj _ _ Ei).
  - pose proof (fw_positions _ Ha). split; [unfold is_int in *; cbn [fst]; lia|].
    apply (Forall_lookup_1 _ _ _ _ (fw_delegations _ Ha) Hd).
  - pose proof (fw_positions _ Hb). split; [unfold is_int in *; cbn [fst]; lia|].
    apply (Forall_lookup_1 _ _ _ _ (fw_delegations _ Hb) Hd').
Qed.
Lemma delegations_same : delegations s1 = delegations s2.
Proof.
  apply list_eq. intros i. apply option_eq. intros d.
  split; apply delegations_incl; auto using same_leaves_sym.
Qed.

(** A component of one leaf that is always there. *)
Lemma single_same (i : nat) t (f : CommittedState → list Z) :
  (∀ s, components s !! i = Some (t, single true (f s))) → f s1 = f s2.
Proof.
  intros Hi. destruct (single_same_inj true true (f s1) (f s2)) as [_ E]; [|by apply E].
  by apply (component_same s1 s2 i t).
Qed.

Lemma evm_same : evm s1 = evm s2.
Proof.
  assert (evm_serialize (evm s1) = evm_serialize (evm s2)) as E by (by apply (single_same 21 TAG_EVM_COMMITMENT (λ s, evm_serialize (evm s)))).
  pose proof (fw_evm _ H1) as (A1 & B1 & C1 & D1). pose proof (fw_evm _ H2) as (A2 & B2 & C2 & D2).
  unfold evm_serialize in E. apply framed_hash in E as [Ea E]; [|done..]. apply framed_hash in E as [Eb E]; [|done..].
  apply (framed_int 8) in E as [Ec E]; [|done..]. apply (framed_inj _ _ _ _ (framed_int 8) D1 D2) in E.
  destruct (evm s1), (evm s2). cbn in *. congruence.
Qed.

Lemma base_fee_same :
  base_fee_millisat_per_gas s1 = base_fee_millisat_per_gas s2 ∧ block_gas_used s1 = block_gas_used s2 ∧
  block_tx_bytes s1 = block_tx_bytes s2.
Proof.
  assert (base_fee_serialize s1 = base_fee_serialize s2) as E by (by apply (single_same 26 TAG_BASE_FEE base_fee_serialize)).
  pose proof (fw_base_fee _ H1) as (A1 & B1 & C1). pose proof (fw_base_fee _ H2) as (A2 & B2 & C2).
  unfold base_fee_serialize in E. apply (framed_int 16) in E as [Ea E]; [|done..]. apply (framed_int 8) in E as [Eb E]; [|done..].
  by apply (framed_inj _ _ _ _ (framed_int 8) C1 C2) in E.
Qed.

Lemma l2_same : l2_committed_bytes <$> l2_settlement s1 = l2_committed_bytes <$> l2_settlement s2.
Proof.
  assert (∀ l, l ∈ match l2_settlement s1 with Some l2 => [([], l2_committed_bytes l2)] | None => [] end
    ↔ l ∈ match l2_settlement s2 with Some l2 => [([], l2_committed_bytes l2)] | None => [] end) as E by same_at 31%nat.
  destruct (l2_settlement s1) as [a|], (l2_settlement s2) as [b|]; cbn.
  - apply (single_same_inj true true) in E as [_ E]. by rewrite E.
  - by apply (single_same_inj true false _ []) in E as [? _].
  - by apply (single_same_inj false true []) in E as [? _].
  - done.
Qed.

Lemma elem_of_kes_leaves s l :
  l ∈ kes_leaves s ↔ (∃ v e, kes s !! v = Some e ∧ l = plain_leaf 4 Kes.entry_bytes (v, e)) ∨
                      ∃ e, kes_enforced_from s = Some e ∧ l = (ENFORCED_KEY, le_bytes 8 e).
Proof.
  unfold kes_leaves. rewrite elem_of_app.
  assert (∀ A B C D : Prop, (A ↔ B) → (C ↔ D) → (A ∨ C ↔ B ∨ D)) as Hor by tauto. apply Hor.
  - rewrite list_elem_of_fmap. split.
    + intros ([v e] & -> & Hx%elem_of_items). eauto.
    + intros (v & e & Hx & ->). exists (v, e). by rewrite elem_of_items.
  - destruct (kes_enforced_from s) as [e|]; [|by rewrite elem_of_nil; naive_solver].
    rewrite list_elem_of_singleton. naive_solver.
Qed.

Lemma kes_key_ne v e e' : plain_leaf 4 Kes.entry_bytes (v, e) ≠ (ENFORCED_KEY, e').
Proof. intros E%(f_equal (λ l, length l.1)). cbn [plain_leaf fst] in E. by rewrite length_le_bytes in E. Qed.

Lemma kes_incl sa sb (Ha : fields_wf sa) (Hb : fields_wf sb) (Hss : same_leaves sa sb) v e :
  kes sa !! v = Some e → kes sb !! v = Some e.
Proof.
  intros He. assert (plain_leaf 4 Kes.entry_bytes (v, e) ∈ kes_leaves sb) as Hin.
  { refine (proj1 (component_same sa sb 32%nat TAG_KES_ROOT _ _ Hss eq_refl eq_refl _) _).
    apply elem_of_kes_leaves. left. eauto. }
  apply elem_of_kes_leaves in Hin as [(v' & e' & He' & E)|(x & _ & E)]; [|by apply kes_key_ne in E].
  apply (plain_leaf_inj 4 Kes.entry_bytes kes_entry_wf) in E as [= -> ->]; [done|apply kes_entry_inj|..].
  - by apply (fw_kes _ Ha).
  - by apply (fw_kes _ Hb).
Qed.
Lemma enforced_incl sa sb (Ha : fields_wf sa) (Hb : fields_wf sb) (Hss : same_leaves sa sb) e :
  kes_enforced_from sa = Some e → kes_enforced_from sb = Some e.
Proof.
  intros He. assert ((ENFORCED_KEY, le_bytes 8 e) ∈ kes_leaves sb) as Hin.
  { refine (proj1 (component_same sa sb 32%nat TAG_KES_ROOT _ _ Hss eq_refl eq_refl _) _).
    apply elem_of_kes_leaves. right. eauto. }
  apply elem_of_kes_leaves in Hin as [(v' & e' & _ & E)|(x & Hx & E)]; [symmetry in E; by apply kes_key_ne in E|].
  apply (f_equal snd) in E. cbn [snd] in E. pose proof (fw_enforced _ Ha) as Wa. pose proof (fw_enforced _ Hb) as Wb.
  rewrite He in Wa. rewrite Hx in Wb. by rewrite (framed_inj _ _ _ _ (framed_int 8) Wa Wb E).
Qed.
Lemma kes_same : kes s1 = kes s2 ∧ kes_enforced_from s1 = kes_enforced_from s2.
Proof.
  split.
  - apply map_eq. intros v. apply option_eq. intros e. split; apply kes_incl; auto using same_leaves_sym.
  - apply option_eq. intros e. split; apply enforced_incl; auto using same_leaves_sym.
Qed.

Lemma rescue_same : pq_rescue_commits s1 = pq_rescue_commits s2.
Proof.
  apply (items_same_inj (λ ce, (hash_bytes ce.1, le_bytes 8 ce.2)) (λ ce, is_hash ce.1 ∧ is_int 8 ce.2));
    [|by apply fw_rescue|by apply fw_rescue|same_at 33%nat].
  intros [c e] [c' e'] [Hc He] [Hc' He'] E. cbn [fst snd] in *. pose proof (f_equal fst E) as Ec. pose proof (f_equal snd E) as Ee.
  cbn [fst snd] in Ec, Ee. rewrite (framed_inj _ _ _ _ framed_hash Hc Hc' Ec).
  by rewrite (framed_inj _ _ _ _ (framed_int 8) He He' Ee).
Qed.

Lemma hash_single (i : nat) t (f : CommittedState → hash) :
  (∀ s, components s !! i = Some (t, single true (hash_bytes (f s)))) → is_hash (f s1) → is_hash (f s2) → f s1 = f s2.
Proof. intros Hi W1 W2. apply (framed_inj _ _ _ _ framed_hash W1 W2). by apply (single_same i t (λ s, hash_bytes (f s))). Qed.

(** A map of integers to values of [Q]. *)
Lemma keyed_same {X} (i : nat) t n (enc : X → list Z) (Q : X → Prop) (pr : CommittedState → gmap Z X) :
  (∀ s, components s !! i = Some (t, keyed_leaf n enc <$> items (pr s))) → framed Q enc →
  map_Forall (λ k x, is_int n k ∧ Q x) (pr s1) → map_Forall (λ k x, is_int n k ∧ Q x) (pr s2) → pr s1 = pr s2.
Proof.
  intros Hi Hf W1 W2. apply (items_same_inj (keyed_leaf n enc) (λ a, is_int n a.1 ∧ Q a.2)); [|done|done|].
  - intros a b. by apply keyed_leaf_inj.
  - by apply (component_same s1 s2 i t).
Qed.

Lemma set_same (i : nat) t (lf : Z → leaf) (P : Z → Prop) (pr : CommittedState → gset Z) :
  (∀ s, components s !! i = Some (t, lf <$> ascending (pr s))) → (∀ a b, P a → P b → lf a = lf b → a = b) →
  set_Forall P (pr s1) → set_Forall P (pr s2) → pr s1 = pr s2.
Proof. intros Hi Hf W1 W2. apply (ascending_same_inj lf P); [done..|]. by apply (component_same s1 s2 i t). Qed.

Lemma leaves_determine : agrees s1 s2.
Proof.
  assert (∀ (lf : Z → leaf), (∀ v, (lf v).1 = le_bytes 4 v) → ∀ a b, is_int 4 a → is_int 4 b → lf a = lf b → a = b) as Hle.
  { intros lf Hlf a b Ha Hb E%(f_equal fst). rewrite !Hlf in E. by apply (framed_inj _ _ _ _ (framed_int 4)). }
  destruct (fw_roots _ H1) as (T1 & A1 & N1), (fw_roots _ H2) as (T2 & A2 & N2).
  split.
  - apply validators_same.
  - by apply (keyed_same 1 TAG_PARTICIPATION_CURRENT 4 bool_byte any_value current_participation (λ _, eq_refl) framed_bool (fw_current _ H1) (fw_current _ H2)).
  - by apply (keyed_same 2 TAG_PARTICIPATION_PREVIOUS 4 bool_byte any_value previous_participation (λ _, eq_refl) framed_bool (fw_previous _ H1) (fw_previous _ H2)).
  - apply window_same.
  - apply finality_same.
  - apply pending_same.
  - by apply (keyed_same 6 TAG_FC_MESSAGE 4 _ _ latest_messages (λ _, eq_refl) framed_latest (fw_latest _ H1) (fw_latest _ H2)).
  - by apply (set_same 7 TAG_FC_EQUIVOCATOR fc_equivocator_leaf (is_int 4) fc_equivocators (λ _, eq_refl) (Hle fc_equivocator_leaf (λ _, eq_refl)) (fw_equivocators _ H1) (fw_equivocators _ H2)).
  - apply recent_same.
  - apply written_same.
  - by apply (set_same 10 TAG_FUNDED_VALIDATOR (λ v, (le_bytes 4 v, [1])) (is_int 4) funded_validators (λ _, eq_refl)
      (Hle (λ v, (le_bytes 4 v, [1])) (λ _, eq_refl)) (fw_funded _ H1) (fw_funded _ H2)).
  - apply (items_same_inj (plain_leaf 4 (le_bytes 16)) (λ a, is_int 4 a.1 ∧ is_int 16 a.2)); [|by apply fw_low..|same_at 11%nat].
    intros a b. apply (plain_leaf_inj 4 (le_bytes 16) (is_int 16)). intros x y. apply framed_inj, framed_int.
  - apply generations_same.
  - apply deposits_same.
  - apply delegations_same.
  - by apply (keyed_same 15 TAG_FUNDED_DELEGATION_OWNER 4 _ _ funded_delegation_owners (λ _, eq_refl) framed_hash (fw_owners _ H1) (fw_owners _ H2)).
  - by apply (keyed_same 16 TAG_FUNDED_DELEGATION_LIFECYCLE 4 _ _ funded_delegation_lifecycle (λ _, eq_refl) framed_lifecycle (fw_lifecycle _ H1) (fw_lifecycle _ H2)).
  - by apply (keyed_same 17 TAG_PENDING_FEE 4 _ _ pending_fee_rewards (λ _, eq_refl) (framed_int 16) (fw_pending _ H1) (fw_pending _ H2)).
  - split_and!; [by apply (hash_single 18 TAG_TAINT_ROOT)|by apply (hash_single 19 TAG_COHERENCE_ACCUMULATOR)
      |by apply (hash_single 20 TAG_COHERENCE_NULLIFIERS)].
  - apply evm_same.
  - apply (framed_inj _ _ _ _ (framed_int 16) (fw_issued _ H1) (fw_issued _ H2)).
    by apply (single_same 22 TAG_ISSUED_SUPPLY (λ s, le_bytes 16 (issued_sat s))).
  - split.
    + apply (set_same 23 TAG_SLASH_APPLIED applied_evidence_leaf is_hash (λ s, Slashing.applied (slashing s))); [done| |by apply fw_applied..].
      intros a b Ha Hb E%(f_equal fst). by apply (framed_inj _ _ _ _ framed_hash).
    + by apply (keyed_same 24 TAG_SLASH_WINDOW 8 _ _ (λ s, Slashing.window (slashing s)) (λ _, eq_refl) (framed_int 16) (fw_window _ H1) (fw_window _ H2)).
  - by apply (keyed_same 25 TAG_DELEGATOR_SLASH_LOSS 4 _ _ delegator_slash_losses (λ _, eq_refl) (framed_int 16) (fw_losses _ H1) (fw_losses _ H2)).
  - apply base_fee_same.
  - by apply (keyed_same 27 TAG_DELEGATOR_FEE_REWARD 4 _ _ delegator_fee_rewards (λ _, eq_refl) (framed_int 16) (fw_delegator_fees _ H1) (fw_delegator_fees _ H2)).
  - by apply (keyed_same 28 TAG_VALIDATOR_FEE_REWARD 4 _ _ validator_fee_rewards (λ _, eq_refl) (framed_int 16) (fw_validator_fees _ H1) (fw_validator_fees _ H2)).
  - by apply (keyed_same 29 TAG_DELEGATOR_ISSUANCE_REWARD 4 _ _ delegator_issuance_rewards (λ _, eq_refl) (framed_int 16) (fw_issuance _ H1) (fw_issuance _ H2)).
  - by apply (keyed_same 30 TAG_PROPOSED_CURRENT 4 bool_byte any_value current_proposed (λ _, eq_refl) framed_bool (fw_proposed _ H1) (fw_proposed _ H2)).
  - apply l2_same.
  - apply kes_same.
  - apply rescue_same.
Qed.
End determine.

(** ** One leaf per key *)

Definition functional (g : list leaf) : Prop := ∀ k v1 v2, (k, v1) ∈ g → (k, v2) ∈ g → v1 = v2.

Lemma functional_fmap {A} (lf : A → leaf) (l : list A) :
  (∀ a b, a ∈ l → b ∈ l → (lf a).1 = (lf b).1 → a = b) → functional (lf <$> l).
Proof.
  intros Hl k v1 v2 (a & Ea & Ha)%list_elem_of_fmap (b & Eb & Hb)%list_elem_of_fmap.
  assert (a = b) as -> by (apply Hl; [done..|]; by rewrite <- Ea, <- Eb). congruence.
Qed.

Lemma functional_items {X} n (lf : Z * X → leaf) (Q : X → Prop) (m : gmap Z X) :
  (∀ e, (lf e).1 = le_bytes n e.1) → map_Forall (λ k x, is_int n k ∧ Q x) m → functional (lf <$> items m).
Proof.
  intros Hlf Hm. apply functional_fmap. intros [k x] [k' x'] Hx%elem_of_items Hx'%elem_of_items E. rewrite !Hlf in E.
  apply (framed_inj _ _ _ _ (framed_int n)) in E; [|by apply Hm in Hx as []|by apply Hm in Hx' as []]. cbn in E. congruence.
Qed.

Lemma functional_ascending (lf : Z → leaf) (P : Z → Prop) (X : gset Z) :
  (∀ a b, P a → P b → (lf a).1 = (lf b).1 → a = b) → set_Forall P X → functional (lf <$> ascending X).
Proof. intros Hlf HX. apply functional_fmap. intros a b Ha%elem_of_ascending Hb%elem_of_ascending. auto. Qed.

Lemma functional_single b x : functional (single b x).
Proof. intros k v1 v2. destruct b; cbn; [|by rewrite elem_of_nil]. rewrite !list_elem_of_singleton. congruence. Qed.

Lemma functional_validators s : fields_wf s → functional (validator_leaf <$> committed_validators s).
Proof.
  intros Hw. apply functional_fmap. intros a b Ha Hb E.
  pose proof (fw_validators _ Hw a Ha) as [Wa _]. pose proof (fw_validators _ Hw b Hb) as [Wb _].
  cbn [validator_leaf fst] in E. apply (framed_inj _ _ _ _ (framed_int 4) Wa Wb) in E.
  unfold committed_validators in Ha, Hb. rewrite <- list_fmap_compose in Ha, Hb.
  apply list_elem_of_fmap in Ha as ([k r] & -> & Hr%elem_of_items). apply list_elem_of_fmap in Hb as ([k' r'] & -> & Hr'%elem_of_items).
  cbn in E |- *. rewrite (fw_index _ Hw k r Hr), (fw_index _ Hw k' r' Hr') in E. congruence.
Qed.

Lemma functional_pending s : fields_wf s → functional (pending_vote_leaf <$> Epoch.votes_in_order (pending_votes s)).
Proof.
  intros Hw. apply functional_fmap. intros [[v r] d] [[v' r'] d'] Hx Hx' E. unfold Epoch.votes_in_order in Hx, Hx'.
  rewrite merge_sort_Permutation in Hx, Hx'. apply elem_of_map_to_list in Hx, Hx'. cbn [fst pending_vote_leaf] in E.
  pose proof (fw_votes _ Hw _ _ Hx) as (Wv & Wr & _). pose proof (fw_votes _ Hw _ _ Hx') as (Wv' & Wr' & _). cbn in Wv, Wr, Wv', Wr'.
  apply (framed_int 4) in E as [-> E]; [|done..]. apply (framed_inj _ _ _ _ framed_hash Wr Wr') in E as ->. congruence.
Qed.

Lemma functional_recent s : fields_wf s → functional (recent_vote_leaf <$> recent_votes s).
Proof.
  intros Hw. apply functional_fmap. intros [[v sl] r] [[v' sl'] r'] Hx Hx' E.
  pose proof (recent_votes_wf _ _ Hw Hx) as (Wv & Ws & _). pose proof (recent_votes_wf _ _ Hw Hx') as (Wv' & Ws' & _).
  cbn [fst snd recent_vote_leaf] in *. apply (framed_int 4) in E as [-> E]; [|done..].
  apply (framed_inj _ _ _ _ (framed_int 8) Ws Ws') in E as ->.
  apply elem_of_recent in Hx as (m & Hm & Hr), Hx' as (m' & Hm' & Hr'). congruence.
Qed.

Lemma functional_deposits s : fields_wf s → functional (deposit_leaf <$> deposit_history s).
Proof.
  intros Hw. apply functional_fmap. intros a b (i & Hi)%list_elem_of_lookup (j & Hj)%list_elem_of_lookup E.
  pose proof (Forall_lookup_1 _ _ _ _ (fw_deposits _ Hw) Hi) as [Wa _]. pose proof (Forall_lookup_1 _ _ _ _ (fw_deposits _ Hw) Hj) as [Wb _].
  apply (framed_inj _ _ _ _ framed_hash Wa Wb) in E.
  assert (i = j) as ->; [|congruence]. apply (NoDup_lookup _ i j (Staking.pubkey_hash a) (fw_deposit_keys _ Hw)).
  - by rewrite list_lookup_fmap, Hi.
  - by rewrite list_lookup_fmap, Hj, E.
Qed.

Lemma functional_delegations s : fields_wf s → functional (delegation_leaves (delegations s)).
Proof.
  intros Hw k v1 v2 (i & d & Hd & E)%elem_of_delegation_leaves (j & d' & Hd' & E')%elem_of_delegation_leaves.
  pose proof (f_equal fst E) as Ei. pose proof (f_equal fst E') as Ej. cbn [fst keyed_leaf] in Ei, Ej. subst k.
  pose proof (fw_positions _ Hw). apply lookup_lt_Some in Hd as Hi. apply lookup_lt_Some in Hd' as Hj.
  apply (framed_inj _ _ _ _ (framed_int 8)) in Ej; [|unfold is_int in *; lia..]. apply Nat2Z.inj in Ej as ->. congruence.
Qed.

Lemma functional_kes s : fields_wf s → functional (kes_leaves s).
Proof.
  intros Hw k v1 v2 [(v & e & He & E)|(e & He & E)]%elem_of_kes_leaves [(v' & e' & He' & E')|(e' & He' & E')]%elem_of_kes_leaves.
  - pose proof (f_equal fst E) as Ek. rewrite (f_equal fst E' : k = _) in Ek. cbn [fst plain_leaf] in Ek.
    apply (framed_inj _ _ _ _ (framed_int 4)) in Ek; [|by apply (fw_kes _ Hw) in He' as []|by apply (fw_kes _ Hw) in He as []].
    congruence.
  - injection E' as -> _. symmetry in E. by apply kes_key_ne in E.
  - injection E as -> _. symmetry in E'. by apply kes_key_ne in E'.
  - congruence.
Qed.

Lemma components_functional s : fields_wf s → Forall (λ c, functional c.2) (components s).
Proof.
  intros Hw.
  assert (∀ (lf : Z → leaf), (∀ v, (lf v).1 = le_bytes 4 v) → ∀ a b, is_int 4 a → is_int 4 b → (lf a).1 = (lf b).1 → a = b) as Hle.
  { intros lf Hlf a b Ha Hb E. rewrite !Hlf in E. by apply (framed_inj _ _ _ _ (framed_int 4)). }
  unfold components. repeat (apply Forall_cons; split); [..|by apply Forall_nil]; cbn [snd]; try apply functional_single.
  - by apply functional_validators.
  - by apply (functional_items 4 _ any_value); [|apply fw_current].
  - by apply (functional_items 4 _ any_value); [|apply fw_previous].
  - apply (functional_items 8 _ is_hash); [done|by apply window_wf].
  - by apply functional_pending.
  - by eapply (functional_items 4); [|by apply fw_latest].
  - by apply (functional_ascending _ (is_int 4)); [apply Hle|apply fw_equivocators].
  - by apply functional_recent.
  - by apply (functional_ascending _ (is_int 4)); [apply Hle|apply fw_funded].
  - by eapply (functional_items 4); [|by apply fw_low].
  - eapply (functional_items 4 _ (is_int 4)); [done|]. intros k x [Hx _]%map_lookup_filter_Some. by apply (fw_generations _ Hw).
  - by apply functional_deposits.
  - by apply functional_delegations.
  - by eapply (functional_items 4); [|by apply fw_owners].
  - by eapply (functional_items 4); [|by apply fw_lifecycle].
  - by eapply (functional_items 4); [|by apply fw_pending].
  - apply (functional_ascending _ is_hash); [|by apply fw_applied]. intros a b Ha Hb E. by apply (framed_inj _ _ _ _ framed_hash).
  - by eapply (functional_items 8); [|by apply fw_window].
  - by eapply (functional_items 4); [|by apply fw_losses].
  - by eapply (functional_items 4); [|by apply fw_delegator_fees].
  - by eapply (functional_items 4); [|by apply fw_validator_fees].
  - by eapply (functional_items 4); [|by apply fw_issuance].
  - by apply (functional_items 4 _ any_value); [|apply fw_proposed].
  - destruct (l2_settlement s); [apply (functional_single true)|apply (functional_single false [])].
  - by apply functional_kes.
  - apply functional_fmap. intros [c e] [c' e'] Hx%elem_of_items Hx'%elem_of_items E. cbn [fst] in E.
    pose proof (fw_rescue _ Hw _ _ Hx) as [Wc _]. pose proof (fw_rescue _ Hw _ _ Hx') as [Wc' _].
    apply (framed_inj _ _ _ _ framed_hash Wc Wc') in E as ->. congruence.
Qed.

(** ** The tree holds the leaves *)

Section tree.
Context {HS : Sha3} (X : gset Utxo.Outpoint) `{!Utxo.DistinctKeys X}.
Implicit Types l : Z * leaf.

Definition utxo_leaf (e : Utxo.EutxoEntry) : Z * leaf := (Utxo.TAG_EUTXO, (Utxo.entry_key e, Utxo.serialize e)).

(** A leaf of the state: of a component or of an output. *)
Definition state_leaf s l : Prop := l ∈ tagged s ∨ ∃ o e, Utxo.entries (eutxos s) !! o = Some e ∧ l = utxo_leaf e.

(** SHA3 does not collide on the keys, or on the values, of these leaves. *)
Definition collision_free (P : Z * leaf → Prop) : Prop :=
  ∀ a b, P a → P b →
    (leaf_at a = leaf_at b → a.1 = b.1 ∧ a.2.1 = b.2.1) ∧ (Smt.hash_value a.2.2 = Smt.hash_value b.2.2 → a.2.2 = b.2.2).

Lemma tagged_functional s a b : fields_wf s → a ∈ tagged s → b ∈ tagged s → a.1 = b.1 → a.2.1 = b.2.1 → a = b.
Proof.
  destruct a as [t [k v]], b as [t' [k' v']]. cbn. intros Hw Ha Hb -> ->.
  apply elem_of_tagged in Ha as (g & Hg & Ha), Hb as (g' & Hg' & Hb). rewrite (component_unique _ _ _ _ Hg' Hg) in Hb.
  pose proof (components_functional s Hw) as Hf. rewrite Forall_forall in Hf.
  by rewrite (Hf _ Hg k' v v' Ha Hb).
Qed.

Lemma tagged_not_utxo s l : l ∈ tagged s → l.1 ≠ Utxo.TAG_EUTXO.
Proof.
  destruct l as [t lf]. intros (g & Hg & _)%elem_of_tagged. cbn. intros ->.
  assert (Utxo.TAG_EUTXO ∈ component_tags) as Ht.
  { rewrite <- (components_tags s). apply list_elem_of_fmap. by exists (Utxo.TAG_EUTXO, g). }
  revert Ht. apply (bool_decide_unpack _). vm_compute. done.
Qed.

Lemma fold_inserts (ls : list (Z * leaf)) (m : gmap hash hash) k :
  (∀ a b, a ∈ ls → b ∈ ls → leaf_at a = leaf_at b → a = b) →
  foldl Smt.map_op m (leaf_op <$> ls) !! k
  = match list_find (λ l, leaf_at l = k) ls with Some (_, l) => Some (Smt.hash_value l.2.2) | None => m !! k end.
Proof.
  revert m. induction ls as [|l ls IH]; intros m Hd; cbn [foldl fmap list_fmap]; [done|].
  rewrite IH by (intros a b Ha Hb; apply Hd; by right). cbn [list_find Smt.map_op leaf_op].
  destruct (decide (leaf_at l = k)) as [Ek|Ek].
  - destruct (list_find (λ l, leaf_at l = k) ls) as [[i l']|] eqn:E.
    + apply list_find_Some in E as (Hl' & Ek' & _). rewrite (Hd l l'); [done|by left|right; by eapply list_elem_of_lookup_2|congruence].
    + subst k. by rewrite lookup_insert_eq.
  - destruct (list_find (λ l, leaf_at l = k) ls) as [[i l']|]; [done|]. by rewrite lookup_insert_ne.
Qed.

Record tree_wf s : Prop := {
  tw_fields : fields_wf s;
  tw_outputs : Utxo.set_wf X (eutxos s);
  tw_collision : collision_free (state_leaf s);
}.

Lemma utxo_lookup s k v : tree_wf s →
  Utxo.leaves (Utxo.entries (eutxos s)) !! k = Some v ↔
  ∃ o e, Utxo.entries (eutxos s) !! o = Some e ∧ leaf_at (utxo_leaf e) = k ∧ Smt.hash_value (Utxo.serialize e) = v.
Proof.
  intros [_ Ho _]. rewrite (Utxo.lookup_leaves X) by apply Ho.
  split; intros (o & e & He & <- & <-); exists o, e; split_and!; try done; unfold leaf_at, utxo_leaf, Utxo.leaf_key; cbn [fst snd];
    unfold Utxo.entry_key; by rewrite (Utxo.wf_keyed _ _ Ho _ _ He).
Qed.

(** The tree of the state, as a map. *)
Lemma compute_tree_lookup s :
  (∀ bs, is_hash (sha3_256 bs)) → tree_wf s →
  ∃ t m, compute_tree s = Some t ∧ Smt.tree_of t m ∧
    ∀ k v, m !! k = Some v ↔ ∃ l, state_leaf s l ∧ leaf_at l = k ∧ Smt.hash_value l.2.2 = v.
Proof.
  intros Hsha Hw. pose proof Hw as [Hf Ho Hc].
  assert (∀ a b, a ∈ tagged s → b ∈ tagged s → leaf_at a = leaf_at b → a = b) as Hd.
  { intros a b Ha Hb E. destruct (Hc a b) as [[? ?] _]; [by left|by left|done|]. by apply (tagged_functional s). }
  destruct (Smt.apply_ops_tree (leaf_op <$> tagged s) (Utxo.tree (eutxos s)) _ (Utxo.wf_tree _ _ Ho)) as (t & Et & Ht).
  { apply Forall_fmap, Forall_forall. intros l _. apply Hsha. }
  eexists t, _. split; [done|]. split; [exact Ht|]. intros k v.
  rewrite fold_inserts by done. destruct (list_find (λ l, leaf_at l = k) (tagged s)) as [[i l]|] eqn:E.
  - apply list_find_Some in E as (Hl%list_elem_of_lookup_2 & Ek & _). split.
    + intros [= <-]. exists l. split_and!; [by left|done..].
    + intros (l' & Hl' & Ek' & <-). destruct (Hc l l') as [[Et1 Ek1] _]; [by left|done|congruence|].
      destruct Hl' as [Hl'|(o & e & _ & ->)]; [by rewrite (tagged_functional s l l')|]. by destruct (tagged_not_utxo s l Hl).
  - apply list_find_None in E. rewrite Forall_forall in E. split.
    + intros (o & e & He & <- & <-)%(utxo_lookup s); [|done]. exists (utxo_leaf e). split; [|done]. right. eauto.
    + intros (l & [Hl|(o & e & He & ->)] & Ek & <-); [by destruct (E l Hl)|]. apply utxo_lookup; [done|]. eauto.
Qed.

(** The outputs of the state within their widths. *)
Definition outputs_wf s : Prop := map_Forall (λ _ e, is_hash (Utxo.e_txid e) ∧ is_int 4 (Utxo.e_vout e) ∧
  is_int 8 (Utxo.e_value e) ∧ is_hash (Utxo.e_script_hash e)) (Utxo.entries (eutxos s)).

Lemma output_bytes_inj e1 e2 :
  is_hash (Utxo.e_txid e1) ∧ is_int 4 (Utxo.e_vout e1) ∧ is_int 8 (Utxo.e_value e1) ∧ is_hash (Utxo.e_script_hash e1) →
  is_hash (Utxo.e_txid e2) ∧ is_int 4 (Utxo.e_vout e2) ∧ is_int 8 (Utxo.e_value e2) ∧ is_hash (Utxo.e_script_hash e2) →
  Utxo.serialize e1 = Utxo.serialize e2 → e1 = e2.
Proof.
  destruct e1 as [t1 v1 x1 h1], e2 as [t2 v2 x2 h2]. intros (A1 & B1 & C1 & D1) (A2 & B2 & C2 & D2) E.
  unfold Utxo.serialize in E. cbn [Utxo.e_txid Utxo.e_vout Utxo.e_value Utxo.e_script_hash] in *.
  apply framed_hash in E as [-> E]; [|done..]. apply (framed_int 4) in E as [-> E]; [|done..].
  apply (framed_int 8) in E as [-> E]; [|done..]. by rewrite (framed_inj _ _ _ _ framed_hash D1 D2 E).
Qed.

(** Every leaf of one state is a leaf of the other. *)
Lemma same_tree_incl s1 s2 t l :
  (∀ bs, is_hash (sha3_256 bs)) → tree_wf s1 → tree_wf s2 → collision_free (λ x, state_leaf s1 x ∨ state_leaf s2 x) →
  compute_tree s1 = Some t → compute_tree s2 = Some t → state_leaf s1 l → state_leaf s2 l.
Proof.
  intros Hsha H1 H2 Hc E1 E2 Hl. destruct (compute_tree_lookup s1 Hsha H1) as (t1 & m1 & E1' & Ht1 & Hm1).
  destruct (compute_tree_lookup s2 Hsha H2) as (t2 & m2 & E2' & Ht2 & Hm2).
  assert (m1 !! leaf_at l = m2 !! leaf_at l) as Em.
  { assert (t1 = t2) as -> by congruence.
    pose proof (Smt.get_from_canonical 0 _ _ (leaf_at l) (proj1 Ht1) ltac:(unfold Smt.TREE_DEPTH; lia)) as G1.
    pose proof (Smt.get_from_canonical 0 _ _ (leaf_at l) (proj1 Ht2) ltac:(unfold Smt.TREE_DEPTH; lia)) as G2. congruence. }
  assert (m2 !! leaf_at l = Some (Smt.hash_value l.2.2)) as (l' & Hl' & Ek & Ev)%Hm2.
  { rewrite <- Em. apply Hm1. eauto. }
  destruct (Hc l' l) as [Hk Hv]; [by right|by left|]. destruct (Hk Ek) as [Et Ek']. specialize (Hv Ev).
  destruct l as [? [? ?]], l' as [? [? ?]]. cbn in *. by subst.
Qed.
End tree.

(** ** Theorems *)

Section theorems.
Context {HS : Sha3} {HK : Keccak} {HX : Xof} {HH : Shake32} (fuel : nat) {G : Gates} {R : Rules} {B : Settlement.Build}.
Context (built : option Settlement.Activation) (X : gset Utxo.Outpoint) `{!Utxo.DistinctKeys X}.
Implicit Types l : Z * leaf.

Lemma apply_block_Ret pre envelope v atts txs post t :
  Block.compute_post_state fuel built pre envelope v atts txs = Ret post → compute_tree post = Some t →
  Smt.root t = Header.state_root (Slashing.env_header envelope) → apply_block fuel built pre envelope v atts txs = Ret post.
Proof.
  intros E Et Er. unfold apply_block. rewrite E. cbn [mbind outcome_bind]. unfold compute_root. rewrite Et.
  cbn [fmap option_fmap option_map]. rewrite Er. cbn. by rewrite Z.eqb_refl.
Qed.

(** C5: an accepted block commits its header to the whole state.  When [apply_block]
    accepts, the state is the one [compute_post_state] gives, and every leaf of it (of every
    component, and of every output) has an inclusion proof that verifies against the state
    root in the header; every key that is no leaf's has an absence proof.  The fields of
    the state must be within their widths, its set of outputs in step with its views, and
    SHA3 must not collide on the keys and values of its leaves ([tree_wf]). *)
Theorem header_commits_state pre envelope v atts txs post :
  apply_block fuel built pre envelope v atts txs = Ret post →
  (∀ bs, is_hash (sha3_256 bs)) → tree_wf X post →
  let root := Header.state_root (Slashing.env_header envelope) in
  Block.compute_post_state fuel built pre envelope v atts txs = Ret post ∧
  (∀ l, state_leaf post l → ∃ p, Smt.verify_inclusion root (leaf_at l) (Smt.hash_value l.2.2) p = true) ∧
  (∀ k, is_hash k → (∀ l, state_leaf post l → leaf_at l ≠ k) → ∃ p, Smt.verify_absence root k p = true).
Proof.
  intros E Hsha Hw root. unfold apply_block in E. outcome_inv E. injection E as <-. boolp. split; [done|].
  rename select (compute_root _ = _) into Er. unfold compute_root in Er.
  destruct (compute_tree_lookup X _ Hsha Hw) as (t & m & Et & (Ht & _ & Hok) & Hm). rewrite Et in Er. injection Er as <-.
  rename select (Smt.root t = _) into Er. subst root. rewrite <- Er. split.
  - intros l Hl. assert (m !! leaf_at l = Some (Smt.hash_value l.2.2)) as Hl' by (apply Hm; eauto).
    pose proof (Smt.prove_from_spec 0 _ _ (leaf_at l) Ht ltac:(unfold Smt.TREE_DEPTH; lia)) as Hp. rewrite Hl' in Hp.
    destruct Hp as (p & _ & Hlen & Hcl). exists p. unfold Smt.verify_inclusion, Smt.root. rewrite Hlen, Hcl. apply Z.eqb_refl.
  - intros k Hk Hno. pose proof (Smt.prove_absence_from_spec 0 _ _ k Ht ltac:(unfold Smt.TREE_DEPTH; lia) Hok Hk) as Hp.
    destruct (m !! k) as [w|] eqn:Em; [apply Hm in Em as (l & Hl & Ek & _); by destruct (Hno l Hl)|].
    destruct Hp as (p & _ & Hlen & Hcl); [intros ? ? ? _ ?; lia|].
    exists p. unfold Smt.verify_absence, Smt.root. rewrite Hlen, Hcl. apply Z.eqb_refl.
Qed.

(** C6: the tree determines the state.  Two states with the same tree agree on every
    committed field: the validators, the participation, the randomness of the window, the
    finality engine, the votes, the deposits, delegations and their owners, the rewards and
    losses, the evidence, the fees, the supply, the keys, the bytes of the second layer and
    the unspent outputs.  The fields must be within their widths and SHA3 must not collide
    on the leaves of the two states. *)
Theorem state_tree_binding s1 s2 t :
  (∀ bs, is_hash (sha3_256 bs)) → tree_wf X s1 → tree_wf X s2 → outputs_wf s1 → outputs_wf s2 →
  collision_free (λ l, state_leaf s1 l ∨ state_leaf s2 l) →
  compute_tree s1 = Some t → compute_tree s2 = Some t →
  agrees s1 s2 ∧ Utxo.entries (eutxos s1) = Utxo.entries (eutxos s2).
Proof.
  intros Hsha H1 H2 O1 O2 Hc E1 E2.
  assert (collision_free (λ l, state_leaf s2 l ∨ state_leaf s1 l)) as Hc' by (intros a b Ha Hb; apply Hc; tauto).
  assert (∀ l, state_leaf s1 l ↔ state_leaf s2 l) as Hl by (intros l; split; by eapply same_tree_incl).
  split.
  - apply leaves_determine; [apply H1|apply H2|]. intros l.
    assert (∀ s, l ∈ tagged s ↔ state_leaf s l ∧ l.1 ≠ Utxo.TAG_EUTXO) as Ht; [|by rewrite !Ht, Hl].
    intros s. split; [intros Hin; split; [by left|by eapply tagged_not_utxo]|].
    by intros [[Hin|(o & e & _ & ->)] Hne].
  - assert (∀ sa sb, tree_wf X sa → tree_wf X sb → outputs_wf sa → outputs_wf sb → (∀ l, state_leaf sa l → state_leaf sb l) →
      ∀ o e, Utxo.entries (eutxos sa) !! o = Some e → Utxo.entries (eutxos sb) !! o = Some e) as Hin.
    { intros sa sb Ha Hb Oa Ob Hab o e He. destruct (Hab (utxo_leaf e)) as [Hx|(o' & e' & He' & E)]; [right; eauto| |].
      - by apply tagged_not_utxo in Hx.
      - apply (f_equal (λ l, l.2.2)) in E. cbn [snd utxo_leaf] in E.
        apply output_bytes_inj in E as ->; [|by apply (Oa o)|by apply (Ob o')].
        by rewrite <- (Utxo.wf_keyed _ _ (tw_outputs _ _ Ha) _ _ He), (Utxo.wf_keyed _ _ (tw_outputs _ _ Hb) _ _ He'). }
    apply map_eq. intros o. apply option_eq. intros e. split; apply Hin; try done; intros l; apply Hl.
Qed.

(** A validator's record is read back.  [from_canonical_bytes] inverts
    [canonical_bytes] on records within their widths, and accepts nothing else: the bytes it
    accepts are exactly the canonical ones. *)
Theorem validator_record_round_trip bs r :
  Forall is_byte bs → from_canonical_bytes bs = Some r ↔ committed_wf r ∧ bs = validator_serialize r.
Proof.
  intros Hb. rewrite <- (codec_whole _ _ _ bs r codec_validator Hb). unfold from_canonical_bytes.
  destruct (read_validator bs) as [[r' [|b rest]]|e]; split; congruence.
Qed.
End theorems.

(** ** A block and its state root *)

(** A polynomial on the inputs that are not the ones of an inner node, so that the leaves of
    the sample have distinct keys and values. *)
Definition sr_sha : Sha3 := λ bs,
  if (length bs =? length (Smt.node_input 0 0))%nat then 0
  else foldl (λ a x, (a * 257 + x + 1) mod (2 ^ 61 - 1)) 1 bs.
Definition sr_output : Utxo.EutxoEntry := Utxo.mkEntry 21 3 5000 77.
Definition sr_pre : CommittedState :=
  default Epoch.ex_genesis (@genesis sr_sha Block.ex_rules 9 9 Block.ex_validators [] 0 0 0 (mkEvm 0 0 0 0) [sr_output]).
Definition sr_envelope (mix root : hash) : Slashing.ProposalEnvelope :=
  Slashing.mkEnvelope (Header.mkHeader Header.VERSION_G4 9 root (default 0 (@Body.body_root sr_sha [])) 1 0 5 mix 9 9
    (default 0 (@Body.attestation_root sr_sha [])) (@Block.coherence_root sr_sha sr_pre)) [].
Definition sr_mix : hash := @Beacon.mix_in sr_sha 9 5.
Definition sr_run (root : hash) : outcome Block.TransitionError CommittedState :=
  @Block.compute_post_state sr_sha Block.ex_keccak Epoch.ex_xof Block.ex_shake 1 mainnet Block.ex_rules Epoch.ex_build None sr_pre
    (sr_envelope sr_mix root) Transfer.ex_verifier [] [].
Definition sr_post : CommittedState := Eval vm_compute in match sr_run 0 with Ret s => s | _ => sr_pre end.
Definition sr_outputs : gset Utxo.Outpoint := {[ Utxo.outpoint sr_output ]}.

Lemma sr_sha_range bs : is_hash (@sha3_256 sr_sha bs).
Proof.
  unfold sha3_256, sr_sha, is_hash. case_match; [lia|]. induction bs as [|x bs _] using rev_ind; [cbn; lia|].
  rewrite foldl_app. cbn [foldl]. pose proof (Z.mod_pos_bound (foldl (λ a x, (a * 257 + x + 1) mod (2 ^ 61 - 1)) 1 bs * 257 + x + 1) (2 ^ 61 - 1)). lia.
Qed.

Lemma sr_node a b : @Smt.node_hash sr_sha a b = 0.
Proof.
  unfold Smt.node_hash, Smt.sha3, sha3_256, sr_sha, Smt.node_input, hash_bytes.
  by rewrite !length_app, !length_concat.
Qed.

Lemma sr_ref_root n m : @Smt.ref_root sr_sha (S n) m = 0.
Proof. cbn [Smt.ref_root]. case_decide; [cbn [Smt.empty_height]|]; apply sr_node. Qed.

Lemma sr_root t m : @Smt.tree_of sr_sha t m → @Smt.root sr_sha t = 0.
Proof.
  intros (Hc & _). unfold Smt.root. rewrite (@Smt.canonical_hash sr_sha _ _ _ Hc) by (unfold Smt.TREE_DEPTH; lia).
  apply (sr_ref_root 255).
Qed.

Lemma sr_ran :
  @Block.compute_post_state sr_sha Block.ex_keccak Epoch.ex_xof Block.ex_shake 1 mainnet Block.ex_rules Epoch.ex_build None sr_pre
    (sr_envelope sr_mix 0) Transfer.ex_verifier [] [] = Ret sr_post.
Proof. vm_compute. reflexivity. Qed.

Global Instance sr_distinct : @Utxo.DistinctKeys sr_sha sr_outputs.
Proof.
  split; [intros o _; apply sr_sha_range|]. unfold sr_outputs. intros o o' ->%elem_of_singleton ->%elem_of_singleton. done.
Qed.

Ltac sr_decide := apply (bool_decide_unpack _); vm_compute; exact I.
Ltac sr_field := unfold u32_keys, any_value, u64_map, roots_map, checkpoint_wf, is_hash, is_int; first [exact I|sr_decide].

Lemma sr_validators r : r ∈ committed_validators sr_post → committed_wf r.
Proof.
  revert r. apply Forall_forall. unfold committed_wf, is_bytes, is_byte, is_hash, is_int. sr_decide.
Qed.

Lemma sr_finality : finality_wf (finality_engine sr_post).
Proof. constructor; sr_field. Qed.

Lemma sr_fields : fields_wf sr_post.
Proof.
  constructor; try sr_field; [apply sr_validators|apply sr_finality|by apply Forall_nil|]. change (kes sr_post) with (∅ : gmap Z Kes.KesEntry). apply map_Forall_empty.
Qed.

(** The leaves of a state as a list. *)
Definition sr_leaves (s : CommittedState) : list (Z * leaf) :=
  tagged s ++ (utxo_leaf <$> (map_to_list (Utxo.entries (eutxos s))).*2).

Lemma sr_leaves_spec s l : state_leaf s l → l ∈ sr_leaves s.
Proof.
  unfold sr_leaves. rewrite elem_of_app. intros [H|(o & e & H%elem_of_map_to_list & ->)]; [by left|right].
  apply list_elem_of_fmap_2. by apply (list_elem_of_fmap_2 snd) in H.
Qed.

Definition sr_distinct_leaves (ls : list (Z * leaf)) : bool :=
  forallb (λ a, forallb (λ b,
    (negb (@leaf_at sr_sha a =? @leaf_at sr_sha b) || bool_decide (a.1 = b.1 ∧ a.2.1 = b.2.1)) &&
    (negb (@Smt.hash_value sr_sha a.2.2 =? @Smt.hash_value sr_sha b.2.2) || bool_decide (a.2.2 = b.2.2))) ls) ls.

Lemma sr_collision_free ls (P : Z * leaf → Prop) :
  sr_distinct_leaves ls = true → (∀ l, P l → l ∈ ls) → @collision_free sr_sha P.
Proof.
  unfold sr_distinct_leaves. rewrite forallb_forall. intros H HP a b Ha Hb.
  apply HP, list_elem_of_In in Ha, Hb. apply H in Ha. rewrite forallb_forall in Ha. apply Ha in Hb. clear - Hb.
  apply andb_true_iff in Hb as [H1 H2]. split; intros E.
  - rewrite (proj2 (Z.eqb_eq _ _) E) in H1. by apply bool_decide_eq_true in H1.
  - rewrite (proj2 (Z.eqb_eq _ _) E) in H2. by apply bool_decide_eq_true in H2.
Qed.

Lemma sr_leaves_distinct : sr_distinct_leaves (sr_leaves sr_post) = true.
Proof. vm_compute. reflexivity. Qed.

Lemma sr_set_wf : @Utxo.set_wf sr_sha sr_outputs (eutxos sr_post).
Proof.
  destruct (@Utxo.from_entries_wf sr_sha sr_outputs sr_distinct {[ Utxo.outpoint sr_output := sr_output ]}) as (u & Eu & _ & Hu).
  - unfold sr_outputs. set_solver.
  - by intros o e [<- <-]%lookup_singleton_Some.
  - by apply map_Forall_singleton.
  - vm_compute. discriminate.
  - assert (u = eutxos sr_post) as <-; [|done]. apply (inj Some). rewrite <- Eu. vm_compute. reflexivity.
Qed.

Lemma sr_tree_wf : @tree_wf sr_sha sr_outputs sr_post.
Proof.
  split; [apply sr_fields|apply sr_set_wf|]. apply (sr_collision_free (sr_leaves sr_post)); [apply sr_leaves_distinct|].
  apply sr_leaves_spec.
Qed.

Lemma sr_outputs_wf : outputs_wf sr_post.
Proof. unfold outputs_wf, is_hash, is_int. sr_decide. Qed.

Lemma sr_accepted :
  @apply_block sr_sha Block.ex_keccak Epoch.ex_xof Block.ex_shake 1 mainnet Block.ex_rules Epoch.ex_build None sr_pre
    (sr_envelope sr_mix 0) Transfer.ex_verifier [] [] = Ret sr_post.
Proof.
  destruct (@compute_tree_lookup sr_sha sr_outputs sr_distinct sr_post sr_sha_range sr_tree_wf) as (t & m & Et & Ht & _).
  apply (@apply_block_Ret sr_sha Block.ex_keccak Epoch.ex_xof Block.ex_shake 1 mainnet Block.ex_rules Epoch.ex_build None
    _ _ _ _ _ _ t sr_ran Et). exact (sr_root t m Ht).
Qed.

Lemma header_commits_state_witness :
  (∀ l, state_leaf sr_post l →
    ∃ p, @Smt.verify_inclusion sr_sha 0 (@leaf_at sr_sha l) (@Smt.hash_value sr_sha l.2.2) p = true) ∧
  state_leaf sr_post (utxo_leaf sr_output).
Proof.
  split.
  - apply (@header_commits_state sr_sha Block.ex_keccak Epoch.ex_xof Block.ex_shake 1 mainnet Block.ex_rules Epoch.ex_build None
      sr_outputs sr_distinct sr_pre (sr_envelope sr_mix 0) Transfer.ex_verifier [] [] sr_post).
    + exact sr_accepted.
    + exact sr_sha_range.
    + exact sr_tree_wf.
  - right. exists (Utxo.outpoint sr_output), sr_output. split; [vm_compute; reflexivity|done].
Defined.

(** The same state at another block. *)
Definition sr_other : CommittedState := sr_post <| State.head := 123 |>.

Lemma sr_other_wf : @tree_wf sr_sha sr_outputs sr_other.
Proof. destruct sr_tree_wf as [Hf Ho Hc]. destruct Hf. split; [by split|exact Ho|exact Hc]. Qed.

Lemma state_tree_binding_witness : agrees sr_post sr_other ∧ Utxo.entries (eutxos sr_post) = Utxo.entries (eutxos sr_other).
Proof.
  destruct (@compute_tree_lookup sr_sha sr_outputs sr_distinct sr_post sr_sha_range sr_tree_wf) as (t & m & Et & _).
  apply (@state_tree_binding sr_sha sr_outputs sr_distinct sr_post sr_other t).
  - exact sr_sha_range.
  - exact sr_tree_wf.
  - exact sr_other_wf.
  - exact sr_outputs_wf.
  - exact sr_outputs_wf.
  - apply (sr_collision_free (sr_leaves sr_post)); [exact sr_leaves_distinct|]. intros l [H|H]; by apply sr_leaves_spec.
  - exact Et.
  - exact Et.
Defined.

Definition sr_record : CommittedValidatorRecord := mkCommitted 3 [1; 2] 50 0 u64_MAX true 9 4 u64_MAX [] 500.

Lemma validator_record_round_trip_witness :
  from_canonical_bytes (validator_serialize sr_record) = Some sr_record.
Proof.
  apply (validator_record_round_trip (validator_serialize sr_record) sr_record).
  - apply (bool_decide_unpack _). vm_compute. exact I.
  - split; [|done]. unfold committed_wf, is_bytes, is_byte, is_hash, is_int. sr_decide.
Defined.
End StateRoot.
